(* ===== verification/_CoqProject ===== *)
-Q . S2P
Prelude.v
BTree.v
Bytes.v
Refined.v
Message.v
Finalizer.v
MessageState.v
ConflictResolution.v
RadixCodec.v
RadixTree.v
RadixTreeSpec.v
RadixHistory.v
Block.v
DagStore.v
BlockDag.v
Validate.v
Casper.v
BlockReceiver.v
BlockReceiverSpec.v
LfsRequester.v
LfsRequesterSpec.v
Trace.v
HotStore.v
Scodec.v
SpaceMatcher.v
NativeStore.v
RSpace.v
HistoryRepository.v
Merger.v
MergerSpec.v
HistorySpec.v
RSpaceSpec.v
ReplayRSpace.v
ReplaySpec.v
ReplayComplete.v
ReplayExample.v
HistoryExample.v
Ast.v
ParOps.v
Types.v
Sorter.v
SorterSpec.v
Congruence.v
Accounting.v
Substitute.v
SubstituteSpec.v
Blake2b.v
Blake2bSpec.v
BipartiteMatch.v
ParCount.v
Matcher.v
MatcherSpec.v
Text.v
Eval.v
EvalSpec.v
Reduce.v
ReduceSpec.v
NumberChannels.v
NumberChannelsSpec.v
MergeIndex.v
MergeIndexSpec.v
