(* ===== verification/Prelude.v ===== *)
(** * RChain node: consensus, storage and interpreter

    A verification of the core of the node under [src/].  A block is validated
    and indexed in the DAG, the DAG is finalized, branches are merged, deploys
    are reduced by the Rholang interpreter against the tuple space, and the
    tuple space is checkpointed in a Merkle history.

    ** Files and what they model

    _Shared._  [Prelude] (results, the state-and-error monad, machine integers,
    loops with fuel), [BTree] (ordered collections), [Bytes], [Refined]
    ([shared/src/refined.rs], [base16.rs]), [Text] (string functions).

    _DAG and finality._  [Message], [Finalizer], [MessageState]
    ([block-storage/src/dag/message_map.rs], [finalizer.rs],
    [message_state.rs], [sdk/src/consensus.rs]).

    _Blocks._  [Block] (data), [DagStore] ([metadata_store.rs],
    [representation.rs], [casper/src/block_metadata_store.rs]), [BlockDag]
    ([casper/src/dag.rs]), [Validate] ([casper/src/validate.rs]) and [Casper]
    ([multi_parent_casper.rs], the merge scope of [merging.rs], the checkpoint
    of [interpreter_util.rs], one step of [block_processor.rs]).  The state of
    the storage is the record [Storage]; its operations return the changed
    storage also when they fail.  [BlockReceiver] and [BlockReceiverSpec]
    ([casper/src/blocks/block_receiver.rs] and the loop of
    [block_processor.rs]): the tasks between the network and the DAG are the
    steps of one machine, [node_step].  [LfsRequester] and [LfsRequesterSpec]
    ([casper/src/engine/mod.rs], [lfs_block_requester.rs]): the download of the
    blocks of the finalized state, with the steps [sync_step].

    _Merging._  [ConflictResolution] ([sdk/src/dag/merging.rs]); [Merger] and
    [MergerSpec] ([rspace/src/merger/]: indices of event logs, conflicts,
    changes of the state); [NumberChannels] and [NumberChannelsSpec]
    ([rholang/src/merging.rs] and the mergeable store of
    [casper/src/runtime_manager.rs]); [MergeIndex] and [MergeIndexSpec]
    ([casper/src/merging.rs], [event_converter.rs]: the index of a block and
    the merged state).

    _History._  [RadixCodec] and [RadixTree] ([rspace/src/history/]
    [key_segment.rs], [radix_tree.rs], [instances/radix_history.rs]),
    [RadixTreeSpec], [RadixHistory]; [Scodec] (row encodings),
    [HistoryRepository], [HistorySpec], [HistoryExample].

    _Tuple space._  [Trace] (events, stable hashes), [HotStore],
    [SpaceMatcher], [NativeStore], [RSpace], [RSpaceSpec] (play);
    [ReplayRSpace], [ReplaySpec], [ReplayComplete], [ReplayExample] (replay).
    A space uses the history through the class [HistoryOps], which
    [HistoryRepository] implements.

    _Rholang terms._  [Ast], [ParOps], [Types], [Sorter], [SorterSpec],
    [Congruence] ([models/src/ast.rs], [par_ops.rs], [types.rs], [sorter.rs],
    [sorted.rs]).  Structs are records over the type of the processes in them
    and [Par] closes the recursion, so the functions on a part of a term take
    the function on processes as an argument.

    _Interpreter._  [Accounting] ([rholang/src/accounting.rs], [errors.rs]),
    [Substitute] and [SubstituteSpec] ([env.rs], [substitute.rs]), [Blake2b]
    and [Blake2bSpec] ([crypto/src/hash/blake2b512_block.rs],
    [blake2b512_random.rs]), [BipartiteMatch], [ParCount], [Matcher],
    [MatcherSpec] ([rholang/src/matcher/]), [Eval] and [EvalSpec] (expressions
    of [reduce.rs]), [Reduce] and [ReduceSpec] (the rest of [reduce.rs],
    [dispatch.rs], [storage.rs]).  The reducer uses a tuple space through the
    class [SpaceOps].

    ** What the theorems show

    - Validation accepts exactly the acceptable blocks that reproduce their
      state from the state their valid parents give; inserting keeps the DAG
      consistent.  A restart rebuilds the view of a DAG without failed blocks,
      and fails exactly when a valid block has a failed justification.
    - Two detected fringes share supporters with more than a third of the
      stake.  Without equivocation the next fringe is newer at every sender
      whose justification is newer than the previous fringe.
    - Conflict resolution splits the conflict set without conflicts among the
      accepted items; for a symmetric conflict map the search for rejections
      gives those of the maximal independent sets.
    - The receiver tracks the parents of the stored blocks in every
      interleaving of its tasks.  The requester of the finalized state has the
      ancestry of the fringe when it finishes, and it can finish while no
      invalid block arrives.
    - Event-log indices form a monoid, commutative up to the equality of
      events; conflicts are characterized, and symmetric for logs that agree
      on shared events; branches that remove different data merge to what they
      leave one after the other; the mergeable store returns what was saved.
    - The history refines a finite map, and the root after any batches is
      determined by the contents.  A checkpoint without collisions of digests
      keeps the contents, and a reset restores them.
    - A consume on distinct channels fires exactly when every pattern has a
      datum.  A produce is stored only if it enables no continuation that the
      joins of its channel lead to, and uses its datum unless the one it fires
      was enabled before.  A replay that passes its check performed exactly
      the recorded communications that mention an event of the log; the replay
      of a run with distinct events, in which every produce that fires uses
      its own datum, succeeds.
    - Sorting decides congruence and keeps terms well typed; substitution is
      total on well-formed terms and keeps them well formed.
    - A match changes bindings only at variables of its pattern; evaluation
      terminates with values; the generator of names survives serialization.
    - Resolving terms concurrently is independent of the schedule when it
      succeeds; a successful reduction accounts for its charges and steps.
    - The theorems of kind error show, on concrete or general inputs, where
      the code departs from what it documents.

    ** Conventions and bounds

    A [Result] is an error path, a panic is a value of its own ([None], or a
    constructor such as [Panicked]).  Integers are [Z], wrapped or saturated
    where the source does; the levels and shifts of environments and binders
    are unbounded, where the source has [i32].  A loop that is not structural takes fuel, and a
    lemma or theorem gives fuel that is enough: [finalization_round_terminates]
    for a round of finalization, [traverse_terminates] for the traversal of
    acyclic dependencies, [validate_terminates] for the node parser,
    [block_summary_exact] for the search for repeated deploys ([repeat_fuel]),
    [find_match_terminates] for augmenting paths ([search_fuel], quadratic in
    the number of targets), [varint_val_loop] for variable-length integers.
    The depth of [eval_expr] stands for the native
    stack; [evaluation_terminates] gives a depth that suffices.  The fuel of
    [apply_effect] bounds a computation that need not end; theorems about it
    hold for every fuel.  An operation under a lock is one function on the
    state; concurrent tasks are sequences of charges under a schedule.

    Parameters, with the hypotheses each theorem names: digests and signature
    algorithms, the protobuf encodings, big-integer parsing and printing, the
    built-in processes, and the matcher in the generic tuple space.

    ** Not modelled

    - [models/src/wire.rs] and the message types around it convert to and from
      types that the build generates; the interpreter takes the encoding of a
      process as a parameter.
    - The parser, the normalizer and the pretty printer of Rholang
      ([rholang/src/parser.rs], [normalizer.rs], [pretty_printer.rs]) and the
      built-in processes and the registry ([system_processes.rs],
      [registry.rs], [native_state.rs]).
    - The runtime and its managers ([rholang/src/runtime.rs],
      [casper/src/runtime_manager.rs] but the mergeable store,
      [runtime_replay.rs]), the proposer, the block retriever, the engine but
      the block requester ([casper/src/blocks/], [engine/]), genesis and the
      APIs.
    - [MergeScope::merge], which feeds the chains of the blocks to the conflict
      resolution: the chains have an order that does not agree with their
      equality, and the resolution is modelled for orders that do.  The cache
      of block indices.
    - State export ([rspace/src/state/]).
    - The network ([comm/]), the node ([node/]), storage back ends, logging and
      metrics ([shared/]), cryptographic libraries ([crypto/] but the
      generator), drawing of graphs ([graphz/]) and [qucalc/]: input and
      output, or calls of libraries.

    The tuple space of the interpreter is not instantiated with [RSpace]: the
    equality of channels ignores caches, while [RSpace] keys maps by
    equality of terms. *)

From stdpp Require Export base tactics numbers list gmap sets sorting.
From Stdlib Require Export ZArith Lia.

Declare Scope rust_scope.
Delimit Scope rust_scope with rust.
Open Scope rust_scope.
Open Scope Z_scope.

(** A decidable closed goal, by running its decision procedure in the VM. *)
Ltac vm_decide := apply (bool_decide_unpack _); vm_compute; exact I.

(** ** Results *)

(** Rust's [Result<A, E>]. *)
Inductive Result (A E : Type) : Type :=
| Ok (a : A)
| Err (e : E).
Arguments Ok {A E} a.
Arguments Err {A E} e.

(** Rust's [?] operator: continue on [Ok], return early on [Err]. *)
Notation "x ←? e ; k" :=
  (match e with Ok x => k | Err err => Err err end)
  (at level 20, e at level 100, k at level 200) : rust_scope.

(** [Option::ok_or]. *)
Definition ok_or {A E} (o : option A) (e : E) : Result A E :=
  match o with Some a => Ok a | None => Err e end.

(** [Iterator::try_fold]-like traversal of a list by a fallible function. *)
Fixpoint try_map {A B E} (f : A → Result B E) (l : list A) : Result (list B) E :=
  match l with
  | [] => Ok []
  | a :: l' => b ←? f a; bs ←? try_map f l'; Ok (b :: bs)
  end.

Lemma try_map_Ok {A B E} (f : A → Result B E) l bs :
  try_map f l = Ok bs ↔ Forall2 (λ a b, f a = Ok b) l bs.
Proof.
  revert bs. induction l as [|a l IH]; intros bs; simpl.
  - split; [intros [= <-]; constructor | by inversion 1].
  - destruct (f a) as [b|e] eqn:Ha.
    + destruct (try_map f l) as [bs'|e'].
      * split.
        -- intros [= <-]. constructor; [done|]. by apply IH.
        -- inversion 1 as [|? ? ? ? Hb Hl]; subst.
           apply IH in Hl. congruence.
      * split; [done|]. inversion 1 as [|? ? ? ? Hb Hl]; subst.
        by apply IH in Hl.
    + split; [done|]. inversion 1; congruence.
Qed.

(** ** Operations on mutable state that can fail

    A method that takes [&self] of an object with interior state and returns a
    [Result] is a function from the state to the new state and the result;
    the writes made before an error are kept. *)
Definition StateResult (S A E : Type) : Type := S → S * Result A E.

Section StateResult.
Context {S E : Type}.

Definition sr_ret {A} (a : A) : StateResult S A E := λ s, (s, Ok a).
Definition sr_err {A} (e : E) : StateResult S A E := λ s, (s, Err e).
Definition sr_bind {A B} (m : StateResult S A E) (k : A → StateResult S B E) :
    StateResult S B E := λ s,
  match m s with
  | (s', Ok a) => k a s'
  | (s', Err e) => (s', Err e)
  end.
Definition sr_gets {A} (f : S → A) : StateResult S A E := λ s, (s, Ok (f s)).
Definition sr_modify (f : S → S) : StateResult S unit E := λ s, (f s, Ok ()).
Definition sr_lift {A} (r : Result A E) : StateResult S A E := λ s, (s, r).

(** [for a in l { f(a)?; }]. *)
Fixpoint sr_iter {A} (f : A → StateResult S unit E) (l : list A) : StateResult S unit E :=
  match l with
  | [] => sr_ret ()
  | a :: l' => sr_bind (f a) (λ _, sr_iter f l')
  end.

(** The loop that collects the results. *)
Fixpoint sr_map {A B} (f : A → StateResult S B E) (l : list A) : StateResult S (list B) E :=
  match l with
  | [] => sr_ret []
  | a :: l' => sr_bind (f a) (λ b, sr_bind (sr_map f l') (λ bs, sr_ret (b :: bs)))
  end.

Lemma sr_bind_Ok {A B} (m : StateResult S A E) (k : A → StateResult S B E) s s' a :
  m s = (s', Ok a) → sr_bind m k s = k a s'.
Proof. unfold sr_bind. by intros ->. Qed.
End StateResult.

(** An operation on a part of the state. *)
Definition sr_zoom {S T A E} (get : S → T) (put : T → S → S) (m : StateResult T A E) :
    StateResult S A E := λ s,
  let '(t, r) := m (get s) in (put t s, r).

Notation "x ←$ m ; k" := (sr_bind m (λ x, k))
  (at level 20, m at level 100, k at level 200) : rust_scope.

(** ** Machine integers

    A [w]-bit integer of the source is a [Z]; the operations write out the
    behaviour of the release build (two's complement wrap-around). *)

Definition i64_max : Z := 2 ^ 63 - 1.
Definition i64_min : Z := - 2 ^ 63.
Definition i128_max : Z := 2 ^ 127 - 1.
Definition i128_min : Z := - 2 ^ 127.

Definition i64_range (z : Z) : Prop := i64_min ≤ z ≤ i64_max.
Definition i128_range (z : Z) : Prop := i128_min ≤ z ≤ i128_max.

Definition i64_wrap (z : Z) : Z := (z + 2 ^ 63) mod 2 ^ 64 - 2 ^ 63.
Definition i128_wrap (z : Z) : Z := (z + 2 ^ 127) mod 2 ^ 128 - 2 ^ 127.

(** [i64::checked_add]. *)
Definition i64_checked_add (a b : Z) : option Z :=
  let r := a + b in
  if (i64_min <=? r) && (r <=? i64_max) then Some r else None.

(** [i64::saturating_add]. *)
Definition i64_saturating_add (a b : Z) : Z := Z.max i64_min (Z.min i64_max (a + b)).

(** Rewriting database for the machine-integer constants. *)
Ltac unfold_ints :=
  unfold i64_range, i128_range, i64_max, i64_min, i128_max, i128_min in *.

Lemma i64_wrap_id z : i64_range z → i64_wrap z = z.
Proof. unfold i64_wrap. unfold_ints. intros. rewrite Z.mod_small; lia. Qed.

Lemma i64_wrap_range z : i64_range (i64_wrap z).
Proof.
  unfold i64_wrap. unfold_ints.
  pose proof (Z.mod_pos_bound (z + 2 ^ 63) (2 ^ 64)). lia.
Qed.

Lemma i128_wrap_id z : i128_range z → i128_wrap z = z.
Proof. unfold i128_wrap. unfold_ints. intros. rewrite Z.mod_small; lia. Qed.

Lemma i64_checked_add_Some a b r :
  i64_checked_add a b = Some r ↔ r = a + b ∧ i64_range r.
Proof.
  unfold i64_checked_add. unfold_ints.
  destruct (_ && _) eqn:E.
  - apply andb_true_iff in E as [?%Z.leb_le ?%Z.leb_le].
    split; [intros [= <-]; lia | intros [-> _]; done].
  - apply andb_false_iff in E.
    split; [done | intros [-> ?]]. destruct E as [?%Z.leb_gt | ?%Z.leb_gt]; lia.
Qed.

Lemma i64_saturating_add_nonneg a b :
  0 ≤ a ≤ i64_max → 0 ≤ b ≤ i64_max →
  0 ≤ i64_saturating_add a b ≤ i64_max ∧ a ≤ i64_saturating_add a b.
Proof. unfold i64_saturating_add. unfold_ints. lia. Qed.

(** ** Loops

    A [loop]/[while] of the source is a step function that either continues
    with a new state or returns; [loop] runs it with a bound on the number of
    iterations and returns [None] only when the bound is exhausted. *)
Section Loop.
Context {St R : Type} (step : St → St + R).

Fixpoint loop (fuel : nat) (s : St) : option R :=
  match fuel with
  | O => None
  | S fuel' =>
      match step s with
      | inl s' => loop fuel' s'
      | inr r => Some r
      end
  end.

(** Termination: a measure that decreases under an invariant. *)
Lemma loop_terminates (Inv : St → Prop) (μ : St → nat) :
  (∀ s s', Inv s → step s = inl s' → Inv s' ∧ (μ s' < μ s)%nat) →
  ∀ fuel s, Inv s → (μ s < fuel)%nat → is_Some (loop fuel s).
Proof.
  intros Hstep fuel. induction fuel as [|fuel IH]; intros s Hs Hμ; [lia|].
  simpl. destruct (step s) as [s'|r] eqn:E; [|eauto].
  destruct (Hstep _ _ Hs E). apply IH; [done|lia].
Qed.

(** Partial correctness: an invariant that gives the postcondition. *)
Lemma loop_inv (Inv : St → Prop) (Post : R → Prop) :
  (∀ s s', Inv s → step s = inl s' → Inv s') →
  (∀ s r, Inv s → step s = inr r → Post r) →
  ∀ fuel s r, Inv s → loop fuel s = Some r → Post r.
Proof.
  intros Hstep Hdone fuel. induction fuel as [|fuel IH]; intros s r Hs; [done|].
  simpl. destruct (step s) as [s'|r'] eqn:E.
  - apply IH. by eapply Hstep.
  - intros [= <-]. by eapply Hdone.
Qed.

(** More iterations do not change a result. *)
Lemma loop_mono fuel fuel' s r :
  loop fuel s = Some r → (fuel ≤ fuel')%nat → loop fuel' s = Some r.
Proof.
  revert fuel' s. induction fuel as [|fuel IH]; intros fuel' s; [done|].
  destruct fuel' as [|fuel']; simpl; [lia|].
  destruct (step s); [|done]. intros ??. apply IH; [done|lia].
Qed.

Lemma loop_det fuel fuel' s r r' :
  loop fuel s = Some r → loop fuel' s = Some r' → r = r'.
Proof.
  intros H H'. apply (loop_mono _ (max fuel fuel')) in H; [|lia].
  apply (loop_mono _ (max fuel fuel')) in H'; [|lia]. congruence.
Qed.
End Loop.

(** Total reading of a loop: the value it returns, [d] if the bound is too
    small (ruled out by a termination lemma wherever it is used). *)
Definition run_loop {St R} (d : R) (step : St → St + R) (fuel : nat) (s : St) : R :=
  default d (loop step fuel s).

Lemma run_loop_inv {St R} (d : R) (step : St → St + R) fuel s
    (Inv : St → Prop) (Post : R → Prop) (μ : St → nat) :
  (∀ s s', Inv s → step s = inl s' → Inv s' ∧ (μ s' < μ s)%nat) →
  (∀ s r, Inv s → step s = inr r → Post r) →
  Inv s → (μ s < fuel)%nat → Post (run_loop d step fuel s).
Proof.
  intros Hstep Hdone Hs Hμ. unfold run_loop.
  destruct (loop_terminates step Inv μ Hstep fuel s Hs Hμ) as [r Hr].
  rewrite Hr. simpl. eapply (loop_inv step Inv Post); [| |done..]; [|done].
  intros. by eapply Hstep.
Qed.

(** ** Lists *)

(** [Iterator::max_by_key]: the {e last} of the elements with a maximal key;
    [gtb k k'] decides [k > k']. *)
Fixpoint max_by_key {A K} (gtb : K → K → bool) (key : A → K) (l : list A) : option A :=
  match l with
  | [] => None
  | a :: l' =>
      match max_by_key gtb key l' with
      | None => Some a
      | Some b => if gtb (key a) (key b) then Some a else Some b
      end
  end.

(** [Iterator::min_by_key]: the {e first} of the elements with a minimal key. *)
Fixpoint min_by_key {A K} (gtb : K → K → bool) (key : A → K) (l : list A) : option A :=
  match l with
  | [] => None
  | a :: l' =>
      match min_by_key gtb key l' with
      | None => Some a
      | Some b => if gtb (key a) (key b) then Some b else Some a
      end
  end.

Lemma max_by_key_elem {A K} gtb (key : A → K) l a :
  max_by_key gtb key l = Some a → a ∈ l.
Proof.
  revert a. induction l as [|b l IH]; intros a; simpl; [done|].
  destruct (max_by_key gtb key l) as [c|]; [|intros [= ->]; by left].
  destruct (gtb _ _); intros [= ->]; [by left | right; auto].
Qed.

Lemma min_by_key_elem {A K} gtb (key : A → K) l a :
  min_by_key gtb key l = Some a → a ∈ l.
Proof.
  revert a. induction l as [|b l IH]; intros a; simpl; [done|].
  destruct (min_by_key gtb key l) as [c|]; [|intros [= ->]; by left].
  destruct (gtb _ _); intros [= ->]; [right; auto | by left].
Qed.

Lemma max_by_key_None {A K} gtb (key : A → K) l :
  max_by_key gtb key l = None ↔ l = [].
Proof.
  destruct l as [|a l]; simpl; [done|]. split; [|done].
  destruct (max_by_key gtb key l); [destruct (gtb _ _)|]; done.
Qed.

Lemma min_by_key_None {A K} gtb (key : A → K) l :
  min_by_key gtb key l = None ↔ l = [].
Proof.
  destruct l as [|a l]; simpl; [done|]. split; [|done].
  destruct (min_by_key gtb key l); [destruct (gtb _ _)|]; done.
Qed.

(** Maximality, for a comparison whose negation is a total preorder. *)
Section ByKey.
Context {A K : Type} (gtb : K → K → bool) (key : A → K).
Hypothesis gtb_irrefl : ∀ k, gtb k k = false.
Hypothesis gtb_ntrans : ∀ a b c, gtb a b = false → gtb b c = false → gtb a c = false.
Hypothesis gtb_asym : ∀ a b, gtb a b = true → gtb b a = false.

Lemma max_by_key_max l a b :
  max_by_key gtb key l = Some a → b ∈ l → gtb (key b) (key a) = false.
Proof.
  revert a b. induction l as [|c l IH]; intros a b; simpl.
  - intros _ []%elem_of_nil.
  - destruct (max_by_key gtb key l) as [d|] eqn:E.
    + destruct (gtb (key c) (key d)) eqn:G; intros [= <-] [->|Hb]%elem_of_cons; eauto.
    + intros [= <-] [->|Hb]%elem_of_cons; [done|].
      apply max_by_key_None in E. subst. by apply elem_of_nil in Hb.
Qed.

Lemma min_by_key_min l a b :
  min_by_key gtb key l = Some a → b ∈ l → gtb (key a) (key b) = false.
Proof.
  revert a b. induction l as [|c l IH]; intros a b; simpl.
  - intros _ []%elem_of_nil.
  - destruct (min_by_key gtb key l) as [d|] eqn:E.
    + destruct (gtb (key c) (key d)) eqn:G; intros [= <-] [->|Hb]%elem_of_cons; eauto.
    + intros [= <-] [->|Hb]%elem_of_cons; [done|].
      apply min_by_key_None in E. subst. by apply elem_of_nil in Hb.
Qed.
End ByKey.

(** A [for] loop whose body can fail to return: [None] propagates. *)
Fixpoint fold_opt {A B} (f : B → A → option B) (b : B) (l : list A) : option B :=
  match l with
  | [] => Some b
  | a :: l' => b' ← f b a; fold_opt f b' l'
  end.

Lemma fold_opt_is_Some {A B} (f : B → A → option B) b l :
  (∀ b a, a ∈ l → is_Some (f b a)) → is_Some (fold_opt f b l).
Proof.
  revert b. induction l as [|a l IH]; intros b Hf; simpl; [by eauto|].
  destruct (Hf b a) as [b' ->]; [by left|]. simpl. apply IH.
  intros. apply Hf. by right.
Qed.

(** Invariant rule for [fold_opt], with the elements already processed. *)
Lemma fold_opt_inv {A B} (f : B → A → option B) (Inv : list A → B → Prop) b l r :
  Inv [] b →
  (∀ done a rest b b', l = done ++ a :: rest → Inv done b → f b a = Some b' →
     Inv (done ++ [a]) b') →
  fold_opt f b l = Some r → Inv l r.
Proof.
  intros Hb Hstep.
  cut (∀ done rest b, l = done ++ rest → Inv done b → fold_opt f b rest = Some r → Inv l r).
  { intros H. by apply (H [] l b). }
  clear Hb b. intros done rest. revert done.
  induction rest as [|a rest IH]; intros done b Hl Hinv; simpl.
  - intros [= <-]. rewrite app_nil_r in Hl. by subst.
  - destruct (f b a) as [b'|] eqn:E; simpl; [|done]. intros Hr.
    apply (IH (done ++ [a]) b'); [by rewrite <- app_assoc| |done]. by eapply Hstep.
Qed.

Lemma fold_opt_elem {A B} (f : B → A → option B) b l r a :
  fold_opt f b l = Some r → a ∈ l → ∃ b0, is_Some (f b0 a).
Proof.
  revert b. induction l as [|x l IH]; intros b; [by intros _ ?%elem_of_nil|]. simpl.
  destruct (f b x) as [b'|] eqn:E; simpl; [|done].
  intros Hr [->|Ha]%elem_of_cons; [exists b; rewrite E; by eauto|by eapply IH].
Qed.

(** Sums of integers over a list. *)
Definition sum_Z {A} (f : A → Z) (l : list A) : Z := foldr (λ a acc, f a + acc) 0 l.

Lemma sum_Z_app {A} (f : A → Z) l k : sum_Z f (l ++ k) = sum_Z f l + sum_Z f k.
Proof. induction l; simpl; lia. Qed.

Lemma sum_Z_nonneg {A} (f : A → Z) l : (∀ a, a ∈ l → 0 ≤ f a) → 0 ≤ sum_Z f l.
Proof.
  induction l as [|a l IH]; simpl; [lia|]. intros H.
  specialize (IH ltac:(intros; apply H; by right)).
  specialize (H a ltac:(by left)). lia.
Qed.

#[export] Instance sum_Z_permutation {A} (f : A → Z) : Proper ((≡ₚ) ==> (=)) (sum_Z f).
Proof. intros l k. induction 1; simpl; lia. Qed.

Lemma sum_Z_ext {A} (f g : A → Z) l :
  (∀ a, a ∈ l → f a = g a) → sum_Z f l = sum_Z g l.
Proof.
  induction l as [|a l IH]; simpl; [done|]. intros H.
  rewrite (H a), IH; [done| |by left]. intros; apply H; by right.
Qed.

Lemma sum_Z_bound {A} (f : A → Z) l b :
  (∀ a, a ∈ l → f a ≤ b) → sum_Z f l ≤ b * Z.of_nat (length l).
Proof.
  induction l as [|a l IH]; simpl; [lia|]. intros H.
  specialize (IH ltac:(intros; apply H; by right)).
  specialize (H a ltac:(by left)). lia.
Qed.

Lemma sum_Z_cons {A} (f : A → Z) a l : sum_Z f (a :: l) = f a + sum_Z f l.
Proof. done. Qed.

#[global] Arguments sum_Z : simpl never.

Lemma StronglySorted_snoc {A} (R : relation A) l a :
  StronglySorted R l → (∀ x, x ∈ l → R x a) → StronglySorted R (l ++ [a]).
Proof.
  induction 1 as [|b l Hl IH Hb]; intros Ha; simpl; [repeat constructor|].
  constructor; [apply IH; intros; apply Ha; by right|].
  rewrite Forall_app. split; [done|]. constructor; [apply Ha; by left|constructor].
Qed.

(** Invariant rule for a [for] loop. *)
Lemma foldl_inv {A B} (P : B → Prop) (f : B → A → B) b l :
  P b → (∀ b a, a ∈ l → P b → P (f b a)) → P (foldl f b l).
Proof.
  revert b. induction l as [|a l IH]; intros b Hb Hf; simpl; [done|].
  apply IH; [apply Hf; [by left|done]|]. intros; apply Hf; [by right|done].
Qed.

Lemma existsb_elem {A} (f : A → bool) l :
  existsb f l = true ↔ ∃ a, a ∈ l ∧ f a = true.
Proof. rewrite existsb_exists. by setoid_rewrite list_elem_of_In. Qed.

Lemma existsb_not_elem {A} (f : A → bool) l :
  existsb f l = false ↔ ∀ a, a ∈ l → f a = false.
Proof.
  split.
  - intros Hf a Ha. destruct (f a) eqn:E; [|done].
    assert (existsb f l = true) by (apply existsb_elem; eauto). congruence.
  - intros Hf. destruct (existsb f l) eqn:E; [|done].
    apply existsb_elem in E as (a & Ha & Hfa). by rewrite (Hf a Ha) in Hfa.
Qed.

Lemma forallb_elem {A} (f : A → bool) l :
  forallb f l = true ↔ ∀ a, a ∈ l → f a = true.
Proof. rewrite forallb_forall. by setoid_rewrite list_elem_of_In. Qed.

Lemma forallb_not_elem {A} (f : A → bool) l :
  forallb f l = false ↔ ∃ a, a ∈ l ∧ f a = false.
Proof.
  split.
  - induction l as [|a l IH]; cbn; [done|]. destruct (f a) eqn:E; cbn.
    + intros (x & ? & ?)%IH. exists x. by split; [right|].
    + intros _. exists a. by split; [left|].
  - intros (a & Ha & Hfa). apply not_true_iff_false. rewrite forallb_elem. intros H.
    specialize (H a Ha). congruence.
Qed.

Lemma fmap_nil_iff {A B} (f : A → B) (l : list A) : f <$> l = [] ↔ l = [].
Proof. by destruct l. Qed.

(** A [for] loop that accumulates: every element contributes [Q]. *)
Lemma foldl_accum {A B} (P : B → Prop) (Q : A → Prop) (f : B → A → B) :
  (∀ b a, P (f b a) ↔ P b ∨ Q a) →
  ∀ l b, P (foldl f b l) ↔ P b ∨ ∃ a, a ∈ l ∧ Q a.
Proof.
  intros Hf l. induction l as [|a l IH]; intros b; simpl.
  - split; [by left|]. by intros [?|(? & ?%elem_of_nil & _)].
  - rewrite IH, Hf. setoid_rewrite elem_of_cons. split.
    + intros [[?|?]|(? & ? & ?)]; eauto.
    + intros [?|(? & [->|?] & ?)]; eauto.
Qed.

Lemma filter_ext_elem {A} (P Q : A → Prop) `{!∀ x, Decision (P x), !∀ x, Decision (Q x)} (l : list A) :
  (∀ x, x ∈ l → P x ↔ Q x) → filter P l = filter Q l.
Proof.
  induction l as [|a l IH]; intros Hl; [done|]. rewrite !filter_cons.
  rewrite IH by (intros; apply Hl; by right). assert (P a ↔ Q a) by (apply Hl; by left).
  repeat case_decide; naive_solver.
Qed.
