(* ===== verification/BTree.v ===== *)
(** * Ordered collections

    Rust's [Ord] and the ordered iteration of [BTreeSet] and [BTreeMap].
    The contents of a [BTreeSet] or [BTreeMap] are a stdpp [gset] or [gmap];
    where the source iterates, the model goes through [set_iter] or
    [map_iter], which list the contents in ascending order. *)

From S2P Require Import Prelude.

(** ** The [Ord] trait: the operation and its documented laws *)
Class Ord (A : Type) := cmp : A → A → comparison.
#[export] Hint Mode Ord ! : typeclass_instances.

Class OrdSpec (A : Type) `{!Ord A} : Prop := {
  cmp_eq (x y : A) : cmp x y = Eq ↔ x = y;
  cmp_opp (x y : A) : cmp y x = CompOpp (cmp x y);
  cmp_lt_trans (x y z : A) : cmp x y = Lt → cmp y z = Lt → cmp x z = Lt;
}.
#[export] Hint Mode OrdSpec ! - : typeclass_instances.

Definition ord_le {A} `{!Ord A} (x y : A) : Prop := cmp x y ≠ Gt.
Definition ord_lt {A} `{!Ord A} (x y : A) : Prop := cmp x y = Lt.

#[export] Instance ord_le_dec {A} `{!Ord A} (x y : A) : Decision (ord_le x y).
Proof. unfold ord_le. destruct (cmp x y); [left|left|right]; congruence. Defined.

#[export] Instance ord_lt_dec {A} `{!Ord A} (x y : A) : Decision (ord_lt x y).
Proof. unfold ord_lt. destruct (cmp x y); [right|left|right]; congruence. Defined.

Section OrdFacts.
Context {A : Type} `{!Ord A, !OrdSpec A}.
Implicit Types x y z : A.

Lemma cmp_refl x : cmp x x = Eq.
Proof. by apply cmp_eq. Qed.

Lemma cmp_gt_lt x y : cmp x y = Gt ↔ cmp y x = Lt.
Proof. rewrite (cmp_opp x y). by destruct (cmp x y). Qed.

#[global] Instance ord_le_trans : Transitive (@ord_le A _).
Proof.
  intros x y z. unfold ord_le. intros Hxy Hyz.
  destruct (cmp x y) eqn:Exy; [apply cmp_eq in Exy as ->; done| |done].
  destruct (cmp y z) eqn:Eyz; [apply cmp_eq in Eyz as ->; congruence| |done].
  by rewrite (cmp_lt_trans x y z).
Qed.

#[global] Instance ord_le_antisym : AntiSymm (=) (@ord_le A _).
Proof.
  intros x y. unfold ord_le. rewrite (cmp_opp x y).
  destruct (cmp x y) eqn:E; [by intros; apply cmp_eq|done|done].
Qed.

#[global] Instance ord_le_total : Total (@ord_le A _).
Proof.
  intros x y. unfold ord_le. rewrite (cmp_opp x y).
  destruct (cmp x y); simpl; [by left|by left|by right].
Qed.

#[global] Instance ord_le_refl : Reflexive (@ord_le A _).
Proof. intros x. unfold ord_le. by rewrite cmp_refl. Qed.

#[global] Instance ord_lt_strict : StrictOrder (@ord_lt A _).
Proof.
  split; [intros x; unfold ord_lt, complement; by rewrite cmp_refl|].
  intros x y z. apply cmp_lt_trans.
Qed.

Lemma ord_lt_le x y : ord_lt x y ↔ ord_le x y ∧ x ≠ y.
Proof.
  unfold ord_lt, ord_le. destruct (cmp x y) eqn:E.
  - apply cmp_eq in E as ->. naive_solver.
  - split; [|done]. intros _. split; [done|]. intros ->. by rewrite cmp_refl in E.
  - naive_solver.
Qed.
End OrdFacts.

(** ** Instances *)

#[export] Instance Z_ord : Ord Z := Z.compare.
#[export] Instance Z_ord_spec : OrdSpec Z.
Proof.
  split; unfold cmp, Z_ord; intros *.
  - apply Z.compare_eq_iff.
  - apply Z.compare_antisym.
  - rewrite !Z.compare_lt_iff. lia.
Qed.

#[export] Instance nat_ord : Ord nat := Nat.compare.
#[export] Instance nat_ord_spec : OrdSpec nat.
Proof.
  split; unfold cmp, nat_ord; intros *.
  - apply Nat.compare_eq_iff.
  - apply Nat.compare_antisym.
  - rewrite !Nat.compare_lt_iff. lia.
Qed.

(** Derived [Ord] of a tuple or struct: lexicographic in field order. *)
#[export] Instance prod_ord {A B} `{!Ord A, !Ord B} : Ord (A * B) := λ x y,
  match cmp x.1 y.1 with Eq => cmp x.2 y.2 | c => c end.
#[export] Instance prod_ord_spec {A B} `{!Ord A, !OrdSpec A, !Ord B, !OrdSpec B} :
  OrdSpec (A * B).
Proof.
  split; unfold cmp, prod_ord; intros [a b] [a' b']; simpl.
  - destruct (cmp a a') eqn:E.
    + apply cmp_eq in E as ->. rewrite cmp_eq. naive_solver.
    + split; [done|]. intros [= -> ->]. by rewrite cmp_refl in E.
    + split; [done|]. intros [= -> ->]. by rewrite cmp_refl in E.
  - rewrite (cmp_opp a a'). destruct (cmp a a'); simpl; [apply cmp_opp|done|done].
  - intros [a'' b'']; simpl.
    destruct (cmp a a') eqn:E; [apply cmp_eq in E as ->| |done].
    + destruct (cmp a' a''); [apply cmp_lt_trans|done|done].
    + intros _. destruct (cmp a' a'') eqn:E'; [apply cmp_eq in E' as ->| |done].
      * by rewrite E.
      * by rewrite (cmp_lt_trans a a' a'').
Qed.

(** Derived [Ord] of [Option]: [None] below every [Some]. *)
#[export] Instance option_ord {A} `{!Ord A} : Ord (option A) := λ x y,
  match x, y with
  | None, None => Eq
  | None, Some _ => Lt
  | Some _, None => Gt
  | Some a, Some b => cmp a b
  end.
#[export] Instance option_ord_spec {A} `{!Ord A, !OrdSpec A} : OrdSpec (option A).
Proof.
  split; unfold cmp, option_ord.
  - intros [x|] [y|]; [rewrite cmp_eq|..]; naive_solver.
  - intros [x|] [y|]; [apply cmp_opp|done..].
  - intros [x|] [y|] [z|]; [apply cmp_lt_trans|done..].
Qed.

(** [Ord] of sequences: lexicographic. *)
Fixpoint list_cmp {A} `{!Ord A} (l k : list A) : comparison :=
  match l, k with
  | [], [] => Eq
  | [], _ :: _ => Lt
  | _ :: _, [] => Gt
  | a :: l', b :: k' => match cmp a b with Eq => list_cmp l' k' | c => c end
  end.
#[export] Instance list_ord {A} `{!Ord A} : Ord (list A) := list_cmp.
#[export] Instance list_ord_spec {A} `{!Ord A, !OrdSpec A} : OrdSpec (list A).
Proof.
  split; unfold cmp, list_ord.
  - intros l. induction l as [|a l IH]; intros [|b k]; simpl; [done..|].
    destruct (cmp a b) eqn:E.
    + apply cmp_eq in E as ->. rewrite IH. naive_solver.
    + split; [done|]. intros [= -> ->]. by rewrite cmp_refl in E.
    + split; [done|]. intros [= -> ->]. by rewrite cmp_refl in E.
  - intros l. induction l as [|a l IH]; intros [|b k]; simpl; [done..|].
    rewrite (cmp_opp a b). destruct (cmp a b); simpl; [apply IH|done|done].
  - intros l. induction l as [|a l IH]; intros [|b k] [|c m]; simpl; [done..|].
    destruct (cmp a b) eqn:E; [apply cmp_eq in E as ->| |done].
    + destruct (cmp b c); [apply IH|done|done].
    + intros _. destruct (cmp b c) eqn:E'; [apply cmp_eq in E' as ->| |done].
      * by rewrite E.
      * by rewrite (cmp_lt_trans a b c).
Qed.

(** An order pulled back along an injective view of the type. *)
Lemma ord_spec_inj {A B} `{!Ord A, !Ord B, !OrdSpec B} (f : A → B) :
  Inj (=) (=) f → (∀ x y : A, cmp x y = cmp (f x) (f y)) → OrdSpec A.
Proof.
  intros Hinj Hf. split; intros *; rewrite !Hf.
  - rewrite cmp_eq. split; [apply Hinj|by intros ->].
  - apply cmp_opp.
  - apply cmp_lt_trans.
Qed.

(** ** Iteration in ascending order *)

(** [BTreeSet::iter]. *)
Definition set_iter {A} `{!Ord A} `{Countable A} (X : gset A) : list A :=
  merge_sort ord_le (elements X).

(** [BTreeMap::iter]. *)
Definition key_le {K V} `{!Ord K} (a b : K * V) : Prop := ord_le a.1 b.1.
#[export] Instance key_le_dec {K V} `{!Ord K} (a b : K * V) : Decision (key_le a b).
Proof. unfold key_le. apply _. Defined.

Definition map_iter {K V} `{!Ord K} `{Countable K} (m : gmap K V) : list (K * V) :=
  merge_sort key_le (map_to_list m).

(** [BTreeMap::keys] and [BTreeMap::values]. *)
Definition map_keys {K V} `{!Ord K} `{Countable K} (m : gmap K V) : list K :=
  (map_iter m).*1.
Definition map_values {K V} `{!Ord K} `{Countable K} (m : gmap K V) : list V :=
  (map_iter m).*2.

Section Iter.
Context {A : Type} `{!Ord A, !OrdSpec A} `{Countable A}.
Implicit Types X Y : gset A.

Lemma set_iter_perm X : set_iter X ≡ₚ elements X.
Proof. apply merge_sort_Permutation. Qed.

Lemma elem_of_set_iter X x : x ∈ set_iter X ↔ x ∈ X.
Proof. rewrite set_iter_perm. apply elem_of_elements. Qed.

Lemma NoDup_set_iter X : NoDup (set_iter X).
Proof. rewrite set_iter_perm. apply NoDup_elements. Qed.

Lemma set_iter_sorted X : StronglySorted ord_le (set_iter X).
Proof. apply (StronglySorted_merge_sort _). Qed.

Lemma length_set_iter X : length (set_iter X) = size X.
Proof. by rewrite set_iter_perm. Qed.

(** The iteration order is determined by the contents. *)
Lemma set_iter_unique X l :
  StronglySorted ord_le l → l ≡ₚ elements X → set_iter X = l.
Proof.
  intros Hs Hp. apply (StronglySorted_unique ord_le); [apply set_iter_sorted|done|].
  by rewrite set_iter_perm, Hp.
Qed.

Lemma set_iter_empty : set_iter (∅ : gset A) = [].
Proof. apply set_iter_unique; [constructor|]. by rewrite elements_empty. Qed.

Lemma set_iter_singleton x : set_iter ({[x]} : gset A) = [x].
Proof.
  apply set_iter_unique; [repeat constructor|]. by rewrite elements_singleton.
Qed.

Lemma set_iter_nil X : set_iter X = [] ↔ X = ∅.
Proof.
  split; [|intros ->; apply set_iter_empty].
  intros Hx. apply leibniz_equiv, elem_of_equiv_empty. intros x.
  rewrite <- elem_of_set_iter, Hx. apply not_elem_of_nil.
Qed.

Lemma list_to_set_iter X : list_to_set (set_iter X) = X.
Proof. apply leibniz_equiv. intros x. by rewrite elem_of_list_to_set, elem_of_set_iter. Qed.

#[global] Instance set_iter_inj : Inj (=) (=) (set_iter (A := A)).
Proof. intros X Y E. by rewrite <- (list_to_set_iter X), E, list_to_set_iter. Qed.
End Iter.

#[export] Instance gset_ord {A} `{!Ord A} `{Countable A} : Ord (gset A) := λ X Y,
  cmp (set_iter X) (set_iter Y).
#[export] Instance gset_ord_spec {A} `{!Ord A, !OrdSpec A} `{Countable A} :
  OrdSpec (gset A).
Proof. by apply (ord_spec_inj set_iter); [apply _|]. Qed.

Section MapIter.
Context {K V : Type} `{!Ord K, !OrdSpec K} `{Countable K}.
Implicit Types m : gmap K V.

#[local] Instance key_le_trans : Transitive (@key_le K V _).
Proof. intros x y z. unfold key_le. apply transitivity. Qed.
#[local] Instance key_le_total : Total (@key_le K V _).
Proof. intros x y. unfold key_le. apply ord_le_total. Qed.

Lemma map_iter_perm m : map_iter m ≡ₚ map_to_list m.
Proof. apply merge_sort_Permutation. Qed.

Lemma elem_of_map_iter m k v : (k, v) ∈ map_iter m ↔ m !! k = Some v.
Proof. rewrite map_iter_perm. apply elem_of_map_to_list. Qed.

Lemma map_iter_sorted m : StronglySorted key_le (map_iter m).
Proof. apply (StronglySorted_merge_sort _). Qed.

Lemma NoDup_map_iter_keys m : NoDup (map_iter m).*1.
Proof. rewrite map_iter_perm. apply NoDup_fst_map_to_list. Qed.

Lemma NoDup_map_iter m : NoDup (map_iter m).
Proof. rewrite map_iter_perm. apply NoDup_map_to_list. Qed.

Lemma length_map_iter m : length (map_iter m) = size m.
Proof. by rewrite map_iter_perm, length_map_to_list. Qed.

Lemma elem_of_map_keys m k : k ∈ map_keys m ↔ is_Some (m !! k).
Proof.
  unfold map_keys. rewrite list_elem_of_fmap. split.
  - intros ([k' v] & -> & Hin). apply elem_of_map_iter in Hin. eauto.
  - intros [v Hv]. exists (k, v). by rewrite elem_of_map_iter.
Qed.

Lemma elem_of_map_values m v : v ∈ map_values m ↔ ∃ k, m !! k = Some v.
Proof.
  unfold map_values. rewrite list_elem_of_fmap. split.
  - intros ([k v'] & -> & Hin). apply elem_of_map_iter in Hin. eauto.
  - intros [k Hv]. exists (k, v). by rewrite elem_of_map_iter.
Qed.

Lemma map_iter_nil m : map_iter m = [] ↔ m = ∅.
Proof.
  rewrite <- length_zero_iff_nil, length_map_iter. apply map_size_empty_iff.
Qed.

Lemma map_values_nil m : map_values m = [] ↔ m = ∅.
Proof. unfold map_values. by rewrite fmap_nil_iff, map_iter_nil. Qed.

Lemma list_to_map_iter m : list_to_map (map_iter m) = m.
Proof.
  rewrite <- (list_to_map_to_list m) at 2. apply list_to_map_proper.
  - apply NoDup_map_iter_keys.
  - apply map_iter_perm.
Qed.

#[global] Instance map_iter_inj : Inj (=) (=) (map_iter (K := K) (V := V)).
Proof. intros m m' E. by rewrite <- (list_to_map_iter m), E, list_to_map_iter. Qed.
End MapIter.

#[export] Instance gmap_ord {K V} `{!Ord K, !Ord V} `{Countable K} : Ord (gmap K V) :=
  λ m m', cmp (map_iter m) (map_iter m').
#[export] Instance gmap_ord_spec {K V} `{!Ord K, !OrdSpec K, !Ord V, !OrdSpec V}
    `{Countable K} : OrdSpec (gmap K V).
Proof. by apply (ord_spec_inj map_iter); [apply _|]. Qed.

(** ** Comparison keys for [max_by_key] and [min_by_key] *)
Definition ord_gtb {A} `{!Ord A} (x y : A) : bool :=
  match cmp x y with Gt => true | _ => false end.

Section OrdGtb.
Context {A : Type} `{!Ord A, !OrdSpec A}.
Implicit Types x y z : A.

Lemma ord_gtb_le x y : ord_gtb x y = false ↔ ord_le x y.
Proof. unfold ord_gtb, ord_le. by destruct (cmp x y). Qed.

Lemma ord_gtb_lt x y : ord_gtb x y = true ↔ ord_lt y x.
Proof. unfold ord_gtb, ord_lt. rewrite (cmp_opp x y). by destruct (cmp x y). Qed.

Lemma max_by_ord {B} (key : B → A) l a b :
  max_by_key ord_gtb key l = Some a → b ∈ l → ord_le (key b) (key a).
Proof.
  intros Hm Hb. apply ord_gtb_le.
  eapply (max_by_key_max ord_gtb key); [..|done|done].
  - intros k. by apply ord_gtb_le.
  - intros ???. rewrite !ord_gtb_le. apply transitivity.
  - intros ??. rewrite ord_gtb_lt, ord_gtb_le, ord_lt_le. by intros [? _].
Qed.

Lemma min_by_ord {B} (key : B → A) l a b :
  min_by_key ord_gtb key l = Some a → b ∈ l → ord_le (key a) (key b).
Proof.
  intros Hm Hb. apply ord_gtb_le.
  eapply (min_by_key_min ord_gtb key); [..|done|done].
  - intros k. by apply ord_gtb_le.
  - intros ???. rewrite !ord_gtb_le. apply transitivity.
  - intros ??. rewrite ord_gtb_lt, ord_gtb_le, ord_lt_le. by intros [? _].
Qed.
End OrdGtb.

Lemma ord_le_Z (x y : Z) : ord_le x y ↔ x ≤ y.
Proof. done. Qed.

(** Automation for membership in iterations. *)
Create HintDb btree.
#[export] Hint Rewrite @elem_of_set_iter @elem_of_map_iter @elem_of_map_keys
  @elem_of_map_values @length_set_iter @length_map_iter using typeclasses eauto : btree.
Ltac btree := autorewrite with btree in *.

(** The first and the last key of a map. *)
Section FirstLast.
Context {K V : Type} `{!Ord K, !OrdSpec K} `{Countable K}.
Implicit Types m : gmap K V.

Lemma map_keys_sorted m : StronglySorted ord_le (map_keys m).
Proof.
  unfold map_keys. pose proof (map_iter_sorted m) as Hs.
  induction Hs as [|[k v] l Hs IH Hf]; simpl; constructor; [done|].
  rewrite Forall_fmap. by eapply Forall_impl; [exact Hf|]; intros [k' v'].
Qed.

Lemma map_keys_head m k :
  head (map_keys m) = Some k →
  is_Some (m !! k) ∧ ∀ k', is_Some (m !! k') → ord_le k k'.
Proof.
  intros Hk. pose proof (map_keys_sorted m) as Hs. setoid_rewrite <- elem_of_map_keys.
  destruct (map_keys m) as [|k0 l]; simpl in Hk; [done|]. injection Hk as ->.
  apply StronglySorted_inv in Hs as [_ Hf]. split; [by left|].
  intros k' [->|Hk']%elem_of_cons; [done|]. by eapply Forall_forall in Hf.
Qed.

Lemma map_keys_last m k :
  last (map_keys m) = Some k →
  is_Some (m !! k) ∧ ∀ k', is_Some (m !! k') → ord_le k' k.
Proof.
  intros Hk. pose proof (map_keys_sorted m) as Hs. setoid_rewrite <- elem_of_map_keys.
  apply last_Some in Hk as [l Hl]. rewrite Hl in *. split; [apply elem_of_app; right; by left|].
  intros k' [Hk'|Hk']%elem_of_app.
  - apply StronglySorted_app in Hs as (Ha & _ & _). eapply Ha; [done|by left].
  - apply list_elem_of_singleton in Hk' as ->. done.
Qed.

Lemma map_keys_nil m : map_keys m = [] ↔ m = ∅.
Proof. unfold map_keys. by rewrite fmap_nil_iff, map_iter_nil. Qed.
End FirstLast.
