(* ===== verification/Bytes.v ===== *)
(** * Bytes

    [u8] values as the 256-element type [Byte.byte], with the conversions the
    sources write as casts: [b as usize], [n as u8]. *)

From Stdlib Require Export Strings.Byte.
From S2P Require Import Prelude BTree.

Notation byte := Byte.byte.

#[export] Instance byte_eq_dec : EqDecision byte := Byte.byte_eq_dec.

(** [b as usize]. *)
Definition u8_val (b : byte) : nat := Byte.to_nat b.

(** [n as u8]: the low eight bits. *)
Definition as_u8 (n : nat) : byte := default Byte.x00 (Byte.of_nat (n mod 256)).

Lemma u8_val_bound b : (u8_val b < 256)%nat.
Proof. unfold u8_val. pose proof (Byte.to_nat_bounded b). lia. Qed.

Lemma as_u8_val b : as_u8 (u8_val b) = b.
Proof.
  unfold as_u8. rewrite Nat.mod_small by apply u8_val_bound.
  unfold u8_val. by rewrite Byte.of_to_nat.
Qed.

Lemma u8_val_as n : (n < 256)%nat → u8_val (as_u8 n) = n.
Proof.
  intros Hn. unfold as_u8. rewrite Nat.mod_small by done.
  destruct (Byte.of_nat n) as [b|] eqn:E; [by apply Byte.to_of_nat in E|].
  apply Byte.of_nat_None_iff in E. lia.
Qed.

#[export] Instance u8_val_inj : Inj (=) (=) u8_val.
Proof. intros a b E. by rewrite <- (as_u8_val a), E, as_u8_val. Qed.

#[export] Instance byte_countable : Countable byte :=
  inj_countable u8_val (λ n, Some (as_u8 n)) (λ b, f_equal Some (as_u8_val b)).

#[export] Instance byte_ord : Ord byte := λ a b, cmp (u8_val a) (u8_val b).
#[export] Instance byte_ord_spec : OrdSpec byte.
Proof. by apply (ord_spec_inj u8_val); [apply _|]. Qed.
