(* ===== verification/Refined.v ===== *)
(** * Shared refinement types and hex codec

    [shared/src/refined.rs] and [shared/src/base16.rs].  A refinement newtype
    is its raw integer together with the predicate that its constructors
    establish and its operations preserve; [RefineError] carries the rejected
    value.  A [&str] is the list of its code points, a byte an integer in
    [0..255]. *)

From S2P Require Import Prelude.

(** ** Hexadecimal text *)
Module Base16.
Definition byte_range (b : Z) : Prop := 0 ≤ b < 256.

(** One digit of [format!("{:02x}", b)]. *)
Definition hex_digit (n : Z) : Z := if n <? 10 then 48 + n else 87 + n.

Definition encode (input : list Z) : list Z :=
  input ≫= λ b, [hex_digit (b `div` 16); hex_digit (b `mod` 16)].

(** [char::to_digit(16)]. *)
Definition to_digit (c : Z) : option Z :=
  if (48 <=? c) && (c <=? 57) then Some (c - 48)
  else if (97 <=? c) && (c <=? 102) then Some (c - 87)
  else if (65 <=? c) && (c <=? 70) then Some (c - 55)
  else None.

(** [char::is_ascii_hexdigit]. *)
Definition is_ascii_hexdigit (c : Z) : bool :=
  ((48 <=? c) && (c <=? 57)) || ((97 <=? c) && (c <=? 102)) || ((65 <=? c) && (c <=? 70)).

Fixpoint parse_chunks (bytes : list Z) : option (list Z) :=
  match bytes with
  | [] => Some []
  | [_] => None
  | c0 :: c1 :: rest =>
      hi ← to_digit c0;
      lo ← to_digit c1;
      out ← parse_chunks rest;
      Some (Z.lor (Z.shiftl hi 4 `mod` 256) lo :: out)
  end.

Definition parse_hex_padded (digits : list Z) : option (list Z) :=
  parse_chunks (if Nat.even (length digits) then digits else 48 :: digits).

Definition decode (input : list Z) : option (list Z) :=
  if existsb (λ c, negb (is_ascii_hexdigit c)) input then None
  else if negb (Nat.even (length input)) then None
  else parse_hex_padded input.

Definition unsafe_decode (input : list Z) : list Z :=
  default [] (parse_hex_padded (filter (λ c, is_ascii_hexdigit c = true) input)).

Definition try_decode (input : list Z) : Result (list Z) (list Z) :=
  ok_or (decode input) input.

Lemma to_digit_hex n : 0 ≤ n < 16 → to_digit (hex_digit n) = Some n.
Proof.
  intros Hn. unfold hex_digit, to_digit. repeat case_match; try lia; f_equal; lia.
Qed.

Lemma hex_digit_is_hex n : 0 ≤ n < 16 → is_ascii_hexdigit (hex_digit n) = true.
Proof. intros Hn. unfold hex_digit, is_ascii_hexdigit. case_match; lia. Qed.

Lemma to_digit_is_Some c : is_ascii_hexdigit c = true ↔ is_Some (to_digit c).
Proof.
  unfold is_ascii_hexdigit, to_digit.
  repeat case_match; split; try done; try (by eauto); by intros [].
Qed.

(** A property of every byte, decided by running it on the 256 values. *)
Lemma byte_forallb (f : Z → bool) :
  forallb f (seqZ 0 256) = true → ∀ b, byte_range b → f b = true.
Proof.
  unfold byte_range. intros Hf b Hb. rewrite forallb_forall in Hf. apply Hf.
  apply list_elem_of_In, elem_of_seqZ. lia.
Qed.

Lemma nibbles_join b :
  byte_range b → Z.lor (Z.shiftl (b `div` 16) 4 `mod` 256) (b `mod` 16) = b.
Proof.
  intros Hb. apply Z.eqb_eq. revert b Hb.
  by apply (byte_forallb (λ b, Z.lor (Z.shiftl (b `div` 16) 4 `mod` 256) (b `mod` 16) =? b)).
Qed.

Lemma nibble_ranges b : byte_range b → 0 ≤ b `div` 16 < 16 ∧ 0 ≤ b `mod` 16 < 16.
Proof.
  unfold byte_range. intros Hb. pose proof (Z.mod_pos_bound b 16).
  split; [|lia]. split; [apply Z.div_pos|apply Z.div_lt_upper_bound]; lia.
Qed.

Lemma encode_cons b bs :
  encode (b :: bs) = hex_digit (b `div` 16) :: hex_digit (b `mod` 16) :: encode bs.
Proof. done. Qed.

Lemma length_encode bs : length (encode bs) = (2 * length bs)%nat.
Proof. induction bs as [|b bs IH]; [done|]. rewrite encode_cons. simpl. lia. Qed.

Lemma parse_chunks_encode bs :
  Forall byte_range bs → parse_chunks (encode bs) = Some bs.
Proof.
  induction 1 as [|b bs Hb _ IH]; [done|].
  destruct (nibble_ranges b Hb). rewrite encode_cons. cbn [parse_chunks].
  rewrite !to_digit_hex, IH by done. cbn [mbind option_bind]. by rewrite nibbles_join.
Qed.

Lemma encode_hexdigits bs :
  Forall byte_range bs → Forall (λ c, is_ascii_hexdigit c = true) (encode bs).
Proof.
  induction 1 as [|b bs Hb _ IH]; [constructor|]. destruct (nibble_ranges b Hb).
  rewrite encode_cons. do 2 (constructor; [by apply hex_digit_is_hex|]). exact IH.
Qed.

Lemma no_bad_digit l :
  Forall (λ c, is_ascii_hexdigit c = true) l →
  existsb (λ c, negb (is_ascii_hexdigit c)) l = false.
Proof. induction 1 as [|c l Hc _ IH]; [done|]. simpl. by rewrite Hc. Qed.

(** Decoding inverts encoding, strictly and laxly. *)
Lemma decode_encode bs : Forall byte_range bs → decode (encode bs) = Some bs.
Proof.
  intros Hbs. unfold decode, parse_hex_padded.
  rewrite no_bad_digit by by apply encode_hexdigits.
  rewrite length_encode, Nat.even_mul. simpl. by apply parse_chunks_encode.
Qed.

Lemma parse_chunks_length l out :
  parse_chunks l = Some out → length l = (2 * length out)%nat.
Proof.
  revert out. induction l as [l IH] using (induction_ltof1 _ length).
  intros out. destruct l as [|c0 [|c1 rest]]; simpl; [by intros [= <-]|done|].
  destruct (to_digit c0); simpl; [|done]. destruct (to_digit c1); simpl; [|done].
  destruct (parse_chunks rest) as [out'|] eqn:E; simpl; [|done].
  intros [= <-]. apply IH in E; [|unfold ltof; simpl; lia]. simpl. lia.
Qed.

Lemma parse_chunks_total l :
  Forall (λ c, is_ascii_hexdigit c = true) l → Nat.even (length l) = true →
  is_Some (parse_chunks l).
Proof.
  induction l as [l IH] using (induction_ltof1 _ length).
  destruct l as [|c0 [|c1 rest]]; simpl; [by eauto|done|].
  intros [Hc0 [Hc1 Hrest]%Forall_cons]%Forall_cons Heven.
  apply to_digit_is_Some in Hc0 as [h ->]. apply to_digit_is_Some in Hc1 as [lo ->].
  destruct (IH rest) as [out ->]; [unfold ltof; simpl; lia|done|done|]. simpl. by eauto.
Qed.

Lemma no_bad_digit_inv l :
  existsb (λ c, negb (is_ascii_hexdigit c)) l = false →
  Forall (λ c, is_ascii_hexdigit c = true) l.
Proof.
  induction l as [|c l IH]; simpl; [constructor|].
  destruct (is_ascii_hexdigit c) eqn:E; simpl; [|done]. intros. by constructor; auto.
Qed.
End Base16.

(** ** Refinement newtypes *)
Module Refined.
(** [NonNegI64], [BlockHeight] and [SeqNum] share one invariant. *)
Definition non_neg (v : Z) : Prop := 0 ≤ v ≤ i64_max.

Definition NonNegI64_try_from (v : Z) : Result Z Z := if 0 <=? v then Ok v else Err v.
Definition NonNegI64_one : Z := 1.
Definition NonNegI64_zero : Z := 0.

Definition BlockHeight_zero : Z := 0.
Definition BlockHeight_try_from (v : Z) : Result Z Z := if 0 <=? v then Ok v else Err v.
Definition BlockHeight_add (h rhs : Z) : Z := i64_saturating_add h rhs.
(** Plain [-] on [i64]: wraps in the release build. *)
Definition BlockHeight_sub (h rhs : Z) : Z := i64_wrap (h - rhs).

Definition SeqNum_zero : Z := 0.
Definition SeqNum_try_from (v : Z) : Result Z Z := if 0 <=? v then Ok v else Err v.
Definition SeqNum_add (n rhs : Z) : Z := i64_saturating_add n rhs.
Definition SeqNum_sub (n rhs : Z) : Z := i64_wrap (n - rhs).

(** [Port::try_from] from [i32] and from [u32]: [u16::try_from]. *)
Definition Port_try_from (v : Z) : Result Z Z :=
  if (0 <=? v) && (v <=? 65535) then Ok v else Err v.

(** [len_newtype!]: a [usize] that must fit in [bits] bits. *)
Definition len_try_from (bits : Z) (v : Z) : Result Z Z :=
  if v <? 2 ^ bits then Ok v else Err v.
Definition ByteLen_try_from (v : Z) : Result Z Z := len_try_from 8 v.
Definition ShortLen_try_from (v : Z) : Result Z Z := len_try_from 16 v.
Definition WireLen_try_from (v : Z) : Result Z Z := len_try_from 32 v.
(** [WireLen::try_from] from a protobuf [int32]. *)
Definition WireLen_try_from_i32 (v : Z) : Result Z Z := if 0 <=? v then Ok v else Err v.

Definition HASH32_LENGTH : nat := 32.

Definition Hash32_try_from (bytes : list Z) : Result (list Z) nat :=
  if decide (length bytes = HASH32_LENGTH) then Ok bytes else Err (length bytes).

Definition Hash32_to_hex (h : list Z) : list Z := Base16.encode h.

Inductive HexError :=
| BadHex (s : list Z)
| BadLength (n : nat).

Definition Hash32_try_from_hex (s : list Z) : Result (list Z) HexError :=
  match Base16.try_decode s with
  | Err e => Err (BadHex e)
  | Ok bytes =>
      match Hash32_try_from bytes with
      | Ok h => Ok h
      | Err n => Err (BadLength n)
      end
  end.

Definition Hash32_starts_with (h prefix : list Z) : bool :=
  bool_decide (take (length prefix) h = prefix).

(** A 32-byte hash. *)
Definition hash32 (h : list Z) : Prop :=
  length h = HASH32_LENGTH ∧ Forall Base16.byte_range h.

(** Additions keep the invariant, even past [i64::MAX], and never go back. *)
Lemma BlockHeight_add_non_neg h r :
  non_neg h → non_neg r → non_neg (BlockHeight_add h r) ∧ h ≤ BlockHeight_add h r.
Proof. apply i64_saturating_add_nonneg. Qed.

Lemma BlockHeight_sub_exact h r :
  non_neg h → non_neg r → BlockHeight_sub h r = h - r.
Proof. unfold non_neg, BlockHeight_sub. unfold_ints. intros. apply i64_wrap_id. unfold_ints. lia. Qed.
End Refined.

(** ** Properties *)

Lemma nibbles_byte hi lo :
  0 ≤ hi < 16 → 0 ≤ lo < 16 → Base16.byte_range (Z.lor (Z.shiftl hi 4 `mod` 256) lo).
Proof.
  intros Hhi Hlo.
  assert (forallb (λ h, forallb (λ l, let b := Z.lor (Z.shiftl h 4 `mod` 256) l in
    (0 <=? b) && (b <? 256)) (seqZ 0 16)) (seqZ 0 16) = true) as Hf by (vm_compute; reflexivity).
  rewrite forallb_elem in Hf. specialize (Hf hi ltac:(apply elem_of_seqZ; lia)).
  rewrite forallb_elem in Hf. specialize (Hf lo ltac:(apply elem_of_seqZ; lia)).
  unfold Base16.byte_range. cbn zeta in Hf. lia.
Qed.

Lemma parse_chunks_bytes l out : Base16.parse_chunks l = Some out → Forall Base16.byte_range out.
Proof.
  revert out. induction l as [l IH] using (induction_ltof1 _ length).
  destruct l as [|c0 [|c1 l]]; simpl; intros out; [by intros [= <-]|done|].
  destruct (Base16.to_digit c0) as [hi|] eqn:E0; simpl; [|done].
  destruct (Base16.to_digit c1) as [lo|] eqn:E1; simpl; [|done].
  destruct (Base16.parse_chunks l) as [out'|] eqn:El; simpl; [|done]. intros [= <-].
  constructor; [|apply (IH l); [unfold ltof; simpl; lia|done]].
  apply nibbles_byte; unfold Base16.to_digit in *; repeat case_match; naive_solver lia.
Qed.

(** Hash text round trips.  Printing a 32-byte hash as hex and parsing it
    gives the hash back, and the parser accepts exactly the texts of 64
    hexadecimal digits: odd, short, long or non-hex input is rejected. *)
Theorem hash32_hex_roundtrip :
  (∀ h, Refined.hash32 h → Refined.Hash32_try_from_hex (Refined.Hash32_to_hex h) = Ok h) ∧
  (∀ s, (∃ h, Refined.Hash32_try_from_hex s = Ok h ∧ Refined.hash32 h) ↔
        length s = 64%nat ∧ Forall (λ c, Base16.is_ascii_hexdigit c = true) s).
Proof.
  unfold Refined.Hash32_try_from_hex, Base16.try_decode, Refined.Hash32_try_from. split.
  - intros h [Hl Hb]. unfold Refined.Hash32_to_hex. rewrite Base16.decode_encode by done.
    simpl. by rewrite decide_True.
  - intros s. unfold Base16.decode, Base16.parse_hex_padded. split.
    + intros (h & Hs & Hlen & _). destruct (existsb _ s) eqn:Hx; [done|].
      destruct (Nat.even (length s)) eqn:He; [|done]. simpl in Hs.
      destruct (Base16.parse_chunks s) as [out|] eqn:Hp; [|done]. simpl in Hs.
      case_decide as Hd; [|done]. injection Hs as <-.
      apply Base16.parse_chunks_length in Hp. unfold Refined.HASH32_LENGTH in *.
      split; [lia|]. by apply Base16.no_bad_digit_inv.
    + intros [Hl Hx]. rewrite Base16.no_bad_digit by done. rewrite Hl. simpl.
      destruct (Base16.parse_chunks_total s Hx) as [out Hout]; [by rewrite Hl|].
      pose proof (Base16.parse_chunks_length _ _ Hout).
      exists out. rewrite Hout. simpl. unfold Refined.hash32, Refined.HASH32_LENGTH.
      rewrite decide_True by lia. split; [done|]. split; [lia|]. by eapply parse_chunks_bytes.
Qed.
