(* ===== verification/Message.v ===== *)
(** * DAG messages and the message map

    [block-storage/src/dag/finalizer.rs] ([Message]) and
    [block-storage/src/dag/message_map.rs].  Message ids [Mid] and senders
    [Sd] are the type parameters [M] and [S] of the source, with their [Ord].
    [BlockHeight], [SeqNum] and [NonNegI64] are integers ([Refined]). *)

From S2P Require Import Prelude BTree Refined.

(** The message view carried by the DAG. *)
Record Message (Mid Sd : Type) `{Countable Mid} `{Countable Sd} := mkMessage {
  id : Mid;
  height : Z;
  sender : Sd;
  sender_seq : Z;
  bonds_map : gmap Sd Z;
  parents : gset Mid;
  fringe : gset Mid;
  seen : gset Mid;
}.
Arguments mkMessage {Mid Sd _ _ _ _}.
Arguments id {Mid Sd _ _ _ _}.
Arguments height {Mid Sd _ _ _ _}.
Arguments sender {Mid Sd _ _ _ _}.
Arguments sender_seq {Mid Sd _ _ _ _}.
Arguments bonds_map {Mid Sd _ _ _ _}.
Arguments parents {Mid Sd _ _ _ _}.
Arguments fringe {Mid Sd _ _ _ _}.
Arguments seen {Mid Sd _ _ _ _}.

Section Message.
Context {Mid Sd : Type} `{Countable Mid} `{Countable Sd}.

(** The fields in declaration order: [derive(PartialEq, Ord)]. *)
Definition message_tuple (m : Message Mid Sd) :=
  (id m, (height m, (sender m, (sender_seq m,
    (bonds_map m, (parents m, (fringe m, seen m))))))).

#[global] Instance message_tuple_inj : Inj (=) (=) message_tuple.
Proof. intros [] [] E. unfold message_tuple in E. simpl in E. by simplify_eq. Qed.

#[global] Instance message_eq_dec : EqDecision (Message Mid Sd).
Proof.
  intros m m'. destruct (decide (message_tuple m = message_tuple m')) as [E|E].
  - left. by apply message_tuple_inj.
  - right. by intros ->.
Defined.

(** The fields one after the other: a flat encoding keeps the keys of sets
    of messages small. *)
#[global] Instance message_countable : Countable (Message Mid Sd).
Proof.
  apply (inj_countable
    (λ m, [encode (id m); encode (height m); encode (sender m); encode (sender_seq m);
           encode (bonds_map m); encode (parents m); encode (fringe m); encode (seen m)])
    (λ l, match l with
          | [a; b; c; d; e; f; g; h] =>
              a ← decode a; b ← decode b; c ← decode c; d ← decode d;
              e ← decode e; f ← decode f; g ← decode g; h ← decode h;
              Some (mkMessage a b c d e f g h)
          | _ => None
          end)).
  intros []. cbn [id height sender sender_seq bonds_map parents fringe seen].
  repeat (rewrite decode_encode; cbn [mbind option_bind]). reflexivity.
Defined.

#[global] Instance message_ord `{!Ord Mid, !Ord Sd} : Ord (Message Mid Sd) :=
  λ m m', cmp (message_tuple m) (message_tuple m').

#[global] Instance message_ord_spec `{!Ord Mid, !OrdSpec Mid, !Ord Sd, !OrdSpec Sd} :
  OrdSpec (Message Mid Sd).
Proof. by apply (ord_spec_inj message_tuple); [apply _|]. Qed.
End Message.

(** ** Helpers over a message map *)
Module MessageMap.
Section Map.
Context {Mid Sd : Type} `{Countable Mid} `{Countable Sd}.
Context `{!Ord Mid, !OrdSpec Mid, !Ord Sd, !OrdSpec Sd}.
Notation Msg := (Message Mid Sd).
Implicit Types (msg_map : gmap Mid Msg) (m j : Msg).

Definition msg_at msg_map (i : Mid) : option Msg := msg_map !! i.

(** The messages named by a set of ids, in id order; unknown ids are skipped. *)
Definition msgs_at msg_map (ids : gset Mid) : list Msg :=
  omap (msg_at msg_map) (set_iter ids).

(** [flat_map(seen).filter_map(msg_at).collect()]. *)
Definition seen_msgs msg_map (bound : gset Msg) : gset Msg :=
  list_to_set (set_iter bound ≫= λ m, msgs_at msg_map (seen m)).

Definition between msg_map (upper_bound lower_bound : gset Msg) : gset Msg :=
  let upper_seen := seen_msgs msg_map upper_bound in
  let lower_seen := seen_msgs msg_map lower_bound in
  upper_seen ∖ lower_seen.

(** The maximum height of the fringe members, [None] for an empty fringe. *)
Definition fringe_height msg_map j : option Z :=
  max_by_key ord_gtb (λ h, h) (height <$> msgs_at msg_map (fringe j)).

Definition fringe_msgs msg_map (oj : option Msg) : gset Msg :=
  match oj with
  | Some j => list_to_set (msgs_at msg_map (fringe j))
  | None => ∅
  end.

Definition latest_fringe msg_map (justifications : gset Msg) : gset Msg :=
  fringe_msgs msg_map
    (max_by_key ord_gtb (fringe_height msg_map) (set_iter justifications)).

Definition lowest_fringe msg_map (msgs : gset Msg) : gset Msg :=
  fringe_msgs msg_map (min_by_key ord_gtb (fringe_height msg_map) (set_iter msgs)).

Definition find_with_empty_parents msg_map : option Msg :=
  List.find (λ m, bool_decide (parents m = ∅)) (map_values msg_map).

Definition prune_fringe msg_map (final_fringe : gset Mid)
    (child_map : gmap Mid (gset Mid)) : gset Msg :=
  let children : gset Msg :=
    list_to_set
      (omap (msg_at msg_map)
         (set_iter final_fringe ≫= λ i, set_iter (default ∅ (child_map !! i)))) in
  lowest_fringe msg_map children.

Lemma elem_of_msgs_at msg_map ids m :
  m ∈ msgs_at msg_map ids ↔ ∃ i, i ∈ ids ∧ msg_map !! i = Some m.
Proof.
  unfold msgs_at, msg_at. rewrite list_elem_of_omap.
  split; intros (i & Hi & Hm); exists i; [rewrite <- elem_of_set_iter|rewrite elem_of_set_iter]; done.
Qed.

Lemma elem_of_seen_msgs msg_map bound m :
  m ∈ seen_msgs msg_map bound ↔
  ∃ b i, b ∈ bound ∧ i ∈ seen b ∧ msg_map !! i = Some m.
Proof.
  unfold seen_msgs. rewrite elem_of_list_to_set, list_elem_of_bind.
  setoid_rewrite elem_of_msgs_at. setoid_rewrite elem_of_set_iter. naive_solver.
Qed.

(** [between] is the set of messages seen by the upper bound and by no
    message of the lower bound. *)
Lemma elem_of_between msg_map upper lower m :
  m ∈ between msg_map upper lower ↔
  (∃ b i, b ∈ upper ∧ i ∈ seen b ∧ msg_map !! i = Some m) ∧
  (∀ b i, b ∈ lower → i ∈ seen b → msg_map !! i ≠ Some m).
Proof.
  unfold between. rewrite elem_of_difference, !elem_of_seen_msgs. naive_solver.
Qed.

Lemma elem_of_fringe_msgs msg_map j m :
  m ∈ fringe_msgs msg_map (Some j) ↔ ∃ i, i ∈ fringe j ∧ msg_map !! i = Some m.
Proof. simpl. by rewrite elem_of_list_to_set, elem_of_msgs_at. Qed.

Lemma fringe_height_Some msg_map j h :
  fringe_height msg_map j = Some h →
  (∃ i m, i ∈ fringe j ∧ msg_map !! i = Some m ∧ height m = h) ∧
  (∀ i m, i ∈ fringe j → msg_map !! i = Some m → height m ≤ h).
Proof.
  unfold fringe_height. intros Hh. split.
  - apply max_by_key_elem, list_elem_of_fmap in Hh as (m & -> & Hm).
    apply elem_of_msgs_at in Hm as (i & ? & ?). eauto.
  - intros i m Hi Hm.
    assert (ord_le (height m) h) as Hle.
    { apply (max_by_ord (λ h, h) _ _ _ Hh). apply list_elem_of_fmap.
      exists m. split; [done|]. apply elem_of_msgs_at. eauto. }
    unfold ord_le, cmp, Z_ord in Hle. by rewrite Z.compare_le_iff in Hle.
Qed.

(** The latest fringe is the fringe of a justification whose fringe height
    is maximal; without justifications it is empty. *)
Lemma latest_fringe_spec msg_map justifications :
  (justifications = ∅ ∧ latest_fringe msg_map justifications = ∅) ∨
  (∃ j, j ∈ justifications ∧
        (∀ j', j' ∈ justifications →
           ord_le (fringe_height msg_map j') (fringe_height msg_map j)) ∧
        latest_fringe msg_map justifications = fringe_msgs msg_map (Some j)).
Proof.
  unfold latest_fringe. destruct (max_by_key _ _ _) as [j|] eqn:E.
  - right. exists j. split_and!; [|intros j' Hj'|done].
    + apply max_by_key_elem in E. by apply elem_of_set_iter.
    + apply (max_by_ord _ _ _ _ E). by apply elem_of_set_iter.
  - left. apply max_by_key_None, set_iter_nil in E. done.
Qed.
End Map.
End MessageMap.
