(* ===== verification/Finalizer.v ===== *)
(** * The multi-parent finalizer

    [block-storage/src/dag/finalizer.rs] and [sdk/src/consensus.rs].
    [None] results stand for a loop that does not return: following the
    self-parents of a message can only run past the number of messages of the
    map when it revisits one ([self_parents_total] rules this out for a
    well-formed map). *)

From S2P Require Import Prelude BTree Refined Message.
Import MessageMap.

(** ** The finality threshold *)
Module Stake.
Definition is_super_majority (stake total_stake : Z) : bool :=
  i128_wrap (total_stake * 2) <? i128_wrap (stake * 3).

(** On stakes whose triple fits in an [i128] the test is the exact
    comparison [3 * stake > 2 * total]. *)
Lemma is_super_majority_exact stake total :
  0 ≤ stake ≤ 2 ^ 125 → 0 ≤ total ≤ 2 ^ 125 →
  is_super_majority stake total = true ↔ 3 * stake > 2 * total.
Proof.
  intros Hs Ht. unfold is_super_majority.
  rewrite !i128_wrap_id by (unfold_ints; lia). rewrite Z.ltb_lt. lia.
Qed.
End Stake.
Import Stake.

Module Finalizer.
Section Finalizer.
Context {Mid Sd : Type} `{Countable Mid} `{Countable Sd}.
Context `{!Ord Mid, !OrdSpec Mid, !Ord Sd, !OrdSpec Sd}.
Notation Msg := (Message Mid Sd).
(** The borrowed [Finalizer::msg_map]. *)
Variable msg_map : gmap Mid Msg.
Implicit Types (m mv p min_msg : Msg) (finalized justifications : gset Msg).
Implicit Types (bonds : gmap Sd Z) (next_layer : gmap Sd Msg).

Definition msg (i : Mid) : option Msg := msg_map !! i.

(** The parents of [m] by the sender of [mv] that are not finalized. *)
Definition next_self_parents mv finalized m : list Msg :=
  filter (λ x, sender x = sender mv ∧ x ∉ finalized)
    (omap msg (set_iter (parents m))).

(** One turn of [while let Some(m) = next.pop()]. *)
Definition self_parents_step mv finalized (st : list Msg * list Msg) :
    (list Msg * list Msg) + list Msg :=
  let '(chain, next) := st in
  match last next with
  | None => inr chain
  | Some m => inl (chain ++ [m], next_self_parents mv finalized m)
  end.

Definition self_parents mv finalized : option (list Msg) :=
  loop (self_parents_step mv finalized) (S (S (size msg_map)))
    ([], next_self_parents mv finalized mv).

Definition check_min_messages (min_msgs : list Msg) bonds : bool :=
  Nat.eqb (length min_msgs) (size bonds).

Definition min_messages_map (min_msgs : list Msg) : gmap Sd Msg :=
  foldl (λ acc x, <[sender x := x]> acc) ∅ min_msgs.

Definition next_layer_insert next_layer m : gmap Sd Msg :=
  match next_layer !! sender m with
  | Some curr =>
      if sender_seq curr <? sender_seq m then <[sender m := m]> next_layer
      else next_layer
  | None => next_layer
  end.

Definition calculate_next_layer (min_msgs : list Msg) : gmap Sd Msg :=
  let mm := min_messages_map min_msgs in
  let candidates := min_msgs ≫= λ x, omap msg (set_iter (parents x)) in
  let candidates := filter (λ x, is_Some (mm !! sender x)) candidates in
  foldl next_layer_insert mm candidates.

(** The inner loop over the parents of a justification that are not part
    of the next layer: the senders whose chain sees [min_msg]. *)
Definition see_min_msg (parents_of_parent : gset Mid) min_msg finalized :
    option (gset Sd) :=
  fold_opt (λ acc p_id,
      match msg p_id with
      | None => Some acc
      | Some p =>
          sp ← self_parents p finalized;
          if existsb (λ m, bool_decide (id min_msg ∈ seen m)) (p :: sp)
          then Some ({[sender p]} ∪ acc) else Some acc
      end)
    ∅ (set_iter parents_of_parent).

Definition next_layer_ids next_layer : gset Mid :=
  list_to_set (id <$> map_values next_layer).

(** The map [seen_by] of one justification [mv]. *)
Definition seen_by mv next_layer finalized : option (gmap Sd (gset Sd)) :=
  fold_opt (λ acc '(s, min_msg),
      see ← see_min_msg (parents mv ∖ next_layer_ids next_layer) min_msg finalized;
      Some (if decide (see = ∅) then acc else <[s := see]> acc))
    ∅ (map_iter next_layer).

Definition calculate_next_fringe_support_map justifications next_layer finalized :
    option (gmap Sd (gmap Sd (gset Sd))) :=
  fold_opt (λ acc mv,
      sb ← seen_by mv next_layer finalized;
      Some (if decide (sb = ∅) then acc else <[sender mv := sb]> acc))
    ∅ (set_iter justifications).

(** Whether a justification sender sees the full partition. *)
Definition all_bonded bonds (sb : gmap Sd (gset Sd)) : bool :=
  bool_decide (sb ≠ ∅) && forallb (λ v, bool_decide (v = dom bonds)) (map_values sb).

Definition full_partition_stake (support : gmap Sd (gmap Sd (gset Sd))) bonds : Z :=
  foldl (λ acc '(s, sb),
      if all_bonded bonds sb then
        match bonds !! s with
        | Some stake => i128_wrap (acc + stake)
        | None => acc
        end
      else acc)
    0 (map_iter support).

Definition total_stake bonds : Z :=
  foldl (λ acc v, i128_wrap (acc + v)) 0 (map_values bonds).

Definition calculate_fringe (support : gmap Sd (gmap Sd (gset Sd))) bonds : bool :=
  is_super_majority (full_partition_stake support bonds) (total_stake bonds).

(** The oldest non-finalized message of a justification's self chain. *)
Definition min_message finalized p : option Msg :=
  sp ← self_parents p finalized; Some (default p (last (p :: sp))).

Definition min_messages justifications finalized : option (list Msg) :=
  fold_opt (λ acc p, mm ← min_message finalized p; Some (acc ++ [mm]))
    [] (set_iter justifications).

Definition next_fringe justifications bonds prev_fringe : option (option (gset Msg)) :=
  min_msgs ← min_messages justifications prev_fringe;
  if negb (check_min_messages min_msgs bonds) then Some None
  else
    let next_layer := calculate_next_layer min_msgs in
    support ← calculate_next_fringe_support_map justifications next_layer prev_fringe;
    if calculate_fringe support bonds
    then Some (Some (list_to_set (map_values next_layer)))
    else Some None.

(** One turn of the [while let] of [calculate_finalization]; the inner
    [None] is an iteration that does not return. *)
Definition finalization_step justifications bonds
    (st : gset Msg * option (gset Msg)) :
    (gset Msg * option (gset Msg)) + option (option (gset Msg)) :=
  let '(current, new_fringe_opt) := st in
  match next_fringe justifications bonds current with
  | None => inr None
  | Some None => inr (Some new_fringe_opt)
  | Some (Some nf) =>
      if decide (nf = current) then inr (Some new_fringe_opt)
      else inl (nf, Some nf)
  end.

Definition calculate_finalization (fuel : nat) justifications bonds :
    option (gset Msg * option (gset Msg)) :=
  let parent_fringe := latest_fringe msg_map justifications in
  r ← loop (finalization_step justifications bonds) fuel (parent_fringe, None);
  new_fringe_opt ← r;
  Some (parent_fringe, new_fringe_opt).
End Finalizer.
End Finalizer.
Import Finalizer.

(** ** Stake of a set of senders *)
Section StakeOf.
Context {Sd : Type} `{Countable Sd} `{!Ord Sd, !OrdSpec Sd}.
Implicit Types (bonds : gmap Sd Z) (X Y : gset Sd).

Definition bond_of bonds (s : Sd) : Z := default 0 (bonds !! s).
Definition stake_of bonds X : Z := sum_Z (bond_of bonds) (elements X).

(** The PoS invariant on bonds, and a validator set that is not absurdly
    large: sums of at most [2^62] stakes fit in an [i128]. *)
Definition bonds_ok bonds : Prop :=
  map_Forall (λ _ v, Refined.non_neg v) bonds ∧ Z.of_nat (size bonds) ≤ 2 ^ 62.

Lemma bond_of_non_neg bonds s : bonds_ok bonds → 0 ≤ bond_of bonds s ≤ i64_max.
Proof.
  intros [Hb _]. unfold bond_of. destruct (bonds !! s) eqn:E; simpl.
  - by apply (Hb _ _ E).
  - unfold_ints. lia.
Qed.

Lemma stake_of_union bonds X Y :
  X ## Y → stake_of bonds (X ∪ Y) = stake_of bonds X + stake_of bonds Y.
Proof. intros HXY. unfold stake_of. by rewrite elements_disj_union, sum_Z_app. Qed.

Lemma stake_of_non_neg bonds X : bonds_ok bonds → 0 ≤ stake_of bonds X.
Proof. intros Hb. apply sum_Z_nonneg. intros s _. by apply bond_of_non_neg. Qed.

Lemma stake_of_mono bonds X Y :
  bonds_ok bonds → X ⊆ Y → stake_of bonds X ≤ stake_of bonds Y.
Proof.
  intros Hb HXY. rewrite (union_difference_L X Y HXY), stake_of_union by set_solver.
  pose proof (stake_of_non_neg bonds (Y ∖ X) Hb). lia.
Qed.

Lemma stake_of_dom_bound bonds :
  bonds_ok bonds → stake_of bonds (dom bonds) ≤ 2 ^ 125.
Proof.
  intros Hb. unfold stake_of. etrans.
  - apply (sum_Z_bound _ _ i64_max). intros s _. by apply bond_of_non_neg.
  - change (length (elements (dom bonds))) with (size (dom bonds)).
    rewrite size_dom. destruct Hb as [_ Hb]. unfold_ints. lia.
Qed.

(** Inclusion-exclusion. *)
Lemma stake_of_inter bonds X Y :
  stake_of bonds (X ∩ Y) + stake_of bonds (X ∪ Y) = stake_of bonds X + stake_of bonds Y.
Proof.
  assert (stake_of bonds X = stake_of bonds (X ∩ Y) + stake_of bonds (X ∖ Y)) as ->.
  { rewrite <- stake_of_union by set_solver. f_equal. apply leibniz_equiv.
    intros s. destruct (decide (s ∈ Y)); set_solver. }
  assert (stake_of bonds (X ∪ Y) = stake_of bonds (X ∖ Y) + stake_of bonds Y) as ->.
  { rewrite <- stake_of_union by set_solver. f_equal. apply leibniz_equiv.
    intros s. destruct (decide (s ∈ Y)); set_solver. }
  lia.
Qed.

(** Two supermajorities share more than a third of the stake. *)
Lemma super_majority_inter bonds X Y :
  bonds_ok bonds → X ⊆ dom bonds → Y ⊆ dom bonds →
  3 * stake_of bonds X > 2 * stake_of bonds (dom bonds) →
  3 * stake_of bonds Y > 2 * stake_of bonds (dom bonds) →
  3 * stake_of bonds (X ∩ Y) > stake_of bonds (dom bonds).
Proof.
  intros Hb HX HY HsX HsY. pose proof (stake_of_inter bonds X Y).
  assert (stake_of bonds (X ∪ Y) ≤ stake_of bonds (dom bonds))
    by (apply stake_of_mono; [done|set_solver]). lia.
Qed.
End StakeOf.

(** A left fold that adds contributions with a wrapping [i128] addition is
    the exact sum while the sum stays in range. *)
Lemma foldl_i128_sum {A} (f : Z → A → Z) (g : A → Z) l a :
  (∀ acc x, x ∈ l → i128_range (acc + g x) → f acc x = acc + g x) →
  (∀ x, x ∈ l → 0 ≤ g x) → 0 ≤ a → a + sum_Z g l ≤ i128_max →
  foldl f a l = a + sum_Z g l.
Proof.
  revert a. induction l as [|x l IH]; intros a Hf Hg Ha Hsum; simpl in *;
    [unfold sum_Z in *; simpl; lia|]. rewrite sum_Z_cons in *.
  assert (0 ≤ g x) by (apply Hg; by left).
  assert (0 ≤ sum_Z g l) by (apply sum_Z_nonneg; intros; apply Hg; by right).
  rewrite Hf; [|by left|unfold_ints; lia].
  rewrite IH; [lia| |intros; apply Hg; by right|lia|lia].
  intros; apply Hf; [by right|done].
Qed.

(** ** Correctness of the support count *)
Section CalculateFringe.
Context {Sd : Type} `{Countable Sd} `{!Ord Sd, !OrdSpec Sd}.
Implicit Types (bonds : gmap Sd Z) (support : gmap Sd (gmap Sd (gset Sd))).

Definition supports_full bonds support (s : Sd) : Prop :=
  ∃ sb, support !! s = Some sb ∧ all_bonded bonds sb = true ∧ is_Some (bonds !! s).

Definition supporter_entry bonds (e : Sd * gmap Sd (gset Sd)) : Prop :=
  all_bonded bonds e.2 = true ∧ is_Some (bonds !! e.1).
#[global] Instance supporter_entry_dec bonds e : Decision (supporter_entry bonds e).
Proof. unfold supporter_entry. apply _. Defined.

(** The bonded senders that see the full partition. *)
Definition supporters support bonds : gset Sd :=
  list_to_set (filter (supporter_entry bonds) (map_iter support)).*1.

Lemma elem_of_supporters support bonds s :
  s ∈ supporters support bonds ↔ supports_full bonds support s.
Proof.
  unfold supporters, supports_full, supporter_entry.
  rewrite elem_of_list_to_set, list_elem_of_fmap. split.
  - intros ([s' sb] & -> & [[??] Hin]%list_elem_of_filter).
    apply elem_of_map_iter in Hin. eauto.
  - intros (sb & Hs & ? & ?). exists (s, sb). split; [done|].
    apply list_elem_of_filter. split; [done|]. by apply elem_of_map_iter.
Qed.

Lemma supporters_bonded support bonds : supporters support bonds ⊆ dom bonds.
Proof.
  intros s. rewrite elem_of_supporters, elem_of_dom. by intros (?&?&?&?).
Qed.

Lemma stake_of_supporters support bonds :
  stake_of bonds (supporters support bonds) =
  sum_Z (λ '(s, sb), if all_bonded bonds sb then bond_of bonds s else 0) (map_iter support).
Proof.
  unfold stake_of, supporters.
  rewrite elements_list_to_set.
  2:{ eapply (sublist_NoDup _ (map_iter support).*1); [apply NoDup_map_iter_keys|].
      apply fmap_sublist, sublist_filter. }
  induction (map_iter support) as [|[s sb] l IH]; [done|].
  rewrite filter_cons.
  destruct (decide (supporter_entry bonds (s, sb))) as [[Hall [v Hv]]|Hn]; csimpl in *.
  - by rewrite !sum_Z_cons, IH, Hall.
  - rewrite sum_Z_cons, IH. destruct (all_bonded bonds sb) eqn:Hall; [|lia].
    unfold bond_of. destruct (bonds !! s) eqn:Hv; simpl; [|lia].
    exfalso. apply Hn. split; [done|]. simpl. rewrite Hv. eauto.
Qed.

Lemma full_partition_stake_exact support bonds :
  bonds_ok bonds →
  full_partition_stake support bonds = stake_of bonds (supporters support bonds).
Proof.
  intros Hb. rewrite stake_of_supporters. unfold full_partition_stake.
  rewrite (foldl_i128_sum _ (λ '(s, sb), if all_bonded bonds sb then bond_of bonds s else 0));
    [lia| |..|lia|].
  - intros acc [s sb] _. unfold bond_of. destruct (all_bonded bonds sb); [|lia].
    destruct (bonds !! s); simpl; [apply i128_wrap_id|lia].
  - intros [s sb] _. destruct (all_bonded bonds sb); [|lia]. by apply bond_of_non_neg.
  - rewrite <- stake_of_supporters.
    pose proof (stake_of_mono bonds _ _ Hb (supporters_bonded support bonds)).
    pose proof (stake_of_dom_bound bonds Hb). unfold_ints. lia.
Qed.

Lemma sum_bond_values bonds :
  sum_Z (λ v, v) (map_values bonds) = stake_of bonds (dom bonds).
Proof.
  unfold stake_of, map_values.
  assert (elements (dom bonds) ≡ₚ (map_iter bonds).*1) as ->.
  { apply NoDup_Permutation; [apply NoDup_elements|apply NoDup_map_iter_keys|].
    intros s. rewrite elem_of_elements, elem_of_dom. symmetry. apply elem_of_map_keys. }
  assert (∀ s v, (s, v) ∈ map_iter bonds → bond_of bonds s = v) as Hl.
  { intros s v Hin%elem_of_map_iter. unfold bond_of. by rewrite Hin. }
  induction (map_iter bonds) as [|[s v] l IH]; csimpl; [done|].
  rewrite !sum_Z_cons, (Hl s v), IH; [done| |by left]. intros; apply Hl; by right.
Qed.

Lemma total_stake_exact bonds :
  bonds_ok bonds → total_stake bonds = stake_of bonds (dom bonds).
Proof.
  intros Hb. rewrite <- sum_bond_values. unfold total_stake.
  rewrite (foldl_i128_sum _ (λ v, v)); [lia| |..|lia|].
  - intros. by apply i128_wrap_id.
  - intros v [s Hv]%elem_of_map_values. by apply (proj1 Hb s v Hv).
  - rewrite sum_bond_values. pose proof (stake_of_dom_bound bonds Hb). unfold_ints. lia.
Qed.

(** The decision of [calculate_fringe] is exact: no stake total overflows. *)
Lemma calculate_fringe_iff support bonds :
  bonds_ok bonds →
  calculate_fringe support bonds = true ↔
  3 * stake_of bonds (supporters support bonds) > 2 * stake_of bonds (dom bonds).
Proof.
  intros Hb. unfold calculate_fringe.
  rewrite full_partition_stake_exact, total_stake_exact by done.
  pose proof (stake_of_dom_bound bonds Hb).
  pose proof (stake_of_mono bonds _ _ Hb (supporters_bonded support bonds)).
  pose proof (stake_of_non_neg bonds (supporters support bonds) Hb).
  apply is_super_majority_exact; lia.
Qed.
End CalculateFringe.

(** ** Self-parent chains *)
Section SelfParents.
Context {Mid Sd : Type} `{Countable Mid} `{Countable Sd}.
Context `{!Ord Mid, !OrdSpec Mid, !Ord Sd, !OrdSpec Sd}.
Notation Msg := (Message Mid Sd).
Variable msg_map : gmap Mid Msg.
Implicit Types (m mv p x y : Msg) (finalized : gset Msg).

Definition in_map m : Prop := ∃ i, msg_map !! i = Some m.

(** Sequence numbers grow along the chain of a sender (what
    [validate::sequence_number] checks before a block enters the DAG). *)
Definition seq_decreasing : Prop :=
  ∀ m p i, in_map m → i ∈ parents m → msg_map !! i = Some p →
           sender p = sender m → sender_seq p < sender_seq m.

Lemma elem_of_next_self_parents mv finalized m x :
  x ∈ next_self_parents msg_map mv finalized m ↔
  (∃ i, i ∈ parents m ∧ msg_map !! i = Some x) ∧ sender x = sender mv ∧ x ∉ finalized.
Proof.
  unfold next_self_parents, msg. rewrite list_elem_of_filter, list_elem_of_omap.
  setoid_rewrite elem_of_set_iter. naive_solver.
Qed.

Definition newer x y : Prop := sender_seq y < sender_seq x.

(** What the chain collects: messages of the map by the same sender, not
    finalized, from the newest to the oldest. *)
Definition chain_ok mv finalized (chain : list Msg) : Prop :=
  Forall (λ x, in_map x ∧ sender x = sender mv ∧ x ∉ finalized) chain ∧
  StronglySorted newer chain.

Definition self_parents_inv mv finalized (st : list Msg * list Msg) : Prop :=
  chain_ok mv finalized st.1 ∧
  Forall (λ x, in_map x ∧ sender x = sender mv ∧ x ∉ finalized) st.2 ∧
  ∀ x y, x ∈ st.1 → y ∈ st.2 → newer x y.

Lemma self_parents_step_inv mv finalized s s' :
  seq_decreasing → self_parents_inv mv finalized s →
  self_parents_step msg_map mv finalized s = inl s' →
  self_parents_inv mv finalized s'.
Proof.
  destruct s as [chain next]. unfold self_parents_inv, self_parents_step, chain_ok. simpl.
  intros Hdec ([Hc Hsort] & Hn & Hcn).
  destruct (last next) as [m|] eqn:Hm; [intros [= <-]|done]. simpl.
  assert (m ∈ next) as Hin by (by apply last_Some_elem_of).
  pose proof (proj1 (Forall_forall _ _) Hn m Hin) as (Hmm & Hms & Hmf).
  split_and!.
  - rewrite Forall_app. split; [done|]. by repeat constructor.
  - apply StronglySorted_snoc; auto.
  - apply Forall_forall. intros y ((i & Hi & Hy) & ? & ?)%elem_of_next_self_parents.
    unfold in_map. eauto.
  - intros x y Hx ((i & Hi & Hy) & Hs & ?)%elem_of_next_self_parents.
    assert (newer m y) as Hmy by (apply (Hdec m y i); congruence).
    apply elem_of_app in Hx as [Hx| ->%list_elem_of_singleton]; [|done].
    specialize (Hcn x m Hx Hin). unfold newer in *. lia.
Qed.

Lemma self_parents_inv_init mv finalized :
  self_parents_inv mv finalized ([], next_self_parents msg_map mv finalized mv).
Proof.
  unfold self_parents_inv, chain_ok. simpl. split_and!; [done|constructor| |].
  - apply Forall_forall. intros y ((i & Hi & Hy) & ? & ?)%elem_of_next_self_parents.
    unfold in_map. eauto.
  - intros x y []%elem_of_nil.
Qed.

Lemma newer_NoDup (l : list Msg) : StronglySorted newer l → NoDup l.
Proof.
  induction 1 as [|x l Hl IH Hx]; constructor; [|done].
  intros Hin. rewrite Forall_forall in Hx. specialize (Hx x Hin). unfold newer in Hx. lia.
Qed.

(** A chain has at most one entry per message of the map. *)
Lemma chain_length mv finalized chain :
  chain_ok mv finalized chain → (length chain ≤ size msg_map)%nat.
Proof.
  intros [Hc Hs]. rewrite <- (length_map_iter msg_map), <- (length_fmap snd (map_iter msg_map)).
  apply submseteq_length, NoDup_submseteq; [by apply newer_NoDup|].
  intros x Hx. rewrite Forall_forall in Hc. destruct (Hc x Hx) as ([i Hi] & _).
  by apply elem_of_map_values; eauto.
Qed.

(** Following self-parents terminates on a map whose sequence numbers grow
    along each sender's chain, and collects exactly a newest-to-oldest
    chain of non-finalized messages of the sender. *)
Lemma self_parents_total mv finalized :
  seq_decreasing →
  ∃ chain, self_parents msg_map mv finalized = Some chain ∧ chain_ok mv finalized chain.
Proof.
  intros Hdec. unfold self_parents.
  destruct (loop_terminates (self_parents_step msg_map mv finalized)
    (self_parents_inv mv finalized) (λ st, S (size msg_map) - length st.1)%nat) with
    (fuel := S (S (size msg_map))) (s := ([] : list Msg, next_self_parents msg_map mv finalized mv))
    as [chain Hchain].
  - intros s s' Hs Hstep. pose proof (self_parents_step_inv _ _ _ _ Hdec Hs Hstep) as Hs'.
    split; [done|]. destruct s as [c n]. simpl in Hstep.
    destruct (last n) as [m|]; [|done]. injection Hstep as <-.
    pose proof (chain_length _ _ _ (proj1 Hs')). simpl in *. rewrite length_app in *. simpl in *. lia.
  - apply self_parents_inv_init.
  - simpl. lia.
  - exists chain. split; [done|].
    eapply (loop_inv _ (self_parents_inv mv finalized) (chain_ok mv finalized));
      [| |apply self_parents_inv_init|exact Hchain].
    + intros. by eapply self_parents_step_inv.
    + intros [c n] r (Hc & _). simpl. destruct (last n); [done|]. by intros [= <-].
Qed.

(** The oldest message of a chain. *)
Lemma min_message_total p finalized :
  seq_decreasing →
  ∃ m, min_message msg_map finalized p = Some m ∧ sender m = sender p ∧
       (m = p ∨ in_map m ∧ m ∉ finalized).
Proof.
  intros Hdec. unfold min_message.
  destruct (self_parents_total p finalized Hdec) as (chain & -> & Hc & _). simpl.
  eexists; split; [done|].
  destruct (last chain) as [m|] eqn:Hl.
  - assert (last (p :: chain) = Some m) as ->.
    { rewrite last_cons, Hl. done. }
    simpl. apply last_Some_elem_of in Hl. rewrite Forall_forall in Hc.
    destruct (Hc m Hl) as (? & ? & ?). eauto.
  - apply last_None in Hl as ->. simpl. eauto.
Qed.
End SelfParents.

(** ** The next layer and its support *)
Section NextFringe.
Context {Mid Sd : Type} `{Countable Mid} `{Countable Sd}.
Context `{!Ord Mid, !OrdSpec Mid, !Ord Sd, !OrdSpec Sd}.
Notation Msg := (Message Mid Sd).
Variable msg_map : gmap Mid Msg.
Implicit Types (m mv p x y j : Msg) (finalized justifications : gset Msg).
Implicit Types (bonds : gmap Sd Z) (next_layer : gmap Sd Msg).

Definition distinct_senders justifications : Prop :=
  ∀ j j', j ∈ justifications → j' ∈ justifications → sender j = sender j' → j = j'.

Definition min_message_of finalized j m : Prop :=
  min_message msg_map finalized j = Some m.

Lemma min_messages_spec justifications finalized ms :
  min_messages msg_map justifications finalized = Some ms →
  Forall2 (min_message_of finalized) (set_iter justifications) ms.
Proof.
  unfold min_messages. apply (fold_opt_inv _ (Forall2 (min_message_of finalized))); [constructor|].
  intros done a rest acc acc' _ Hacc. destruct (min_message _ _ _) as [m|] eqn:E; [|done].
  intros [= <-]. apply Forall2_app; [done|]. by repeat constructor.
Qed.

Lemma min_messages_total justifications finalized :
  seq_decreasing msg_map → is_Some (min_messages msg_map justifications finalized).
Proof.
  intros Hdec. apply fold_opt_is_Some. intros acc j _.
  destruct (min_message_total msg_map j finalized Hdec) as (m & -> & _). simpl. eauto.
Qed.

Lemma see_min_msg_total ids m finalized :
  seq_decreasing msg_map → is_Some (see_min_msg msg_map ids m finalized).
Proof.
  intros Hdec. apply fold_opt_is_Some. intros acc i _.
  destruct (msg msg_map i) as [p|]; [|eauto].
  destruct (self_parents_total msg_map p finalized Hdec) as (c & -> & _). simpl.
  destruct (_ || _); eauto.
Qed.

Lemma seen_by_total mv nl finalized :
  seq_decreasing msg_map → is_Some (seen_by msg_map mv nl finalized).
Proof.
  intros Hdec. apply fold_opt_is_Some. intros acc [s m] _.
  destruct (see_min_msg_total (parents mv ∖ next_layer_ids nl) m finalized Hdec) as [see ->].
  simpl. eauto.
Qed.

(** One round of finalization always returns on a well-formed map. *)
Lemma next_fringe_total justifications bonds prev_fringe :
  seq_decreasing msg_map →
  is_Some (next_fringe msg_map justifications bonds prev_fringe).
Proof.
  intros Hdec. unfold next_fringe.
  destruct (min_messages_total justifications prev_fringe Hdec) as [ms ->]. simpl.
  destruct (check_min_messages ms bonds); simpl; [|eauto].
  assert (is_Some (calculate_next_fringe_support_map msg_map justifications
    (calculate_next_layer msg_map ms) prev_fringe)) as [support ->].
  { apply fold_opt_is_Some. intros acc mv _.
    destruct (seen_by_total mv (calculate_next_layer msg_map ms) prev_fringe Hdec) as [sb ->].
    simpl. eauto. }
  simpl. destruct (calculate_fringe support bonds); eauto.
Qed.

Lemma min_messages_map_spec (ms : list Msg) :
  (∀ s m, min_messages_map ms !! s = Some m → m ∈ ms ∧ sender m = s) ∧
  (∀ m, m ∈ ms → is_Some (min_messages_map ms !! sender m)) ∧
  (NoDup (sender <$> ms) → ∀ m, m ∈ ms → min_messages_map ms !! sender m = Some m).
Proof.
  unfold min_messages_map.
  induction ms as [|m ms (IH1 & IH2 & IH3)] using rev_ind; simpl.
  { split_and!; [|intros ? []%elem_of_nil|intros ? ? []%elem_of_nil].
    intros s m. by rewrite lookup_empty. }
  rewrite foldl_snoc. split_and!.
  - intros s x. rewrite lookup_insert. case_decide as Hs.
    + intros [= <-]. set_solver.
    + intros [Hx ->]%IH1. set_solver.
  - intros x Hx. rewrite lookup_insert. case_decide; [eauto|]. apply IH2. set_solver.
  - rewrite fmap_app, NoDup_app. intros (Hnd & Hnot & _) x Hx. rewrite lookup_insert.
    apply elem_of_app in Hx as [Hx| ->%list_elem_of_singleton]; [|by rewrite decide_True].
    rewrite decide_False; [by apply IH3|]. intros Hs.
    apply (Hnot (sender x)); [by apply list_elem_of_fmap_2|]. set_solver.
Qed.

(** Each sender of a minimum message gets, in the next layer, one of its
    own messages that is at least as recent as its minimum message. *)
Lemma next_layer_spec (ms : list Msg) :
  (∀ s, is_Some (calculate_next_layer msg_map ms !! s) ↔ is_Some (min_messages_map ms !! s)) ∧
  (∀ s c, min_messages_map ms !! s = Some c →
     ∃ x, calculate_next_layer msg_map ms !! s = Some x ∧ sender x = s ∧
          sender_seq c ≤ sender_seq x ∧ (x = c ∨ in_map msg_map x)).
Proof.
  unfold calculate_next_layer. set (mm := min_messages_map ms).
  set (P := λ acc : gmap Sd Msg,
    (∀ s, is_Some (acc !! s) ↔ is_Some (mm !! s)) ∧
    (∀ s c, mm !! s = Some c →
       ∃ x, acc !! s = Some x ∧ sender x = s ∧ sender_seq c ≤ sender_seq x ∧
            (x = c ∨ in_map msg_map x))).
  change (P (foldl next_layer_insert mm
    (filter (λ x, is_Some (mm !! sender x)) (ms ≫= λ x, omap (msg msg_map) (set_iter (parents x)))))).
  apply foldl_inv.
  - split; [done|]. intros s c Hc. exists c. split_and!; [done| |lia|by left].
    by apply (proj1 (min_messages_map_spec ms)) in Hc as [_ ?].
  - intros acc m [_ Hm]%list_elem_of_filter [Hd Hacc].
    assert (in_map msg_map m) as Him.
    { apply list_elem_of_bind in Hm as (x & Hm & _).
      apply list_elem_of_omap in Hm as (i & _ & Hi). by exists i. }
    unfold next_layer_insert. destruct (acc !! sender m) as [curr|] eqn:Hc; [|done].
    destruct (Z.ltb_spec (sender_seq curr) (sender_seq m)) as [Hlt|]; [|done].
    split.
    + intros s. rewrite lookup_insert. case_decide; [|done]. subst.
      rewrite <- Hd, Hc. split; eauto.
    + intros s c Hs. rewrite lookup_insert. case_decide; [|by apply Hacc]. subst.
      exists m. destruct (Hacc _ _ Hs) as (x & Hx & _ & Hle & _).
      rewrite Hc in Hx. injection Hx as <-. split_and!; [done|done|lia|by right].
Qed.

(** Sender [b] sees message [x] from a parent of [mv]: the parent, or one of
    its non-finalized self-parents, has [x] among its seen messages. *)
Definition sees mv (layer : gset Mid) finalized x (b : Sd) : Prop :=
  ∃ i p chain, i ∈ parents mv ∖ layer ∧ msg_map !! i = Some p ∧ sender p = b ∧
    self_parents msg_map p finalized = Some chain ∧
    ∃ m, m ∈ p :: chain ∧ id x ∈ seen m.

Lemma see_min_msg_spec mv layer finalized x see :
  see_min_msg msg_map (parents mv ∖ layer) x finalized = Some see →
  ∀ b, b ∈ see ↔ sees mv layer finalized x b.
Proof.
  intros Hsee.
  cut (∀ b, b ∈ see ↔ ∃ i p chain, i ∈ set_iter (parents mv ∖ layer) ∧ msg_map !! i = Some p ∧
    sender p = b ∧ self_parents msg_map p finalized = Some chain ∧
    ∃ m, m ∈ p :: chain ∧ id x ∈ seen m).
  { intros Hb b. rewrite Hb. unfold sees. by setoid_rewrite elem_of_set_iter. }
  revert Hsee. unfold see_min_msg. generalize (set_iter (parents mv ∖ layer)). intros l.
  apply (fold_opt_inv _ (λ done acc, ∀ b, b ∈ acc ↔ ∃ i p chain, i ∈ done ∧
    msg_map !! i = Some p ∧ sender p = b ∧ self_parents msg_map p finalized = Some chain ∧
    ∃ m, m ∈ p :: chain ∧ id x ∈ seen m)).
  - intros b. split; [by intros ?%not_elem_of_empty|].
    by intros (i & p & c & []%elem_of_nil & _).
  - intros done i rest acc acc' _ Hacc Hstep b. unfold msg in Hstep.
    setoid_rewrite elem_of_app. setoid_rewrite list_elem_of_singleton.
    assert ((∃ i' p chain, (i' ∈ done ∨ i' = i) ∧ msg_map !! i' = Some p ∧ sender p = b ∧
      self_parents msg_map p finalized = Some chain ∧ ∃ m, m ∈ p :: chain ∧ id x ∈ seen m) ↔
      b ∈ acc ∨ ∃ p chain, msg_map !! i = Some p ∧ sender p = b ∧
      self_parents msg_map p finalized = Some chain ∧ ∃ m, m ∈ p :: chain ∧ id x ∈ seen m)
      as ->.
    { rewrite Hacc. split.
      - intros (i' & p & c & [Hi| ->] & Hrest); [left; by exists i', p, c|right; by exists p, c].
      - intros [(i' & p & c & Hi & Hrest)|(p & c & Hrest)];
          [exists i', p, c; by split; [left|]|exists i, p, c; by split; [right|]]. }
    destruct (msg_map !! i) as [p|].
    2:{ injection Hstep as <-. split; [by left|]. by intros [?|(?&?&?&_)]. }
    destruct (self_parents msg_map p finalized) as [chain|] eqn:Hc; [|done].
    cbn [mbind option_bind] in Hstep.
    destruct (existsb _ (p :: chain)) eqn:Hex; injection Hstep as <-.
    + apply existsb_elem in Hex as (m & Hm & Hx%bool_decide_eq_true).
      rewrite elem_of_union, elem_of_singleton. split.
      * intros [->|?]; [right; by eauto 10|by left].
      * intros [?|(p' & chain' & [= <-] & <- & _)]; [by right|by left].
    + rewrite existsb_not_elem in Hex.
      split; [by left|]. intros [?|(p' & chain' & [= <-] & _ & Hc' & m & Hm & Hx)]; [done|].
      rewrite Hc in Hc'. injection Hc' as <-. specialize (Hex m Hm). by rewrite bool_decide_eq_false in Hex.
Qed.
Lemma seen_by_spec mv nl finalized sb :
  seen_by msg_map mv nl finalized = Some sb →
  ∀ s X, sb !! s = Some X ↔
    X ≠ ∅ ∧ ∃ x, nl !! s = Some x ∧ ∀ b, b ∈ X ↔ sees mv (next_layer_ids nl) finalized x b.
Proof.
  intros Hsb.
  cut (∀ s X, sb !! s = Some X ↔ X ≠ ∅ ∧ ∃ x, (s, x) ∈ map_iter nl ∧
    ∀ b, b ∈ X ↔ sees mv (next_layer_ids nl) finalized x b).
  { intros Hs s X. rewrite Hs. by setoid_rewrite elem_of_map_iter. }
  pose proof (NoDup_map_iter_keys nl) as Hnd.
  revert Hsb Hnd. unfold seen_by. generalize (map_iter nl). intros l Hsb Hnd. revert Hsb.
  apply (fold_opt_inv _ (λ done acc, ∀ s X, acc !! s = Some X ↔ X ≠ ∅ ∧ ∃ x, (s, x) ∈ done ∧
    ∀ b, b ∈ X ↔ sees mv (next_layer_ids nl) finalized x b)).
  - intros s X. rewrite lookup_empty. split; [done|]. by intros (_ & x & []%elem_of_nil & _).
  - intros done [s x] rest acc acc' Hl Hacc Hstep s' X.
    destruct (see_min_msg _ _ _ _) as [see|] eqn:Hsee; [|done].
    cbn [mbind option_bind] in Hstep. injection Hstep as <-.
    pose proof (see_min_msg_spec _ _ _ _ _ Hsee) as Hspec.
    setoid_rewrite elem_of_app. setoid_rewrite list_elem_of_singleton.
    assert (∀ x', (s, x') ∉ done) as Hfresh.
    { intros x' Hin. rewrite Hl, fmap_app, NoDup_app in Hnd. destruct Hnd as (_ & Hdis & _).
      apply (Hdis s); [by apply (list_elem_of_fmap_2 fst _ _ Hin)|]. simpl. by left. }
    destruct (decide (s' = s)) as [->|Hne].
    + assert (acc !! s = None) as Hnone.
      { destruct (acc !! s) as [Y|] eqn:HY; [|done].
        apply Hacc in HY as (_ & x' & Hin & _). by apply Hfresh in Hin. }
      trans (see ≠ ∅ ∧ X = see).
      { case_decide as Hsee0; [rewrite Hnone; naive_solver|].
        rewrite lookup_insert_eq. naive_solver. }
      split.
      * intros [? ->]. split; [done|]. exists x. naive_solver.
      * intros (HX & x' & [Hin|[= ->]] & HXs); [by apply Hfresh in Hin|].
        assert (X = see) as ->; [|done]. apply leibniz_equiv. intros b. by rewrite HXs, Hspec.
    + trans (acc !! s' = Some X).
      { case_decide; [done|]. by rewrite lookup_insert_ne. }
      rewrite Hacc. split; intros (HX & x' & Hin & HXs); (split; [done|]); exists x'; naive_solver.
Qed.

Lemma support_map_spec justifications nl finalized support :
  calculate_next_fringe_support_map msg_map justifications nl finalized = Some support →
  ∀ s sb, support !! s = Some sb →
    ∃ mv, mv ∈ justifications ∧ sender mv = s ∧ seen_by msg_map mv nl finalized = Some sb.
Proof.
  setoid_rewrite <- (elem_of_set_iter justifications).
  unfold calculate_next_fringe_support_map. generalize (set_iter justifications). intros l.
  apply (fold_opt_inv _ (λ done acc, ∀ s sb, acc !! s = Some sb →
    ∃ mv, mv ∈ done ∧ sender mv = s ∧ seen_by msg_map mv nl finalized = Some sb)).
  - intros s sb. by rewrite lookup_empty.
  - intros done mv rest acc acc' _ Hacc Hstep s sb.
    destruct (seen_by msg_map mv nl finalized) as [sb'|] eqn:Hsb; [|done].
    cbn [mbind option_bind] in Hstep. injection Hstep as <-. setoid_rewrite elem_of_app.
    case_decide.
    + intros (mv' & ? & ? & ?)%Hacc. eauto.
    + rewrite lookup_insert. case_decide as Hs.
      * intros [= <-]. exists mv. split_and!; [right; by left|done|done].
      * intros (mv' & ? & ? & ?)%Hacc. eauto.
Qed.

(** Sender [s] supports the fringe [nf]: it has a justification from whose
    parents some message of [nf] is seen, and every message of [nf] that is
    seen at all is seen by exactly the bonded senders. *)
Definition supports justifications bonds finalized (nf : gset Msg) (s : Sd) : Prop :=
  ∃ mv, mv ∈ justifications ∧ sender mv = s ∧
    (∃ x b, x ∈ nf ∧ sees mv (set_map id nf) finalized x b) ∧
    ∀ x b, x ∈ nf → sees mv (set_map id nf) finalized x b →
      ∀ b', sees mv (set_map id nf) finalized x b' ↔ b' ∈ dom bonds.

Lemma next_layer_ids_values nl :
  next_layer_ids nl = set_map id (list_to_set (map_values nl) : gset Msg).
Proof. apply leibniz_equiv. unfold next_layer_ids. intros i. set_solver. Qed.

Lemma all_bonded_supports justifications bonds finalized nl support s sb :
  calculate_next_fringe_support_map msg_map justifications nl finalized = Some support →
  support !! s = Some sb → all_bonded bonds sb = true →
  supports justifications bonds finalized (list_to_set (map_values nl)) s.
Proof.
  intros Hsup Hs Hall. destruct (support_map_spec _ _ _ _ Hsup _ _ Hs) as (mv & Hmv & Hsend & Hsb).
  pose proof (seen_by_spec _ _ _ _ Hsb) as Hspec. rewrite next_layer_ids_values in Hspec.
  apply andb_true_iff in Hall as [Hne%bool_decide_eq_true Hall]. rewrite forallb_elem in Hall.
  assert (∀ s' x b, nl !! s' = Some x → sees mv (set_map id (list_to_set (map_values nl) : gset Msg)) finalized x b →
    ∃ X, sb !! s' = Some X ∧ ∀ b', b' ∈ X ↔ sees mv (set_map id (list_to_set (map_values nl) : gset Msg)) finalized x b')
    as Hentry.
  { intros s' x b Hx Hb.
    destruct (see_min_msg msg_map (parents mv ∖ set_map id (list_to_set (map_values nl) : gset Msg))
      x finalized) as [X|] eqn:HX.
    - pose proof (see_min_msg_spec _ _ _ _ _ HX) as HXs. exists X. split; [|done].
      apply Hspec. split; [|by eauto]. intros ->. by apply (HXs b) in Hb.
    - exfalso. rewrite <- next_layer_ids_values in HX. unfold seen_by in Hsb.
      apply (fold_opt_elem _ _ _ _ (s', x)) in Hsb as [acc [? Hacc]];
        [|by apply elem_of_map_iter].
      by rewrite HX in Hacc. }
  exists mv. split_and!; [done|done| |].
  - destruct (map_choose sb Hne) as (s' & X & HX). apply Hspec in HX as (HX0 & x & Hx & HXs).
    apply set_choose_L in HX0 as [b Hb]. exists x, b. split; [|by apply HXs].
    apply elem_of_list_to_set, elem_of_map_values. eauto.
  - intros x b Hx Hb b'. apply elem_of_list_to_set, elem_of_map_values in Hx as [s' Hx].
    destruct (Hentry s' x b Hx Hb) as (X & HX & HXs).
    assert (bool_decide (X = dom bonds) = true) as ->%bool_decide_eq_true.
    { apply Hall, elem_of_map_values. eauto. }
    by rewrite HXs.
Qed.

(** A fringe is only returned with the support of a supermajority. *)
Lemma next_fringe_sound justifications bonds prev_fringe nf :
  bonds_ok bonds →
  next_fringe msg_map justifications bonds prev_fringe = Some (Some nf) →
  ∃ Q, Q ⊆ dom bonds ∧ 3 * stake_of bonds Q > 2 * stake_of bonds (dom bonds) ∧
       ∀ s, s ∈ Q → supports justifications bonds prev_fringe nf s.
Proof.
  intros Hb. unfold next_fringe.
  destruct (min_messages _ _ _) as [ms|]; simpl; [|done].
  destruct (check_min_messages ms bonds); simpl; [|done].
  destruct (calculate_next_fringe_support_map _ _ _ _) as [support|] eqn:Hsup; simpl; [|done].
  destruct (calculate_fringe support bonds) eqn:Hf; [|done]. intros [= <-].
  exists (supporters support bonds). split_and!.
  - apply supporters_bonded.
  - by apply calculate_fringe_iff.
  - intros s (sb & Hs & Hall & _)%elem_of_supporters. by eapply all_bonded_supports.
Qed.
End NextFringe.

(** ** Shape and progress of a fringe *)
Section FringeFacts.
Context {Mid Sd : Type} `{Countable Mid} `{Countable Sd}.
Context `{!Ord Mid, !OrdSpec Mid, !Ord Sd, !OrdSpec Sd}.
Notation Msg := (Message Mid Sd).
Variable msg_map : gmap Mid Msg.
Implicit Types (m p x y j f : Msg) (finalized justifications nf : gset Msg).
Implicit Types (bonds : gmap Sd Z).

(** Same-sender parents carry the previous sequence number, and no sender
    has two messages with one number (what [validate::sequence_number] and
    the equivocation check of [BlockDagKeyValueStorage::insert] enforce). *)
Definition contiguous : Prop :=
  ∀ m p i, in_map msg_map m → i ∈ parents m → msg_map !! i = Some p →
           sender p = sender m → sender_seq p = sender_seq m - 1.
Definition no_equivocation : Prop :=
  ∀ m m', in_map msg_map m → in_map msg_map m' → sender m = sender m' →
          sender_seq m = sender_seq m' → m = m'.

Lemma contiguous_decreasing : contiguous → seq_decreasing msg_map.
Proof. intros Hc m p i Hm Hi Hp Hs. rewrite (Hc m p i Hm Hi Hp Hs). lia. Qed.

Lemma next_fringe_inv justifications bonds prev_fringe nf :
  next_fringe msg_map justifications bonds prev_fringe = Some (Some nf) →
  ∃ ms, min_messages msg_map justifications prev_fringe = Some ms ∧
        length ms = size bonds ∧
        nf = list_to_set (map_values (calculate_next_layer msg_map ms)).
Proof.
  unfold next_fringe. destruct (min_messages _ _ _) as [ms|]; simpl; [|done].
  unfold check_min_messages. destruct (Nat.eqb_spec (length ms) (size bonds)); simpl; [|done].
  destruct (calculate_next_fringe_support_map _ _ _ _); simpl; [|done].
  destruct (calculate_fringe _ _); [|done]. intros [= <-]. eauto.
Qed.

Lemma min_messages_senders justifications finalized ms :
  seq_decreasing msg_map →
  min_messages msg_map justifications finalized = Some ms →
  sender <$> ms = sender <$> set_iter justifications ∧
  ∀ m, m ∈ ms → ∃ j, j ∈ justifications ∧ sender m = sender j ∧
                     (m = j ∨ in_map msg_map m).
Proof.
  intros Hdec Hms%min_messages_spec.
  assert (∀ j m, min_message_of msg_map finalized j m →
    sender m = sender j ∧ (m = j ∨ in_map msg_map m)) as Hmin.
  { intros j m Hm. destruct (min_message_total msg_map j finalized Hdec) as (m' & Hm' & ? & Ho).
    unfold min_message_of in Hm. rewrite Hm in Hm'. injection Hm' as <-. naive_solver. }
  split.
  - induction Hms as [|j m l ms' Hm _ IH]; [done|]. csimpl.
    by rewrite IH, (proj1 (Hmin j m Hm)).
  - intros m [k Hk]%list_elem_of_lookup.
    destruct (Forall2_lookup_r _ _ _ _ _ Hms Hk) as (j & Hj & Hm).
    exists j. split; [|by apply Hmin].
    apply elem_of_set_iter, list_elem_of_lookup. eauto.
Qed.

Lemma distinct_senders_NoDup justifications :
  distinct_senders justifications → NoDup (sender <$> set_iter justifications).
Proof.
  intros Hd. apply NoDup_fmap_2_strong; [|apply NoDup_set_iter].
  intros x y Hx%elem_of_set_iter Hy%elem_of_set_iter. auto.
Qed.

Lemma next_layer_senders (ms : list Msg) s x :
  calculate_next_layer msg_map ms !! s = Some x →
  sender x = s ∧ ∃ c, min_messages_map ms !! s = Some c ∧ c ∈ ms ∧ sender c = s ∧
    sender_seq c ≤ sender_seq x ∧ (x = c ∨ in_map msg_map x).
Proof.
  destruct (next_layer_spec msg_map ms) as [Hd Hnl]. intros Hx.
  destruct (proj1 (Hd s)) as [c Hc]; [by eauto|].
  destruct (Hnl s c Hc) as (x' & Hx' & Hs & Hle & Ho). rewrite Hx in Hx'. injection Hx' as <-.
  split; [done|]. exists c. destruct (proj1 (min_messages_map_spec ms) s c Hc). eauto.
Qed.

Lemma next_layer_size (ms : list Msg) :
  NoDup (sender <$> ms) → size (calculate_next_layer msg_map ms) = length ms.
Proof.
  intros Hnd. rewrite <- size_dom, <- (length_fmap sender ms).
  rewrite <- (size_list_to_set (C := gset Sd) (sender <$> ms) Hnd). f_equal.
  apply leibniz_equiv. intros s. rewrite elem_of_dom, elem_of_list_to_set.
  rewrite (proj1 (next_layer_spec msg_map ms)), list_elem_of_fmap.
  destruct (min_messages_map_spec ms) as (H1 & H2 & _). split.
  - intros [c Hc]. destruct (H1 s c Hc) as [? <-]. eauto.
  - intros (c & -> & Hc). by apply H2.
Qed.

(** The chain of a justification stops above a finalized message of the
    same sender. *)
Lemma self_parents_above finalized j f chain :
  contiguous → no_equivocation → in_map msg_map j →
  f ∈ finalized → in_map msg_map f → sender f = sender j → sender_seq f < sender_seq j →
  self_parents msg_map j finalized = Some chain →
  ∀ x, x ∈ chain → sender_seq f < sender_seq x.
Proof.
  intros Hcont Hneq Hj Hf Hfm Hs Hlt.
  assert (∀ m, in_map msg_map m → sender m = sender j → sender_seq f < sender_seq m →
    ∀ y, y ∈ next_self_parents msg_map j finalized m →
    in_map msg_map y ∧ sender y = sender j ∧ sender_seq f < sender_seq y) as Hnext.
  { intros m Hm Hms Hmf y ((i & Hi & Hy) & Hys & Hyf)%elem_of_next_self_parents.
    assert (in_map msg_map y) by by exists i.
    split_and!; [done|done|].
    assert (sender_seq y = sender_seq m - 1) by (apply (Hcont m y i); congruence).
    destruct (decide (sender_seq y = sender_seq f)); [|lia].
    assert (y = f) as -> by (apply Hneq; congruence). done. }
  unfold self_parents.
  apply (loop_inv _ (λ st : list Msg * list Msg,
    (∀ x, x ∈ st.1 → sender_seq f < sender_seq x) ∧
    ∀ y, y ∈ st.2 → in_map msg_map y ∧ sender y = sender j ∧ sender_seq f < sender_seq y)
    (λ c, ∀ x, x ∈ c → sender_seq f < sender_seq x)).
  - intros [c n] s' [Hc Hn]. simpl in *. destruct (last n) as [m|] eqn:Hl; [|done].
    intros [= <-]. simpl. destruct (Hn m) as (? & ? & ?); [by apply last_Some_elem_of|].
    split; [|by apply Hnext].
    intros x [?| ->%list_elem_of_singleton]%elem_of_app; auto.
  - intros [c n] r [Hc Hn]. simpl in *. destruct (last n); [done|]. by intros [= <-].
  - simpl. split; [intros x []%elem_of_nil|]. by apply Hnext.
Qed.

Lemma min_message_above finalized j f m :
  contiguous → no_equivocation → in_map msg_map j →
  f ∈ finalized → in_map msg_map f → sender f = sender j → sender_seq f < sender_seq j →
  min_message msg_map finalized j = Some m → sender_seq f < sender_seq m.
Proof.
  intros ? ? ? ? ? ? Hlt. unfold min_message.
  destruct (self_parents msg_map j finalized) as [chain|] eqn:Hc; simpl; [|done].
  rewrite last_cons. destruct (last chain) as [x|] eqn:Hx; simpl; intros [= <-]; [|done].
  apply (self_parents_above finalized j f chain); try done. by apply last_Some_elem_of.
Qed.
End FringeFacts.

(** ** Theorems of the finalizer *)
Section FinalizerTheorems.
Context {Mid Sd : Type} `{Countable Mid} `{Countable Sd}.
Context `{!Ord Mid, !OrdSpec Mid, !Ord Sd, !OrdSpec Sd}.
Notation Msg := (Message Mid Sd).
Implicit Types (msg_map : gmap Mid Msg) (justifications prev_fringe nf : gset Msg).
Implicit Types (bonds : gmap Sd Z).

(** C24: Finality is safe up to one third of the stake (Law 14).  Whenever two
    nodes, with message maps, justifications and previous fringes of their
    own, each detect a next fringe for the same bonds map, senders holding
    more than a third of the total stake support both fringes. *)
Theorem finality_quorum_intersection msg_map msg_map' justifications justifications'
    bonds prev_fringe prev_fringe' nf nf' :
  bonds_ok bonds →
  next_fringe msg_map justifications bonds prev_fringe = Some (Some nf) →
  next_fringe msg_map' justifications' bonds prev_fringe' = Some (Some nf') →
  ∃ Q, Q ⊆ dom bonds ∧ 3 * stake_of bonds Q > stake_of bonds (dom bonds) ∧
    ∀ s, s ∈ Q →
      supports msg_map justifications bonds prev_fringe nf s ∧
      supports msg_map' justifications' bonds prev_fringe' nf' s.
Proof.
  intros Hb (Q & HQ & Hst & Hsup)%next_fringe_sound (Q' & HQ' & Hst' & Hsup')%next_fringe_sound;
    [|done..].
  exists (Q ∩ Q'). split_and!; [set_solver|by apply super_majority_inter|set_solver].
Qed.

(** A detected fringe has exactly one message per bonded validator: as
    many messages as bonds, no two by the same sender, each by the sender
    of a justification (justifications being one per sender). *)
Theorem next_fringe_one_per_sender msg_map justifications bonds prev_fringe nf :
  seq_decreasing msg_map → distinct_senders justifications →
  next_fringe msg_map justifications bonds prev_fringe = Some (Some nf) →
  size nf = size bonds ∧ distinct_senders nf ∧
  ∀ x, x ∈ nf → (∃ j, j ∈ justifications ∧ sender j = sender x) ∧
                (x ∈ justifications ∨ in_map msg_map x).
Proof.
  intros Hdec Hd (ms & Hms & Hlen & ->)%next_fringe_inv.
  destruct (min_messages_senders _ _ _ _ Hdec Hms) as [Hsend Hfrom].
  assert (NoDup (sender <$> ms)) as Hnd by (rewrite Hsend; by apply distinct_senders_NoDup).
  pose proof (next_layer_size msg_map ms Hnd) as Hsize.
  set (nl := calculate_next_layer msg_map ms) in *.
  assert (∀ s x, nl !! s = Some x → sender x = s) as Hkey.
  { intros s x Hx. by destruct (next_layer_senders msg_map ms s x Hx) as [? _]. }
  assert (NoDup (map_values nl)) as Hv.
  { unfold map_values. apply NoDup_fmap_2_strong; [|apply NoDup_map_iter].
    intros [s x] [s' y] Hx%elem_of_map_iter Hy%elem_of_map_iter. simpl. intros ->.
    by rewrite <- (Hkey s y Hx), <- (Hkey s' y Hy). }
  split_and!.
  - rewrite size_list_to_set by done. unfold map_values. rewrite length_fmap, length_map_iter.
    congruence.
  - intros x y. rewrite !elem_of_list_to_set, !elem_of_map_values.
    intros [s Hx] [s' Hy] Hxy. apply Hkey in Hx as Hs. apply Hkey in Hy as Hs'. congruence.
  - intros x. rewrite elem_of_list_to_set, elem_of_map_values. intros [s Hx].
    destruct (next_layer_senders msg_map ms s x Hx) as (Hxs & c & _ & Hc & Hcs & _ & Ho).
    destruct (Hfrom c Hc) as (j & Hj & Hjs & Hcj). split; [exists j; split; congruence|].
    destruct Ho as [->|?]; [|by right]. destruct Hcj as [->|?]; [by left|by right].
Qed.

(** C25: Fringes advance (Law 15).  On a DAG without equivocation whose
    self-chains are contiguous, the next fringe contains, for every message
    of the previous fringe that is older than its sender's justification, a
    strictly newer message of the same sender. *)
Theorem next_fringe_advances msg_map justifications bonds prev_fringe nf f j :
  contiguous msg_map → no_equivocation msg_map → distinct_senders justifications →
  next_fringe msg_map justifications bonds prev_fringe = Some (Some nf) →
  f ∈ prev_fringe → in_map msg_map f → j ∈ justifications → in_map msg_map j →
  sender f = sender j → sender_seq f < sender_seq j →
  ∃ x, x ∈ nf ∧ sender x = sender f ∧ sender_seq f < sender_seq x.
Proof.
  intros Hcont Hneq Hd (ms & Hms & _ & ->)%next_fringe_inv Hf Hfm Hj Hjm Hs Hlt.
  pose proof (contiguous_decreasing _ Hcont) as Hdec.
  destruct (min_messages_senders _ _ _ _ Hdec Hms) as [Hsend _].
  assert (NoDup (sender <$> ms)) as Hnd by (rewrite Hsend; by apply distinct_senders_NoDup).
  apply min_messages_spec in Hms.
  assert (∃ k, set_iter justifications !! k = Some j) as [k Hk]
    by by apply list_elem_of_lookup, elem_of_set_iter.
  destruct (Forall2_lookup_l _ _ _ _ _ Hms Hk) as (m & Hmk & Hm).
  assert (m ∈ ms) as Hin by (apply list_elem_of_lookup; eauto).
  assert (sender m = sender j) as Hmj.
  { destruct (min_message_total msg_map j prev_fringe Hdec) as (m' & Hm' & ? & _).
    unfold min_message_of in Hm. congruence. }
  destruct (proj2 (next_layer_spec msg_map ms) (sender m) m) as (x & Hx & Hxs & Hle & _).
  { by apply (min_messages_map_spec ms). }
  exists x. split_and!.
  - apply elem_of_list_to_set, elem_of_map_values. eauto.
  - congruence.
  - pose proof (min_message_above _ _ _ _ _ Hcont Hneq Hjm Hf Hfm Hs Hlt Hm). lia.
Qed.

(** A round of finalization terminates: on a message map whose sequence
    numbers grow along each sender's chain, [self_parents] follows a
    finite chain of distinct non-finalized messages, from the newest to the
    oldest, and [next_fringe] returns. *)
Theorem finalization_round_terminates msg_map justifications bonds prev_fringe mv :
  seq_decreasing msg_map →
  (∃ chain, self_parents msg_map mv prev_fringe = Some chain ∧
     chain_ok msg_map mv prev_fringe chain ∧ (length chain ≤ size msg_map)%nat) ∧
  is_Some (next_fringe msg_map justifications bonds prev_fringe).
Proof.
  intros Hdec. split; [|by apply next_fringe_total].
  destruct (self_parents_total msg_map mv prev_fringe Hdec) as (chain & ? & ?).
  exists chain. split_and!; [done|done|by eapply chain_length].
Qed.

(** C32: The finality test is exact (Law 14): with non-negative bonds and at
    most 2^62 validators no [i128] total wraps, and [calculate_fringe]
    answers true exactly when the bonded senders that see the full
    partition hold strictly more than two thirds of the bonded stake. *)
Theorem calculate_fringe_exact (support : gmap Sd (gmap Sd (gset Sd))) bonds :
  bonds_ok bonds →
  full_partition_stake support bonds = stake_of bonds (supporters support bonds) ∧
  total_stake bonds = stake_of bonds (dom bonds) ∧
  (calculate_fringe support bonds = true ↔
   3 * stake_of bonds (supporters support bonds) > 2 * stake_of bonds (dom bonds)).
Proof.
  intros Hb. split_and!; [by apply full_partition_stake_exact|by apply total_stake_exact|].
  by apply calculate_fringe_iff.
Qed.
End FinalizerTheorems.

(** ** Executable forms of the well-formedness conditions *)
Section Decide.
Context {Mid Sd : Type} `{Countable Mid} `{Countable Sd}.
Context `{!Ord Mid, !OrdSpec Mid, !Ord Sd, !OrdSpec Sd}.
Notation Msg := (Message Mid Sd).
Implicit Types (msg_map : gmap Mid Msg) (justifications : gset Msg) (m : Msg).

Definition parent_seq_ok msg_map m (i : Mid) : bool :=
  match msg_map !! i with
  | Some p => negb (bool_decide (sender p = sender m)) || (sender_seq p =? sender_seq m - 1)
  | None => true
  end.
Definition contiguous_b msg_map : bool :=
  forallb (λ m, forallb (parent_seq_ok msg_map m) (set_iter (parents m))) (map_values msg_map).
Definition no_equivocation_b msg_map : bool :=
  forallb (λ m, forallb (λ m', negb (bool_decide (sender m = sender m')) ||
      negb (sender_seq m =? sender_seq m') || bool_decide (m = m')) (map_values msg_map))
    (map_values msg_map).
Definition distinct_senders_b justifications : bool :=
  forallb (λ m, forallb (λ m', negb (bool_decide (sender m = sender m')) ||
      bool_decide (m = m')) (set_iter justifications)) (set_iter justifications).
Definition bonds_ok_b (bonds : gmap Sd Z) : bool :=
  forallb (λ v, (0 <=? v) && (v <=? i64_max)) (map_values bonds) &&
  (Z.of_nat (size bonds) <=? 2 ^ 62).

Lemma contiguous_b_ok msg_map : contiguous_b msg_map = true → contiguous msg_map.
Proof.
  unfold contiguous_b. rewrite forallb_elem. intros Hc m p i Hm Hi Hp Hs.
  specialize (Hc m). rewrite elem_of_map_values in Hc. specialize (Hc Hm).
  rewrite forallb_elem in Hc. specialize (Hc i). rewrite elem_of_set_iter in Hc.
  specialize (Hc Hi). unfold parent_seq_ok in Hc. rewrite Hp in Hc.
  rewrite bool_decide_true in Hc by done. simpl in Hc. lia.
Qed.

Lemma no_equivocation_b_ok msg_map :
  no_equivocation_b msg_map = true → no_equivocation msg_map.
Proof.
  unfold no_equivocation_b. rewrite forallb_elem. intros Hc m m' Hm Hm' Hs Hq.
  specialize (Hc m). rewrite elem_of_map_values, forallb_elem in Hc. specialize (Hc Hm m').
  rewrite elem_of_map_values in Hc. specialize (Hc Hm').
  rewrite bool_decide_true in Hc by done. rewrite Hq, Z.eqb_refl in Hc. simpl in Hc.
  by apply bool_decide_eq_true in Hc.
Qed.

Lemma distinct_senders_b_ok justifications :
  distinct_senders_b justifications = true → distinct_senders justifications.
Proof.
  unfold distinct_senders_b. rewrite forallb_elem. intros Hc m m' Hm Hm' Hs.
  specialize (Hc m). rewrite elem_of_set_iter, forallb_elem in Hc. specialize (Hc Hm m').
  rewrite elem_of_set_iter in Hc. specialize (Hc Hm').
  rewrite bool_decide_true in Hc by done. simpl in Hc. by apply bool_decide_eq_true in Hc.
Qed.

Lemma bonds_ok_b_ok (bonds : gmap Sd Z) : bonds_ok_b bonds = true → bonds_ok bonds.
Proof.
  unfold bonds_ok_b. rewrite andb_true_iff, forallb_elem. intros [Hv Hs%Z.leb_le].
  split; [|done]. intros s v Hsv. specialize (Hv v).
  rewrite elem_of_map_values in Hv. specialize (Hv ltac:(eauto)).
  unfold Refined.non_neg. lia.
Qed.
End Decide.

(** Three bonded senders, four layers that see each other: the fork of the
    source's unit tests with one more layer. *)
Module FinalizerExample.
Definition mk (i s q : Z) (ps sn : list Z) : Message Z Z :=
  mkMessage i 0 s q ∅ (list_to_set ps) ∅ (list_to_set sn).
Definition l2 : list Z := [99; 10; 11; 12].
Definition l3 : list Z := l2 ++ [20; 21; 22].
Definition l4 : list Z := l3 ++ [30; 31; 32].
Definition layer1 : list (Message Z Z) :=
  [ mk 10 0 1 [99] [99; 10]; mk 11 1 1 [99] [99; 11]; mk 12 2 1 [99] [99; 12] ].
Definition layer2 : list (Message Z Z) :=
  [ mk 20 0 2 [10; 11; 12] (l2 ++ [20]); mk 21 1 2 [10; 11; 12] (l2 ++ [21]);
    mk 22 2 2 [10; 11; 12] (l2 ++ [22]) ].
Definition layer3 : list (Message Z Z) :=
  [ mk 30 0 3 [20; 21; 22] (l3 ++ [30]); mk 31 1 3 [20; 21; 22] (l3 ++ [31]);
    mk 32 2 3 [20; 21; 22] (l3 ++ [32]) ].
Definition layer4 : list (Message Z Z) :=
  [ mk 40 0 4 [30; 31; 32] (l4 ++ [40]); mk 41 1 4 [30; 31; 32] (l4 ++ [41]);
    mk 42 2 4 [30; 31; 32] (l4 ++ [42]) ].
Definition dag : gmap Z (Message Z Z) :=
  list_to_map ((λ m, (id m, m)) <$>
    mk 99 99 0 [] [99] :: layer1 ++ layer2 ++ layer3 ++ layer4).
Definition bonds : gmap Z Z := list_to_map [(0, 10); (1, 10); (2, 10)].
Definition justs3 : gset (Message Z Z) := list_to_set layer3.
Definition justs4 : gset (Message Z Z) := list_to_set layer4.
Definition fringe1 : gset (Message Z Z) := list_to_set layer1.
Definition fringe2 : gset (Message Z Z) := list_to_set layer2.

Definition fringe_ids (r : option (gset (Message Z Z) * option (gset (Message Z Z)))) :
    option (list Z) :=
  '(_, o) ← r; X ← o; Some (id <$> set_iter X).

Example advances_on_fork :
  fringe_ids (calculate_finalization dag 5 justs3 bonds) = Some [10; 11; 12].
Proof. vm_compute. reflexivity. Qed.

Example advances_twice :
  fringe_ids (calculate_finalization dag 5 justs4 bonds) = Some [20; 21; 22].
Proof. vm_compute. reflexivity. Qed.

(** Witness of [finality_quorum_intersection]. *)
Lemma finality_quorum_intersection_witness :
  ∃ Q, Q ⊆ dom bonds ∧ 3 * stake_of bonds Q > stake_of bonds (dom bonds) ∧
    ∀ s, s ∈ Q → supports dag justs3 bonds ∅ fringe1 s ∧ supports dag justs4 bonds fringe1 fringe2 s.
Proof.
  apply finality_quorum_intersection.
  - apply bonds_ok_b_ok. vm_compute. reflexivity.
  - vm_decide.
  - vm_decide.
Defined.

(** Witness of [next_fringe_one_per_sender]. *)
Lemma next_fringe_one_per_sender_witness :
  size fringe1 = size bonds ∧ distinct_senders fringe1 ∧
  ∀ x, x ∈ fringe1 → (∃ j, j ∈ justs3 ∧ sender j = sender x) ∧ (x ∈ justs3 ∨ in_map dag x).
Proof.
  apply (next_fringe_one_per_sender dag justs3 bonds ∅ fringe1).
  - apply contiguous_decreasing, contiguous_b_ok. vm_compute. reflexivity.
  - apply distinct_senders_b_ok. vm_compute. reflexivity.
  - vm_decide.
Defined.

(** Witness of [next_fringe_advances]. *)
Lemma next_fringe_advances_witness :
  ∃ x, x ∈ fringe2 ∧ sender x = 0 ∧ 1 < sender_seq x.
Proof.
  apply (next_fringe_advances dag justs4 bonds fringe1 fringe2
           (mk 10 0 1 [99] [99; 10]) (mk 40 0 4 [30; 31; 32] (l4 ++ [40]))).
  - apply contiguous_b_ok. vm_compute. reflexivity.
  - apply no_equivocation_b_ok. vm_compute. reflexivity.
  - apply distinct_senders_b_ok. vm_compute. reflexivity.
  - vm_decide.
  - apply elem_of_list_to_set. by left.
  - exists 10. vm_decide.
  - apply elem_of_list_to_set. by left.
  - exists 40. vm_decide.
  - done.
  - done.
Defined.

(** Witness of [finalization_round_terminates]. *)
Lemma finalization_round_terminates_witness :
  (∃ chain, self_parents dag (mk 40 0 4 [30; 31; 32] (l4 ++ [40])) ∅ = Some chain ∧
     chain_ok dag (mk 40 0 4 [30; 31; 32] (l4 ++ [40])) ∅ chain ∧
     (length chain ≤ size dag)%nat) ∧
  is_Some (next_fringe dag justs4 bonds ∅).
Proof.
  apply finalization_round_terminates.
  apply contiguous_decreasing, contiguous_b_ok. vm_compute. reflexivity.
Defined.

(** Every validator sees the full partition. *)
Definition full_support : gmap Z (gmap Z (gset Z)) :=
  (λ _, (λ _, dom bonds) <$> bonds) <$> bonds.

(** Witness of [calculate_fringe_exact]. *)
Lemma calculate_fringe_exact_witness :
  full_partition_stake full_support bonds = stake_of bonds (supporters full_support bonds) ∧
  total_stake bonds = stake_of bonds (dom bonds) ∧
  (calculate_fringe full_support bonds = true ↔
   3 * stake_of bonds (supporters full_support bonds) > 2 * stake_of bonds (dom bonds)).
Proof.
  apply calculate_fringe_exact. apply bonds_ok_b_ok. vm_compute. reflexivity.
Defined.
End FinalizerExample.
