(* ===== verification/MessageState.v ===== *)
(** * DAG message state

    [block-storage/src/dag/message_state.rs]: the latest message of each
    sender and the map of all messages.  [insert_msg], its variant for
    validation-failed blocks and [create_msg_and_update_sender] are the
    operations that change it; [state_step] is their union. *)

From S2P Require Import Prelude BTree Refined Message Finalizer.
Import MessageMap Finalizer.

Module MessageState.
Inductive StorageError := EmptyLatestMessages.

Record DagMessageState (Mid Sd : Type) `{Countable Mid} `{Countable Sd} := mkState {
  latest_msgs : gmap Sd (Message Mid Sd);
  msg_map : gmap Mid (Message Mid Sd);
}.
#[global] Arguments mkState {Mid Sd _ _ _ _}.
#[global] Arguments latest_msgs {Mid Sd _ _ _ _}.
#[global] Arguments msg_map {Mid Sd _ _ _ _}.

Section State.
Context {Mid Sd : Type} `{Countable Mid} `{Countable Sd}.
Context `{!Ord Mid, !OrdSpec Mid, !Ord Sd, !OrdSpec Sd}.
Notation Msg := (Message Mid Sd).
Notation State := (DagMessageState Mid Sd).
Implicit Types (st : State) (m : Msg) (justifications : gset Msg).

Definition empty_state : State := mkState ∅ ∅.

(** [None]: the finalizer does not return within [fuel] rounds. *)
Definition create_message (fuel : nat) st (i : Mid) (h : Z) (s : Sd) (seq : Z)
    (fin_bonds_map : gmap Sd Z) justifications : option Msg :=
  '(parent_fringe, new_fringe_opt) ←
    calculate_finalization (msg_map st) fuel justifications fin_bonds_map;
  let new_fringe := default parent_fringe new_fringe_opt in
  let new_fringe_ids : gset Mid := list_to_set (id <$> set_iter new_fringe) in
  let new_seen : gset Mid :=
    {[i]} ∪ list_to_set (set_iter justifications ≫= λ j, set_iter (seen j)) in
  let justification_keys : gset Mid := list_to_set (id <$> set_iter justifications) in
  Some (mkMessage i h s seq fin_bonds_map justification_keys new_fringe_ids new_seen).

Definition insert_msg st m : State :=
  if bool_decide (is_Some (msg_map st !! id m)) then st
  else
    let new_msg_map := <[id m := m]> (msg_map st) in
    let replace :=
      match latest_msgs st !! sender m with
      | Some cur => sender_seq cur <? sender_seq m
      | None => true
      end in
    let new_latest_msgs :=
      if replace then <[sender m := m]> (latest_msgs st) else latest_msgs st in
    mkState new_latest_msgs new_msg_map.

Definition insert_msg_without_latest st m : State :=
  if bool_decide (is_Some (msg_map st !! id m)) then st
  else mkState (latest_msgs st) (<[id m := m]> (msg_map st)).

(** [latest_msgs.values().map(height).max()]. *)
Definition max_height st : option Z :=
  max_by_key ord_gtb (λ h, h) (height <$> map_values (latest_msgs st)).

Definition create_msg_and_update_sender (fuel : nat) st (creator : Sd)
    (gen_msg_id : Sd → Z → Mid) : option (Result (State * Msg) StorageError) :=
  match max_height st with
  | None => Some (Err EmptyLatestMessages)
  | Some mh =>
      let new_height := Refined.BlockHeight_add mh Refined.NonNegI64_one in
      let seq_num :=
        match latest_msgs st !! creator with
        | Some m => sender_seq m
        | None => Refined.SeqNum_zero
        end in
      let new_seq_num := Refined.SeqNum_add seq_num Refined.NonNegI64_one in
      let justifications : gset Msg := list_to_set (map_values (latest_msgs st)) in
      match head (map_values (latest_msgs st)) with
      | None => Some (Err EmptyLatestMessages)
      | Some first =>
          let msg_id := gen_msg_id creator new_height in
          new_msg ← create_message fuel st msg_id new_height creator new_seq_num
                      (bonds_map first) justifications;
          Some (Ok (insert_msg st new_msg, new_msg))
      end
  end.

Definition latest_fringe_of st : gset Msg :=
  latest_fringe (msg_map st) (list_to_set (map_values (latest_msgs st))).

(** ** Invariant *)

(** Messages are filed under their id, and the latest message of a sender
    is one of its messages in the map. *)
Record state_ok st : Prop := {
  ok_key : ∀ i m, msg_map st !! i = Some m → id m = i;
  ok_latest : ∀ s m, latest_msgs st !! s = Some m →
                sender m = s ∧ msg_map st !! id m = Some m;
}.

(** The operations on the state. *)
Inductive state_step : State → State → Prop :=
| step_insert st m : state_step st (insert_msg st m)
| step_insert_failed st m : state_step st (insert_msg_without_latest st m)
| step_create fuel st creator gen st' m :
    create_msg_and_update_sender fuel st creator gen = Some (Ok (st', m)) →
    state_step st st'.

(** [st'] extends [st]: no message is lost or replaced, and the latest
    message of every sender stays or gets a higher sequence number. *)
Definition extends st st' : Prop :=
  msg_map st ⊆ msg_map st' ∧
  ∀ s m, latest_msgs st !! s = Some m →
    ∃ m', latest_msgs st' !! s = Some m' ∧ (m' = m ∨ sender_seq m < sender_seq m').

#[global] Instance extends_preorder : PreOrder extends.
Proof.
  split.
  - intros st. split; [done|]. eauto.
  - intros st1 st2 st3 [Hm1 Hl1] [Hm2 Hl2]. split; [by etrans|].
    intros s m (m' & Hm' & Ho)%Hl1. destruct (Hl2 s m' Hm') as (m'' & ? & Ho').
    exists m''. split; [done|]. destruct Ho as [->|?], Ho' as [->|?]; eauto; right; lia.
Qed.

Lemma insert_msg_ok st m : state_ok st → state_ok (insert_msg st m).
Proof.
  intros [Hk Hl]. unfold insert_msg. case_bool_decide as Hin; [by split|].
  apply eq_None_not_Some in Hin. split; simpl.
  - intros i x. rewrite lookup_insert. case_decide; [by intros [= <-]|by apply Hk].
  - intros s x Hx.
    assert (x = m ∧ s = sender m ∨ latest_msgs st !! s = Some x) as [[-> ->]|Hx'].
    { destruct (match latest_msgs st !! sender m with Some _ => _ | None => _ end); [|by right].
      rewrite lookup_insert in Hx. case_decide; [left|by right]. naive_solver. }
    + by rewrite lookup_insert_eq.
    + destruct (Hl s x Hx') as [? Hmx]. split; [done|].
      rewrite lookup_insert_ne; [done|]. intros Heq. rewrite <- Heq in Hmx. congruence.
Qed.

Lemma insert_msg_without_latest_ok st m :
  state_ok st → state_ok (insert_msg_without_latest st m).
Proof.
  intros [Hk Hl]. unfold insert_msg_without_latest. case_bool_decide as Hin; [by split|].
  apply eq_None_not_Some in Hin. split; simpl.
  - intros i x. rewrite lookup_insert. case_decide; [by intros [= <-]|by apply Hk].
  - intros s x Hx. destruct (Hl s x Hx) as [? Hmx]. split; [done|].
    rewrite lookup_insert_ne; [done|]. intros Heq. rewrite <- Heq in Hmx. congruence.
Qed.

Lemma insert_msg_extends st m : extends st (insert_msg st m).
Proof.
  unfold insert_msg. case_bool_decide as Hin; [done|]. apply eq_None_not_Some in Hin.
  split; simpl; [by apply insert_subseteq|].
  intros s x Hx. destruct (latest_msgs st !! sender m) as [cur|] eqn:Hcur.
  - destruct (Z.ltb_spec (sender_seq cur) (sender_seq m)); [|eauto].
    rewrite lookup_insert. case_decide; [|eauto]. subst. rewrite Hcur in Hx.
    injection Hx as <-. eauto.
  - rewrite lookup_insert. case_decide; [congruence|eauto].
Qed.

Lemma insert_msg_without_latest_extends st m : extends st (insert_msg_without_latest st m).
Proof.
  unfold insert_msg_without_latest. case_bool_decide as Hin; [done|].
  apply eq_None_not_Some in Hin. split; simpl; [by apply insert_subseteq|eauto].
Qed.

Lemma create_is_insert fuel st creator gen st' m :
  create_msg_and_update_sender fuel st creator gen = Some (Ok (st', m)) →
  st' = insert_msg st m.
Proof.
  unfold create_msg_and_update_sender. destruct (max_height st); [|done].
  destruct (head _); [|done]. destruct (create_message _ _ _ _ _ _ _ _); simpl; [|done].
  by intros [= <- <-].
Qed.

Lemma state_step_ok st st' : state_step st st' → state_ok st → state_ok st' ∧ extends st st'.
Proof.
  intros [ | | fuel st0 creator gen st0' m Hc%create_is_insert] Hok; subst.
  - split; [by apply insert_msg_ok|apply insert_msg_extends].
  - split; [by apply insert_msg_without_latest_ok|apply insert_msg_without_latest_extends].
  - split; [by apply insert_msg_ok|apply insert_msg_extends].
Qed.

(** ** Order independence *)

(** Two messages that can both be in an honest DAG: an id determines the
    message, and so do a sender and a sequence number. *)
Definition compatible m m' : Prop :=
  (id m = id m' → m = m') ∧
  (sender m = sender m' → sender_seq m = sender_seq m' → m = m').

Lemma state_eq st st' :
  latest_msgs st = latest_msgs st' → msg_map st = msg_map st' → st = st'.
Proof. destruct st, st'. simpl. by intros -> ->. Qed.

Lemma insert_msg_map st m :
  msg_map (insert_msg st m) =
  if bool_decide (is_Some (msg_map st !! id m)) then msg_map st else <[id m := m]> (msg_map st).
Proof. unfold insert_msg. by case_bool_decide. Qed.

Lemma insert_msg_latest_ne st m s :
  s ≠ sender m → latest_msgs (insert_msg st m) !! s = latest_msgs st !! s.
Proof.
  intros Hs. unfold insert_msg. case_bool_decide; [done|]. simpl.
  destruct (match latest_msgs st !! sender m with Some _ => _ | None => _ end); [|done].
  by rewrite lookup_insert_ne.
Qed.

Lemma insert_msg_latest_eq st m :
  msg_map st !! id m = None →
  latest_msgs (insert_msg st m) !! sender m =
  match latest_msgs st !! sender m with
  | Some cur => if sender_seq cur <? sender_seq m then Some m else Some cur
  | None => Some m
  end.
Proof.
  intros Hm. unfold insert_msg. rewrite bool_decide_false; [|by rewrite Hm; intros []]. simpl.
  destruct (latest_msgs st !! sender m) as [cur|] eqn:Hcur; [|by rewrite lookup_insert_eq].
  destruct (sender_seq cur <? sender_seq m); [by rewrite lookup_insert_eq|done].
Qed.

Lemma insert_msg_known st m : is_Some (msg_map st !! id m) → insert_msg st m = st.
Proof. intros Hm. unfold insert_msg. by rewrite bool_decide_true. Qed.

Lemma insert_msg_commute st m m' :
  compatible m m' → insert_msg (insert_msg st m) m' = insert_msg (insert_msg st m') m.
Proof.
  intros [Hid Hseq].
  destruct (decide (id m = id m')) as [E|Hne]; [by rewrite (Hid E)|].
  destruct (msg_map st !! id m) eqn:Hm.
  { rewrite (insert_msg_known st m) by eauto. symmetry. apply insert_msg_known.
    rewrite insert_msg_map. case_bool_decide; [by eauto|].
    rewrite lookup_insert_ne by done. eauto. }
  destruct (msg_map st !! id m') eqn:Hm'.
  { rewrite (insert_msg_known st m') by eauto. apply insert_msg_known.
    rewrite insert_msg_map. case_bool_decide; [by eauto|].
    rewrite lookup_insert_ne by done. eauto. }
  assert (msg_map (insert_msg st m) !! id m' = None) as H1.
  { rewrite insert_msg_map. case_bool_decide; [done|]. by rewrite lookup_insert_ne. }
  assert (msg_map (insert_msg st m') !! id m = None) as H2.
  { rewrite insert_msg_map. case_bool_decide; [done|]. by rewrite lookup_insert_ne. }
  apply state_eq.
  - apply map_eq. intros s.
    destruct (decide (s = sender m)) as [Es|Ens], (decide (s = sender m')) as [Es'|Ens'].
    + assert (sender m = sender m') as Hs by congruence.
      assert (sender_seq m ≠ sender_seq m') as Hq by (intros Hq; apply Hne; f_equal; auto).
      rewrite Es' at 1. rewrite insert_msg_latest_eq by done.
      rewrite <- Hs, insert_msg_latest_eq by done. rewrite Es.
      rewrite insert_msg_latest_eq by done. rewrite Hs, insert_msg_latest_eq by done.
      destruct (latest_msgs st !! sender m') as [cur|]; simpl;
        repeat (case_match; simplify_eq; try lia); done.
    + rewrite insert_msg_latest_ne by done. rewrite Es, !insert_msg_latest_eq by done.
      by rewrite insert_msg_latest_ne by congruence.
    + rewrite (insert_msg_latest_ne (insert_msg st m')) by done.
      rewrite Es', !insert_msg_latest_eq by done.
      by rewrite insert_msg_latest_ne by congruence.
    + by rewrite !insert_msg_latest_ne.
  - rewrite (insert_msg_map (insert_msg st m)), H1, (insert_msg_map (insert_msg st m')), H2.
    rewrite !insert_msg_map, Hm, Hm'. simpl. by rewrite insert_insert_ne.
Qed.
End State.
End MessageState.
Import MessageState.

(** ** Properties *)
Section MessageStateTheorems.
Context {Mid Sd : Type} `{Countable Mid} `{Countable Sd}.
Context `{!Ord Mid, !OrdSpec Mid, !Ord Sd, !OrdSpec Sd}.
Notation Msg := (Message Mid Sd).
Notation State := (DagMessageState Mid Sd).
Implicit Types (st : State) (m : Msg).

(** Replicas converge.  Inserting the same messages in any two orders
    gives the same DAG state, both the message map and the latest messages,
    as long as the messages have no equivocation among them (an id, and a
    sender with a sequence number, determine the message). *)
Theorem insert_msgs_order_independent st (ms ms' : list Msg) :
  ms ≡ₚ ms' →
  (∀ m m', m ∈ ms → m' ∈ ms → compatible m m') →
  foldl insert_msg st ms = foldl insert_msg st ms'.
Proof.
  intros Hp. revert st. induction Hp as [|a l l' Hp IH|a b l|l1 l2 l3 Hp1 IH1 Hp2 IH2];
    intros st Hc; simpl.
  - done.
  - apply IH. intros; apply Hc; by right.
  - by rewrite insert_msg_commute by (apply Hc; [left|right; left]).
  - rewrite IH1 by done. apply IH2. intros m m' Hm Hm'. apply Hc; by rewrite Hp1.
Qed.

(** What a state that holds exactly the messages [ms] looks like. *)
Record records st (ms : list Msg) : Prop := {
  rec_map : ∀ i m, msg_map st !! i = Some m ↔ m ∈ ms ∧ id m = i;
  rec_latest : ∀ s m, latest_msgs st !! s = Some m →
    m ∈ ms ∧ sender m = s ∧ ∀ m', m' ∈ ms → sender m' = s → sender_seq m' ≤ sender_seq m;
  rec_none : ∀ s, latest_msgs st !! s = None → ∀ m, m ∈ ms → sender m ≠ s;
}.

Lemma records_known st ms x :
  records st ms → x ∈ ms → records st (ms ++ [x]).
Proof.
  intros [Hm Hl Hn] Hx.
  assert (∀ m, m ∈ ms ++ [x] ↔ m ∈ ms) as E.
  { intros m. rewrite elem_of_app, list_elem_of_singleton. naive_solver. }
  split; setoid_rewrite E; done.
Qed.

Lemma records_fresh st ms x :
  records st ms → msg_map st !! id x = None → records (insert_msg st x) (ms ++ [x]).
Proof.
  intros [Hm Hl Hn] Hx.
  split; setoid_rewrite elem_of_app; setoid_rewrite list_elem_of_singleton.
  - intros i m. rewrite insert_msg_map, bool_decide_false by (rewrite Hx; by intros []).
    rewrite lookup_insert. case_decide as Hi; [|rewrite Hm; naive_solver].
    subst i. split; [intros [= <-]; auto|]. intros [[Hin| ->] Hi]; [|done].
    assert (msg_map st !! id x = Some m) as Hm' by (apply Hm; auto). congruence.
  - intros s m. destruct (decide (s = sender x)) as [->|Hs].
    + rewrite insert_msg_latest_eq by done.
      destruct (latest_msgs st !! sender x) as [cur|] eqn:Hcur.
      * destruct (Hl _ cur Hcur) as (? & ? & Hmax).
        destruct (Z.ltb_spec (sender_seq cur) (sender_seq x)); intros [= <-];
          (split; [by auto|]; split; [done|]); intros m' [Hm'| ->] Hs';
          try specialize (Hmax m' Hm' Hs'); lia.
      * intros [= <-]. split; [by right|]. split; [done|].
        intros m' [Hm'| ->] Hs'; [by destruct (Hn _ Hcur m')|lia].
    + rewrite insert_msg_latest_ne by done. intros (? & ? & Hmax)%Hl.
      split; [by left|]. split; [done|].
      intros m' [Hm'| ->] Hs'; [by apply Hmax|congruence].
  - intros s. destruct (decide (s = sender x)) as [->|Hs].
    + rewrite insert_msg_latest_eq by done.
      destruct (latest_msgs st !! sender x); [destruct (_ <? _)|]; done.
    + rewrite insert_msg_latest_ne by done.
      intros Hnone m [Hm'| ->]; [by apply Hn|congruence].
Qed.

Lemma insert_msgs_records (ms : list Msg) :
  (∀ m m', m ∈ ms → m' ∈ ms → id m = id m' → m = m') →
  records (foldl insert_msg empty_state ms) ms.
Proof.
  induction ms as [|x ms IH] using rev_ind; intros Hc; simpl.
  { split; simpl.
    - intros i m. rewrite lookup_empty, elem_of_nil. naive_solver.
    - intros s m. by rewrite lookup_empty.
    - by intros s _ m ?%elem_of_nil. }
  rewrite foldl_app. simpl. set (st := foldl insert_msg empty_state ms) in *.
  assert (records st ms) as Hr.
  { apply IH. intros m m' ??. apply Hc; apply elem_of_app; by left. }
  destruct (msg_map st !! id x) as [y|] eqn:Hx; [|by apply records_fresh].
  rewrite insert_msg_known by eauto. apply records_known; [done|].
  apply (rec_map _ _ Hr) in Hx as [Hy Hid].
  replace x with y; [done|].
  apply Hc; [apply elem_of_app; by left|apply elem_of_app; right; by left|done].
Qed.

(** What insertion computes.  After inserting messages [ms] (ids
    determine messages) into the empty state, the map holds exactly [ms],
    and the latest message of a sender is a message of it with the highest
    sequence number among its messages; senders without a message have no
    latest message. *)
Theorem insert_msgs_latest (ms : list Msg) s :
  (∀ m m', m ∈ ms → m' ∈ ms → id m = id m' → m = m') →
  let st := foldl insert_msg empty_state ms in
  (∀ i m, msg_map st !! i = Some m ↔ m ∈ ms ∧ id m = i) ∧
  match latest_msgs st !! s with
  | Some m => m ∈ ms ∧ sender m = s ∧
              ∀ m', m' ∈ ms → sender m' = s → sender_seq m' ≤ sender_seq m
  | None => ∀ m, m ∈ ms → sender m ≠ s
  end.
Proof.
  intros [Hm Hl Hn]%insert_msgs_records. simpl. split; [done|].
  destruct (latest_msgs _ !! s) eqn:E; eauto.
Qed.

(** The DAG message state only grows (Law 15).  Along any sequence of
    insertions of valid and of failed blocks and of message creations, from
    a well-formed state: well-formedness is kept (messages are filed under
    their id, every latest message is a message of its sender in the map),
    no message is lost or replaced, and the latest message of a sender stays
    or moves to a higher sequence number. *)
Theorem message_state_monotone st st' :
  state_ok st → rtc state_step st st' → state_ok st' ∧ extends st st'.
Proof.
  intros Hok Hs. induction Hs as [st|st1 st2 st3 Hs Hr IH]; [done|].
  destruct (state_step_ok _ _ Hs Hok) as [Hok2 He]. destruct (IH Hok2) as [? He'].
  split; [done|]. by etrans.
Qed.

Lemma state_ok_empty : state_ok (empty_state : State).
Proof. split; simpl; intros ??; by rewrite lookup_empty. Qed.

Lemma max_height_spec st mh :
  max_height st = Some mh → ∀ s m, latest_msgs st !! s = Some m → height m ≤ mh.
Proof.
  intros Hm s m Hs. apply ord_le_Z.
  apply (max_by_ord (λ h : Z, h) _ _ _ Hm), list_elem_of_fmap_2, elem_of_map_values. eauto.
Qed.

Lemma max_height_None st : max_height st = None ↔ latest_msgs st = ∅.
Proof.
  unfold max_height. rewrite max_by_key_None, fmap_nil_iff, map_values_nil. done.
Qed.

Lemma create_message_inv fuel st i h s q bonds J m :
  create_message fuel st i h s q bonds J = Some m →
  ∃ pf nf, calculate_finalization (msg_map st) fuel J bonds = Some (pf, nf) ∧
    id m = i ∧ height m = h ∧ sender m = s ∧ sender_seq m = q ∧ bonds_map m = bonds ∧
    (∀ x, x ∈ parents m ↔ ∃ j, j ∈ J ∧ id j = x) ∧
    (∀ x, x ∈ fringe m ↔ ∃ j, j ∈ default pf nf ∧ id j = x) ∧
    (∀ x, x ∈ seen m ↔ x = i ∨ ∃ j, j ∈ J ∧ x ∈ seen j).
Proof.
  unfold create_message.
  destruct (calculate_finalization _ _ _ _) as [[pf nf]|]; simpl; [|done].
  intros [= <-]. simpl. exists pf, nf.
  split_and!; try done; intros x; rewrite ?elem_of_union, ?elem_of_singleton, elem_of_list_to_set.
  - rewrite list_elem_of_fmap. setoid_rewrite elem_of_set_iter. naive_solver.
  - rewrite list_elem_of_fmap. setoid_rewrite elem_of_set_iter. naive_solver.
  - rewrite list_elem_of_bind. repeat setoid_rewrite elem_of_set_iter. naive_solver.
Qed.

Lemma create_msg_inv fuel st creator gen st' m :
  create_msg_and_update_sender fuel st creator gen = Some (Ok (st', m)) →
  ∃ mh first,
    max_height st = Some mh ∧ head (map_values (latest_msgs st)) = Some first ∧
    st' = insert_msg st m ∧
    create_message fuel st (gen creator (Refined.BlockHeight_add mh 1))
      (Refined.BlockHeight_add mh 1) creator
      (Refined.SeqNum_add (from_option sender_seq 0 (latest_msgs st !! creator)) 1)
      (bonds_map first) (list_to_set (map_values (latest_msgs st))) = Some m.
Proof.
  intros Hc. rewrite (create_is_insert _ _ _ _ _ _ Hc). revert Hc.
  unfold create_msg_and_update_sender. destruct (max_height st) as [mh|]; [|done].
  destruct (head _) as [first|] eqn:Hf; [|done].
  replace (match latest_msgs st !! creator with Some m => _ | None => _ end)
    with (from_option sender_seq 0 (latest_msgs st !! creator)) by (by case_match).
  destruct (create_message _ _ _ _ _ _ _ _) as [m0|] eqn:Hm; simpl; [|done].
  intros [= _ <-]. exists mh, first. split_and!; [done|done|done|exact Hm].
Qed.

(** A created message justifies itself by everything its creator has
    seen.  It fails exactly when there are no latest messages; otherwise, as
    long as no height or sequence number is at the [i64] maximum, the new
    message has every latest message as a parent and sees everything they
    see, is strictly higher than all of them, continues its creator's
    sequence, and becomes the creator's latest message when its id is new. *)
Theorem create_msg_extends_view fuel st creator gen :
  (∀ s x, latest_msgs st !! s = Some x →
     Refined.non_neg (height x) ∧ height x < i64_max ∧
     Refined.non_neg (sender_seq x) ∧ sender_seq x < i64_max) →
  (create_msg_and_update_sender fuel st creator gen = Some (Err EmptyLatestMessages)
     ↔ latest_msgs st = ∅) ∧
  ∀ st' m, create_msg_and_update_sender fuel st creator gen = Some (Ok (st', m)) →
    id m = gen creator (height m) ∧ sender m = creator ∧
    sender_seq m = from_option sender_seq 0 (latest_msgs st !! creator) + 1 ∧
    (∀ s x, latest_msgs st !! s = Some x →
       height x < height m ∧ id x ∈ parents m ∧ seen x ⊆ seen m) ∧
    (msg_map st !! id m = None → latest_msgs st' !! creator = Some m).
Proof.
  intros Hb. split.
  - rewrite <- max_height_None. unfold create_msg_and_update_sender.
    destruct (max_height st) as [mh|] eqn:Hmh; [|done]. split; [|done].
    destruct (head _) as [first|] eqn:Hf; [by destruct (create_message _ _ _ _ _ _ _ _)|].
    apply head_None, map_values_nil, max_height_None in Hf. congruence.
  - intros st' m (mh & first & Hmh & _ & -> & Hm)%create_msg_inv.
    apply create_message_inv in Hm as (pf & nf & _ & Hi & Hh & Hs & Hq & _ & Hp & _ & Hseen).
    assert (∃ s x, latest_msgs st !! s = Some x ∧ height x = mh) as (s0 & x0 & Hx0 & Ehx0).
    { apply max_by_key_elem, list_elem_of_fmap in Hmh as (x & -> & [s ?]%elem_of_map_values).
      eauto. }
    assert (sender_seq m = from_option sender_seq 0 (latest_msgs st !! creator) + 1) as Hsq.
    { rewrite Hq. unfold Refined.SeqNum_add, i64_saturating_add.
      destruct (latest_msgs st !! creator) as [c|] eqn:Hc; simpl; [|done].
      destruct (Hb _ _ Hc) as (_ & _ & Hn & Hlt). unfold Refined.non_neg in Hn.
      unfold_ints. lia. }
    split_and!; [by rewrite Hi, Hh|done|done| |].
    + intros s x Hx. split_and!.
      * rewrite Hh. pose proof (max_height_spec _ _ Hmh _ _ Hx) as Hle.
        destruct (Hb _ _ Hx0) as (Hn & Hlt & _). unfold Refined.non_neg in Hn.
        unfold Refined.BlockHeight_add, i64_saturating_add. unfold_ints. lia.
      * apply Hp. exists x. split; [|done]. apply elem_of_list_to_set, elem_of_map_values. eauto.
      * intros y Hy. apply Hseen. right. exists x. split; [|done].
        apply elem_of_list_to_set, elem_of_map_values. eauto.
    + intros Hnew. rewrite <- Hs, insert_msg_latest_eq by done. rewrite Hs.
      destruct (latest_msgs st !! creator) as [c|]; [|done]. simpl in Hsq.
      destruct (Z.ltb_spec (sender_seq c) (sender_seq m)); [done|lia].
Qed.
End MessageStateTheorems.

(** ** Executable checks of the hypotheses *)
Definition compatible_b {Mid Sd} `{Countable Mid} `{Countable Sd} (m m' : Message Mid Sd) : bool :=
  bool_decide (m = m') ||
  (negb (bool_decide (id m = id m')) &&
   negb (bool_decide (sender m = sender m') && (sender_seq m =? sender_seq m'))).

Lemma compatible_b_ok {Mid Sd} `{Countable Mid} `{Countable Sd} (l : list (Message Mid Sd)) :
  forallb (λ m, forallb (compatible_b m) l) l = true →
  ∀ m m', m ∈ l → m' ∈ l → compatible m m'.
Proof.
  intros Hf m m' Hm Hm'. rewrite forallb_elem in Hf. specialize (Hf m Hm).
  rewrite forallb_elem in Hf. specialize (Hf m' Hm'). unfold compatible_b in Hf.
  repeat case_bool_decide; simpl in Hf; try done; split; try done.
  - destruct (Z.eqb_spec (sender_seq m) (sender_seq m')); naive_solver.
Qed.

Definition created {A E} (r : option (Result A E)) : bool :=
  match r with Some (Ok _) => true | _ => false end.

Lemma created_ok {A E} (r : option (Result A E)) : created r = true → ∃ a, r = Some (Ok a).
Proof. destruct r as [[a|]|]; naive_solver. Qed.

(** ** Concrete instance *)
Module MessageStateExample.
Import FinalizerExample.
Definition ms : list (Message Z Z) := layer1 ++ layer2 ++ layer3.
Definition st0 : DagMessageState Z Z := foldl insert_msg empty_state ms.
Definition failed : Message Z Z := mk 50 7 1 [30] [30; 50].
Definition gen (s h : Z) : Z := 100 + s.

Definition ms_compatible : ∀ m m', m ∈ ms → m' ∈ ms → compatible m m'.
Proof. apply compatible_b_ok. vm_compute. reflexivity. Defined.

(** Witness of [insert_msgs_order_independent]. *)
Lemma insert_msgs_order_independent_witness :
  foldl insert_msg empty_state ms = foldl insert_msg empty_state (reverse ms).
Proof.
  apply insert_msgs_order_independent; [by rewrite reverse_Permutation|apply ms_compatible].
Defined.

(** Witness of [insert_msgs_latest]. *)
Lemma insert_msgs_latest_witness :
  (∀ i m, msg_map st0 !! i = Some m ↔ m ∈ ms ∧ id m = i) ∧
  match latest_msgs st0 !! 1 with
  | Some m => m ∈ ms ∧ sender m = 1 ∧
              ∀ m', m' ∈ ms → sender m' = 1 → sender_seq m' ≤ sender_seq m
  | None => ∀ m, m ∈ ms → sender m ≠ 1
  end.
Proof.
  apply (insert_msgs_latest ms 1). intros m m' Hm Hm'. apply (ms_compatible m m' Hm Hm').
Defined.

Lemma st0_ok : state_ok st0.
Proof. unfold st0. apply foldl_inv; [apply state_ok_empty|]. intros st m _. apply insert_msg_ok. Qed.

(** Witness of [message_state_monotone]: a failed block, then a creation. *)
Lemma message_state_monotone_witness :
  ∃ st', rtc state_step st0 st' ∧ state_ok st' ∧ extends st0 st'.
Proof.
  assert (created (create_msg_and_update_sender 5 (insert_msg_without_latest st0 failed) 0 gen)
          = true) as Hc by (vm_compute; reflexivity).
  apply created_ok in Hc as [[st' m] Hc]. exists st'.
  assert (rtc state_step st0 st') as Hr.
  { eapply rtc_l; [apply (step_insert_failed st0 failed)|].
    eapply rtc_once, step_create, Hc. }
  split; [exact Hr|]. apply message_state_monotone; [apply st0_ok|exact Hr].
Defined.

Definition bounded (st : DagMessageState Z Z) : bool :=
  forallb (λ x, (0 <=? height x) && (height x <? i64_max) &&
                (0 <=? sender_seq x) && (sender_seq x <? i64_max))
    (map_values (latest_msgs st)).

Lemma bounded_ok st : bounded st = true → ∀ s x, latest_msgs st !! s = Some x →
  Refined.non_neg (height x) ∧ height x < i64_max ∧
  Refined.non_neg (sender_seq x) ∧ sender_seq x < i64_max.
Proof.
  unfold bounded. rewrite forallb_elem. intros Hf s x Hx.
  assert (x ∈ map_values (latest_msgs st)) as Hin by (apply elem_of_map_values; eauto).
  specialize (Hf x Hin). unfold Refined.non_neg. lia.
Qed.

(** Witness of [create_msg_extends_view]. *)
Lemma create_msg_extends_view_witness :
  ∃ st' m, create_msg_and_update_sender 5 st0 0 gen = Some (Ok (st', m)) ∧
    sender_seq m = from_option sender_seq 0 (latest_msgs st0 !! 0) + 1 ∧
    (∀ s x, latest_msgs st0 !! s = Some x →
       height x < height m ∧ id x ∈ parents m ∧ seen x ⊆ seen m).
Proof.
  assert (created (create_msg_and_update_sender 5 st0 0 gen) = true) as Hc
    by (vm_compute; reflexivity).
  apply created_ok in Hc as [[st' m] Hc]. exists st', m. split; [exact Hc|].
  assert (bounded st0 = true) as Hb by (vm_compute; reflexivity).
  destruct (create_msg_extends_view 5 st0 0 gen (bounded_ok st0 Hb)) as [_ Hspec].
  destruct (Hspec st' m Hc) as (_ & _ & Hq & Hx & _). split; [exact Hq|exact Hx].
Defined.
End MessageStateExample.
