(* ===== verification/ConflictResolution.v ===== *)
(** * Merge conflict resolution

    [sdk/src/dag/merging.rs]: which items (deploy chains) of a conflict set
    are accepted and which are rejected when branches of the DAG are merged
    (Law 17).  Relation maps are [gmap D (gset D)]; loops over sets and maps
    run in their ascending order ([set_iter], [map_iter]).  The two loops
    whose number of rounds is bounded by their input ([with_dependencies],
    [compute_rejection_options]) run with that bound, shown sufficient below;
    [traverse_tree] does not return on a cyclic map and takes a bound as an
    argument. *)

From S2P Require Import Prelude BTree.

Module ConflictResolution.
Section Ops.
Context {D : Type} `{Countable D} `{!Ord D, !OrdSpec D}.
Context {CH : Type} `{Countable CH} `{!Ord CH, !OrdSpec CH}.
Notation DMap := (gmap D (gset D)).

(** [acc.entry(k).or_default().extend(X)]. *)
Definition entry_extend (acc : DMap) (k : D) (X : gset D) : DMap :=
  <[k := default ∅ (acc !! k) ∪ X]> acc.

Definition union_maps (a b : DMap) : DMap :=
  foldl (λ a '(k, v), entry_extend a k v) a (map_iter b).

Definition deps_of (m : DMap) (d : D) : gset D := default ∅ (m !! d).

Definition with_dependencies_step (m : DMap) (s : gset D * gset D) :
    (gset D * gset D) + gset D :=
  let '(result, frontier) := s in
  let next : gset D := list_to_set (set_iter frontier ≫= λ d, set_iter (deps_of m d)) in
  let new := next ∖ result in
  if bool_decide (new = ∅) then inr result else inl (result ∪ new, new).

(** Every round but the last adds an item of [rel_values m]. *)
Definition rel_values (m : DMap) : gset D := ⋃ map_values m.

Definition with_dependencies (of_ : gset D) (dependency_map : DMap) : gset D :=
  run_loop ∅ (with_dependencies_step dependency_map)
    (S (size (rel_values dependency_map))) (of_, of_).

Definition incompatible_with_final (accepted_finally rejected_finally : gset D)
    (conflicts_map dependency_map : DMap) : gset D :=
  let out := foldl (λ out a,
    match conflicts_map !! a with Some v => out ∪ v | None => out end)
    ∅ (set_iter accepted_finally) in
  foldl (λ out r,
    match dependency_map !! r with Some v => out ∪ v | None => out end)
    out (set_iter rejected_finally).

(** The [while let Some(head) = remaining.first()] loop consumes the list. *)
Definition partition_scope_step (s : list (gset D) * list (gset D)) :
    (list (gset D) * list (gset D)) + list (gset D) :=
  let '(result, remaining) := s in
  match remaining with
  | [] => inr result
  | head :: rest => inl (result ++ [head], (λ v, v ∖ head) <$> rest)
  end.

Definition partition_scope (views : list (gset D)) : list (gset D) :=
  run_loop [] partition_scope_step (S (length views)) ([], views).

Definition relate (directed : bool) (relation : D → D → bool) (target : D)
    (acc : DMap) (source : D) : DMap :=
  if relation target source && negb (bool_decide (target = source)) then
    let acc := entry_extend acc source {[target]} in
    if negb directed then entry_extend acc target {[source]} else acc
  else acc.

Definition compute_relation_map (directed : bool) (target_set source_set : gset D)
    (relation : D → D → bool) : DMap :=
  foldl (λ acc target, foldl (relate directed relation target) acc (set_iter source_set))
    ∅ (set_iter target_set).

Definition compute_conflicts_map := compute_relation_map false.
Definition compute_dependency_map := compute_relation_map true.

Definition fold_branch (acc : DMap) (entry : D * gset D) : DMap :=
  let '(root, depending) := entry in
  let root_dependencies := (filter (λ e, root ∈ e.2) (map_iter acc)).*1 in
  match root_dependencies with
  | [] => acc
  | _ =>
      let merged := depending ∪ {[root]} in
      foldl (λ acc k, entry_extend acc k merged) (delete root acc) root_dependencies
  end.

Definition compute_branches (target : gset D) (dependency_map : DMap) : DMap :=
  let acc := foldl fold_branch dependency_map (map_iter dependency_map) in
  let all : gset D :=
    foldl (λ all '(k, v), all ∪ {[k]} ∪ v) ∅ (map_iter dependency_map) in
  foldl (λ acc t, match acc !! t with Some _ => acc | None => <[t := ∅]> acc end)
    acc (set_iter (target ∖ all)).

(** Descending size, then ascending key. *)
Definition branch_le (a b : D * gset D) : Prop :=
  ord_le (- Z.of_nat (size a.2), a.1) (- Z.of_nat (size b.2), b.1).
#[global] Instance branch_le_dec a b : Decision (branch_le a b).
Proof. unfold branch_le. apply _. Defined.

Definition compute_greedy_non_intersecting_branches (target : gset D)
    (dependency_map : DMap) : list (gset D) :=
  let concurrent_roots := compute_branches target dependency_map in
  let sorted := merge_sort branch_le (map_iter concurrent_roots) in
  let views := (λ '(k, v), v ∪ {[k]}) <$> sorted in
  partition_scope views.

Definition compute_relation_map_for_merge_set (conflict_set final_set : gset D)
    (conflicts depends : D → D → bool) : DMap * DMap :=
  let conflicts_map := union_maps
    (compute_conflicts_map conflict_set final_set conflicts)
    (compute_conflicts_map conflict_set conflict_set conflicts) in
  let dependency_map := union_maps
    (compute_dependency_map conflict_set final_set depends)
    (compute_dependency_map conflict_set conflict_set depends) in
  (conflicts_map, dependency_map).

(** A state of the search: the item accepted next, the items rejected and
    the items accepted before it. *)
Definition search_item : Type := D * gset D * gset D.

Definition next_rejected (conflicts_map : DMap) (it : search_item) : gset D :=
  let '(a, rj_acc, _) := it in
  match conflicts_map !! a with Some c => rj_acc ∪ c | None => rj_acc end.
Definition next_accepted (it : search_item) : gset D :=
  let '(a, _, ac_acc) := it in ac_acc ∪ {[a]}.
Definition next_keys (conflicts_map : DMap) (it : search_item) : list D :=
  filter (λ k, k ∉ next_rejected conflicts_map it ∧ k ∉ next_accepted it)
    (map_keys conflicts_map).

Definition rejection_step (conflicts_map : DMap)
    (s : list search_item * gset (gset D)) :
    (list search_item * gset (gset D)) + gset (gset D) :=
  let '(queue, result) := s in
  match queue with
  | [] => inr result
  | it :: queue =>
      let new_rj := next_rejected conflicts_map it in
      let new_ac := next_accepted it in
      match next_keys conflicts_map it with
      | [] => inl (queue, result ∪ {[new_rj]})
      | next => inl (queue ++ ((λ n, (n, new_rj, new_ac)) <$> next), result)
      end
  end.

(** Size of the search below an item with [r] keys left to accept. *)
Fixpoint search_size (r : nat) : nat :=
  match r with
  | O => 1
  | S r' => S (S r' * search_size r')
  end.

Definition compute_rejection_options (conflicts_map : DMap) : gset (gset D) :=
  let all_keys := map_keys conflicts_map in
  let queue : list search_item := (λ k, (k, ∅, {[k]})) <$> all_keys in
  run_loop ∅ (rejection_step conflicts_map)
    (S (length all_keys * search_size (length all_keys - 1))) (queue, ∅).

(** [i64] sums wrap. *)
Definition total_cost (target_f : D → Z) (X : gset D) : Z :=
  foldl (λ acc d, i64_wrap (acc + target_f d)) 0 (set_iter X).

Definition rejection_key (target_f : D → Z) (X : gset D) : Z * nat * list D :=
  (total_cost target_f X, size X, set_iter X).

Definition compute_optimal_rejection (options : gset (gset D)) (target_f : D → Z) : gset D :=
  default ∅ (min_by_key ord_gtb (rejection_key target_f) (set_iter options)).

Definition apply_change (acc : gmap CH Z) (c : CH * Z) : option (gmap CH Z) :=
  let '(channel, change) := c in
  let current := default 0 (acc !! channel) in
  result ← i64_checked_add current change;
  if result <? 0 then None else Some (<[channel := result]> acc).

Definition calc_merged_result (deploy : D) (balances : gmap CH Z)
    (mergeable_diffs : gmap D (gmap CH Z)) : option (gmap CH Z) :=
  let diff := default ∅ (mergeable_diffs !! deploy) in
  fold_opt apply_change balances (map_iter diff).

Definition traverse_step (next : D → gset D) (s : list D * list D) :
    (list D * list D) + list D :=
  let '(result, frontier) := s in
  match frontier with
  | [] => inr result
  | _ =>
      let frontier := merge_sort ord_le frontier in
      let next_frontier : gset D :=
        list_to_set (frontier ≫= λ d, set_iter (next d)) in
      inl (result ++ frontier, set_iter next_frontier)
  end.

Definition traverse_tree (fuel : nat) (root : D) (next : D → gset D) : option (list D) :=
  loop (traverse_step next) fuel ([], [root]).

Definition fold_deploy (dependency_map : DMap) (mergeable_diffs : gmap D (gmap CH Z))
    (s : gmap CH Z * gset D) (deploy : D) : gmap CH Z * gset D :=
  let '(balances, rejected) := s in
  if bool_decide (deploy ∈ rejected) then s
  else
    match calc_merged_result deploy balances mergeable_diffs with
    | Some new_balances => (new_balances, rejected)
    | None =>
        let deps := with_dependencies {[deploy]} dependency_map in
        (balances, rejected ∪ {[deploy]} ∪ deps)
    end.

Definition fold_root (fuel : nat) (dependency_map : DMap)
    (mergeable_diffs : gmap D (gmap CH Z)) (s : gmap CH Z * gset D) (root : D) :
    option (gmap CH Z * gset D) :=
  branch ← traverse_tree fuel root (deps_of dependency_map);
  Some (foldl (fold_deploy dependency_map mergeable_diffs) s branch).

Definition fold_rejection (fuel : nat) (base_balance : gmap CH Z) (to_merge : gset D)
    (dependency_map : DMap) (mergeable_diffs : gmap D (gmap CH Z)) : option (gset D) :=
  let branches := compute_branches to_merge dependency_map in
  let concurrent_roots := merge_sort ord_le (map_keys branches) in
  '(_, rejected) ← fold_opt (fold_root fuel dependency_map mergeable_diffs)
                     (base_balance, ∅) concurrent_roots;
  Some rejected.

Definition add_mergeable_overflow_rejections (fuel : nat) (conflict_set : gset D)
    (dependency_map : DMap) (reject_options : gset (gset D))
    (init_mergeable_values : gmap CH Z) (mergeable_diffs : gmap D (gmap CH Z)) :
    option (gset (gset D)) :=
  if bool_decide (reject_options = ∅) then
    r ← fold_rejection fuel init_mergeable_values conflict_set dependency_map mergeable_diffs;
    Some {[r]}
  else
    fold_opt (λ acc rj,
      fr ← fold_rejection fuel init_mergeable_values (conflict_set ∖ rj)
             dependency_map mergeable_diffs;
      Some (acc ∪ {[rj ∪ fr]})) ∅ (set_iter reject_options).

Definition full_conflicts (conflicts_map dependency_map : DMap) : DMap :=
  list_to_map ((λ '(k, vs), (k, vs ∪ with_dependencies vs dependency_map)) <$>
    map_iter conflicts_map).

Definition resolve_conflict_set (fuel : nat)
    (conflict_set accepted_finally rejected_finally : gset D) (cost : D → Z)
    (conflicts_map dependency_map : DMap) (mergeable_diffs : gmap D (gmap CH Z))
    (init_mergeable_values : gmap CH Z) : option (gset D * gset D) :=
  let enforce_rejected := with_dependencies
    (incompatible_with_final accepted_finally rejected_finally conflicts_map dependency_map)
    dependency_map in
  let conflict_set_compatible := conflict_set ∖ enforce_rejected in
  let full_conflicts_map := full_conflicts conflicts_map dependency_map in
  let rejection_options := compute_rejection_options full_conflicts_map in
  mergeable_overflow_rejection_options ←
    add_mergeable_overflow_rejections fuel conflict_set dependency_map rejection_options
      init_mergeable_values mergeable_diffs;
  let resolved := compute_optimal_rejection mergeable_overflow_rejection_options cost in
  Some (conflict_set_compatible ∖ resolved, resolved ∪ enforce_rejected).
End Ops.
End ConflictResolution.
Import ConflictResolution.

(** ** Dependency closure *)
Section Dependencies.
Context {D : Type} `{Countable D} `{!Ord D, !OrdSpec D}.
Notation DMap := (gmap D (gset D)).
Implicit Types (m : DMap) (X Y result frontier : gset D) (x y : D).

(** [y] is related to [x]: in a dependency map, [y] depends on [x]. *)
Definition edge m x y : Prop := y ∈ deps_of m x.
(** [y] depends on [x], directly or not, or is [x]. *)
Definition reaches m : D → D → Prop := rtc (edge m).
Definition closed m X : Prop := ∀ x y, x ∈ X → edge m x y → y ∈ X.

Lemma edge_lookup m x y : edge m x y ↔ ∃ V, m !! x = Some V ∧ y ∈ V.
Proof. unfold edge, deps_of. destruct (m !! x); simpl; set_solver. Qed.

Lemma edge_rel_values m x y : edge m x y → y ∈ rel_values m.
Proof.
  intros (V & HV & Hy)%edge_lookup. unfold rel_values. apply elem_of_union_list.
  exists V. split; [apply elem_of_map_values; eauto|done].
Qed.

Lemma closed_reaches m X x y : closed m X → x ∈ X → reaches m x y → y ∈ X.
Proof. intros Hc Hx Hr. induction Hr as [|x y z Hxy _ IH]; [done|]. eapply IH, Hc; eauto. Qed.

Lemma closed_union m X Y : closed m X → closed m Y → closed m (X ∪ Y).
Proof. intros HX HY x y Hx Hxy. set_solver. Qed.

Lemma closed_empty m : closed m ∅.
Proof. intros x y. set_solver. Qed.

Lemma elem_of_next m frontier y :
  y ∈ (list_to_set (set_iter frontier ≫= λ d, set_iter (deps_of m d)) : gset D)
  ↔ ∃ x, x ∈ frontier ∧ edge m x y.
Proof.
  rewrite elem_of_list_to_set, list_elem_of_bind.
  repeat setoid_rewrite elem_of_set_iter. unfold edge. naive_solver.
Qed.

(** Invariant of the loop of [with_dependencies]. *)
Record deps_inv m X (s : gset D * gset D) : Prop := {
  di_start : X ⊆ s.1;
  di_frontier : s.2 ⊆ s.1;
  di_sound : ∀ y, y ∈ s.1 → ∃ x, x ∈ X ∧ reaches m x y;
  di_done : ∀ x y, x ∈ s.1 → x ∉ s.2 → edge m x y → y ∈ s.1;
}.

Lemma deps_inv_step m X s s' :
  deps_inv m X s → with_dependencies_step m s = inl s' →
  deps_inv m X s' ∧
  (size (rel_values m ∖ s'.1) < size (rel_values m ∖ s.1))%nat.
Proof.
  destruct s as [result frontier]. intros [Hst Hfr Hs Hd]. simpl in *.
  case_bool_decide as Hnew; [done|]. intros [= <-]. simpl.
  set (next := list_to_set _) in *. split.
  - split; simpl.
    + set_solver.
    + set_solver.
    + intros y [Hy|[Hy _]%elem_of_difference]%elem_of_union; [auto|].
      apply elem_of_next in Hy as (x & Hx & Hxy). destruct (Hs x) as (x0 & ? & ?); [set_solver|].
      exists x0. split; [done|]. eapply rtc_r; eauto.
    + intros x y Hx Hn Hxy. destruct (decide (x ∈ frontier)) as [Hf|Hf].
      * assert (y ∈ next) by (apply elem_of_next; eauto).
        destruct (decide (y ∈ result)); set_solver.
      * apply elem_of_union in Hx as [Hx|Hx]; [|set_solver]. set_solver.
  - apply set_choose_L in Hnew as [y Hy]. apply subset_size. split.
    + set_solver.
    + intros Hsub. apply elem_of_difference in Hy as [Hy Hny].
      assert (y ∈ rel_values m) by
        (apply elem_of_next in Hy as (x & _ & ?%edge_rel_values); done).
      set_solver.
Qed.

Lemma with_dependencies_inv m X :
  X ⊆ with_dependencies X m ∧ closed m (with_dependencies X m) ∧
  ∀ y, y ∈ with_dependencies X m → ∃ x, x ∈ X ∧ reaches m x y.
Proof.
  unfold with_dependencies.
  apply (run_loop_inv _ _ _ _ (deps_inv m X)
    (λ r, X ⊆ r ∧ closed m r ∧ ∀ y, y ∈ r → ∃ x, x ∈ X ∧ reaches m x y)
    (λ s, size (rel_values m ∖ s.1))).
  - intros s s'. apply deps_inv_step.
  - intros [result frontier] r [Hst Hfr Hs Hd] Hr. simpl in *.
    case_bool_decide as Hnew; [|done]. injection Hr as <-. split_and!; [done| |done].
    intros x y Hx Hxy. destruct (decide (x ∈ frontier)) as [Hf|Hf]; [|eauto].
    assert (y ∈ (list_to_set (set_iter frontier ≫= λ d, set_iter (deps_of m d)) : gset D))
      by (apply elem_of_next; eauto).
    destruct (decide (y ∈ result)); [done|set_solver].
  - split; simpl; [done|done| |].
    + intros y Hy. exists y. split; [done|apply rtc_refl].
    + intros x y ??. by destruct (decide (x ∈ X)).
  - simpl. apply le_n_S, subseteq_size. set_solver.
Qed.

Lemma with_dependencies_closed m X : closed m (with_dependencies X m).
Proof. apply with_dependencies_inv. Qed.

Lemma with_dependencies_supset m X : X ⊆ with_dependencies X m.
Proof. apply with_dependencies_inv. Qed.

(** [with_dependencies] is the set of items reachable from the given ones
    along the dependency map, the given ones included; the loop always ends,
    on cyclic maps too. *)
Theorem with_dependencies_reachable X m y :
  y ∈ with_dependencies X m ↔ ∃ x, x ∈ X ∧ reaches m x y.
Proof.
  destruct (with_dependencies_inv m X) as (Hs & Hc & Hr). split; [apply Hr|].
  intros (x & Hx & Hxy). eapply closed_reaches; eauto.
Qed.

Lemma incompatible_with_final_elem acc rej cm dm y :
  y ∈ incompatible_with_final acc rej cm dm ↔
  (∃ a, a ∈ acc ∧ edge cm a y) ∨ (∃ r, r ∈ rej ∧ edge dm r y).
Proof.
  assert (∀ m l out, y ∈ foldl (λ out a, match m !! a with Some v => out ∪ v | None => out end)
    out l ↔ y ∈ out ∨ ∃ a, a ∈ l ∧ edge m a y) as Hf.
  { intros m. apply (foldl_accum (λ out, y ∈ out)). intros out a. rewrite edge_lookup.
    destruct (m !! a); set_solver. }
  unfold incompatible_with_final. rewrite !Hf. setoid_rewrite elem_of_set_iter. set_solver.
Qed.
End Dependencies.

(** ** Partitions and relation maps *)
Section Relations.
Context {D : Type} `{Countable D} `{!Ord D, !OrdSpec D}.
Notation DMap := (gmap D (gset D)).
Implicit Types (m acc : DMap) (X Y : gset D) (x y s t : D).

(** Reference definition of [partition_scope]. *)
Fixpoint partition_from (seen : gset D) (views : list (gset D)) : list (gset D) :=
  match views with
  | [] => []
  | v :: views' => v ∖ seen :: partition_from (seen ∪ v) views'
  end.

Lemma fmap_difference_union (views : list (gset D)) X Y :
  (λ v, v ∖ Y) <$> ((λ v, v ∖ X) <$> views) = (λ v, v ∖ (X ∪ Y)) <$> views.
Proof. rewrite <- list_fmap_compose. apply list_fmap_ext. intros ? v _. simpl. set_solver. Qed.

Lemma partition_loop views result seen fuel :
  (length views < fuel)%nat →
  loop partition_scope_step fuel (result, (λ v, v ∖ seen) <$> views)
  = Some (result ++ partition_from seen views).
Proof.
  revert result seen fuel. induction views as [|v views IH]; intros result seen [|fuel];
    simpl; [lia| |lia|].
  - intros _. by rewrite app_nil_r.
  - intros Hf. rewrite fmap_difference_union.
    replace (seen ∪ v ∖ seen) with (seen ∪ v) by
      (apply leibniz_equiv; intros x; destruct (decide (x ∈ seen)); set_solver).
    rewrite IH by lia. by rewrite <- app_assoc.
Qed.

Lemma partition_scope_from views : partition_scope views = partition_from ∅ views.
Proof.
  unfold partition_scope, run_loop.
  assert (views = (λ v, v ∖ ∅) <$> views) as E.
  { rewrite <- (list_fmap_id views) at 1. apply list_fmap_ext. intros ? v _. set_solver. }
  rewrite E at 2. rewrite partition_loop by (simpl; lia). done.
Qed.

Lemma partition_from_spec views seen :
  ⋃ partition_from seen views = (⋃ views) ∖ seen ∧
  (∀ p, p ∈ partition_from seen views → p ## seen) ∧
  ∀ i j p q, partition_from seen views !! i = Some p →
    partition_from seen views !! j = Some q → i ≠ j → p ## q.
Proof.
  revert seen. induction views as [|v views IH]; intros seen; simpl.
  { split_and!; [set_solver|by intros p ?%elem_of_nil|done]. }
  destruct (IH (seen ∪ v)) as (Hu & Hs & Hd). split_and!.
  - rewrite Hu. apply leibniz_equiv. intros x. destruct (decide (x ∈ v)); set_solver.
  - intros p [->|Hp]%elem_of_cons; [set_solver|]. specialize (Hs p Hp). set_solver.
  - intros [|i] [|j] p q Hi Hj Hne; simpl in *; [done| | |].
    + injection Hi as <-. apply list_elem_of_lookup_2, Hs in Hj. set_solver.
    + injection Hj as <-. apply list_elem_of_lookup_2, Hs in Hi. set_solver.
    + eapply Hd; eauto.
Qed.

(** [partition_scope] gives pairwise disjoint sets that cover exactly the
    items of the views, one set per view and each within its view. *)
Theorem partition_scope_partitions (views : list (gset D)) :
  length (partition_scope views) = length views ∧
  ⋃ partition_scope views = ⋃ views ∧
  (∀ i j p q, partition_scope views !! i = Some p → partition_scope views !! j = Some q →
     i ≠ j → p ## q) ∧
  (∀ i p v, partition_scope views !! i = Some p → views !! i = Some v → p ⊆ v).
Proof.
  rewrite partition_scope_from. destruct (partition_from_spec views ∅) as (Hu & _ & Hd).
  split_and!; [|by rewrite Hu, difference_empty_L|done|]; clear Hu Hd; generalize (∅ : gset D).
  - induction views as [|v views IH]; intros seen; simpl; [done|]. by rewrite IH.
  - induction views as [|w views IH]; intros seen [|i] p v; simpl; try done.
    + intros [= <-] [= <-]. set_solver.
    + apply IH.
Qed.

Lemma edge_extend acc k X x y :
  edge (entry_extend acc k X) x y ↔ edge acc x y ∨ (x = k ∧ y ∈ X).
Proof.
  unfold edge, deps_of, entry_extend. rewrite lookup_insert. case_decide as Hk; simpl.
  - subst. set_solver.
  - set_solver.
Qed.

Lemma edge_empty x y : ¬ edge ∅ x y.
Proof. unfold edge, deps_of. rewrite lookup_empty. set_solver. Qed.

Lemma edge_union_maps a b x y : edge (union_maps a b) x y ↔ edge a x y ∨ edge b x y.
Proof.
  unfold union_maps.
  rewrite (foldl_accum (λ a, edge a x y) (λ e : D * gset D, x = e.1 ∧ y ∈ e.2)).
  - rewrite (edge_lookup b). setoid_rewrite <- elem_of_map_iter. split.
    + intros [?|([k v] & ? & -> & ?)]; eauto.
    + intros [?|(V & ? & ?)]; [by left|]. right. by exists (x, V).
  - intros a' [k v]. apply edge_extend.
Qed.

(** The edge [x -> y] is what the double loop records for [t] and [s]. *)
Definition pair_edge (directed : bool) (rel : D → D → bool) x y t s : Prop :=
  rel t s = true ∧ t ≠ s ∧ (x = s ∧ y = t ∨ directed = false ∧ x = t ∧ y = s).

Lemma edge_relate directed rel t acc s x y :
  edge (relate directed rel t acc s) x y ↔ edge acc x y ∨ pair_edge directed rel x y t s.
Proof.
  unfold relate, pair_edge. destruct (rel t s); simpl; [|naive_solver].
  case_bool_decide; simpl; [naive_solver|].
  destruct directed; simpl; rewrite !edge_extend, elem_of_singleton; [naive_solver|].
  rewrite elem_of_singleton. naive_solver.
Qed.

Lemma edge_relation_map directed X Y rel x y :
  edge (compute_relation_map directed X Y rel) x y ↔
  x ≠ y ∧ ((y ∈ X ∧ x ∈ Y ∧ rel y x = true) ∨
           (directed = false ∧ x ∈ X ∧ y ∈ Y ∧ rel x y = true)).
Proof.
  unfold compute_relation_map.
  rewrite (foldl_accum (λ a, edge a x y)
    (λ t, ∃ s, s ∈ set_iter Y ∧ pair_edge directed rel x y t s)).
  - repeat setoid_rewrite elem_of_set_iter. unfold pair_edge. split.
    + intros [[]%edge_empty|(t & ? & s & ? & ? & ? & [[-> ->]|(? & -> & ->)])]; auto 10.
    + intros (Hne & [(?&?&?)|(?&?&?&?)]); right; [exists y|exists x]; (split; [done|]);
        [exists x|exists y]; auto 10.
  - intros acc t. apply (foldl_accum (λ a, edge a x y)). intros. apply edge_relate.
Qed.

Lemma merge_set_edges X F (conflicts depends : D → D → bool) cm dm :
  compute_relation_map_for_merge_set X F conflicts depends = (cm, dm) →
  (∀ x y, edge cm x y ↔ x ≠ y ∧
     ((y ∈ X ∧ x ∈ X ∪ F ∧ conflicts y x = true) ∨
      (x ∈ X ∧ y ∈ X ∪ F ∧ conflicts x y = true))) ∧
  (∀ x y, edge cm x y ↔ edge cm y x) ∧
  (∀ x y, edge dm x y ↔ x ≠ y ∧ y ∈ X ∧ x ∈ X ∪ F ∧ depends y x = true).
Proof.
  intros [= <- <-].
  assert (∀ x y, edge (union_maps (compute_conflicts_map X F conflicts)
    (compute_conflicts_map X X conflicts)) x y ↔ x ≠ y ∧
     ((y ∈ X ∧ x ∈ X ∪ F ∧ conflicts y x = true) ∨
      (x ∈ X ∧ y ∈ X ∪ F ∧ conflicts x y = true))) as Hc.
  { intros x y. unfold compute_conflicts_map.
    rewrite edge_union_maps, !edge_relation_map, !elem_of_union. naive_solver. }
  split_and!; [done| |].
  - intros x y. rewrite !Hc. naive_solver.
  - intros x y. unfold compute_dependency_map.
    rewrite edge_union_maps, !edge_relation_map, elem_of_union. split.
    + intros [(?&[(?&?&?)|[? _]])|(?&[(?&?&?)|[? _]])]; auto; done.
    + intros (?&?&[?|?]&?); auto 10.
Qed.

(** The relation maps of a merge set are exactly the relations they are
    computed from: [y] is in the conflicts of [x] iff they differ, one of
    them is in the conflict set and the other in the conflict or the final
    set, and they conflict in one of the two orders (so the map is symmetric
    and irreflexive); [y] is in the dependents of [x] iff [y] is another item
    of the conflict set that depends on [x], an item of either set. *)
Theorem relation_map_for_merge_set_spec X F (conflicts depends : D → D → bool) :
  let '(cm, dm) := compute_relation_map_for_merge_set X F conflicts depends in
  (∀ x y, edge cm x y ↔ x ≠ y ∧
     ((y ∈ X ∧ x ∈ X ∪ F ∧ conflicts y x = true) ∨
      (x ∈ X ∧ y ∈ X ∪ F ∧ conflicts x y = true))) ∧
  (∀ x y, edge cm x y ↔ edge cm y x) ∧
  (∀ x y, edge dm x y ↔ x ≠ y ∧ y ∈ X ∧ x ∈ X ∪ F ∧ depends y x = true).
Proof.
  destruct (compute_relation_map_for_merge_set X F conflicts depends) as [cm dm] eqn:E.
  by apply merge_set_edges.
Qed.
End Relations.

(** ** Rejection options *)
Section RejectionOptions.
Context {D : Type} `{Countable D} `{!Ord D, !OrdSpec D}.
Notation DMap := (gmap D (gset D)).
Notation item := (search_item (D := D)).
Implicit Types (m : DMap) (A R X : gset D) (it : item) (k n x y : D).

Definition next_item m it n : item := (n, next_rejected m it, next_accepted it).

(** The options the search finds below an item. *)
Inductive yields m : item → gset D → Prop :=
| yields_done it : next_keys m it = [] → yields m it (next_rejected m it)
| yields_next it n R :
    n ∈ next_keys m it → yields m (next_item m it n) R → yields m it R.

Lemma elem_of_next_keys m it k :
  k ∈ next_keys m it ↔ k ∈ dom m ∧ k ∉ next_rejected m it ∧ k ∉ next_accepted it.
Proof.
  unfold next_keys. rewrite list_elem_of_filter, elem_of_map_keys, elem_of_dom. naive_solver.
Qed.

Lemma next_rejected_next_item m it n :
  next_rejected m (next_item m it n) = next_rejected m it ∪ deps_of m n.
Proof. unfold next_item, deps_of. simpl. destruct (m !! n); simpl; set_solver. Qed.

Definition remaining m it : nat := size (dom m ∖ next_accepted it).

Lemma remaining_next m it n :
  n ∈ next_keys m it → remaining m it = S (remaining m (next_item m it n)).
Proof.
  intros (Hd & _ & Ha)%elem_of_next_keys. unfold remaining.
  replace (dom m ∖ next_accepted it)
    with ({[n]} ∪ dom m ∖ next_accepted (next_item m it n)).
  - rewrite size_union by (simpl; set_solver). by rewrite size_singleton.
  - simpl. apply leibniz_equiv. intros x. destruct (decide (x = n)); set_solver.
Qed.

Lemma length_next_keys m it : (length (next_keys m it) ≤ remaining m it)%nat.
Proof.
  unfold remaining. rewrite <- (size_list_to_set (C := gset D)).
  - apply subseteq_size. intros k. rewrite elem_of_list_to_set, elem_of_next_keys. set_solver.
  - unfold next_keys. apply NoDup_filter. unfold map_keys. apply NoDup_map_iter_keys.
Qed.

Definition queue_size m (q : list item) : nat :=
  sum_list_with (λ it, search_size (remaining m it)) q.

Lemma queue_size_const m (q : list item) r :
  (∀ it, it ∈ q → remaining m it = r) → queue_size m q = (length q * search_size r)%nat.
Proof.
  unfold queue_size. induction q as [|it q IH]; intros Hq; simpl; [done|].
  rewrite (Hq it) by left. rewrite IH; [done|]. intros; apply Hq; by right.
Qed.

Lemma queue_size_app m q q' : queue_size m (q ++ q') = (queue_size m q + queue_size m q')%nat.
Proof. apply sum_list_with_app. Qed.

Lemma search_size_pos r : (1 ≤ search_size r)%nat.
Proof. destruct r; simpl; lia. Qed.

(** Every round takes an item and adds smaller ones. *)
Lemma queue_size_step m s s' :
  rejection_step m s = inl s' → (queue_size m s'.1 < queue_size m s.1)%nat.
Proof.
  destruct s as [[|it q] res]; unfold rejection_step; [done|].
  pose proof (search_size_pos (remaining m it)) as Hpos.
  assert (queue_size m (it :: q) = search_size (remaining m it) + queue_size m q)%nat as Hq
    by done.
  destruct (next_keys m it) as [|n l] eqn:Hk; intros Hs%(inj inl); rewrite <- Hs;
    cbn [fst]; rewrite Hq; [lia|].
  pose proof (length_next_keys m it) as Hlen. rewrite Hk in Hlen.
  assert (n ∈ next_keys m it) as Hn by (rewrite Hk; left). apply remaining_next in Hn.
  rewrite queue_size_app.
  rewrite (queue_size_const m ((λ n0, next_item m it n0) <$> n :: l)
    (remaining m (next_item m it n))).
  - rewrite length_fmap, Hn in *. cbn [search_size]. nia.
  - intros it' (n' & -> & Hn')%list_elem_of_fmap. rewrite <- Hk in Hn'.
    apply remaining_next in Hn'. lia.
Qed.

Lemma rejection_step_yields m s s' R :
  rejection_step m s = inl s' →
  (R ∈ s'.2 ∨ ∃ it, it ∈ s'.1 ∧ yields m it R) ↔ (R ∈ s.2 ∨ ∃ it, it ∈ s.1 ∧ yields m it R).
Proof.
  destruct s as [[|it q] res]; unfold rejection_step; [done|].
  destruct (next_keys m it) as [|n l] eqn:Hk; intros Hs%(inj inl); rewrite <- Hs;
    cbn [fst snd]; setoid_rewrite elem_of_cons.
  - rewrite elem_of_union, elem_of_singleton. split.
    + intros [[?| ->]|(? & ? & ?)]; eauto. right. eexists. split; [by left|]. by constructor.
    + intros [?|(it' & [->|?] & Hy)]; eauto. inversion Hy; subst; [by eauto|].
      rewrite Hk in *. by set_solver.
  - setoid_rewrite elem_of_app. rewrite <- Hk. split.
    + intros [?|(it' & [?|(n' & -> & ?)%list_elem_of_fmap] & ?)]; eauto.
      right. exists it. split; [by left|]. by eapply yields_next.
    + intros [?|(it' & [->|?] & Hy)]; eauto. inversion Hy as [|? n' ? Hn' Hy']; subst.
      * congruence.
      * right. eexists. split; [right; apply list_elem_of_fmap; eauto|]. exact Hy'.
Qed.

Lemma elem_of_rejection_options m R :
  R ∈ compute_rejection_options m ↔ ∃ k, k ∈ dom m ∧ yields m (k, ∅, {[k]}) R.
Proof.
  unfold compute_rejection_options.
  set (q0 := (λ k, (k, ∅, {[k]})) <$> map_keys m).
  apply (run_loop_inv _ _ _ _
    (λ s, (R ∈ s.2 ∨ ∃ it, it ∈ s.1 ∧ yields m it R) ↔
          ∃ k, k ∈ dom m ∧ yields m (k, ∅, {[k]}) R)
    (λ r, R ∈ r ↔ ∃ k, k ∈ dom m ∧ yields m (k, ∅, {[k]}) R)
    (λ s, queue_size m s.1)).
  - intros s s' Hs Hstep. rewrite (rejection_step_yields m s s' R Hstep).
    split; [done|]. by apply queue_size_step.
  - intros [[|it q] res] r Hs; simpl in *; [|by destruct (next_keys m it)].
    intros [= <-]. rewrite <- Hs. set_solver.
  - simpl. unfold q0. setoid_rewrite list_elem_of_fmap. setoid_rewrite elem_of_map_keys.
    setoid_rewrite elem_of_dom. set_solver.
  - simpl. rewrite (queue_size_const _ _ (length (map_keys m) - 1)).
    + unfold q0. rewrite length_fmap. lia.
    + intros it (k & -> & Hk)%list_elem_of_fmap. unfold remaining. simpl.
      apply elem_of_map_keys, elem_of_dom in Hk.
      rewrite size_difference by set_solver. unfold map_keys.
      rewrite length_fmap, length_map_iter, size_dom.
      replace ({[k]} ∪ {[k]} : gset D) with ({[k]} : gset D) by set_solver.
      by rewrite size_singleton.
Qed.

(** [R] is what accepting the items of [A] rejects. *)
Definition rejects m A R : Prop := ∀ y, y ∈ R ↔ ∃ x, x ∈ A ∧ edge m x y.

(** Items of the conflict map without a conflict among them, to which no
    other item can be added. *)
Record maximal_independent m A : Prop := {
  mi_keys : A ⊆ dom m;
  mi_independent : ∀ x y, x ∈ A → y ∈ A → ¬ edge m x y;
  mi_maximal : ∀ k, k ∈ dom m → k ∈ A ∨ ∃ x, x ∈ A ∧ edge m x k;
}.

Lemma rejects_next m it n :
  rejects m (next_accepted it) (next_rejected m it) →
  rejects m (next_accepted (next_item m it n)) (next_rejected m (next_item m it n)).
Proof.
  intros Hr y. rewrite next_rejected_next_item, elem_of_union, (Hr y).
  cbn [next_item next_accepted]. fold (edge m n y). set_solver.
Qed.

Lemma rejects_start m k :
  rejects m (next_accepted (k, ∅, {[k]})) (next_rejected m (k, ∅, {[k]})).
Proof.
  intros y. simpl. setoid_rewrite edge_lookup. destruct (m !! k) eqn:E; set_solver.
Qed.

Lemma rejects_det m A R R' : rejects m A R → rejects m A R' → R = R'.
Proof. intros HR HR'. apply leibniz_equiv. intros y. by rewrite (HR y), (HR' y). Qed.

(** The accepted items [A] behind an option. *)
Lemma yields_accepted m it R :
  yields m it R → next_accepted it ⊆ dom m →
  rejects m (next_accepted it) (next_rejected m it) →
  ∃ A, next_accepted it ⊆ A ∧ A ⊆ dom m ∧ rejects m A R ∧ dom m ⊆ R ∪ A ∧
    ((∀ x y, edge m x y → edge m y x) → (∀ x, ¬ edge m x x) →
     (∀ x y, x ∈ next_accepted it → y ∈ next_accepted it → ¬ edge m x y) →
     ∀ x y, x ∈ A → y ∈ A → ¬ edge m x y).
Proof.
  induction 1 as [it Hk|it n R Hn Hy IH]; intros Hsub Hr.
  - exists (next_accepted it). split_and!; [done|done|done| |done].
    intros k Hd. assert (¬ k ∈ next_keys m it) as Hnk by (rewrite Hk; apply not_elem_of_nil).
    rewrite elem_of_next_keys in Hnk.
    destruct (decide (k ∈ next_rejected m it)); [set_solver|].
    destruct (decide (k ∈ next_accepted it)); [set_solver|]. naive_solver.
  - apply elem_of_next_keys in Hn as (Hd & Hnr & Hna).
    destruct IH as (A & HA & HAd & HR & Hcov & Hind);
      [simpl; set_solver|by apply rejects_next|].
    exists A. split_and!; [simpl in HA; set_solver|done|done|done|].
    intros Hsym Hirr Hi. apply (Hind Hsym Hirr).
    assert (∀ x, x ∈ next_accepted it → ¬ edge m x n) as Hxn.
    { intros x Hx He. apply Hnr, Hr. eauto. }
    cbn [next_item next_accepted].
    intros x y [Hx|Hx]%elem_of_union [Hy'|Hy']%elem_of_union;
      rewrite ?elem_of_singleton in *; subst; eauto.
    intros He%Hsym. by eapply Hxn.
Qed.

Lemma maximal_yields m A R it :
  maximal_independent m A → rejects m A R → next_accepted it ⊆ A →
  rejects m (next_accepted it) (next_rejected m it) → yields m it R.
Proof.
  intros [Hd Hi Hmax] HR. remember (size (A ∖ next_accepted it)) as r eqn:Er.
  revert it Er. induction r as [|r IH]; intros it Er Hsub Hr.
  - symmetry in Er. apply size_empty_inv, leibniz_equiv in Er.
    assert (next_accepted it = A) as EA.
    { apply leibniz_equiv. intros x. split; [apply Hsub|].
      intros Hx. destruct (decide (x ∈ next_accepted it)); [done|set_solver]. }
    rewrite EA in Hr. rewrite (rejects_det m A R (next_rejected m it)) by done.
    constructor. apply elem_of_nil_inv. intros k (Hk & Hkr & Hka)%elem_of_next_keys.
    rewrite EA in Hka. destruct (Hmax k Hk) as [?|Hex]; [done|]. by apply Hkr, Hr.
  - destruct (set_choose_L (A ∖ next_accepted it)) as [n Hn].
    { intros E. by rewrite E, size_empty in Er. }
    apply (yields_next m it n).
    + apply elem_of_next_keys. split_and!; [set_solver| |set_solver].
      intros (x & Hx & Hxn)%Hr. apply (Hi x n); [auto|set_solver|done].
    + apply IH; [|simpl; set_solver|by apply rejects_next].
      replace (A ∖ next_accepted (next_item m it n)) with (A ∖ next_accepted it ∖ {[n]})
        by (simpl; set_solver).
      rewrite size_difference, size_singleton by set_solver. lia.
Qed.

Lemma yields_total m it : ∃ R, yields m it R.
Proof.
  remember (remaining m it) as r eqn:Er. revert it Er.
  induction r as [|r IH]; intros it Er; destruct (next_keys m it) as [|n l] eqn:Hk;
    try (eexists; by apply yields_done);
    (assert (n ∈ next_keys m it) as Hn by (rewrite Hk; left));
    pose proof (remaining_next m it n Hn); [lia|].
  destruct (IH (next_item m it n)) as [R HR]; [lia|]. exists R. by eapply yields_next.
Qed.

Lemma dom_choose m : m ≠ ∅ → ∃ k, k ∈ dom m.
Proof. intros (k & V & Hk)%map_choose. exists k. by eapply elem_of_dom_2. Qed.

(** What holds of the options of any map, symmetric or not. *)
Lemma rejection_option_resolves m R k y :
  R ∈ compute_rejection_options m → k ∉ R → edge m k y → y ∈ R.
Proof.
  intros (k0 & Hk0 & Hy)%elem_of_rejection_options Hk Hky.
  destruct (yields_accepted _ _ _ Hy) as (A & _ & _ & HR & Hcov & _);
    [simpl; set_solver|apply rejects_start|].
  apply HR. exists k. split; [|done].
  assert (k ∈ dom m) as Hd by (apply edge_lookup in Hky as (? & ? & _); by eapply elem_of_dom_2).
  apply Hcov in Hd. set_solver.
Qed.

(** C34: The rejection options are the reference ones.  Rejecting an option of
    any conflict map resolves it: what a kept item conflicts with is rejected.
    For a symmetric, irreflexive conflict map the queue search returns exactly
    the rejections of the maximal conflict-free sets of items: [R] is an option
    iff the map is not empty and [R] is the set of everything that conflicts
    with some maximal independent set.  The search always ends.  (The map that
    [resolve_conflict_set] passes adds dependents and need not be symmetric;
    for it the first part holds.) *)
Theorem rejection_options_maximal_independent m R :
  (R ∈ compute_rejection_options m → ∀ k y, k ∉ R → edge m k y → y ∈ R) ∧
  ((∀ x y, edge m x y → edge m y x) → (∀ x, ¬ edge m x x) →
   R ∈ compute_rejection_options m ↔
   m ≠ ∅ ∧ ∃ A, maximal_independent m A ∧ rejects m A R).
Proof.
  split; [intros HR k y; by apply rejection_option_resolves|].
  intros Hsym Hirr. rewrite elem_of_rejection_options. split.
  - intros (k & Hk & Hy). split; [intros ->; set_solver|].
    destruct (yields_accepted _ _ _ Hy) as (A & HA & HAd & HR & Hcov & Hind);
      [simpl; set_solver|apply rejects_start|].
    exists A. split; [|done]. split; [done| |].
    + apply (Hind Hsym Hirr). simpl. intros x y Hx Hy'.
      assert (x = k) as -> by set_solver. assert (y = k) as -> by set_solver. apply Hirr.
    + intros k' Hk'%Hcov. apply elem_of_union in Hk' as [?%HR|?]; auto.
  - intros (Hne & A & HA & HR).
    assert (∃ k, k ∈ A) as [k Hk].
    { apply dom_choose in Hne as [k0 Hk0].
      destruct (mi_maximal _ _ HA k0 Hk0) as [?|(x & ? & _)]; eauto. }
    exists k. split; [by apply HA|].
    eapply maximal_yields; [done|done|simpl; set_solver|apply rejects_start].
Qed.

Lemma rejection_option_closed m dm R :
  (∀ k V, m !! k = Some V → closed dm V) → R ∈ compute_rejection_options m → closed dm R.
Proof.
  intros Hm (k0 & Hk0 & Hy)%elem_of_rejection_options.
  destruct (yields_accepted _ _ _ Hy) as (A & _ & _ & HR & _ & _);
    [simpl; set_solver|apply rejects_start|].
  intros x y (a & Ha & (V & HV & Hx)%edge_lookup)%HR Hxy. apply HR. exists a.
  split; [done|]. apply edge_lookup. exists V. split; [done|]. by eapply Hm.
Qed.

Lemma rejection_options_empty m : compute_rejection_options m = ∅ → m = ∅.
Proof.
  intros Ho. destruct (decide (m = ∅)) as [|Hne]; [done|].
  apply dom_choose in Hne as [k Hk].
  destruct (yields_total m (k, ∅, {[k]})) as [R HR].
  assert (R ∈ compute_rejection_options m) by (apply elem_of_rejection_options; eauto).
  set_solver.
Qed.
End RejectionOptions.

(** ** Optimal rejection *)
Section OptimalRejection.
Context {D : Type} `{Countable D} `{!Ord D, !OrdSpec D}.

(** The chosen rejection is the unique optimum (Law 17).  Of a non-empty
    set of options, [compute_optimal_rejection] returns one of them, and
    every other option is strictly greater in the order by total cost, then
    number of items, then the sorted items: the choice does not depend on
    how the options were enumerated. *)
Theorem optimal_rejection_unique (options : gset (gset D)) (cost : D → Z) :
  options ≠ ∅ →
  compute_optimal_rejection options cost ∈ options ∧
  ∀ R, R ∈ options → R ≠ compute_optimal_rejection options cost →
    ord_lt (rejection_key cost (compute_optimal_rejection options cost)) (rejection_key cost R).
Proof.
  intros Hne. unfold compute_optimal_rejection.
  destruct (min_by_key ord_gtb (rejection_key cost) (set_iter options)) as [X|] eqn:E; simpl.
  - split; [by apply min_by_key_elem, elem_of_set_iter in E|].
    intros R HR Hn. apply ord_lt_le. split.
    + apply (min_by_ord _ _ _ _ E). by apply elem_of_set_iter.
    + intros Hk. apply Hn. injection Hk. intros Hi _ _. by apply set_iter_inj in Hi.
  - by apply min_by_key_None, set_iter_nil in E.
Qed.

Lemma optimal_rejection_elem (options : gset (gset D)) cost :
  options ≠ ∅ → compute_optimal_rejection options cost ∈ options.
Proof.
  intros Hne. unfold compute_optimal_rejection.
  destruct (min_by_key _ _ _) eqn:E; simpl; [by apply min_by_key_elem, elem_of_set_iter in E|].
  by apply min_by_key_None, set_iter_nil in E.
Qed.
End OptimalRejection.

(** ** Numeric channels *)
Section Mergeable.
Context {D : Type} `{Countable D} `{!Ord D, !OrdSpec D}.
Context {CH : Type} `{Countable CH} `{!Ord CH, !OrdSpec CH}.
Notation DMap := (gmap D (gset D)).
Implicit Types (dm : DMap) (balances : gmap CH Z) (diffs : gmap D (gmap CH Z)).

Definition balance balances c : Z := default 0 (balances !! c).
Definition balances_ok balances : Prop := ∀ c, 0 ≤ balance balances c ≤ i64_max.
Definition diff_of diffs (d : D) (c : CH) : Z := balance (default ∅ (diffs !! d)) c.

Lemma apply_change_Some acc c v b :
  balances_ok acc → i64_range v →
  apply_change acc (c, v) = Some b ↔
  0 ≤ balance acc c + v ≤ i64_max ∧ b = <[c := balance acc c + v]> acc.
Proof.
  intros Hacc Hv. specialize (Hacc c). unfold apply_change, i64_checked_add.
  unfold balance in *. set (cur := default 0 (acc !! c)) in *.
  unfold_ints. repeat (case_match; simpl); naive_solver lia.
Qed.

Lemma balance_insert acc c v c' :
  balance (<[c := v]> acc) c' = if decide (c = c') then v else balance acc c'.
Proof. unfold balance. rewrite lookup_insert. by case_decide. Qed.

Lemma apply_changes_spec l acc :
  NoDup l.*1 → balances_ok acc → (∀ c v, (c, v) ∈ l → i64_range v) →
  match fold_opt apply_change acc l with
  | Some b => balances_ok b ∧ ∀ c, balance b c = balance acc c + balance (list_to_map l) c
  | None => ∃ c v, (c, v) ∈ l ∧ ¬ 0 ≤ balance acc c + v ≤ i64_max
  end.
Proof.
  revert acc. induction l as [|[c v] l IH]; intros acc Hnd Hacc Hl; cbn [fold_opt].
  { split; [done|]. intros c. unfold balance at 3. simpl. rewrite lookup_empty. simpl. lia. }
  inversion Hnd as [|?? Hc Hnd']; subst.
  assert (i64_range v) as Hv by (apply (Hl c); by left).
  assert (∀ c' v', (c', v') ∈ l → c ≠ c') as Hfresh.
  { intros c' v' Hin <-. apply Hc, list_elem_of_fmap. by exists (c, v'). }
  destruct (apply_change acc (c, v)) as [b|] eqn:E; cbn [mbind option_bind].
  - apply apply_change_Some in E as [Hr ->]; [|done..].
    specialize (IH (<[c := balance acc c + v]> acc) Hnd').
    destruct (fold_opt _ _ l) as [b|].
    + destruct IH as [Hb Heq]; [intros c'; rewrite balance_insert; by case_decide|
        intros; eapply Hl; by right|].
      split; [done|]. intros c'. rewrite Heq, list_to_map_cons, !balance_insert.
      case_decide as Hcc; simpl; [|lia]. subst c'.
      unfold balance at 2. rewrite not_elem_of_list_to_map_1 by done. simpl. lia.
    + destruct IH as (c' & v' & Hin & Hn); [intros c'; rewrite balance_insert; by case_decide|
        intros; eapply Hl; by right|].
      exists c', v'. split; [by right|]. rewrite balance_insert in Hn.
      by rewrite decide_False in Hn by eauto.
  - exists c, v. split; [by left|]. intros Hr.
    assert (apply_change acc (c, v) = Some (<[c := balance acc c + v]> acc)) as E'
      by by apply apply_change_Some. congruence.
Qed.

Lemma calc_merged_result_spec d balances diffs :
  balances_ok balances → (∀ c, i64_range (diff_of diffs d c)) →
  match calc_merged_result d balances diffs with
  | Some b => balances_ok b ∧ ∀ c, balance b c = balance balances c + diff_of diffs d c
  | None => ∃ c, ¬ 0 ≤ balance balances c + diff_of diffs d c ≤ i64_max
  end.
Proof.
  intros Hb Hd. unfold calc_merged_result, diff_of in *.
  set (diff := default ∅ (diffs !! d)) in *.
  assert (∀ c v, (c, v) ∈ map_iter diff → balance diff c = v) as Hdiff.
  { intros c v Hin%elem_of_map_iter. unfold balance. by rewrite Hin. }
  pose proof (apply_changes_spec (map_iter diff) balances (NoDup_map_iter_keys _) Hb) as Hs.
  rewrite list_to_map_iter in Hs.
  destruct (fold_opt _ _ _) as [b|].
  - apply Hs. intros c v Hin. rewrite <- (Hdiff c v Hin). apply Hd.
  - destruct Hs as (c & v & Hin & Hn); [intros c v Hin; rewrite <- (Hdiff c v Hin); apply Hd|].
    exists c. by rewrite (Hdiff c v).
Qed.
End Mergeable.

(** ** Resolution *)
Section Resolution.
Context {D : Type} `{Countable D} `{!Ord D, !OrdSpec D}.
Context {CH : Type} `{Countable CH} `{!Ord CH, !OrdSpec CH}.
Notation DMap := (gmap D (gset D)).
Implicit Types (dm cm : DMap) (balances init : gmap CH Z) (diffs : gmap D (gmap CH Z)).
Implicit Types (X R : gset D) (d x y : D).

(** [rank] witnesses that the map is acyclic: dependents rank higher. *)
Definition ranked dm (rank : D → nat) (n : nat) : Prop :=
  ∀ x y, edge dm x y → (rank x < rank y ≤ n)%nat.

Lemma elem_of_next_frontier dm (l : list D) y :
  y ∈ set_iter (list_to_set (l ≫= λ d, set_iter (deps_of dm d)) : gset D) ↔
  ∃ x, x ∈ l ∧ edge dm x y.
Proof.
  rewrite elem_of_set_iter, elem_of_list_to_set, list_elem_of_bind.
  setoid_rewrite elem_of_set_iter. unfold edge. naive_solver.
Qed.

Lemma traverse_terminates dm rank n fuel result (frontier : list D) lo :
  ranked dm rank n → (∀ d, d ∈ frontier → (lo ≤ rank d)%nat) → (n - lo + 2 ≤ fuel)%nat →
  is_Some (loop (traverse_step (deps_of dm)) fuel (result, frontier)).
Proof.
  intros Hr. revert result frontier lo. induction fuel as [|fuel IH];
    intros result frontier lo Hlo Hf; [lia|]. cbn [loop traverse_step].
  destruct frontier as [|d0 frontier]; [by eauto|].
  assert (∀ y, y ∈ set_iter (list_to_set
    (merge_sort ord_le (d0 :: frontier) ≫= λ d, set_iter (deps_of dm d)) : gset D) →
    (S lo ≤ rank y ≤ n)%nat) as Hnext.
  { intros y (x & Hx & Hxy)%elem_of_next_frontier. rewrite merge_sort_Permutation in Hx.
    apply Hr in Hxy. specialize (Hlo x Hx). lia. }
  destruct (decide (n ≤ lo)%nat).
  - assert (set_iter (list_to_set (merge_sort ord_le (d0 :: frontier) ≫=
      λ d, set_iter (deps_of dm d)) : gset D) = []) as ->.
    { apply elem_of_nil_inv. intros y Hy%Hnext. lia. }
    destruct fuel; [lia|]. simpl. eauto.
  - apply (IH _ _ (S lo)); [|lia]. intros y Hy%Hnext. lia.
Qed.

Lemma fold_rejection_terminates dm rank n fuel init X diffs :
  ranked dm rank n → (n + 2 ≤ fuel)%nat → is_Some (fold_rejection fuel init X dm diffs).
Proof.
  intros Hr Hf. unfold fold_rejection.
  destruct (fold_opt_is_Some (fold_root fuel dm diffs) (init, ∅)
    (merge_sort ord_le (map_keys (compute_branches X dm)))) as [[b R] ->]; [|simpl; eauto].
  intros s root _. unfold fold_root, traverse_tree.
  destruct (traverse_terminates dm rank n fuel [] [root] 0 Hr) as [l ->];
    [intros; lia|lia|simpl; eauto].
Qed.

Lemma fold_deploy_closed dm diffs s d :
  closed dm s.2 → closed dm (fold_deploy dm diffs s d).2.
Proof.
  destruct s as [b R]. intros HR. unfold fold_deploy. case_bool_decide; [done|].
  destruct (calc_merged_result _ _ _); [done|]. simpl in *.
  replace (R ∪ {[d]} ∪ with_dependencies {[d]} dm) with (R ∪ with_dependencies {[d]} dm).
  - by apply closed_union, with_dependencies_closed.
  - pose proof (with_dependencies_supset dm {[d]}). set_solver.
Qed.

Lemma fold_rejection_closed fuel init X dm diffs R :
  fold_rejection fuel init X dm diffs = Some R → closed dm R.
Proof.
  unfold fold_rejection. destruct (fold_opt _ _ _) as [[b R']|] eqn:E; simpl; [|done].
  intros [= <-].
  apply (fold_opt_inv _ (λ _ (s : gmap CH Z * gset D), closed dm s.2)) in E; [done|apply closed_empty|].
  intros _ root _ s s' _ Hs. unfold fold_root. destruct (traverse_tree _ _ _); simpl; [|done].
  intros [= <-]. apply (foldl_inv (λ s : gmap CH Z * gset D, closed dm s.2)); [done|].
  intros. by apply fold_deploy_closed.
Qed.

(** Every overflow option extends a rejection option, or there is none. *)
Lemma overflow_options_spec fuel X dm O init diffs O' :
  add_mergeable_overflow_rejections fuel X dm O init diffs = Some O' →
  O' ≠ ∅ ∧ ∀ R, R ∈ O' → ∃ fr, closed dm fr ∧
    (O = ∅ ∧ R = fr ∨ ∃ rj, rj ∈ O ∧ R = rj ∪ fr).
Proof.
  unfold add_mergeable_overflow_rejections. case_bool_decide as HO.
  - destruct (fold_rejection _ _ _ _ _) as [r|] eqn:E; simpl; [|done]. intros [= <-].
    split; [set_solver|]. intros R ->%elem_of_singleton. exists r.
    split; [by eapply fold_rejection_closed|by left].
  - intros Hf.
    apply (fold_opt_inv _ (λ ps (acc : gset (gset D)), (ps ≠ [] → acc ≠ ∅) ∧
      ∀ R, R ∈ acc → ∃ fr, closed dm fr ∧ ∃ rj, rj ∈ O ∧ R = rj ∪ fr)) in Hf as [Hne HR].
    + split; [by apply Hne; rewrite set_iter_nil|]. intros R (fr & ? & ?)%HR. eauto.
    + split; [done|set_solver].
    + intros ps rj rest acc acc' Hl [_ Hacc].
      destruct (fold_rejection _ _ _ _ _) as [fr|] eqn:E; simpl; [|done]. intros [= <-].
      assert (rj ∈ O) by (apply elem_of_set_iter; rewrite Hl; set_solver).
      split; [set_solver|]. intros R [?| ->%elem_of_singleton]%elem_of_union; [eauto|].
      exists fr. split; [by eapply fold_rejection_closed|eauto].
Qed.

Lemma full_conflicts_lookup cm dm k V :
  full_conflicts cm dm !! k = Some V ↔
  ∃ vs, cm !! k = Some vs ∧ V = vs ∪ with_dependencies vs dm.
Proof.
  unfold full_conflicts. set (f := λ '(k, vs), (k, vs ∪ with_dependencies vs dm)).
  assert ((f <$> map_iter cm).*1 = (map_iter cm).*1) as Ek.
  { rewrite <- list_fmap_compose. apply list_fmap_ext. by intros ? [? ?] _. }
  rewrite <- elem_of_list_to_map by (rewrite Ek; apply NoDup_map_iter_keys).
  rewrite list_elem_of_fmap. split.
  - intros ([k' vs] & Heq & Hin%elem_of_map_iter). simpl in Heq. naive_solver.
  - intros (vs & Hin%elem_of_map_iter & ->). by exists (k, vs).
Qed.

Lemma full_conflicts_closed cm dm k V : full_conflicts cm dm !! k = Some V → closed dm V.
Proof.
  intros (vs & _ & ->)%full_conflicts_lookup.
  pose proof (with_dependencies_supset dm vs) as Hsup.
  rewrite (subseteq_union_1_L vs (with_dependencies vs dm)) by done.
  apply with_dependencies_closed.
Qed.

Lemma full_conflicts_edge cm dm x y : edge cm x y → edge (full_conflicts cm dm) x y.
Proof.
  rewrite !edge_lookup. intros (V & HV & Hy). eexists. split; [|].
  - apply full_conflicts_lookup. eauto.
  - set_solver.
Qed.

(** What the chosen rejection guarantees. *)
Lemma resolved_spec fuel X cm dm init diffs cost O' :
  add_mergeable_overflow_rejections fuel X dm
    (compute_rejection_options (full_conflicts cm dm)) init diffs = Some O' →
  let R := compute_optimal_rejection O' cost in
  closed dm R ∧ ∀ x y, x ∉ R → edge cm x y → y ∈ R.
Proof.
  intros [Hne HO]%overflow_options_spec R.
  destruct (HO R (optimal_rejection_elem _ _ Hne)) as (fr & Hfr & [[Hemp HR]|(rj & Hrj & HR)]);
    rewrite HR; clear HO R HR.
  - apply rejection_options_empty in Hemp. split; [done|].
    intros x y _ Hxy%(full_conflicts_edge cm dm). rewrite Hemp in Hxy. by apply edge_empty in Hxy.
  - split.
    + apply closed_union; [|done]. eapply rejection_option_closed; [|done].
      apply full_conflicts_closed.
    + intros x y Hx Hxy%(full_conflicts_edge cm dm).
      apply elem_of_union_l. apply (rejection_option_resolves _ rj x y Hrj); [|done].
      intros Hin. apply Hx. by apply elem_of_union_l.
Qed.

Lemma resolve_sound fuel X AF RF cost cm dm diffs init acc rej :
  resolve_conflict_set fuel X AF RF cost cm dm diffs init = Some (acc, rej) →
  acc ## rej ∧ acc ⊆ X ∧ X ⊆ acc ∪ rej ∧
  (∀ x y, x ∈ acc → edge cm x y → y ∈ rej) ∧
  closed dm rej ∧
  (∀ f x, f ∈ AF → edge cm f x → x ∈ rej) ∧
  (∀ r x, r ∈ RF → edge dm r x → x ∈ rej).
Proof.
  unfold resolve_conflict_set.
  set (inc := incompatible_with_final AF RF cm dm). set (enf := with_dependencies inc dm).
  destruct (add_mergeable_overflow_rejections _ _ _ _ _ _) as [O'|] eqn:E; simpl; [|done].
  apply resolved_spec with (cost := cost) in E as [Hcl Hres]. simpl in *.
  set (R := compute_optimal_rejection O' cost) in *. intros [= <- <-].
  assert (inc ⊆ enf) as Hinc by apply with_dependencies_supset.
  split_and!.
  - set_solver.
  - set_solver.
  - intros x Hx. destruct (decide (x ∈ enf)), (decide (x ∈ R)); set_solver.
  - intros x y Hx Hxy. apply elem_of_union_l, (Hres x); [set_solver|done].
  - by apply closed_union, with_dependencies_closed.
  - intros f x Hf Hfx. apply elem_of_union_r, Hinc, incompatible_with_final_elem. eauto.
  - intros r x Hr Hrx. apply elem_of_union_r, Hinc, incompatible_with_final_elem. eauto.
Qed.

Lemma resolve_total fuel rank n X AF RF cost cm dm diffs init :
  ranked dm rank n → (n + 2 ≤ fuel)%nat →
  is_Some (resolve_conflict_set fuel X AF RF cost cm dm diffs init).
Proof.
  intros Hr Hf. unfold resolve_conflict_set, add_mergeable_overflow_rejections.
  case_bool_decide.
  - destruct (fold_rejection_terminates dm rank n fuel init X diffs Hr Hf) as [R ->].
    simpl. eauto.
  - match goal with |- context [fold_opt ?f ?b ?l] =>
      destruct (fold_opt_is_Some f b l) as [O' ->] end; [|simpl; eauto].
    intros acc rj _.
    destruct (fold_rejection_terminates dm rank n fuel init (X ∖ rj) diffs Hr Hf) as [R ->].
    simpl. eauto.
Qed.

End Resolution.

(** ** Branches *)
Section Branches.
Context {D : Type} `{Countable D} `{!Ord D, !OrdSpec D}.
Notation DMap := (gmap D (gset D)).
Implicit Types (dm acc : DMap) (X : gset D) (k x y root : D).

(** The isolated targets get an empty branch. *)
Lemma add_isolated_lookup (l : list D) acc k :
  foldl (λ acc t, match acc !! t with Some _ => acc | None => <[t := ∅]> acc end) acc l !! k
  = match acc !! k with
    | Some V => Some V
    | None => if bool_decide (k ∈ l) then Some ∅ else None
    end.
Proof.
  revert acc. induction l as [|t l IH]; intros acc; cbn [foldl].
  { destruct (acc !! k); [done|]. rewrite bool_decide_false by apply not_elem_of_nil. done. }
  rewrite IH. destruct (acc !! t) as [V|] eqn:Ht.
  - destruct (acc !! k) eqn:Hk; [done|]. assert (k ≠ t) by congruence.
    rewrite (bool_decide_ext (k ∈ t :: l) (k ∈ l)); [done|]. rewrite elem_of_cons. naive_solver.
  - destruct (decide (k = t)) as [->|Hne].
    + rewrite lookup_insert_eq, Ht. rewrite bool_decide_true by left. done.
    + rewrite lookup_insert_ne by done. destruct (acc !! k); [done|].
      rewrite (bool_decide_ext (k ∈ t :: l) (k ∈ l)); [done|]. rewrite elem_of_cons. naive_solver.
Qed.

Lemma add_isolated_set X acc k :
  foldl (λ acc t, match acc !! t with Some _ => acc | None => <[t := ∅]> acc end)
    acc (set_iter X) !! k
  = match acc !! k with
    | Some V => Some V
    | None => if bool_decide (k ∈ X) then Some ∅ else None
    end.
Proof.
  rewrite add_isolated_lookup.
  by rewrite (bool_decide_ext (k ∈ set_iter X) (k ∈ X)) by apply elem_of_set_iter.
Qed.

Lemma elem_of_all_items dm x :
  x ∈ (foldl (λ all '(k, v), all ∪ {[k]} ∪ v) ∅ (map_iter dm) : gset D) ↔
  x ∈ dom dm ∨ x ∈ rel_values dm.
Proof.
  rewrite (foldl_accum (λ all : gset D, x ∈ all)
    (λ e : D * gset D, x = e.1 ∨ x ∈ e.2)) by (intros all [k v]; set_solver).
  unfold rel_values. rewrite elem_of_union_list, elem_of_dom. split.
  - intros [?|([k v] & Hin%elem_of_map_iter & [->|?])]; [set_solver|left; by exists v|].
    right. exists v. split; [apply elem_of_map_values; eauto|done].
  - intros [[v Hv]|(v & [k Hk]%elem_of_map_values & Hx)]; right.
    + exists (x, v). split; [by apply elem_of_map_iter|by left].
    + exists (k, v). split; [by apply elem_of_map_iter|by right].
Qed.

(** A dependency map that lists indirect dependents too. *)
Definition transitively_closed dm : Prop :=
  (∀ x, ¬ edge dm x x) ∧ ∀ x y z, edge dm x y → edge dm y z → edge dm x z.

Lemma entry_extend_id acc k V X :
  acc !! k = Some V → X ⊆ V → entry_extend acc k X = acc.
Proof.
  intros Hk HX. unfold entry_extend. rewrite Hk. simpl. apply insert_id.
  rewrite Hk. f_equal. set_solver.
Qed.

(** On such a map, folding a branch only removes roots that depend on another. *)
Lemma fold_branch_closed dm acc root V :
  transitively_closed dm → acc ⊆ dm → dm !! root = Some V →
  fold_branch acc (root, V) = acc ∨
  (fold_branch acc (root, V) = delete root acc ∧
   ∃ k, k ≠ root ∧ is_Some (acc !! k) ∧ edge dm k root).
Proof.
  intros [Hirr Htr] Hsub Hroot. unfold fold_branch.
  assert (∀ k, k ∈ (filter (λ e, root ∈ e.2) (map_iter acc)).*1 →
    ∃ W, acc !! k = Some W ∧ edge dm k root ∧ V ∪ {[root]} ⊆ W ∧ k ≠ root) as Hk.
  { intros k ([k' W] & -> & [Hr Hin%elem_of_map_iter]%list_elem_of_filter)%list_elem_of_fmap.
    simpl in *. exists W. pose proof (lookup_weaken _ _ _ _ Hin Hsub) as Hdm.
    assert (edge dm k' root) as He by (apply edge_lookup; eauto).
    split_and!; [done|done| |intros ->; by apply (Hirr root)].
    intros x [Hx| ->%elem_of_singleton]%elem_of_union; [|done].
    assert (edge dm k' x) as (W' & ? & ?)%edge_lookup.
    { apply (Htr _ root); [done|]. apply edge_lookup. eauto. }
    naive_solver. }
  destruct (filter _ _).*1 as [|k0 l] eqn:El; [by left|]. right. split.
  - apply (foldl_inv (λ a, a = delete root acc)); [done|].
    intros a k Hin ->. destruct (Hk k Hin) as (W & HW & _ & HV & Hne).
    apply (entry_extend_id _ _ W); [|done]. by rewrite lookup_delete_ne.
  - destruct (Hk k0) as (W & HW & He & _ & Hne); [left|]. eauto.
Qed.

Definition covered dm acc x : Prop := ∃ k, is_Some (acc !! k) ∧ (x = k ∨ edge dm k x).

Lemma fold_branches_cover dm :
  transitively_closed dm →
  let acc := foldl fold_branch dm (map_iter dm) in
  acc ⊆ dm ∧ ∀ x, x ∈ dom dm → covered dm acc x.
Proof.
  intros Htc.
  apply (foldl_inv (λ acc, acc ⊆ dm ∧ ∀ x, x ∈ dom dm → covered dm acc x)).
  { split; [done|]. intros x [V HV]%elem_of_dom. exists x. eauto. }
  intros acc [root V] Hin%elem_of_map_iter [Hsub Hcov].
  destruct (fold_branch_closed dm acc root V Htc Hsub Hin) as [->|[-> (k & Hk & Hacc & He)]];
    [done|].
  split; [etrans; [apply delete_subseteq|done]|].
  intros x (k' & Hk' & Hx)%Hcov. destruct (decide (k' = root)) as [->|Hne].
  - exists k. rewrite lookup_delete_ne by done. split; [done|]. right.
    destruct Hx as [->|Hx]; [done|]. by eapply (proj2 Htc).
  - exists k'. by rewrite lookup_delete_ne.
Qed.

Lemma branches_cover dm X x :
  transitively_closed dm →
  (∃ k v, compute_branches X dm !! k = Some v ∧ x ∈ v ∪ {[k]}) ↔
  x ∈ X ∪ dom dm ∪ rel_values dm.
Proof.
  intros Htc. destruct (fold_branches_cover dm Htc) as [Hsub Hcov].
  unfold compute_branches. setoid_rewrite add_isolated_set.
  set (acc := foldl fold_branch dm (map_iter dm)) in *.
  set (all := foldl _ ∅ (map_iter dm)).
  assert (∀ y, y ∈ all ↔ y ∈ dom dm ∨ y ∈ rel_values dm) as Hall by apply elem_of_all_items.
  assert (∀ y, covered dm acc y → ∃ k v, match acc !! k with Some V => Some V
    | None => if bool_decide (k ∈ X ∖ all) then Some ∅ else None end = Some v ∧
    y ∈ v ∪ {[k]}) as Hc.
  { intros y (k & [V HV] & Hy). exists k, V. rewrite HV. split; [done|].
    pose proof (lookup_weaken _ _ _ _ HV Hsub) as Hdm.
    destruct Hy as [->|(W & ? & ?)%edge_lookup]; [set_solver|].
    simplify_eq. set_solver. }
  split.
  - intros (k & v & Hk & Hx). destruct (acc !! k) as [V|] eqn:HV.
    + injection Hk as <-. pose proof (lookup_weaken _ _ _ _ HV Hsub) as Hdm.
      apply elem_of_union in Hx as [Hx| ->%elem_of_singleton].
      * apply elem_of_union_r, (edge_rel_values dm k), edge_lookup. eauto.
      * apply elem_of_dom_2 in Hdm. set_solver.
    + case_bool_decide; [|done]. injection Hk as <-. set_solver.
  - intros Hx. destruct (decide (x ∈ all)) as [Ha|Ha].
    + apply Hc. apply Hall in Ha as [Hd|Hv]; [by apply Hcov|].
      unfold rel_values in Hv. apply elem_of_union_list in Hv as (V & [k Hk]%elem_of_map_values & HxV).
      assert (edge dm k x) as He by (apply edge_lookup; eauto).
      destruct (Hcov k) as (k' & Hk' & Hkk'); [by eapply elem_of_dom_2|].
      exists k'. split; [done|]. right. destruct Hkk' as [->|?]; [done|].
      by apply (proj2 Htc k' k x).
    + exists x, ∅. assert (acc !! x = None) as ->.
      { apply eq_None_not_Some. intros [V HV]. apply Ha, Hall. left.
        eapply elem_of_dom_2, lookup_weaken; done. }
      rewrite bool_decide_true; [set_solver|]. set_solver.
Qed.

(** Deploy chains partition a block.  When the dependency map lists
    indirect dependents too (it is transitive and irreflexive), the greedy
    branches are pairwise disjoint and together hold exactly the target
    items and the items of the map: no deploy is lost or counted twice. *)
Theorem greedy_branches_partition dm X :
  transitively_closed dm →
  ⋃ compute_greedy_non_intersecting_branches X dm = X ∪ dom dm ∪ rel_values dm ∧
  ∀ i j p q, compute_greedy_non_intersecting_branches X dm !! i = Some p →
    compute_greedy_non_intersecting_branches X dm !! j = Some q → i ≠ j → p ## q.
Proof.
  intros Htc. unfold compute_greedy_non_intersecting_branches.
  rewrite partition_scope_from. set (views := _ <$> _).
  destruct (partition_from_spec views ∅) as (Hu & _ & Hd). split; [|done].
  rewrite Hu, difference_empty_L. apply leibniz_equiv. intros x.
  rewrite <- branches_cover by done. rewrite elem_of_union_list. unfold views.
  setoid_rewrite list_elem_of_fmap. setoid_rewrite merge_sort_Permutation. split.
  - intros (V & ([k v] & -> & Hin%elem_of_map_iter) & Hx). eauto.
  - intros (k & v & Hin%elem_of_map_iter & Hx). eexists. split; [|exact Hx]. by exists (k, v).
Qed.
End Branches.

(** ** Numeric channels of independent items *)
Section Independent.
Context {D : Type} `{Countable D} `{!Ord D, !OrdSpec D}.
Context {CH : Type} `{Countable CH} `{!Ord CH, !OrdSpec CH}.
Implicit Types (init : gmap CH Z) (diffs : gmap D (gmap CH Z)) (X R : gset D) (d : D).

Lemma with_dependencies_no_deps d : with_dependencies {[d]} (∅ : gmap D (gset D)) = {[d]}.
Proof.
  destruct (with_dependencies_inv ∅ {[d]}) as (Hs & _ & Hr). apply leibniz_equiv.
  apply set_equiv_subseteq. split; [|done].
  intros y (x & Hx & Hxy)%Hr. destruct Hxy as [|x y z []%edge_empty _]. done.
Qed.

Lemma traverse_no_deps fuel d :
  (2 ≤ fuel)%nat → traverse_tree fuel d (deps_of (∅ : gmap D (gset D))) = Some [d].
Proof.
  intros Hf. destruct fuel as [|[|fuel]]; [lia|lia|].
  unfold traverse_tree. cbn [loop traverse_step].
  assert (merge_sort ord_le [d] = [d]) as -> by done.
  assert (set_iter (list_to_set ([d] ≫= λ d0, set_iter (deps_of ∅ d0)) : gset D) = []) as ->.
  { apply elem_of_nil_inv. intros y (x & _ & []%edge_empty)%elem_of_next_frontier. }
  done.
Qed.

Lemma branches_no_deps X :
  merge_sort ord_le (map_keys (compute_branches X (∅ : gmap D (gset D)))) ≡ₚ elements X.
Proof.
  rewrite merge_sort_Permutation. apply NoDup_Permutation.
  - unfold map_keys. apply NoDup_map_iter_keys.
  - apply NoDup_elements.
  - intros k. rewrite elem_of_map_keys, elem_of_elements. unfold compute_branches.
    rewrite add_isolated_set. cbn [map_iter]. rewrite (proj2 (map_iter_nil ∅) eq_refl).
    cbn [foldl]. rewrite lookup_empty. case_bool_decide; [|split; [by intros []|set_solver]].
    split; [set_solver|by eauto].
Qed.

(** State of the fold after the items [ps]. *)
Record fold_ok init diffs (ps : list D) (s : gmap CH Z * gset D) : Prop := {
  fo_ok : balances_ok s.1;
  fo_sub : ∀ d, d ∈ s.2 → d ∈ ps;
  fo_sum : ∀ c, balance s.1 c =
    balance init c + sum_Z (λ d, diff_of diffs d c) (filter (λ d, d ∉ s.2) ps);
}.

Lemma fold_ok_step init diffs ps d s :
  (∀ c, i64_range (diff_of diffs d c)) → d ∉ ps → fold_ok init diffs ps s →
  fold_ok init diffs (ps ++ [d]) (fold_deploy ∅ diffs s d).
Proof.
  intros Hd Hnew [Hok Hsub Hsum]. destruct s as [b R]. simpl in *. unfold fold_deploy.
  rewrite bool_decide_false by (intros ?%Hsub; done).
  pose proof (calc_merged_result_spec d b diffs Hok Hd) as Hs.
  destruct (calc_merged_result d b diffs) as [b'|].
  - destruct Hs as [Hok' Heq]. split; simpl; [done|set_solver|].
    intros c. rewrite Heq, Hsum, filter_app, filter_cons_True, filter_nil by (intros ?%Hsub; done).
    rewrite sum_Z_app, sum_Z_cons. unfold sum_Z at 3. simpl. lia.
  - rewrite with_dependencies_no_deps. split; simpl; [done| |].
    + intros d' Hd'. apply elem_of_app. rewrite list_elem_of_singleton. set_solver.
    + intros c. rewrite Hsum, filter_app, filter_cons_False, filter_nil, app_nil_r by set_solver.
      f_equal. f_equal. apply filter_ext_elem. intros d' Hd'. set_solver.
Qed.

(** Numeric channels stay in range (Law 17) when the merged items are
    independent: with no dependencies, [fold_rejection] returns a set [R] of
    the merged items such that applying the changes of all the others to the
    initial balances leaves every channel between 0 and the [i64] maximum. *)
Theorem fold_rejection_balances fuel init X diffs :
  (2 ≤ fuel)%nat → balances_ok init → (∀ d c, i64_range (diff_of diffs d c)) →
  ∃ R, fold_rejection fuel init X ∅ diffs = Some R ∧ R ⊆ X ∧
    ∀ c, 0 ≤ balance init c + sum_Z (λ d, diff_of diffs d c) (elements (X ∖ R)) ≤ i64_max.
Proof.
  intros Hf Hinit Hdiff.
  destruct (fold_rejection_terminates ∅ (λ _, O) 0 fuel init X diffs) as [R HR];
    [by intros x y []%edge_empty|lia|].
  exists R. split; [done|]. revert HR. unfold fold_rejection.
  pose proof (branches_no_deps X) as Hp. set (roots := merge_sort _ _) in *.
  assert (NoDup roots) as Hnd by (rewrite Hp; apply NoDup_elements).
  destruct (fold_opt _ _ roots) as [[b R']|] eqn:E; simpl; [|done]. intros [= ->].
  apply (fold_opt_inv _ (fold_ok init diffs)) in E as [Hok Hsub Hsum]; simpl in *.
  - assert (filter (λ d, d ∉ R) roots ≡ₚ elements (X ∖ R)) as Hel.
    { apply NoDup_Permutation; [by apply NoDup_filter|apply NoDup_elements|].
      intros d. rewrite list_elem_of_filter, elem_of_elements, Hp, elem_of_elements. set_solver. }
    split; [intros d Hd%Hsub; by rewrite Hp, elem_of_elements in Hd|].
    intros c. rewrite <- Hel, <- Hsum. apply Hok.
  - split; simpl; [done|set_solver|]. intros c. rewrite filter_nil. unfold sum_Z. simpl. lia.
  - intros ps d rest s s' Hroots Hs. unfold fold_root. rewrite traverse_no_deps by done.
    simpl. intros [= <-]. apply fold_ok_step; [apply Hdiff| |done].
    rewrite Hroots in Hnd. apply NoDup_app in Hnd as (_ & Hnot & _).
    intros Hin. apply (Hnot d Hin). left.
Qed.
End Independent.

(** ** Concrete runs *)
Module ConflictResolutionExample.
Definition gs (l : list Z) : gset Z := list_to_set l.
Definition gm (l : list (Z * list Z)) : gmap Z (gset Z) :=
  list_to_map ((λ '(k, v), (k, gs v)) <$> l).
Definition chm (l : list (Z * Z)) : gmap Z Z := list_to_map l.
Definition dfm (l : list (Z * list (Z * Z))) : gmap Z (gmap Z Z) :=
  list_to_map ((λ '(k, v), (k, chm v)) <$> l).

(** The unit tests of the source. *)
Example test_with_dependencies :
  with_dependencies (gs [1]) (gm [(1, [3; 9]); (3, [5]); (5, [6]); (4, [6])])
  = gs [1; 3; 9; 5; 6].
Proof. vm_decide. Qed.

Example test_partition_scope :
  partition_scope [gs [1; 2; 3; 4]; gs [4; 5; 6; 7]; gs [7; 8; 9]; gs [9; 10]]
  = [gs [1; 2; 3; 4]; gs [5; 6; 7]; gs [8; 9]; gs [10]].
Proof. vm_decide. Qed.

Example test_compute_branches :
  compute_branches (gs [1; 2; 3; 4; 5; 6; 7; 100; 101])
    (gm [(1, [4; 5]); (4, [5; 6]); (2, [4; 5; 6]); (3, [6; 7])])
  = gm [(1, [4; 5; 6]); (2, [4; 5; 6]); (3, [6; 7]); (100, []); (101, [])].
Proof. vm_decide. Qed.

Example test_rejection_options :
  compute_rejection_options (gm [(1, [2; 3; 4]); (2, [1]); (3, [1; 2]); (4, [1])])
  = {[ gs [1; 2]; gs [2; 3; 4] ]}.
Proof. vm_decide. Qed.

Example test_overflow_rejections :
  add_mergeable_overflow_rejections 10 (gs [1; 2; 3; 4; 5; 6; 7; 12])
    (gm [(1, [2]); (2, [12]); (3, [4; 12]); (4, [5])]) ∅ (chm [(0, 5)])
    (dfm [(1, [(0, -10)]); (2, [(0, -5)]); (3, [(0, 15)]); (4, [(0, 10)]); (5, [(0, -20)]);
          (6, [(0, -10)]); (7, [(0, -10)]); (12, [(0, 10)])])
  = Some {[ gs [1; 2; 12; 7] ]}.
Proof. vm_decide. Qed.

(** [compute_branches] drops indirect dependents.  On the dependency
    chain 3 <- 2 <- 1 <- 0 the deploy 0, a target and an item of the map, is
    in none of the deploy chains: folding 2 into 3 uses the dependents 2 had
    in the input, not the ones folded into it before. *)
Theorem greedy_branches_lose_deploy :
  compute_greedy_non_intersecting_branches (gs [0; 1; 2; 3])
    (gm [(1, [0]); (2, [1]); (3, [2])]) = [gs [1; 2; 3]].
Proof. vm_decide. Qed.

(** An accepted merge can overdraw a numeric channel.  Deploy 1 (+10)
    conflicts with the finally accepted deploy 9, deploy 3 spends 5 from a
    channel that holds 0.  Resolution rejects 1 and accepts 3, whose balance
    check counted the +10 of 1: the accepted items take the channel to -5. *)
Theorem merge_overdraws_channel :
  let '(cm, dm) := compute_relation_map_for_merge_set (gs [1; 3]) (gs [9])
    (λ a b, (a =? 1) && (b =? 9)) (λ _ _, false) in
  let diffs := dfm [(1, [(0, 10)]); (3, [(0, -5)])] in
  let init := chm [(0, 0)] in
  resolve_conflict_set 2 (gs [1; 3]) (gs [9]) ∅ (λ _, 1) cm dm diffs init
    = Some (gs [3], gs [1; 9]) ∧
  balance init 0 + sum_Z (λ d, diff_of diffs d 0) (elements (gs [3])) = -5.
Proof. split; [vm_decide|vm_compute; reflexivity]. Qed.

Lemma edge_gm_ok (m : gmap Z (gset Z)) (P : Z → Z → bool) :
  forallb (λ '(k, V), forallb (P k) (set_iter V)) (map_iter m) = true →
  ∀ x y, edge m x y → P x y = true.
Proof.
  rewrite forallb_elem. intros Hf x y (V & HV%elem_of_map_iter & Hy)%edge_lookup.
  specialize (Hf _ HV). simpl in Hf. rewrite forallb_elem in Hf.
  by apply Hf, elem_of_set_iter.
Qed.

Lemma balance_all (b : gmap Z Z) (P : Z → bool) c :
  P 0 = true → forallb P (map_values b) = true → P (balance b c) = true.
Proof.
  rewrite forallb_elem. intros H0 Hf. unfold balance.
  destruct (b !! c) eqn:E; [|done]. simpl. apply Hf, elem_of_map_values. eauto.
Qed.

Lemma diff_all (diffs : gmap Z (gmap Z Z)) (P : Z → bool) d c :
  P 0 = true → forallb (λ b, forallb P (map_values b)) (map_values diffs) = true →
  P (diff_of diffs d c) = true.
Proof.
  rewrite forallb_elem. intros H0 Hf. unfold diff_of.
  destruct (diffs !! d) as [b|] eqn:E; simpl.
  - apply balance_all; [done|]. apply Hf, elem_of_map_values. eauto.
  - unfold balance. by rewrite lookup_empty.
Qed.

(** Witness of [with_dependencies_reachable]. *)
Lemma with_dependencies_reachable_witness :
  ∃ x, x ∈ gs [1] ∧ reaches (gm [(1, [3]); (3, [5]); (5, [1])]) x 5.
Proof. apply with_dependencies_reachable. vm_decide. Defined.

(** Witness of [relation_map_for_merge_set_spec]. *)
Lemma relation_map_for_merge_set_spec_witness :
  let '(cm, dm) := compute_relation_map_for_merge_set (gs [1; 2]) (gs [3])
    (λ a b, (a =? 1) && (b =? 3)) (λ a b, (a =? 2) && (b =? 1)) in
  ∀ x y, edge cm x y ↔ edge cm y x.
Proof.
  pose proof (relation_map_for_merge_set_spec (gs [1; 2]) (gs [3])
    (λ a b, (a =? 1) && (b =? 3)) (λ a b, (a =? 2) && (b =? 1))) as Hs.
  destruct (compute_relation_map_for_merge_set _ _ _ _) as [cm dm].
  destruct Hs as (_ & Hsym & _). exact Hsym.
Defined.

(** Witness of [partition_scope_partitions]. *)
Lemma partition_scope_partitions_witness :
  ⋃ partition_scope [gs [1; 2]; gs [2; 3]] = ⋃ [gs [1; 2]; gs [2; 3]].
Proof. apply (partition_scope_partitions [gs [1; 2]; gs [2; 3]]). Defined.

(** Witness of [rejection_options_maximal_independent]. *)
Definition triangle : gmap Z (gset Z) := gm [(1, [2; 3]); (2, [1]); (3, [1])].
Lemma rejection_options_maximal_independent_witness :
  gs [2; 3] ∈ compute_rejection_options triangle ∧
  ∃ A, maximal_independent triangle A ∧ rejects triangle A (gs [2; 3]).
Proof.
  assert (∀ x y, edge triangle x y → bool_decide (x ∈ deps_of triangle y) &&
    negb (x =? y) = true) as He by (apply edge_gm_ok; vm_compute; reflexivity).
  assert (gs [2; 3] ∈ compute_rejection_options triangle) as Hin by vm_decide.
  split; [exact Hin|].
  apply (proj2 (rejection_options_maximal_independent triangle (gs [2; 3]))); [| |exact Hin].
  - intros x y Hxy%He. unfold edge. apply andb_true_iff in Hxy as [Hxy _].
    by apply bool_decide_eq_true in Hxy.
  - intros x Hx%He. apply andb_true_iff in Hx as [_ Hx]. by rewrite Z.eqb_refl in Hx.
Defined.

(** Witness of [optimal_rejection_unique]. *)
Lemma optimal_rejection_unique_witness :
  let O : gset (gset Z) := {[ gs [1; 2]; gs [2; 3]; gs [1] ]} in
  compute_optimal_rejection O (λ _, 1) = gs [1] ∧ compute_optimal_rejection O (λ _, 1) ∈ O.
Proof.
  split; [vm_decide|]. apply optimal_rejection_unique. vm_decide.
Defined.


(** Witness of [greedy_branches_partition]. *)
Lemma greedy_branches_partition_witness :
  ⋃ compute_greedy_non_intersecting_branches (gs [1; 2; 3; 5]) (gm [(1, [2; 3]); (2, [3])])
  = gs [1; 2; 3; 5].
Proof.
  assert (∀ x y, edge (gm [(1, [2; 3]); (2, [3])]) x y → (1 <=? x) && (x <? y) && (y <=? 3)
    = true) as He by (apply edge_gm_ok; vm_compute; reflexivity).
  destruct (greedy_branches_partition (gm [(1, [2; 3]); (2, [3])]) (gs [1; 2; 3; 5])) as [Hu _].
  - split; [intros x Hx%He; lia|]. intros x y z Hx%He Hy%He.
    assert (x = 1 ∧ z = 3) as [-> ->] by lia. unfold edge. vm_decide.
  - rewrite Hu. vm_decide.
Defined.

(** Witness of [fold_rejection_balances]. *)
Lemma fold_rejection_balances_witness :
  let diffs := dfm [(1, [(0, -5)]); (2, [(0, 3)]); (3, [(0, -1)])] in
  ∃ R, fold_rejection 2 (chm [(0, 2)]) (gs [1; 2; 3]) ∅ diffs = Some R ∧ R ⊆ gs [1; 2; 3] ∧
    ∀ c, 0 ≤ balance (chm [(0, 2)]) c +
           sum_Z (λ d, diff_of diffs d c) (elements (gs [1; 2; 3] ∖ R)) ≤ i64_max.
Proof.
  apply fold_rejection_balances; [lia| |].
  - intros c.
    pose proof (balance_all (chm [(0, 2)]) (λ v, (0 <=? v) && (v <=? i64_max)) c
      eq_refl eq_refl) as Hb. cbn beta in Hb. lia.
  - intros d c.
    pose proof (diff_all (dfm [(1, [(0, -5)]); (2, [(0, 3)]); (3, [(0, -1)])])
      (λ v, (i64_min <=? v) && (v <=? i64_max)) d c eq_refl eq_refl) as Hb.
    cbn beta in Hb. unfold i64_range. lia.
Defined.
End ConflictResolutionExample.
