(* ===== verification/RadixCodec.v ===== *)
(** * Radix tree nodes and their wire form

    [rspace/src/history/key_segment.rs] and the codec half of
    [rspace/src/history/radix_tree.rs].  A [KeySegment] is its bytes; a hash is
    a list of 32 bytes; a node is a list of 256 items.  The two parsing loops
    carry [bytes[pos..]] instead of [pos]; a read past the end, a panic in the
    source, is [None].  The hash function is not part of these sources: it
    enters only in [RadixTree]. *)

From S2P Require Import Prelude BTree Bytes.

(** ** Key segments *)
Module KeySegment.
Notation t := (list byte).

Inductive Error := TooLong (n : nat).

Definition try_from (value : list byte) : Result t Error :=
  if (length value <=? 127)%nat then Ok value else Err (TooLong (length value)).

Definition is_empty (k : t) : bool := bool_decide (k = []).
(** [value[0]] and [value[1..]]: they panic on the empty segment. *)
Definition head (k : t) : option byte := match k with [] => None | b :: _ => Some b end.
Definition tail (k : t) : option t := match k with [] => None | _ :: k' => Some k' end.
Definition concat (a b : t) : t := a ++ b.
Definition append (a : t) (b : byte) : t := a ++ [b].

(** The [while] loop advances [i] over the equal bytes. *)
Fixpoint common_prefix (a b : t) : t * t * t :=
  match a, b with
  | x :: a', y :: b' =>
      if bool_decide (x = y) then
        let '(c, ra, rb) := common_prefix a' b' in (x :: c, ra, rb)
      else ([], a, b)
  | _, _ => ([], a, b)
  end.

(** The parts put the segments back together, and the rests diverge. *)
Lemma common_prefix_spec a b c ra rb :
  common_prefix a b = (c, ra, rb) →
  a = c ++ ra ∧ b = c ++ rb ∧
  (∀ x y ra' rb', ra = x :: ra' → rb = y :: rb' → x ≠ y).
Proof.
  revert b c ra rb. induction a as [|x a IH]; intros b c ra rb; simpl.
  { intros [= <- <- <-]. done. }
  destruct b as [|y b]; [by intros [= <- <- <-]|].
  case_bool_decide as Hxy.
  - destruct (common_prefix a b) as [[c' ra'] rb'] eqn:E. intros [= <- <- <-].
    destruct (IH _ _ _ _ E) as (-> & -> & Hd). subst. done.
  - intros [= <- <- <-]. split_and!; [done..|]. naive_solver.
Qed.
End KeySegment.

(** ** Nodes *)
Module RadixNode.
Notation hash := (list byte).
Definition NUM_ITEMS : nat := 256.

Inductive Item :=
| Empty
| Leaf (prefix : KeySegment.t) (value : hash)
| NodePtr (prefix : KeySegment.t) (ptr : hash).

#[global] Instance Item_eq_dec : EqDecision Item.
Proof. solve_decision. Defined.

Notation Node := (list Item).

Definition empty_node : Node := replicate NUM_ITEMS Empty.

(** [node[b as usize]] and [node[b as usize] = item]. *)
Definition node_at (n : Node) (b : byte) : Item := nth (u8_val b) n Empty.
Definition node_set (n : Node) (b : byte) (it : Item) : Node := <[u8_val b := it]> n.

Definition encode_item (idx : nat) (it : Item) : list byte :=
  match it with
  | Empty => []
  | Leaf prefix value =>
      as_u8 idx :: as_u8 (Nat.land (length prefix) 127) :: prefix ++ value
  | NodePtr prefix ptr =>
      as_u8 idx :: as_u8 (Nat.lor 128 (Nat.land (length prefix) 127)) :: prefix ++ ptr
  end.

Definition encode (node : Node) : list byte := concat (imap encode_item node).

Inductive CodecError :=
| TruncatedHeader
| DuplicateIndex (idx : nat)
| TruncatedPrefix
| TruncatedValue.

(** One round of the validation loop on [bytes[pos..]]. *)
Definition validate_step (s : list byte * gset byte) :
    (list byte * gset byte) + Result unit CodecError :=
  let '(rest, seen) := s in
  match rest with
  | [] => inr (Ok ())
  | [_] => inr (Err TruncatedHeader)
  | idx :: second :: rest' =>
      if bool_decide (idx ∈ seen) then inr (Err (DuplicateIndex (u8_val idx)))
      else
        let prefix_size := Nat.land (u8_val second) 127 in
        if (length rest' <? prefix_size)%nat then inr (Err TruncatedPrefix)
        else if (length rest' <? prefix_size + 32)%nat then inr (Err TruncatedValue)
        else inl (drop (prefix_size + 32) rest', seen ∪ {[idx]})
  end.

(** Every round consumes at least 34 bytes. *)
Definition SerializedNode_try_from (bytes : list byte) : Result (list byte) CodecError :=
  match run_loop (Err TruncatedHeader) validate_step (S (length bytes)) (bytes, ∅) with
  | Ok () => Ok bytes
  | Err e => Err e
  end.

(** [&bytes[a..b]]. *)
Definition slice (a b : nat) (l : list byte) : option (list byte) :=
  if (a <=? b)%nat && (b <=? length l)%nat then Some (take (b - a) (drop a l)) else None.

(** One round of the decoding loop; [inr None] is an out-of-range panic. *)
Definition decode_step (s : list byte * Node) : (list byte * Node) + option Node :=
  let '(rest, result) := s in
  match rest with
  | [] => inr (Some result)
  | [_] => inr None
  | idx :: second :: rest' =>
      let prefix_size := Nat.land (u8_val second) 127 in
      match slice 0 prefix_size rest', slice prefix_size (prefix_size + 32) rest' with
      | Some prefix, Some val =>
          let item :=
            if (Nat.land (u8_val second) 128 =? 0)%nat then Leaf prefix val
            else NodePtr prefix val in
          inl (drop (prefix_size + 32) rest', node_set result idx item)
      | _, _ => inr None
      end
  end.

Definition decode (bytes : list byte) : option Node :=
  run_loop None decode_step (S (length bytes)) (bytes, empty_node).

(** ** Round trip *)
Definition item_wf (it : Item) : Prop :=
  match it with
  | Empty => True
  | Leaf p v | NodePtr p v => (length p ≤ 127)%nat ∧ length v = 32%nat
  end.

Definition node_wf (n : Node) : Prop := length n = NUM_ITEMS ∧ Forall item_wf n.

(** The second byte of a record, checked on all prefix sizes. *)
Lemma second_byte_forallb (P : nat → bool) :
  forallb P (seq 0 128) = true → ∀ n, (n ≤ 127)%nat → P n = true.
Proof.
  rewrite forallb_elem. intros HP n Hn. apply HP, elem_of_seq. lia.
Qed.

Lemma second_byte_leaf n :
  (n ≤ 127)%nat →
  let b := u8_val (as_u8 (Nat.land n 127)) in Nat.land b 127 = n ∧ Nat.land b 128 = 0%nat.
Proof.
  intros Hn. pose proof (second_byte_forallb (λ n,
    let b := u8_val (as_u8 (Nat.land n 127)) in
    (Nat.land b 127 =? n)%nat && (Nat.land b 128 =? 0)%nat) ltac:(vm_compute; reflexivity) n Hn) as Hb.
  apply andb_true_iff in Hb as [?%Nat.eqb_eq ?%Nat.eqb_eq]. done.
Qed.

Lemma second_byte_ptr n :
  (n ≤ 127)%nat →
  let b := u8_val (as_u8 (Nat.lor 128 (Nat.land n 127))) in
  Nat.land b 127 = n ∧ Nat.land b 128 ≠ 0%nat.
Proof.
  intros Hn. pose proof (second_byte_forallb (λ n,
    let b := u8_val (as_u8 (Nat.lor 128 (Nat.land n 127))) in
    (Nat.land b 127 =? n)%nat && negb (Nat.land b 128 =? 0)%nat)
    ltac:(vm_compute; reflexivity) n Hn) as Hb.
  apply andb_true_iff in Hb as [?%Nat.eqb_eq Hb]. split; [done|].
  intros E. cbn zeta in Hb. by rewrite E in Hb.
Qed.

Lemma slice_prefix (p v r : list byte) : slice 0 (length p) (p ++ v ++ r) = Some p.
Proof.
  unfold slice. rewrite !length_app, drop_0, Nat.sub_0_r, take_app_length.
  destruct (Nat.leb_spec (length p) (length p + (length v + length r))); [done|lia].
Qed.

Lemma slice_value (p v r : list byte) :
  length v = 32%nat → slice (length p) (length p + 32) (p ++ v ++ r) = Some v.
Proof.
  intros Hv. unfold slice. rewrite !length_app, drop_app_length.
  replace (length p + 32 - length p)%nat with (length v) by lia. rewrite take_app_length.
  destruct (Nat.leb_spec (length p) (length p + 32)); [|lia].
  destruct (Nat.leb_spec (length p + 32) (length p + (length v + length r))); [done|lia].
Qed.

Lemma drop_record (p v r : list byte) :
  length v = 32%nat → drop (length p + 32) (p ++ v ++ r) = r.
Proof.
  intros Hv. rewrite app_assoc. replace (length p + 32)%nat with (length (p ++ v)).
  - apply drop_app_length.
  - rewrite length_app. lia.
Qed.

Lemma decode_step_item i it rest acc :
  it ≠ Empty → item_wf it →
  decode_step (encode_item i it ++ rest, acc) = inl (rest, node_set acc (as_u8 i) it).
Proof.
  intros Hne Hwf. destruct it as [|p v|p v]; [done|..]; destruct Hwf as [Hp Hv];
    cbn [encode_item]; rewrite <- !app_comm_cons, <- app_assoc; unfold decode_step.
  - destruct (second_byte_leaf (length p) Hp) as [-> E]. rewrite slice_prefix, slice_value by done.
    rewrite drop_record, E by done. done.
  - destruct (second_byte_ptr (length p) Hp) as [-> E]. rewrite slice_prefix, slice_value by done.
    rewrite drop_record by done. by apply Nat.eqb_neq in E as ->.
Qed.

Lemma validate_step_item i it rest seen :
  it ≠ Empty → item_wf it → as_u8 i ∉ seen →
  validate_step (encode_item i it ++ rest, seen) = inl (rest, seen ∪ {[as_u8 i]}).
Proof.
  intros Hne Hwf Hs. destruct it as [|p v|p v]; [done|..]; destruct Hwf as [Hp Hv];
    cbn [encode_item]; rewrite <- !app_comm_cons, <- app_assoc; unfold validate_step;
    rewrite bool_decide_false by done.
  - destruct (second_byte_leaf (length p) Hp) as [-> _].
    rewrite drop_record by done. rewrite !length_app.
    destruct (Nat.ltb_spec (length p + (length v + length rest)) (length p)); [lia|].
    by destruct (Nat.ltb_spec (length p + (length v + length rest)) (length p + 32)); [lia|].
  - destruct (second_byte_ptr (length p) Hp) as [-> _].
    rewrite drop_record by done. rewrite !length_app.
    destruct (Nat.ltb_spec (length p + (length v + length rest)) (length p)); [lia|].
    by destruct (Nat.ltb_spec (length p + (length v + length rest)) (length p + 32)); [lia|].
Qed.

(** The records of the items from index [i] on. *)
Definition encode_from (i : nat) (l : list Item) : list byte :=
  concat (imap (λ k, encode_item (i + k)) l).

Lemma encode_from_cons i it l :
  encode_from i (it :: l) = encode_item i it ++ encode_from (S i) l.
Proof.
  unfold encode_from. rewrite imap_cons. simpl. rewrite Nat.add_0_r. do 2 f_equal.
  apply imap_ext. intros k x _. simpl. by rewrite Nat.add_succ_r.
Qed.

Lemma encode_item_nonempty i it : it ≠ Empty → (2 ≤ length (encode_item i it))%nat.
Proof. destruct it; simpl; [done|lia|lia]. Qed.

Lemma node_set_middle pre rest it old i :
  length pre = i → (i < 256)%nat →
  node_set (pre ++ old :: rest) (as_u8 i) it = pre ++ it :: rest.
Proof.
  intros <- Hi. unfold node_set. rewrite u8_val_as by done.
  etrans; [apply insert_app_r_alt; lia|]. by rewrite Nat.sub_diag.
Qed.

Lemma decode_loop l pre fuel :
  (length pre + length l ≤ 256)%nat → Forall item_wf l →
  (length (encode_from (length pre) l) < fuel)%nat →
  loop decode_step fuel (encode_from (length pre) l, pre ++ replicate (length l) Empty)
  = Some (Some (pre ++ l)).
Proof.
  revert pre fuel. induction l as [|it l IH]; intros pre fuel Hlen Hwf Hf.
  { destruct fuel; [simpl in Hf; lia|]. simpl. by rewrite app_nil_r. }
  apply Forall_cons in Hwf as [Hit Hwf]. rewrite encode_from_cons in *.
  assert (pre ++ it :: l = (pre ++ [it]) ++ l) as -> by by rewrite <- app_assoc.
  assert (S (length pre) = length (pre ++ [it])) as Epre by (rewrite length_app; simpl; lia).
  cbn [length replicate] in *. destruct (decide (it = Empty)) as [->|Hne].
  - cbn [encode_item] in *. rewrite app_nil_l in *.
    replace (pre ++ Empty :: replicate (length l) Empty)
      with ((pre ++ [Empty]) ++ replicate (length l) Empty) by by rewrite <- app_assoc.
    rewrite Epre in *. apply IH; [lia|done|done].
  - destruct fuel as [|fuel]; [lia|]. cbn [loop].
    rewrite decode_step_item, node_set_middle by (done || lia).
    replace (pre ++ it :: replicate (length l) Empty)
      with ((pre ++ [it]) ++ replicate (length l) Empty) by by rewrite <- app_assoc.
    pose proof (encode_item_nonempty (length pre) it Hne). rewrite length_app in Hf.
    rewrite Epre in *. apply IH; [lia|done|lia].
Qed.

Lemma encode_encode_from n : encode n = encode_from 0 n.
Proof. done. Qed.

Lemma decode_encode_node n : node_wf n → decode (encode n) = Some n.
Proof.
  intros [Hlen Hwf]. unfold decode, run_loop. rewrite encode_encode_from.
  change empty_node with ([] ++ replicate NUM_ITEMS Empty). rewrite <- Hlen.
  rewrite (decode_loop n []); [done| |done|simpl; lia]. simpl. rewrite Hlen. unfold NUM_ITEMS. lia.
Qed.

Lemma validate_loop l i seen fuel :
  (i + length l ≤ 256)%nat → Forall item_wf l →
  (∀ b, b ∈ seen → (u8_val b < i)%nat) →
  (length (encode_from i l) < fuel)%nat →
  loop validate_step fuel (encode_from i l, seen) = Some (Ok ()).
Proof.
  revert i seen fuel. induction l as [|it l IH]; intros i seen fuel Hlen Hwf Hs Hf.
  { destruct fuel; [simpl in Hf; lia|done]. }
  apply Forall_cons in Hwf as [Hit Hwf]. rewrite encode_from_cons in *. simpl in Hlen.
  destruct (decide (it = Empty)) as [->|Hne].
  - apply IH; [lia|done| |done]. intros b Hb%Hs. lia.
  - destruct fuel as [|fuel]; [lia|]. cbn [loop].
    rewrite validate_step_item; [|done|done|].
    + pose proof (encode_item_nonempty i it Hne). rewrite length_app in Hf.
      apply IH; [lia|done| |lia].
      intros b [?%Hs| ->%elem_of_singleton]%elem_of_union; [lia|]. rewrite u8_val_as; lia.
    + intros Hin%Hs. rewrite u8_val_as in Hin; lia.
Qed.

Lemma try_from_encode n : node_wf n → SerializedNode_try_from (encode n) = Ok (encode n).
Proof.
  intros [Hlen Hwf]. unfold SerializedNode_try_from, run_loop. rewrite encode_encode_from.
  rewrite (validate_loop n 0 ∅); [done| |done|set_solver|lia].
  rewrite Hlen. unfold NUM_ITEMS. lia.
Qed.

Lemma encode_inj n n' : node_wf n → node_wf n' → encode n = encode n' → n = n'.
Proof. intros Hn%decode_encode_node Hn'%decode_encode_node E. rewrite E in Hn. congruence. Qed.

(** ** Validated bytes *)

Lemma validate_terminates bytes seen fuel :
  (length bytes < fuel)%nat → is_Some (loop validate_step fuel (bytes, seen)).
Proof.
  intros Hf. apply (loop_terminates validate_step (λ _, True) (λ s, length s.1)); [|done|done].
  intros [rest seen'] s' _. simpl. destruct rest as [|idx [|second rest]]; [done|done|].
  case_bool_decide; [done|]. destruct (_ <? _)%nat; [done|]. destruct (_ <? _)%nat; [done|].
  intros [= <-]. split; [done|]. simpl. rewrite length_drop. lia.
Qed.

Lemma land_127_bound n : (Nat.land n 127 ≤ 127)%nat.
Proof.
  change 127%nat with (Nat.ones 7). rewrite Nat.land_ones.
  pose proof (Nat.mod_upper_bound n (2 ^ 7) ltac:(done)) as Hm.
  change (2 ^ 7)%nat with 128%nat in *. change (Nat.ones 7) with 127%nat. lia.
Qed.

Lemma node_set_wf n b it : node_wf n → item_wf it → node_wf (node_set n b it).
Proof.
  intros [Hl Hw] Hit. unfold node_set. split; [by rewrite length_insert|].
  by apply Forall_insert.
Qed.

Lemma empty_node_wf : node_wf empty_node.
Proof. split; [apply length_replicate|]. by apply Forall_replicate. Qed.

(** A round that passes validation decodes a well-formed item. *)
Lemma decode_step_validated rest seen s' acc :
  validate_step (rest, seen) = inl s' → node_wf acc →
  ∃ acc', decode_step (rest, acc) = inl (s'.1, acc') ∧ node_wf acc'.
Proof.
  unfold validate_step, decode_step. destruct rest as [|idx [|second rest]]; [done|done|].
  case_bool_decide; [done|]. set (ps := Nat.land (u8_val second) 127).
  destruct (Nat.ltb_spec (length rest) ps); [done|].
  destruct (Nat.ltb_spec (length rest) (ps + 32)); [done|]. intros [= <-] Hacc. simpl.
  unfold slice. rewrite (proj2 (Nat.leb_le ps (length rest))) by lia.
  rewrite (proj2 (Nat.leb_le ps (ps + 32))), (proj2 (Nat.leb_le (ps + 32) (length rest))) by lia.
  simpl. eexists. split; [done|]. apply node_set_wf; [done|].
  assert (length (take (ps - 0) (drop 0 rest)) ≤ 127)%nat.
  { rewrite length_take. pose proof (land_127_bound (u8_val second)). unfold ps in *. lia. }
  assert (length (take (ps + 32 - ps) (drop ps rest)) = 32%nat).
  { rewrite length_take, length_drop. lia. }
  by destruct (_ =? 0)%nat.
Qed.

Lemma decode_loop_validated fuel rest seen acc :
  loop validate_step fuel (rest, seen) = Some (Ok ()) → node_wf acc →
  ∃ n, loop decode_step fuel (rest, acc) = Some (Some n) ∧ node_wf n.
Proof.
  revert rest seen acc. induction fuel as [|fuel IH]; intros rest seen acc; [done|].
  cbn [loop]. destruct (validate_step (rest, seen)) as [[rest' seen']|r] eqn:E.
  - intros Hv Hacc. destruct (decode_step_validated _ _ _ _ E Hacc) as (acc' & -> & Hacc').
    by apply (IH rest' seen').
  - intros [= ->] Hacc. unfold validate_step in E. destruct rest as [|idx [|second rest]].
    + simpl. eauto.
    + done.
    + case_bool_decide; [done|]. destruct (_ <? _)%nat; [done|]. by destruct (_ <? _)%nat.
Qed.
End RadixNode.
Import RadixNode.

(** ** Properties *)

(** Node codec round trip.  The bytes of a well-formed node (256 slots,
    prefixes of at most 127 bytes, 32-byte hashes) pass validation and decode
    to that node. *)
Theorem node_codec_roundtrip (n : Node) :
  node_wf n →
  SerializedNode_try_from (encode n) = Ok (encode n) ∧ decode (encode n) = Some n.
Proof. intros Hn. split; [by apply try_from_encode|by apply decode_encode_node]. Qed.

(** Decoding is total on validated bytes.  Validation ends on every byte
    string, and on the byte strings it accepts decoding reads nothing past the
    end and gives a well-formed node. *)
Theorem decode_total_on_validated (bytes : list byte) :
  is_Some (loop validate_step (S (length bytes)) (bytes, ∅)) ∧
  ∀ b, SerializedNode_try_from bytes = Ok b →
    b = bytes ∧ ∃ n, decode b = Some n ∧ node_wf n.
Proof.
  split; [apply validate_terminates; lia|]. intros b.
  unfold SerializedNode_try_from, run_loop.
  destruct (loop validate_step _ _) as [[[]|e]|] eqn:E; simpl; [|done|done].
  intros [= <-]. split; [done|]. unfold decode, run_loop.
  destruct (decode_loop_validated _ _ _ empty_node E empty_node_wf) as (n & -> & Hn). eauto.
Qed.

(** ** Concrete node *)
Module RadixCodecExample.
Definition h32 (b : byte) : list byte := replicate 32 b.
Definition node1 : Node :=
  node_set (node_set empty_node x01 (Leaf [x02; x03] (h32 x07))) xff (NodePtr [] (h32 x08)).

Lemma node_codec_roundtrip_witness :
  SerializedNode_try_from (encode node1) = Ok (encode node1) ∧ decode (encode node1) = Some node1.
Proof.
  apply node_codec_roundtrip.
  apply node_set_wf; [apply node_set_wf; [apply empty_node_wf|]|]; simpl; split; done || lia.
Defined.

Example rejects_duplicate_index :
  SerializedNode_try_from (encode node1 ++ encode node1) = Err (DuplicateIndex 1).
Proof. vm_compute. reflexivity. Qed.
End RadixCodecExample.
