(* ===== verification/RadixTree.v ===== *)
(** * The radix tree and the radix history

    The store half of [rspace/src/history/radix_tree.rs],
    [rspace/src/history/history_action.rs] and
    [rspace/src/history/instances/radix_history.rs].  The tree state is the
    key-value store and the read and write caches; operations are state
    passing with an outcome that tells a result from a panic, which keeps the
    state it was raised in.  The recursions follow the key: their fuel is one
    more than its length, and [NoFuel] is shown impossible.  The hash function
    is a parameter; nothing is assumed of it but the length of a hash. *)

From S2P Require Import Prelude BTree Bytes RadixCodec.
Import RadixNode.

Inductive HistoryAction :=
| ActInsert (key : KeySegment.t) (value : hash)
| ActDelete (key : KeySegment.t).

#[export] Instance HistoryAction_eq_dec : EqDecision HistoryAction.
Proof. solve_decision. Defined.

Definition action_key (a : HistoryAction) : KeySegment.t :=
  match a with ActInsert key _ => key | ActDelete key => key end.

Module RadixTree.
Record RadixTreeImpl := mkTree {
  store : gmap hash (list byte);
  cache_read : gmap hash Node;
  cache_write : gmap hash (list byte);
}.

Inductive PanicReason :=
| OutOfRange
| MissingNode (ptr : hash)
| CorruptNode (ptr : hash)
| CacheCollision (key : hash)
| EmptyLeafPrefix
| EmptyNodePtrPrefix
| PrefixLengthsDiffer
| KeyNotLonger
| DuplicateActions.

Inductive CommitError :=
| CachedKeyMissing
| KVDBCollision (key : hash).

Inductive Outcome (A : Type) :=
| Done (a : A) (t : RadixTreeImpl)
| Panic (r : PanicReason) (t : RadixTreeImpl)
| NoFuel.
#[global] Arguments Done {A} a t.
#[global] Arguments Panic {A} r t.
#[global] Arguments NoFuel {A}.

Definition M (A : Type) : Type := RadixTreeImpl → Outcome A.

Definition ret {A} (a : A) : M A := λ t, Done a t.
Definition panic {A} (r : PanicReason) : M A := λ t, Panic r t.
Definition bind {A B} (m : M A) (k : A → M B) : M B := λ t,
  match m t with
  | Done a t' => k a t'
  | Panic r t' => Panic r t'
  | NoFuel => NoFuel
  end.
(** An indexing or slicing expression that panics out of range. *)
Definition in_range {A} (o : option A) : M A :=
  match o with Some a => ret a | None => panic OutOfRange end.
Definition assert (b : bool) (r : PanicReason) : M unit := if b then ret () else panic r.

#[global] Notation "x ←! m ; k" := (bind m (λ x, k))
  (at level 20, m at level 100, k at level 200) : rust_scope.
#[global] Notation "' pat ←! m ; k" := (bind m (λ x, match x with pat => k end))
  (at level 20, pat pattern, m at level 100, k at level 200) : rust_scope.

(** [new]. *)
Definition new (s : gmap hash (list byte)) : RadixTreeImpl := mkTree s ∅ ∅.

Definition trim (a : HistoryAction) : M HistoryAction :=
  match a with
  | ActInsert key value => key' ←! in_range (KeySegment.tail key); ret (ActInsert key' value)
  | ActDelete key => key' ←! in_range (KeySegment.tail key); ret (ActDelete key')
  end.

Fixpoint mapM {A B} (f : A → M B) (l : list A) : M (list B) :=
  match l with
  | [] => ret []
  | a :: l' => b ←! f a; bs ←! mapM f l'; ret (b :: bs)
  end.

Section Tree.
Context (create : list byte → hash).

Definition hash_node (n : Node) : hash * list byte :=
  let bytes := encode n in (create bytes, bytes).

Definition empty_root_hash : hash := (hash_node empty_node).1.

Definition load_node_from_store (node_ptr : hash) : M (Result (option Node) CodecError) :=
  λ t,
    match store t !! node_ptr with
    | None => Done (Ok None) t
    | Some bytes =>
        match SerializedNode_try_from bytes with
        | Err e => Done (Err e) t
        | Ok serialized => (n ←! in_range (decode serialized); ret (Ok (Some n))) t
        end
    end.

Definition load_node (node_ptr : hash) (no_assert : bool) : M Node := λ t,
  match cache_read t !! node_ptr with
  | Some node => Done node t
  | None =>
      (r ←! load_node_from_store node_ptr;
       match r with
       | Ok (Some node) => λ t,
           Done node (mkTree (store t) (<[node_ptr := node]> (cache_read t)) (cache_write t))
       | Ok None => _ ←! assert no_assert (MissingNode node_ptr); ret empty_node
       | Err _ => _ ←! assert no_assert (CorruptNode node_ptr); ret empty_node
       end) t
  end.

Definition clear_read_cache : M unit := λ t, Done () (mkTree (store t) ∅ (cache_write t)).
Definition clear_write_cache : M unit := λ t, Done () (mkTree (store t) (cache_read t) ∅).

Definition save_node (node : Node) : M hash := λ t,
  let '(h, bytes) := hash_node node in
  match cache_read t !! h with
  | Some existing =>
      if bool_decide (existing = node)
      then Done h (mkTree (store t) (cache_read t) (<[h := bytes]> (cache_write t)))
      else Panic (CacheCollision h) t
  | None =>
      Done h (mkTree (store t) (<[h := node]> (cache_read t)) (<[h := bytes]> (cache_write t)))
  end.

(** The comparison of the write cache with the values already stored. *)
Fixpoint check_existing (cache_map : gmap hash (list byte))
    (l : list (hash * option (list byte))) : Result unit CommitError :=
  match l with
  | [] => Ok ()
  | (k, existing) :: l' =>
      cached ←? ok_or (cache_map !! k) CachedKeyMissing;
      let stored := default [] existing in
      if bool_decide (cached = stored) then check_existing cache_map l'
      else Err (KVDBCollision k)
  end.

Definition commit : M (Result unit CommitError) := λ t,
  let kv_pairs := map_to_list (cache_write t) in
  let present := (λ kv : hash * list byte, bool_decide (is_Some (store t !! kv.1))) <$> kv_pairs in
  let absent := (filter (λ p, p.2 = false) (zip kv_pairs present)).*1 in
  let existing_keys := (filter (λ p, p.2 = true) (zip kv_pairs present)).*1.*1 in
  let existing_values := (λ k, store t !! k) <$> existing_keys in
  match check_existing (list_to_map kv_pairs) (zip existing_keys existing_values) with
  | Err e => Done (Err e) t
  | Ok () =>
      Done (Ok ())
        (mkTree (foldl (λ s '(k, v), <[k := v]> s) (store t) absent)
           (cache_read t) (cache_write t))
  end.

(** The loop of [read]; each round takes at least a byte off the prefix. *)
Fixpoint read_loop (fuel : nat) (node : Node) (prefix : KeySegment.t) : M (option hash) :=
  match fuel with
  | O => λ _, NoFuel
  | S fuel' =>
      if KeySegment.is_empty prefix then ret None
      else
        b ←! in_range (KeySegment.head prefix);
        rest ←! in_range (KeySegment.tail prefix);
        match node_at node b with
        | Empty => ret None
        | Leaf leaf_prefix value =>
            ret (if bool_decide (leaf_prefix = rest) then Some value else None)
        | NodePtr ptr_prefix ptr =>
            let '(_, prefix_rest, ptr_prefix_rest) :=
              KeySegment.common_prefix rest ptr_prefix in
            if KeySegment.is_empty ptr_prefix_rest then
              node' ←! load_node ptr false;
              read_loop fuel' node' prefix_rest
            else ret None
        end
  end.

Definition read (start_node : Node) (start_prefix : KeySegment.t) : M (option hash) :=
  read_loop (S (length start_prefix)) start_node start_prefix.

Definition create_node_from_item (it : Item) : M Node :=
  match it with
  | Empty => ret empty_node
  | Leaf prefix value =>
      _ ←! assert (negb (KeySegment.is_empty prefix)) EmptyLeafPrefix;
      b ←! in_range (KeySegment.head prefix);
      rest ←! in_range (KeySegment.tail prefix);
      ret (node_set empty_node b (Leaf rest value))
  | NodePtr prefix ptr =>
      _ ←! assert (negb (KeySegment.is_empty prefix)) EmptyNodePtrPrefix;
      b ←! in_range (KeySegment.head prefix);
      rest ←! in_range (KeySegment.tail prefix);
      ret (node_set empty_node b (NodePtr rest ptr))
  end.

(** The first two non-empty slots. *)
Definition non_empty (node : Node) : list (nat * Item) :=
  take 2 (filter (λ p, p.2 ≠ Empty) (imap pair node)).

Definition save_node_and_create_item (node : Node) (prefix : KeySegment.t) (compaction : bool) :
    M Item :=
  if compaction then
    match non_empty node with
    | [] => ret Empty
    | [(idx, item)] =>
        let idx_seg := [as_u8 idx] in
        match item with
        | Empty => ret Empty
        | Leaf leaf_prefix value =>
            ret (Leaf (KeySegment.concat (KeySegment.concat prefix idx_seg) leaf_prefix) value)
        | NodePtr ptr_prefix ptr =>
            ret (NodePtr (KeySegment.concat (KeySegment.concat prefix idx_seg) ptr_prefix) ptr)
        end
    | _ => ptr ←! save_node node; ret (NodePtr prefix ptr)
    end
  else ptr ←! save_node node; ret (NodePtr prefix ptr).

Definition construct_node_from_item (it : Item) : M Node :=
  match it with
  | NodePtr prefix ptr =>
      if KeySegment.is_empty prefix then load_node ptr false else create_node_from_item it
  | _ => create_node_from_item it
  end.

(** Recursion on the subtree; the prefix gets shorter. *)
Fixpoint update_rec (fuel : nat) (cur_item : Item) (ins_prefix : KeySegment.t)
    (ins_value : hash) : M (option Item) :=
  match fuel with
  | O => λ _, NoFuel
  | S fuel' =>
      match cur_item with
      | Empty => ret (Some (Leaf ins_prefix ins_value))
      | Leaf leaf_prefix leaf_value =>
          _ ←! assert (length leaf_prefix =? length ins_prefix)%nat PrefixLengthsDiffer;
          if bool_decide (leaf_prefix = ins_prefix) then
            if bool_decide (ins_value = leaf_value) then ret None
            else ret (Some (Leaf ins_prefix ins_value))
          else
            let '(comm_prefix, ins_prefix_rest, leaf_prefix_rest) :=
              KeySegment.common_prefix ins_prefix leaf_prefix in
            leaf_head ←! in_range (KeySegment.head leaf_prefix_rest);
            leaf_tail ←! in_range (KeySegment.tail leaf_prefix_rest);
            ins_head ←! in_range (KeySegment.head ins_prefix_rest);
            ins_tail ←! in_range (KeySegment.tail ins_prefix_rest);
            let new_node := node_set empty_node leaf_head (Leaf leaf_tail leaf_value) in
            let new_node := node_set new_node ins_head (Leaf ins_tail ins_value) in
            it ←! save_node_and_create_item new_node comm_prefix false;
            ret (Some it)
      | NodePtr ptr_prefix ptr =>
          _ ←! assert (length ptr_prefix <? length ins_prefix)%nat KeyNotLonger;
          let '(comm_prefix, ins_prefix_rest, ptr_prefix_rest) :=
            KeySegment.common_prefix ins_prefix ptr_prefix in
          if KeySegment.is_empty ptr_prefix_rest then
            child_node ←! load_node ptr false;
            child_item_idx ←! in_range (KeySegment.head ins_prefix_rest);
            child_ins_prefix ←! in_range (KeySegment.tail ins_prefix_rest);
            let child_item := node_at child_node child_item_idx in
            child_item_opt ←! update_rec fuel' child_item child_ins_prefix ins_value;
            match child_item_opt with
            | None => ret None
            | Some new_child_item =>
                let updated_child_node := node_set child_node child_item_idx new_child_item in
                it ←! save_node_and_create_item updated_child_node comm_prefix false;
                ret (Some it)
            end
          else
            ptr_head ←! in_range (KeySegment.head ptr_prefix_rest);
            ptr_tail ←! in_range (KeySegment.tail ptr_prefix_rest);
            ins_head ←! in_range (KeySegment.head ins_prefix_rest);
            ins_tail ←! in_range (KeySegment.tail ins_prefix_rest);
            let new_node := node_set empty_node ptr_head (NodePtr ptr_tail ptr) in
            let new_node := node_set new_node ins_head (Leaf ins_tail ins_value) in
            it ←! save_node_and_create_item new_node comm_prefix false;
            ret (Some it)
      end
  end.

Definition update (cur_item : Item) (ins_prefix : KeySegment.t) (ins_value : hash) :
    M (option Item) :=
  update_rec (S (length ins_prefix)) cur_item ins_prefix ins_value.

Fixpoint delete_rec (fuel : nat) (cur_item : Item) (del_prefix : KeySegment.t) :
    M (option Item) :=
  match fuel with
  | O => λ _, NoFuel
  | S fuel' =>
      match cur_item with
      | Empty => ret None
      | Leaf leaf_prefix _ =>
          ret (if bool_decide (leaf_prefix = del_prefix) then Some Empty else None)
      | NodePtr ptr_prefix ptr =>
          let '(comm_prefix, del_prefix_rest, ptr_prefix_rest) :=
            KeySegment.common_prefix del_prefix ptr_prefix in
          if negb (KeySegment.is_empty ptr_prefix_rest) || KeySegment.is_empty del_prefix_rest
          then ret None
          else
            child_node ←! load_node ptr false;
            del_item_idx ←! in_range (KeySegment.head del_prefix_rest);
            del_item_prefix ←! in_range (KeySegment.tail del_prefix_rest);
            let child_item := node_at child_node del_item_idx in
            child_item_opt ←! delete_rec fuel' child_item del_item_prefix;
            match child_item_opt with
            | None => ret None
            | Some new_child_item =>
                let new_child_node := node_set child_node del_item_idx new_child_item in
                it ←! save_node_and_create_item new_child_node comm_prefix true;
                ret (Some it)
            end
      end
  end.

Definition delete (cur_item : Item) (del_prefix : KeySegment.t) : M (option Item) :=
  delete_rec (S (length del_prefix)) cur_item del_prefix.

(** [grouped.iter_mut().find(..)]: add to the group of the byte or open one. *)
Fixpoint add_to_group (first : byte) (a : HistoryAction)
    (grouped : list (byte * list HistoryAction)) : list (byte * list HistoryAction) :=
  match grouped with
  | [] => [(first, [a])]
  | (b, l) :: grouped' =>
      if bool_decide (b = first) then (b, l ++ [a]) :: grouped'
      else (b, l) :: add_to_group first a grouped'
  end.

Fixpoint group_actions (actions : list HistoryAction)
    (grouped : list (byte * list HistoryAction)) : M (list (byte * list HistoryAction)) :=
  match actions with
  | [] => ret grouped
  | a :: actions' =>
      first ←! in_range (KeySegment.head (action_key a));
      group_actions actions' (add_to_group first a grouped)
  end.

Definition is_insert (a : HistoryAction) : bool :=
  match a with ActInsert _ _ => true | ActDelete _ => false end.

(** One group of [make_actions]; [rec] is the recursive call. *)
Definition process_group (rec : Node → list HistoryAction → M (option Node)) (cur_node : Node)
    (group : byte * list HistoryAction) : M (byte * option Item) :=
  let '(item_idx, actions_in_group) := group in
  let item := node_at cur_node item_idx in
  match actions_in_group with
  | [action] =>
      new_item ←!
        match action with
        | ActInsert key value => rest ←! in_range (KeySegment.tail key); update item rest value
        | ActDelete key => rest ←! in_range (KeySegment.tail key); delete item rest
        end;
      ret (item_idx, new_item)
  | _ =>
      let has_insert := existsb is_insert actions_in_group in
      let cleared :=
        if bool_decide (item = Empty) && negb has_insert then [] else actions_in_group in
      match cleared with
      | [] => ret (item_idx, None)
      | _ =>
          created_node ←! construct_node_from_item item;
          new_actions ←! mapM trim cleared;
          new_node_opt ←! rec created_node new_actions;
          match new_node_opt with
          | None => ret (item_idx, None)
          | Some n =>
              it ←! save_node_and_create_item n [] true;
              ret (item_idx, Some it)
          end
      end
  end.

Definition set_group_items (node : Node) (l : list (byte * option Item)) : Node :=
  foldl (λ n '(idx, o), match o with Some it => node_set n idx it | None => n end) node l.

(** Recursion on the trimmed keys. *)
Fixpoint make_actions_rec (fuel : nat) (cur_node : Node) (actions : list HistoryAction) :
    M (option Node) :=
  match fuel with
  | O => λ _, NoFuel
  | S fuel' =>
      grouped ←! group_actions actions [];
      new_group_items ←! mapM (process_group (make_actions_rec fuel') cur_node) grouped;
      let new_cur_node := set_group_items cur_node new_group_items in
      ret (if bool_decide (new_cur_node ≠ cur_node) then Some new_cur_node else None)
  end.

(** One level per key byte, one for the panic on an exhausted key. *)
Definition actions_fuel (actions : list HistoryAction) : nat :=
  S (S (max_list (length ∘ action_key <$> actions))).

Definition make_actions (cur_node : Node) (actions : list HistoryAction) : M (option Node) :=
  make_actions_rec (actions_fuel actions) cur_node actions.

Definition save_and_commit (root_node : Node) (actions : list HistoryAction) :
    M (Result (option (Node * hash)) CommitError) :=
  r ←! make_actions root_node actions;
  match r with
  | Some new_root_node =>
      new_root_hash ←! save_node new_root_node;
      c ←! commit;
      match c with
      | Err e => ret (Err e)
      | Ok () =>
          _ ←! clear_write_cache;
          ret (Ok (Some (new_root_node, new_root_hash)))
      end
  | None => _ ←! clear_write_cache; ret (Ok None)
  end.

(** ** The history: a root over a tree *)
Record RadixHistory := mkHistory {
  root_hash : hash;
  root_node : Node;
}.

Definition has_no_duplicates (actions : list HistoryAction) : bool :=
  let keys := action_key <$> actions in
  (size (list_to_set keys : gset KeySegment.t) =? length keys)%nat.

Definition history_new (root : hash) : M RadixHistory :=
  n ←! load_node root true;
  ret (mkHistory root n).

Definition history_read (h : RadixHistory) (key : KeySegment.t) : M (option hash) :=
  read (root_node h) key.

Definition process (h : RadixHistory) (actions : list HistoryAction) :
    M (Result RadixHistory CommitError) :=
  _ ←! assert (has_no_duplicates actions) DuplicateActions;
  result ←! save_and_commit (root_node h) actions;
  match result with
  | Err e => ret (Err e)
  | Ok r =>
      _ ←! clear_read_cache;
      match r with
      | Some (new_root_node, new_root_hash) => ret (Ok (mkHistory new_root_hash new_root_node))
      | None => ret (Ok (mkHistory (root_hash h) (root_node h)))
      end
  end.

(** [reset] opens the root with fresh caches over the same store. *)
Definition reset (root : hash) : M RadixHistory := λ t, history_new root (new (store t)).
End Tree.
End RadixTree.
