(* ===== verification/RadixTreeSpec.v ===== *)
(** * Correctness of the radix history

    A history is a finite map from keys of one length to hashes.  [rep] relates
    an item of the tree to the map it stores, [node_rep] a node; both also say
    that the tree is in canonical form (a pointer leads to a node with at least
    two occupied slots).  The store is content addressed, so a hash collision
    could replace a node; the code detects collisions when it saves and when it
    commits, and the proofs carry that through the predicate [clean]: no node
    of the write cache collides with a stored one. *)

From S2P Require Import Prelude BTree Bytes RadixCodec RadixTree.
Import RadixNode RadixTree.

(** ** Slots of a node *)

Lemma node_at_set n b it b' :
  length n = NUM_ITEMS →
  node_at (node_set n b it) b' = if decide (b = b') then it else node_at n b'.
Proof.
  intros Hn. unfold node_at, node_set. rewrite !nth_lookup, list_lookup_insert.
  pose proof (u8_val_bound b). unfold NUM_ITEMS in Hn. destruct (decide (b = b')) as [->|Hne].
  - rewrite decide_True by (split; [done|lia]). done.
  - rewrite decide_False; [done|]. intros [E _]. apply Hne. by apply (inj u8_val).
Qed.

Lemma node_at_empty b : node_at empty_node b = Empty.
Proof.
  unfold node_at, empty_node. rewrite nth_lookup.
  destruct (replicate _ _ !! _) as [it|] eqn:E; [|done]. by apply lookup_replicate in E as [-> _].
Qed.

Lemma node_ext n n' :
  length n = NUM_ITEMS → length n' = NUM_ITEMS → (∀ b, node_at n b = node_at n' b) → n = n'.
Proof.
  intros Hn Hn' Hb. apply list_eq. intros i. destruct (decide (i < 256)%nat) as [Hi|Hi].
  - specialize (Hb (as_u8 i)). unfold node_at in Hb. rewrite u8_val_as in Hb by done.
    destruct (lookup_lt_is_Some_2 n i) as [x Hx]; [by rewrite Hn|].
    destruct (lookup_lt_is_Some_2 n' i) as [x' Hx']; [by rewrite Hn'|].
    rewrite !nth_lookup, Hx, Hx' in Hb. simpl in Hb. congruence.
  - rewrite !lookup_ge_None_2; [done| |]; unfold NUM_ITEMS in *; lia.
Qed.

Lemma node_at_wf n b : node_wf n → item_wf (node_at n b).
Proof.
  intros [_ Hn]. unfold node_at. rewrite nth_lookup.
  destruct (n !! u8_val b) as [it|] eqn:E; [|done]. simpl. by eapply Forall_lookup_1.
Qed.

Definition two_entries (n : Node) : Prop :=
  ∃ b1 b2, b1 ≠ b2 ∧ node_at n b1 ≠ Empty ∧ node_at n b2 ≠ Empty.

(** The occupied slots with their indices. *)
Definition occupied (n : Node) : list (nat * Item) := filter (λ p, p.2 ≠ Empty) (imap pair n).

Lemma elem_of_occupied n i it :
  length n = NUM_ITEMS →
  (i, it) ∈ occupied n ↔ ∃ b, i = u8_val b ∧ node_at n b = it ∧ it ≠ Empty.
Proof.
  intros Hn. unfold occupied. rewrite list_elem_of_filter, list_elem_of_lookup. simpl. split.
  - intros [Hne [j Hj]]. rewrite list_lookup_imap in Hj. apply fmap_Some in Hj as (x & Hx & [= -> ->]).
    pose proof (lookup_lt_Some _ _ _ Hx) as Hj. rewrite Hn in Hj.
    exists (as_u8 j). rewrite u8_val_as by done. split_and!; [done| |done].
    unfold node_at. by rewrite u8_val_as, nth_lookup, Hx.
  - intros (b & -> & Hb & Hne). split; [done|]. exists (u8_val b).
    rewrite list_lookup_imap. unfold node_at in Hb. rewrite nth_lookup in Hb.
    destruct (n !! u8_val b); simpl in *; congruence.
Qed.

Lemma NoDup_occupied n : NoDup (occupied n).*1.
Proof.
  unfold occupied. eapply sublist_NoDup; [|apply fmap_sublist, sublist_filter].
  assert (∀ (l : list Item) k, (imap (λ i, pair (k + i)%nat) l).*1 = seq k (length l)) as Hseq.
  { intros l. induction l as [|x l IH]; intros k; [done|]. rewrite imap_cons. simpl.
    rewrite Nat.add_0_r. f_equal. rewrite <- IH. f_equal. apply imap_ext.
    intros i y _. simpl. by rewrite Nat.add_succ_r. }
  change (imap pair n) with (imap (λ i, pair (0 + i)%nat) n). rewrite Hseq. apply NoDup_seq.
Qed.

Lemma occupied_nil n : length n = NUM_ITEMS → occupied n = [] → ∀ b, node_at n b = Empty.
Proof.
  intros Hn E b. destruct (decide (node_at n b = Empty)) as [|Hne]; [done|].
  assert ((u8_val b, node_at n b) ∈ occupied n) as Hin by (apply elem_of_occupied; eauto).
  rewrite E in Hin. by apply elem_of_nil in Hin.
Qed.

Lemma occupied_one n i it :
  length n = NUM_ITEMS → occupied n = [(i, it)] →
  ∃ b, i = u8_val b ∧ node_at n b = it ∧ it ≠ Empty ∧ ∀ b', b' ≠ b → node_at n b' = Empty.
Proof.
  intros Hn E. destruct (proj1 (elem_of_occupied n i it Hn)) as (b & -> & Hb & Hne).
  { rewrite E. left. }
  exists b. split_and!; [done|done|done|]. intros b' Hb'.
  destruct (decide (node_at n b' = Empty)) as [|Hne']; [done|].
  assert ((u8_val b', node_at n b') ∈ occupied n) as Hin by (apply elem_of_occupied; eauto).
  rewrite E in Hin. apply list_elem_of_singleton in Hin as [= Hi%(inj u8_val) _]. done.
Qed.

Lemma occupied_two n x y l :
  length n = NUM_ITEMS → occupied n = x :: y :: l → two_entries n.
Proof.
  intros Hn E. destruct x as [i it], y as [j it'].
  destruct (proj1 (elem_of_occupied n i it Hn)) as (b & -> & Hb & Hne); [rewrite E; left|].
  destruct (proj1 (elem_of_occupied n j it' Hn)) as (b' & -> & Hb' & Hne'); [rewrite E; right; left|].
  exists b, b'. subst. split_and!; [|done|done]. intros ->.
  pose proof (NoDup_occupied n) as Hnd. rewrite E in Hnd. simpl in Hnd.
  apply NoDup_cons in Hnd as [Hnd _]. apply Hnd. left.
Qed.

Section Spec.
Context (create : list byte → hash).
Context (create_length : ∀ b, length (create b) = 32%nat).

Definition hash_of (n : Node) : hash := create (encode n).

(** ** State invariants *)

(** The write cache holds the encodings of nodes of the read cache. *)
Definition cached (t : RadixTreeImpl) : Prop :=
  ∀ h b, cache_write t !! h = Some b →
    h = create b ∧ ∃ n, cache_read t !! h = Some n ∧ b = encode n.

(** No node about to be written differs from a stored one of the same hash. *)
Definition clean (t : RadixTreeImpl) : Prop :=
  ∀ h b b', cache_write t !! h = Some b → store t !! h = Some b' → b = b'.

(** A node the tree can load. *)
Definition known (t : RadixTreeImpl) (n : Node) : Prop :=
  node_wf n ∧
  (cache_write t !! hash_of n = Some (encode n) ∨ store t !! hash_of n = Some (encode n)).

Record tree_ok (t : RadixTreeImpl) : Prop := {
  ok_read : ∀ h n, cache_read t !! h = Some n → h = hash_of n ∧ known t n;
  ok_store : ∀ h b, store t !! h = Some b → ∃ n, node_wf n ∧ b = encode n ∧ h = hash_of n;
}.

(** What every operation keeps, whatever its outcome. *)
Record grows (t t' : RadixTreeImpl) : Prop := {
  grows_store : store t' = store t;
  grows_read : cache_read t ⊆ cache_read t';
  grows_write : cache_write t ⊆ cache_write t';
}.

#[global] Instance grows_preorder : PreOrder grows.
Proof.
  split; [by intros t; split|]. intros t1 t2 t3 [] []. split; [congruence|by etrans|by etrans].
Qed.

Lemma clean_grows t t' : grows t t' → clean t' → clean t.
Proof.
  intros [Hs _ Hw] Hc h b b' Hb Hb'. apply (Hc h); [|by rewrite Hs].
  by eapply lookup_weaken.
Qed.

Lemma known_grows t t' n : grows t t' → known t n → known t' n.
Proof.
  intros [Hs _ Hw] [Hwf [Hn|Hn]]; (split; [done|]); [left; by eapply lookup_weaken|right].
  by rewrite Hs.
Qed.

(** Hashes of known nodes are unique. *)
Lemma known_unique t n n' :
  clean t → known t n → known t n' → hash_of n = hash_of n' → n = n'.
Proof.
  intros Hc [Hwf Hn] [Hwf' Hn'] E. apply encode_inj; [done|done|]. rewrite E in Hn.
  destruct Hn as [Hn|Hn], Hn' as [Hn'|Hn'].
  - congruence.
  - by apply (Hc (hash_of n')).
  - symmetry. by apply (Hc (hash_of n')).
  - congruence.
Qed.

(** ** Reasoning about outcomes *)

Definition is_collision (r : PanicReason) : Prop := ∃ k, r = CacheCollision k.

(** [m] only grows the state and ends. *)
Definition safe {A} (m : M A) : Prop := ∀ t, cached t →
  match m t with
  | Done _ t' => cached t' ∧ grows t t'
  | Panic _ t' => grows t t'
  | NoFuel => False
  end.

(** Unless it runs into a collision, [m] returns with [Q]. *)
Definition wp {A} (m : M A) (Q : A → RadixTreeImpl → Prop) (t : RadixTreeImpl) : Prop :=
  cached t →
  match m t with
  | Done a t' => clean t' → Q a t'
  | Panic r t' => clean t' → is_collision r
  | NoFuel => False
  end.

Lemma safe_ret {A} (a : A) : safe (ret a).
Proof. by intros t Hc. Qed.

Lemma safe_panic {A} r : safe (panic r : M A).
Proof. by intros t Hc. Qed.

Lemma safe_in_range {A} (o : option A) : safe (in_range o).
Proof. destruct o; [apply safe_ret|apply safe_panic]. Qed.

Lemma safe_assert b r : safe (assert b r).
Proof. destruct b; [apply safe_ret|apply safe_panic]. Qed.

Lemma safe_bind_post {A B} (m : M A) (k : A → M B) :
  safe m → (∀ a t t', m t = Done a t' → safe (k a)) → safe (bind m k).
Proof.
  intros Hm Hk t Hc. unfold bind. specialize (Hm t Hc).
  destruct (m t) as [a t1|r t1|] eqn:E; [|done|done]. destruct Hm as [Hc1 Hg1].
  specialize (Hk a t t1 E t1 Hc1). destruct (k a t1) as [b t2|r t2|]; [|by etrans|done].
  destruct Hk as [? ?]. split; [done|by etrans].
Qed.

Lemma safe_bind {A B} (m : M A) (k : A → M B) :
  safe m → (∀ a, safe (k a)) → safe (bind m k).
Proof. intros Hm Hk. by apply safe_bind_post. Qed.

Lemma wp_ret {A} (a : A) (Q : A → RadixTreeImpl → Prop) t :
  (clean t → Q a t) → wp (ret a) Q t.
Proof. by intros HQ _. Qed.

Lemma wp_in_range {A} (o : option A) a (Q : A → RadixTreeImpl → Prop) t :
  o = Some a → (clean t → Q a t) → wp (in_range o) Q t.
Proof. intros -> HQ. by apply wp_ret. Qed.

(** The continuation runs in a state that grew and is still clean. *)
Lemma wp_bind {A B} (m : M A) (k : A → M B) (Q : A → RadixTreeImpl → Prop)
    (R : B → RadixTreeImpl → Prop) t :
  safe m → (∀ a, safe (k a)) → wp m Q t →
  (∀ a t', cached t' → grows t t' → clean t' → Q a t' → wp (k a) R t') →
  wp (bind m k) R t.
Proof.
  intros Hsm Hsk Hm Hk Hc. unfold bind. specialize (Hm Hc). specialize (Hsm t Hc).
  destruct (m t) as [a t1|r t1|]; [|done|done]. destruct Hsm as [Hc1 Hg1].
  specialize (Hsk a t1 Hc1). specialize (Hk a t1 Hc1 Hg1). unfold wp in Hk.
  destruct (k a t1) as [b t2|r t2|]; [|..].
  - destruct Hsk as [_ Hg2]. intros Hcl. pose proof (clean_grows _ _ Hg2 Hcl) as Hcl1. auto.
  - intros Hcl. pose proof (clean_grows _ _ Hsk Hcl) as Hcl1. auto.
  - done.
Qed.

Lemma wp_mono {A} (m : M A) (Q R : A → RadixTreeImpl → Prop) t :
  safe m → wp m Q t → (∀ a t', grows t t' → clean t' → Q a t' → R a t') → wp m R t.
Proof.
  intros Hs Hm HQ Hc. specialize (Hm Hc). specialize (Hs t Hc).
  destruct (m t); [|done|done]. destruct Hs. auto.
Qed.

Lemma wp_bind_in_range {A B} (o : option A) a (k : A → M B) R t :
  o = Some a → wp (k a) R t → wp (bind (in_range o) k) R t.
Proof. by intros ->. Qed.

Lemma wp_bind_assert {B} b r (k : unit → M B) R t :
  b = true → wp (k ()) R t → wp (bind (assert b r) k) R t.
Proof. by intros ->. Qed.

(** ** Primitives *)

Lemma safe_load_node ptr na : safe (load_node ptr na).
Proof.
  intros t Hc. unfold load_node. destruct (cache_read t !! ptr) as [n|] eqn:Hr; [done|].
  unfold bind at 1, load_node_from_store.
  destruct (store t !! ptr) as [bytes|] eqn:Hs; [|by destruct na].
  destruct (SerializedNode_try_from bytes) as [b|e]; [|by destruct na].
  destruct (decode b) as [n|]; [|done]. simpl. split.
  - intros h b' Hw. destruct (Hc h b' Hw) as (Hh & n' & Hn' & ->). split; [done|].
    exists n'. split; [|done]. simpl. rewrite lookup_insert_ne; [done|congruence].
  - split; simpl; [done|by apply insert_subseteq|done].
Qed.

Lemma safe_save_node n : safe (save_node create n).
Proof.
  intros t Hc. unfold save_node, hash_node. destruct (cache_read t !! _) as [n'|] eqn:Hr.
  - case_bool_decide as Hn; [|done]. subst n'.
    assert (∀ b', cache_write t !! create (encode n) = Some b' → b' = encode n) as Hw.
    { intros b' (_ & n' & ? & ->)%Hc. congruence. }
    split.
    + intros h b. simpl. rewrite lookup_insert. case_decide as Hh; [|by apply Hc].
      intros [= <-]. subst h. split; [done|]. eauto.
    + split; simpl; [done|done|]. destruct (cache_write t !! create (encode n)) as [b'|] eqn:E.
      * rewrite insert_id; [done|]. by rewrite (Hw b' eq_refl) in E.
      * by apply insert_subseteq.
  - assert (cache_write t !! create (encode n) = None) as Hw.
    { apply eq_None_not_Some. intros [b' (_ & n' & ? & _)%Hc]. congruence. }
    split.
    + intros h b. simpl. rewrite lookup_insert. case_decide as Hh.
      * intros [= <-]. subst h. split; [done|]. exists n. by rewrite lookup_insert_eq.
      * intros (Hhash & n' & Hn' & Hb)%Hc. split; [done|]. exists n'. by rewrite lookup_insert_ne.
    + split; simpl; [done|by apply insert_subseteq|by apply insert_subseteq].
Qed.

Lemma wp_load_node n na t :
  tree_ok t → known t n →
  wp (load_node (hash_of n) na) (λ r t', r = n ∧ tree_ok t') t.
Proof.
  intros [Hr Hs] Hn Hc. unfold load_node.
  destruct (cache_read t !! hash_of n) as [n'|] eqn:Hrn.
  { intros Hcl. destruct (Hr _ _ Hrn) as [E Hn']. split; [|by split].
    symmetry. by apply (known_unique t). }
  assert (store t !! hash_of n = Some (encode n)) as Hst.
  { destruct Hn as [_ [Hw|?]]; [|done]. destruct (Hc _ _ Hw) as (_ & n' & ? & _). congruence. }
  unfold bind at 1, load_node_from_store. rewrite Hst.
  rewrite (try_from_encode n) by apply Hn. unfold bind. rewrite (decode_encode_node n) by apply Hn.
  simpl. intros Hcl. split; [done|]. split; simpl; [|done].
  intros h n'. rewrite lookup_insert. case_decide as Hh; [|apply Hr].
  intros [= <-]. subst h. split; [done|exact Hn].
Qed.

Lemma wp_save_node n t :
  tree_ok t → node_wf n →
  wp (save_node create n) (λ h t', h = hash_of n ∧ known t' n ∧ tree_ok t') t.
Proof.
  intros [Hr Hs] Hwf Hc. unfold save_node, hash_node. fold (hash_of n).
  assert (∀ rd, rd !! hash_of n = Some n → (∀ h, h ≠ hash_of n → rd !! h = cache_read t !! h) →
    let t' := mkTree (store t) rd (<[hash_of n := encode n]> (cache_write t)) in
    known t' n ∧ tree_ok t') as Hok.
  { intros rd Hrd Hother t'.
    assert (known t' n) as Hk by (split; [done|]; left; simpl; by rewrite lookup_insert_eq).
    split; [done|]. split; simpl; [|done]. intros h n' Hn'.
    destruct (decide (h = hash_of n)) as [->|Hne].
    { rewrite Hrd in Hn'. injection Hn' as <-. done. }
    rewrite (Hother h Hne) in Hn'. destruct (Hr h n' Hn') as [-> [Hwf' Hk']]. split; [done|].
    split; [done|]. destruct Hk' as [Hw|?]; [left|by right]. simpl.
    by rewrite lookup_insert_ne. }
  destruct (cache_read t !! hash_of n) as [n'|] eqn:Hrn.
  - case_bool_decide as Hn; [|intros _; by eexists]. subst n'. intros _. split; [done|].
    by apply Hok.
  - intros _. split; [done|]. apply Hok; [apply lookup_insert_eq|].
    intros h Hne. by rewrite lookup_insert_ne.
Qed.

(** ** What a tree stores *)

Definition contents : Type := list byte → option hash.
Definition upd (m : contents) (k : list byte) (o : option hash) : contents :=
  λ k', if decide (k' = k) then o else m k'.

(** [rep K L it m]: the item stores the map [m] on keys of length [L]; its
    pointers lead to nodes of [K]. *)
Inductive rep (K : Node → Prop) : nat → Item → contents → Prop :=
| rep_empty L m : (∀ k, m k = None) → rep K L Empty m
| rep_leaf L p v m :
    length p = L → length v = 32%nat →
    (∀ k, m k = if decide (k = p) then Some v else None) →
    rep K L (Leaf p v) m
| rep_ptr L L' p n m :
    L = (length p + S L')%nat → K n → node_wf n → two_entries n →
    (∀ b, rep K L' (node_at n b) (λ k, m (p ++ b :: k))) →
    (∀ k, m k ≠ None → ∃ b k', k = p ++ b :: k') →
    rep K L (NodePtr p (hash_of n)) m.

Definition node_rep (K : Node → Prop) (L : nat) (n : Node) (m : contents) : Prop :=
  node_wf n ∧ m [] = None ∧ ∀ b, rep K L (node_at n b) (λ k, m (b :: k)).

Lemma rep_empty_inv K L m : rep K L Empty m → ∀ k, m k = None.
Proof. by inversion 1. Qed.

Lemma rep_leaf_inv K L p v m :
  rep K L (Leaf p v) m →
  length p = L ∧ length v = 32%nat ∧ ∀ k, m k = if decide (k = p) then Some v else None.
Proof. by inversion 1. Qed.

Lemma rep_ptr_inv K L p h m :
  rep K L (NodePtr p h) m →
  ∃ L' n, h = hash_of n ∧ L = (length p + S L')%nat ∧ K n ∧ node_wf n ∧ two_entries n ∧
    (∀ b, rep K L' (node_at n b) (λ k, m (p ++ b :: k))) ∧
    (∀ k, m k ≠ None → ∃ b k', k = p ++ b :: k').
Proof. inversion 1; subst. eauto 12. Qed.

Lemma rep_mono (K K' : Node → Prop) L it m :
  (∀ n, K n → K' n) → rep K L it m → rep K' L it m.
Proof.
  intros HK. induction 1 as [L m Hm|L p v m Hp Hv Hm|L L' p n m HL Hn Hwf Htwo Hb IH Hm].
  - by constructor.
  - by constructor.
  - apply (rep_ptr K' L L'); auto.
Qed.

Lemma rep_ext K L it m m' : (∀ k, m k = m' k) → rep K L it m → rep K L it m'.
Proof.
  intros Hm Hr. revert m' Hm.
  induction Hr as [L m Hm0|L p v m Hp Hv Hm0|L L' p n m HL Hn Hwf Htwo Hb IH Hm0]; intros m' Hm.
  - constructor. intros k. by rewrite <- Hm.
  - constructor; [done|done|]. intros k. by rewrite <- Hm.
  - apply (rep_ptr K L L'); auto. intros k. rewrite <- Hm. auto.
Qed.

Lemma node_rep_mono (K K' : Node → Prop) L n m :
  (∀ n, K n → K' n) → node_rep K L n m → node_rep K' L n m.
Proof. intros HK (Hwf & Hnil & Hb). split_and!; [done|done|]. intros b. by eapply rep_mono. Qed.

Lemma node_rep_ext K L n m m' :
  (∀ k, m k = m' k) → node_rep K L n m → node_rep K L n m'.
Proof.
  intros Hm (Hwf & Hnil & Hb). split_and!; [done|by rewrite <- Hm|].
  intros b. eapply rep_ext; [|apply Hb]. intros k. apply Hm.
Qed.

Lemma rep_grows t t' L it m : grows t t' → rep (known t) L it m → rep (known t') L it m.
Proof. intros Hg. apply rep_mono. intros n. by apply known_grows. Qed.

Lemma node_rep_grows t t' L n m : grows t t' → node_rep (known t) L n m → node_rep (known t') L n m.
Proof. intros Hg. apply node_rep_mono. intros n'. by apply known_grows. Qed.

(** Keys of an item have its length. *)
Lemma rep_key_length K L it m k : rep K L it m → m k ≠ None → length k = L.
Proof.
  intros Hr. revert k. induction Hr as [L m Hm|L p v m Hp Hv Hm|L L' p n m HL Hn Hwf Htwo Hb IH Hm];
    intros k Hk.
  - by rewrite Hm in Hk.
  - rewrite Hm in Hk. case_decide; [by subst|done].
  - destruct (Hm k Hk) as (b & k' & ->). apply IH in Hk. rewrite length_app. simpl. lia.
Qed.

(** A canonical item that is not empty has a key. *)
Lemma rep_has_key K L it m : rep K L it m → it ≠ Empty → ∃ k, m k ≠ None.
Proof.
  induction 1 as [L m Hm|L p v m Hp Hv Hm|L L' p n m HL Hn Hwf (b & _ & _ & Hne & _) Hb IH Hm];
    intros Hit.
  - done.
  - exists p. rewrite Hm. by rewrite decide_True.
  - destruct (IH b Hne) as [k Hk]. eauto.
Qed.

(** An item stores one map only. *)
Lemma rep_functional K L it m m' :
  (∀ n n', K n → K n' → hash_of n = hash_of n' → n = n') →
  rep K L it m → rep K L it m' → ∀ k, m k = m' k.
Proof.
  intros HK Hr. revert m'.
  induction Hr as [L m Hm|L p v m Hp Hv Hm|L L' p n m HL Hn Hwf Htwo Hb IH Hm]; intros m' Hr' k.
  - rewrite Hm. symmetry. by apply (rep_empty_inv K L).
  - apply rep_leaf_inv in Hr' as (_ & _ & Hm'). by rewrite Hm, Hm'.
  - apply rep_ptr_inv in Hr' as (L'' & n' & Hh & HL' & Hn' & _ & _ & Hb' & Hm').
    assert (n' = n) as -> by auto. assert (L'' = L') as -> by lia.
    assert (∀ b k', m (p ++ b :: k') = m' (p ++ b :: k')) as Heq.
    { intros b k'. apply (IH b _ (Hb' b)). }
    destruct (m k) as [v|] eqn:Ek.
    + destruct (Hm k) as (b & k' & ->); [congruence|]. by rewrite <- Heq.
    + destruct (m' k) as [v'|] eqn:Ek'; [|done].
      destruct (Hm' k) as (b & k' & ->); [congruence|]. rewrite <- Heq in Ek'. congruence.
Qed.

(** ** Saving a node behind an item *)

Definition under (p : list byte) (m : contents) : contents :=
  λ k, if decide (take (length p) k = p) then m (drop (length p) k) else None.

Lemma under_app p m k : under p m (p ++ k) = m k.
Proof. unfold under. rewrite take_app_length, drop_app_length. by rewrite decide_True. Qed.

Lemma under_inv p m k : under p m k ≠ None → ∃ k', k = p ++ k'.
Proof.
  unfold under. case_decide as Ht; [|done]. intros _. exists (drop (length p) k).
  by rewrite <- Ht at 1; rewrite take_drop.
Qed.

Lemma safe_save_item n p c : safe (save_node_and_create_item create n p c).
Proof.
  unfold save_node_and_create_item.
  assert (safe (bind (save_node create n) (λ ptr, ret (NodePtr p ptr)))) as Hs.
  { apply safe_bind; [apply safe_save_node|]. intros. apply safe_ret. }
  destruct c; [|done]. destruct (non_empty n) as [|[i []] []]; try done; apply safe_ret.
Qed.

Lemma rep_ptr_node K L p n m :
  K n → two_entries n → node_rep K L n m → rep K (length p + S L) (NodePtr p (hash_of n)) (under p m).
Proof.
  intros HK Htwo (Hwf & Hnil & Hb). apply (rep_ptr K _ L); try done.
  - intros b. eapply rep_ext; [|apply Hb]. intros k. simpl. by rewrite under_app.
  - intros k Hk. destruct (under_inv _ _ _ Hk) as [k' ->]. rewrite under_app in Hk.
    destruct k' as [|b k']; [done|]. eauto.
Qed.

Lemma wp_save_plain n p L m t :
  tree_ok t → two_entries n → node_rep (known t) L n m →
  wp (bind (save_node create n) (λ ptr, ret (NodePtr p ptr)))
     (λ it t', rep (known t') (length p + S L) it (under p m) ∧ it ≠ Empty ∧ tree_ok t') t.
Proof.
  intros Hok Htwo Hrep. eapply wp_bind; [apply safe_save_node|intros; apply safe_ret| |].
  - apply wp_save_node; [done|apply Hrep].
  - intros h t' _ Hg _ (-> & Hk & Hok'). apply wp_ret. intros _. split_and!; [|done|done].
    apply rep_ptr_node; [done|done|]. by eapply node_rep_grows.
Qed.

(** A lone entry is pulled up into the item. *)
Lemma rep_pull_up K L n m p b q :
  node_rep K L n m → (∀ b', b' ≠ b → node_at n b' = Empty) →
  (∀ v, node_at n b = Leaf q v → rep K (length p + S L) (Leaf ((p ++ [b]) ++ q) v) (under p m)) ∧
  (∀ h, node_at n b = NodePtr q h →
     rep K (length p + S L) (NodePtr ((p ++ [b]) ++ q) h) (under p m)).
Proof.
  intros (Hwf & Hnil & Hb) Hone. rewrite <- app_assoc. simpl.
  assert (∀ k, under p m k ≠ None → ∃ k', k = p ++ b :: k' ∧ m (b :: k') ≠ None) as Hkeys.
  { intros k Hk. destruct (under_inv _ _ _ Hk) as [k' ->]. rewrite under_app in Hk.
    destruct k' as [|b' k']; [done|]. destruct (decide (b' = b)) as [->|Hne]; [eauto|].
    specialize (Hb b'). rewrite Hone in Hb by done. by rewrite (rep_empty_inv _ _ _ Hb k') in Hk. }
  specialize (Hb b). split.
  - intros v Hv. rewrite Hv in Hb. apply rep_leaf_inv in Hb as (Hq & Hv32 & Hm). constructor.
    + rewrite length_app. simpl. lia.
    + done.
    + intros k. destruct (decide (k = p ++ b :: q)) as [->|Hne].
      * by rewrite under_app, Hm, decide_True.
      * destruct (under p m k) eqn:Hk; [|done]. destruct (Hkeys k) as (k' & -> & Hk'); [congruence|].
        rewrite Hm in Hk'. case_decide; [congruence|done].
  - intros h Hh. rewrite Hh in Hb.
    apply rep_ptr_inv in Hb as (L' & n' & -> & HL & HK & Hwf' & Htwo & Hb & Hm).
    apply (rep_ptr K _ L'); try done.
    + rewrite length_app. simpl. lia.
    + intros b'. eapply rep_ext; [|apply Hb]. intros k. simpl.
      by rewrite <- app_assoc, under_app.
    + intros k (k' & -> & Hk')%Hkeys. destruct (Hm k' Hk') as (b' & k'' & ->).
      exists b', k''. by rewrite <- app_assoc.
Qed.

Lemma wp_save_compact n p L m t :
  tree_ok t → node_rep (known t) L n m →
  wp (save_node_and_create_item create n p true)
     (λ it t', rep (known t') (length p + S L) it (under p m) ∧ tree_ok t') t.
Proof.
  intros Hok Hrep. pose proof Hrep as (Hwf & Hnil & Hb). pose proof (proj1 Hwf) as Hlen.
  unfold save_node_and_create_item, non_empty. fold (occupied n).
  destruct (occupied n) as [|[i it] [|y l]] eqn:E; cbn [take].
  - apply wp_ret. intros _. split; [|done]. constructor. intros k.
    destruct (under p m k) eqn:Hk; [|done]. destruct (under_inv p m k) as [k' ->]; [congruence|].
    rewrite under_app in Hk. destruct k' as [|b k']; [congruence|].
    specialize (Hb b). rewrite (occupied_nil n Hlen E) in Hb.
    rewrite (rep_empty_inv _ _ _ Hb k') in Hk. done.
  - destruct (occupied_one n i it Hlen E) as (b & -> & Hit & Hne & Hone). rewrite as_u8_val.
    destruct it as [|q v|q h]; [done|..]; apply wp_ret; intros _; (split; [|done]);
      unfold KeySegment.concat; by apply (rep_pull_up _ _ n m p b q Hrep Hone).
  - assert (two_entries n) as Htwo by by eapply occupied_two.
    eapply wp_mono; [|by apply (wp_save_plain n p L m)|].
    + apply safe_bind; [apply safe_save_node|]. intros. apply safe_ret.
    + intros it' t' _ _ (? & _ & ?). done.
Qed.

(** ** Insertion *)

Lemma safe_bind_in_range {A B} (o : option A) (k : A → M B) :
  (∀ a, o = Some a → safe (k a)) → safe (bind (in_range o) k).
Proof. destruct o as [a|]; intros Hk; [by apply (Hk a)|by intros t Hc]. Qed.

Lemma safe_bind_assert {B} b r (k : unit → M B) : safe (k ()) → safe (bind (assert b r) k).
Proof. intros Hk. destruct b; [done|by intros t Hc]. Qed.

Ltac safe_step :=
  match goal with
  | |- safe (ret _) => apply safe_ret
  | |- safe (bind (in_range _) _) => apply safe_bind_in_range; intros ? ?
  | |- safe (bind (assert _ _) _) => apply safe_bind_assert
  | |- safe (bind _ _) => apply safe_bind; [|intros ?]
  | |- safe (load_node _ _) => apply safe_load_node
  | |- safe (save_node_and_create_item _ _ _ _) => apply safe_save_item
  | |- safe (match ?x with _ => _ end) => destruct x eqn:?
  end.

Lemma common_prefix_lengths a b c ra rb :
  KeySegment.common_prefix a b = (c, ra, rb) →
  length a = (length c + length ra)%nat ∧ length b = (length c + length rb)%nat.
Proof. intros (-> & -> & _)%KeySegment.common_prefix_spec. by rewrite !length_app. Qed.

Lemma tail_length k k' : KeySegment.tail k = Some k' → length k = S (length k').
Proof. destruct k; simpl; [done|]. by intros [= ->]. Qed.

(** Safety of a recursion on a shorter segment. *)
Ltac safe_rec IH :=
  repeat (safe_step || (apply IH;
    repeat match goal with
    | H : KeySegment.common_prefix _ _ = _ |- _ => apply common_prefix_lengths in H as [? ?]
    | H : KeySegment.tail _ = _ |- _ => apply tail_length in H
    end; simplify_eq; simpl in *; lia)).

Lemma safe_update_rec fuel it ins v :
  (length ins < fuel)%nat → safe (update_rec create fuel it ins v).
Proof.
  revert it ins. induction fuel as [|fuel IH]; intros it ins Hf; [lia|]. cbn [update_rec].
  safe_rec IH.
Qed.

Lemma rep_item_wf K L it m : (L ≤ 127)%nat → rep K L it m → item_wf it.
Proof.
  intros HL. destruct it as [|p v|p h]; [done|..].
  - intros (? & ? & _)%rep_leaf_inv. simpl. split; [lia|done].
  - intros (L' & n & -> & ? & _)%rep_ptr_inv. simpl. split; [lia|apply create_length].
Qed.

Lemma under_eq p (mm m : contents) :
  (∀ k, mm k = m (p ++ k)) → (∀ k, m k ≠ None → ∃ k', k = p ++ k') →
  ∀ k, under p mm k = m k.
Proof.
  intros Hmm Hm k. destruct (m k) eqn:Ek.
  - destruct (Hm k) as [k' ->]; [congruence|]. by rewrite under_app, Hmm.
  - destruct (under p mm k) eqn:Eu; [|done]. destruct (under_inv p mm k) as [k' ->]; [congruence|].
    rewrite under_app, Hmm in Eu. congruence.
Qed.

(** The node with two entries that splits an item. *)
Definition pair_contents (x y : byte) (mx my : contents) : contents := λ k,
  match k with
  | [] => None
  | b :: k' => if decide (b = x) then mx k' else if decide (b = y) then my k' else None
  end.

Lemma pair_node_rep K L x y itx ity mx my :
  (L ≤ 127)%nat → x ≠ y → rep K L itx mx → rep K L ity my →
  node_rep K L (node_set (node_set empty_node y ity) x itx) (pair_contents x y mx my).
Proof.
  intros HL Hne Hx Hy.
  assert (node_wf (node_set (node_set empty_node y ity) x itx)) as Hwf.
  { apply node_set_wf; [apply node_set_wf; [apply empty_node_wf|]|]; by eapply rep_item_wf. }
  split_and!; [done|done|]. intros b.
  rewrite !node_at_set by (unfold node_set; rewrite ?length_insert; apply length_replicate).
  rewrite node_at_empty. unfold pair_contents. repeat case_decide; subst; try done.
  by constructor.
Qed.

Lemma pair_node_two x y itx ity :
  x ≠ y → itx ≠ Empty → ity ≠ Empty → two_entries (node_set (node_set empty_node y ity) x itx).
Proof.
  intros Hne Hx Hy. exists x, y.
  rewrite !node_at_set by (unfold node_set; rewrite ?length_insert; apply length_replicate).
  split_and!; [done|by rewrite decide_True|]. rewrite decide_False, decide_True by done. done.
Qed.

(** Both splits of [update] save such a node under the common prefix. *)
Lemma wp_split c x y itx ity mx my L m t :
  tree_ok t → (L ≤ 127)%nat → x ≠ y → itx ≠ Empty → ity ≠ Empty →
  rep (known t) L itx mx → rep (known t) L ity my →
  (∀ k, pair_contents x y mx my k = m (c ++ k)) → (∀ k, m k ≠ None → ∃ k', k = c ++ k') →
  wp (bind (save_node_and_create_item create (node_set (node_set empty_node y ity) x itx) c false)
       (λ it, ret (Some it)))
     (λ r t', tree_ok t' ∧ ∃ it', r = Some it' ∧ rep (known t') (length c + S L) it' m ∧ it' ≠ Empty) t.
Proof.
  intros Hok HL Hne Hx Hy Hrx Hry Hm Hkeys.
  eapply wp_bind; [apply safe_save_item|intros; apply safe_ret| |].
  - eapply (wp_save_plain _ c L (pair_contents x y mx my)); [done|by apply pair_node_two|].
    by apply pair_node_rep.
  - intros it t' _ _ _ (Hrep & Hit & Hok'). apply wp_ret. intros _. split; [done|].
    exists it. split_and!; [done| |done]. eapply rep_ext; [|exact Hrep]. by apply under_eq.
Qed.

Lemma rep_ptr_tail K L c y q h m :
  rep K L (NodePtr (c ++ y :: q) h) m →
  rep K (L - length c - 1) (NodePtr q h) (λ k, m (c ++ y :: k)) ∧
  (∀ k, m k ≠ None → ∃ k', k = c ++ y :: k').
Proof.
  intros (L' & n & -> & HL & HK & Hwf & Htwo & Hb & Hm)%rep_ptr_inv.
  rewrite length_app in HL. simpl in HL. split.
  - apply (rep_ptr K _ L'); try done; [lia| |].
    + intros b. eapply rep_ext; [|apply Hb]. intros k. simpl. by rewrite <- app_assoc.
    + intros k (b & k' & E)%Hm. rewrite <- app_assoc in E. simpl in E.
      apply app_inv_head in E. injection E as ->. eauto.
  - intros k (b & k' & ->)%Hm. rewrite <- app_assoc. simpl. eauto.
Qed.

(** The result of changing [ins] to [o] in the item. *)
Definition item_result (m : contents) (ins : list byte) (o : option hash) (L : nat)
    (r : option Item) (t : RadixTreeImpl) : Prop :=
  tree_ok t ∧
  match r with
  | None => m ins = o
  | Some it => rep (known t) L it (upd m ins o) ∧ (o ≠ None → it ≠ Empty)
  end.

Lemma upd_app m c k k' o : upd m (c ++ k) o (c ++ k') = upd (λ x, m (c ++ x)) k o k'.
Proof.
  unfold upd. destruct (decide (k' = k)) as [->|Hne]; [by rewrite decide_True|].
  rewrite decide_False; [done|]. intros E. by apply app_inv_head in E.
Qed.

Lemma upd_cons m b k k' o : upd m (b :: k) o (b :: k') = upd (λ x, m (b :: x)) k o k'.
Proof. apply (upd_app m [b]). Qed.

Lemma upd_key m c k o x :
  (∀ x, m x ≠ None → ∃ x', x = c ++ x') → upd m (c ++ k) o x ≠ None → ∃ x', x = c ++ x'.
Proof. unfold upd. case_decide; [subst; eauto|auto]. Qed.

(** The leaf splits. *)
Lemma wp_update_split_leaf fuel p w ins v L m t :
  tree_ok t → rep (known t) L (Leaf p w) m → length ins = L → (L ≤ 127)%nat →
  length v = 32%nat → p ≠ ins →
  wp (update_rec create (S fuel) (Leaf p w) ins v) (item_result m ins (Some v) L) t.
Proof.
  intros Hok Hrep Hins HL Hv Hne. pose proof (rep_leaf_inv _ _ _ _ _ Hrep) as (Hp & Hw & Hm).
  cbn [update_rec]. apply wp_bind_assert; [apply Nat.eqb_eq; lia|].
  rewrite bool_decide_false by done.
  destruct (KeySegment.common_prefix ins p) as [[c ri] rp] eqn:E.
  pose proof (KeySegment.common_prefix_spec _ _ _ _ _ E) as (-> & -> & Hd).
  rewrite !length_app in *.
  destruct rp as [|y rp]; [destruct ri; simpl in *; [congruence|lia]|].
  destruct ri as [|x ri]; [simpl in *; lia|]. simpl in Hins, Hp.
  assert (x ≠ y) as Hxy by by eapply Hd.
  do 4 (eapply wp_bind_in_range; [done|]).
  eapply wp_mono; [apply safe_bind; [apply safe_save_item|intros; apply safe_ret]| |].
  - apply (wp_split c x y _ _ (upd (λ _, None) ri (Some v)) (upd (λ _, None) rp (Some w))
      (length ri) (upd m (c ++ x :: ri) (Some v))); try done; [lia|by constructor|constructor; [lia|done|done]| |].
    + assert (∀ k, m (c ++ k) = if decide (k = y :: rp) then Some w else None) as Hmc.
      { intros k. rewrite Hm. destruct (decide (k = y :: rp)) as [->|Hk]; [by rewrite decide_True|].
        rewrite decide_False; [done|]. by rewrite app_inv_head_iff. }
      intros k. rewrite upd_app. unfold pair_contents, upd. cbn beta. rewrite Hmc.
      destruct k as [|b k]; repeat case_decide; congruence.
    + intros k. apply upd_key. intros k'. rewrite Hm. case_decide; [subst; eauto|done].
  - intros r t' _ _ (Hok' & it & -> & Hrep' & Hit). split; [done|]. split; [|done].
    by replace L with (length c + S (length ri))%nat by lia.
Qed.

(** The pointer splits. *)
Lemma wp_update_split_ptr fuel c x y ri q h ins v L m t :
  tree_ok t → rep (known t) L (NodePtr (c ++ y :: q) h) m → ins = c ++ x :: ri →
  length ins = L → (L ≤ 127)%nat → length v = 32%nat → x ≠ y →
  KeySegment.common_prefix ins (c ++ y :: q) = (c, x :: ri, y :: q) →
  wp (update_rec create (S fuel) (NodePtr (c ++ y :: q) h) ins v) (item_result m ins (Some v) L) t.
Proof.
  intros Hok Hrep -> Hins HL Hv Hxy E.
  pose proof (rep_ptr_inv _ _ _ _ _ Hrep) as (L' & n & _ & HL' & _).
  destruct (rep_ptr_tail _ _ _ _ _ _ _ Hrep) as [Htail Hkeys].
  cbn [update_rec]. rewrite length_app in *. simpl in Hins, HL'.
  apply wp_bind_assert; [apply Nat.ltb_lt; rewrite !length_app; simpl; lia|].
  rewrite E. cbn [KeySegment.is_empty]. do 4 (eapply wp_bind_in_range; [done|]).
  eapply wp_mono; [apply safe_bind; [apply safe_save_item|intros; apply safe_ret]| |].
  - apply (wp_split c x y _ _ (upd (λ _, None) ri (Some v)) (λ k, m (c ++ y :: k))
      (length ri) (upd m (c ++ x :: ri) (Some v))); try done; [lia|by constructor| | |].
    + replace (length ri) with (L - length c - 1)%nat by lia. done.
    + assert (∀ k, (∀ k', k ≠ c ++ y :: k') → m k = None) as Hnone.
      { intros k Hk. destruct (m k) eqn:Ek; [|done].
        destruct (Hkeys k) as [k' ?]; [congruence|]. by destruct (Hk k'). }
      intros k. rewrite upd_app. unfold pair_contents, upd.
      destruct k as [|b k]; [rewrite decide_False by done; symmetry; apply Hnone; intros k'; by rewrite app_inv_head_iff|].
      repeat case_decide; subst; try congruence; symmetry; apply Hnone; intros k'; rewrite app_inv_head_iff; congruence.
    + intros k. apply upd_key. intros k' (k'' & ->)%Hkeys. eauto.
  - intros r t' _ _ (Hok' & it & -> & Hrep' & Hit). split; [done|]. split; [|done].
    by replace L with (length c + S (length ri))%nat by lia.
Qed.

(** Replacing the item of one slot of a child node. *)
Lemma node_set_rep K L n b it' m q k0 o :
  (L ≤ 127)%nat → node_wf n → m q = None →
  (∀ b, rep K L (node_at n b) (λ k, m (q ++ b :: k))) →
  rep K L it' (upd (λ k, m (q ++ b :: k)) k0 o) →
  node_rep K L (node_set n b it') (λ k, upd m (q ++ b :: k0) o (q ++ k)).
Proof.
  intros HL Hwf Hq Hb Hit. split_and!.
  - apply node_set_wf; [done|]. by eapply rep_item_wf.
  - rewrite app_nil_r. unfold upd. rewrite decide_False; [done|].
    intros E%(f_equal length). rewrite length_app in E. simpl in E. lia.
  - intros b'. rewrite node_at_set by apply Hwf. case_decide as Hbb.
    + subst b'. eapply rep_ext; [|exact Hit]. intros k. cbn beta. by rewrite upd_app, upd_cons.
    + eapply rep_ext; [|apply Hb]. intros k. cbn beta. unfold upd. rewrite decide_False; [done|].
      intros E. apply app_inv_head in E. congruence.
Qed.

Lemma node_set_two n b it :
  node_wf n → two_entries n → it ≠ Empty → two_entries (node_set n b it).
Proof.
  intros [Hn _] (b1 & b2 & Hne & H1 & H2) Hit.
  exists b1, b2. rewrite !node_at_set by done. repeat case_decide; done.
Qed.

Lemma rep_ptr_key K L p h m : rep K L (NodePtr p h) m → m p = None.
Proof.
  intros (L' & n & _ & _ & _ & _ & _ & _ & Hm)%rep_ptr_inv. destruct (m p) eqn:E; [|done].
  destruct (Hm p) as (b & k & E'); [congruence|].
  apply (f_equal length) in E'. rewrite length_app in E'. simpl in E'. lia.
Qed.

Lemma wp_update fuel it ins v L m t :
  (length ins < fuel)%nat → tree_ok t → rep (known t) L it m → length ins = L →
  (L ≤ 127)%nat → length v = 32%nat →
  wp (update_rec create fuel it ins v) (item_result m ins (Some v) L) t.
Proof.
  revert it ins L m t. induction fuel as [|fuel IH]; intros it ins L m t Hf Hok Hrep Hins HL Hv; [lia|].
  destruct it as [|p w|q h].
  - cbn [update_rec]. apply wp_ret. intros _. split; [done|]. split; [|done].
    pose proof (rep_empty_inv _ _ _ Hrep) as Hm. constructor; [done|done|].
    intros k. unfold upd. case_decide; [done|apply Hm].
  - destruct (decide (p = ins)) as [->|Hne]; [|by eapply wp_update_split_leaf].
    pose proof (rep_leaf_inv _ _ _ _ _ Hrep) as (Hp & Hw & Hm). cbn [update_rec].
    apply wp_bind_assert; [by apply Nat.eqb_eq|]. rewrite bool_decide_true by done.
    case_bool_decide as Hvw; apply wp_ret; intros _; (split; [done|]).
    + by rewrite Hm, decide_True, Hvw.
    + split; [|done]. constructor; [done|done|]. intros k. unfold upd.
      case_decide; [done|]. by rewrite Hm, decide_False.
  - destruct (KeySegment.common_prefix ins q) as [[c ri] rq] eqn:E.
    pose proof (KeySegment.common_prefix_spec _ _ _ _ _ E) as (Ei & Eq & Hd).
    pose proof (rep_ptr_inv _ _ _ _ _ Hrep) as (L' & n & Hh & HLq & Hn & Hwf & Htwo & Hb & Hm).
    assert (length q < length ins)%nat as Hlt by lia.
    destruct ri as [|x ri]; [rewrite Ei, Eq, !length_app in Hlt; simpl in Hlt; lia|].
    destruct rq as [|y rq].
    + rewrite app_nil_r in Eq. subst q h. cbn [update_rec].
      apply wp_bind_assert; [by apply Nat.ltb_lt|]. rewrite E. change (KeySegment.is_empty []) with true. cbn match.
      assert (length ri = L') as Hri by (rewrite Ei, length_app in Hins; simpl in Hins; lia).
      eapply wp_bind; [apply safe_load_node| |by apply wp_load_node|].
      { intros a. repeat (safe_step || (apply safe_update_rec; simpl in *; simplify_eq; lia)). }
      intros n' t1 _ Hg1 _ [-> Hok1]. do 2 (eapply wp_bind_in_range; [done|]). cbn zeta.
      eapply wp_bind; [apply safe_update_rec; lia|intros; repeat safe_step|
        eapply IH; [lia|done|by eapply rep_grows|done|lia|done]|].
      intros [it'|] t2 _ Hg2 _ [Hok2 Hres].
      * destruct Hres as [Hrep' Hit']. eapply wp_bind; [apply safe_save_item|intros; apply safe_ret| |].
        -- eapply (wp_save_plain _ c L' (λ k, upd m (c ++ x :: ri) (Some v) (c ++ k)));
             [done|by apply node_set_two; auto|].
           apply node_set_rep; [lia|done|by eapply rep_ptr_key| |exact Hrep'].
           intros b. eapply rep_grows; [exact Hg2|]. by eapply rep_grows.
        -- intros it2 t3 _ _ _ (Hrep2 & Hne2 & Hok3). apply wp_ret. intros _.
           split; [done|]. split; [|done]. rewrite HLq, Ei. eapply rep_ext; [|exact Hrep2].
           apply under_eq; [done|]. intros k. apply upd_key. intros k' (b & k'' & ->)%Hm. eauto.
      * apply wp_ret. intros _. split; [done|]. by rewrite Ei.
    + rewrite Eq. eapply wp_update_split_ptr; try done; [by rewrite <- Eq|by eapply Hd|by rewrite <- Eq].
Qed.

(** ** Deletion *)

Lemma safe_delete_rec fuel it del :
  (length del < fuel)%nat → safe (delete_rec create fuel it del).
Proof.
  revert it del. induction fuel as [|fuel IH]; intros it del Hf; [lia|]. cbn [delete_rec].
  safe_rec IH.
Qed.

Lemma ptr_key_none K L q h m del c ri rq :
  rep K L (NodePtr q h) m → KeySegment.common_prefix del q = (c, ri, rq) →
  rq ≠ [] ∨ ri = [] → m del = None.
Proof.
  intros Hrep E Hcase. pose proof (KeySegment.common_prefix_spec _ _ _ _ _ E) as (-> & -> & Hd).
  pose proof (rep_ptr_inv _ _ _ _ _ Hrep) as (L' & n & _ & _ & _ & _ & _ & _ & Hm).
  destruct (m (c ++ ri)) eqn:Ek; [|done].
  destruct (Hm (c ++ ri)) as (b & k & Eb); [congruence|].
  rewrite <- app_assoc in Eb. apply app_inv_head in Eb. subst ri.
  destruct rq as [|y rq]; simpl in *; [by destruct Hcase|]. by destruct (Hd y y (rq ++ b :: k) rq).
Qed.

Lemma wp_delete fuel it del L m t :
  (length del < fuel)%nat → tree_ok t → rep (known t) L it m → length del = L →
  (L ≤ 127)%nat →
  wp (delete_rec create fuel it del) (item_result m del None L) t.
Proof.
  revert it del L m t. induction fuel as [|fuel IH]; intros it del L m t Hf Hok Hrep Hdel HL; [lia|].
  destruct it as [|p w|q h]; cbn [delete_rec].
  - apply wp_ret. intros _. split; [done|]. by apply (rep_empty_inv _ _ _ Hrep).
  - pose proof (rep_leaf_inv _ _ _ _ _ Hrep) as (Hp & Hw & Hm).
    case_bool_decide as Hpd; apply wp_ret; intros _; (split; [done|]).
    + split; [|done]. constructor. intros k. unfold upd. case_decide; [done|].
      rewrite Hm. rewrite decide_False; congruence.
    + rewrite Hm, decide_False; congruence.
  - destruct (KeySegment.common_prefix del q) as [[c ri] rq] eqn:E.
    destruct (negb (KeySegment.is_empty rq) || KeySegment.is_empty ri) eqn:Ecase.
    { apply wp_ret. intros _. split; [done|]. eapply ptr_key_none; [done|done|].
      unfold KeySegment.is_empty in Ecase. apply orb_true_iff in Ecase as [Ec|Ec].
      - left. intros ->. by rewrite bool_decide_true in Ec.
      - right. by apply bool_decide_eq_true in Ec. }
    apply orb_false_iff in Ecase as [Ec1 Ec2]. unfold KeySegment.is_empty in *.
    apply negb_false_iff, bool_decide_eq_true in Ec1. subst rq.
    apply bool_decide_eq_false in Ec2. destruct ri as [|x ri]; [done|].
    pose proof (KeySegment.common_prefix_spec _ _ _ _ _ E) as (Ei & Eq & Hd).
    pose proof (rep_ptr_inv _ _ _ _ _ Hrep) as (L' & n & Hh & HLq & Hn & Hwf & Htwo & Hb & Hm).
    rewrite app_nil_r in Eq. subst q h.
    assert (length ri = L') as Hri by (rewrite Ei, length_app in Hdel; simpl in Hdel; lia).
    eapply wp_bind; [apply safe_load_node| |by apply wp_load_node|].
    { intros a. repeat (safe_step || (apply safe_delete_rec; simpl in *; simplify_eq; lia)). }
    intros n' t1 _ Hg1 _ [-> Hok1]. do 2 (eapply wp_bind_in_range; [done|]). cbn zeta.
    eapply wp_bind; [apply safe_delete_rec; lia|intros; repeat safe_step|
      eapply IH; [lia|done|by eapply rep_grows|done|lia]|].
    intros [it'|] t2 _ Hg2 _ [Hok2 Hres].
    + destruct Hres as [Hrep' _]. eapply wp_bind; [apply safe_save_item|intros; apply safe_ret| |].
      * eapply (wp_save_compact _ c L' (λ k, upd m (c ++ x :: ri) None (c ++ k))); [done|].
        apply node_set_rep; [lia|done|by eapply rep_ptr_key| |exact Hrep'].
        intros b. eapply rep_grows; [exact Hg2|]. by eapply rep_grows.
      * intros it2 t3 _ _ _ (Hrep2 & Hok3). apply wp_ret. intros _.
        split; [done|]. split; [|done]. rewrite HLq, Ei. eapply rep_ext; [|exact Hrep2].
        apply under_eq; [done|]. intros k. apply upd_key. intros k' (b & k'' & ->)%Hm. eauto.
    + apply wp_ret. intros _. split; [done|]. by rewrite Ei.
Qed.

(** ** Reading *)

(** Reading changes nothing but the read cache. *)
Definition reads_to {A} (m : M A) (a : A) (t : RadixTreeImpl) : Prop :=
  ∃ t', m t = Done a t' ∧ tree_ok t' ∧ cached t' ∧ grows t t' ∧ cache_write t' = cache_write t.

Lemma load_node_reads n na t :
  clean t → cached t → tree_ok t → known t n → reads_to (load_node (hash_of n) na) n t.
Proof.
  intros Hcl Hc Hok Hn. pose proof (wp_load_node n na t Hok Hn Hc) as Hwp.
  pose proof (safe_load_node (hash_of n) na t Hc) as Hs.
  assert (match load_node (hash_of n) na t with
    | Done _ t' | Panic _ t' => cache_write t' = cache_write t | NoFuel => False end) as Hw.
  { unfold load_node. destruct (cache_read t !! hash_of n); [done|].
    unfold bind at 1, load_node_from_store. destruct (store t !! hash_of n) as [b|]; [|by destruct na].
    destruct (SerializedNode_try_from b) as [b'|]; [|by destruct na]. by destruct (decode b'). }
  assert (∀ r t', load_node (hash_of n) na t = Panic r t' → ¬ is_collision r) as Hnc.
  { unfold load_node. destruct (cache_read t !! hash_of n); [done|]. intros r t'.
    unfold bind at 1, load_node_from_store. destruct (store t !! hash_of n) as [b|].
    - destruct (SerializedNode_try_from b) as [b'|]; [by destruct (decode b'); simpl; intros [=]; subst; intros [? ?]|].
      destruct na; simpl; [done|]. by intros [= <- <-] [? ?].
    - destruct na; simpl; [done|]. by intros [= <- <-] [? ?]. }
  destruct (load_node (hash_of n) na t) as [a t'|r t'|] eqn:E; [|exfalso|done].
  - destruct Hs as [Hc' Hg]. assert (clean t') as Hcl'.
    { intros h x y. rewrite Hw, (grows_store _ _ Hg). apply Hcl. }
    destruct (Hwp Hcl') as [-> Hok']. exists t'. done.
  - apply (Hnc r t' eq_refl), Hwp. intros h x y. rewrite Hw, (grows_store _ _ Hs). apply Hcl.
Qed.

Lemma child_node_rep K L p n m :
  K n → node_wf n → m p = None → (∀ b, rep K L (node_at n b) (λ k, m (p ++ b :: k))) →
  node_rep K L n (λ k, m (p ++ k)).
Proof. intros HK Hwf Hp Hb. split_and!; [done|by rewrite app_nil_r|done]. Qed.

Lemma read_loop_reads fuel n k L m t :
  (length k < fuel)%nat → clean t → cached t → tree_ok t → node_rep (known t) L n m →
  length k = S L → reads_to (read_loop fuel n k) (m k) t.
Proof.
  revert n k L m t. induction fuel as [|fuel IH]; intros n k L m t Hf Hcl Hc Hok Hrep Hk; [lia|].
  destruct k as [|b k]; [done|]. cbn [read_loop]. change (KeySegment.is_empty (b :: k)) with false.
  pose proof Hrep as (Hwf & Hnil & Hb). specialize (Hb b). injection Hk as Hk.
  change (reads_to (match node_at n b with
    | Empty => ret None
    | Leaf lp v => ret (if bool_decide (lp = k) then Some v else None)
    | NodePtr pp ptr =>
        let '(_, kr, pr) := KeySegment.common_prefix k pp in
        if KeySegment.is_empty pr then n' ←! load_node ptr false; read_loop fuel n' kr
        else ret None
    end) (m (b :: k)) t).
  assert (∀ o, o = m (b :: k) → reads_to (ret o) (m (b :: k)) t) as Hret.
  { intros o ->. exists t. done. }
  destruct (node_at n b) as [|p v|q h].
  - apply Hret. symmetry. by apply (rep_empty_inv _ _ _ Hb).
  - pose proof (rep_leaf_inv _ _ _ _ _ Hb) as (_ & _ & Hm). apply Hret. rewrite Hm.
    case_bool_decide; [by rewrite decide_True by congruence|by rewrite decide_False by congruence].
  - destruct (KeySegment.common_prefix k q) as [[c kr] pr] eqn:E.
    unfold KeySegment.is_empty. case_bool_decide as Hpr.
    + subst pr. pose proof (KeySegment.common_prefix_spec _ _ _ _ _ E) as (-> & -> & _).
      rewrite app_nil_r in Hb. rewrite length_app in Hk.
      pose proof (rep_ptr_key _ _ _ _ _ Hb) as Hkey.
      pose proof (rep_ptr_inv _ _ _ _ _ Hb) as (L' & n' & -> & HLq & Hn & Hwf' & _ & Hb' & _).
      destruct (load_node_reads n' false t Hcl Hc Hok Hn) as (t1 & E1 & Hok1 & Hc1 & Hg1 & Hw1).
      assert (clean t1) as Hcl1.
      { intros x y z. rewrite Hw1, (grows_store _ _ Hg1). apply Hcl. }
      destruct (IH n' kr L' (λ k, m (b :: c ++ k)) t1) as (t2 & E2 & Hok2 & Hc2 & Hg2 & Hw2);
        [simpl in Hf; rewrite length_app in Hf; lia|done|done|done| |lia|].
      { apply (child_node_rep _ _ c n' (λ k, m (b :: k))); [by eapply known_grows|done|done|].
        intros b'. by eapply rep_grows. }
      exists t2. unfold bind. rewrite E1, E2. split_and!; [done|done|done|by etrans|congruence].
    + apply Hret. symmetry.
      apply (ptr_key_none _ _ _ _ (λ k, m (b :: k)) k c kr pr Hb E). by left.
Qed.
End Spec.
