(* ===== verification/RadixHistory.v ===== *)
(** * Correctness of the radix history: batches, commit and roots

    Builds on [RadixTreeSpec]: a batch of actions applied to a node
    ([make_actions]), the commit of the write cache, and the history as a
    whole ([process], [read], [reset]).  A history refines a finite map:
    [process] applies the actions to it, reads look it up, the root hash is
    determined by it. *)

From S2P Require Import Prelude BTree Bytes RadixCodec RadixTree RadixTreeSpec.
Import RadixNode RadixTree.

(** ** Actions on contents *)

Definition action_value (a : HistoryAction) : option hash :=
  match a with ActInsert _ v => Some v | ActDelete _ => None end.
Definition apply_act (m : contents) (a : HistoryAction) : contents :=
  upd m (action_key a) (action_value a).
Definition apply_actions (m : contents) (l : list HistoryAction) : contents := foldl apply_act m l.

Definition action_head (a : HistoryAction) : byte := hd x00 (action_key a).
Definition trim_act (a : HistoryAction) : HistoryAction :=
  match a with
  | ActInsert key v => ActInsert (tl key) v
  | ActDelete key => ActDelete (tl key)
  end.

Lemma action_value_trim a : action_value (trim_act a) = action_value a.
Proof. by destruct a. Qed.
Lemma action_key_trim a : action_key (trim_act a) = tl (action_key a).
Proof. by destruct a. Qed.

Lemma apply_actions_ext l (m m' : contents) :
  (∀ k, m k = m' k) → ∀ k, apply_actions m l k = apply_actions m' l k.
Proof.
  revert m m'. induction l as [|a l IH]; intros m m' Hm k; [apply Hm|].
  apply IH. intros k'. unfold apply_act, upd. by case_decide.
Qed.

Lemma apply_actions_other l (m : contents) k :
  k ∉ action_key <$> l → apply_actions m l k = m k.
Proof.
  revert m. induction l as [|a l IH]; intros m Hk; [done|].
  rewrite fmap_cons, not_elem_of_cons in Hk. destruct Hk as [Hne Hk].
  cbn [apply_actions foldl]. fold (apply_actions (apply_act m a) l). rewrite IH by done.
  unfold apply_act, upd. by rewrite decide_False.
Qed.

(** The actions on keys that start with [b], seen below [b]. *)
Lemma apply_actions_below l (m : contents) b k :
  (∀ a, a ∈ l → action_key a ≠ []) →
  apply_actions m l (b :: k) =
  apply_actions (λ k, m (b :: k)) (trim_act <$> filter (λ a, action_head a = b) l) k.
Proof.
  revert m. induction l as [|a l IH]; intros m Hl; [done|].
  assert (action_key a ≠ []) as Ha by (apply Hl; left).
  cbn [apply_actions foldl]. fold (apply_actions (apply_act m a) l).
  rewrite IH by (intros; apply Hl; by right). rewrite filter_cons. case_decide as Hb.
  - rewrite fmap_cons. cbn [apply_actions foldl].
    fold (apply_actions (apply_act (λ k, m (b :: k)) (trim_act a)) (trim_act <$> filter (λ a, action_head a = b) l)).
    apply apply_actions_ext. intros k'. unfold apply_act. rewrite action_value_trim, action_key_trim.
    unfold action_head in Hb. destruct (action_key a) as [|x key]; [done|]. simpl in *. subst x.
    apply upd_cons.
  - apply apply_actions_ext. intros k'. unfold apply_act, upd, action_head in *.
    rewrite decide_False; [done|]. intros E. by rewrite <- E in Hb.
Qed.

(** ** Grouping *)

Definition groups (l : list HistoryAction) (g : list (byte * list HistoryAction)) :
    list (byte * list HistoryAction) :=
  foldl (λ g a, add_to_group (action_head a) a g) g l.

Lemma group_actions_done l g t :
  (∀ a, a ∈ l → action_key a ≠ []) → group_actions l g t = Done (groups l g) t.
Proof.
  revert g. induction l as [|a l IH]; intros g Hl; [done|]. cbn [group_actions].
  assert (KeySegment.head (action_key a) = Some (action_head a)) as ->.
  { unfold action_head. specialize (Hl a ltac:(left)). by destruct (action_key a). }
  unfold bind. simpl. rewrite IH by (intros; apply Hl; by right). done.
Qed.

Definition group_map (g : list (byte * list HistoryAction)) : gmap byte (list HistoryAction) :=
  list_to_map g.

Lemma add_to_group_map b a g :
  group_map (add_to_group b a g) = <[b := default [] (group_map g !! b) ++ [a]]> (group_map g).
Proof.
  unfold group_map in *.
  induction g as [|[b' l] g IH]; simpl; [done|]. case_bool_decide as Hb; simpl.
  - subst. by rewrite lookup_insert_eq, insert_insert_eq.
  - rewrite IH, lookup_insert_ne by done. by rewrite insert_insert_ne.
Qed.

Lemma add_to_group_keys b a g :
  (add_to_group b a g).*1 = if decide (b ∈ g.*1) then g.*1 else g.*1 ++ [b].
Proof.
  induction g as [|[b' l] g IH]; [done|]. cbn [add_to_group].
  case_bool_decide as Hb; rewrite !fmap_cons; cbn [fst].
  - subst. rewrite decide_True by left. done.
  - rewrite IH. destruct (decide (b ∈ g.*1)) as [Hin|Hin].
    + rewrite decide_True by (by right). done.
    + rewrite decide_False; [done|]. rewrite elem_of_cons. naive_solver.
Qed.

Lemma groups_spec l :
  NoDup (groups l []).*1 ∧
  ∀ b, group_map (groups l []) !! b =
    match filter (λ a, action_head a = b) l with [] => None | la => Some la end.
Proof.
  induction l as [|a l [IHn IHm]] using rev_ind; [split; [constructor|done]|].
  unfold groups in *. rewrite foldl_app. cbn [foldl]. set (g := foldl _ [] l) in *. split.
  - rewrite add_to_group_keys. case_decide as Hin; [done|].
    apply NoDup_app. split_and!; [done| |apply NoDup_singleton].
    intros x Hx ->%list_elem_of_singleton. done.
  - intros b. rewrite add_to_group_map, lookup_insert, filter_app, filter_cons, filter_nil.
    destruct (decide (action_head a = b)) as [->|Hne].
    + rewrite IHm. destruct (filter _ l); done.
    + by rewrite app_nil_r.
Qed.

Section History.
Context (create : list byte → hash).
Context (create_length : ∀ b, length (create b) = 32%nat).
Notation hash_of := (hash_of create).
Notation cached := (cached create).
Notation known := (known create).
Notation tree_ok := (tree_ok create).
Notation safe := (safe create).
Notation wp := (wp create).
Notation rep := (rep create).
Notation node_rep := (node_rep create).

(** ** Batches *)

Lemma safe_mapM {A B} (f : A → M B) l : (∀ a, a ∈ l → safe (f a)) → safe (mapM f l).
Proof.
  induction l as [|a l IH]; intros Hf; [apply safe_ret|]. cbn [mapM].
  apply safe_bind; [apply Hf; left|]. intros b. apply safe_bind; [|intros; apply safe_ret].
  apply IH. intros; apply Hf; by right.
Qed.

Lemma wp_mapM {A B} (f : A → M B) l (Φ : A → B → RadixTreeImpl → Prop) t :
  (∀ a b t t', grows t t' → Φ a b t → Φ a b t') →
  (∀ a, a ∈ l → safe (f a)) →
  (∀ a t', a ∈ l → grows t t' → cached t' → tree_ok t' →
     wp (f a) (λ b t'', tree_ok t'' ∧ Φ a b t'') t') →
  tree_ok t → wp (mapM f l) (λ bs t', tree_ok t' ∧ Forall2 (λ a b, Φ a b t') l bs) t.
Proof.
  intros Hst Hsafe. revert t. induction l as [|a l IH]; intros t Hf Hok; cbn [mapM].
  { apply wp_ret. intros _. split; [done|constructor]. }
  assert (∀ x, x ∈ l → safe (f x)) as Hsafe' by (intros; apply Hsafe; by right).
  intros Hcached. revert Hcached. eapply wp_bind; [apply Hsafe; left| | |].
  - intros b. apply safe_bind; [by apply safe_mapM|]. intros. apply safe_ret.
  - intros Hc. by apply (Hf a t); [left|done|done|done|].
  - intros b t1 Hc1 Hg1 Hcl1 [Hok1 Hb].
    eapply wp_bind; [by apply safe_mapM|intros; apply safe_ret|apply IH|]; [done| |done|].
    + intros x t' Hx Hg Hc. apply Hf; [by right|by etrans|done].
    + intros bs t2 _ Hg2 _ [Hok2 Hbs]. apply wp_ret. intros _. split; [done|].
      constructor; [by eapply Hst|done].
Qed.

Lemma trim_done a t :
  action_key a ≠ [] → trim a t = Done (trim_act a) t.
Proof. destruct a as [[|b key] v|[|b key]]; simpl; done. Qed.

Lemma mapM_trim_done l t :
  (∀ a, a ∈ l → action_key a ≠ []) → mapM trim l t = Done (trim_act <$> l) t.
Proof.
  induction l as [|a l IH]; intros Hl; [done|]. cbn [mapM]. unfold bind.
  rewrite trim_done by (apply Hl; left). rewrite IH by (intros; apply Hl; by right). done.
Qed.

Lemma safe_trim a : safe (trim a).
Proof.
  destruct a; unfold trim; apply safe_bind; try apply safe_in_range; intros; apply safe_ret.
Qed.

Lemma mapM_trim_inv l l' t t' :
  mapM trim l t = Done l' t' → ∀ a', a' ∈ l' → ∃ a b, a ∈ l ∧ action_key a = b :: action_key a'.
Proof.
  revert l'. induction l as [|a l IH]; intros l' E; cbn [mapM] in E.
  { injection E as <- <-. by intros a' ?%elem_of_nil. }
  unfold bind in E.
  assert (trim a t = if bool_decide (action_key a = []) then Panic OutOfRange t
    else Done (trim_act a) t) as Ht by (by destruct a as [[|b key] v|[|b key]]).
  rewrite Ht in E. case_bool_decide as Hk; [done|].
  destruct (mapM trim l t) as [bs t1|r t1|] eqn:El; [|done|done]. injection E as <- <-.
  intros a' [->|Ha']%elem_of_cons.
  - exists a. rewrite action_key_trim. destruct (action_key a) as [|b key] eqn:Ek; [done|].
    exists b. split; [by left|done].
  - destruct (IH bs eq_refl a' Ha') as (a0 & b & Ha0 & ?). exists a0, b. split; [by right|done].
Qed.

Lemma safe_group_actions l g : safe (group_actions l g).
Proof.
  revert g. induction l as [|a l IH]; intros g; cbn [group_actions]; [apply safe_ret|].
  apply safe_bind; [apply safe_in_range|]. intros. apply IH.
Qed.

Lemma add_to_group_elem b a g b' l x :
  (b', l) ∈ add_to_group b a g → x ∈ l → x = a ∨ ∃ l0, (b', l0) ∈ g ∧ x ∈ l0.
Proof.
  induction g as [|[b0 l0] g IH]; cbn [add_to_group].
  - intros [= -> ->]%list_elem_of_singleton ->%list_elem_of_singleton. by left.
  - case_bool_decide as Hb; intros [Heq|Hin]%elem_of_cons Hx.
    + injection Heq as -> ->. apply elem_of_app in Hx as [Hx| ->%list_elem_of_singleton]; [|by left].
      right. exists l0. split; [left|done].
    + right. exists l. split; [by right|done].
    + injection Heq as -> ->. right. exists l0. split; [left|done].
    + destruct (IH Hin Hx) as [->|(l1 & ? & ?)]; [by left|]. right. exists l1. split; [by right|done].
Qed.

Lemma group_actions_elem l g g' t t' b la a :
  group_actions l g t = Done g' t' → (b, la) ∈ g' → a ∈ la →
  a ∈ l ∨ ∃ l0, (b, l0) ∈ g ∧ a ∈ l0.
Proof.
  revert g. induction l as [|x l IH]; intros g E Hb Ha; cbn [group_actions] in E.
  { injection E as <- <-. right. eauto. }
  unfold bind in E. destruct (KeySegment.head (action_key x)) as [first|]; [|done].
  destruct (IH _ E Hb Ha) as [?|(l0 & Hl0 & Ha0)]; [left; by right|].
  destruct (add_to_group_elem _ _ _ _ _ _ Hl0 Ha0) as [->|?]; [left; left|by right].
Qed.

Lemma safe_construct it : safe (construct_node_from_item it).
Proof.
  assert (safe (create_node_from_item it)) as Hc.
  { destruct it; cbn [create_node_from_item]; [apply safe_ret|..];
      (apply safe_bind_assert; repeat (apply safe_bind; [apply safe_in_range|intros]); apply safe_ret). }
  destruct it as [|p v|p h]; cbn [construct_node_from_item]; [done|done|].
  destruct (KeySegment.is_empty p); [apply safe_load_node|done].
Qed.

Lemma safe_process_group rec n g :
  (∀ n' l, l ≠ [] → (∀ a', a' ∈ l → ∃ a b, a ∈ g.2 ∧ action_key a = b :: action_key a') →
     safe (rec n' l)) →
  safe (process_group create rec n g).
Proof.
  destruct g as [b l]. intros Hrec. cbn [snd] in Hrec. unfold process_group.
  assert (∀ cleared, (cleared = l ∨ cleared = []) → safe
    match cleared with
    | [] => ret (b, None)
    | _ :: _ =>
        created_node ←! construct_node_from_item (node_at n b);
        new_actions ←! mapM trim cleared;
        new_node_opt ←! rec created_node new_actions;
        match new_node_opt with
        | Some n => it ←! save_node_and_create_item create n [] true; ret (b, Some it)
        | None => ret (b, None)
        end
    end) as Hmulti.
  { intros cleared Hcl. destruct cleared as [|a0 l0]; [apply safe_ret|].
    apply safe_bind; [apply safe_construct|]. intros n'. apply safe_bind_post.
    { apply safe_mapM. intros. apply safe_trim. }
    intros l' t t' El. apply safe_bind.
    - apply Hrec.
      { intros ->. cbn [mapM] in El. unfold bind in El. destruct (trim a0 t); [|done|done].
        by destruct (mapM trim l0 _). }
      intros a' Ha'. destruct (mapM_trim_inv _ _ _ _ El a' Ha') as (a & b' & Ha & Hk).
      exists a, b'. split; [|done]. by destruct Hcl as [<-|].
    - intros [n2|]; [|apply safe_ret]. apply safe_bind; [apply safe_save_item|]. intros. apply safe_ret. }
  destruct l as [|a [|a' l]].
  - apply Hmulti. destruct (_ && _); auto.
  - apply safe_bind; [|intros; apply safe_ret].
    destruct a; (apply safe_bind_in_range; intros k Hk).
    + apply safe_update_rec. lia.
    + apply safe_delete_rec. lia.
  - apply Hmulti. destruct (_ && _); auto.
Qed.

Lemma safe_make_actions_rec fuel n l :
  (∀ a, a ∈ l → (length (action_key a) < fuel)%nat) → (0 < fuel)%nat →
  safe (make_actions_rec create fuel n l).
Proof.
  revert n l. induction fuel as [|fuel IH]; intros n l Hl Hf; [lia|]. cbn [make_actions_rec].
  apply safe_bind_post; [apply safe_group_actions|]. intros g t t' Eg.
  apply safe_bind; [|intros; apply safe_ret]. apply safe_mapM. intros [b la] Hin.
  apply safe_process_group. cbn [snd]. intros n' l' Hne Hl'.
  assert (∀ a', a' ∈ l' → (length (action_key a') < fuel)%nat) as Hlen.
  { intros a' (a & b' & Ha & Hk)%Hl'.
    destruct (group_actions_elem _ _ _ _ _ _ _ _ Eg Hin Ha) as [Hal|(? & ?%elem_of_nil & _)]; [|done].
    specialize (Hl a Hal). rewrite Hk in Hl. simpl in Hl. lia. }
  apply IH; [done|]. destruct l' as [|a' l']; [done|]. specialize (Hlen a' ltac:(left)). lia.
Qed.

Notation item_result := (item_result create).

(** One slot, from an item. *)
Lemma single_node_rep K L x it m :
  (L ≤ 127)%nat → rep K L it (λ k, m (x :: k)) → (∀ k, m k ≠ None → ∃ k', k = x :: k') →
  node_rep K L (node_set empty_node x it) m.
Proof.
  intros HL Hit Hm. split_and!.
  - apply node_set_wf; [apply empty_node_wf|]. by eapply rep_item_wf.
  - destruct (m []) eqn:E; [|done]. destruct (Hm []) as [? ?]; [congruence|done].
  - intros b. rewrite node_at_set by apply length_replicate. case_decide as Hb; [by subst|].
    rewrite node_at_empty. constructor. intros k. destruct (m (b :: k)) eqn:E; [|done].
    destruct (Hm (b :: k)) as [k' [= ? ?]]; [congruence|]. congruence.
Qed.

Lemma wp_construct it L m t :
  (S L ≤ 127)%nat → tree_ok t → rep (known t) (S L) it m →
  wp (construct_node_from_item it) (λ n t', tree_ok t' ∧ node_rep (known t') L n m) t.
Proof.
  intros HL Hok Hrep. destruct it as [|p v|q h]; cbn [construct_node_from_item create_node_from_item].
  - apply wp_ret. intros _. split; [done|]. pose proof (rep_empty_inv _ _ _ _ Hrep) as Hm.
    split_and!; [apply empty_node_wf|apply Hm|]. intros b. rewrite node_at_empty.
    constructor. intros k. apply Hm.
  - pose proof (rep_leaf_inv _ _ _ _ _ _ Hrep) as (Hp & Hv & Hm).
    destruct p as [|x p]; [done|]. apply wp_bind_assert; [done|].
    do 2 (eapply wp_bind_in_range; [done|]). apply wp_ret. intros _. split; [done|].
    apply single_node_rep; [lia| |].
    + constructor; [simpl in Hp; lia|done|]. intros k. rewrite Hm.
      destruct (decide (k = p)) as [->|Hne]; [by rewrite decide_True|].
      rewrite decide_False; [done|congruence].
    + intros k. rewrite Hm. case_decide; [subst; eauto|done].
  - destruct q as [|x q].
    + pose proof (rep_ptr_key _ _ _ _ _ _ Hrep) as Hkey.
      pose proof (rep_ptr_inv _ _ _ _ _ _ Hrep) as (L' & n & -> & HL' & Hn & Hwf & _ & Hb & _).
      assert (L' = L) as -> by (simpl in HL'; lia).
      eapply wp_mono; [apply safe_load_node|by apply wp_load_node|].
      intros n' t' Hg _ [-> Hok']. split; [done|].
      apply (child_node_rep _ _ _ [] n m); [by eapply known_grows|done|done|].
      intros b. by eapply rep_grows.
    + destruct (rep_ptr_tail _ _ _ [] _ _ _ _ Hrep) as [Htail Hkeys]. simpl in Htail, Hkeys.
      apply wp_bind_assert; [done|]. do 2 (eapply wp_bind_in_range; [done|]).
      apply wp_ret. intros _. split; [done|]. apply single_node_rep; [lia| |done].
      by rewrite Nat.sub_0_r in Htail.
Qed.

(** Actions a batch on keys of length [L] may have. *)
Record actions_ok (L : nat) (l : list HistoryAction) : Prop := {
  act_length : ∀ a, a ∈ l → length (action_key a) = L;
  act_nodup : NoDup (action_key <$> l);
  act_value : ∀ a v, a ∈ l → action_value a = Some v → length v = 32%nat;
}.

Definition node_result (m : contents) (l : list HistoryAction) (L : nat)
    (r : option Node) (t : RadixTreeImpl) : Prop :=
  tree_ok t ∧
  match r with
  | None => ∀ k, apply_actions m l k = m k
  | Some n => node_rep (known t) L n (apply_actions m l)
  end.

(** Result of a group of actions, trimmed to [l], on the slot with map [m]. *)
Definition slot_result (m : contents) (l : list HistoryAction) (L : nat)
    (o : option Item) (t : RadixTreeImpl) : Prop :=
  match o with
  | None => ∀ k, apply_actions m l k = m k
  | Some it => rep (known t) L it (apply_actions m l)
  end.

Lemma item_slot_result m a L o t :
  item_result m (action_key a) (action_value a) L o t → slot_result m [a] L o t.
Proof.
  intros [_ Hr]. destruct o as [it|]; [apply Hr|]. intros k. simpl. unfold apply_act, upd.
  case_decide; [by subst|done].
Qed.

Lemma actions_ok_group L l b la :
  actions_ok (S L) l → la = filter (λ a, action_head a = b) l → actions_ok L (trim_act <$> la).
Proof.
  intros [Hlen Hnd Hval] ->. split.
  - intros a (a0 & -> & [_ Ha0]%list_elem_of_filter)%list_elem_of_fmap.
    rewrite action_key_trim. specialize (Hlen a0 Ha0). destruct (action_key a0); simpl in *; lia.
  - apply (NoDup_fmap_1 (cons b)). eapply sublist_NoDup; [exact Hnd|].
    replace (cons b <$> (action_key <$> (trim_act <$> filter (λ a, action_head a = b) l)))
      with (action_key <$> filter (λ a, action_head a = b) l);
      [apply fmap_sublist, sublist_filter|].
    rewrite <- !list_fmap_compose. apply list_fmap_ext.
    intros i a Ha%list_elem_of_lookup_2%list_elem_of_filter. destruct Ha as [Hb Ha]. simpl.
    rewrite action_key_trim. specialize (Hlen a Ha). unfold action_head in Hb.
    destruct (action_key a) as [|x k]; simpl in *; [done|congruence].
  - intros a v (a0 & -> & [_ Ha0]%list_elem_of_filter)%list_elem_of_fmap.
    rewrite action_value_trim. eauto.
Qed.

Lemma deletes_of_empty l (m : contents) :
  (∀ k, m k = None) → existsb is_insert l = false → ∀ k, apply_actions m l k = m k.
Proof.
  intros Hm Hl k. rewrite Hm. rewrite existsb_not_elem in Hl.
  cut (∀ k, apply_actions m l k = None); [done|]. clear k.
  apply (foldl_inv (λ m : contents, ∀ k, m k = None)); [done|].
  intros m' a Ha Hm' k. unfold apply_act, upd. case_decide; [|done].
  specialize (Hl a Ha). by destruct a.
Qed.

(** Several actions on one slot: the item becomes a node of its own. *)
Lemma wp_process_multi rec n L m b a a' la t :
  let l := a :: a' :: la in
  (S L ≤ 127)%nat → tree_ok t → rep (known t) (S L) (node_at n b) (λ k, m (b :: k)) →
  (∀ x, x ∈ l → action_key x ≠ []) →
  (∀ n' l', l' ≠ [] → (∀ x', x' ∈ l' → ∃ x b, x ∈ l ∧ action_key x = b :: action_key x') →
     safe (rec n' l')) →
  (∀ n' m' t', tree_ok t' → node_rep (known t') L n' m' →
     wp (rec n' (trim_act <$> l)) (node_result m' (trim_act <$> l) L) t') →
  wp (process_group create rec n (b, l))
     (λ r t', tree_ok t' ∧ r.1 = b ∧ slot_result (λ k, m (b :: k)) (trim_act <$> l) (S L) r.2 t') t.
Proof.
  intros l HL Hok Hb Hkeys Hsafe Hrec. unfold process_group. cbn match. fold l.
  destruct (bool_decide (node_at n b = Empty) && negb (existsb is_insert l)) eqn:Ecl.
  { apply andb_true_iff in Ecl as [He%bool_decide_eq_true Hi%negb_true_iff].
    apply wp_ret. intros _. split_and!; [done|done|]. rewrite He in Hb. cbn [snd slot_result].
    apply (deletes_of_empty (trim_act <$> l) (λ k, m (b :: k))); [apply (rep_empty_inv _ _ _ _ Hb)|].
    rewrite existsb_not_elem in *. intros x (x0 & -> & Hx0)%list_elem_of_fmap.
    specialize (Hi x0 Hx0). by destruct x0. }
  change (match l with [] => ret (b, None) | _ :: _ => _ end) with
    (created_node ←! construct_node_from_item (node_at n b);
     new_actions ←! mapM trim l;
     new_node_opt ←! rec created_node new_actions;
     match new_node_opt with
     | Some n => it ←! save_node_and_create_item create n [] true; ret (b, Some it)
     | None => ret (b, None)
     end).
  assert (∀ o, safe match o with
     | Some n => it ←! save_node_and_create_item create n [] true; ret (b, Some it)
     | None => ret (b, None) end) as Hs1.
  { intros [n2|]; [|apply safe_ret]. apply safe_bind; [apply safe_save_item|]. intros. apply safe_ret. }
  assert (∀ n', safe (rec n' (trim_act <$> l))) as Hs2.
  { intros n'. apply Hsafe; [done|]. intros x' (x & -> & Hx)%list_elem_of_fmap.
    specialize (Hkeys x Hx). exists x. rewrite action_key_trim.
    destruct (action_key x) as [|b' k]; [done|]. by exists b'. }
  eapply wp_bind; [apply safe_construct| |by apply wp_construct|].
  { intros n'. apply safe_bind_post; [apply safe_mapM; intros; apply safe_trim|].
    intros l' t1 t1' E. rewrite mapM_trim_done in E by done. injection E as <- <-.
    by apply safe_bind. }
  intros n' t1 Hc1 Hg1 Hcl1 [Hok1 Hn'].
  assert (wp (bind (rec n' (trim_act <$> l)) (λ o, match o with
     | Some n => it ←! save_node_and_create_item create n [] true; ret (b, Some it)
     | None => ret (b, None) end)) (λ r t', tree_ok t' ∧ r.1 = b ∧
       slot_result (λ k, m (b :: k)) (trim_act <$> l) (S L) r.2 t') t1) as Hwp.
  { eapply wp_bind; [done|done|by apply Hrec|]. intros [n2|] t2 _ _ _ [Hok2 Hr].
    - eapply wp_bind; [apply safe_save_item|intros; apply safe_ret|by apply (wp_save_compact create n2 [] L)|].
      intros it t3 _ _ _ [Hit Hok3]. apply wp_ret. intros _. split_and!; [done|done|].
      simpl. eapply rep_ext; [|exact Hit]. apply under_eq; [done|eauto].
    - apply wp_ret. intros _. done. }
  intros Hc. unfold bind at 1. rewrite mapM_trim_done by done. by apply Hwp.
Qed.

Lemma wp_process_group rec n L m l b la t :
  (L ≤ 127)%nat → tree_ok t → node_rep (known t) L n m → actions_ok (S L) l →
  la = filter (λ a, action_head a = b) l → la ≠ [] →
  (∀ n' l, l ≠ [] → (∀ a', a' ∈ l → ∃ a b, a ∈ la ∧ action_key a = b :: action_key a') →
     safe (rec n' l)) →
  (∀ L' n' m' t', L = S L' → tree_ok t' → node_rep (known t') L' n' m' →
     wp (rec n' (trim_act <$> la)) (node_result m' (trim_act <$> la) L') t') →
  wp (process_group create rec n (b, la))
     (λ r t', tree_ok t' ∧ r.1 = b ∧ slot_result (λ k, m (b :: k)) (trim_act <$> la) L r.2 t') t.
Proof.
  intros HL Hok Hrep Hact Hla Hne Hsafe Hrec.
  pose proof (actions_ok_group L l b la Hact Hla) as Hact'.
  assert (∀ a, a ∈ la → action_key a ≠ []) as Hkeys.
  { intros a Ha. rewrite Hla in Ha. apply list_elem_of_filter in Ha as [_ Ha].
    apply (act_length _ _ Hact) in Ha. by destruct (action_key a). }
  pose proof Hrep as (Hwf & Hnil & Hb). specialize (Hb b).
  destruct la as [|a [|a' la]]; [done| |].
  - specialize (Hkeys a ltac:(left)). pose proof (act_length _ _ Hact' (trim_act a) ltac:(left)) as Hlen.
    rewrite action_key_trim in Hlen. unfold process_group.
    assert (∀ mm, safe mm → wp mm (item_result (λ k, m (b :: k)) (action_key (trim_act a))
      (action_value (trim_act a)) L) t →
      wp (bind mm (λ o, ret (b, o))) (λ r t', tree_ok t' ∧ r.1 = b ∧
        slot_result (λ k, m (b :: k)) (trim_act <$> [a]) L r.2 t') t) as Hfin.
    { intros mm Hs Hmm. eapply wp_bind; [done|intros; apply safe_ret|exact Hmm|].
      intros o t' _ _ _ Ho. apply wp_ret. intros _. split_and!; [apply Ho|done|].
      by apply item_slot_result. }
    destruct a as [key v|key]; simpl in Hkeys, Hlen; (destruct key as [|x key]; [done|]).
    + apply Hfin; [apply safe_bind_in_range; intros k [= <-]; apply safe_update_rec; lia|].
      eapply wp_bind_in_range; [done|]. apply (wp_update create create_length (S (length key)) _ key v L); [lia|done|done|done|done|].
      apply (act_value _ _ Hact' (ActInsert key v)); [left|done].
    + apply Hfin; [apply safe_bind_in_range; intros k [= <-]; apply safe_delete_rec; lia|].
      eapply wp_bind_in_range; [done|]. by apply (wp_delete create create_length (S (length key)) _ key L); [lia|done|done|done|].
  - assert (∃ L', L = S L') as [L' ->].
    { destruct L as [|L']; [exfalso|by eauto].
      pose proof (act_nodup _ _ Hact') as Hnd. rewrite !fmap_cons in Hnd.
      apply NoDup_cons in Hnd as [Hnd _]. apply Hnd.
      pose proof (act_length _ _ Hact' (trim_act a) ltac:(left)) as H1%nil_length_inv.
      pose proof (act_length _ _ Hact' (trim_act a') ltac:(right; left)) as H2%nil_length_inv.
      rewrite H1, H2. left. }
    eapply wp_process_multi; try done. intros. by apply Hrec.
Qed.

(** The result of each slot, put together. *)
Lemma set_group_items_at n (l : list (byte * option Item)) b :
  length n = NUM_ITEMS → NoDup l.*1 →
  node_at (set_group_items n l) b =
  match (list_to_map l : gmap byte (option Item)) !! b with
  | Some (Some it) => it
  | _ => node_at n b
  end ∧ length (set_group_items n l) = NUM_ITEMS.
Proof.
  revert n. induction l as [|[b' o] l IH]; intros n Hn Hnd; [done|].
  rewrite fmap_cons in Hnd. apply NoDup_cons in Hnd as [Hb' Hnd]. cbn [fst] in Hb'.
  unfold set_group_items in *. cbn [foldl]. rewrite list_to_map_cons.
  set (n1 := match o with Some it => node_set n b' it | None => n end).
  assert (length n1 = NUM_ITEMS) as Hn1.
  { unfold n1, node_set. destruct o; by rewrite ?length_insert. }
  destruct (IH n1 Hn1 Hnd) as [-> Hlen]. split; [|done].
  destruct (decide (b = b')) as [->|Hne].
  - rewrite not_elem_of_list_to_map_1 by done. rewrite lookup_insert_eq.
    unfold n1. destruct o as [it|]; [|done]. by rewrite node_at_set, decide_True.
  - rewrite lookup_insert_ne by done. destruct (list_to_map l !! b) as [[it|]|]; [done|..];
      unfold n1; destruct o; rewrite ?node_at_set, ?decide_False by done; done.
Qed.

Lemma node_wf_slots n : length n = NUM_ITEMS → (∀ b, item_wf (node_at n b)) → node_wf n.
Proof.
  intros Hn Hb. split; [done|]. apply Forall_lookup_2. intros i it Hi.
  pose proof (lookup_lt_Some _ _ _ Hi) as Hlt. rewrite Hn in Hlt.
  specialize (Hb (as_u8 i)). unfold node_at in Hb. rewrite u8_val_as, nth_lookup, Hi in Hb by done.
  done.
Qed.

(** The slots after all groups are done store the updated map. *)
Lemma group_items_rep n L m l items t :
  (L ≤ 127)%nat → node_rep (known t) L n m → actions_ok (S L) l →
  Forall2 (λ g r, r.1 = g.1 ∧
    slot_result (λ k, m (g.1 :: k)) (trim_act <$> g.2) L r.2 t) (groups l []) items →
  node_rep (known t) L (set_group_items n items) (apply_actions m l).
Proof.
  intros HL (Hwf & Hnil & Hb) Hact Hit. destruct (groups_spec l) as [Hnd Hg].
  assert (∀ a, a ∈ l → action_key a ≠ []) as Hkeys.
  { intros a Ha%(act_length _ _ Hact). by destruct (action_key a). }
  assert (items.*1 = (groups l []).*1) as Ekeys.
  { clear -Hit. induction Hit as [|g r gs rs [Hr _] _ IH]; [done|]. rewrite !fmap_cons. congruence. }
  assert (∀ b, rep (known t) L (node_at (set_group_items n items) b)
    (λ k, apply_actions m l (b :: k))) as Hslots.
  { intros b. rewrite (proj1 (set_group_items_at n items b (proj1 Hwf) ltac:(by rewrite Ekeys))).
    assert (∀ la, filter (λ a, action_head a = b) l = la →
      (∀ k, apply_actions (λ k, m (b :: k)) (trim_act <$> la) k = m (b :: k)) →
      rep (known t) L (node_at n b) (λ k, apply_actions m l (b :: k))) as Hsame.
    { intros la <- Hla. eapply rep_ext; [|apply Hb]. intros k. cbn beta.
      by rewrite apply_actions_below, Hla. }
    destruct (list_to_map items !! b) as [o|] eqn:Eb.
    - apply elem_of_list_to_map_2, list_elem_of_lookup in Eb as [i Ei].
      destruct (Forall2_lookup_r _ _ _ _ _ Hit Ei) as ([b' la] & Egi & [Hbb Hres]).
      simpl in Hbb. subst b'. simpl in Hres.
      assert (group_map (groups l []) !! b = Some la) as Hgb.
      { apply elem_of_list_to_map_1; [done|]. by eapply list_elem_of_lookup_2. }
      rewrite Hg in Hgb. assert (filter (λ a, action_head a = b) l = la) as Ela by
        (destruct (filter _ l); congruence).
      destruct o as [it|]; [|by eapply Hsame]. eapply rep_ext; [|exact Hres].
      intros k. cbn beta. by rewrite apply_actions_below, Ela.
    - apply not_elem_of_list_to_map_2 in Eb. rewrite Ekeys in Eb.
      assert (group_map (groups l []) !! b = None) as Hgb by by apply not_elem_of_list_to_map_1.
      rewrite Hg in Hgb. destruct (filter (λ a, action_head a = b) l) eqn:Ef; [|done].
      by apply (Hsame [] eq_refl). }
  split_and!; [|rewrite apply_actions_other; [done|]|done].
  - apply node_wf_slots; [|intros b; by eapply rep_item_wf].
    by apply (set_group_items_at n items x00 (proj1 Hwf)); rewrite Ekeys.
  - intros (a & E & Ha)%list_elem_of_fmap. by apply (Hkeys a Ha).
Qed.

Lemma wp_make_actions_rec fuel n L m l t :
  (∀ a, a ∈ l → (length (action_key a) < fuel)%nat) → (0 < fuel)%nat → (L ≤ 127)%nat →
  tree_ok t → node_rep (known t) L n m → actions_ok (S L) l →
  wp (make_actions_rec create fuel n l) (node_result m l L) t.
Proof.
  revert n L m l t. induction fuel as [|fuel IH]; intros n L m l t Hl Hf HL Hok Hrep Hact; [lia|].
  cbn [make_actions_rec]. destruct (groups_spec l) as [Hnd Hg].
  assert (∀ a, a ∈ l → action_key a ≠ []) as Hkeys.
  { intros a Ha%(act_length _ _ Hact). by destruct (action_key a). }
  assert (∀ b la, (b, la) ∈ groups l [] →
    la = filter (λ a, action_head a = b) l ∧ la ≠ []) as Hgroup.
  { intros b la Hin. apply (elem_of_list_to_map_1 (M := gmap byte)) in Hin; [|done].
    fold (group_map (groups l [])) in Hin. rewrite Hg in Hin.
    destruct (filter _ l); [done|]. injection Hin as <-. done. }
  assert (∀ g, g ∈ groups l [] → ∀ n' l', l' ≠ [] →
    (∀ a', a' ∈ l' → ∃ a b, a ∈ g.2 ∧ action_key a = b :: action_key a') →
    safe (make_actions_rec create fuel n' l')) as Hsafe.
  { intros [b la] [Hla _]%Hgroup n' l' Hne Hl'. cbn [snd] in Hl'.
    assert (∀ a', a' ∈ l' → (length (action_key a') < fuel)%nat) as Hlen.
    { intros a' (a & b' & Ha & Hk)%Hl'. rewrite Hla in Ha. apply list_elem_of_filter in Ha as [_ Ha].
      specialize (Hl a Ha). rewrite Hk in Hl. simpl in Hl. lia. }
    apply safe_make_actions_rec; [done|].
    destruct l' as [|a' l']; [done|]. specialize (Hlen a' ltac:(left)). lia. }
  intros Hc. unfold bind at 1. rewrite group_actions_done by done. revert Hc.
  eapply wp_bind; [apply safe_mapM; intros; apply safe_process_group; by apply Hsafe|
    intros; apply safe_ret|apply (wp_mapM _ _ (λ g r t, r.1 = g.1 ∧
      slot_result (λ k, m (g.1 :: k)) (trim_act <$> g.2) L r.2 t))|]; [| | |done|].
  - intros g r t1 t2 Hg12 [? Hr]. split; [done|]. destruct (r.2); [|done]. by eapply rep_grows.
  - intros. apply safe_process_group. by apply Hsafe.
  - intros [b la] t' Hin Hgt Hc' Hok'. destruct (Hgroup b la Hin) as [Hla Hne].
    eapply (wp_process_group _ n L m l b la); try done; [by eapply node_rep_grows|by apply (Hsafe _ Hin)|].
    intros L' n' m' t1 -> Hok1 Hn'. apply IH; [| |lia|done|done|by eapply actions_ok_group].
    + intros a' (a & -> & Ha)%list_elem_of_fmap. rewrite Hla in Ha.
      apply list_elem_of_filter in Ha as [_ Ha]. specialize (Hl a Ha). specialize (Hkeys a Ha).
      rewrite action_key_trim. destruct (action_key a); simpl in *; [done|lia].
    + destruct la as [|a la]; [done|].
      assert (a ∈ l) as Ha by (eapply (list_elem_of_filter (λ a, action_head a = b) l a); rewrite <- Hla; left).
      specialize (Hl a Ha). rewrite (act_length _ _ Hact a Ha) in Hl. lia.
  - intros items t' Hc' Hgt Hcl' [Hok' Hit]. apply wp_ret. intros _.
    assert (node_rep (known t') L (set_group_items n items) (apply_actions m l)) as Hnew.
    { apply group_items_rep; [done|by eapply node_rep_grows|done|exact Hit]. }
    split; [done|]. case_bool_decide as Hne; [done|].
    rewrite Hne in Hnew. destruct Hnew as (_ & Hnil' & Hb').
    pose proof (node_rep_grows _ _ _ _ _ _ Hgt Hrep) as (_ & Hnil & Hb).
    intros [|b k]; [congruence|].
    eapply (rep_functional create (known t') L (node_at n b) (λ k, apply_actions m l (b :: k))
      (λ k, m (b :: k))); [|done|done]. intros ????. by apply (known_unique create t').
Qed.

(** ** Commit *)

Lemma filter_zip {A} (f : A → bool) c (l : list A) :
  (filter (λ p, p.2 = c) (zip l (f <$> l))).*1 = filter (λ x, f x = c) l.
Proof.
  induction l as [|a l IH]; [done|]. rewrite fmap_cons. cbn [zip zip_with].
  rewrite !filter_cons. cbn [snd]. case_decide; [rewrite fmap_cons; cbn [fst]|]; by rewrite IH.
Qed.

Lemma check_existing_spec (w : gmap hash (list byte)) (l : list (hash * option (list byte))) :
  (∀ k o, (k, o) ∈ l → is_Some (w !! k)) →
  match check_existing w l with
  | Ok () => ∀ k o, (k, o) ∈ l → w !! k = Some (default [] o)
  | Err (KVDBCollision k) => ∃ o c, (k, o) ∈ l ∧ w !! k = Some c ∧ c ≠ default [] o
  | Err CachedKeyMissing => False
  end.
Proof.
  induction l as [|[k o] l IH]; intros Hl; cbn [check_existing].
  { by intros k o ?%elem_of_nil. }
  destruct (Hl k o) as [c Hc]; [by left|]. rewrite Hc. cbn [ok_or].
  specialize (IH ltac:(intros; eapply Hl; by right)).
  case_bool_decide as Heq; [|exists o, c; split_and!; [by left|done|done]].
  destruct (check_existing w l) as [[]|[|k']]; [|done|].
  - intros k' o' [[= -> ->]|Hin]%elem_of_cons; [congruence|eauto].
  - destruct IH as (o' & c' & ? & ? & ?). exists o', c'. split_and!; [by right|done|done].
Qed.

Lemma foldl_insert_lookup (l : list (hash * list byte)) (s : gmap hash (list byte)) k :
  NoDup l.*1 →
  foldl (λ s '(k, v), <[k := v]> s) s l !! k =
  match (list_to_map l : gmap hash (list byte)) !! k with Some v => Some v | None => s !! k end.
Proof.
  revert s. induction l as [|[k' v] l IH]; intros s Hnd; [done|].
  rewrite fmap_cons in Hnd. apply NoDup_cons in Hnd as [Hk' Hnd]. cbn [foldl].
  rewrite IH by done. rewrite list_to_map_cons. destruct (decide (k = k')) as [->|Hne].
  - rewrite not_elem_of_list_to_map_1 by done. by rewrite !lookup_insert_eq.
  - by rewrite !lookup_insert_ne.
Qed.

Lemma elem_of_zip_fmap {A B} (g : A → B) (l : list A) a b :
  (a, b) ∈ zip l (g <$> l) ↔ a ∈ l ∧ b = g a.
Proof.
  induction l as [|x l IH]; [rewrite !elem_of_nil; naive_solver|].
  rewrite fmap_cons. cbn [zip zip_with]. rewrite !elem_of_cons, IH. naive_solver.
Qed.

Definition is_present (t : RadixTreeImpl) (kv : hash * list byte) : bool :=
  bool_decide (is_Some (store t !! kv.1)).

Lemma elem_of_existing t k :
  k ∈ (filter (λ x, is_present t x = true) (map_to_list (cache_write t))).*1 ↔
  is_Some (cache_write t !! k) ∧ is_Some (store t !! k).
Proof.
  rewrite list_elem_of_fmap. unfold is_present. split.
  - intros ([k' v] & -> & [Hf Hv%elem_of_map_to_list]%list_elem_of_filter).
    apply bool_decide_eq_true in Hf. eauto.
  - intros [[v Hv] Hs]. exists (k, v). split; [done|]. apply list_elem_of_filter.
    split; [by apply bool_decide_eq_true|by apply elem_of_map_to_list].
Qed.

Lemma put_absent t :
  clean t →
  foldl (λ s '(k, v), <[k := v]> s) (store t)
    (filter (λ x, is_present t x = false) (map_to_list (cache_write t)))
  = cache_write t ∪ store t.
Proof.
  intros Hcl. apply map_eq. intros k. set (l := filter _ _).
  assert (NoDup l.*1) as Hnd.
  { eapply sublist_NoDup; [apply (NoDup_fst_map_to_list (cache_write t))|].
    apply fmap_sublist, sublist_filter. }
  rewrite foldl_insert_lookup by done. rewrite lookup_union.
  destruct (list_to_map l !! k) as [v|] eqn:Ek.
  - apply elem_of_list_to_map_2, list_elem_of_filter in Ek as [_ Hv%elem_of_map_to_list].
    rewrite Hv. by destruct (store t !! k).
  - apply not_elem_of_list_to_map_2 in Ek.
    destruct (cache_write t !! k) as [v|] eqn:Ew; [|by destruct (store t !! k)].
    destruct (store t !! k) as [v'|] eqn:Est; [by rewrite (Hcl k v v')|].
    exfalso. apply Ek, list_elem_of_fmap. exists (k, v). split; [done|].
    apply list_elem_of_filter. split; [|by apply elem_of_map_to_list].
    unfold is_present. apply bool_decide_eq_false. simpl. rewrite Est. by intros [].
Qed.

(** Commit succeeds exactly on a clean tree, and adds the write cache. *)
Lemma commit_spec t :
  match commit t with
  | Done (Ok ()) t' => clean t ∧
      t' = mkTree (cache_write t ∪ store t) (cache_read t) (cache_write t)
  | Done (Err (KVDBCollision _)) t' => t' = t ∧ ¬ clean t
  | _ => False
  end.
Proof.
  unfold commit. rewrite list_to_map_to_list. fold (is_present t).
  rewrite !(filter_zip (is_present t)).
  set (ks := (filter (λ x, is_present t x = true) _).*1).
  pose proof (check_existing_spec (cache_write t) (zip ks ((λ k, store t !! k) <$> ks))) as Hs.
  specialize (Hs ltac:(intros k o [Hk _]%elem_of_zip_fmap; by apply elem_of_existing)).
  destruct (check_existing _ _) as [[]|[|k]]; [|done|].
  - assert (clean t) as Hcl; [|split; [done|by rewrite put_absent]].
    intros h b b' Hb Hb'.
    assert (cache_write t !! h = Some (default [] (store t !! h))) as E.
    { apply Hs, elem_of_zip_fmap. split; [|done]. apply elem_of_existing. eauto. }
    rewrite Hb, Hb' in E. simpl in E. congruence.
  - destruct Hs as (o & c & [Hk ->]%elem_of_zip_fmap & Hc & Hne). split; [done|]. intros Hcl.
    apply elem_of_existing in Hk as [_ [s Hs]]. rewrite Hs in Hne. apply Hne. by eapply Hcl.
Qed.

(** ** Canonical form *)

Lemma diverge_prefix (p q : list byte) b1 b2 k1 k2 r1 r2 :
  p ++ b1 :: k1 = q ++ r1 → p ++ b2 :: k2 = q ++ r2 → b1 ≠ b2 → ∃ p', p = q ++ p'.
Proof.
  revert p. induction q as [|x q IH]; intros p H1 H2 Hne; [by exists p|].
  destruct p as [|y p]; simpl in *; [congruence|].
  injection H1 as -> H1. injection H2 as H2.
  destruct (IH p H1 H2 Hne) as [p' ->]. by exists p'.
Qed.

Lemma ptr_prefix_unique K1 K2 L p1 p2 h1 h2 m1 m2 :
  rep K1 L (NodePtr p1 h1) m1 → rep K2 L (NodePtr p2 h2) m2 → (∀ k, m1 k = m2 k) →
  ∃ r, p1 = p2 ++ r.
Proof.
  intros (L1 & n1 & _ & _ & _ & _ & (b & b' & Hne & Hb & Hb') & Hs & _)%rep_ptr_inv
         (L2 & n2 & _ & _ & _ & _ & _ & _ & Hm2)%rep_ptr_inv Hm.
  destruct (rep_has_key _ _ _ _ _ (Hs b) Hb) as [k Hk].
  destruct (rep_has_key _ _ _ _ _ (Hs b') Hb') as [k' Hk'].
  rewrite Hm in Hk, Hk'. apply Hm2 in Hk as (x & y & E), Hk' as (x' & y' & E').
  exact (diverge_prefix p1 p2 b b' k k' _ _ E E' Hne).
Qed.

(** A canonical item is determined by the map it stores. *)
Lemma rep_unique K1 K2 L it1 it2 m1 m2 :
  rep K1 L it1 m1 → rep K2 L it2 m2 → (∀ k, m1 k = m2 k) → it1 = it2.
Proof.
  intros Hr1. revert it2 m2. induction Hr1 as [L m1 Hm1|L p v m1 Hp Hv Hm1|
    L L' p n m1 HL HK Hwf Htwo Hb IH Hm1]; intros it2 m2 Hr2 Hm.
  - destruct (decide (it2 = Empty)) as [->|Hne]; [done|].
    destruct (rep_has_key _ _ _ _ _ Hr2 Hne) as [k Hk]. by rewrite <- Hm, Hm1 in Hk.
  - destruct it2 as [|p2 v2|p2 h2].
    + specialize (Hm p). rewrite Hm1, decide_True in Hm by done.
      by rewrite (rep_empty_inv _ _ _ _ Hr2) in Hm.
    + apply rep_leaf_inv in Hr2 as (_ & _ & Hm2). specialize (Hm p).
      rewrite Hm1, Hm2, decide_True in Hm by done. case_decide; [by simplify_eq|done].
    + apply rep_ptr_inv in Hr2 as (L2 & n2 & _ & _ & _ & _ & (b & b' & Hne & Hb & Hb') & Hs & _).
      destruct (rep_has_key _ _ _ _ _ (Hs b) Hb) as [k Hk].
      destruct (rep_has_key _ _ _ _ _ (Hs b') Hb') as [k' Hk'].
      rewrite <- Hm, Hm1 in Hk, Hk'. repeat case_decide; [|done..]. subst p.
      exfalso. match goal with H : _ ++ _ = _ ++ _ |- _ => apply app_inv_head in H; congruence end.
  - destruct it2 as [|p2 v2|p2 h2].
    + destruct (rep_has_key create K1 L (NodePtr p (hash_of n)) m1) as [k Hk];
        [by eapply rep_ptr|done|]. by rewrite Hm, (rep_empty_inv _ _ _ _ Hr2) in Hk.
    + apply rep_leaf_inv in Hr2 as (_ & _ & Hm2). destruct Htwo as (b & b' & Hne & Hb1 & Hb2).
      destruct (rep_has_key _ _ _ _ _ (Hb b) Hb1) as [k Hk].
      destruct (rep_has_key _ _ _ _ _ (Hb b') Hb2) as [k' Hk'].
      rewrite Hm, Hm2 in Hk, Hk'. repeat case_decide; [|done..]. subst p2.
      exfalso. match goal with H : _ ++ _ = _ ++ _ |- _ => apply app_inv_head in H; congruence end.
    + assert (rep K1 L (NodePtr p (hash_of n)) m1) as Hr1 by by eapply rep_ptr.
      destruct (ptr_prefix_unique _ _ _ _ _ _ _ _ _ Hr1 Hr2 Hm) as [r Er].
      destruct (ptr_prefix_unique _ _ _ _ _ _ _ _ _ Hr2 Hr1 ltac:(done)) as [r' Er'].
      assert (p2 = p) as ->.
      { rewrite Er in Er'. rewrite <- app_assoc in Er'.
        rewrite <- (app_nil_r p2) in Er' at 1. apply app_inv_head in Er'.
        destruct r; [by rewrite app_nil_r in Er|done]. }
      apply rep_ptr_inv in Hr2 as (L2 & n2 & -> & HL2 & _ & Hwf2 & _ & Hs2 & _).
      assert (L2 = L') as -> by lia. do 2 f_equal. apply node_ext; [apply Hwf|apply Hwf2|].
      intros b. eapply (IH b _ _ (Hs2 b)). intros k. apply Hm.
Qed.

(** ** The history *)

(** Between operations the write cache is empty.  The history stores the map
    [m] on keys of length [S L]. *)
Record history_rep (L : nat) (t : RadixTreeImpl) (h : RadixHistory) (m : contents) : Prop := {
  hr_ok : tree_ok t;
  hr_write : cache_write t = ∅;
  hr_node : node_rep (known t) L (root_node h) m;
  hr_hash : root_hash h = hash_of (root_node h);
}.

Lemma no_writes t : cache_write t = ∅ → cached t ∧ clean t.
Proof. intros Hw. split; intros x; rewrite Hw; intros *; by rewrite lookup_empty. Qed.

(** The state after a commit: everything known is in the store. *)
Definition committed (t : RadixTreeImpl) : RadixTreeImpl :=
  mkTree (cache_write t ∪ store t) ∅ ∅.

Lemma known_committed t n : clean t → known t n → known (committed t) n.
Proof.
  intros Hcl [Hwf Hn]. split; [done|]. right. unfold committed. simpl. rewrite lookup_union.
  destruct Hn as [Hw|Hs].
  - rewrite Hw. by destruct (store t !! hash_of n).
  - rewrite Hs. destruct (cache_write t !! hash_of n) as [b|] eqn:E; [|done].
    by rewrite (Hcl _ _ _ E Hs).
Qed.

Lemma committed_ok t : tree_ok t → cached t → tree_ok (committed t).
Proof.
  intros [Hr Hs] Hc. split; simpl; [intros h n; by rewrite lookup_empty|].
  intros h b [Hb|[_ Hb]]%lookup_union_Some_raw.
  - destruct (Hc h b Hb) as (-> & n & Hn & ->). destruct (Hr _ _ Hn) as [_ [Hwf _]]. by exists n.
  - by apply Hs.
Qed.

Lemma committed_rep L t t' h m :
  tree_ok t' → cached t' → clean t' → grows t t' → history_rep L t h m →
  history_rep L (committed t') h m.
Proof.
  intros Hok Hc Hcl Hg [_ _ Hn Hh]. split; [by apply committed_ok|done| |done].
  eapply node_rep_mono; [|exact Hn]. intros n Hk.
  apply known_committed; [done|]. by eapply known_grows.
Qed.

Lemma cleared_rep L t h m :
  history_rep L t h m → history_rep L (mkTree (store t) ∅ ∅) h m.
Proof.
  intros [Hok Hw Hn Hh]. split; [|done| |done].
  - split; simpl; [intros ??; by rewrite lookup_empty|apply Hok].
  - eapply node_rep_mono; [|exact Hn]. intros n [Hwf [Hkw|Hks]].
    + by rewrite Hw, lookup_empty in Hkw.
    + split; [done|by right].
Qed.

Lemma no_duplicates_NoDup l : NoDup (action_key <$> l) → has_no_duplicates l = true.
Proof.
  intros Hnd. unfold has_no_duplicates. apply Nat.eqb_eq. by rewrite size_list_to_set.
Qed.

Lemma actions_fuel_enough l a : a ∈ l → (length (action_key a) < actions_fuel l)%nat.
Proof.
  intros Ha. unfold actions_fuel.
  assert (length (action_key a) ≤ max_list ((length ∘ action_key) <$> l))%nat; [|lia].
  apply max_list_elem_of_le, list_elem_of_fmap. eauto.
Qed.

(** A batch and the saving of the new root. *)
Definition batch (n : Node) (l : list HistoryAction) : M (option (Node * hash)) :=
  r ←! make_actions create n l;
  match r with
  | Some n' => h ←! save_node create n'; ret (Some (n', h))
  | None => ret None
  end.

Lemma batch_spec n L m l t :
  (L ≤ 127)%nat → tree_ok t → node_rep (known t) L n m → actions_ok (S L) l →
  safe (batch n l) ∧
  wp (batch n l) (λ r t', tree_ok t' ∧
    match r with
    | Some (n', h) => h = hash_of n' ∧ known t' n' ∧ node_rep (known t') L n' (apply_actions m l)
    | None => ∀ k, apply_actions m l k = m k
    end) t.
Proof.
  intros HL Hok Hrep Hact.
  assert (safe (make_actions create n l)) as Hs1.
  { apply safe_make_actions_rec; [by apply actions_fuel_enough|unfold actions_fuel; lia]. }
  assert (∀ r, safe match r with
    | Some n' => h ←! save_node create n'; ret (Some (n', h)) | None => ret None end) as Hs2.
  { intros [n'|]; [|apply safe_ret]. apply safe_bind; [apply safe_save_node|intros; apply safe_ret]. }
  split; [by apply safe_bind|].
  eapply wp_bind; [done|done| |].
  - apply (wp_make_actions_rec (actions_fuel l) n L m l); try done;
      [by apply actions_fuel_enough|unfold actions_fuel; lia].
  - intros [n'|] t1 _ Hg1 _ [Hok1 Hr]; [|by apply wp_ret].
    eapply wp_bind; [apply safe_save_node|intros; apply safe_ret|apply wp_save_node; [done|apply Hr]|].
    intros h t2 _ Hg2 _ (-> & Hk & Hok2). apply wp_ret. intros _.
    split_and!; [done|done|done|]. by eapply node_rep_grows.
Qed.

(** [save_and_commit] is a batch followed by the commit. *)
Lemma save_and_commit_batch n l t :
  save_and_commit create n l t =
  match batch n l t with
  | Done (Some (n', h)) t' =>
      match commit t' with
      | Done (Ok ()) t'' => Done (Ok (Some (n', h))) (mkTree (store t'') (cache_read t'') ∅)
      | Done (Err e) t'' => Done (Err e) t''
      | Panic r t'' => Panic r t''
      | NoFuel => NoFuel
      end
  | Done None t' => Done (Ok None) (mkTree (store t') (cache_read t') ∅)
  | Panic r t' => Panic r t'
  | NoFuel => NoFuel
  end.
Proof.
  unfold save_and_commit, batch, bind. destruct (make_actions create n l t) as [[n'|] t1|r t1|];
    [|done|done|done].
  destruct (save_node create n' t1) as [h t2|r t2|]; [|done|done]. simpl.
  by destruct (commit t2) as [[[]|e] t3|r t3|].
Qed.

Lemma process_save h l t :
  NoDup (action_key <$> l) →
  process create h l t =
  match save_and_commit create (root_node h) l t with
  | Done (Ok (Some (n', x))) t' => Done (Ok (mkHistory x n')) (mkTree (store t') ∅ (cache_write t'))
  | Done (Ok None) t' => Done (Ok (mkHistory (root_hash h) (root_node h)))
                           (mkTree (store t') ∅ (cache_write t'))
  | Done (Err e) t' => Done (Err e) t'
  | Panic r t' => Panic r t'
  | NoFuel => NoFuel
  end.
Proof.
  intros Hnd. unfold process. rewrite no_duplicates_NoDup by done. unfold bind at 1. simpl.
  unfold bind. by destruct (save_and_commit create (root_node h) l t) as [[[[n' x]|]|e] t'|r t'|].
Qed.

Lemma process_ok L t h m l h' t' :
  (L ≤ 127)%nat → history_rep L t h m → actions_ok (S L) l →
  process create h l t = Done (Ok h') t' →
  (∀ t1, make_actions create (root_node h) l t = Done None t1 → clean t1) →
  history_rep L t' h' (apply_actions m l) ∧
  ∀ h0 m0, history_rep L t h0 m0 → history_rep L t' h0 m0.
Proof.
  intros HL Hh Hact. pose proof Hh as [Hok Hw Hn Hhash].
  destruct (no_writes t Hw) as [Hc Hcl].
  destruct (batch_spec (root_node h) L m l t HL Hok Hn Hact) as [Hs Hwp].
  specialize (Hs t Hc). specialize (Hwp Hc).
  rewrite process_save by apply Hact. rewrite save_and_commit_batch.
  destruct (batch (root_node h) l t) as [[[n' x]|] t1|r t1|] eqn:Eb; [| |done|done].
  - destruct Hs as [Hc1 Hg1]. pose proof (commit_spec t1) as Hcm.
    destruct (commit t1) as [[[]|[|k]] t2|r t2|]; [|done|done|done|done].
    destruct Hcm as [Hcl1 ->]. destruct (Hwp Hcl1) as (Hok1 & -> & Hk & Hrep1).
    intros [= <- <-] _. fold (committed t1). split; [|intros h0 m0 H0; by eapply committed_rep].
    split; [by apply committed_ok|done| |done]. simpl.
    eapply node_rep_mono; [|exact Hrep1]. intros n0. by apply known_committed.
  - destruct Hs as [Hc1 Hg1]. intros [= <- <-] Hclean.
    assert (clean t1) as Hcl1.
    { apply Hclean. revert Eb. unfold batch, bind.
      destruct (make_actions create (root_node h) l t) as [[n'|] t2|r t2|]; [|by intros [= <-]|done|done].
      by destruct (save_node create n' t2). }
    destruct (Hwp Hcl1) as [Hok1 Hsame]. rewrite (grows_store _ _ Hg1). split.
    + destruct (cleared_rep L t h m Hh) as [Hok' Hw' Hn' Hh']. split; [done|done| |done].
      simpl. eapply node_rep_ext; [|exact Hn']. intros k. by rewrite Hsame.
    + intros h0 m0. apply cleared_rep.
Qed.

(** ** Opening a root *)

(** A root that can be opened: its node is stored, or it is the empty node,
    which is used when nothing is stored. *)
Definition openable (t : RadixTreeImpl) (h : RadixHistory) : Prop :=
  known t (root_node h) ∨ (root_node h = empty_node ∧ store t !! root_hash h = None).

Lemma history_opens L t h m :
  history_rep L t h m → openable t h →
  ∃ t', reset (root_hash h) t = Done h t' ∧ history_rep L t' h m ∧ store t' = store t.
Proof.
  intros Hh Hk. apply cleared_rep in Hh as Hh'. destruct Hh as [_ Hw _ _].
  pose proof Hh' as [Hok' _ Hn' Hhash]. unfold reset, history_new, bind.
  destruct Hk as [Hk|[En Hs]].
  - assert (known (new (store t)) (root_node h)) as Hk'.
    { destruct Hk as [Hwf [Hkw|Hks]]; [by rewrite Hw, lookup_empty in Hkw|]. split; [done|by right]. }
    destruct (no_writes (new (store t)) eq_refl) as [Hc Hcl].
    destruct (load_node_reads create (root_node h) true (new (store t)) Hcl Hc Hok' Hk')
      as (t' & E & Hok2 & _ & Hg & Hw2).
    exists t'. rewrite Hhash, E. split_and!; [destruct h; simpl in *; by rewrite Hhash| |apply (grows_store _ _ Hg)].
    split; [done|by rewrite Hw2| |done]. by eapply node_rep_grows.
  - exists (new (store t)). unfold load_node, load_node_from_store, bind. simpl. rewrite lookup_empty, Hs.
    split_and!; [destruct h; simpl in *; by rewrite En|done|done].
Qed.

Lemma history_reads L t h m k :
  history_rep L t h m → length k = S L →
  ∃ t', history_read h k t = Done (m k) t' ∧ history_rep L t' h m ∧
    store t' = store t ∧ cache_write t' = cache_write t.
Proof.
  intros [Hok Hw Hn Hh] Hk. destruct (no_writes t Hw) as [Hc Hcl].
  destruct (read_loop_reads create (S (length k)) (root_node h) k L m t)
    as (t' & E & Hok' & _ & Hg & Hw'); [lia|done|done|done|done|done|].
  exists t'. split; [exact E|]. split; [|split; [apply Hg|done]].
  split; [done|by rewrite Hw'| |done]. by eapply node_rep_grows.
Qed.

Lemma known_store t t' n : store t ⊆ store t' → cache_write t = ∅ → known t n → known t' n.
Proof.
  intros Hs Hw [Hwf [Hn|Hn]]; [by rewrite Hw, lookup_empty in Hn|]. split; [done|right].
  by eapply lookup_weaken.
Qed.

(** A batch keeps what is stored, and its new root is stored. *)
Lemma process_opens L t h m l h' t' :
  (L ≤ 127)%nat → history_rep L t h m → actions_ok (S L) l → openable t h →
  process create h l t = Done (Ok h') t' → store t ⊆ store t' ∧ openable t' h'.
Proof.
  intros HL Hh Hact Hop. pose proof Hh as [Hok Hw Hn Hhash].
  destruct (no_writes t Hw) as [Hc Hcl].
  destruct (batch_spec (root_node h) L m l t HL Hok Hn Hact) as [Hs Hwp].
  specialize (Hs t Hc). specialize (Hwp Hc).
  rewrite process_save by apply Hact. rewrite save_and_commit_batch.
  destruct (batch (root_node h) l t) as [[[n' x]|] t1|r t1|] eqn:Eb; [| |done|done].
  - destruct Hs as [Hc1 Hg1]. pose proof (commit_spec t1) as Hcm.
    destruct (commit t1) as [[[]|[|k]] t2|r t2|]; [|done|done|done|done].
    destruct Hcm as [Hcl1 ->]. destruct (Hwp Hcl1) as (Hok1 & -> & Hk & Hrep1).
    intros [= <- <-]. fold (committed t1). split; [|left; by apply known_committed].
    apply map_subseteq_spec. intros a b Hb. simpl. rewrite <- (grows_store _ _ Hg1) in Hb. rewrite lookup_union, Hb.
    destruct (cache_write t1 !! a) as [b'|] eqn:E; [|done]. by rewrite (Hcl1 _ _ _ E Hb).
  - destruct Hs as [Hc1 Hg1]. intros [= <- <-]. rewrite (grows_store _ _ Hg1). split; [done|].
    destruct Hop as [Hk|?]; [left|by right]. simpl. eapply known_store; [|exact Hw|exact Hk]. done.
Qed.

(** A batch ends, and fails only on a collision. *)
Lemma process_outcome L t h m l :
  (L ≤ 127)%nat → history_rep L t h m → actions_ok (S L) l →
  match process create h l t with
  | Done (Ok _) _ => True
  | Done (Err _) t' => ¬ clean t'
  | Panic r t' => clean t' → is_collision r
  | NoFuel => False
  end.
Proof.
  intros HL Hh Hact. destruct (no_writes t (hr_write _ _ _ _ Hh)) as [Hc _].
  destruct (batch_spec (root_node h) L m l t HL (hr_ok _ _ _ _ Hh) (hr_node _ _ _ _ Hh) Hact)
    as [Hs Hwp].
  specialize (Hs t Hc). specialize (Hwp Hc).
  rewrite process_save by apply Hact. rewrite save_and_commit_batch.
  destruct (batch (root_node h) l t) as [[[n' x]|] t1|r t1|]; [|done|done|done].
  pose proof (commit_spec t1) as Hcm.
  destruct (commit t1) as [[[]|[|k]] t2|r t2|]; [done|done| |done|done]. by destruct Hcm as [-> ?].
Qed.

(** Histories that store the same map are equal. *)
Lemma history_key_length L t h m k : history_rep L t h m → m k ≠ None → length k = S L.
Proof.
  intros [_ _ (_ & Hnil & Hb) _] Hk. destruct k as [|b k]; [done|].
  simpl. f_equal. exact (rep_key_length _ _ _ _ _ _ (Hb b) Hk).
Qed.

Lemma history_unique L t1 t2 h1 h2 m1 m2 :
  history_rep L t1 h1 m1 → history_rep L t2 h2 m2 →
  (∀ k, length k = S L → m1 k = m2 k) → h1 = h2.
Proof.
  intros Hr1 Hr2 Hlen.
  assert (∀ k, m1 k = m2 k) as Hm.
  { intros k. destruct (decide (length k = S L)) as [?|Hne]; [by apply Hlen|].
    transitivity (@None hash); [|symmetry]; apply dec_stable; intros Hk; apply Hne.
    - exact (history_key_length _ _ _ _ _ Hr1 Hk).
    - exact (history_key_length _ _ _ _ _ Hr2 Hk). }
  destruct Hr1 as [_ _ (Hwf1 & _ & Hb1) Hh1], Hr2 as [_ _ (Hwf2 & _ & Hb2) Hh2].
  assert (root_node h1 = root_node h2) as En.
  { apply node_ext; [apply Hwf1|apply Hwf2|]. intros b.
    eapply rep_unique; [apply Hb1|apply Hb2|]. intros k. apply Hm. }
  destruct h1, h2. simpl in *. congruence.
Qed.

(** Batches that succeed, one after the other. *)
Inductive batches (L : nat) :
    RadixTreeImpl → RadixHistory → list (list HistoryAction) → RadixTreeImpl → RadixHistory → Prop :=
| batches_nil t h : batches L t h [] t h
| batches_cons t h l t1 h1 ls t' h' :
    actions_ok (S L) l → process create h l t = Done (Ok h1) t1 →
    (∀ t2, make_actions create (root_node h) l t = Done None t2 → clean t2) →
    batches L t1 h1 ls t' h' → batches L t h (l :: ls) t' h'.

Lemma batches_rep L t h m ls t' h' :
  (L ≤ 127)%nat → history_rep L t h m → batches L t h ls t' h' →
  history_rep L t' h' (foldl apply_actions m ls).
Proof.
  intros HL Hr Hb. revert m Hr. induction Hb as [|t h l t1 h1 ls t' h' Hl Hp Hc _ IH]; intros m Hr; [done|].
  apply IH. exact (proj1 (process_ok _ _ _ _ _ _ _ HL Hr Hl Hp Hc)).
Qed.

(** ** Properties *)

(** C12: The history refines a finite map.  On a history that stores the map [m]
    on keys of one length, a batch of actions on distinct keys of that length
    either returns a history that stores [m] with the actions applied, and
    every history of the same tree keeps its contents; or it fails, and then a
    hash collision shows in the state: two byte strings in the write cache and
    the store, or the collision panic of the node cache.  It always ends.  (The
    code looks for collisions only when the batch changes the root.) *)
Theorem process_refines_map L t h m l :
  (L ≤ 127)%nat → history_rep L t h m → actions_ok (S L) l →
  match process create h l t with
  | Done (Ok h') t' =>
      (∀ t1, make_actions create (root_node h) l t = Done None t1 → clean t1) →
      history_rep L t' h' (apply_actions m l) ∧
      ∀ h0 m0, history_rep L t h0 m0 → history_rep L t' h0 m0
  | Done (Err e) t' => ¬ clean t'
  | Panic r t' => clean t' → is_collision r
  | NoFuel => False
  end.
Proof.
  intros HL Hh Hact. pose proof (process_ok L t h m l) as Hok. revert Hok.
  pose proof (process_outcome L t h m l HL Hh Hact) as Ho. revert Ho.
  destruct (process create h l t) as [[h'|e] t'|r t'|]; [|done..]. intros _ Hok. by apply Hok.
Qed.

(** C14: Reads look up the map: reading a key of the right length in a history
    that stores [m] returns [m] at that key, without a panic, and changes
    nothing but the read cache. *)
Theorem history_read_lookup L t h m k :
  history_rep L t h m → length k = S L →
  ∃ t', history_read h k t = Done (m k) t' ∧ history_rep L t' h m ∧
    store t' = store t ∧ cache_write t' = cache_write t.
Proof.
  apply history_reads.
Qed.

(** C13: Merkle determinism (Law 10).  Take two histories on keys of one
    length, in whatever trees, and run on each any sequence of batches that
    succeed.  If the two maps agree after their batches, or if every read of
    a key of that length returns the same in both, then the histories they
    end with have the same root node and the same root hash, however they were
    built.  (A batch that leaves the root as it was is taken to leave no
    collision in its write cache, where the code does not look for one.) *)
Theorem root_determined_by_contents L t1 t2 h1 h2 m1 m2 ls1 ls2 t1' h1' t2' h2' :
  (L ≤ 127)%nat → history_rep L t1 h1 m1 → history_rep L t2 h2 m2 →
  batches L t1 h1 ls1 t1' h1' → batches L t2 h2 ls2 t2' h2' →
  ((∀ k, length k = S L → foldl apply_actions m1 ls1 k = foldl apply_actions m2 ls2 k) → h1' = h2') ∧
  ((∀ k r1 r2 u1 u2, length k = S L → history_read h1' k t1' = Done r1 u1 →
      history_read h2' k t2' = Done r2 u2 → r1 = r2) → h1' = h2').
Proof.
  intros HL Hh1 Hh2 Hb1 Hb2. apply (batches_rep _ _ _ _ _ _ _ HL Hh1) in Hb1.
  apply (batches_rep _ _ _ _ _ _ _ HL Hh2) in Hb2. split; intros Hk.
  - by eapply history_unique.
  - eapply history_unique; [done..|]. intros k Hlen.
    destruct (history_reads _ _ _ _ _ Hb1 Hlen) as (u1 & E1 & _).
    destruct (history_reads _ _ _ _ _ Hb2 Hlen) as (u2 & E2 & _). by eapply Hk.
Qed.

(** Roots can be reopened, also later.  Resetting to the root hash of a
    history whose root node is stored, or is the empty node, gives that history
    back, with fresh caches and the same contents; and a batch that succeeds
    returns a history whose root can be opened. *)
Theorem reset_reopens_root L t h m :
  (L ≤ 127)%nat → history_rep L t h m → openable t h →
  (∃ t', reset (root_hash h) t = Done h t' ∧ history_rep L t' h m) ∧
  ∀ l h' t', actions_ok (S L) l → process create h l t = Done (Ok h') t' → openable t' h'.
Proof.
  intros HL Hh Hop. split.
  - destruct (history_opens L t h m Hh Hop) as (t' & E & Hr & _). by exists t'.
  - intros l h' t' Hact E. by eapply process_opens.
Qed.

(** The empty history. *)
Lemma fresh_history L :
  history_rep L (new ∅) (mkHistory (hash_of empty_node) empty_node) (λ _, None).
Proof.
  split; [|done| |done].
  - split; simpl; intros ??; by rewrite lookup_empty.
  - split_and!; [apply empty_node_wf|done|]. intros b. simpl. rewrite node_at_empty. by constructor.
Qed.
End History.

(** ** A concrete history *)
Module RadixHistoryExample.
(** Any function to 32 bytes will do for the hash. *)
Definition toy_hash (b : list byte) : hash := take 32 (b ++ replicate 32 x00).
Lemma toy_hash_length b : length (toy_hash b) = 32%nat.
Proof. unfold toy_hash. rewrite length_take, length_app, length_replicate. lia. Qed.

Definition v (b : byte) : hash := replicate 32 b.
Definition acts : list HistoryAction :=
  [ActInsert [x01; x02] (v x0a); ActInsert [x01; x03] (v x0b); ActInsert [x05; x05] (v x0c);
   ActDelete [x07; x07]].
Definition t0 : RadixTreeImpl := new ∅.
Definition h0 : RadixHistory := mkHistory (hash_of toy_hash empty_node) empty_node.
Definition m0 : contents := λ _, None.

Lemma acts_ok : actions_ok 2 acts.
Proof.
  split.
  - intros a. unfold acts. rewrite !elem_of_cons, elem_of_nil. naive_solver.
  - vm_decide.
  - intros a w. unfold acts. rewrite !elem_of_cons, elem_of_nil.
    intros [->|[->|[->|[->|[]]]]]; simpl; intros [= <-]; done.
Qed.

(** The batch succeeds and stores its root. *)
Definition stored_root (o : Outcome (Result RadixHistory CommitError)) : bool :=
  match o with
  | Done (Ok h) t =>
      bool_decide (store t !! hash_of toy_hash (root_node h) = Some (encode (root_node h)))
  | _ => false
  end.

Lemma stored_root_ok o :
  stored_root o = true → ∃ h t, o = Done (Ok h) t ∧
    store t !! hash_of toy_hash (root_node h) = Some (encode (root_node h)).
Proof.
  destruct o as [[h|] t|r t|]; simpl; try done. intros Hb. apply bool_decide_eq_true in Hb. eauto.
Qed.

Definition changes (o : Outcome (option Node)) : bool :=
  match o with Done None _ => false | _ => true end.

Lemma step_ok :
  ∃ h t, process toy_hash h0 acts t0 = Done (Ok h) t ∧
    store t !! hash_of toy_hash (root_node h) = Some (encode (root_node h)).
Proof. apply stored_root_ok. vm_compute. reflexivity. Qed.

Lemma step_changes t1 :
  make_actions toy_hash (root_node h0) acts t0 = Done None t1 → clean t1.
Proof.
  intros E. assert (changes (make_actions toy_hash (root_node h0) acts t0) = true) as Hch
    by (vm_compute; reflexivity). by rewrite E in Hch.
Qed.

(** The history after the batch. *)
Lemma step_rep :
  ∃ h t, process toy_hash h0 acts t0 = Done (Ok h) t ∧
    history_rep toy_hash 1 t h (apply_actions m0 acts) ∧ known toy_hash t (root_node h).
Proof.
  destruct step_ok as (h & t & E & Hst). exists h, t. split; [exact E|].
  assert (history_rep toy_hash 1 t h (apply_actions m0 acts)) as Hr; [|split; [done|]].
  { refine (proj1 (process_ok toy_hash toy_hash_length 1 t0 h0 m0 acts h t _
      (fresh_history toy_hash 1) acts_ok E step_changes)). lia. }
  split; [apply Hr|by right].
Qed.

(** Witness of [process_refines_map]. *)
Lemma process_refines_map_witness :
  ∃ h t, process toy_hash h0 acts t0 = Done (Ok h) t ∧
    history_rep toy_hash 1 t h (apply_actions m0 acts).
Proof.
  destruct step_ok as (h & t & E & _). exists h, t. split; [exact E|].
  pose proof (process_refines_map toy_hash toy_hash_length 1 t0 h0 m0 acts ltac:(lia)
    (fresh_history toy_hash 1) acts_ok) as Hp.
  rewrite E in Hp. exact (proj1 (Hp step_changes)).
Defined.

(** Witness of [history_read_lookup]. *)
Lemma history_read_lookup_witness :
  ∃ h t t', process toy_hash h0 acts t0 = Done (Ok h) t ∧
    history_read h [x01; x03] t = Done (Some (v x0b)) t'.
Proof.
  destruct step_rep as (h & t & E & Hr & _).
  destruct (history_read_lookup toy_hash 1 t h (apply_actions m0 acts) [x01; x03] Hr eq_refl)
    as (t' & Hread & _).
  exists h, t, t'. split; [exact E|exact Hread].
Defined.

(** Witness of [root_determined_by_contents]: the batch in reverse order. *)
Lemma root_determined_by_contents_witness :
  ∃ h t h' t', process toy_hash h0 acts t0 = Done (Ok h) t ∧
    process toy_hash h0 (reverse acts) t0 = Done (Ok h') t' ∧ h = h'.
Proof.
  destruct step_rep as (h & t & E & _).
  assert (stored_root (process toy_hash h0 (reverse acts) t0) = true) as Hs
    by (vm_compute; reflexivity).
  apply stored_root_ok in Hs as (h' & t' & E' & _). exists h, t, h', t'.
  split; [exact E|]. split; [exact E'|].
  assert (batches toy_hash 1 t0 h0 [acts] t h) as Hb
    by (econstructor; [exact acts_ok|exact E|exact step_changes|constructor]).
  assert (batches toy_hash 1 t0 h0 [reverse acts] t' h') as Hb'.
  { econstructor; [|exact E'| |constructor].
    - destruct acts_ok as [Hl Hn Hv]. split.
      + intros a Ha%elem_of_reverse. by apply Hl.
      + vm_decide.
      + intros a w Ha%elem_of_reverse. by apply Hv.
    - intros t1 E1. assert (changes (make_actions toy_hash (root_node h0) (reverse acts) t0) = true) as Hch
        by (vm_compute; reflexivity). by rewrite E1 in Hch. }
  refine (proj1 (root_determined_by_contents toy_hash toy_hash_length 1 t0 t0 h0 h0 m0 m0 _ _ _ _ _ _ _
    (fresh_history toy_hash 1) (fresh_history toy_hash 1) Hb Hb') _); [lia|].
  intros k _. vm_compute. repeat case_match; congruence.
Defined.

(** Witness of [reset_reopens_root]. *)
Lemma reset_reopens_root_witness :
  ∃ h t t', process toy_hash h0 acts t0 = Done (Ok h) t ∧ reset (root_hash h) t = Done h t'.
Proof.
  destruct step_rep as (h & t & E & Hr & Hk).
  destruct (reset_reopens_root toy_hash toy_hash_length 1 t h _ ltac:(lia) Hr (or_introl Hk)) as [(t' & Hreset & _) _].
  exists h, t, t'. split; [exact E|exact Hreset].
Defined.
End RadixHistoryExample.
