(* ===== verification/Block.v ===== *)
(** * Blocks and their metadata

    The data of [models/src/casper/protocol/casper_message.rs],
    [models/src/block_metadata.rs] and [models/src/fringe_data.rs], and
    [casper/src/block_status.rs].  A hash, a public key, a signature and a
    deploy id are the list of their bytes (integers in [0..255], as in
    [Refined]), a text is the list of its code points. *)

From S2P Require Import Prelude BTree Refined Message.

Notation bytes := (list Z).
Notation text := (list Z).
Notation BlockHash := (list Z).
Notation Validator := (list Z).
Notation StateHash := (list Z).
Notation DeployId := (list Z).
Notation Msg := (Message (list Z) (list Z)).

Module Block.
Record PCost := mkPCost { cost : Z }.

Record DeployData := mkDeployData {
  term : text;
  timestamp : Z;
  phlo_price : Z;
  phlo_limit : Z;
  valid_after_block_number : Z;
  dd_shard_id : text;
}.

Record SignedDeployData := mkSigned {
  data : DeployData;
  deployer : bytes;
  sd_sig : bytes;
  sd_sig_algorithm : text;
}.

Record Peek := mkPeek { channel_index : Z }.

Record ProduceEvent := mkProduceEvent {
  pe_channels_hash : bytes;
  pe_hash : bytes;
  pe_persistent : bool;
  times_repeated : Z;
}.

Record ConsumeEvent := mkConsumeEvent {
  ce_channels_hashes : list bytes;
  ce_hash : bytes;
  ce_persistent : bool;
}.

Record CommEvent := mkCommEvent {
  consume : ConsumeEvent;
  produces : list ProduceEvent;
  peeks : list Peek;
}.

Inductive Event :=
| EvProduce (e : ProduceEvent)
| EvConsume (e : ConsumeEvent)
| EvComm (e : CommEvent).

Inductive SystemDeployData :=
| Slash (v : Validator)
| CloseBlock
| EmptySystemDeploy.

Inductive ProcessedSystemDeploy :=
| Succeeded (event_list : list Event) (system_deploy : SystemDeployData)
| Failed (event_list : list Event) (error_msg : text).

Record ProcessedDeploy := mkProcessed {
  deploy : SignedDeployData;
  pd_cost : PCost;
  deploy_log : list Event;
  is_failed : bool;
  system_deploy_error : option text;
}.

Record RholangState := mkRholangState {
  deploys : list ProcessedDeploy;
  system_deploys : list ProcessedSystemDeploy;
}.

(** Fields are named as in the source, with the prefix [b_] where another
    record has the same field. *)
Record BlockMessage := mkBlock {
  b_version : Z;
  b_shard_id : text;
  b_block_hash : BlockHash;
  b_block_number : Z;
  b_sender : Validator;
  b_seq_num : Z;
  pre_state_hash : StateHash;
  post_state_hash : StateHash;
  b_justifications : list BlockHash;
  b_bonds : gmap Validator Z;
  b_rejected_deploys : gset bytes;
  b_rejected_blocks : gset BlockHash;
  b_rejected_senders : gset bytes;
  b_state : RholangState;
  b_sig_algorithm : text;
  b_sig : bytes;
}.

(** The index entry of a block, prefix [md_]. *)
Record BlockMetadata := mkMeta {
  md_block_hash : BlockHash;
  md_block_num : Z;
  md_sender : Validator;
  md_seq_num : Z;
  md_justifications : gset BlockHash;
  md_bonds_map : gmap Validator Z;
  validated : bool;
  validation_failed : bool;
  md_fringe : gset BlockHash;
  fringe_state_hash : StateHash;
  member_of_fringe : option bytes;
}.

#[global] Instance metadata_eq_dec : EqDecision BlockMetadata.
Proof. solve_decision. Defined.

Definition zero_hash : bytes := replicate 32 0.

Definition from_block (b : BlockMessage) : BlockMetadata :=
  mkMeta (b_block_hash b) (b_block_number b) (b_sender b) (b_seq_num b)
    (list_to_set (b_justifications b)) (b_bonds b) false false ∅ zero_hash None.

(** [BlockMetadata { member_of_fringe: Some(h), ..meta }]. *)
Definition set_member_of_fringe (meta : BlockMetadata) (h : bytes) : BlockMetadata :=
  mkMeta (md_block_hash meta) (md_block_num meta) (md_sender meta) (md_seq_num meta)
    (md_justifications meta) (md_bonds_map meta) (validated meta) (validation_failed meta)
    (md_fringe meta) (fringe_state_hash meta) (Some h).

Record FringeData := mkFringeData {
  fringe_hash : bytes;
  fd_fringe : gset BlockHash;
  fringe_diff : gset BlockHash;
  fd_state_hash : bytes;
  fd_rejected_deploys : gset bytes;
  fd_rejected_blocks : gset BlockHash;
  fd_rejected_senders : gset bytes;
}.

#[global] Instance fringe_data_eq_dec : EqDecision FringeData.
Proof. solve_decision. Defined.

(** [FringeData::fringe_hash_of]: the hash of the concatenation of the
    fringe's block hashes in order.  [blake2b256] is the digest function. *)
Definition fringe_hash_of (blake2b256 : bytes → bytes) (fringe : gset BlockHash) : bytes :=
  blake2b256 (concat (set_iter fringe)).

(** The outcome of validating a block. *)
Inductive BlockStatus :=
| Valid
| InvalidBlockNumber
| InvalidRepeatDeploy
| InvalidSequenceNumber
| InvalidDeployShardId
| JustificationRegression
| NeglectedInvalidBlock
| InvalidStateHash
| InvalidBondsCache
| InvalidRejectedDeploy
| ContainsExpiredDeploy
| ContainsFutureDeploy
| ContainsLowCostDeploy.

#[global] Instance block_status_eq_dec : EqDecision BlockStatus.
Proof. solve_decision. Defined.

Definition is_valid (s : BlockStatus) : bool :=
  match s with Valid => true | _ => false end.
End Block.
