(* ===== verification/DagStore.v ===== *)
(** * The block metadata index

    [block-storage/src/dag/metadata_store.rs] (the in-memory index and its
    validation), [casper/src/block_metadata_store.rs] (the persisted metadata
    with the index) and [block-storage/src/dag/representation.rs] (the view of
    the DAG).  A persisted typed store is the map of its records; the errors of
    the storage medium are not modelled. *)

From S2P Require Import Prelude BTree Refined Message Finalizer MessageState Block.
Import MessageMap Finalizer MessageState Block.

Module DagStore.
Inductive StoreError :=
| HeightsNotInSequence
| MissingKey (h : BlockHash)
| NoFinalizedFringe
| TopoSortFragmentParameterError (start_block_number end_block_number : Z).

(** ** In-memory index *)
Record DagState := mkDagState {
  dag_set : gset BlockHash;
  child_map : gmap BlockHash (gset BlockHash);
  height_map : gmap Z (gset BlockHash);
}.

Definition empty_dag_state : DagState := mkDagState ∅ ∅ ∅.

Record BlockInfo := mkInfo {
  bi_hash : BlockHash;
  bi_parents : gset BlockHash;
  bi_block_num : Z;
  bi_validation_failed : bool;
}.

Definition block_metadata_to_info (meta : BlockMetadata) : BlockInfo :=
  mkInfo (md_block_hash meta) (md_justifications meta) (md_block_num meta)
    (validation_failed meta).

(** [map.entry(k).or_default().insert(x)]. *)
Definition entry_insert {K A} `{Countable K} `{Countable A} (m : gmap K (gset A)) (k : K) (x : A) :
    gmap K (gset A) :=
  <[k := {[x]} ∪ default ∅ (m !! k)]> m.

(** [map.entry(k).or_default()]. *)
Definition entry_default {K A} `{Countable K} `{Countable A} (m : gmap K (gset A)) (k : K) :
    gmap K (gset A) :=
  <[k := default ∅ (m !! k)]> m.

Definition add_block_to_dag_state (block : BlockInfo) (state : DagState) : DagState :=
  let dag_set' := {[bi_hash block]} ∪ dag_set state in
  let child_map' :=
    foldl (λ cm parent, entry_insert cm parent (bi_hash block))
      (child_map state) (set_iter (bi_parents block)) in
  let child_map'' := entry_default child_map' (bi_hash block) in
  let height_map' :=
    if bi_validation_failed block then height_map state
    else entry_insert (height_map state) (bi_block_num block) (bi_hash block) in
  mkDagState dag_set' child_map'' height_map'.

Definition validate_dag_state (state : DagState) : Result unit StoreError :=
  let m := height_map state in
  let '(min, max) :=
    match head (map_keys m), last (map_keys m) with
    | Some first, Some lst => (first, Refined.BlockHeight_add lst Refined.NonNegI64_one)
    | _, _ => (Refined.BlockHeight_zero, Refined.BlockHeight_zero)
    end in
  let len := Z.of_nat (size m) in
  let len := if len <=? i64_max then len else i64_max in
  if Refined.BlockHeight_sub max min =? len then Ok () else Err HeightsNotInSequence.

Definition recreate_in_memory_state (blocks : gmap BlockHash BlockInfo) :
    Result DagState StoreError :=
  let state := foldl (λ st block, add_block_to_dag_state block st) empty_dag_state
                 (map_values blocks) in
  _u ←? validate_dag_state state;
  Ok state.

(** ** Persisted metadata with its index *)
Record BlockMetadataStore := mkMetaStore {
  store : gmap BlockHash BlockMetadata;
  dag_state : DagState;
}.

Definition meta_store_create (blocks : gmap BlockHash BlockMetadata) :
    Result BlockMetadataStore StoreError :=
  let info_map := block_metadata_to_info <$> blocks in
  ds ←? recreate_in_memory_state info_map;
  Ok (mkMetaStore blocks ds).

(** The index is updated before it is validated: on an error the index keeps
    the block and the store does not get it. *)
Definition meta_store_add (s : BlockMetadataStore) (block : BlockMetadata) :
    BlockMetadataStore * Result unit StoreError :=
  let info := block_metadata_to_info block in
  let state := add_block_to_dag_state info (dag_state s) in
  match validate_dag_state state with
  | Err e => (mkMetaStore (store s) state, Err e)
  | Ok _ => (mkMetaStore (<[md_block_hash block := block]> (store s)) state, Ok ())
  end.

Definition meta_store_get (s : BlockMetadataStore) (hash : BlockHash) : option BlockMetadata :=
  store s !! hash.

Definition get_unchecked (s : BlockMetadataStore) (hash : BlockHash) :
    Result BlockMetadata StoreError :=
  ok_or (meta_store_get s hash) (MissingKey hash).

Definition meta_store_contains (s : BlockMetadataStore) (hash : BlockHash) : bool :=
  bool_decide (hash ∈ dag_set (dag_state s)).

(** ** View of the DAG *)
Record DagRepresentation := mkRepr {
  r_dag_set : gset BlockHash;
  r_child_map : gmap BlockHash (gset BlockHash);
  r_height_map : gmap Z (gset BlockHash);
  dag_message_state : DagMessageState BlockHash Validator;
  fringe_states : gmap (gset BlockHash) FringeData;
}.

Definition repr_latest_fringe (r : DagRepresentation) : gset Msg :=
  latest_fringe_of (dag_message_state r).

Definition finalized_blocks_set (r : DagRepresentation) : gset BlockHash :=
  list_to_set (set_iter (repr_latest_fringe r) ≫= λ m, set_iter (seen m)).

Definition latest_block_number (r : DagRepresentation) : Z :=
  match last (map_keys (r_height_map r)) with
  | Some h => Refined.BlockHeight_add h Refined.NonNegI64_one
  | None => 0
  end.

Definition last_finalized_block_hash (r : DagRepresentation) : option BlockHash :=
  snd <$> max_by_key ord_gtb (λ p, p)
            ((λ m, (height m, id m)) <$> set_iter (repr_latest_fringe r)).

Definition last_finalized_block_unsafe (r : DagRepresentation) : Result BlockHash StoreError :=
  ok_or (last_finalized_block_hash r) NoFinalizedFringe.

Definition contains (r : DagRepresentation) (block_hash : BlockHash) : bool :=
  bool_decide (block_hash ∈ r_dag_set r).

Definition children (r : DagRepresentation) (block_hash : BlockHash) : option (gset BlockHash) :=
  r_child_map r !! block_hash.

Definition is_finalized (r : DagRepresentation) (block_hash : BlockHash) : bool :=
  bool_decide (block_hash ∈ finalized_blocks_set r).

Definition topo_sort (r : DagRepresentation) (start_block_number : Z)
    (maybe_end_block_number : option Z) : option (list (list BlockHash)) :=
  let max_number := latest_block_number r in
  let start_number := Z.max 0 start_block_number in
  let end_number :=
    match maybe_end_block_number with
    | Some e => Z.min e max_number
    | None => max_number
    end in
  let valid_range := (0 <=? start_number) && (start_number <=? end_number) in
  if valid_range then
    Some ((λ '(_, v), set_iter v) <$>
            filter (λ '(h, _), start_number ≤ h ∧ h ≤ end_number) (map_iter (r_height_map r)))
  else None.

Definition topo_sort_unsafe (r : DagRepresentation) (start_block_number : Z)
    (maybe_end_block_number : option Z) : Result (list (list BlockHash)) StoreError :=
  ok_or (topo_sort r start_block_number maybe_end_block_number)
    (TopoSortFragmentParameterError start_block_number i64_max).

(** The text is the list of its UTF-8 bytes.  A text of odd length is cut
    before its last byte; the slice panics inside a character. *)
Inductive FindOutcome :=
| Found (h : option BlockHash)
| SlicePanic.

(** [str::is_char_boundary] at the last byte: it does not continue a
    character. *)
Definition is_char_boundary (b : Z) : bool := negb ((128 <=? b) && (b <? 192)).

Definition find_prefix (r : DagRepresentation) (truncated_hash : list Z) : FindOutcome :=
  if Nat.even (length truncated_hash) then
    match Base16.decode truncated_hash with
    | None => Found None
    | Some prefix =>
        Found (List.find (λ h, Refined.Hash32_starts_with h prefix) (set_iter (r_dag_set r)))
    end
  else
    match last truncated_hash with
    | Some b =>
        if is_char_boundary b then
          match Base16.decode (take (length truncated_hash - 1) truncated_hash) with
          | None => Found None
          | Some prefix =>
              Found (List.find
                (λ h, bool_decide (take (length truncated_hash) (Refined.Hash32_to_hex h)
                                   = truncated_hash))
                (filter (λ h, Refined.Hash32_starts_with h prefix = true)
                   (set_iter (r_dag_set r))))
          end
        else SlicePanic
    | None => Found None
    end.

(** ** What the index holds *)
Implicit Types (s : gmap BlockHash BlockMetadata) (ds : DagState) (md : BlockMetadata).

(** The blocks of the store that name [h] as a justification. *)
Definition children_of s (h : BlockHash) : gset BlockHash :=
  dom (filter (λ '(_, md), h ∈ md_justifications md) s).

(** The blocks of height [n] that passed validation. *)
Definition at_height s (n : Z) : gset BlockHash :=
  dom (filter (λ '(_, md), validation_failed md = false ∧ md_block_num md = n) s).

(** [ds] is the index of the store [s]. *)
Record index_of s ds : Prop := {
  ix_set : dag_set ds = dom s;
  ix_child : ∀ h, child_map ds !! h =
    if bool_decide (h ∈ dom s ∨ children_of s h ≠ ∅) then Some (children_of s h) else None;
  ix_height : ∀ n, height_map ds !! n =
    if bool_decide (at_height s n = ∅) then None else Some (at_height s n);
}.

Lemma elem_of_children_of s h x :
  x ∈ children_of s h ↔ ∃ md, s !! x = Some md ∧ h ∈ md_justifications md.
Proof.
  unfold children_of. rewrite elem_of_dom. unfold is_Some. by setoid_rewrite map_lookup_filter_Some.
Qed.

Lemma elem_of_at_height s n x :
  x ∈ at_height s n ↔
  ∃ md, s !! x = Some md ∧ validation_failed md = false ∧ md_block_num md = n.
Proof.
  unfold at_height. rewrite elem_of_dom. unfold is_Some. by setoid_rewrite map_lookup_filter_Some.
Qed.

Lemma index_of_unique s ds ds' : index_of s ds → index_of s ds' → ds = ds'.
Proof.
  destruct ds as [a b c], ds' as [a' b' c'].
  intros [Hs Hc Hh] [Hs' Hc' Hh']. simpl in *. f_equal; [congruence| |];
    apply map_eq; intros i; [by rewrite Hc, Hc'|by rewrite Hh, Hh'].
Qed.

Lemma lookup_entry_insert {K A} `{Countable K} `{Countable A} (m : gmap K (gset A)) k x k' :
  entry_insert m k x !! k' = if decide (k = k') then Some ({[x]} ∪ default ∅ (m !! k)) else m !! k'.
Proof. unfold entry_insert. by rewrite lookup_insert. Qed.

(** The loop over the parents of a block. *)
Lemma lookup_entry_insert_all {K A} `{Countable K} `{Countable A} (m : gmap K (gset A)) x l k :
  foldl (λ cm p, entry_insert cm p x) m l !! k =
  if bool_decide (k ∈ l) then Some ({[x]} ∪ default ∅ (m !! k)) else m !! k.
Proof.
  revert m. induction l as [|p l IH]; intros m; cbn [foldl].
  { case_bool_decide as Hk; [by apply elem_of_nil in Hk|done]. }
  rewrite IH, lookup_entry_insert. destruct (decide (p = k)) as [->|Hne].
  - rewrite (bool_decide_true (k ∈ k :: l)) by (by left).
    case_bool_decide; simpl; [|done]. f_equal. set_solver.
  - destruct (decide (k ∈ l)).
    + by rewrite !bool_decide_true by (try right; done).
    + rewrite !bool_decide_false; [done|by rewrite elem_of_cons; naive_solver|done].
Qed.

(** Adding a block that is new, or known with the same index fields. *)
Definition refreshes s md : Prop :=
  ∀ md0, s !! md_block_hash md = Some md0 →
    block_metadata_to_info md0 = block_metadata_to_info md.

Lemma children_of_insert s md h :
  refreshes s md →
  children_of (<[md_block_hash md := md]> s) h =
  (if bool_decide (h ∈ md_justifications md) then {[md_block_hash md]} else ∅) ∪ children_of s h.
Proof.
  intros Hr. apply set_eq. intros x. rewrite elem_of_union, !elem_of_children_of.
  setoid_rewrite lookup_insert_Some. split.
  - intros (md' & [[<- <-]|[? ?]] & Hh); [|by eauto].
    left. rewrite bool_decide_true by done. by apply elem_of_singleton.
  - intros [Hx|(md' & Hx & Hh)].
    + case_bool_decide; [|by apply elem_of_empty in Hx].
      apply elem_of_singleton in Hx as ->. eauto.
    + destruct (decide (md_block_hash md = x)) as [<-|]; [|by eauto].
      exists md. split; [by left|]. specialize (Hr _ Hx). unfold block_metadata_to_info in Hr. congruence.
Qed.

Lemma at_height_insert s md n :
  refreshes s md →
  at_height (<[md_block_hash md := md]> s) n =
  (if bool_decide (validation_failed md = false ∧ md_block_num md = n)
   then {[md_block_hash md]} else ∅) ∪ at_height s n.
Proof.
  intros Hr. apply set_eq. intros x. rewrite elem_of_union, !elem_of_at_height.
  setoid_rewrite lookup_insert_Some. split.
  - intros (md' & [[<- <-]|[? ?]] & Hh); [|by eauto].
    left. rewrite bool_decide_true by done. by apply elem_of_singleton.
  - intros [Hx|(md' & Hx & Hh)].
    + case_bool_decide; [|by apply elem_of_empty in Hx].
      apply elem_of_singleton in Hx as ->. eauto.
    + destruct (decide (md_block_hash md = x)) as [<-|]; [|by eauto].
      exists md. split; [by left|]. specialize (Hr _ Hx). unfold block_metadata_to_info in Hr.
      destruct Hh. split; congruence.
Qed.

Lemma index_of_empty : index_of ∅ empty_dag_state.
Proof.
  split; simpl; [by rewrite dom_empty_L| |]; intros i; rewrite lookup_empty.
  - rewrite bool_decide_false; [done|]. intros [?|Hne]; [set_solver|]. apply Hne, set_eq.
    intros x. rewrite elem_of_children_of. setoid_rewrite lookup_empty. set_solver.
  - rewrite bool_decide_true; [done|]. apply set_eq.
    intros x. rewrite elem_of_at_height. setoid_rewrite lookup_empty. set_solver.
Qed.

(** The default of an entry that is present only when needed. *)
Lemma default_entry (P : Prop) `{!Decision P} (C : gset BlockHash) :
  default ∅ (if bool_decide (P ∨ C ≠ ∅) then Some C else None) = C.
Proof.
  case_bool_decide as H; simpl; [done|]. destruct (decide (C = ∅)); [done|]. by destruct H; right.
Qed.

Lemma default_entry_height (C : gset BlockHash) :
  default ∅ (if bool_decide (C = ∅) then None else Some C) = C.
Proof. by case_bool_decide. Qed.

Lemma index_of_add s ds md :
  index_of s ds → refreshes s md →
  index_of (<[md_block_hash md := md]> s)
    (add_block_to_dag_state (block_metadata_to_info md) ds).
Proof.
  intros [Hs Hc Hh] Hr. split; simpl.
  - rewrite dom_insert_L. by rewrite Hs.
  - intros h. rewrite children_of_insert by done. unfold entry_default. rewrite lookup_insert.
    rewrite !lookup_entry_insert_all, !Hc, !default_entry, dom_insert_L.
    assert (∀ X : gset BlockHash, ∀ y, bool_decide (y ∈ set_iter X) = bool_decide (y ∈ X)) as Hin
      by (intros; apply bool_decide_ext, elem_of_set_iter).
    rewrite !Hin. destruct (bool_decide_reflect (h ∈ md_justifications md)) as [Hj|Hj].
    + rewrite (bool_decide_true (h ∈ {[_]} ∪ _ ∨ _)) by (right; set_solver).
      case_decide as Hd; [|done]. subst h. by rewrite (bool_decide_true (_ ∈ md_justifications _)).
    + rewrite (left_id_L ∅ (∪)). case_decide as Hd.
      * subst h. rewrite (bool_decide_true (_ ∈ {[_]} ∪ _ ∨ _)) by (left; set_solver).
        by rewrite (bool_decide_false (_ ∈ md_justifications _)), default_entry.
      * replace (bool_decide (h ∈ {[md_block_hash md]} ∪ dom s ∨ children_of s h ≠ ∅))
          with (bool_decide (h ∈ dom s ∨ children_of s h ≠ ∅)); [done|].
        apply bool_decide_ext. set_solver.
  - intros n. rewrite at_height_insert by done.
    destruct (validation_failed md) eqn:Hf.
    + rewrite (bool_decide_false (_ ∧ _)) by naive_solver. rewrite Hh, (left_id_L ∅ (∪)). done.
    + rewrite lookup_entry_insert. case_decide as Hn.
      * subst n. rewrite (bool_decide_true (_ ∧ _)), Hh, default_entry_height by done.
        by rewrite bool_decide_false by set_solver.
      * rewrite (bool_decide_false (_ ∧ _)) by naive_solver. by rewrite Hh, (left_id_L ∅ (∪)).
Qed.

(** The index as a fold over the records of the store. *)
Lemma index_of_fold (l : list (BlockHash * BlockMetadata)) s ds :
  index_of s ds → NoDup l.*1 →
  (∀ k md, (k, md) ∈ l → s !! k = None ∧ md_block_hash md = k) →
  index_of (list_to_map l ∪ s)
    (foldl (λ st md, add_block_to_dag_state (block_metadata_to_info md) st) ds l.*2).
Proof.
  revert s ds. induction l as [|[k md] l IH]; intros s ds Hi Hnd Hl; simpl.
  { by rewrite (left_id_L ∅ (∪)). }
  apply NoDup_cons in Hnd as [Hk Hnd].
  destruct (Hl k md) as [Hnone Hkey]; [by left|].
  rewrite <- insert_union_l, insert_union_r by (by apply not_elem_of_list_to_map_1).
  apply IH; [|done|].
  - rewrite <- Hkey. apply index_of_add; [done|]. intros md0. rewrite Hkey, Hnone. done.
  - intros k' md' Hin. destruct (Hl k' md') as [Hn' Hk']; [by right|]. split; [|done].
    rewrite lookup_insert_ne; [done|]. intros ->. apply Hk, list_elem_of_fmap. by exists (k', md').
Qed.

(** Every record is filed under its block hash. *)
Definition keyed s : Prop := ∀ k md, s !! k = Some md → md_block_hash md = k.

Lemma foldl_fmap_l {A B C} (f : C → B → C) (g : A → B) c l :
  foldl f c (g <$> l) = foldl (λ c a, f c (g a)) c l.
Proof. revert c. induction l; intros c; simpl; eauto. Qed.

Lemma map_values_fmap {K A B} `{!Ord K, !OrdSpec K} `{Countable K} (g : A → B) (m : gmap K A) :
  map_values (g <$> m) = g <$> map_values m.
Proof.
  unfold map_values. rewrite <- list_fmap_compose.
  assert (map_iter (g <$> m) = prod_map (λ k, k) g <$> map_iter m) as ->.
  { apply (StronglySorted_unique_strong key_le).
    - intros [k v] [k' v'] Hin Hin' Hle Hle'. unfold key_le in *. simpl in *.
      assert (k = k') as <- by (by apply (anti_symm ord_le)).
      rewrite elem_of_map_iter in Hin.
      apply list_elem_of_fmap in Hin' as ([k0 v0] & [= -> ->] & Hin').
      apply elem_of_map_iter in Hin'. rewrite lookup_fmap, Hin' in Hin. by simplify_eq/=.
    - apply map_iter_sorted.
    - pose proof (map_iter_sorted m) as Hs. induction Hs as [|[k v] l Hs IH Hf]; simpl; constructor; [done|].
      rewrite Forall_fmap. by eapply Forall_impl; [exact Hf|]; intros [k' v'].
    - rewrite !map_iter_perm. by rewrite map_to_list_fmap. }
  rewrite <- list_fmap_compose. by apply list_fmap_ext; intros ? [k v].
Qed.

Lemma recreate_index s :
  keyed s →
  index_of s (foldl (λ st block, add_block_to_dag_state block st) empty_dag_state
                (map_values (block_metadata_to_info <$> s))).
Proof.
  intros Hk. rewrite map_values_fmap, foldl_fmap_l.
  pose proof (index_of_fold (map_iter s) ∅ empty_dag_state index_of_empty) as Hf.
  rewrite list_to_map_iter, (right_id_L ∅ (∪)) in Hf. apply Hf; [apply NoDup_map_iter_keys|].
  intros k md Hin%elem_of_map_iter. split; [apply lookup_empty|by apply Hk].
Qed.

(** Heights without a hole between any two of them. *)
Definition contiguous (m : gmap Z (gset BlockHash)) : Prop :=
  ∀ a b n, is_Some (m !! a) → is_Some (m !! b) → a ≤ n ≤ b → is_Some (m !! n).

Definition heights_in_range (m : gmap Z (gset BlockHash)) : Prop :=
  ∀ n, is_Some (m !! n) → 0 ≤ n < i64_max.

(** A set of integers within [a..b] is the whole range iff it has its size. *)
Lemma full_range (X : gset Z) a b :
  a ≤ b + 1 → (∀ n, n ∈ X → a ≤ n ≤ b) →
  Z.of_nat (size X) ≤ b + 1 - a ∧
  (Z.of_nat (size X) = b + 1 - a ↔ ∀ n, a ≤ n ≤ b → n ∈ X).
Proof.
  intros Hab HX. set (Y := list_to_set (seqZ a (b + 1 - a)) : gset Z).
  assert (∀ n, n ∈ Y ↔ a ≤ n ≤ b) as HY.
  { intros n. unfold Y. rewrite elem_of_list_to_set, elem_of_seqZ. lia. }
  assert (size Y = Z.to_nat (b + 1 - a)) as Hsz.
  { unfold Y. rewrite size_list_to_set, length_seqZ; [done|apply NoDup_seqZ]. }
  assert (X ⊆ Y) as Hsub by (intros n Hn; apply HY, HX, Hn).
  pose proof (subseteq_size _ _ Hsub). split; [lia|]. split.
  - intros E n Hn. assert (X = Y) as -> by (apply set_subseteq_size_eq; [done|lia]). by apply HY.
  - intros Hall. assert (X = Y) as ->; [|lia]. apply set_eq. intros n.
    split; [apply Hsub|]. intros Hn. by apply Hall, HY.
Qed.

Lemma validate_contiguous ds :
  heights_in_range (height_map ds) →
  validate_dag_state ds = Ok () ↔ contiguous (height_map ds).
Proof.
  intros Hr. unfold validate_dag_state. set (m := height_map ds) in *.
  destruct (head (map_keys m)) as [lo|] eqn:Hh.
  2:{ apply head_None, map_keys_nil in Hh. rewrite Hh. split; [|done].
      intros _ a b n []%lookup_empty_is_Some. }
  destruct (last (map_keys m)) as [hi|] eqn:Hl.
  2:{ apply last_None in Hl. by rewrite Hl in Hh. }
  apply map_keys_head in Hh as [Hlo Hmin]. apply map_keys_last in Hl as [Hhi Hmax].
  pose proof (Hr _ Hlo). pose proof (Hr _ Hhi). setoid_rewrite ord_le_Z in Hmin.
  setoid_rewrite ord_le_Z in Hmax. specialize (Hmin _ Hhi) as Hle.
  destruct (full_range (dom m) lo hi) as [Hsz Hfull]; [lia| |].
  { intros n Hn%elem_of_dom. auto. }
  rewrite size_dom in Hsz, Hfull. setoid_rewrite elem_of_dom in Hfull.
  assert (Refined.BlockHeight_sub (Refined.BlockHeight_add hi Refined.NonNegI64_one) lo
          = hi + 1 - lo) as ->.
  { unfold Refined.BlockHeight_sub, Refined.BlockHeight_add, i64_saturating_add, Refined.NonNegI64_one.
    rewrite i64_wrap_id; unfold_ints; lia. }
  destruct (Z.leb_spec (Z.of_nat (size m)) i64_max); [|unfold_ints; lia].
  destruct (Z.eqb_spec (hi + 1 - lo) (Z.of_nat (size m))) as [E|E].
  - split; [|done]. intros _ a b n Ha Hb Hn. apply Hfull; [done|].
    specialize (Hmin _ Ha). specialize (Hmax _ Hb). lia.
  - split; [done|]. intros Hc. destruct E. symmetry. apply Hfull. intros n Hn. by apply (Hc lo hi).
Qed.

(** The invariant of the metadata store. *)
Record meta_store_ok (s : BlockMetadataStore) : Prop := {
  ms_keyed : keyed (store s);
  ms_index : index_of (store s) (dag_state s);
  ms_valid : validate_dag_state (dag_state s) = Ok ();
}.

Lemma meta_store_add_ok (s s' : BlockMetadataStore) md :
  meta_store_ok s → refreshes (store s) md →
  meta_store_add s md = (s', Ok ()) →
  meta_store_ok s' ∧ store s' = <[md_block_hash md := md]> (store s).
Proof.
  intros [Hk Hi Hv] Hr. unfold meta_store_add. cbn zeta.
  destruct (validate_dag_state (add_block_to_dag_state _ _)) as [[]|] eqn:E; intros Hs'; [|done].
  injection Hs' as <-. split; [|done].
  split; simpl; [|by apply index_of_add|done].
  intros k m. rewrite lookup_insert. case_decide; [by intros [= <-]|apply Hk].
Qed.

Lemma meta_store_create_ok (s : BlockMetadataStore) :
  meta_store_ok s → meta_store_create (store s) = Ok s.
Proof.
  intros [Hk Hi Hv]. unfold meta_store_create, recreate_in_memory_state.
  rewrite (index_of_unique _ _ _ (recreate_index _ Hk) Hi), Hv. by destruct s.
Qed.
End DagStore.
Import DagStore.

(** ** Properties *)

(** Law 18, no holes in the heights.  For heights below the [i64]
    maximum, the validation of the index accepts exactly the indexes whose
    heights form one contiguous range, so a stored DAG never skips a height. *)
Theorem validate_dag_state_contiguous ds :
  heights_in_range (height_map ds) →
  validate_dag_state ds = Ok () ↔ contiguous (height_map ds).
Proof. apply validate_contiguous. Qed.

(** ** Concrete instance: three blocks of two heights *)
Module DagStoreExample.
Definition info (i : Z) (parents : list Z) (n : Z) : BlockInfo :=
  mkInfo [i] (list_to_set ((λ p, [p]) <$> parents)) n false.

Definition ds : DagState :=
  foldl (λ st b, add_block_to_dag_state b st) empty_dag_state [info 1 [] 0; info 2 [1] 1; info 3 [1] 1].

(** Witness of [validate_dag_state_contiguous]; a block of height 3 leaves a
    hole. *)
Lemma validate_dag_state_contiguous_witness :
  contiguous (height_map ds) ∧ ¬ contiguous (height_map (add_block_to_dag_state (info 4 [2] 3) ds)).
Proof.
  assert (∀ m : gmap Z (gset BlockHash),
    forallb (λ n, (0 <=? n) && (n <? i64_max)) (map_keys m) = true → heights_in_range m) as Hr.
  { intros m Hf n Hn%elem_of_map_keys. rewrite forallb_elem in Hf. specialize (Hf n Hn). lia. }
  split.
  - apply (validate_dag_state_contiguous ds); [apply Hr|]; vm_compute; reflexivity.
  - intros Hc. apply (validate_dag_state_contiguous (add_block_to_dag_state (info 4 [2] 3) ds)) in Hc;
      [|apply Hr; vm_compute; reflexivity]. vm_compute in Hc. discriminate Hc.
Defined.
End DagStoreExample.
