(* ===== verification/BlockDag.v ===== *)
(** * Block DAG storage

    [casper/src/dag.rs]: the storage that indexes validated blocks, keeps the
    message state of the DAG and the pool of pending deploys, and rebuilds its
    in-memory view from the persisted stores on start.  An operation takes the
    storage and returns the changed storage with its result, also on an error:
    what was written before an error stays written.  The operations run under
    one lock, so they are atomic.  The digest function is a parameter. *)

From S2P Require Import Prelude BTree Refined Message Finalizer MessageState Block DagStore.
Import MessageMap Finalizer MessageState Block DagStore.

Module BlockDag.
Definition MAX_POOLED_DEPLOYS : Z := 10000.
(** [multi_parent_casper::DEPLOY_LIFESPAN]. *)
Definition DEPLOY_LIFESPAN : Z := 50.

Inductive DagError :=
| EquivocationDetected
| JustificationNotPresent
| FringeBlockNotPresent
| DeployPoolFull
| StoreFailure (e : StoreError).

Record Storage := mkStorage {
  representation : DagRepresentation;
  block_metadata_store : BlockMetadataStore;
  fringe_data_store : gmap bytes FringeData;
  deploy_index : gmap DeployId BlockHash;
  deploy_store : gmap DeployId SignedDeployData;
  block_index_cache : gset BlockHash;   (* the keys of [BLOCK_INDEX_CACHE] *)
}.

(** [None] when a justification is absent from the message map. *)
Definition message_from_block_metadata (block : BlockMetadata) (mm : gmap BlockHash Msg) :
    option Msg :=
  sn ← fold_opt (λ (acc : gset BlockHash) p, m ← mm !! p; Some (acc ∪ seen m))
         ∅ (set_iter (md_justifications block));
  Some (mkMessage (md_block_hash block) (md_block_num block) (md_sender block)
          (md_seq_num block) (md_bonds_map block) (md_justifications block)
          (md_fringe block) ({[md_block_hash block]} ∪ sn)).

Definition set_metadata_store (st : Storage) (bms : BlockMetadataStore) : Storage :=
  mkStorage (representation st) bms (fringe_data_store st) (deploy_index st)
    (deploy_store st) (block_index_cache st).

(** Pending deploys older than the deploy lifespan leave the pool. *)
Definition expire_deploys (pool : gmap DeployId SignedDeployData) (latest_block_number : Z) :
    gmap DeployId SignedDeployData :=
  let expired : gset DeployId :=
    dom (filter (λ '(_, d),
           DEPLOY_LIFESPAN < i64_wrap (latest_block_number - valid_after_block_number (data d)))
         pool) in
  filter (λ '(i, _), i ∉ expired) pool.

Section Storage.
Context (blake2b256 : bytes → bytes).
Notation fringe_hash_of := (fringe_hash_of blake2b256).

(** ** Start: rebuilding the view from the stores *)
Definition create_step (bms : BlockMetadataStore) (fds : gmap bytes FringeData)
    (acc : Result (DagMessageState BlockHash Validator * gmap (gset BlockHash) FringeData) DagError)
    (hash : BlockHash) :=
  p ←? acc;
  let '(ms, fs) := p in
  if bool_decide (is_Some (msg_map ms !! hash)) then Ok (ms, fs)
  else
    match get_unchecked bms hash with
    | Err e => Err (StoreFailure e)
    | Ok block =>
        msg ←? ok_or (message_from_block_metadata block (msg_map ms)) JustificationNotPresent;
        let ms' := insert_msg ms msg in
        let fs' :=
          if bool_decide (is_Some (fs !! fringe msg)) then fs
          else match fds !! fringe_hash_of (fringe msg) with
               | Some fd => <[fringe msg := fd]> fs
               | None => fs
               end in
        Ok (ms', fs')
    end.

Definition storage_create (bms : BlockMetadataStore) (fds : gmap bytes FringeData)
    (d_index : gmap DeployId BlockHash) (d_store : gmap DeployId SignedDeployData) :
    Result Storage DagError :=
  let ds := dag_state bms in
  p ←? foldl (create_step bms fds) (Ok (empty_state, ∅))
         (map_values (height_map ds) ≫= set_iter);
  let '(ms, fs) := p in
  Ok (mkStorage (mkRepr (dag_set ds) (child_map ds) (height_map ds) ms fs)
        bms fds d_index d_store ∅).

(** The start of the node: the metadata index, then the view. *)
Definition restart (st : Storage) : Result Storage DagError :=
  match meta_store_create (store (block_metadata_store st)) with
  | Err e => Err (StoreFailure e)
  | Ok bms =>
      storage_create bms (fringe_data_store st) (deploy_index st) (deploy_store st)
  end.

(** ** Inserting a block *)

(** [dag_message_state.msg_map.values().any(..)]. *)
Definition equivocating (mm : gmap BlockHash Msg) (md : BlockMetadata) : bool :=
  existsb (λ m, bool_decide (sender m = md_sender md) && (sender_seq m =? md_seq_num md))
    (map_values mm).

(** Index the deploys of the block and take them from the pool. *)
Definition index_deploys (st : Storage) (block : BlockMessage) : Storage :=
  let deploy_hashes := (λ d, sd_sig (deploy d)) <$> deploys (b_state block) in
  match deploy_hashes with
  | [] => st
  | _ =>
      mkStorage (representation st) (block_metadata_store st) (fringe_data_store st)
        (foldl (λ ix h, <[h := b_block_hash block]> ix) (deploy_index st) deploy_hashes)
        (foldl (λ pool h, delete h pool) (deploy_store st) deploy_hashes)
        (block_index_cache st)
  end.

(** The message of each hash, or an error at the first unknown one. *)
Definition resolve_all (mm : gmap BlockHash Msg) (e : DagError) (hs : gset BlockHash) :
    Result (list Msg) DagError :=
  try_map (λ h, ok_or (mm !! h) e) (set_iter hs).

(** The blocks the new fringe finalizes beyond the latest fringe of the
    justifications. *)
Definition compute_fringe_diff (mm : gmap BlockHash Msg) (md : BlockMetadata) :
    Result (gset BlockHash) DagError :=
  justs ←? resolve_all mm JustificationNotPresent (md_justifications md);
  let prev_fringe := latest_fringe mm (list_to_set justs) in
  fringe_msgs ←? resolve_all mm FringeBlockNotPresent (md_fringe md);
  let fringe_seen : gset BlockHash := foldl (λ acc m, acc ∪ seen m) ∅ fringe_msgs in
  let prev_seen : gset BlockHash :=
    list_to_set (set_iter prev_fringe ≫= λ m, set_iter (seen m)) in
  Ok (fringe_seen ∖ prev_seen).

(** Mark the newly finalized blocks with the fringe they belong to. *)
Fixpoint mark_members (bms : BlockMetadataStore) (fringe_hash : bytes) (hs : list BlockHash) :
    BlockMetadataStore * Result unit StoreError :=
  match hs with
  | [] => (bms, Ok ())
  | h :: hs' =>
      match get_unchecked bms h with
      | Err e => (bms, Err e)
      | Ok meta =>
          match meta_store_add bms (set_member_of_fringe meta fringe_hash) with
          | (bms', Err e) => (bms', Err e)
          | (bms', Ok _) => mark_members bms' fringe_hash hs'
          end
      end
  end.

(** The block-index entries that can be dropped when the fringe advances. *)
Definition prune_ids (r : DagRepresentation) : gset BlockHash :=
  let mm := msg_map (dag_message_state r) in
  let latest : gset Msg := list_to_set (map_values (latest_msgs (dag_message_state r))) in
  let lowest := lowest_fringe mm latest in
  let lowest_ids : gset BlockHash := list_to_set (id <$> set_iter lowest) in
  list_to_set (id <$> set_iter (prune_fringe mm lowest_ids (r_child_map r))).

(** The in-memory view with the new block; a block that failed validation
    does not become its sender's latest message. *)
Definition update_representation (r : DagRepresentation) (ds : DagState) (md : BlockMetadata)
    (msg : Msg) (fd : FringeData) : DagRepresentation :=
  let ms := if validation_failed md
            then insert_msg_without_latest (dag_message_state r) msg
            else insert_msg (dag_message_state r) msg in
  mkRepr (dag_set ds) (child_map ds) (height_map ds) ms
    (<[fringe msg := fd]> (fringe_states r)).

(** The steps after the fringe data is known. *)
Definition insert_commit (st : Storage) (md : BlockMetadata) (fd : FringeData) :
    Storage * Result unit DagError :=
  let st := mkStorage (representation st) (block_metadata_store st)
              (<[fringe_hash fd := fd]> (fringe_data_store st))
              (deploy_index st) (deploy_store st) (block_index_cache st) in
  match mark_members (block_metadata_store st) (fringe_hash fd) (set_iter (fringe_diff fd)) with
  | (bms, Err e) => (set_metadata_store st bms, Err (StoreFailure e))
  | (bms, Ok _) =>
      let st := set_metadata_store st bms in
      let r := representation st in
      match message_from_block_metadata md (msg_map (dag_message_state r)) with
      | None => (st, Err JustificationNotPresent)
      | Some msg =>
          let r' := update_representation r (dag_state bms) md msg fd in
          let prune_cache_ids :=
            if bool_decide (fringe_diff fd = ∅) then ∅ else prune_ids r' in
          (mkStorage r' bms (fringe_data_store st) (deploy_index st)
             (expire_deploys (deploy_store st) (latest_block_number r'))
             (block_index_cache st ∖ prune_cache_ids), Ok ())
      end
  end.

Definition dag_insert (st : Storage) (md : BlockMetadata) (block : BlockMessage) :
    Storage * Result unit DagError :=
  if meta_store_contains (block_metadata_store st) (md_block_hash md) then (st, Ok ())
  else if equivocating (msg_map (dag_message_state (representation st))) md
  then (st, Err EquivocationDetected)
  else
    match meta_store_add (block_metadata_store st) md with
    | (bms, Err e) => (set_metadata_store st bms, Err (StoreFailure e))
    | (bms, Ok _) =>
        let st := index_deploys (set_metadata_store st bms) block in
        match compute_fringe_diff (msg_map (dag_message_state (representation st))) md with
        | Err e => (st, Err e)
        | Ok diff =>
            let fd := mkFringeData (fringe_hash_of (md_fringe md)) (md_fringe md) diff
                        (fringe_state_hash md) (b_rejected_deploys block)
                        (b_rejected_blocks block) (b_rejected_senders block) in
            insert_commit st md fd
        end
    end.

(** ** Lookups and the deploy pool *)
Definition dag_lookup (st : Storage) (block_hash : BlockHash) : option BlockMetadata :=
  meta_store_get (block_metadata_store st) block_hash.

Definition lookup_by_deploy_id (st : Storage) (deploy_id : DeployId) : option BlockHash :=
  deploy_index st !! deploy_id.

Definition add_deploy (st : Storage) (d : SignedDeployData) : Storage * Result unit DagError :=
  if MAX_POOLED_DEPLOYS <=? Z.of_nat (size (deploy_store st)) then (st, Err DeployPoolFull)
  else (mkStorage (representation st) (block_metadata_store st) (fringe_data_store st)
          (deploy_index st) (<[sd_sig d := d]> (deploy_store st)) (block_index_cache st), Ok ()).

Definition contains_deploy_in_pool (st : Storage) (deploy_id : DeployId) : bool :=
  bool_decide (is_Some (deploy_store st !! deploy_id)).
End Storage.

(** ** The DAG of the stored blocks *)

(** Metadata without the fringe membership, the only field that changes
    after a block is stored. *)
Definition erase (md : BlockMetadata) : BlockMetadata :=
  mkMeta (md_block_hash md) (md_block_num md) (md_sender md) (md_seq_num md)
    (md_justifications md) (md_bonds_map md) (validated md) (validation_failed md)
    (md_fringe md) (fringe_state_hash md) None.

Definition core (st : Storage) : gmap BlockHash BlockMetadata :=
  erase <$> store (block_metadata_store st).

Implicit Types (c : gmap BlockHash BlockMetadata) (md : BlockMetadata) (m : Msg)
  (ms : DagMessageState BlockHash Validator) (mm : gmap BlockHash Msg).

(** [b] is a justification of [a]. *)
Definition just c (a b : BlockHash) : Prop :=
  ∃ md, c !! a = Some md ∧ b ∈ md_justifications md.

Definition closed c : Prop :=
  ∀ h md p, c !! h = Some md → p ∈ md_justifications md → is_Some (c !! p).

(** [m] is the message of the block [md]: it sees exactly its ancestors. *)
Record msg_of c md m : Prop := {
  mo_id : id m = md_block_hash md;
  mo_height : height m = md_block_num md;
  mo_sender : sender m = md_sender md;
  mo_seq : sender_seq m = md_seq_num md;
  mo_bonds : bonds_map m = md_bonds_map md;
  mo_parents : parents m = md_justifications md;
  mo_fringe : fringe m = md_fringe md;
  mo_seen : ∀ x, x ∈ seen m ↔ rtc (just c) (md_block_hash md) x;
}.

(** [h] is the block with the highest sequence number among the valid blocks
    of the sender [s]. *)
Definition is_latest c (s : Validator) (h : BlockHash) : Prop :=
  ∃ md, c !! h = Some md ∧ validation_failed md = false ∧ md_sender md = s ∧
    ∀ h' md', c !! h' = Some md' → validation_failed md' = false → md_sender md' = s →
      md_seq_num md' ≤ md_seq_num md.

(** The message state [ms] is the one of the blocks [c]. *)
Record msgs_ok c ms : Prop := {
  mk_keyed : ∀ h md, c !! h = Some md → md_block_hash md = h;
  mk_closed : closed c;
  mk_map : ∀ h, option_Forall2 (msg_of c) (c !! h) (msg_map ms !! h);
  mk_uniq : ∀ h md h' md', c !! h = Some md → c !! h' = Some md' →
    md_sender md = md_sender md' → md_seq_num md = md_seq_num md' → h = h';
  mk_latest : ∀ s m, latest_msgs ms !! s = Some m ↔
    is_latest c s (id m) ∧ msg_map ms !! id m = Some m;
  mk_none : ∀ s, latest_msgs ms !! s = None →
    ∀ h md, c !! h = Some md → validation_failed md = false → md_sender md ≠ s;
}.

Section Reach.
Context (c : gmap BlockHash BlockMetadata) (Hc : closed c).

Lemma rtc_just_dom a x : is_Some (c !! a) → rtc (just c) a x → is_Some (c !! x).
Proof.
  intros Ha Hr. induction Hr as [|a b x (md & Hmd & Hb) _ IH]; [done|].
  apply IH. by eapply Hc.
Qed.

(** New blocks do not change what the old ones reach. *)
Lemma rtc_just_insert h md a x :
  c !! h = None → is_Some (c !! a) →
  rtc (just (<[h := md]> c)) a x ↔ rtc (just c) a x.
Proof.
  intros Hh Ha. split; intros Hr.
  - induction Hr as [|a b x (md' & Hmd & Hb) _ IH]; [done|].
    rewrite lookup_insert_ne in Hmd by (intros ->; rewrite Hh in Ha; by destruct Ha).
    eapply rtc_l; [by exists md'|]. apply IH. by eapply Hc.
  - clear Ha. induction Hr as [|a b x (md' & Hmd & Hb) _ IH]; [done|].
    eapply rtc_l; [|done]. exists md'. split; [|done].
    rewrite lookup_insert_ne; [done|]. intros ->. congruence.
Qed.
End Reach.

Lemma rtc_just_inv c a x :
  rtc (just c) a x ↔ x = a ∨ ∃ p, just c a p ∧ rtc (just c) p x.
Proof.
  split.
  - inversion 1; subst; eauto.
  - intros [->|(p & ? & ?)]; [done|by eapply rtc_l].
Qed.

(** What [message_from_block_metadata] computes. *)
Lemma message_from_block_metadata_spec md mm :
  match message_from_block_metadata md mm with
  | None => ∃ p, p ∈ md_justifications md ∧ mm !! p = None
  | Some m =>
      (∀ p, p ∈ md_justifications md → is_Some (mm !! p)) ∧
      id m = md_block_hash md ∧ height m = md_block_num md ∧ sender m = md_sender md ∧
      sender_seq m = md_seq_num md ∧ bonds_map m = md_bonds_map md ∧
      parents m = md_justifications md ∧ fringe m = md_fringe md ∧
      ∀ x, x ∈ seen m ↔ x = md_block_hash md ∨
        ∃ p mp, p ∈ md_justifications md ∧ mm !! p = Some mp ∧ x ∈ seen mp
  end.
Proof.
  unfold message_from_block_metadata.
  destruct (fold_opt _ _ _) as [sn|] eqn:E; cbn [mbind option_bind].
  - assert ((∀ p, p ∈ set_iter (md_justifications md) → is_Some (mm !! p)) ∧
      ∀ x, x ∈ sn ↔ ∃ p mp, p ∈ set_iter (md_justifications md) ∧ mm !! p = Some mp ∧ x ∈ seen mp)
      as [Hd Hs].
    { revert E. apply (fold_opt_inv _ (λ l (sn : gset BlockHash),
        (∀ p, p ∈ l → is_Some (mm !! p)) ∧
        ∀ x, x ∈ sn ↔ ∃ p mp, p ∈ l ∧ mm !! p = Some mp ∧ x ∈ seen mp)).
      - split; [by intros ? ?%elem_of_nil|]. intros x. split; [set_solver|].
        by intros (? & ? & ?%elem_of_nil & _).
      - intros done a rest b b' _ [Hd Hs].
        destruct (mm !! a) as [ma|] eqn:Ha; cbn; [|done]. intros [= <-]. split.
        + intros p [?| ->%list_elem_of_singleton]%elem_of_app; eauto.
        + intros x. rewrite elem_of_union, Hs. split.
          * intros [(p & mp & ? & ?)|?]; [exists p, mp|exists a, ma];
              rewrite elem_of_app, list_elem_of_singleton; auto.
          * intros (p & mp & [?| ->%list_elem_of_singleton]%elem_of_app & Hp & ?); [by eauto 10|].
            right. congruence. }
    cbn. setoid_rewrite elem_of_set_iter in Hd. setoid_rewrite elem_of_set_iter in Hs.
    split_and!; try done. intros x. rewrite elem_of_union, elem_of_singleton, Hs. done.
  - destruct (decide (Exists (λ p, mm !! p = None) (set_iter (md_justifications md)))) as [Hx|Hx].
    { apply Exists_exists in Hx as (p & ?%elem_of_set_iter & ?). eauto. }
    exfalso. destruct (fold_opt_is_Some (λ (acc : gset BlockHash) p, m ← mm !! p; Some (acc ∪ seen m))
      ∅ (set_iter (md_justifications md))) as [? E']; [|congruence].
    intros b a Ha. destruct (mm !! a) eqn:Hma; cbn; [by eauto|].
    destruct Hx. apply Exists_exists. eauto.
Qed.

Lemma mk_map_Some c ms h m :
  msgs_ok c ms → msg_map ms !! h = Some m → ∃ md, c !! h = Some md ∧ msg_of c md m.
Proof. intros Hok Hm. pose proof (mk_map _ _ Hok h) as H. rewrite Hm in H. inversion H; eauto. Qed.

Lemma mk_map_block c ms h md :
  msgs_ok c ms → c !! h = Some md → ∃ m, msg_map ms !! h = Some m ∧ msg_of c md m.
Proof. intros Hok Hm. pose proof (mk_map _ _ Hok h) as H. rewrite Hm in H. inversion H; eauto. Qed.

Lemma mk_map_None c ms h : msgs_ok c ms → c !! h = None ↔ msg_map ms !! h = None.
Proof. intros Hok. pose proof (mk_map _ _ Hok h) as H. inversion H; naive_solver. Qed.

(** The messages of the old blocks stay their messages. *)
Lemma msg_of_insert c h md md' m' :
  closed c → (∀ h md, c !! h = Some md → md_block_hash md = h) →
  c !! h = None → c !! md_block_hash md' = Some md' →
  msg_of c md' m' → msg_of (<[h := md]> c) md' m'.
Proof.
  intros Hc Hk Hh Hmd' [? ? ? ? ? ? ? Hs]. split; try done.
  intros x. rewrite Hs, rtc_just_insert; eauto.
Qed.

(** The message built for a new block is its message. *)
Lemma msg_of_new c ms md m :
  msgs_ok c ms → c !! md_block_hash md = None →
  message_from_block_metadata md (msg_map ms) = Some m →
  msg_of (<[md_block_hash md := md]> c) md m ∧
  ∀ p, p ∈ md_justifications md → is_Some (c !! p).
Proof.
  intros Hok Hnew Hm. pose proof (message_from_block_metadata_spec md (msg_map ms)) as Hspec.
  rewrite Hm in Hspec. destruct Hspec as (Hd & ? & ? & ? & ? & ? & ? & ? & Hs).
  assert (∀ p, p ∈ md_justifications md → is_Some (c !! p)) as Hdom.
  { intros p [mp Hp]%Hd. destruct (mk_map_Some _ _ _ _ Hok Hp) as (? & ? & _). eauto. }
  split; [|done]. split; try done. intros x. rewrite Hs, rtc_just_inv.
  apply or_iff_compat_l. unfold just at 1. split.
  - intros (p & mp & Hp & Hmp & Hx). destruct (mk_map_Some _ _ _ _ Hok Hmp) as (mdp & Hcp & Hmo).
    exists p. split; [exists md; by rewrite lookup_insert_eq|].
    apply rtc_just_insert; [apply (mk_closed _ _ Hok)|done|by eauto|].
    rewrite <- (mk_keyed _ _ Hok _ _ Hcp). by apply (mo_seen _ _ _ Hmo).
  - intros (p & (md' & Hmd' & Hp) & Hr). rewrite lookup_insert_eq in Hmd'. injection Hmd' as <-.
    destruct (Hdom p Hp) as [mdp Hcp].
    destruct (mk_map_block _ _ _ _ Hok Hcp) as (mp & Hmp & Hmo). exists p, mp. split_and!; [done..|].
    apply (mo_seen _ _ _ Hmo). rewrite (mk_keyed _ _ Hok _ _ Hcp).
    apply rtc_just_insert in Hr; [done|apply (mk_closed _ _ Hok)|done|by eauto].
Qed.

(** No block of [c] has the sender and the sequence number of [md]. *)
Definition fresh_seq c md : Prop :=
  ∀ h' md', c !! h' = Some md' → md_sender md' = md_sender md → md_seq_num md' ≠ md_seq_num md.

Lemma equivocating_spec c ms md :
  msgs_ok c ms → equivocating (msg_map ms) md = false ↔ fresh_seq c md.
Proof.
  intros Hok. unfold equivocating. rewrite existsb_not_elem. split.
  - intros Hf h' md' Hc Hs Hq. destruct (mk_map_block _ _ _ _ Hok Hc) as (m & Hm & Hmo).
    specialize (Hf m). rewrite elem_of_map_values in Hf. specialize (Hf (ex_intro _ _ Hm)).
    rewrite (mo_sender _ _ _ Hmo), (mo_seq _ _ _ Hmo), Hs, Hq, bool_decide_true in Hf by done.
    simpl in Hf. lia.
  - intros Hf m [h Hm]%elem_of_map_values.
    destruct (mk_map_Some _ _ _ _ Hok Hm) as (md' & Hc & Hmo).
    rewrite (mo_sender _ _ _ Hmo), (mo_seq _ _ _ Hmo). case_bool_decide as Hs; [|done].
    simpl. specialize (Hf _ _ Hc Hs). lia.
Qed.

(** The message state with one more block. *)
Definition insert_block ms md m : DagMessageState BlockHash Validator :=
  if validation_failed md then insert_msg_without_latest ms m else insert_msg ms m.

Lemma insert_block_map ms md m :
  msg_map ms !! id m = None → msg_map (insert_block ms md m) = <[id m := m]> (msg_map ms).
Proof.
  intros Hm. unfold insert_block, insert_msg_without_latest.
  rewrite !bool_decide_false by (rewrite Hm; by intros []).
  destruct (validation_failed md); [done|]. rewrite insert_msg_map.
  by rewrite bool_decide_false by (rewrite Hm; by intros []).
Qed.

Lemma insert_block_latest_ne ms md m s :
  validation_failed md = true ∨ s ≠ sender m →
  latest_msgs (insert_block ms md m) !! s = latest_msgs ms !! s.
Proof.
  unfold insert_block. destruct (validation_failed md).
  - intros _. unfold insert_msg_without_latest. by case_bool_decide.
  - intros [?|?]; [done|]. by apply insert_msg_latest_ne.
Qed.

(** A block that does not count for [s] does not change its latest block. *)
Lemma is_latest_insert_ne c h md s h0 :
  c !! h = None → validation_failed md = true ∨ s ≠ md_sender md →
  is_latest (<[h := md]> c) s h0 ↔ is_latest c s h0.
Proof.
  intros Hh Hne. unfold is_latest. split.
  - intros (md0 & [[<- <-]|[? Hc]]%lookup_insert_Some & Hf & Hs & Hmax); [by destruct Hne; congruence|].
    exists md0. split_and!; [done..|]. intros h' md' Hc'. eapply (Hmax h').
    rewrite lookup_insert_ne; [done|]. intros ->. congruence.
  - intros (md0 & Hc & Hf & Hs & Hmax). exists md0. split_and!; [|done..|].
    + rewrite lookup_insert_ne; [done|]. intros ->. congruence.
    + intros h' md' [[<- <-]|[? Hc']]%lookup_insert_Some; [by destruct Hne; congruence|by eapply Hmax].
Qed.

Lemma is_latest_insert_eq c h md h0 :
  c !! h = None → validation_failed md = false →
  is_latest (<[h := md]> c) (md_sender md) h0 ↔
  (h0 = h ∧ ∀ h' md', c !! h' = Some md' → validation_failed md' = false →
     md_sender md' = md_sender md → md_seq_num md' ≤ md_seq_num md) ∨
  (∃ md0, c !! h0 = Some md0 ∧ is_latest c (md_sender md) h0 ∧ md_seq_num md ≤ md_seq_num md0).
Proof.
  intros Hh Hf. unfold is_latest. split.
  - intros (md0 & [[<- <-]|[? Hc]]%lookup_insert_Some & Hf0 & Hs & Hmax).
    + left. split; [done|]. intros h' md' Hc'. eapply (Hmax h').
      rewrite lookup_insert_ne; [done|]. intros ->. congruence.
    + right. exists md0. split_and!; [done| |].
      * exists md0. split_and!; [done..|]. intros h' md' Hc'. eapply (Hmax h').
        rewrite lookup_insert_ne; [done|]. intros ->. congruence.
      * apply (Hmax h md); [apply lookup_insert_eq|done|done].
  - intros [[-> Hmax]|(md0 & Hc & (md1 & Hc1 & Hf1 & Hs1 & Hmax) & Hle)].
    + exists md. split_and!; [apply lookup_insert_eq|done|done|].
      intros h' md' [[<- <-]|[? Hc']]%lookup_insert_Some; [lia|by eapply Hmax].
    + rewrite Hc in Hc1. injection Hc1 as <-. exists md0. split_and!; [|done..|].
      * rewrite lookup_insert_ne; [done|]. intros ->. congruence.
      * intros h' md' [[<- <-]|[? Hc']]%lookup_insert_Some; [done|by eapply Hmax].
Qed.

Lemma is_latest_dom c s h : is_latest c s h → is_Some (c !! h).
Proof. intros (md & ? & _). eauto. Qed.

Section InsertBlock.
Context (c : gmap BlockHash BlockMetadata) (ms : DagMessageState BlockHash Validator).
Context (md : BlockMetadata) (m : Msg).
Hypothesis Hok : msgs_ok c ms.
Hypothesis Hnew : c !! md_block_hash md = None.
Hypothesis Hfresh : fresh_seq c md.
Hypothesis Hm : message_from_block_metadata md (msg_map ms) = Some m.
Notation c' := (<[md_block_hash md := md]> c).
Notation ms' := (insert_block ms md m).

Lemma new_msg_of : msg_of c' md m.
Proof using Hok Hnew Hm. by apply (msg_of_new c ms md m). Qed.

Lemma new_map : msg_map ms' = <[md_block_hash md := m]> (msg_map ms).
Proof using Hok Hnew Hm.
  rewrite <- (mo_id _ _ _ new_msg_of). apply insert_block_map.
  rewrite (mo_id _ _ _ new_msg_of). by apply (mk_map_None _ _ _ Hok).
Qed.

(** Looking up the message of an old block. *)
Lemma new_map_old h : is_Some (c !! h) → msg_map ms' !! h = msg_map ms !! h.
Proof using Hok Hnew Hm.
  intros [md0 Hc]. rewrite new_map, lookup_insert_ne; [done|]. intros Heq. congruence.
Qed.

Lemma insert_block_latest_same s x :
  validation_failed md = true ∨ s ≠ md_sender md →
  latest_msgs ms' !! s = Some x ↔ is_latest c' s (id x) ∧ msg_map ms' !! id x = Some x.
Proof using Hok Hnew Hm.
  intros Hne. rewrite insert_block_latest_ne by (by rewrite (mo_sender _ _ _ new_msg_of)).
  rewrite (is_latest_insert_ne _ _ _ _ _ Hnew Hne), (mk_latest _ _ Hok).
  split; intros [Hl Hx]; (split; [done|]); revert Hx;
    by rewrite new_map_old by (by eapply is_latest_dom).
Qed.

Lemma insert_block_latest_eq :
  validation_failed md = false →
  latest_msgs ms' !! md_sender md =
  match latest_msgs ms !! md_sender md with
  | Some cur => if sender_seq cur <? md_seq_num md then Some m else Some cur
  | None => Some m
  end.
Proof using Hok Hnew Hm.
  intros Hf. unfold insert_block. rewrite Hf. pose proof new_msg_of as Hmo.
  rewrite <- (mo_sender _ _ _ Hmo), <- (mo_seq _ _ _ Hmo). apply insert_msg_latest_eq.
  rewrite (mo_id _ _ _ Hmo). by apply (mk_map_None _ _ _ Hok).
Qed.

(** The current latest message of the sender, as a block of [c]. *)
Lemma current_latest cur :
  latest_msgs ms !! md_sender md = Some cur →
  ∃ mdc, c !! id cur = Some mdc ∧ md_seq_num mdc = sender_seq cur ∧
    validation_failed mdc = false ∧ md_sender mdc = md_sender md ∧
    msg_map ms !! id cur = Some cur ∧ is_latest c (md_sender md) (id cur) ∧
    ∀ h' md', c !! h' = Some md' → validation_failed md' = false →
      md_sender md' = md_sender md → md_seq_num md' ≤ sender_seq cur.
Proof using Hok.
  intros [Hl Hmap]%(mk_latest _ _ Hok). pose proof Hl as (mdc & Hc & Hf & Hs & Hmax).
  destruct (mk_map_Some _ _ _ _ Hok Hmap) as (md0 & Hc0 & Hmo).
  rewrite Hc in Hc0. injection Hc0 as <-. rewrite (mo_seq _ _ _ Hmo). eauto 10.
Qed.

Lemma insert_block_latest_sender x :
  validation_failed md = false →
  latest_msgs ms' !! md_sender md = Some x ↔
  is_latest c' (md_sender md) (id x) ∧ msg_map ms' !! id x = Some x.
Proof using Hok Hnew Hm Hfresh.
  intros Hf. rewrite insert_block_latest_eq by done.
  rewrite (is_latest_insert_eq _ _ _ _ Hnew Hf). pose proof new_msg_of as Hmo.
  assert (msg_map ms' !! id m = Some m) as Hmm.
  { by rewrite new_map, (mo_id _ _ _ Hmo), lookup_insert_eq. }
  assert (id x = md_block_hash md → msg_map ms' !! id x = Some x → m = x) as Heq.
  { intros E Hx. rewrite (mo_id _ _ _ Hmo), <- E in Hmm. congruence. }
  destruct (latest_msgs ms !! md_sender md) as [cur|] eqn:Hcur.
  - destruct (current_latest cur Hcur) as (mdc & Hc & Hq & Hfc & Hsc & Hmap & Hl & Hmax).
    destruct (Z.ltb_spec (sender_seq cur) (md_seq_num md)) as [Hlt|Hge].
    + split.
      * intros [= <-]. split; [|done]. left. split; [apply (mo_id _ _ _ Hmo)|].
        intros h' md' H1 H2 H3. specialize (Hmax _ _ H1 H2 H3). lia.
      * intros [[[E _]|(md0 & Hc0 & (md1 & Hc1 & Hf1 & Hs1 & _) & Hle)] Hx]; [by f_equal; auto|].
        rewrite Hc0 in Hc1. injection Hc1 as <-. specialize (Hmax _ _ Hc0 Hf1 Hs1). lia.
    + assert (md_seq_num mdc ≠ md_seq_num md) by (by eapply Hfresh). split.
      * intros [= <-]. split; [right; exists mdc; split_and!; [done|done|lia]|].
        by rewrite new_map_old by eauto.
      * intros [[[E Hall]|(md0 & Hc0 & Hl0 & Hle)] Hx].
        -- specialize (Hall _ _ Hc Hfc Hsc). lia.
        -- rewrite new_map_old in Hx by eauto. rewrite <- Hcur. by apply (mk_latest _ _ Hok).
  - pose proof (mk_none _ _ Hok _ Hcur) as Hnone. split.
    + intros [= <-]. split; [|done]. left. split; [apply (mo_id _ _ _ Hmo)|].
      intros h' md' H1 H2 H3. by destruct (Hnone _ _ H1 H2).
    + intros [[[E _]|(md0 & Hc0 & (md1 & Hc1 & Hf1 & Hs1 & _) & Hle)] Hx]; [by f_equal; auto|].
      by destruct (Hnone _ _ Hc1 Hf1).
Qed.
End InsertBlock.

Lemma msgs_ok_insert c ms md m :
  msgs_ok c ms → c !! md_block_hash md = None → fresh_seq c md →
  message_from_block_metadata md (msg_map ms) = Some m →
  msgs_ok (<[md_block_hash md := md]> c) (insert_block ms md m).
Proof.
  intros Hok Hnew Hfresh Hm. destruct (msg_of_new _ _ _ _ Hok Hnew Hm) as [Hmo Hdom].
  pose proof (mk_keyed _ _ Hok) as Hk. pose proof (mk_closed _ _ Hok) as Hc. split.
  - intros h x [[<- <-]|[_ ?]]%lookup_insert_Some; eauto.
  - intros h x p Hx Hp.
    assert (is_Some (c !! p)) as [y Hy].
    { apply lookup_insert_Some in Hx as [[<- <-]|[_ ?]]; eauto. }
    destruct (decide (md_block_hash md = p)) as [->|]; [rewrite lookup_insert_eq; eauto|].
    rewrite lookup_insert_ne by done. eauto.
  - intros h. rewrite (new_map c) by done.
    destruct (decide (md_block_hash md = h)) as [<-|Hne].
    + rewrite !lookup_insert_eq. by constructor.
    + rewrite !lookup_insert_ne by done. pose proof (mk_map _ _ Hok h) as Hh.
      destruct (c !! h) as [mdh|] eqn:Hch; inversion Hh as [? mh Hmh|]; subst; constructor.
      eapply msg_of_insert; eauto. by rewrite (Hk _ _ Hch).
  - intros h x h' x' [[<- <-]|[? Hx]]%lookup_insert_Some [[<- <-]|[? Hx']]%lookup_insert_Some Hs Hq;
      [done|by destruct (Hfresh _ _ Hx')|by destruct (Hfresh _ _ Hx)|by eapply (mk_uniq _ _ Hok)].
  - intros s x. destruct (validation_failed md) eqn:Hf; [by apply insert_block_latest_same; auto|].
    destruct (decide (s = md_sender md)) as [->|Hs].
    + by apply insert_block_latest_sender.
    + apply insert_block_latest_same; auto.
  - intros s Hn h x [[<- <-]|[? Hx]]%lookup_insert_Some Hfx <-.
    + rewrite (insert_block_latest_eq c) in Hn by done. repeat case_match; done.
    + destruct (validation_failed md) eqn:Hf.
      * rewrite insert_block_latest_ne in Hn by auto. by destruct (mk_none _ _ Hok _ Hn _ _ Hx Hfx).
      * destruct (decide (md_sender x = md_sender md)) as [E|Hne].
        -- rewrite E, (insert_block_latest_eq c) in Hn by done. repeat case_match; done.
        -- rewrite insert_block_latest_ne in Hn by (by right; rewrite (mo_sender _ _ _ Hmo)).
           by destruct (mk_none _ _ Hok _ Hn _ _ Hx Hfx).
Qed.

Lemma msgs_ok_empty : msgs_ok ∅ empty_state.
Proof.
  split; intros *; rewrite ?lookup_empty; try done.
  - constructor.
  - split; [done|]. intros [(md & Hmd & _) _]. by rewrite lookup_empty in Hmd.
Qed.

Lemma msg_of_unique c md m m' : msg_of c md m → msg_of c md m' → m = m'.
Proof.
  destruct m, m'. intros [? ? ? ? ? ? ? Hs] [? ? ? ? ? ? ? Hs']. simpl in *.
  f_equal; try congruence. apply set_eq. intros x. by rewrite Hs, Hs'.
Qed.

(** The blocks determine the message state. *)
Lemma msgs_ok_unique c ms ms' : msgs_ok c ms → msgs_ok c ms' → ms = ms'.
Proof.
  intros Hok Hok'. assert (msg_map ms = msg_map ms') as Hmm.
  { apply map_eq. intros h. pose proof (mk_map _ _ Hok h) as H. pose proof (mk_map _ _ Hok' h) as H'.
    destruct (c !! h); inversion H; inversion H'; subst; [|congruence].
    f_equal. by eapply msg_of_unique. }
  apply state_eq; [|done]. apply map_eq. intros s. apply option_eq. intros m.
  by rewrite (mk_latest _ _ Hok), (mk_latest _ _ Hok'), Hmm.
Qed.

(** ** The storage invariant *)

(** The index depends only on the index fields of the records. *)
Lemma index_of_info_ext (s s' : gmap BlockHash BlockMetadata) ds :
  block_metadata_to_info <$> s = block_metadata_to_info <$> s' →
  index_of s ds → index_of s' ds.
Proof.
  intros E [H1 H2 H3].
  assert (∀ x md', s' !! x = Some md' → ∃ md, s !! x = Some md ∧
            block_metadata_to_info md = block_metadata_to_info md') as Hb.
  { intros x md' Hx. pose proof (f_equal (lookup x) E) as Ex. rewrite !lookup_fmap, Hx in Ex.
    destruct (s !! x) as [md|]; [|done]. exists md. split; [done|]. by apply (inj Some) in Ex. }
  assert (∀ x md, s !! x = Some md → ∃ md', s' !! x = Some md' ∧
            block_metadata_to_info md = block_metadata_to_info md') as Hf.
  { intros x md Hx. pose proof (f_equal (lookup x) E) as Ex. rewrite !lookup_fmap, Hx in Ex.
    destruct (s' !! x) as [md'|]; [|done]. exists md'. split; [done|]. by apply (inj Some) in Ex. }
  assert (dom s = dom s') as Ed by (by rewrite <- (dom_fmap_L block_metadata_to_info s), E, dom_fmap_L).
  assert (∀ h, children_of s h = children_of s' h) as Ec.
  { intros h. apply set_eq. intros x. rewrite !elem_of_children_of. unfold block_metadata_to_info in *.
    split; intros (md & Hmd & Hh); [apply Hf in Hmd|apply Hb in Hmd]; destruct Hmd as (md' & ? & ?);
      exists md'; split; congruence. }
  assert (∀ n, at_height s n = at_height s' n) as Eh.
  { intros n. apply set_eq. intros x. rewrite !elem_of_at_height. unfold block_metadata_to_info in *.
    split; intros (md & Hmd & ? & ?); [apply Hf in Hmd|apply Hb in Hmd]; destruct Hmd as (md' & ? & ?);
      exists md'; split_and!; congruence. }
  split; [congruence| |]; intros i; [rewrite <- Ec, <- Ed|rewrite <- Eh]; auto.
Qed.

Lemma meta_store_mark (bms : BlockMetadataStore) md fh :
  meta_store_ok bms → store bms !! md_block_hash md = Some md →
  meta_store_add bms (set_member_of_fringe md fh) =
    (mkMetaStore (<[md_block_hash md := set_member_of_fringe md fh]> (store bms)) (dag_state bms),
     Ok ()).
Proof.
  intros [Hk Hi Hv] Hmd.
  assert (add_block_to_dag_state (block_metadata_to_info (set_member_of_fringe md fh)) (dag_state bms)
          = dag_state bms) as E.
  { eapply index_of_unique.
    - eapply (index_of_add _ _ (set_member_of_fringe md fh)); [done|].
      intros md0. cbn. rewrite Hmd. by intros [= <-].
    - eapply index_of_info_ext; [|done]. rewrite fmap_insert. symmetry. apply insert_id.
      rewrite lookup_fmap. cbn. by rewrite Hmd. }
  unfold meta_store_add. rewrite E, Hv. done.
Qed.

Lemma mark_members_ok (bms : BlockMetadataStore) fh hs :
  meta_store_ok bms → (∀ h, h ∈ hs → is_Some (store bms !! h)) →
  ∃ bms', mark_members bms fh hs = (bms', Ok ()) ∧ meta_store_ok bms' ∧
    erase <$> store bms' = erase <$> store bms ∧ dag_state bms' = dag_state bms.
Proof.
  revert bms. induction hs as [|h hs IH]; intros bms Hok Hd; cbn; [by eauto|].
  destruct (Hd h) as [md Hmd]; [by left|]. pose proof (ms_keyed _ Hok _ _ Hmd) as Hh.
  unfold get_unchecked, meta_store_get. rewrite Hmd. cbn.
  rewrite meta_store_mark by (try rewrite Hh; done).
  destruct (IH (mkMetaStore (<[md_block_hash md := set_member_of_fringe md fh]> (store bms))
                  (dag_state bms))) as (bms' & -> & Hok' & E & Eds); cbn in *.
  - refine (proj1 (meta_store_add_ok bms _ (set_member_of_fringe md fh) Hok _
      (meta_store_mark bms md fh Hok _))); [|by rewrite Hh].
    intros md0. cbn. rewrite Hh, Hmd. by intros [= <-].
  - intros x Hx. destruct (decide (md_block_hash md = x)) as [<-|];
      [rewrite lookup_insert_eq; eauto|]. rewrite lookup_insert_ne by done. apply Hd. by right.
  - exists bms'. split_and!; [done|done| |done]. rewrite E, fmap_insert, insert_id; [done|].
    rewrite lookup_fmap, Hh, Hmd. done.
Qed.

Lemma resolve_list_spec mm (e : DagError) (hs : list BlockHash) :
  match try_map (λ h, ok_or (mm !! h) e) hs with
  | Ok l => (∀ h, h ∈ hs → is_Some (mm !! h)) ∧
            ∀ m, m ∈ l ↔ ∃ h, h ∈ hs ∧ mm !! h = Some m
  | Err e' => e' = e ∧ ∃ h, h ∈ hs ∧ mm !! h = None
  end.
Proof.
  induction hs as [|h l IH]; cbn.
  - split; [by intros ? ?%elem_of_nil|]. intros m. split; [by intros ?%elem_of_nil|].
    by intros (? & ?%elem_of_nil & _).
  - destruct (mm !! h) as [mh|] eqn:Hh; cbn; [|by split; [|exists h; split; [left|]]].
    destruct (try_map _ l) as [ms|e'].
    + destruct IH as [Hd IH]. split; [intros x [->|?]%elem_of_cons; eauto|]. intros m.
      rewrite elem_of_cons, IH. setoid_rewrite elem_of_cons. split.
      * intros [->|(x & ? & ?)]; eauto.
      * intros (x & [->|?] & ?); [left; congruence|eauto].
    + destruct IH as (-> & x & ? & ?). split; [done|]. exists x. by split; [right|].
Qed.

Lemma resolve_all_spec mm (e : DagError) (hs : gset BlockHash) :
  match resolve_all mm e hs with
  | Ok l => (∀ h, h ∈ hs → is_Some (mm !! h)) ∧
            ∀ m, m ∈ l ↔ ∃ h, h ∈ hs ∧ mm !! h = Some m
  | Err e' => e' = e ∧ ∃ h, h ∈ hs ∧ mm !! h = None
  end.
Proof.
  pose proof (resolve_list_spec mm e (set_iter hs)) as H. unfold resolve_all.
  destruct (try_map _ _); by setoid_rewrite elem_of_set_iter in H.
Qed.

Lemma compute_fringe_diff_spec mm md :
  match compute_fringe_diff mm md with
  | Ok diff =>
      (∀ p, p ∈ md_justifications md → is_Some (mm !! p)) ∧
      (∀ f, f ∈ md_fringe md → is_Some (mm !! f)) ∧
      (∀ x, x ∈ diff → ∃ f mf, f ∈ md_fringe md ∧ mm !! f = Some mf ∧ x ∈ seen mf)
  | Err e =>
      e ≠ EquivocationDetected ∧
      ((∃ p, p ∈ md_justifications md ∧ mm !! p = None) ∨
       (∃ f, f ∈ md_fringe md ∧ mm !! f = None))
  end.
Proof.
  unfold compute_fringe_diff.
  pose proof (resolve_all_spec mm JustificationNotPresent (md_justifications md)) as Hj.
  destruct (resolve_all _ _ (md_justifications md)) as [js|e]; [|by destruct Hj as [-> ?]; auto].
  cbn zeta. pose proof (resolve_all_spec mm FringeBlockNotPresent (md_fringe md)) as Hf.
  destruct (resolve_all _ _ (md_fringe md)) as [fm|e]; [|by destruct Hf as [-> ?]; auto].
  destruct Hj as [Hj _], Hf as [Hfd Hf]. split_and!; [done..|].
  intros x [Hx _]%elem_of_difference.
  apply (foldl_accum (λ acc : gset BlockHash, x ∈ acc) (λ m : Msg, x ∈ seen m)) in Hx;
    [|intros; apply elem_of_union].
  destruct Hx as [?|(m & Hm & ?)]; [set_solver|]. apply Hf in Hm as (f & ? & ?). eauto.
Qed.

Section Invariant.
Context (blake2b256 : bytes → bytes).
Notation fringe_hash_of := (fringe_hash_of blake2b256).
Implicit Types (fs : gmap (gset BlockHash) FringeData) (fds : gmap bytes FringeData).

(** The fringe states of the view are the persisted fringe data of the
    fringes of the blocks. *)
Record fringes_ok c fs fds : Prop := {
  fk_stored : ∀ F fd, fs !! F = Some fd →
    fds !! fringe_hash_of F = Some fd ∧ ∃ h md, c !! h = Some md ∧ md_fringe md = F;
  fk_all : ∀ h md, c !! h = Some md → is_Some (fs !! md_fringe md);
}.

(** No two fringes of the blocks, nor the one of [md], share their hash. *)
Definition no_fringe_collision c md : Prop :=
  ∀ h md', c !! h = Some md' →
    fringe_hash_of (md_fringe md') = fringe_hash_of (md_fringe md) → md_fringe md' = md_fringe md.

Record dag_ok (st : Storage) : Prop := {
  do_meta : meta_store_ok (block_metadata_store st);
  do_set : r_dag_set (representation st) = dag_set (dag_state (block_metadata_store st));
  do_child : r_child_map (representation st) = child_map (dag_state (block_metadata_store st));
  do_height : r_height_map (representation st) = height_map (dag_state (block_metadata_store st));
  do_msgs : msgs_ok (core st) (dag_message_state (representation st));
  do_fringes : fringes_ok (core st) (fringe_states (representation st)) (fringe_data_store st);
}.

Lemma fringes_ok_insert c fs fds md fd :
  fringes_ok c fs fds → c !! md_block_hash md = None → no_fringe_collision c md →
  fringe_hash fd = fringe_hash_of (md_fringe md) →
  fringes_ok (<[md_block_hash md := md]> c) (<[md_fringe md := fd]> fs)
    (<[fringe_hash fd := fd]> fds).
Proof.
  intros [Hs Ha] Hnew Hnc Hfd.
  split.
  - intros F fd'. destruct (decide (md_fringe md = F)) as [<-|Hne].
    + rewrite lookup_insert_eq. intros [= <-]. rewrite Hfd, lookup_insert_eq. split; [done|].
      exists (md_block_hash md), md. by rewrite lookup_insert_eq.
    + rewrite lookup_insert_ne by done. intros HF. destruct (Hs _ _ HF) as [Hd (h & md' & Hc & E)].
      split.
      * rewrite lookup_insert_ne; [done|]. rewrite Hfd. intros Hh. destruct Hne. rewrite <- E.
        symmetry. eapply (Hnc _ _ Hc). by rewrite E.
      * exists h, md'. rewrite lookup_insert_ne; [done|]. intros <-. congruence.
  - intros h md' [[<- <-]|[? Hc]]%lookup_insert_Some.
    + rewrite lookup_insert_eq. eauto.
    + destruct (decide (md_fringe md = md_fringe md')) as [->|]; [rewrite lookup_insert_eq; eauto|].
      rewrite lookup_insert_ne by done. eauto.
Qed.

Lemma insert_commit_ok (st : Storage) c md m fd :
  meta_store_ok (block_metadata_store st) →
  core st = <[md_block_hash md := erase md]> c →
  msgs_ok c (dag_message_state (representation st)) →
  fringes_ok c (fringe_states (representation st)) (fringe_data_store st) →
  c !! md_block_hash md = None → fresh_seq c md → no_fringe_collision c md →
  message_from_block_metadata md (msg_map (dag_message_state (representation st))) = Some m →
  fringe_hash fd = fringe_hash_of (md_fringe md) →
  (∀ h, h ∈ fringe_diff fd → is_Some (core st !! h)) →
  ∃ st', insert_commit st md fd = (st', Ok ()) ∧ dag_ok st' ∧ core st' = core st.
Proof.
  intros Hmeta Hcore Hmsgs Hfr Hnew Hfresh Hnc Hm Hfd Hdiff. unfold insert_commit. cbn.
  destruct (mark_members_ok (block_metadata_store st) (fringe_hash fd) (set_iter (fringe_diff fd)))
    as (bms & -> & Hbms & Hcb & Hds); [done| |].
  { intros h Hh%elem_of_set_iter. specialize (Hdiff h Hh). unfold core in Hdiff.
    rewrite lookup_fmap in Hdiff. by apply fmap_is_Some in Hdiff. }
  rewrite Hm. eexists. split; [reflexivity|].
  assert (core st = erase <$> store bms) as Hcore' by (by rewrite Hcb).
  assert (msgs_ok (<[md_block_hash md := erase md]> c)
            (insert_block (dag_message_state (representation st)) (erase md) m)) as Hmsgs'
    by (by apply (msgs_ok_insert c _ (erase md))).
  destruct (msg_of_new c _ (erase md) m Hmsgs Hnew Hm) as [Hmo _].
  split; [|by unfold core; cbn].
  split; cbn; try done.
  - unfold core. cbn. rewrite <- Hcore', Hcore. exact Hmsgs'.
  - unfold core. cbn. rewrite <- Hcore', Hcore.
    rewrite (mo_fringe _ _ _ Hmo). by apply (fringes_ok_insert c _ _ (erase md)).
Qed.

Lemma index_deploys_fields (st : Storage) block :
  representation (index_deploys st block) = representation st ∧
  block_metadata_store (index_deploys st block) = block_metadata_store st ∧
  fringe_data_store (index_deploys st block) = fringe_data_store st.
Proof. unfold index_deploys. by destruct (_ <$> _). Qed.

Lemma core_lookup (st : Storage) h :
  is_Some (core st !! h) ↔ is_Some (store (block_metadata_store st) !! h).
Proof. unfold core. by rewrite lookup_fmap, fmap_is_Some. Qed.

Lemma contains_core (st : Storage) h :
  dag_ok st → meta_store_contains (block_metadata_store st) h = true ↔ is_Some (core st !! h).
Proof.
  intros Hok. unfold meta_store_contains.
  rewrite bool_decide_eq_true, (ix_set _ _ (ms_index _ (do_meta _ Hok))), elem_of_dom.
  by rewrite core_lookup.
Qed.

(** Block [md] can join the DAG: its sender has no other block with its
    sequence number, the heights stay without holes, and its justifications
    and its fringe are in the DAG. *)
Record insertable (st : Storage) md : Prop := {
  in_fresh : fresh_seq (core st) md;
  in_height : validate_dag_state (add_block_to_dag_state (block_metadata_to_info md)
                (dag_state (block_metadata_store st))) = Ok ();
  in_justs : ∀ p, p ∈ md_justifications md → is_Some (core st !! p);
  in_fringe : ∀ f, f ∈ md_fringe md → is_Some (core st !! f);
}.

Lemma dag_dom (st : Storage) h :
  dag_ok st →
  is_Some (msg_map (dag_message_state (representation st)) !! h) ↔ is_Some (core st !! h).
Proof.
  intros Hok. rewrite <- !not_eq_None_Some. by rewrite <- (mk_map_None _ _ _ (do_msgs _ Hok)).
Qed.

(** What a message sees is stored. *)
Lemma dag_seen_dom (st : Storage) h m x :
  dag_ok st → msg_map (dag_message_state (representation st)) !! h = Some m → x ∈ seen m →
  is_Some (core st !! x).
Proof.
  intros Hok Hm Hx. pose proof (do_msgs _ Hok) as Hmsgs.
  destruct (mk_map_Some _ _ _ _ Hmsgs Hm) as (md & Hc & Hmo).
  apply (mo_seen _ _ _ Hmo), rtc_just_dom in Hx; [done|apply (mk_closed _ _ Hmsgs)|].
  rewrite (mk_keyed _ _ Hmsgs _ _ Hc). eauto.
Qed.

Lemma message_from_resolved (st : Storage) md :
  dag_ok st → (∀ p, p ∈ md_justifications md → is_Some (core st !! p)) →
  is_Some (message_from_block_metadata md (msg_map (dag_message_state (representation st)))).
Proof.
  intros Hok Hj. set (mm := msg_map _).
  pose proof (message_from_block_metadata_spec md mm) as Hs.
  destruct (message_from_block_metadata md mm); [by eauto|]. destruct Hs as (p & Hp & Hn).
  apply Hj, (dag_dom _ _ Hok) in Hp as [? ?]. unfold mm in Hn. congruence.
Qed.

(** The insertion of a new block whose metadata has been recorded. *)
Lemma dag_insert_recorded (st st1 : Storage) md bms fd :
  dag_ok st → no_fringe_collision (core st) md → core st !! md_block_hash md = None →
  fresh_seq (core st) md → meta_store_add (block_metadata_store st) md = (bms, Ok ()) →
  representation st1 = representation st → block_metadata_store st1 = bms →
  fringe_data_store st1 = fringe_data_store st →
  compute_fringe_diff (msg_map (dag_message_state (representation st))) md = Ok (fringe_diff fd) →
  fringe_hash fd = fringe_hash_of (md_fringe md) →
  ∃ st', insert_commit st1 md fd = (st', Ok ()) ∧ dag_ok st' ∧
    core st' = <[md_block_hash md := erase md]> (core st).
Proof.
  intros Hok Hnc Hnew Hfresh Hadd Er Eb Ef Hd Hfd.
  assert (refreshes (store (block_metadata_store st)) md) as Href.
  { intros md0 Hmd0. assert (is_Some (core st !! md_block_hash md)) as [? ?] by
      (rewrite core_lookup; eauto). congruence. }
  destruct (meta_store_add_ok _ _ _ (do_meta _ Hok) Href Hadd) as [Hbms Hstore].
  assert (core st1 = <[md_block_hash md := erase md]> (core st)) as Hcore1
    by (unfold core; by rewrite Eb, Hstore, fmap_insert).
  pose proof (compute_fringe_diff_spec (msg_map (dag_message_state (representation st))) md) as Hs.
  rewrite Hd in Hs. destruct Hs as (Hj & _ & Hseen). setoid_rewrite (dag_dom st _ Hok) in Hj.
  destruct (message_from_resolved st md Hok Hj) as [m Hm]. rewrite <- Hcore1.
  apply (insert_commit_ok st1 (core st) md m fd); rewrite ?Er, ?Eb, ?Ef; try done.
  - apply (do_msgs _ Hok).
  - apply (do_fringes _ Hok).
  - intros h (f & mf & _ & Hmf & Hx)%Hseen. rewrite Hcore1, lookup_insert.
    case_decide; [by eauto|]. by eapply dag_seen_dom.
Qed.

Lemma dag_insert_cases (st : Storage) md block :
  dag_ok st → no_fringe_collision (core st) md → core st !! md_block_hash md = None →
  (insertable st md →
     ∃ st', dag_insert blake2b256 st md block = (st', Ok ()) ∧ dag_ok st' ∧
       core st' = <[md_block_hash md := erase md]> (core st)) ∧
  (¬ insertable st md → ∃ st' e, dag_insert blake2b256 st md block = (st', Err e) ∧
     (e = EquivocationDetected ↔ ¬ fresh_seq (core st) md) ∧
     (e = EquivocationDetected → st' = st)).
Proof.
  intros Hok Hnc Hnew. unfold dag_insert.
  replace (meta_store_contains _ _) with false.
  2:{ symmetry. apply not_true_is_false. rewrite (contains_core _ _ Hok), Hnew. by intros []. }
  pose proof (equivocating_spec _ _ md (do_msgs _ Hok)) as Heq.
  destruct (equivocating _ _) eqn:Ee.
  { assert (¬ fresh_seq (core st) md) as Hnf by (by rewrite <- Heq).
    split; [intros []; done|]. intros _. by exists st, EquivocationDetected. }
  assert (fresh_seq (core st) md) as Hfresh by (by apply Heq).
  assert ((meta_store_add (block_metadata_store st) md).2 = validate_dag_state
    (add_block_to_dag_state (block_metadata_to_info md) (dag_state (block_metadata_store st)))) as Hv.
  { unfold meta_store_add. cbn zeta. by destruct (validate_dag_state _) as [[]|]. }
  destruct (meta_store_add _ _) as [bms [[]|e]] eqn:Hadd; cbn in Hv.
  2:{ split; [intros []; congruence|]. intros _. do 2 eexists. split; [reflexivity|]. by split. }
  destruct (index_deploys_fields (set_metadata_store st bms) block) as (Er & Eb & Ef).
  set (st1 := index_deploys _ block) in *. cbn in Er, Eb, Ef. rewrite Er.
  pose proof (compute_fringe_diff_spec (msg_map (dag_message_state (representation st))) md) as Hdiff.
  destruct (compute_fringe_diff _ md) as [diff|e] eqn:Hd.
  - destruct Hdiff as (Hj & Hf & _).
    setoid_rewrite (dag_dom st _ Hok) in Hj. setoid_rewrite (dag_dom st _ Hok) in Hf.
    split; [|intros []; by split]. intros _. by eapply dag_insert_recorded.
  - destruct Hdiff as [Hne Hmiss]. split; [|by intros _; exists st1, e; split; [|by split]].
    intros [_ _ Hj Hf]. exfalso. destruct Hmiss as [(p & Hp & Hn)|(p & Hp & Hn)];
      [apply Hj in Hp|apply Hf in Hp]; apply (dag_dom _ _ Hok) in Hp; rewrite Hn in Hp; by destruct Hp.
Qed.

(** Being insertable is decided by what the insertion checks. *)
Lemma insertable_dec (st : Storage) md : dag_ok st → insertable st md ∨ ¬ insertable st md.
Proof.
  intros Hok. pose proof (equivocating_spec _ _ md (do_msgs _ Hok)) as Heq.
  destruct (equivocating _ _); [right; intros [Hf _ _ _]; by apply Heq in Hf|].
  destruct (validate_dag_state (add_block_to_dag_state (block_metadata_to_info md)
    (dag_state (block_metadata_store st)))) as [[]|] eqn:Hv; [|right; intros []; congruence].
  destruct (decide (set_Forall (λ p, is_Some (core st !! p)) (md_justifications md)));
    [|right; by intros []].
  destruct (decide (set_Forall (λ p, is_Some (core st !! p)) (md_fringe md)));
    [|right; by intros []].
  left. split; [by apply Heq|done..].
Qed.

Lemma dag_insert_run (st st' : Storage) md block :
  dag_ok st → no_fringe_collision (core st) md → core st !! md_block_hash md = None →
  dag_insert blake2b256 st md block = (st', Ok ()) →
  dag_ok st' ∧ core st' = <[md_block_hash md := erase md]> (core st).
Proof.
  intros Hok Hnc Hnew Hrun. destruct (dag_insert_cases st md block Hok Hnc Hnew) as [Hi Hni].
  destruct (insertable_dec st md Hok) as [H|H].
  - destruct (Hi H) as (st1 & E & ? & ?). rewrite E in Hrun. by injection Hrun as <-.
  - destruct (Hni H) as (st1 & e & E & _). congruence.
Qed.

Definition empty_storage : Storage :=
  mkStorage (mkRepr ∅ ∅ ∅ empty_state ∅) (mkMetaStore ∅ empty_dag_state) ∅ ∅ ∅ ∅.

Lemma dag_ok_empty : dag_ok empty_storage.
Proof.
  split; [|done..| |].
  - split; [done|apply index_of_empty|reflexivity].
  - unfold core. cbn. rewrite fmap_empty. apply msgs_ok_empty.
  - split; intros *; unfold core; cbn; rewrite ?fmap_empty, ?lookup_empty; done.
Qed.

(** ** Restart *)

(** The height of a stored block. *)
Definition num_of c (h : BlockHash) : Z := from_option md_block_num 0 (c !! h).

(** A set of blocks of one height is sorted by height. *)
Lemma StronglySorted_const {A} (f : A → Z) (l : list A) n :
  (∀ a, a ∈ l → f a = n) → StronglySorted (λ a b, f a ≤ f b) l.
Proof.
  induction l as [|a l IH]; intros Hl; constructor; [apply IH; intros; apply Hl; by right|].
  apply Forall_forall. intros b Hb. rewrite (Hl a), (Hl b); [done|by right|by left].
Qed.

Lemma flatten_sorted c (l : list (Z * gset BlockHash)) :
  StronglySorted key_le l → (∀ n H h, (n, H) ∈ l → h ∈ H → num_of c h = n) →
  StronglySorted (λ a b, num_of c a ≤ num_of c b) (l.*2 ≫= set_iter).
Proof.
  induction 1 as [|[n H] l Hs IH Hf]; intros Hl; cbn; [constructor|].
  apply StronglySorted_app. split_and!.
  - intros a b Ha%elem_of_set_iter (H' & Hb%elem_of_set_iter & HH')%list_elem_of_bind.
    apply list_elem_of_fmap in HH' as ([n' H''] & -> & Hin).
    rewrite (Hl n H a), (Hl n' H'' b); [|by right|done|by left|done].
    rewrite Forall_forall in Hf. by apply (Hf _ Hin).
  - apply (StronglySorted_const _ _ n). intros a Ha%elem_of_set_iter. apply (Hl n H); [by left|done].
  - apply IH. intros n' H' h Hin. apply Hl. by right.
Qed.

(** The order in which [storage_create] visits the blocks. *)
Definition visit_order (st : Storage) : list BlockHash :=
  map_values (height_map (dag_state (block_metadata_store st))) ≫= set_iter.

Lemma elem_of_visit_order (st : Storage) h :
  dag_ok st →
  h ∈ visit_order st ↔ ∃ md, core st !! h = Some md ∧ validation_failed md = false.
Proof.
  intros Hok. pose proof (ms_index _ (do_meta _ Hok)) as Hi.
  unfold visit_order. rewrite list_elem_of_bind. setoid_rewrite elem_of_set_iter.
  setoid_rewrite elem_of_map_values. split.
  - intros (H & Hh & n & Hn). rewrite (ix_height _ _ Hi) in Hn. case_bool_decide; [done|].
    injection Hn as <-. apply elem_of_at_height in Hh as (md & Hmd & Hf & _).
    exists (erase md). unfold core. by rewrite lookup_fmap, Hmd.
  - intros (md & Hmd & Hf). unfold core in Hmd. rewrite lookup_fmap in Hmd.
    apply fmap_Some in Hmd as (md0 & Hmd0 & ->).
    assert (h ∈ at_height (store (block_metadata_store st)) (md_block_num md0)) as Hin
      by (apply elem_of_at_height; eauto).
    exists (at_height (store (block_metadata_store st)) (md_block_num md0)). split; [done|].
    exists (md_block_num md0). rewrite (ix_height _ _ Hi), bool_decide_false; [done|]. set_solver.
Qed.

Lemma visit_order_sorted (st : Storage) :
  dag_ok st → StronglySorted (λ a b, num_of (core st) a ≤ num_of (core st) b) (visit_order st).
Proof.
  intros Hok. apply flatten_sorted; [apply map_iter_sorted|].
  intros n H h Hn%elem_of_map_iter Hh. rewrite (ix_height _ _ (ms_index _ (do_meta _ Hok))) in Hn.
  case_bool_decide; [done|]. injection Hn as <-. apply elem_of_at_height in Hh as (md & Hmd & _ & <-).
  unfold num_of, core. by rewrite lookup_fmap, Hmd.
Qed.

(** A lower block is visited before a higher one. *)
Lemma visited_before (st : Storage) l1 h l2 p :
  dag_ok st → visit_order st = l1 ++ h :: l2 → p ∈ visit_order st →
  num_of (core st) p < num_of (core st) h → p ∈ l1.
Proof.
  intros Hok E Hp Hlt. pose proof (visit_order_sorted st Hok) as Hs. rewrite E in Hs, Hp.
  apply elem_of_app in Hp as [?|Hp]; [done|]. exfalso.
  apply StronglySorted_app in Hs as (_ & _ & Hs). apply StronglySorted_inv in Hs as [_ Hf].
  rewrite Forall_forall in Hf. apply elem_of_cons in Hp as [->|Hp]; [lia|].
  specialize (Hf p Hp). cbn in Hf. lia.
Qed.

(** Valid blocks are higher than their justifications, and all justify valid
    blocks. *)
Record ranked c : Prop := {
  rk_valid : ∀ h md, c !! h = Some md → validation_failed md = false;
  rk_height : ∀ h md p mdp, c !! h = Some md → p ∈ md_justifications md → c !! p = Some mdp →
    md_block_num mdp < md_block_num md;
}.

Section Restart.
Context (st : Storage) (Hok : dag_ok st) (Hr : ranked (core st)).

Definition visited_blocks (dn : list BlockHash) : gmap BlockHash BlockMetadata :=
  filter (λ '(h, _), h ∈ dn) (core st).

Lemma visited_blocks_Some dn h md :
  visited_blocks dn !! h = Some md ↔ core st !! h = Some md ∧ h ∈ dn.
Proof. unfold visited_blocks. by rewrite map_lookup_filter_Some. Qed.

Lemma visited_blocks_snoc dn h md :
  core st !! h = Some md → visited_blocks (dn ++ [h]) = <[h := md]> (visited_blocks dn).
Proof.
  intros Hmd. apply map_eq. intros x. apply option_eq. intros y.
  rewrite visited_blocks_Some, lookup_insert_Some, visited_blocks_Some, elem_of_app,
    list_elem_of_singleton.
  destruct (decide (h = x)) as [->|]; naive_solver.
Qed.

(** The message of the next block can be built. *)
Lemma visited_message dn h rest ms md0 :
  visit_order st = dn ++ h :: rest → msgs_ok (visited_blocks dn) ms →
  core st !! h = Some (erase md0) →
  is_Some (message_from_block_metadata md0 (msg_map ms)).
Proof using Hok Hr.
  intros E Hms Hmd. pose proof (do_msgs _ Hok) as Hall.
  pose proof (message_from_block_metadata_spec md0 (msg_map ms)) as Hspec.
  destruct (message_from_block_metadata md0 (msg_map ms)); [by eauto|].
  destruct Hspec as (p & Hp & Hn). exfalso.
  destruct (mk_closed _ _ Hall _ _ p Hmd Hp) as [mdp Hmdp].
  destruct (mk_map_block _ _ p mdp Hms) as (? & ? & _); [|congruence].
  apply visited_blocks_Some. split; [done|]. eapply visited_before; [done|done| |].
  - apply (elem_of_visit_order _ _ Hok). exists mdp. split; [done|]. by eapply rk_valid.
  - unfold num_of. rewrite Hmd, Hmdp. cbn. by eapply (rk_height _ Hr _ _ _ _ Hmd).
Qed.

(** [F] is the fringe of one of the blocks visited. *)
Definition visited_fringe (dn : list BlockHash) (F : gset BlockHash) : Prop :=
  ∃ h md, visited_blocks dn !! h = Some md ∧ md_fringe md = F.

Lemma visited_fringe_snoc (dn : list BlockHash) h md F :
  core st !! h = Some md →
  visited_fringe (dn ++ [h]) F ↔ md_fringe md = F ∨ visited_fringe dn F.
Proof.
  intros Hmd. unfold visited_fringe. setoid_rewrite visited_blocks_Some.
  setoid_rewrite elem_of_app. setoid_rewrite list_elem_of_singleton. split.
  - intros (h' & md' & [Hc [?| ->]] & ?); [right; eauto 10|left; congruence].
  - intros [?|(h' & md' & [? ?] & ?)]; [exists h, md|exists h', md']; auto.
Qed.

(** The fringe data of the next block is loaded once. *)
Lemma visited_fringes (dn : list BlockHash) h md fs :
  (∀ F fd, fs !! F = Some fd ↔
     visited_fringe dn F ∧ fringe_data_store st !! fringe_hash_of F = Some fd) →
  core st !! h = Some md →
  ∀ F fd,
    (if bool_decide (is_Some (fs !! md_fringe md)) then fs
     else match fringe_data_store st !! fringe_hash_of (md_fringe md) with
          | Some fd => <[md_fringe md := fd]> fs
          | None => fs
          end) !! F = Some fd ↔
    visited_fringe (dn ++ [h]) F ∧ fringe_data_store st !! fringe_hash_of F = Some fd.
Proof.
  intros Hfs Hmd F fd. rewrite (visited_fringe_snoc _ _ _ _ Hmd).
  destruct (decide (md_fringe md = F)) as [<-|Hne].
  - case_bool_decide as Hin.
    + destruct Hin as [fd0 H0]. pose proof H0 as [? _]%Hfs. rewrite Hfs. naive_solver.
    + destruct (fringe_data_store st !! _) as [fd1|] eqn:H1.
      * rewrite lookup_insert_eq. naive_solver.
      * rewrite Hfs, H1. naive_solver.
  - replace ((if bool_decide _ then fs else _) !! F) with (fs !! F).
    2:{ case_bool_decide; [done|]. case_match; [|done]. by rewrite lookup_insert_ne. }
    rewrite Hfs. naive_solver.
Qed.

(** The state of the loop after visiting [dn]. *)
Definition visited (dn : list BlockHash)
    (acc : Result (DagMessageState BlockHash Validator * gmap (gset BlockHash) FringeData) DagError) :
    Prop :=
  ∃ ms fs, acc = Ok (ms, fs) ∧ msgs_ok (visited_blocks dn) ms ∧
    ∀ F fd, fs !! F = Some fd ↔
      visited_fringe dn F ∧ fringe_data_store st !! fringe_hash_of F = Some fd.

Lemma visited_step dn h rest acc :
  visit_order st = dn ++ h :: rest → visited dn acc →
  visited (dn ++ [h]) (create_step blake2b256 (block_metadata_store st) (fringe_data_store st) acc h).
Proof using Hok Hr.
  intros E (ms & fs & -> & Hms & Hfs). pose proof (do_msgs _ Hok) as Hall.
  assert (h ∈ visit_order st) as (md & Hmd & _)%(elem_of_visit_order _ _ Hok)
    by (rewrite E; set_solver).
  assert (∃ md0, store (block_metadata_store st) !! h = Some md0 ∧ erase md0 = md) as (md0 & Hs & <-).
  { unfold core in Hmd. rewrite lookup_fmap in Hmd. apply fmap_Some in Hmd as (? & ? & ->). eauto. }
  unfold create_step. cbn match. case_bool_decide as Hin.
  - rewrite <- not_eq_None_Some, <- (mk_map_None _ _ _ Hms), not_eq_None_Some in Hin.
    destruct Hin as [y Hy]. pose proof Hy as [Hc _]%visited_blocks_Some. exists ms, fs.
    unfold visited_fringe. rewrite (visited_blocks_snoc _ _ y), insert_id by done. done.
  - assert (visited_blocks dn !! h = None) as Hnew
      by (apply (mk_map_None _ _ _ Hms), eq_None_not_Some; done).
    unfold get_unchecked, meta_store_get. rewrite Hs. cbn [ok_or].
    destruct (visited_message dn h rest ms md0 E Hms Hmd) as [m Hm]. rewrite Hm. cbn [ok_or].
    pose proof (mk_keyed _ _ Hall _ _ Hmd) as Hh. cbn in Hh. subst h.
    destruct (msg_of_new _ _ (erase md0) m Hms Hnew Hm) as [Hmo _].
    rewrite (mo_fringe _ _ _ Hmo). do 2 eexists. split; [reflexivity|].
    split; [|by apply (visited_fringes dn _ (erase md0))].
    rewrite (visited_blocks_snoc _ _ _ Hmd).
    pose proof (msgs_ok_insert _ _ (erase md0) m Hms Hnew) as Hins.
    unfold insert_block in Hins. rewrite (rk_valid _ Hr _ _ Hmd) in Hins. apply Hins; [|done].
    intros h' md' Hv Hsd Hq. pose proof Hv as [Hc' _]%visited_blocks_Some.
    rewrite (mk_uniq _ _ Hall _ _ _ _ Hc' Hmd Hsd Hq) in Hv. congruence.
Qed.

Lemma visited_all dn rest acc :
  visit_order st = dn ++ rest → visited dn acc →
  visited (visit_order st)
    (foldl (create_step blake2b256 (block_metadata_store st) (fringe_data_store st)) acc rest).
Proof using Hok Hr.
  revert dn acc. induction rest as [|h rest IH]; intros dn acc E Hv; cbn.
  - by rewrite E, app_nil_r.
  - apply (IH (dn ++ [h])); [by rewrite <- app_assoc|]. by eapply visited_step.
Qed.

Lemma visited_nil : visited [] (Ok (empty_state, ∅)).
Proof.
  assert (visited_blocks [] = ∅) as E.
  { apply map_empty. intros x. apply eq_None_not_Some. intros [y Hy%visited_blocks_Some].
    destruct Hy as [_ ?%elem_of_nil]. done. }
  exists empty_state, ∅. split; [done|]. unfold visited_fringe. rewrite E.
  split; [apply msgs_ok_empty|]. intros F fd. rewrite lookup_empty. split; [done|].
  intros [(? & ? & ? & _) _]. done.
Qed.

Lemma visited_blocks_all : visited_blocks (visit_order st) = core st.
Proof using Hok Hr.
  apply map_eq. intros h. apply option_eq. intros md. rewrite visited_blocks_Some.
  split; [by intros [? _]|]. intros Hmd. split; [done|].
  apply (elem_of_visit_order _ _ Hok). exists md. split; [done|]. by eapply rk_valid.
Qed.

(** The start rebuilds the view that the storage had. *)
Lemma create_same :
  storage_create blake2b256 (block_metadata_store st) (fringe_data_store st) (deploy_index st)
    (deploy_store st) =
  Ok (mkStorage (representation st) (block_metadata_store st) (fringe_data_store st)
        (deploy_index st) (deploy_store st) ∅).
Proof using Hok Hr.
  unfold storage_create. cbn zeta.
  destruct (visited_all [] (visit_order st) _ eq_refl visited_nil) as (ms & fs & E & Hms & Hfs).
  unfold visit_order in E at 1. rewrite E. rewrite visited_blocks_all in Hms.
  rewrite (msgs_ok_unique _ _ _ Hms (do_msgs _ Hok)).
  assert (fs = fringe_states (representation st)) as ->.
  { apply map_eq. intros F. apply option_eq. intros fd. rewrite Hfs. unfold visited_fringe.
    rewrite visited_blocks_all. destruct (do_fringes _ Hok) as [Hst Ha]. split.
    - intros [(h & md & Hmd & <-) Hfd]. destruct (Ha _ _ Hmd) as [fd' Hfd'].
      destruct (Hst _ _ Hfd') as [? _]. congruence.
    - intros HF. destruct (Hst _ _ HF). done. }
  destruct (representation st) eqn:Er. rewrite <- (do_set _ Hok), <- (do_child _ Hok),
    <- (do_height _ Hok), Er. done.
Qed.
End Restart.

(** *** Starting on a DAG with failed blocks *)

(** A block that validation accepted has a justification that failed. *)
Definition failed_justification (st : Storage) : Prop :=
  ∃ h md p mdp, core st !! h = Some md ∧ validation_failed md = false ∧
    p ∈ md_justifications md ∧ core st !! p = Some mdp ∧ validation_failed mdp = true.

(** Blocks are above their justifications. *)
Definition above_justifications (st : Storage) : Prop :=
  ∀ h md p mdp, core st !! h = Some md → p ∈ md_justifications md → core st !! p = Some mdp →
    md_block_num mdp < md_block_num md.

Section Start.
Context (st : Storage) (Hok : dag_ok st).
Notation step := (create_step blake2b256 (block_metadata_store st) (fringe_data_store st)).

(** One visited block: it is in the map already, its message is built from
    those of its justifications, or one of them is missing. *)
Lemma create_step_cases ms fs h :
  h ∈ visit_order st → ∃ md, core st !! h = Some md ∧ validation_failed md = false ∧
  (is_Some (msg_map ms !! h) ∧ step (Ok (ms, fs)) h = Ok (ms, fs) ∨
   msg_map ms !! h = None ∧
   ((∃ p, p ∈ md_justifications md ∧ msg_map ms !! p = None ∧
      step (Ok (ms, fs)) h = Err JustificationNotPresent) ∨
    (∀ p, p ∈ md_justifications md → is_Some (msg_map ms !! p)) ∧
    ∃ ms' fs', step (Ok (ms, fs)) h = Ok (ms', fs') ∧
      ∀ x, is_Some (msg_map ms' !! x) ↔ x = h ∨ is_Some (msg_map ms !! x))).
Proof using Hok.
  intros (md & Hmd & Hf)%(elem_of_visit_order _ _ Hok). exists md. split; [done|]. split; [done|].
  assert (∃ md0, store (block_metadata_store st) !! h = Some md0 ∧ erase md0 = md) as (md0 & Hs & <-).
  { unfold core in Hmd. rewrite lookup_fmap in Hmd. apply fmap_Some in Hmd as (? & ? & ->). eauto. }
  unfold create_step. cbn match. case_bool_decide as Hin; [by left|]. right.
  split; [by apply eq_None_not_Some|]. unfold get_unchecked, meta_store_get. rewrite Hs. cbn [ok_or].
  pose proof (message_from_block_metadata_spec md0 (msg_map ms)) as Hspec.
  destruct (message_from_block_metadata md0 (msg_map ms)) as [m|]; cbn [ok_or].
  - right. destruct Hspec as (Hj & Hid & _). split; [done|]. do 2 eexists. split; [reflexivity|].
    pose proof (mk_keyed _ _ (do_msgs _ Hok) _ _ Hmd) as Hh. cbn in Hh. rewrite Hh in Hid.
    intros x. rewrite insert_msg_map, Hid, bool_decide_eq_false_2 by done.
    rewrite lookup_insert_is_Some'. naive_solver.
  - left. destruct Hspec as (p & ? & ?). by exists p.
Qed.

(** The messages of the map are of valid blocks, with those of their
    justifications. *)
Definition built (ms : DagMessageState BlockHash Validator) : Prop :=
  ∀ x, is_Some (msg_map ms !! x) → ∃ md, core st !! x = Some md ∧ validation_failed md = false ∧
    ∀ p, p ∈ md_justifications md → is_Some (msg_map ms !! p).

Lemma foldl_step_err l : foldl step (Err JustificationNotPresent) l = Err JustificationNotPresent.
Proof. induction l; done. Qed.

Lemma start_loop l ms fs :
  (∀ x, x ∈ l → x ∈ visit_order st) → built ms →
  foldl step (Ok (ms, fs)) l = Err JustificationNotPresent ∨
  ∃ ms' fs', foldl step (Ok (ms, fs)) l = Ok (ms', fs') ∧ built ms' ∧
    ∀ x, x ∈ l ∨ is_Some (msg_map ms !! x) → is_Some (msg_map ms' !! x).
Proof using Hok.
  revert ms fs. induction l as [|h l IH]; intros ms fs Hl Hb; cbn [foldl].
  { right. exists ms, fs. split; [done|]. split; [done|]. intros x [?%elem_of_nil|?]; done. }
  assert (∀ x, x ∈ l → x ∈ visit_order st) as Hl' by (intros; apply Hl; by right).
  destruct (create_step_cases ms fs h) as (md & Hmd & Hf & [[Hin ->]|(Hnew & Hcase)]); [apply Hl; by left| |].
  - destruct (IH ms fs Hl' Hb) as [?|(ms' & fs' & ? & ? & Hx)]; [by left|right]. exists ms', fs'.
    split_and!; [done..|]. intros x [[->|?]%elem_of_cons|?]; apply Hx; auto.
  - destruct Hcase as [(p & _ & _ & ->)|(Hj & ms1 & fs1 & -> & H1)]; [left; apply foldl_step_err|].
    destruct (IH ms1 fs1 Hl') as [?|(ms' & fs' & ? & ? & Hx)]; [|by left|right].
    + intros x [->|(md' & ? & ? & Hp)%Hb]%H1; [exists md|exists md'];
        (split_and!; [done..|]; intros p ?; apply H1; right; auto).
    + exists ms', fs'. split_and!; [done..|].
      intros x [[->|?]%elem_of_cons|?]; apply Hx; auto; right; apply H1; auto.
Qed.

Lemma built_empty : built empty_state.
Proof. intros x [m Hm]. cbn in Hm. by rewrite lookup_empty in Hm. Qed.

(** A failed justification stops the start. *)
Lemma start_blocked :
  failed_justification st →
  storage_create blake2b256 (block_metadata_store st) (fringe_data_store st) (deploy_index st)
    (deploy_store st) = Err JustificationNotPresent.
Proof using Hok.
  intros (h & md & p & mdp & Hmd & Hf & Hp & Hmdp & Hfp). unfold storage_create. cbn zeta.
  fold (visit_order st).
  destruct (start_loop (visit_order st) empty_state ∅) as [->|(ms & fs & -> & Hb & Hin)];
    [done|apply built_empty|done|]. exfalso.
  assert (is_Some (msg_map ms !! h)) as (md' & ? & _ & Hj)%Hb.
  { apply Hin. left. apply (elem_of_visit_order _ _ Hok). eauto. }
  assert (md' = md) as -> by congruence. apply Hj, Hb in Hp as (? & ? & ? & _). congruence.
Qed.

Lemma start_runs dn l ms fs :
  above_justifications st → ¬ failed_justification st → visit_order st = dn ++ l →
  (∀ x, x ∈ dn → is_Some (msg_map ms !! x)) → ∃ r, foldl step (Ok (ms, fs)) l = Ok r.
Proof using Hok.
  intros Habove Hno. revert dn ms fs. induction l as [|h l IH]; intros dn ms fs E Hdn; cbn [foldl]; [by eauto|].
  assert (visit_order st = (dn ++ [h]) ++ l) as E' by (by rewrite <- app_assoc).
  destruct (create_step_cases ms fs h) as (md & Hmd & Hf & [[Hin ->]|(Hnew & Hcase)]).
  { rewrite E. apply elem_of_app. right. by left. }
  - apply (IH _ _ _ E'). intros x [?| ->%list_elem_of_singleton]%elem_of_app; auto.
  - destruct Hcase as [(p & Hp & Hn & _)|(Hj & ms1 & fs1 & -> & H1)].
    + exfalso. destruct (mk_closed _ _ (do_msgs _ Hok) _ _ p Hmd Hp) as [mdp Hmdp].
      destruct (Hdn p) as [? ?]; [|congruence]. eapply visited_before; [done|done| |].
      * apply (elem_of_visit_order _ _ Hok). exists mdp. split; [done|].
        destruct (validation_failed mdp) eqn:Hfp; [|done]. destruct Hno. by exists h, md, p, mdp.
      * unfold num_of. rewrite Hmd, Hmdp. by eapply (Habove h).
    + apply (IH _ _ _ E'). intros x [?| ->%list_elem_of_singleton]%elem_of_app; apply H1; auto.
Qed.
End Start.
End Invariant.
End BlockDag.
Import BlockDag.

Lemma restart_same blake2b256 (st : Storage) :
  dag_ok blake2b256 st → ranked (core st) →
  restart blake2b256 st =
  Ok (mkStorage (representation st) (block_metadata_store st) (fringe_data_store st)
        (deploy_index st) (deploy_store st) ∅).
Proof.
  intros Hok Hr. unfold restart. rewrite meta_store_create_ok by apply (do_meta _ _ Hok).
  by apply create_same.
Qed.

Lemma restart_blocked blake2b256 (st : Storage) :
  dag_ok blake2b256 st → failed_justification st →
  restart blake2b256 st = Err JustificationNotPresent.
Proof.
  intros Hok Hf. unfold restart. rewrite meta_store_create_ok by apply (do_meta _ _ Hok).
  by apply start_blocked.
Qed.

Lemma restart_cases blake2b256 (st : Storage) :
  dag_ok blake2b256 st → above_justifications st →
  (failed_justification st → restart blake2b256 st = Err JustificationNotPresent) ∧
  (¬ failed_justification st → ∃ st', restart blake2b256 st = Ok st').
Proof.
  intros Hok Ha. split; [by apply restart_blocked|]. intros Hno.
  unfold restart. rewrite meta_store_create_ok by apply (do_meta _ _ Hok). unfold storage_create. cbn zeta.
  destruct (start_runs blake2b256 st Hok [] (visit_order st) empty_state ∅ Ha Hno eq_refl) as [[ms fs] E].
  { intros x ?%elem_of_nil. done. }
  unfold visit_order in E. rewrite E. eauto.
Qed.

(** ** Properties *)
Section BlockDagTheorems.
Context (blake2b256 : bytes → bytes).

(** C17: What inserting a block does to the DAG.  From a storage in which the
    index, the message state (messages see exactly the ancestors of their
    block, the latest message of a sender is its valid block with the highest
    sequence number) and the fringe data agree with the stored blocks:
    inserting a known block changes nothing and succeeds; inserting a new
    block succeeds exactly when it is no equivocation, leaves no hole in the
    heights and has its justifications and fringe in the DAG, and then the
    storage is consistent again with that block added; an equivocation is
    reported as such and changes nothing.  The insertion always returns. *)
Theorem dag_insert_consistent (st : Storage) md block :
  dag_ok blake2b256 st → no_fringe_collision blake2b256 (core st) md →
  (is_Some (core st !! md_block_hash md) → dag_insert blake2b256 st md block = (st, Ok ())) ∧
  (core st !! md_block_hash md = None →
   (insertable st md → ∃ st', dag_insert blake2b256 st md block = (st', Ok ()) ∧
      dag_ok blake2b256 st' ∧ core st' = <[md_block_hash md := erase md]> (core st)) ∧
   (¬ insertable st md → ∃ st' e, dag_insert blake2b256 st md block = (st', Err e) ∧
      (e = EquivocationDetected ↔ ¬ fresh_seq (core st) md) ∧
      (e = EquivocationDetected → st' = st))).
Proof.
  intros Hok Hnc. split; [|by apply dag_insert_cases].
  intros Hin. unfold dag_insert. by rewrite (proj2 (contains_core _ _ _ Hok) Hin).
Qed.

(** A restart restores the DAG.  For a consistent storage of valid blocks
    that are higher than their justifications, starting again from the
    persisted stores succeeds and rebuilds exactly the in-memory view the node
    had: the index, all messages with what they see, the latest messages and
    the fringe states. *)
Theorem dag_restart_same_view (st : Storage) :
  dag_ok blake2b256 st → ranked (core st) →
  restart blake2b256 st =
  Ok (mkStorage (representation st) (block_metadata_store st) (fringe_data_store st)
        (deploy_index st) (deploy_store st) ∅).
Proof. apply restart_same. Qed.

(** A failed insertion can leave its block half stored.  When a new block
    that is no equivocation and fits the heights has a justification outside
    the DAG, the insertion fails, but the metadata is already recorded: from
    then on inserting the block succeeds without doing anything, and its
    message is never added. *)
Theorem dag_insert_error_is_sticky (st : Storage) md block p :
  dag_ok blake2b256 st → core st !! md_block_hash md = None → fresh_seq (core st) md →
  validate_dag_state (add_block_to_dag_state (block_metadata_to_info md)
    (dag_state (block_metadata_store st))) = Ok () →
  p ∈ md_justifications md → core st !! p = None →
  ∃ st', dag_insert blake2b256 st md block = (st', Err JustificationNotPresent) ∧
    (∀ block', dag_insert blake2b256 st' md block' = (st', Ok ())) ∧
    msg_map (dag_message_state (representation st')) !! md_block_hash md = None.
Proof.
  intros Hok Hnew Hfresh Hv Hp Hpn. unfold dag_insert at 1.
  rewrite (not_true_is_false (meta_store_contains _ _))
    by (rewrite (contains_core _ _ _ Hok), Hnew; by intros []).
  rewrite (proj2 (equivocating_spec _ _ md (do_msgs _ _ Hok)) Hfresh).
  unfold meta_store_add. cbn zeta. rewrite Hv. cbn match.
  set (bms := mkMetaStore _ _).
  destruct (index_deploys_fields (set_metadata_store st bms) block) as (Er & Eb & Ef).
  set (st1 := index_deploys _ block) in *. cbn in Er, Eb. rewrite Er.
  unfold compute_fringe_diff.
  pose proof (resolve_all_spec (msg_map (dag_message_state (representation st)))
    JustificationNotPresent (md_justifications md)) as Hj.
  destruct (resolve_all _ _ _) as [js|e].
  { destruct Hj as [Hj _]. apply Hj, (dag_dom _ _ _ Hok) in Hp. rewrite Hpn in Hp. by destruct Hp. }
  destruct Hj as [-> _]. exists st1. split; [done|]. split.
  - intros block'. unfold dag_insert. rewrite Eb. unfold meta_store_contains. cbn.
    by rewrite bool_decide_true by set_solver.
  - rewrite Er. by apply (mk_map_None _ _ _ (do_msgs _ _ Hok)).
Qed.
End BlockDagTheorems.

(** Executable forms of [above_justifications] and [ranked]. *)
Definition above_b (c : gmap BlockHash BlockMetadata) : bool :=
  forallb (λ md, forallb (λ p, match c !! p with
                               | Some mdp => md_block_num mdp <? md_block_num md
                               | None => true
                               end) (set_iter (md_justifications md))) (map_values c).

Lemma above_check st : above_b (core st) = true → above_justifications st.
Proof.
  unfold above_b. rewrite forallb_elem. intros H h md p mdp Hmd Hp Hmdp.
  specialize (H md ltac:(apply elem_of_map_values; eauto)).
  rewrite forallb_elem in H. specialize (H p ltac:(by apply elem_of_set_iter)).
  rewrite Hmdp in H. lia.
Qed.

Definition ranked_b (st : Storage) : bool :=
  above_b (core st) && forallb (λ md, negb (validation_failed md)) (map_values (core st)).

Lemma ranked_check st : ranked_b st = true → ranked (core st).
Proof.
  unfold ranked_b. intros [Ha Hv]%andb_true_iff. split; [|exact (above_check st Ha)].
  intros h md Hmd. rewrite forallb_elem in Hv.
  apply negb_true_iff, Hv, elem_of_map_values. eauto.
Qed.

(** ** Concrete instance

    A genesis block and three blocks of two validators; the digest function
    is the identity. *)
Module BlockDagExample.
Definition hash (i : Z) : BlockHash := i :: replicate 31 0.
Definition val (i : Z) : Validator := i :: replicate 64 0.
Definition digest (b : bytes) : bytes := b.
Definition bonds : gmap Validator Z := {[val 0 := 100; val 1 := 100]}.

Definition meta (i num sender seq : Z) (justs fringe : list Z) : BlockMetadata :=
  mkMeta (hash i) num (val sender) seq (list_to_set (hash <$> justs)) bonds true false
    (list_to_set (hash <$> fringe)) zero_hash None.

Definition signed (i : Z) : SignedDeployData :=
  mkSigned (mkDeployData [78; 105; 108] 0 1 100 0 [114]) [] [i] [115].

(** A block with one deploy. *)
Definition block_of (md : BlockMetadata) (d : Z) : BlockMessage :=
  mkBlock 1 [114] (md_block_hash md) (md_block_num md) (md_sender md) (md_seq_num md)
    zero_hash zero_hash (set_iter (md_justifications md)) (md_bonds_map md) ∅ ∅ ∅
    (mkRholangState [mkProcessed (signed d) (mkPCost 0) [] false None] []) [115] [1].

Definition genesis := meta 1 0 0 0 [] [].
Definition b1 := meta 2 1 0 1 [1] [].
Definition b2 := meta 3 1 1 0 [1] [].
Definition b3 := meta 4 2 0 2 [2; 3] [1].
Definition orphan := meta 9 2 1 5 [8] [].

(** [no_fringe_collision], executable. *)
Definition collision_free (st : Storage) (md : BlockMetadata) : bool :=
  bool_decide (map_Forall (λ _ md', fringe_hash_of digest (md_fringe md')
    = fringe_hash_of digest (md_fringe md) → md_fringe md' = md_fringe md) (core st)).

Lemma collision_free_ok st md :
  collision_free st md = true → no_fringe_collision digest (core st) md.
Proof. unfold collision_free. by rewrite bool_decide_eq_true. Qed.

(** Insertions that all succeed. *)
Fixpoint run (st : Storage) (l : list BlockMetadata) : option Storage :=
  match l with
  | [] => Some st
  | md :: l' =>
      match dag_insert digest st md (block_of md (default 0 (head (md_block_hash md)))) with
      | (st', Ok _) =>
          if bool_decide (core st !! md_block_hash md = None) && collision_free st md
          then run st' l' else None
      | _ => None
      end
  end.

Lemma run_ok st l st' : dag_ok digest st → run st l = Some st' → dag_ok digest st'.
Proof.
  revert st. induction l as [|md l IH]; intros st Hok; cbn; [by intros [= <-]|].
  destruct (dag_insert _ _ _ _) as [st1 [[]|]] eqn:E; [|done].
  destruct (bool_decide_reflect (core st !! md_block_hash md = None)) as [Hnew|]; [|done].
  destruct (collision_free st md) eqn:Hnc; [|done]. cbn. apply IH.
  eapply dag_insert_run; [done|by apply collision_free_ok|done|exact E].
Qed.

Definition st2 : Storage := default empty_storage (run empty_storage [genesis; b1; b2]).
Definition st3 : Storage := default empty_storage (run empty_storage [genesis; b1; b2; b3]).

Lemma run_default l :
  bool_decide (is_Some (run empty_storage l)) = true →
  dag_ok digest (default empty_storage (run empty_storage l)).
Proof.
  rewrite bool_decide_eq_true. intros [st E]. rewrite E. cbn.
  by apply (run_ok empty_storage l); [apply dag_ok_empty|].
Qed.

Lemma st2_ok : dag_ok digest st2.
Proof. apply run_default. vm_compute. reflexivity. Qed.

Lemma st3_ok : dag_ok digest st3.
Proof. apply run_default. vm_compute. reflexivity. Qed.

(** Witness of [dag_insert_consistent]: block [b3] joins the DAG. *)
Lemma dag_insert_consistent_witness :
  ∃ st', dag_insert digest st2 b3 (block_of b3 4) = (st', Ok ()) ∧ dag_ok digest st' ∧
    core st' = <[hash 4 := erase b3]> (core st2).
Proof.
  assert (no_fringe_collision digest (core st2) b3) as Hnc
    by (apply collision_free_ok; vm_compute; reflexivity).
  destruct (dag_insert_consistent digest st2 b3 (block_of b3 4) st2_ok Hnc) as [_ H].
  destruct H as [H _]; [vm_compute; reflexivity|]. apply H. split.
  - apply (equivocating_spec _ _ _ (do_msgs _ _ st2_ok)). vm_compute. reflexivity.
  - vm_compute. reflexivity.
  - apply (bool_decide_unpack (set_Forall _ _)). vm_compute. exact I.
  - apply (bool_decide_unpack (set_Forall _ _)). vm_compute. exact I.
Defined.

(** Witness of [dag_restart_same_view]. *)
Lemma dag_restart_same_view_witness :
  restart digest st3 =
  Ok (mkStorage (representation st3) (block_metadata_store st3) (fringe_data_store st3)
        (deploy_index st3) (deploy_store st3) ∅).
Proof.
  apply dag_restart_same_view; [apply st3_ok|]. apply ranked_check.
  vm_compute. reflexivity.
Defined.

(** Witness of [dag_insert_error_is_sticky]: a block on an unknown one. *)
Lemma dag_insert_error_is_sticky_witness :
  ∃ st', dag_insert digest st3 orphan (block_of orphan 9) = (st', Err JustificationNotPresent) ∧
    dag_insert digest st' orphan (block_of orphan 9) = (st', Ok ()) ∧
    msg_map (dag_message_state (representation st')) !! hash 9 = None.
Proof.
  destruct (dag_insert_error_is_sticky digest st3 orphan (block_of orphan 9) (hash 8) st3_ok)
    as (st' & H1 & H2 & H3).
  - vm_compute. reflexivity.
  - apply (equivocating_spec _ _ _ (do_msgs _ _ st3_ok)). vm_compute. reflexivity.
  - vm_compute. reflexivity.
  - vm_decide.
  - vm_compute. reflexivity.
  - exists st'. split; [exact H1|]. split; [apply H2|exact H3].
Defined.
End BlockDagExample.
