(* ===== verification/Validate.v ===== *)
(** * Block validation

    [casper/src/validate.rs] and [casper/src/proto_util.rs].  The block DAG is
    a [Storage] ([BlockDag]), the block store a map.  Parameters: the signature
    algorithms and the low-S normal form of a signature (the crypto library),
    the wire encoding of a block and the digest function. *)

From S2P Require Import Prelude BTree Refined Message Finalizer MessageState Block DagStore BlockDag.
Import MessageMap Finalizer MessageState Block DagStore BlockDag.

Module Validate.
Inductive ValidateFailure :=
| MissingJustification (h : BlockHash)
| MissingBlock (h : BlockHash)
| NoParents
| ParentNotInMessageMap (h : BlockHash)
| FringeStateNotAvailable (fringe : gset BlockHash)
| BondsMapsDisagree
| FringeNotInDag (h : BlockHash)
| NoGenesisFound
| ReplayInternalError (cause : text)
| RuntimeError (msg : text).

(** [Ok(())] is valid, [Err(status)] an invalid status; the outer result is
    the failure of a lookup. *)
Notation ValidBlockProcessing := (Result unit BlockStatus).
Notation Checked := (Result (Result unit BlockStatus) ValidateFailure).

(** [block_version::SUPPORTED]. *)
Definition SUPPORTED : list Z := [1].

(** ** [proto_util.rs] *)
Definition max_block_number_metadata (blocks : list BlockMetadata) : Z :=
  foldl (λ acc b, Z.max acc (md_block_num b)) (-1) blocks.

Definition lookup_justification (st : Storage) (j : BlockHash) :
    Result BlockMetadata ValidateFailure :=
  ok_or (dag_lookup st j) (MissingJustification j).

(** The metadata of the justifications that did not fail validation. *)
Definition get_parents_metadata (st : Storage) (b : BlockMetadata) :
    Result (list BlockMetadata) ValidateFailure :=
  metas ←? try_map (lookup_justification st) (set_iter (md_justifications b));
  Ok (filter (λ meta, validation_failed meta = false) metas).

Definition get_parent_metadatas_above_block_number (st : Storage) (b : BlockMetadata)
    (block_number : Z) : Result (list BlockMetadata) ValidateFailure :=
  parents ←? get_parents_metadata st b;
  Ok (filter (λ p, block_number ≤ md_block_num p) parents).

Section Hashing.
Context (to_bytes : BlockMessage → bytes) (blake2b256 : bytes → bytes).

(** The block with its hash and signature cleared. *)
Definition cleared (b : BlockMessage) : BlockMessage :=
  mkBlock (b_version b) (b_shard_id b) zero_hash (b_block_number b) (b_sender b) (b_seq_num b)
    (pre_state_hash b) (post_state_hash b) (b_justifications b) (b_bonds b)
    (b_rejected_deploys b) (b_rejected_blocks b) (b_rejected_senders b) (b_state b)
    (b_sig_algorithm b) [].

Definition hash_block (b : BlockMessage) : BlockHash := blake2b256 (to_bytes (cleared b)).

Definition with_hash (b : BlockMessage) (h : BlockHash) : BlockMessage :=
  mkBlock (b_version b) (b_shard_id b) h (b_block_number b) (b_sender b) (b_seq_num b)
    (pre_state_hash b) (post_state_hash b) (b_justifications b) (b_bonds b)
    (b_rejected_deploys b) (b_rejected_blocks b) (b_rejected_senders b) (b_state b)
    (b_sig_algorithm b) (b_sig b).

(** The name of the signature algorithm, [secp256k1]. *)
Definition secp256k1 : text := [115; 101; 99; 112; 50; 53; 54; 107; 49].

Definition unsigned_block_proto (version : Z) (shard_id : text) (block_number : Z)
    (sender : Validator) (seq_num : Z) (pre_state post_state : StateHash)
    (justifications : list BlockHash) (bonds : gmap Validator Z)
    (rejected_deploys : gset bytes) (state : RholangState) : BlockMessage :=
  let block := mkBlock version shard_id zero_hash block_number sender seq_num pre_state post_state
                 justifications bonds rejected_deploys ∅ ∅ state secp256k1 [] in
  with_hash block (hash_block block).

Definition block_hash (b : BlockMessage) : bool := bool_decide (b_block_hash b = hash_block b).
End Hashing.

(** ** Checks on the block alone *)
Definition is_ascii (s : text) : bool := forallb (λ c, c <? 128) s.

Definition format_of_fields (b : BlockMessage) : bool :=
  if bool_decide (b_block_hash b = zero_hash) then false
  else if bool_decide (b_sig b = []) then false
  else if bool_decide (b_sig_algorithm b = []) then false
  else if bool_decide (b_shard_id b = []) then false
  else if negb (is_ascii (b_shard_id b)) then false
  else true.

Definition version (b : BlockMessage) : bool := existsb (Z.eqb (b_version b)) SUPPORTED.

(** [from_algorithm] gives the verification function of a named algorithm:
    message, signature and public key. *)
Definition block_signature (from_algorithm : text → option (bytes → bytes → bytes → bool))
    (b : BlockMessage) : bool :=
  match from_algorithm (b_sig_algorithm b) with
  | Some verify => verify (b_block_hash b) (b_sig b) (b_sender b)
  | None => false
  end.

Definition deploy_data (d : ProcessedDeploy) : DeployData := data (deploy d).

Definition future_transaction (b : BlockMessage) : BlockStatus :=
  if existsb (λ d, b_block_number b <? valid_after_block_number (deploy_data d))
       (deploys (b_state b))
  then ContainsFutureDeploy else Valid.

Definition transaction_expiration (b : BlockMessage) (expiration_threshold : Z) : BlockStatus :=
  let earliest := Refined.BlockHeight_sub (b_block_number b) expiration_threshold in
  if existsb (λ d, valid_after_block_number (deploy_data d) <=? earliest) (deploys (b_state b))
  then ContainsExpiredDeploy else Valid.

Definition deploys_shard_identifier (b : BlockMessage) (shard_id : text) : BlockStatus :=
  if forallb (λ d, bool_decide (dd_shard_id (deploy_data d) = shard_id)) (deploys (b_state b))
  then Valid else InvalidDeployShardId.

Definition check_phlo_price (b : BlockMessage) (min_phlo_price : Z) : BlockStatus :=
  if forallb (λ d, min_phlo_price <=? phlo_price (deploy_data d)) (deploys (b_state b))
  then Valid else ContainsLowCostDeploy.

(** ** Checks against the DAG *)

(** The loops over the justifications keep the maximum of a number. *)
Definition block_number (st : Storage) (b : BlockMessage) : Checked :=
  metas ←? try_map (lookup_justification st) (b_justifications b);
  let max_block_number :=
    foldl (λ acc meta, if negb (validation_failed meta) then Z.max acc (md_block_num meta) else acc)
      (-1) metas in
  if i64_wrap (max_block_number + 1) =? b_block_number b then Ok (Ok ())
  else Ok (Err InvalidBlockNumber).

Definition sequence_number (st : Storage) (b : BlockMessage) : Checked :=
  metas ←? try_map (lookup_justification st) (b_justifications b);
  let creator_latest_seq :=
    foldl (λ acc meta, if bool_decide (md_sender meta = b_sender b)
                       then Z.max acc (md_seq_num meta) else acc) (-1) metas in
  if i64_wrap (creator_latest_seq + 1) =? b_seq_num b then Ok (Ok ())
  else Ok (Err InvalidSequenceNumber).

(** [None] when a justification is not in the message map, or the block has
    no justification of its own sender. *)
Definition check_justification_regression (st : Storage) (b : BlockMessage) : option bool :=
  let mm := msg_map (dag_message_state (representation st)) in
  justs ← mapM (λ j, mm !! j) (b_justifications b);
  prev_msg ← List.find (λ m, bool_decide (sender m = b_sender b)) justs;
  Some (forallb (λ just,
    let just_prev_msg :=
      List.find (λ m, bool_decide (sender m = sender just)) (msgs_at mm (parents prev_msg)) in
    match just_prev_msg with
    | Some just_prev_msg => bool_decide (seen just_prev_msg ∖ seen just = ∅)
    | None => true
    end) justs).

Definition justification_regressions (st : Storage) (b : BlockMessage) : Checked :=
  let valid := default true (check_justification_regression st b) in
  if valid then Ok (Ok ()) else Ok (Err JustificationRegression).

Definition neglected_invalid_block (st : Storage) (b : BlockMessage) : Checked :=
  let justifications := omap (dag_lookup st) (b_justifications b) in
  let neglected :=
    existsb (λ v, match b_bonds b !! v with Some stake => 0 <? stake | None => false end)
      (md_sender <$> filter (λ m, validation_failed m = true) justifications) in
  if neglected then Ok (Err NeglectedInvalidBlock) else Ok (Ok ()).

(** ** Repeated deploys *)
Section RepeatDeploy.
Context (normalize_signature_low_s : text → bytes → bytes).
Context (st : Storage) (block_store : gmap BlockHash BlockMessage).

Definition get_block_unsafe (hash : BlockHash) : Result BlockMessage ValidateFailure :=
  ok_or (block_store !! hash) (MissingBlock hash).

Definition deploy_key (d : ProcessedDeploy) : bytes :=
  normalize_signature_low_s (sd_sig_algorithm (deploy d)) (sd_sig (deploy d)).

Definition deploy_keys (b : BlockMessage) : gset bytes :=
  list_to_set (deploy_key <$> deploys (b_state b)).

Definition repeats (deploy_key_set : gset bytes) (b : BlockMessage) : bool :=
  existsb (λ d, bool_decide (deploy_key d ∈ deploy_key_set)) (deploys (b_state b)).

(** One round of the traversal: the queue of blocks and the visited hashes. *)
Definition repeat_step (deploy_key_set : gset bytes) (earliest_block_number : Z)
    (s : list BlockMetadata * gset BlockHash) :
    (list BlockMetadata * gset BlockHash) + Checked :=
  let '(queue, visited) := s in
  match queue with
  | [] => inr (Ok (Ok ()))
  | curr :: queue =>
      if bool_decide (md_block_hash curr ∈ visited) then inl (queue, visited)
      else
        let visited := {[md_block_hash curr]} ∪ visited in
        match get_block_unsafe (md_block_hash curr) with
        | Err e => inr (Err e)
        | Ok b =>
            if repeats deploy_key_set b then inr (Ok (Err InvalidRepeatDeploy))
            else
              match get_parent_metadatas_above_block_number st curr earliest_block_number with
              | Err e => inr (Err e)
              | Ok parents =>
                  inl (queue ++ filter (λ p, md_block_hash p ∉ visited) parents, visited)
              end
        end
  end.

(** The largest number of justifications of a stored block. *)
Definition max_justifications : nat :=
  foldr (λ md acc, Nat.max (size (md_justifications md)) acc) O
    (map_values (store (block_metadata_store st))).

(** Enough rounds: every visited block adds at most [max_justifications]
    entries to the queue. *)
Definition repeat_fuel (queue : list BlockMetadata) : nat :=
  S (size (store (block_metadata_store st)) * S max_justifications + length queue).

Definition repeat_deploy (block : BlockMessage) (expiration_threshold : Z) : option Checked :=
  let deploy_key_set := deploy_keys block in
  let block_metadata := from_block block in
  match get_parents_metadata st block_metadata with
  | Err e => Some (Err e)
  | Ok init_parents =>
      let max_block_number := max_block_number_metadata init_parents in
      let earliest_block_number := i64_wrap (i64_wrap (max_block_number + 1) - expiration_threshold) in
      loop (repeat_step deploy_key_set earliest_block_number) (repeat_fuel init_parents)
        (init_parents, ∅)
  end.

(** The checks before the replay, in order. *)
Definition block_summary (block : BlockMessage) (shard_id : text) (expiration_threshold : Z)
    (min_phlo_price : Z) : option Checked :=
  match justification_regressions st block with
  | Err e => Some (Err e)
  | Ok (Err status) => Some (Ok (Err status))
  | Ok (Ok _) =>
  match sequence_number st block with
  | Err e => Some (Err e)
  | Ok (Err status) => Some (Ok (Err status))
  | Ok (Ok _) =>
  match block_number st block with
  | Err e => Some (Err e)
  | Ok (Err status) => Some (Ok (Err status))
  | Ok (Ok _) =>
      let pure := [deploys_shard_identifier block shard_id; future_transaction block;
                   transaction_expiration block expiration_threshold;
                   check_phlo_price block min_phlo_price] in
      match List.find (λ status, negb (is_valid status)) pure with
      | Some status => Some (Ok (Err status))
      | None => repeat_deploy block expiration_threshold
      end
  end end end.
End RepeatDeploy.

(** ** Properties of the checks *)

Lemma try_map_lookup (st : Storage) (js : list BlockHash) :
  (∀ j, j ∈ js → is_Some (dag_lookup st j)) →
  try_map (lookup_justification st) js = Ok (omap (dag_lookup st) js).
Proof.
  induction js as [|j js IH]; intros Hj; cbn; [done|]. unfold lookup_justification at 1.
  destruct (Hj j) as [md Hmd]; [by left|]. rewrite Hmd. cbn.
  rewrite IH; [done|]. intros; apply Hj; by right.
Qed.

Lemma try_map_lookup_err (st : Storage) (js : list BlockHash) e :
  try_map (lookup_justification st) js = Err e →
  ∃ j, j ∈ js ∧ dag_lookup st j = None ∧ e = MissingJustification j.
Proof.
  induction js as [|j js IH]; cbn; [done|]. unfold lookup_justification at 1.
  destruct (dag_lookup st j) as [md|] eqn:Hj; cbn.
  - destruct (try_map _ js); [done|]. intros [= <-]. destruct IH as (j' & ? & ? & ?); [done|].
    exists j'. split; [by right|done].
  - intros [= <-]. exists j. split; [by left|done].
Qed.

Lemma length_omap_le {A B} (f : A → option B) l : (length (omap f l) ≤ length l)%nat.
Proof. induction l as [|a l IH]; cbn; [done|]. destruct (f a); cbn; lia. Qed.

Lemma get_parents_metadata_ok (st : Storage) b :
  (∀ p, p ∈ md_justifications b → is_Some (dag_lookup st p)) →
  ∃ l, get_parents_metadata st b = Ok l ∧ (length l ≤ size (md_justifications b))%nat ∧
    ∀ md, md ∈ l ↔ validation_failed md = false ∧
      ∃ p, p ∈ md_justifications b ∧ dag_lookup st p = Some md.
Proof.
  intros Hj. unfold get_parents_metadata. rewrite try_map_lookup.
  2:{ intros j Hj'%elem_of_set_iter. auto. }
  eexists. split; [reflexivity|]. split.
  - etrans; [apply length_filter|]. etrans; [apply length_omap_le|].
    by rewrite length_set_iter.
  - intros md. rewrite list_elem_of_filter, list_elem_of_omap. by setoid_rewrite elem_of_set_iter.
Qed.

(** *** The traversal for repeated deploys *)
Section Traversal.
Context (normalize_signature_low_s : text → bytes → bytes).
Context (st : Storage) (block_store : gmap BlockHash BlockMessage).
Context (keys : gset bytes) (earliest : Z).
Notation s := (store (block_metadata_store st)).

(** Every stored block is filed under its hash, has its justifications
    stored, and has its message in the block store. *)
Record complete : Prop := {
  cp_keyed : keyed s;
  cp_closed : closed s;
  cp_blocks : ∀ h md, s !! h = Some md → is_Some (block_store !! h);
}.

(** The valid ancestors above the horizon, from the given parents. *)
Inductive in_window (init : list BlockMetadata) : BlockMetadata → Prop :=
| window_init md : md ∈ init → in_window init md
| window_parent md p mdp :
    in_window init md → p ∈ md_justifications md → s !! p = Some mdp →
    validation_failed mdp = false → earliest ≤ md_block_num mdp → in_window init mdp.

(** The block of [md] has one of the deploys. *)
Definition has_repeat (md : BlockMetadata) : Prop :=
  ∃ b d, block_store !! md_block_hash md = Some b ∧ d ∈ deploys (b_state b) ∧
    deploy_key normalize_signature_low_s d ∈ keys.

Lemma repeats_spec b :
  repeats normalize_signature_low_s keys b = true ↔
  ∃ d, d ∈ deploys (b_state b) ∧ deploy_key normalize_signature_low_s d ∈ keys.
Proof. unfold repeats. rewrite existsb_elem. by setoid_rewrite bool_decide_eq_true. Qed.

Context (Hc : complete).

Definition stored (md : BlockMetadata) : Prop := s !! md_block_hash md = Some md.

Lemma parents_above md :
  stored md →
  ∃ l, get_parent_metadatas_above_block_number st md earliest = Ok l ∧
    (length l ≤ size (md_justifications md))%nat ∧
    ∀ mdp, mdp ∈ l ↔ validation_failed mdp = false ∧ earliest ≤ md_block_num mdp ∧
      ∃ p, p ∈ md_justifications md ∧ s !! p = Some mdp.
Proof.
  intros Hmd. destruct (get_parents_metadata_ok st md) as (l & Hl & Hlen & Hin).
  { intros p Hp. by eapply (cp_closed Hc). }
  unfold get_parent_metadatas_above_block_number. rewrite Hl. eexists. split; [reflexivity|].
  split; [etrans; [apply length_filter|done]|].
  intros mdp. rewrite list_elem_of_filter, Hin. unfold dag_lookup, meta_store_get. split.
  - intros (? & ? & ?). done.
  - intros (? & ? & ?). done.
Qed.

(** What the loop keeps: the queue holds blocks of the window, the visited
    blocks have no repeat, and their parents in the window are visited or
    queued. *)
Record traversal (init : list BlockMetadata) (q : list BlockMetadata * gset BlockHash) : Prop := {
  tr_queue : ∀ md, md ∈ q.1 → in_window init md ∧ stored md;
  tr_visited : ∀ h, h ∈ q.2 → ∃ md, s !! h = Some md ∧ ¬ has_repeat md;
  tr_init : ∀ md, md ∈ init → md_block_hash md ∈ q.2 ∨ md ∈ q.1;
  tr_next : ∀ h md p mdp, h ∈ q.2 → s !! h = Some md → p ∈ md_justifications md →
    s !! p = Some mdp → validation_failed mdp = false → earliest ≤ md_block_num mdp →
    p ∈ q.2 ∨ mdp ∈ q.1;
}.

Definition measure (q : list BlockMetadata * gset BlockHash) : nat :=
  size (dom s ∖ q.2) * S (max_justifications st) + length q.1.

Lemma max_justifications_le h md : s !! h = Some md → (size (md_justifications md) ≤ max_justifications st)%nat.
Proof.
  intros Hmd. unfold max_justifications.
  assert (md ∈ map_values s) as Hin by (apply elem_of_map_values; eauto).
  induction (map_values s) as [|x l IH]; [by apply elem_of_nil in Hin|]. cbn.
  apply elem_of_cons in Hin as [->|Hin]; [lia|]. specialize (IH Hin). lia.
Qed.

Lemma stored_key h md : s !! h = Some md → md_block_hash md = h.
Proof. apply (cp_keyed Hc). Qed.

(** A visited block is skipped. *)
Lemma traversal_skip init curr queue V :
  traversal init (curr :: queue, V) → md_block_hash curr ∈ V → traversal init (queue, V).
Proof.
  intros [Hq Hv Hi Hn] Hin. split; cbn in *.
  - intros md Hmd. apply Hq. by right.
  - done.
  - intros md [?|[->|?]%elem_of_cons]%Hi; auto.
  - intros h md p mdp Hh Hmd Hp Hmdp Hf He.
    destruct (Hn h md p mdp Hh Hmd Hp Hmdp Hf He) as [?|[E|?]%elem_of_cons]; [by auto| |by auto].
    left. rewrite <- (stored_key _ _ Hmdp), E. done.
Qed.

(** A new block is visited and its parents are queued. *)
Lemma traversal_visit init curr queue V l :
  traversal init (curr :: queue, V) → ¬ has_repeat curr →
  get_parent_metadatas_above_block_number st curr earliest = Ok l →
  traversal init (queue ++ filter (λ p, md_block_hash p ∉ {[md_block_hash curr]} ∪ V) l,
                  {[md_block_hash curr]} ∪ V).
Proof.
  intros [Hq Hv Hi Hn] Hnr Hl. cbn in *. destruct (Hq curr) as [Hw Hs]; [by left|].
  destruct (parents_above curr Hs) as (l' & Hl' & _ & Hin). rewrite Hl in Hl'. injection Hl' as <-.
  set (V' := {[md_block_hash curr]} ∪ V). split; cbn.
  - intros md [Hmd|[_ Hmd]%list_elem_of_filter]%elem_of_app; [apply Hq; by right|].
    apply Hin in Hmd as (Hf & He & p & Hp & Hmd). split; [by eapply window_parent|].
    unfold stored. by rewrite (stored_key _ _ Hmd).
  - intros h [->%elem_of_singleton|Hh]%elem_of_union; [by exists curr|by apply Hv].
  - intros md [?|[->|?]%elem_of_cons]%Hi; [left; set_solver|left; set_solver|].
    right. apply elem_of_app. by left.
  - intros h md p mdp Hh Hmd Hp Hmdp Hf He. pose proof (stored_key _ _ Hmdp) as Hkey.
    destruct (decide (p ∈ V')) as [?|HpV]; [by left|]. right. apply elem_of_app.
    apply elem_of_union in Hh as [->%elem_of_singleton|Hh].
    + right. apply list_elem_of_filter. rewrite Hkey. split; [done|]. apply Hin.
      unfold stored in Hs. rewrite Hs in Hmd. injection Hmd as <-. eauto.
    + destruct (Hn h md p mdp Hh Hmd Hp Hmdp Hf He) as [?|[E|?]%elem_of_cons];
        [set_solver| |by left].
      destruct HpV. rewrite <- Hkey, E. set_solver.
Qed.

Lemma traversal_measure init curr queue V l :
  traversal init (curr :: queue, V) → md_block_hash curr ∉ V →
  get_parent_metadatas_above_block_number st curr earliest = Ok l →
  (measure (queue ++ filter (λ p, md_block_hash p ∉ {[md_block_hash curr]} ∪ V) l,
            {[md_block_hash curr]} ∪ V) < measure (curr :: queue, V))%nat.
Proof.
  intros [Hq _ _ _] Hnew Hl. destruct (Hq curr) as [_ Hs]; [by left|].
  destruct (parents_above curr Hs) as (l' & Hl' & Hlen & _). rewrite Hl in Hl'. injection Hl' as <-.
  pose proof (max_justifications_le _ _ Hs) as Hmax. unfold measure. cbn [fst snd].
  rewrite length_app. cbn [length].
  pose proof (length_filter (λ p, md_block_hash p ∉ {[md_block_hash curr]} ∪ V) l) as Hf.
  assert (size (dom s ∖ V) = S (size (dom s ∖ ({[md_block_hash curr]} ∪ V)))) as ->.
  { assert (dom s ∖ V = {[md_block_hash curr]} ∪ dom s ∖ ({[md_block_hash curr]} ∪ V)) as ->.
    { apply set_eq. intros x. rewrite elem_of_union, !elem_of_difference, elem_of_union, elem_of_singleton.
      destruct (decide (x = md_block_hash curr)) as [->|]; [|naive_solver].
      split; [by left|]. intros _. split; [apply elem_of_dom; by rewrite Hs|done]. }
    rewrite size_union by set_solver. by rewrite size_singleton. }
  nia.
Qed.

(** One round keeps the invariant and gets closer to the end; when it
    returns, it returns the right answer. *)
Lemma repeat_step_spec init q :
  traversal init q →
  match repeat_step normalize_signature_low_s st block_store keys earliest q with
  | inl q' => traversal init q' ∧ (measure q' < measure q)%nat
  | inr r => (r = Ok (Ok ()) ∧ q.1 = []) ∨
             (r = Ok (Err InvalidRepeatDeploy) ∧ ∃ md, in_window init md ∧ has_repeat md)
  end.
Proof.
  destruct q as [queue V]. intros Ht. destruct queue as [|curr queue]; cbn; [by left|].
  case_bool_decide as Hin.
  - split; [by eapply traversal_skip|]. unfold measure. cbn. lia.
  - destruct (tr_queue _ _ Ht curr) as [Hw Hs]; [by left|]. unfold get_block_unsafe.
    destruct (cp_blocks Hc _ _ Hs) as [b Hb]. rewrite Hb. cbn.
    pose proof (repeats_spec b) as Hr. destruct (repeats _ _ b).
    { right. split; [done|]. exists curr. split; [done|]. destruct Hr as [Hr _].
      destruct (Hr eq_refl) as (d & ? & ?). by exists b, d. }
    destruct (parents_above curr Hs) as (l & Hl & _). rewrite Hl. split.
    + eapply traversal_visit; [done| |done]. intros (b' & d & Hb' & Hd & Hk).
      rewrite Hb in Hb'. injection Hb' as <-. apply diff_false_true, Hr. eauto.
    + by apply (traversal_measure init).
Qed.

(** An empty queue: the whole window has been visited. *)
Lemma traversal_done init V md :
  (∀ md, md ∈ init → stored md) → traversal init ([], V) → in_window init md →
  md_block_hash md ∈ V ∧ stored md.
Proof.
  intros Hst [_ _ Hi Hn] Hw. cbn in *.
  induction Hw as [md Hmd|md p mdp Hw [IHv IHs] Hp Hmdp Hf He].
  - split; [|by apply Hst]. destruct (Hi md Hmd) as [?|?%elem_of_nil]; done.
  - pose proof (stored_key _ _ Hmdp) as Hkey. unfold stored. rewrite Hkey. split; [|done].
    destruct (Hn _ md p mdp IHv IHs Hp Hmdp Hf He) as [?|?%elem_of_nil]; done.
Qed.

Lemma traversal_result init :
  (∀ md, md ∈ init → stored md) →
  ∃ r, loop (repeat_step normalize_signature_low_s st block_store keys earliest)
         (repeat_fuel st init) (init, ∅) = Some r ∧
    ((r = Ok (Ok ()) ∧ ∀ md, in_window init md → ¬ has_repeat md) ∨
     (r = Ok (Err InvalidRepeatDeploy) ∧ ∃ md, in_window init md ∧ has_repeat md)).
Proof.
  intros Hst. set (step := repeat_step _ _ _ _ _).
  assert (traversal init (init, ∅)) as H0.
  { split; cbn; [|set_solver|by right|set_solver]. intros md Hmd. split; [by left|by apply Hst]. }
  assert (∀ q q', traversal init q → step q = inl q' → traversal init q' ∧ (measure q' < measure q)%nat)
    as Hstep.
  { intros q q' Hq E. pose proof (repeat_step_spec init q Hq) as Hs. unfold step in E.
    by rewrite E in Hs. }
  destruct (loop_terminates step (traversal init) measure Hstep (repeat_fuel st init) (init, ∅) H0)
    as [r Hr].
  { unfold measure, repeat_fuel. cbn [fst snd]. rewrite difference_empty_L, size_dom. lia. }
  exists r. split; [done|].
  refine (loop_inv step (traversal init) (λ r,
    (r = Ok (Ok ()) ∧ ∀ md, in_window init md → ¬ has_repeat md) ∨
    (r = Ok (Err InvalidRepeatDeploy) ∧ ∃ md, in_window init md ∧ has_repeat md))
    _ _ _ _ r H0 Hr); [intros q q' Hq E; by apply (Hstep q q')|].
  intros [queue V] r' Hq E. pose proof (repeat_step_spec init _ Hq) as Hs. unfold step in E.
  rewrite E in Hs. destruct Hs as [[-> Hnil]|?]; [left|by right]. split; [done|].
  cbn in Hnil. subst queue. intros md Hw. destruct (traversal_done init V md Hst Hq Hw) as [Hv Hs].
  destruct (tr_visited _ _ Hq _ Hv) as (md' & Hmd' & Hnr). unfold stored in Hs. by simplify_eq.
Qed.
End Traversal.

(** A deploy of [block] appears in a valid ancestor within the window. *)
Definition repeated_deploy (norm : text → bytes → bytes) (st : Storage)
    (block_store : gmap BlockHash BlockMessage) (block : BlockMessage) (threshold : Z) : Prop :=
  ∃ parents, get_parents_metadata st (from_block block) = Ok parents ∧
    ∃ md, in_window st (i64_wrap (i64_wrap (max_block_number_metadata parents + 1) - threshold))
            parents md ∧
      has_repeat norm block_store (deploy_keys norm block) md.

Lemma repeat_deploy_result norm (st : Storage) block_store block threshold :
  complete st block_store →
  (∀ j, j ∈ b_justifications block → is_Some (dag_lookup st j)) →
  ∃ r, repeat_deploy norm st block_store block threshold = Some (Ok r) ∧
    ((r = Ok () ∧ ¬ repeated_deploy norm st block_store block threshold) ∨
     (r = Err InvalidRepeatDeploy ∧ repeated_deploy norm st block_store block threshold)).
Proof.
  intros Hc Hj. destruct (get_parents_metadata_ok st (from_block block)) as (l & Hl & _ & Hin).
  { cbn. intros p Hp%elem_of_list_to_set. auto. }
  unfold repeat_deploy, repeated_deploy. rewrite Hl. cbn zeta.
  set (earliest := i64_wrap _). set (keys := deploy_keys norm block).
  destruct (traversal_result norm st block_store keys earliest Hc l) as (r & Hr & Hres).
  { intros md (_ & p & _ & Hp)%Hin. unfold stored. by rewrite (cp_keyed _ _ Hc _ _ Hp). }
  rewrite Hr. destruct Hres as [[-> Hn]|[-> Hx]].
  - exists (Ok ()). split; [done|]. left. split; [done|].
    intros (l' & [= <-] & md & Hw & Hrep). by apply (Hn md).
  - exists (Err InvalidRepeatDeploy). split; [done|]. right. split; [done|]. by exists l.
Qed.

(** *** The numbers of a block *)

(** The loop that keeps the maximum of [f] over the elements with [P]. *)
Lemma fold_max_spec {A} (P : A → bool) (f : A → Z) l n0 :
  let n := foldl (λ acc a, if P a then Z.max acc (f a) else acc) n0 l in
  n0 ≤ n ∧ (∀ a, a ∈ l → P a = true → f a ≤ n) ∧ (n = n0 ∨ ∃ a, a ∈ l ∧ P a = true ∧ f a = n).
Proof.
  revert n0. induction l as [|a l IH]; intros n0; cbn.
  { split; [lia|]. split; [by intros ? ?%elem_of_nil|by left]. }
  destruct (IH (if P a then Z.max n0 (f a) else n0)) as (Hle & Hall & Hex). cbn zeta in *.
  set (n := foldl _ _ l) in *. destruct (P a) eqn:Pa.
  - split; [lia|]. split; [intros x [->|?]%elem_of_cons; [lia|by apply Hall]|].
    destruct Hex as [->|(x & ? & ?)]; [|right; exists x; split; [by right|done]].
    destruct (Z.max_spec n0 (f a)) as [[? ->]|[? ->]]; [|by left].
    right. exists a. split; [by left|done].
  - split; [lia|]. split; [intros x [->|?]%elem_of_cons ?; [congruence|by apply Hall]|].
    destruct Hex as [->|(x & ? & ?)]; [by left|right; exists x; split; [by right|done]].
Qed.

(** A block's justifications with their metadata. *)
Definition justified (st : Storage) (block : BlockMessage) (md : BlockMetadata) : Prop :=
  ∃ j, j ∈ b_justifications block ∧ dag_lookup st j = Some md.

(** [n] is one more than the largest [f] of the justifications with [P], 0
    without any. *)
Definition next_of (st : Storage) (block : BlockMessage) (P : BlockMetadata → Prop)
    (f : BlockMetadata → Z) (n : Z) : Prop :=
  (∀ md, justified st block md → P md → f md < n) ∧
  (n = 0 ∨ ∃ md, justified st block md ∧ P md ∧ f md + 1 = n).

(** The stored numbers are in the range in which adding 1 is exact. *)
Definition numbers_in_range (st : Storage) : Prop :=
  ∀ h md, dag_lookup st h = Some md →
    0 ≤ md_block_num md < i64_max ∧ 0 ≤ md_seq_num md < i64_max.

Lemma next_of_spec st block (P : BlockMetadata → bool) f n :
  (∀ h md, dag_lookup st h = Some md → 0 ≤ f md < i64_max) →
  i64_wrap (foldl (λ acc md, if P md then Z.max acc (f md) else acc) (-1)
              (omap (dag_lookup st) (b_justifications block)) + 1) = n ↔
  next_of st block (λ md, P md = true) f n.
Proof.
  intros Hf. destruct (fold_max_spec P f (omap (dag_lookup st) (b_justifications block)) (-1))
    as (Hle & Hall & Hex). cbn zeta in *. set (m := foldl _ _ _) in *.
  assert (∀ md, md ∈ omap (dag_lookup st) (b_justifications block) ↔ justified st block md) as Hj
    by (intros md; apply list_elem_of_omap).
  setoid_rewrite Hj in Hall. setoid_rewrite Hj in Hex.
  assert (m < i64_max) as Hm.
  { destruct Hex as [->|(md & (j & _ & Hmd) & _ & <-)]; [done|]. by eapply Hf. }
  rewrite i64_wrap_id by (unfold_ints; lia). split.
  - intros <-. split; [intros md H1 H2; specialize (Hall md H1 H2); lia|].
    destruct Hex as [->|(md & ? & ? & ?)]; [by left|right; exists md; split_and!; [done..|lia]].
  - intros [Hlt Hn]. destruct Hex as [E|(md & Hmd & HP & E)].
    + destruct Hn as [?|(md & Hmd & HP & ?)]; [lia|]. specialize (Hall md Hmd HP).
      destruct Hmd as (j & _ & Hl). specialize (Hf _ _ Hl). lia.
    + specialize (Hlt md Hmd HP). destruct Hn as [->|(md' & Hmd' & HP' & <-)].
      * destruct Hmd as (j & _ & Hl). specialize (Hf _ _ Hl). lia.
      * specialize (Hall md' Hmd' HP'). lia.
Qed.

Section Numbers.
Context (st : Storage) (block : BlockMessage).
Hypothesis Hj : ∀ j, j ∈ b_justifications block → is_Some (dag_lookup st j).
Hypothesis Hr : numbers_in_range st.

Lemma block_number_spec :
  block_number st block = Ok (Ok ()) ∧
    next_of st block (λ md, validation_failed md = false) md_block_num (b_block_number block) ∨
  block_number st block = Ok (Err InvalidBlockNumber) ∧
    ¬ next_of st block (λ md, validation_failed md = false) md_block_num (b_block_number block).
Proof.
  pose proof (next_of_spec st block (λ md, negb (validation_failed md)) md_block_num
    (b_block_number block)) as Hs.
  unfold block_number. rewrite try_map_lookup by done. cbn zeta.
  assert (∀ md, negb (validation_failed md) = true ↔ validation_failed md = false) as Hn
    by (intros; apply negb_true_iff).
  unfold next_of in *. setoid_rewrite Hn in Hs. rewrite <- Hs by (intros h md ?; by eapply Hr).
  destruct (Z.eqb_spec (i64_wrap (foldl (λ acc md, if negb (validation_failed md)
    then Z.max acc (md_block_num md) else acc) (-1) (omap (dag_lookup st) (b_justifications block)) + 1))
    (b_block_number block)); [left|right]; done.
Qed.

Lemma sequence_number_spec :
  sequence_number st block = Ok (Ok ()) ∧
    next_of st block (λ md, md_sender md = b_sender block) md_seq_num (b_seq_num block) ∨
  sequence_number st block = Ok (Err InvalidSequenceNumber) ∧
    ¬ next_of st block (λ md, md_sender md = b_sender block) md_seq_num (b_seq_num block).
Proof.
  pose proof (next_of_spec st block (λ md, bool_decide (md_sender md = b_sender block)) md_seq_num
    (b_seq_num block)) as Hs.
  unfold sequence_number. rewrite try_map_lookup by done. cbn zeta.
  unfold next_of in *. setoid_rewrite bool_decide_eq_true in Hs.
  rewrite <- Hs by (intros h md ?; by eapply Hr).
  destruct (Z.eqb_spec (i64_wrap (foldl (λ acc md, if bool_decide (md_sender md = b_sender block)
    then Z.max acc (md_seq_num md) else acc) (-1) (omap (dag_lookup st) (b_justifications block)) + 1))
    (b_seq_num block)); [left|right]; done.
Qed.
End Numbers.

(** *** The summary of the checks *)

(** No justification has seen less than the message of its sender that the
    block's previous message already had as a parent. *)
Definition no_regression (st : Storage) (block : BlockMessage) : Prop :=
  let mm := msg_map (dag_message_state (representation st)) in
  ∀ justs prev, mapM (λ j, mm !! j) (b_justifications block) = Some justs →
    List.find (λ m, bool_decide (sender m = b_sender block)) justs = Some prev →
    ∀ j jp, j ∈ justs →
      List.find (λ m, bool_decide (sender m = sender j)) (msgs_at mm (parents prev)) = Some jp →
      seen jp ⊆ seen j.

(** A deploy that may be in a block with the given number. *)
Definition deploy_ok (number : Z) (shard_id : text) (threshold min_phlo_price : Z)
    (d : ProcessedDeploy) : Prop :=
  dd_shard_id (deploy_data d) = shard_id ∧
  number - threshold < valid_after_block_number (deploy_data d) ≤ number ∧
  min_phlo_price ≤ phlo_price (deploy_data d).

Record acceptable (norm : text → bytes → bytes) (st : Storage)
    (block_store : gmap BlockHash BlockMessage) (block : BlockMessage) (shard_id : text)
    (threshold min_phlo_price : Z) : Prop := {
  ac_regression : no_regression st block;
  ac_seq : next_of st block (λ md, md_sender md = b_sender block) md_seq_num (b_seq_num block);
  ac_number : next_of st block (λ md, validation_failed md = false) md_block_num
                (b_block_number block);
  ac_deploys : ∀ d, d ∈ deploys (b_state block) →
    deploy_ok (b_block_number block) shard_id threshold min_phlo_price d;
  ac_repeat : ¬ repeated_deploy norm st block_store block threshold;
}.

Lemma justification_regressions_spec st block :
  justification_regressions st block = Ok (Ok ()) ∧ no_regression st block ∨
  justification_regressions st block = Ok (Err JustificationRegression) ∧ ¬ no_regression st block.
Proof.
  unfold justification_regressions, check_justification_regression, no_regression. cbn zeta.
  set (mm := msg_map _).
  destruct (mapM (λ j, mm !! j) (b_justifications block)) as [justs|]; cbn; [|by left].
  destruct (List.find _ justs) as [prev|] eqn:Hprev; cbn.
  2:{ left. split; [done|]. intros js pv [= <-]. rewrite Hprev. done. }
  destruct (forallb _ justs) eqn:Hf.
  - left. split; [done|]. intros js pv [= <-]. rewrite Hprev. intros [= <-] j jp Hj Hjp.
    rewrite forallb_elem in Hf. specialize (Hf j Hj). rewrite Hjp in Hf.
    apply bool_decide_eq_true in Hf. set_solver.
  - right. split; [done|]. intros Hall. specialize (Hall justs prev eq_refl Hprev).
    apply not_true_iff_false in Hf. apply Hf, forallb_elem. intros j Hj.
    destruct (List.find _ (msgs_at mm (parents prev))) as [jp|] eqn:Hjp; [|done].
    specialize (Hall j jp Hj Hjp). apply bool_decide_eq_true. set_solver.
Qed.

(** Each check on the deploys is valid iff all deploys satisfy its condition. *)
Section DeployChecks.
Context (block : BlockMessage).
Notation ds := (deploys (b_state block)).

Lemma deploys_shard_identifier_spec shard_id :
  is_valid (deploys_shard_identifier block shard_id) = true ↔
  ∀ d, d ∈ ds → dd_shard_id (deploy_data d) = shard_id.
Proof.
  transitivity (forallb (λ d, bool_decide (dd_shard_id (deploy_data d) = shard_id)) ds = true).
  { unfold deploys_shard_identifier. by destruct (forallb _ ds). }
  rewrite forallb_elem. by setoid_rewrite bool_decide_eq_true.
Qed.

Lemma future_transaction_spec :
  is_valid (future_transaction block) = true ↔
  ∀ d, d ∈ ds → valid_after_block_number (deploy_data d) ≤ b_block_number block.
Proof.
  transitivity (existsb (λ d, b_block_number block <? valid_after_block_number (deploy_data d)) ds = false).
  { unfold future_transaction. by destruct (existsb _ ds). }
  rewrite existsb_not_elem. by setoid_rewrite Z.ltb_ge.
Qed.

Lemma transaction_expiration_spec threshold :
  0 ≤ b_block_number block ≤ i64_max → 0 ≤ threshold ≤ i64_max →
  is_valid (transaction_expiration block threshold) = true ↔
  ∀ d, d ∈ ds → b_block_number block - threshold < valid_after_block_number (deploy_data d).
Proof.
  intros Hn Ht. unfold transaction_expiration.
  assert (Refined.BlockHeight_sub (b_block_number block) threshold = b_block_number block - threshold)
    as -> by (unfold Refined.BlockHeight_sub; apply i64_wrap_id; unfold_ints; lia).
  transitivity (existsb (λ d, valid_after_block_number (deploy_data d)
                              <=? b_block_number block - threshold) ds = false).
  { cbn zeta. by destruct (existsb _ ds). }
  rewrite existsb_not_elem. by setoid_rewrite Z.leb_gt.
Qed.

Lemma check_phlo_price_spec min_phlo_price :
  is_valid (check_phlo_price block min_phlo_price) = true ↔
  ∀ d, d ∈ ds → min_phlo_price ≤ phlo_price (deploy_data d).
Proof.
  transitivity (forallb (λ d, min_phlo_price <=? phlo_price (deploy_data d)) ds = true).
  { unfold check_phlo_price. by destruct (forallb _ ds). }
  rewrite forallb_elem. by setoid_rewrite Z.leb_le.
Qed.

(** The four checks together. *)
Lemma deploy_checks_spec shard_id threshold min_phlo_price :
  0 ≤ b_block_number block ≤ i64_max → 0 ≤ threshold ≤ i64_max →
  List.find (λ status, negb (is_valid status))
    [deploys_shard_identifier block shard_id; future_transaction block;
     transaction_expiration block threshold; check_phlo_price block min_phlo_price] = None ↔
  ∀ d, d ∈ ds → deploy_ok (b_block_number block) shard_id threshold min_phlo_price d.
Proof.
  intros Hn Ht. transitivity
    (is_valid (deploys_shard_identifier block shard_id) = true ∧
     is_valid (future_transaction block) = true ∧
     is_valid (transaction_expiration block threshold) = true ∧
     is_valid (check_phlo_price block min_phlo_price) = true).
  - cbn [List.find]. destruct (is_valid (deploys_shard_identifier _ _)),
      (is_valid (future_transaction _)), (is_valid (transaction_expiration _ _)),
      (is_valid (check_phlo_price _ _)); cbn; intuition discriminate.
  - rewrite deploys_shard_identifier_spec, future_transaction_spec,
      transaction_expiration_spec, check_phlo_price_spec by done.
    unfold deploy_ok. split.
    + intros (H1 & H2 & H3 & H4) d Hd. auto.
    + intros H. split_and!; intros d Hd; destruct (H d Hd) as (? & [? ?] & ?); done.
Qed.
End DeployChecks.

(** The status reported by the checks is never [Valid]. *)
Lemma find_invalid l status :
  List.find (λ status, negb (is_valid status)) l = Some status → status ≠ Valid.
Proof. intros [_ H]%find_some. by intros ->. Qed.

(** The summary returns for every block whose ancestry is stored, and accepts
    exactly the acceptable blocks. *)
Lemma block_summary_spec norm st block_store block shard_id threshold min_phlo_price :
  complete st block_store → numbers_in_range st →
  (∀ j, j ∈ b_justifications block → is_Some (dag_lookup st j)) →
  0 ≤ b_block_number block ≤ i64_max → 0 ≤ threshold ≤ i64_max →
  ∃ r, block_summary norm st block_store block shard_id threshold min_phlo_price = Some (Ok r) ∧
    (r = Ok () ↔ acceptable norm st block_store block shard_id threshold min_phlo_price) ∧
    r ≠ Err Valid.
Proof.
  intros Hc Hr Hj Hn Ht. unfold block_summary.
  destruct (justification_regressions_spec st block) as [[-> H1]|[-> H1]].
  2:{ eexists. split; [reflexivity|]. split; [|done]. split; [done|]. by intros []. }
  destruct (sequence_number_spec st block Hj Hr) as [[-> H2]|[-> H2]].
  2:{ eexists. split; [reflexivity|]. split; [|done]. split; [done|]. by intros []. }
  destruct (block_number_spec st block Hj Hr) as [[-> H3]|[-> H3]].
  2:{ eexists. split; [reflexivity|]. split; [|done]. split; [done|]. by intros []. }
  cbn zeta. pose proof (deploy_checks_spec block shard_id threshold min_phlo_price Hn Ht) as Hd.
  destruct (List.find _ _) as [status|] eqn:E.
  { apply find_invalid in E. eexists. split; [reflexivity|]. split; [|congruence].
    split; [done|]. intros [_ _ _ Hall _]. by apply Hd in Hall. }
  destruct (repeat_deploy_result norm st block_store block threshold Hc Hj)
    as (r & -> & [[-> H4]|[-> H4]]); eexists; (split; [reflexivity|]); (split; [|done]).
  - split; [|done]. intros _. split; [done..|by apply Hd|done].
  - split; [done|]. by intros [].
Qed.
End Validate.
Import Validate.

(** ** Properties *)


(** Law 16, content addressing.  A block built by [unsigned_block_proto]
    passes the hash check, also after it is signed, and the hash does not
    depend on the signature; a block accepted by the check has as its hash the
    digest of its encoding without hash and signature. *)
Theorem block_hash_content_addressed to_bytes blake2b256 :
  (∀ version shard n v q pre post js bonds rd state sig,
     let b := unsigned_block_proto to_bytes blake2b256 version shard n v q pre post js bonds rd state in
     block_hash to_bytes blake2b256
       (mkBlock (b_version b) (b_shard_id b) (b_block_hash b) (b_block_number b) (b_sender b)
          (b_seq_num b) (pre_state_hash b) (post_state_hash b) (b_justifications b) (b_bonds b)
          (b_rejected_deploys b) (b_rejected_blocks b) (b_rejected_senders b) (b_state b)
          (b_sig_algorithm b) sig) = true) ∧
  (∀ b b', block_hash to_bytes blake2b256 b = true → block_hash to_bytes blake2b256 b' = true →
     cleared b = cleared b' → b_block_hash b = b_block_hash b').
Proof.
  unfold block_hash. split.
  - intros. cbn zeta. by apply bool_decide_eq_true.
  - intros b b' Hb Hb' E. apply bool_decide_eq_true in Hb. apply bool_decide_eq_true in Hb'.
    rewrite Hb, Hb'. unfold hash_block. by rewrite E.
Qed.

(** ** Concrete instance: the DAG of [BlockDagExample] *)
Module ValidateExample.
Import BlockDagExample.
Definition norm (_ : text) (s : bytes) : bytes := s.

Definition blocks : gmap BlockHash BlockMessage :=
  list_to_map ((λ md, (md_block_hash md, block_of md (default 0 (head (md_block_hash md)))))
                 <$> [genesis; b1; b2; b3]).

(** A child of [b3] with the deploy [d]. *)
Definition next (d : Z) : BlockMessage := block_of (meta 5 3 0 3 [4] [1]) d.

Definition complete_b (st : Storage) (bs : gmap BlockHash BlockMessage) : bool :=
  let s := store (block_metadata_store st) in
  forallb (λ '(h, md),
    bool_decide (md_block_hash md = h) &&
    forallb (λ p, bool_decide (is_Some (s !! p))) (set_iter (md_justifications md)) &&
    bool_decide (is_Some (bs !! h)) &&
    (0 <=? md_block_num md) && (md_block_num md <? i64_max) &&
    (0 <=? md_seq_num md) && (md_seq_num md <? i64_max)) (map_iter s).

Lemma complete_b_ok st bs : complete_b st bs = true → complete st bs ∧ numbers_in_range st.
Proof.
  unfold complete_b. cbn zeta. rewrite forallb_elem. intros H.
  assert (∀ h md, store (block_metadata_store st) !! h = Some md →
    md_block_hash md = h ∧
    (∀ p, p ∈ md_justifications md → is_Some (store (block_metadata_store st) !! p)) ∧
    is_Some (bs !! h) ∧ 0 ≤ md_block_num md < i64_max ∧ 0 ≤ md_seq_num md < i64_max) as Hall.
  { intros h md Hmd%elem_of_map_iter. specialize (H _ Hmd). cbn beta iota in H.
    rewrite !andb_true_iff, !bool_decide_eq_true, forallb_elem in H.
    destruct H as ((((((H1 & H2) & H3) & H4) & H5) & H6) & H7). split_and!; try done; try lia.
    intros p Hp. specialize (H2 p ltac:(by apply elem_of_set_iter)).
    by apply bool_decide_eq_true in H2. }
  split; [split|].
  - intros h md Hmd. by apply (Hall h md).
  - intros h md p Hmd. by apply (Hall h md Hmd).
  - intros h md Hmd. by apply (Hall h md).
  - intros h md Hmd. by apply (Hall h md).
Qed.

Lemma st3_complete : complete st3 blocks ∧ numbers_in_range st3.
Proof. apply complete_b_ok. vm_compute. reflexivity. Qed.

Definition accepted (r : option Checked) : bool :=
  match r with Some (Ok (Ok _)) => true | _ => false end.

End ValidateExample.
