(* ===== verification/Casper.v ===== *)
(** * Multi-parent Casper

    [casper/src/multi_parent_casper.rs] (pre-state of a block, full
    validation), the checkpoint of [casper/src/interpreter_util.rs], the merge
    scope of [casper/src/merging.rs] and the processing of one block in
    [casper/src/blocks/block_processor.rs].  Parameters: the bonds recorded in a
    state, the replay of a block and the merge of a scope (the Rholang runtime
    and its history).  The finalizer runs with a bound on its rounds; [None]
    is its exhaustion. *)

From Stdlib Require Import String Ascii.
From S2P Require Import Prelude BTree Refined Message Finalizer MessageState Block DagStore BlockDag Validate.
Import MessageMap Finalizer MessageState Block DagStore BlockDag Validate.

Module Casper.
(** The code points of a literal. *)
Definition str (s : string) : text :=
  (λ a, Z.of_nat (nat_of_ascii a)) <$> list_ascii_of_string s.

(** ** Merge scope *)
Record MergeScope := mkMergeScope {
  final_scope : gset BlockHash;
  conflict_scope : gset BlockHash;
}.

Definition resolve_fringe (dag_data : gmap BlockHash Msg) (fringe : gset BlockHash) :
    Result (gset Msg) ValidateFailure :=
  ms ←? try_map (λ h, ok_or (dag_data !! h) (FringeNotInDag h)) (set_iter fringe);
  Ok (list_to_set ms).

Definition ids_of (ms : gset Msg) : gset BlockHash := list_to_set (id <$> set_iter ms).

Definition from_fringes (merge_fringe final_fringe prune_fringe : gset BlockHash)
    (dag_data : gmap BlockHash Msg) :
    Result (MergeScope * option BlockHash) ValidateFailure :=
  merge_msgs ←? resolve_fringe dag_data merge_fringe;
  final_msgs ←? resolve_fringe dag_data final_fringe;
  prune_msgs ←? resolve_fringe dag_data prune_fringe;
  let c_scope := between dag_data merge_msgs final_msgs in
  let f_scope := between dag_data final_msgs prune_msgs in
  let f_scope_ids := ids_of f_scope in
  base_msg ←?
    (if bool_decide (f_scope = ∅) then
       match find_with_empty_parents dag_data with
       | Some genesis => Ok (Some (id genesis))
       | None => Err NoGenesisFound
       end
     else Ok None);
  let c_scope_ids := ids_of c_scope in
  let base : gset BlockHash := match base_msg with Some b => {[b]} | None => ∅ end in
  Ok (mkMergeScope f_scope_ids (c_scope_ids ∖ base), base_msg).

Definition from_dag (merge_fringe final_fringe : gset BlockHash)
    (child_map : gmap BlockHash (gset BlockHash)) (dag_data : gmap BlockHash Msg) :
    Result (MergeScope * option BlockHash) ValidateFailure :=
  let prune := ids_of (prune_fringe dag_data final_fringe child_map) in
  from_fringes merge_fringe final_fringe prune dag_data.

(** ** Pre-state of a block *)
Record ParentsMergedState := mkMergedState {
  pm_justifications : list BlockMetadata;
  max_block_num : Z;
  max_seq_nums : gmap Validator Z;
  pm_fringe : gset BlockHash;
  fringe_state : bytes;
  fringe_bonds_map : gmap Validator Z;
  fringe_rejected_deploys : gset bytes;
  pm_pre_state_hash : bytes;
  pm_rejected_deploys : gset bytes;
}.

Inductive ReplayFailure :=
| InternalError (msg : text)
| ReplayStatusMismatch (initial_failed replay_failed : bool)
| UnusedCommEvent (msg : text)
| ReplayCostMismatch (initial_cost replay_cost : Z)
| SystemDeployErrorMismatch (play_error replay_error : text).

(** A failed block keeps its metadata, marked as failed. *)
Inductive ValidateError :=
| ValidationFailed (meta : BlockMetadata) (status : BlockStatus)
| Internal (e : ValidateFailure).

Definition mark_failed (meta : BlockMetadata) : BlockMetadata :=
  mkMeta (md_block_hash meta) (md_block_num meta) (md_sender meta) (md_seq_num meta)
    (md_justifications meta) (md_bonds_map meta) true true (md_fringe meta)
    (fringe_state_hash meta) (member_of_fringe meta).

(** The state hash if the replay reproduces it. *)
Definition handle_errors (ts_hash : bytes) (result : Result bytes ReplayFailure) :
    Result (option bytes) ValidateFailure :=
  match result with
  | Ok computed => if bool_decide (ts_hash = computed) then Ok (Some computed) else Ok None
  | Err (InternalError cause) => Err (ReplayInternalError cause)
  | Err _ => Ok None
  end.

(** [empty_state_hash_fixed]. *)
Definition empty_state_hash_fixed : bytes :=
  Base16.unsafe_decode
    (str "0e5751c026e543b2e8ab2eb06099daa1d1e5df47778f7787faab45cdf12fe3a8").

(** [BlockMetadata { validated: true, validation_failed, fringe,
    fringe_state_hash, ..from_block(block) }]. *)
Definition checkpoint_meta (block : BlockMessage) (failed : bool) (fringe : gset BlockHash)
    (state : bytes) : BlockMetadata :=
  let m := from_block block in
  mkMeta (md_block_hash m) (md_block_num m) (md_sender m) (md_seq_num m)
    (md_justifications m) (md_bonds_map m) true failed fringe state (member_of_fringe m).

Section Casper.
(** [RuntimeManager::compute_bonds]. *)
Context (compute_bonds : StateHash → Result (gmap Validator Z) ValidateFailure).
(** [fork_replay_runtime] at a state, then [replay_block]. *)
Context (fork_and_replay :
  StateHash → BlockMessage → Result (Result bytes ReplayFailure) ValidateFailure).
(** [MergeScope::merge] into a base state: the merged state and the rejected
    deploys. *)
Context (merge : MergeScope → bytes → gmap (gset BlockHash) FringeData →
  Result (bytes * gset bytes) ValidateFailure).
Context (normalize_signature_low_s : text → bytes → bytes).
Context (st : Storage) (block_store : gmap BlockHash BlockMessage).
Notation repr := (representation st).
Notation mm := (msg_map (dag_message_state repr)).

(** The bonds of the first justification if all agree. *)
Definition agreed_bonds (justifications : list BlockMetadata) :
    Result (gmap Validator Z) ValidateFailure :=
  match md_bonds_map <$> justifications with
  | [] => Ok ∅
  | first :: others =>
      if existsb (λ other, negb (bool_decide (other = first))) others
      then Err BondsMapsDisagree else Ok first
  end.

(** The merge of the blocks between two fringes over the given state. *)
Definition merge_fringes (upper lower : gset BlockHash) (default_state : bytes) :
    Result (bytes * gset bytes) ValidateFailure :=
  scope ←? from_dag upper lower (r_child_map repr) mm;
  base_state ←?
    match snd scope with
    | Some h => b ←? get_block_unsafe block_store h; Ok (post_state_hash b)
    | None => Ok default_state
    end;
  merge (fst scope) base_state (fringe_states repr).

Definition get_pre_state_for_parents (fuel : nat) (parent_hashes : gset BlockHash) :
    option (Result ParentsMergedState ValidateFailure) :=
  if bool_decide (parent_hashes = ∅) then Some (Err NoParents)
  else
  match try_map (lookup_justification st) (set_iter parent_hashes) with
  | Err e => Some (Err e)
  | Ok justifications =>
  match try_map (λ h, ok_or (mm !! h) (ParentNotInMessageMap h)) (set_iter parent_hashes) with
  | Err e => Some (Err e)
  | Ok parent_msgs =>
  let parents : gset Msg := list_to_set parent_msgs in
  let prev_fringe := latest_fringe mm parents in
  let prev_fringe_hashes := ids_of prev_fringe in
  match fringe_states repr !! prev_fringe_hashes with
  | None => Some (Err (FringeStateNotAvailable prev_fringe_hashes))
  | Some fringe_record =>
  let prev_fringe_state := fd_state_hash fringe_record in
  match (if bool_decide (prev_fringe = ∅) then agreed_bonds justifications
         else compute_bonds prev_fringe_state) with
  | Err e => Some (Err e)
  | Ok bonds =>
  '(_, new_fringe_opt) ← calculate_finalization mm fuel parents bonds;
  let new_fringe_hashes := ids_of <$> new_fringe_opt in
  match match new_fringe_hashes with
        | Some fringe => merge_fringes fringe prev_fringe_hashes prev_fringe_state
        | None => Ok (prev_fringe_state, fd_rejected_deploys fringe_record)
        end with
  | Err e => Some (Err e)
  | Ok (fringe_st, fringe_rejected) =>
  let max_height :=
    default (-1) (max_by_key ord_gtb (λ n, n) (md_block_num <$> justifications)) in
  let max_seqs : gmap Validator Z :=
    foldl (λ acc m, <[md_sender m := md_seq_num m]> acc) ∅ justifications in
  let new_fringe := default prev_fringe_hashes new_fringe_hashes in
  match (if Nat.eqb (size parent_hashes) 1 then
           match set_iter parent_hashes with
           | [] => Err NoParents
           | parent :: _ => b ←? get_block_unsafe block_store parent; Ok (post_state_hash b, ∅)
           end
         else merge_fringes parent_hashes new_fringe fringe_st) with
  | Err e => Some (Err e)
  | Ok (pre_state, rejected) =>
      Some (Ok (mkMergedState justifications max_height max_seqs new_fringe fringe_st bonds
                  fringe_rejected pre_state rejected))
  end end end end end end.

(** The state on which a new block is proposed: the latest messages are its
    parents. *)
Definition get_pre_state_for_new_block (fuel : nat) :
    option (Result ParentsMergedState ValidateFailure) :=
  get_pre_state_for_parents fuel
    (list_to_set (id <$> map_values (latest_msgs (dag_message_state repr)))).

(** ** Checkpoint: recompute the pre-state and replay *)
Definition genesis_merged_state (block : BlockMessage) : ParentsMergedState :=
  mkMergedState [] 0 {[b_sender block := 0]} ∅ empty_state_hash_fixed (b_bonds block) ∅
    empty_state_hash_fixed ∅.

Definition non_failed_parents (block : BlockMessage) : gset BlockHash :=
  list_to_set (md_block_hash <$> filter (λ m, validation_failed m = false)
                 (omap (dag_lookup st) (b_justifications block))).

Definition validate_block_checkpoint (fuel : nat) (block : BlockMessage) :
    option (Result (BlockMetadata * Result bool BlockStatus) ValidateFailure) :=
  let parents_set := non_failed_parents block in
  pre ← (if bool_decide (parents_set = ∅) then Some (Ok (genesis_merged_state block))
         else get_pre_state_for_parents fuel parents_set);
  Some (pre_state ←? pre;
    result ←?
      (if negb (bool_decide (pre_state_hash block = pm_pre_state_hash pre_state)) then Ok (Ok false)
       else if negb (bool_decide (fringe_rejected_deploys pre_state = b_rejected_deploys block))
       then Ok (Err InvalidRejectedDeploy)
       else
         replay_result ←? fork_and_replay (pm_pre_state_hash pre_state) block;
         handled ←? handle_errors (post_state_hash block) replay_result;
         Ok (Ok (bool_decide (is_Some handled))));
    let failed := match result with Err _ => true | Ok valid => negb valid end in
    Ok (checkpoint_meta block failed (pm_fringe pre_state) (fringe_state pre_state), result)).

(** ** Full validation *)
Definition bonds_cache (block : BlockMessage) : Checked :=
  computed_bonds ←? compute_bonds (post_state_hash block);
  if bool_decide (b_bonds block = computed_bonds) then Ok (Ok ())
  else Ok (Err InvalidBondsCache).

(** One stage of [validate]: continue, or fail with the metadata [meta]. *)
Definition stage (meta : BlockMetadata) (r : Checked) (k : Result BlockMetadata ValidateError) :
    Result BlockMetadata ValidateError :=
  match r with
  | Ok (Ok _) => k
  | Ok (Err status) => Err (ValidationFailed (mark_failed meta) status)
  | Err e => Err (Internal e)
  end.

Definition validate_after_summary (block : BlockMessage)
    (checkpoint : Result (BlockMetadata * Result bool BlockStatus) ValidateFailure) :
    Result BlockMetadata ValidateError :=
  match checkpoint with
  | Err e => Err (Internal e)
  | Ok (block_metadata, Err status) =>
      Err (ValidationFailed (mark_failed block_metadata) status)
  | Ok (block_metadata, Ok false) =>
      Err (ValidationFailed (mark_failed block_metadata) InvalidStateHash)
  | Ok (block_metadata, Ok true) =>
      stage block_metadata (bonds_cache block)
        (stage block_metadata (neglected_invalid_block st block) (Ok block_metadata))
  end.

Definition validate (fuel : nat) (block : BlockMessage) (shard_id : text) (min_phlo_price : Z) :
    option (Result BlockMetadata ValidateError) :=
  summary ← block_summary normalize_signature_low_s st block_store block shard_id
              DEPLOY_LIFESPAN min_phlo_price;
  match summary with
  | Ok (Ok _) =>
      checkpoint ← validate_block_checkpoint fuel block;
      Some (validate_after_summary block checkpoint)
  | _ => Some (stage (from_block block) summary (Ok (from_block block)))
  end.

(** Validate a block and add it to the DAG, valid or failed. *)
Inductive ProcessError :=
| ProcessInternal (e : ValidateFailure)
| InsertFailed (e : DagError).

Definition validate_and_add_to_dag (blake2b256 : bytes → bytes) (fuel : nat)
    (block : BlockMessage) (shard_id : text) (min_phlo_price : Z) :
    option (Storage * Result (Result unit BlockStatus) ProcessError) :=
  result ← validate fuel block shard_id min_phlo_price;
  match result with
  | Err (Internal e) => Some (st, Err (ProcessInternal e))
  | Ok meta =>
      match dag_insert blake2b256 st meta block with
      | (st', Ok _) => Some (st', Ok (Ok ()))
      | (st', Err e) => Some (st', Err (InsertFailed e))
      end
  | Err (ValidationFailed meta status) =>
      match dag_insert blake2b256 st meta block with
      | (st', Ok _) => Some (st', Ok (Err status))
      | (st', Err e) => Some (st', Err (InsertFailed e))
      end
  end.

(** [last_finalized_block]. *)
Definition last_finalized_block : Result BlockMessage (option BlockHash) :=
  match last_finalized_block_hash repr with
  | None => Err None
  | Some hash => ok_or (block_store !! hash) (Some hash)
  end.
End Casper.

(** ** Helper lemmas *)

(** A block passes the check on its number only if its justifications are
    known. *)
Lemma block_number_justified st block :
  block_number st block = Ok (Ok ()) →
  ∀ j, j ∈ b_justifications block → is_Some (dag_lookup st j).
Proof.
  unfold block_number. destruct (try_map _ _) as [metas|e] eqn:E; [|done]. intros _ j Hj.
  apply try_map_Ok in E. apply list_elem_of_lookup in Hj as [i Hi].
  destruct (Forall2_lookup_l _ _ _ _ _ E Hi) as (md & _ & Hmd).
  unfold lookup_justification in Hmd. by destruct (dag_lookup st j); eauto.
Qed.

Lemma block_summary_number norm st block_store block shard_id threshold min_phlo_price :
  block_summary norm st block_store block shard_id threshold min_phlo_price = Some (Ok (Ok ())) →
  block_number st block = Ok (Ok ()).
Proof.
  unfold block_summary. destruct (justification_regressions st block) as [[[]|]|]; [|done..].
  destruct (sequence_number st block) as [[[]|]|]; [|done..].
  by destruct (block_number st block) as [[[]|]|].
Qed.

(** A justification that failed and whose sender is still bonded. *)
Definition neglects (st : Storage) (block : BlockMessage) : Prop :=
  ∃ md stake, justified st block md ∧ validation_failed md = true ∧
    b_bonds block !! md_sender md = Some stake ∧ 0 < stake.

Lemma neglected_invalid_block_spec st block :
  neglected_invalid_block st block = Ok (Ok ()) ∧ ¬ neglects st block ∨
  neglected_invalid_block st block = Ok (Err NeglectedInvalidBlock) ∧ neglects st block.
Proof.
  unfold neglected_invalid_block. cbn zeta. destruct (existsb _ _) eqn:E; [right|left]; (split; [done|]).
  - apply existsb_elem in E as (v & Hv & Hs).
    apply list_elem_of_fmap in Hv as (md & -> & [Hf Hmd]%list_elem_of_filter).
    destruct (b_bonds block !! md_sender md) as [stake|] eqn:Hb; [|done].
    exists md, stake. split_and!; [by apply list_elem_of_omap|done|done|lia].
  - intros (md & stake & Hj & Hf & Hb & Hs). rewrite existsb_not_elem in E.
    specialize (E (md_sender md)). rewrite Hb in E.
    assert (0 <? stake = false); [|lia]. apply E, list_elem_of_fmap. exists md. split; [done|].
    apply list_elem_of_filter. split; [done|]. by apply list_elem_of_omap.
Qed.

(** The metadata of the checkpoint identifies the block. *)
Definition describes (md : BlockMetadata) (block : BlockMessage) : Prop :=
  md_block_hash md = b_block_hash block ∧ md_block_num md = b_block_number block ∧
  md_sender md = b_sender block ∧ md_seq_num md = b_seq_num block ∧
  md_justifications md = list_to_set (b_justifications block) ∧ md_bonds_map md = b_bonds block.

Lemma checkpoint_describes cb far mg st bs fuel block md r :
  validate_block_checkpoint cb far mg st bs fuel block = Some (Ok (md, r)) →
  describes md block ∧ validated md = true ∧ (r = Ok true ↔ validation_failed md = false).
Proof.
  unfold validate_block_checkpoint. destruct (if bool_decide _ then _ else _) as [[pre|]|]; [|done..].
  cbn. destruct (if negb _ then _ else _) as [res|]; [|done]. intros [= <- <-].
  split; [by split_and!|]. split; [done|]. by destruct res as [[]|].
Qed.

(** *** The checkpoint by its conditions *)
Section Checkpoint.
Context (cb : StateHash → Result (gmap Validator Z) ValidateFailure).
Context (far : StateHash → BlockMessage → Result (Result bytes ReplayFailure) ValidateFailure).
Context (mg : MergeScope → bytes → gmap (gset BlockHash) FringeData →
  Result (bytes * gset bytes) ValidateFailure).
Context (st : Storage) (bs : gmap BlockHash BlockMessage).
Notation mm := (msg_map (dag_message_state (representation st))).
Implicit Types (P F : gset BlockHash) (R : gset bytes) (S : bytes).

(** [h] is a justification of the block that did not fail validation. *)
Definition valid_parent (block : BlockMessage) (h : BlockHash) : Prop :=
  ∃ md, justified st block md ∧ validation_failed md = false ∧ md_block_hash md = h.

(** The bonds that finalization counts: those recorded in the state of the
    previous fringe, or before any fringe those all parents agree on. *)
Definition bonds_of P (prev : gset Msg) S (bonds : gmap Validator Z) : Prop :=
  (prev = ∅ ∧ ∀ h, h ∈ P → ∃ md, dag_lookup st h = Some md ∧ md_bonds_map md = bonds) ∨
  (prev ≠ ∅ ∧ cb S = Ok bonds).

(** [F] is the fringe that the parents [P] finalize, [S] its state and [R] its
    rejected deploys: those recorded for the latest fringe the parents know,
    or the merge of the newly finalized blocks into that state. *)
Definition fringe_of (fuel : nat) P F S R : Prop :=
  ∃ (parents : gset Msg) record bonds parent_fringe,
    (∀ h, h ∈ P → is_Some (dag_lookup st h) ∧ is_Some (mm !! h)) ∧
    (∀ m, m ∈ parents ↔ ∃ h, h ∈ P ∧ mm !! h = Some m) ∧
    let prev := latest_fringe mm parents in
    fringe_states (representation st) !! ids_of prev = Some record ∧
    bonds_of P prev (fd_state_hash record) bonds ∧
    ((calculate_finalization mm fuel parents bonds = Some (parent_fringe, None) ∧
      F = ids_of prev ∧ S = fd_state_hash record ∧ R = fd_rejected_deploys record) ∨
     (∃ next, calculate_finalization mm fuel parents bonds = Some (parent_fringe, Some next) ∧
      F = ids_of next ∧ merge_fringes mg st bs F (ids_of prev) (fd_state_hash record) = Ok (S, R))).

(** The state a block starts from, with the fringe it finalizes: the empty
    state without valid parents, the post-state of the only valid parent, and
    else the merge of the valid parents into the state of the fringe. *)
Inductive starts_from (fuel : nat) (block : BlockMessage) :
    StateHash → gset BlockHash → bytes → gset bytes → Prop :=
| starts_empty :
    (∀ h, ¬ valid_parent block h) →
    starts_from fuel block empty_state_hash_fixed ∅ empty_state_hash_fixed ∅
| starts_single h b F S R :
    (∀ x, valid_parent block x ↔ x = h) → fringe_of fuel {[h]} F S R → bs !! h = Some b →
    starts_from fuel block (post_state_hash b) F S R
| starts_merged P F S R pre rejected :
    (∀ x, valid_parent block x ↔ x ∈ P) → (2 ≤ size P)%nat → fringe_of fuel P F S R →
    merge_fringes mg st bs P F S = Ok (pre, rejected) →
    starts_from fuel block pre F S R.

(** The block names the state it starts from and the deploys rejected by its
    fringe, and replays from that state to its post-state; the metadata of a
    valid block with that fringe is [md]. *)
Definition reproduces (fuel : nat) (block : BlockMessage) (md : BlockMetadata) : Prop :=
  starts_from fuel block (pre_state_hash block) (md_fringe md) (fringe_state_hash md)
    (b_rejected_deploys block) ∧
  far (pre_state_hash block) block = Ok (Ok (post_state_hash block)) ∧
  describes md block ∧ validated md = true ∧ validation_failed md = false ∧
  member_of_fringe md = None.

Lemma elem_of_non_failed_parents block h :
  h ∈ non_failed_parents st block ↔ valid_parent block h.
Proof.
  unfold non_failed_parents, valid_parent, justified.
  rewrite elem_of_list_to_set, list_elem_of_fmap.
  setoid_rewrite list_elem_of_filter. setoid_rewrite list_elem_of_omap. naive_solver.
Qed.

(** Looking up every element of [P] succeeds if every element is present; the
    results are then those of the elements. *)
Lemma try_map_set_1 {B E} (f : BlockHash → option B) (e : BlockHash → E) P l :
  try_map (λ h, ok_or (f h) (e h)) (set_iter P) = Ok l →
  (∀ h, h ∈ P → is_Some (f h)) ∧ ∀ y, y ∈ l ↔ ∃ h, h ∈ P ∧ f h = Some y.
Proof.
  intros Hf%try_map_Ok.
  assert (∀ h y, ok_or (f h) (e h) = Ok y → f h = Some y) as Hok
    by (intros h y; destruct (f h); cbn; naive_solver).
  assert (∀ h, h ∈ P → ∃ y, y ∈ l ∧ f h = Some y) as Hin.
  { intros h [i Hi]%elem_of_set_iter%list_elem_of_lookup.
    destruct (Forall2_lookup_l _ _ _ _ _ Hf Hi) as (y & Hy & ?%Hok).
    exists y. split; [by eapply list_elem_of_lookup_2|done]. }
  split; [intros h Hh; destruct (Hin h Hh) as (? & _ & ?); eauto|]. intros y. split.
  - intros [i Hi]%list_elem_of_lookup. destruct (Forall2_lookup_r _ _ _ _ _ Hf Hi) as (h & Hh & ?%Hok).
    exists h. split; [|done]. by apply elem_of_set_iter, list_elem_of_lookup_2 with i.
  - intros (h & Hh & Hy). destruct (Hin h Hh) as (? & ? & ?). congruence.
Qed.

Lemma try_map_set_2 {B E} (f : BlockHash → option B) (e : BlockHash → E) P :
  (∀ h, h ∈ P → is_Some (f h)) → ∃ l, try_map (λ h, ok_or (f h) (e h)) (set_iter P) = Ok l.
Proof.
  intros HP. destruct (mapM_is_Some_2 f (set_iter P)) as [l Hf%mapM_Some_1].
  { apply Forall_forall. intros h Hh%elem_of_set_iter. by apply HP. }
  exists l. apply try_map_Ok. eapply Forall2_impl; [exact Hf|]. intros h y E'. cbn in E'. by rewrite E'.
Qed.

Lemma agreed_bonds_Ok (js : list BlockMetadata) bonds :
  js ≠ [] → agreed_bonds js = Ok bonds ↔ ∀ md, md ∈ js → md_bonds_map md = bonds.
Proof.
  destruct js as [|md0 js]; [done|]. intros _. unfold agreed_bonds. cbn.
  destruct (existsb _ _) eqn:E.
  - split; [done|]. intros H. apply existsb_elem in E as (b & Hb & Hne).
    apply list_elem_of_fmap in Hb as (md & -> & Hmd). apply negb_true_iff, bool_decide_eq_false in Hne.
    destruct Hne. rewrite (H md), (H md0); [done|by left|by right].
  - split.
    + intros [= <-] md [->|Hmd]%elem_of_cons; [done|].
      destruct (decide (md_bonds_map md = md_bonds_map md0)); [done|]. exfalso.
      apply not_true_iff_false in E. apply E, existsb_elem. exists (md_bonds_map md).
      split; [by apply list_elem_of_fmap_2|]. by apply negb_true_iff, bool_decide_eq_false.
    + intros H. f_equal. apply H. by left.
Qed.

Lemma bonds_of_spec P (prev : gset Msg) S bonds js :
  P ≠ ∅ → (∀ md, md ∈ js ↔ ∃ h, h ∈ P ∧ dag_lookup st h = Some md) →
  (∀ h, h ∈ P → is_Some (dag_lookup st h)) →
  (if bool_decide (prev = ∅) then agreed_bonds js else cb S) = Ok bonds ↔ bonds_of P prev S bonds.
Proof.
  intros [h0 Hh0]%set_choose_L Hjs Hin. unfold bonds_of. case_bool_decide as Hp; [|naive_solver].
  destruct (Hin _ Hh0) as [md0 Hmd0].
  assert (md0 ∈ js) as Hm by (apply Hjs; eauto).
  rewrite agreed_bonds_Ok by (intros ->; by apply elem_of_nil in Hm). split.
  - intros H. left. split; [done|]. intros h Hh. destruct (Hin _ Hh) as [md Hmd]. exists md.
    split; [done|]. apply H, Hjs. eauto.
  - intros [[_ H]|[? _]]; [|done]. intros md (h & Hh & Hmd)%Hjs.
    destruct (H _ Hh) as (? & ? & ?). congruence.
Qed.

(** What is returned as the pre-state of the parents [P]. *)
Definition parents_pre P F S (pre : StateHash) : Prop :=
  (∃ h b, P = {[h]} ∧ bs !! h = Some b ∧ pre = post_state_hash b) ∨
  (size P ≠ 1%nat ∧ ∃ rejected, merge_fringes mg st bs P F S = Ok (pre, rejected)).

Lemma parents_pre_spec P F S pre :
  P ≠ ∅ →
  (∃ rejected,
    (if Nat.eqb (size P) 1 then
       match set_iter P with
       | [] => Err NoParents
       | parent :: _ => b ←? get_block_unsafe bs parent; Ok (post_state_hash b, ∅)
       end
     else merge_fringes mg st bs P F S) = Ok (pre, rejected)) ↔ parents_pre P F S pre.
Proof.
  intros HP. unfold parents_pre. destruct (Nat.eqb_spec (size P) 1) as [H1|H1].
  - destruct (size_1_elem_of P H1) as [h ->%leibniz_equiv]. rewrite set_iter_singleton.
    unfold get_block_unsafe. split.
    + intros [R E]. left. exists h. destruct (bs !! h) as [b|]; [|done]. injection E as <- _. eauto.
    + intros [(h' & b & Hh & Hb & ->)|[? _]]; [|done].
      apply (inj singleton) in Hh as <-. rewrite Hb. cbn. eauto.
  - split; [by auto|]. intros [(h & b & -> & _)|[_ ?]]; [|done]. by rewrite size_singleton in H1.
Qed.

Lemma pre_state_parents_1 fuel P F S R pre :
  P ≠ ∅ →
  (∃ p, get_pre_state_for_parents cb mg st bs fuel P = Some (Ok p) ∧
    pm_fringe p = F ∧ fringe_state p = S ∧ fringe_rejected_deploys p = R ∧
    pm_pre_state_hash p = pre) →
  fringe_of fuel P F S R ∧ parents_pre P F S pre.
Proof.
  intros HP. unfold get_pre_state_for_parents, fringe_of, lookup_justification.
  rewrite bool_decide_eq_false_2 by done.
  intros (p & E & HF & HS & HR & Hpre).
  destruct (try_map _ (set_iter P)) as [js|] eqn:Hjs; [|done].
  apply try_map_set_1 in Hjs as [Hin Hjs].
  destruct (try_map _ (set_iter P)) as [msgs|] eqn:Hms; [|done].
  apply try_map_set_1 in Hms as [Hin' Hms]. cbn zeta in E.
  destruct (fringe_states _ !! _) as [record|] eqn:Hrec; [|done].
  destruct (if bool_decide (latest_fringe _ _ = ∅) then _ else _) as [bonds|] eqn:Hb; [|done].
  apply (bonds_of_spec P) in Hb; [|done..].
  destruct (calculate_finalization _ _ _ _) as [[parent_fringe nf]|] eqn:Hfin; [|done]. cbn in E.
  destruct (match ids_of <$> nf with Some _ => _ | None => _ end) as [[S' R']|] eqn:Hm; [|done].
  destruct (if Nat.eqb (size P) 1 then _ else _) as [[pre' rej]|] eqn:Hp; [|done].
  injection E as <-. cbn in HF, HS, HR, Hpre. subst S' R' pre'.
  assert (parents_pre P F S pre) as Hpp by (apply parents_pre_spec; [done|]; rewrite <- HF; eauto).
  split; [|done]. exists (list_to_set msgs), record, bonds, parent_fringe.
  split; [by auto|]. split; [intros m; by rewrite elem_of_list_to_set|]. cbn zeta.
  split; [done|]. split; [done|].
  destruct nf as [next|]; cbn in *; [right; exists next; by subst F|left].
  injection Hm as <- <-. by subst F.
Qed.

Lemma pre_state_parents_2 fuel P F S R pre :
  P ≠ ∅ → fringe_of fuel P F S R ∧ parents_pre P F S pre →
  (∃ p, get_pre_state_for_parents cb mg st bs fuel P = Some (Ok p) ∧
    pm_fringe p = F ∧ fringe_state p = S ∧ fringe_rejected_deploys p = R ∧
    pm_pre_state_hash p = pre).
Proof.
  intros HP. unfold get_pre_state_for_parents, fringe_of, lookup_justification.
  rewrite bool_decide_eq_false_2 by done.
  intros [(parents & record & bonds & parent_fringe & Hin & Hpar & Hrec & Hb & Hnf) Hpre].
  destruct (try_map_set_2 (dag_lookup st) MissingJustification P) as [js Hjs]; [naive_solver|].
  destruct (try_map_set_2 (λ h, mm !! h) ParentNotInMessageMap P) as [msgs Hms]; [naive_solver|].
  rewrite Hjs, Hms. apply try_map_set_1 in Hjs as [Hin1 Hjs]. apply try_map_set_1 in Hms as [_ Hms].
  assert (list_to_set msgs = parents) as ->.
  { apply set_eq. intros m. by rewrite elem_of_list_to_set, Hms, Hpar. }
  cbn zeta. rewrite Hrec. apply (bonds_of_spec _ _ _ _ js HP Hjs Hin1) in Hb. rewrite Hb.
  apply parents_pre_spec in Hpre as [rej Hpre]; [|done].
  destruct Hnf as [(-> & -> & -> & ->)|(next & -> & -> & Hm)]; cbn; [|rewrite Hm];
    rewrite Hpre; eexists; (split; [reflexivity|done]).
Qed.

Lemma starts_from_spec fuel block pre F S R :
  (∃ p, (if bool_decide (non_failed_parents st block = ∅) then Some (Ok (genesis_merged_state block))
         else get_pre_state_for_parents cb mg st bs fuel (non_failed_parents st block)) = Some (Ok p) ∧
    pm_fringe p = F ∧ fringe_state p = S ∧ fringe_rejected_deploys p = R ∧
    pm_pre_state_hash p = pre) ↔
  starts_from fuel block pre F S R.
Proof.
  pose proof (elem_of_non_failed_parents block) as Hv.
  assert (∀ P, (∀ x, valid_parent block x ↔ x ∈ P) → non_failed_parents st block = P) as HvP.
  { intros P HP. apply set_eq. intros x. by rewrite Hv, HP. }
  assert (∀ h, (∀ x, valid_parent block x ↔ x = h) → non_failed_parents st block = {[h]}) as Hv1.
  { intros h Hh. apply HvP. intros x. by rewrite Hh, elem_of_singleton. }
  case_bool_decide as He.
  - split.
    + intros (p & [= <-] & <- & <- & <- & <-). apply starts_empty. intros h Hh%Hv. set_solver.
    + intros [Hno|h b ? ? ? Hone%Hv1 _ _|P ? ? ? ? rej HP%HvP Hsz _ _].
      * eexists. split; [reflexivity|done].
      * set_solver.
      * rewrite <- HP, He, size_empty in Hsz. lia.
  - split.
    + intros [Hf Hp]%pre_state_parents_1; [|done].
      destruct Hp as [(h & b & E & Hb & ->)|[Hsz [rej Hm]]].
      * rewrite E in Hf. apply (starts_single _ _ h); [|done..]. intros x.
        by rewrite <- Hv, E, elem_of_singleton.
      * apply (starts_merged _ _ (non_failed_parents st block) _ _ _ _ rej); [done| |done..].
        assert (size (non_failed_parents st block) ≠ 0%nat) by (intros ?%size_empty_inv%leibniz_equiv; done). lia.
    + intros Hs. apply pre_state_parents_2; [done|]. revert Hs.
      intros [Hno|h b ? ? ? Hone%Hv1 Hf Hb|P ? ? ? ? rej HP%HvP Hsz Hf Hm].
      * destruct He. apply set_eq. intros x. rewrite Hv. split; [by intros ?%Hno|set_solver].
      * rewrite Hone. split; [done|]. left. by exists h, b.
      * rewrite HP. split; [done|]. right. split; [lia|by exists rej].
Qed.

(** The checkpoint passes exactly on the blocks that reproduce their state. *)
Lemma checkpoint_reproduces fuel block md :
  validate_block_checkpoint cb far mg st bs fuel block = Some (Ok (md, Ok true)) ↔
  reproduces fuel block md.
Proof.
  unfold validate_block_checkpoint, reproduces. rewrite <- starts_from_spec. cbn zeta.
  set (pre := if bool_decide _ then _ else _). split.
  - destruct pre as [[p|]|]; [|done..]. cbn. intros H.
    case_bool_decide as Hpre; cbn in H; [|done].
    case_bool_decide as Hrej; cbn in H; [|done].
    destruct (far _ block) as [r|] eqn:Hfar; [|done]. cbn in H.
    destruct (handle_errors _ r) as [[c|]|] eqn:Hh; [|done..]. injection H as <-.
    assert (r = Ok (post_state_hash block)) as ->.
    { destruct r as [c'|[]]; cbn in Hh; try done. case_bool_decide; congruence. }
    rewrite <- Hpre in Hfar. split; [by exists p|]. split; [done|]. by split_and!.
  - intros ((p & -> & HF & HS & HR & Hp) & Hfar & (? & ? & ? & ? & ? & ?) & ? & ? & ?). cbn.
    rewrite Hp, bool_decide_eq_true_2, HR, bool_decide_eq_true_2 by done. cbn.
    rewrite Hfar. cbn. rewrite bool_decide_eq_true_2 by done. cbn. rewrite HF, HS.
    destruct md. cbn in *. subst. done.
Qed.
End Checkpoint.

(** What [validate] accepts. *)
Section Accept.
Context (cb : StateHash → Result (gmap Validator Z) ValidateFailure).
Context (far : StateHash → BlockMessage → Result (Result bytes ReplayFailure) ValidateFailure).
Context (mg : MergeScope → bytes → gmap (gset BlockHash) FringeData →
  Result (bytes * gset bytes) ValidateFailure).
Context (norm : text → bytes → bytes) (st : Storage) (bs : gmap BlockHash BlockMessage).

Lemma validate_after_summary_Ok block cp md :
  validate_after_summary cb st block cp = Ok md ↔
  cp = Ok (md, Ok true) ∧ cb (post_state_hash block) = Ok (b_bonds block) ∧ ¬ neglects st block.
Proof.
  unfold validate_after_summary. destruct cp as [[md' [[]|]]|]; try naive_solver.
  unfold bonds_cache. destruct (cb _) as [bonds|]; [|cbn; naive_solver].
  case_bool_decide as Hb; cbn; [|naive_solver].
  destruct (neglected_invalid_block_spec st block) as [[-> Hn]|[-> Hn]]; cbn; naive_solver.
Qed.

Lemma validate_Ok fuel block shard_id min_phlo_price md :
  validate cb far mg norm st bs fuel block shard_id min_phlo_price = Some (Ok md) ↔
  block_summary norm st bs block shard_id DEPLOY_LIFESPAN min_phlo_price = Some (Ok (Ok ())) ∧
  validate_block_checkpoint cb far mg st bs fuel block = Some (Ok (md, Ok true)) ∧
  cb (post_state_hash block) = Ok (b_bonds block) ∧ ¬ neglects st block.
Proof.
  unfold validate.
  destruct (block_summary _ _ _ _ _ _ _) as [[[[]|status]|e]|]; cbn; try naive_solver.
  destruct (validate_block_checkpoint _ _ _ _ _ _ _) as [cp|]; cbn; [|naive_solver].
  split.
  - intros (-> & ? & ?)%(inj Some)%validate_after_summary_Ok. done.
  - intros (_ & [= ->] & ? & ?). f_equal. by apply validate_after_summary_Ok.
Qed.

Lemma validate_Failed fuel block shard_id min_phlo_price md status :
  validate cb far mg norm st bs fuel block shard_id min_phlo_price
    = Some (Err (ValidationFailed md status)) →
  describes md block ∧ validated md = true ∧ validation_failed md = true.
Proof.
  unfold validate.
  destruct (block_summary _ _ _ _ _ _ _) as [[[[]|s]|e]|]; cbn; try done.
  - destruct (validate_block_checkpoint _ _ _ _ _ _ _) as [cp|] eqn:E; cbn; [|done].
    intros [= H]. revert H. unfold validate_after_summary.
    destruct cp as [[md' r]|]; [|done]. apply checkpoint_describes in E as [Hd _].
    destruct r as [[]|].
    + unfold stage. destruct (bonds_cache cb block) as [[[]|]|]; [|by intros [= <- <-]|done].
      destruct (neglected_invalid_block st block) as [[[]|]|]; [done|by intros [= <- <-]|done].
    + by intros [= <- <-].
    + by intros [= <- <-].
  - intros [= <- <-]. done.
Qed.
End Accept.

(** *** The merge scope *)

(** A fringe member has seen the block [x] of the map. *)
Definition fringe_sees (mm : gmap BlockHash Msg) (F : gset BlockHash) (x : BlockHash) : Prop :=
  is_Some (mm !! x) ∧ ∃ h m, h ∈ F ∧ mm !! h = Some m ∧ x ∈ seen m.

Section Scope.
Context (mm : gmap BlockHash Msg).
Hypothesis Hkey : ∀ i m, mm !! i = Some m → id m = i.

Lemma resolve_fringe_Ok F ms :
  resolve_fringe mm F = Ok ms → ∀ m, m ∈ ms ↔ ∃ h, h ∈ F ∧ mm !! h = Some m.
Proof.
  unfold resolve_fringe. destruct (try_map _ _) as [l|] eqn:E; [|done]. intros [= <-] m.
  rewrite elem_of_list_to_set. apply try_map_Ok in E. split.
  - intros [i Hi]%list_elem_of_lookup. destruct (Forall2_lookup_r _ _ _ _ _ E Hi) as (h & Hh & Hm).
    exists h. split; [apply elem_of_set_iter; by eapply list_elem_of_lookup_2|].
    by destruct (mm !! h); simplify_eq/=.
  - intros (h & Hh%elem_of_set_iter & Hm). apply list_elem_of_lookup in Hh as [i Hi].
    destruct (Forall2_lookup_l _ _ _ _ _ E Hi) as (m' & Hm' & Hok). rewrite Hm in Hok.
    simplify_eq/=. by eapply list_elem_of_lookup_2.
Qed.

Lemma elem_of_ids_between upper lower U L x :
  resolve_fringe mm U = Ok upper → resolve_fringe mm L = Ok lower →
  x ∈ ids_of (between mm upper lower) ↔ fringe_sees mm U x ∧ ¬ fringe_sees mm L x.
Proof.
  intros HU HL. pose proof (resolve_fringe_Ok _ _ HU) as HU'. pose proof (resolve_fringe_Ok _ _ HL) as HL'.
  unfold ids_of. rewrite elem_of_list_to_set, list_elem_of_fmap. setoid_rewrite elem_of_set_iter.
  setoid_rewrite elem_of_between. unfold fringe_sees. split.
  - intros (m & -> & (b & i & (h & Hh & Hb)%HU' & Hi & Hm) & Hno). pose proof (Hkey _ _ Hm) as ->.
    split; [split; [by eauto|by eauto 10]|]. intros (_ & h' & m' & Hh' & Hm' & Hs).
    by apply (Hno m' i); [apply HL'; eauto|done|].
  - intros ([[m Hm] (h & mh & Hh & Hmh & Hs)] & Hno). exists m. pose proof (Hkey _ _ Hm) as Hid.
    split; [done|]. split; [exists mh, x; split; [apply HU'; eauto|done]|].
    intros b i (h' & Hh' & Hb)%HL' Hi Hi'. apply Hno. split; [by eauto|].
    exists h', b. pose proof (Hkey _ _ Hi') as Hid'. rewrite Hid in Hid'. by subst i.
Qed.

Lemma ids_of_empty (ms : gset Msg) : ids_of ms = ∅ ↔ ms = ∅.
Proof.
  unfold ids_of. split; [|intros ->; by rewrite set_iter_empty].
  intros E. apply set_eq. intros m. split; [|set_solver]. intros Hm. exfalso.
  assert (id m ∈ (∅ : gset BlockHash)) as H%elem_of_empty; [|done].
  rewrite <- E. apply elem_of_list_to_set, list_elem_of_fmap_2. by apply elem_of_set_iter.
Qed.

Lemma from_fringes_spec M F P scope base :
  from_fringes M F P mm = Ok (scope, base) →
  (∀ x, x ∈ final_scope scope ↔ fringe_sees mm F x ∧ ¬ fringe_sees mm P x) ∧
  (∀ x, x ∈ conflict_scope scope ↔
     fringe_sees mm M x ∧ ¬ fringe_sees mm F x ∧ base ≠ Some x) ∧
  match base with
  | Some g => final_scope scope = ∅ ∧ ∃ m, mm !! g = Some m ∧ parents m = ∅
  | None => final_scope scope ≠ ∅
  end.
Proof.
  unfold from_fringes. destruct (resolve_fringe mm M) as [mM|] eqn:EM; [|done].
  destruct (resolve_fringe mm F) as [mF|] eqn:EF; [|done].
  destruct (resolve_fringe mm P) as [mP|] eqn:EP; [|done]. cbn zeta.
  set (fs := between mm mF mP). set (cs := between mm mM mF).
  assert (∀ x, x ∈ ids_of fs ↔ fringe_sees mm F x ∧ ¬ fringe_sees mm P x) as Hf
    by (intros; by apply elem_of_ids_between).
  assert (∀ x, x ∈ ids_of cs ↔ fringe_sees mm M x ∧ ¬ fringe_sees mm F x) as Hcs
    by (intros; by apply elem_of_ids_between).
  case_bool_decide as He.
  - destruct (find_with_empty_parents mm) as [g|] eqn:Eg; [|done]. intros [= <- <-]. cbn.
    split; [done|]. split.
    + intros x. rewrite elem_of_difference, Hcs, elem_of_singleton. naive_solver.
    + split; [by apply ids_of_empty|]. unfold find_with_empty_parents in Eg.
      apply find_some in Eg as [Hin Hp]. apply bool_decide_eq_true in Hp.
      apply list_elem_of_In, elem_of_map_values in Hin as [k Hk].
      exists g. by rewrite (Hkey _ _ Hk).
  - intros [= <- <-]. cbn. split; [done|]. split; [|by rewrite ids_of_empty].
    intros x. rewrite elem_of_difference, Hcs. set_solver.
Qed.
End Scope.

(** *** Validated blocks keep the DAG ranked *)
Lemma ranked_insert c md block st :
  ranked c → closed c → c !! md_block_hash md = None →
  (∀ h md', c !! h = Some md' → ∃ md0, dag_lookup st h = Some md0 ∧ erase md0 = md') →
  (∀ p, p ∈ md_justifications md → is_Some (c !! p)) →
  describes md block → validation_failed md = false →
  next_of st block (λ md, validation_failed md = false) md_block_num (b_block_number block) →
  ranked (<[md_block_hash md := erase md]> c).
Proof.
  intros [Hv Hh] Hc Hnew Hst Hj (_ & En & _ & _ & Ej & _) Hf [Hlt _].
  assert (∀ p mdp, is_Some (c !! p) → <[md_block_hash md := erase md]> c !! p = Some mdp →
            c !! p = Some mdp) as Hold.
  { intros p mdp [y Hy] Hp. rewrite lookup_insert_ne in Hp; [done|]. intros E. congruence. }
  split.
  - intros h md' [[<- <-]|[_ ?]]%lookup_insert_Some; [done|by eapply Hv].
  - intros h md' p mdp Hmd' Hp Hmdp. apply lookup_insert_Some in Hmd' as [[<- <-]|[Hne Hmd']].
    + cbn in *. apply Hold in Hmdp; [|by apply Hj]. destruct (Hst _ _ Hmdp) as (md0 & Hl & <-). cbn.
      rewrite En. apply Hlt; [|by apply (Hv _ _ Hmdp)]. exists p. split; [|done].
      rewrite Ej in Hp. by apply elem_of_list_to_set in Hp.
    + eapply (Hh h); [done|done|]. apply Hold; [|done]. by eapply Hc.
Qed.

Lemma core_lookup_store st h md' :
  core st !! h = Some md' → ∃ md0, dag_lookup st h = Some md0 ∧ erase md0 = md'.
Proof.
  unfold core, dag_lookup, meta_store_get. rewrite lookup_fmap.
  intros (md0 & ? & ->)%fmap_Some. eauto.
Qed.

(** A block accepted by [validate] and inserted leaves the DAG ranked. *)
Lemma validated_insert_ranked blake cb far mg norm st st' bs fuel block shard min md :
  dag_ok blake st → ranked (core st) → numbers_in_range st →
  validate cb far mg norm st bs fuel block shard min = Some (Ok md) →
  no_fringe_collision blake (core st) md →
  dag_insert blake st md block = (st', Ok ()) →
  dag_ok blake st' ∧ ranked (core st').
Proof.
  intros Hok Hr Hn Hv Hnc Hins.
  destruct (core st !! md_block_hash md) as [y|] eqn:Hy.
  { unfold dag_insert in Hins. rewrite (proj2 (contains_core _ _ _ Hok)) in Hins by eauto.
    by injection Hins as <-. }
  destruct (dag_insert_run blake st st' md block Hok Hnc Hy Hins) as [Hok' ->]. split; [done|].
  apply validate_Ok in Hv as (Hsum & Hcp & _ & _).
  apply block_summary_number in Hsum. apply checkpoint_describes in Hcp as (Hd & _ & Hf).
  pose proof (block_number_justified _ _ Hsum) as Hj.
  destruct (block_number_spec st block Hj Hn) as [[_ Hnext]|[E _]]; [|congruence].
  apply (ranked_insert _ _ block st); try done.
  - apply (mk_closed _ _ (do_msgs _ _ Hok)).
  - apply core_lookup_store.
  - intros p Hp. destruct Hd as (_ & _ & _ & _ & Ej & _). rewrite Ej in Hp.
    apply elem_of_list_to_set, Hj in Hp. by apply core_lookup.
  - by apply Hf.
Qed.

(** A valid block with a failed justification among the stored blocks. *)
Lemma failed_justification_insert st st' block md mdp :
  core st !! md_block_hash md = None → core st' = <[md_block_hash md := erase md]> (core st) →
  justified st block mdp → validation_failed mdp = true → describes md block →
  validation_failed md = false → failed_justification st'.
Proof.
  intros Hnew Hc (j & Hj & Hl) Hf (_ & _ & _ & _ & Ej & _) Hv.
  assert (core st !! j = Some (erase mdp)) as Hcj.
  { unfold core. unfold dag_lookup, meta_store_get in Hl. by rewrite lookup_fmap, Hl. }
  exists (md_block_hash md), (erase md), j, (erase mdp). rewrite Hc, lookup_insert_eq.
  split; [done|]. split; [done|]. split; [cbn; rewrite Ej; by apply elem_of_list_to_set|].
  split; [|done]. rewrite lookup_insert_ne; [done|congruence].
Qed.
End Casper.
Import Casper.

(** ** Properties *)
Section CasperTheorems.
Context (cb : StateHash → Result (gmap Validator Z) ValidateFailure).
Context (far : StateHash → BlockMessage → Result (Result bytes ReplayFailure) ValidateFailure).
Context (mg : MergeScope → bytes → gmap (gset BlockHash) FringeData →
  Result (bytes * gset bytes) ValidateFailure).
Context (norm : text → bytes → bytes) (st : Storage) (bs : gmap BlockHash BlockMessage).

(** C15: What validation accepts.  The DAG has its blocks stored with block and
    sequence numbers below the 64-bit bound, and the block has justifications
    known to the DAG and a number in range.  Validation accepts it with
    metadata [md] iff it is acceptable to the checks before the replay, it
    names the state it starts from (the empty state without valid parents, the
    post-state of its only valid parent, else the merge of its valid parents
    into the state of the fringe they finalize) and the deploys rejected by
    that fringe, it replays from there to its post-state, its bonds are those
    of that post-state, and no failed justification is by a validator it
    bonds; [md] describes the block, is marked valid and holds that fringe and
    its state.  A block that fails validation is returned with metadata that
    describes it and is marked failed. *)
Theorem validate_exact fuel block shard_id min_phlo_price :
  complete st bs → numbers_in_range st →
  (∀ j, j ∈ b_justifications block → is_Some (dag_lookup st j)) →
  0 ≤ b_block_number block ≤ i64_max →
  (∀ md, validate cb far mg norm st bs fuel block shard_id min_phlo_price = Some (Ok md) ↔
     acceptable norm st bs block shard_id DEPLOY_LIFESPAN min_phlo_price ∧
     reproduces cb far mg st bs fuel block md ∧
     cb (post_state_hash block) = Ok (b_bonds block) ∧ ¬ neglects st block) ∧
  (∀ md, validate cb far mg norm st bs fuel block shard_id min_phlo_price = Some (Ok md) →
     describes md block ∧ validation_failed md = false) ∧
  (∀ md status, validate cb far mg norm st bs fuel block shard_id min_phlo_price
       = Some (Err (ValidationFailed md status)) →
     describes md block ∧ validation_failed md = true).
Proof.
  intros Hc Hn Hj Hb.
  destruct (block_summary_spec norm st bs block shard_id DEPLOY_LIFESPAN min_phlo_price Hc Hn Hj Hb)
    as (r & E & Hr & _); [by vm_compute|]. split_and!.
  - intros md. rewrite validate_Ok, E, <- Hr, checkpoint_reproduces. split.
    + intros ([= ->] & ? & ? & ?). done.
    + intros (-> & ? & ? & ?). done.
  - intros md (_ & Hcp & _ & _)%validate_Ok. apply checkpoint_describes in Hcp as (? & _ & Hf).
    split; [done|by apply Hf].
  - intros md status (? & _ & ?)%validate_Failed. done.
Qed.


(** C40: When a node can start again.  On a consistent DAG with every block
    above its justifications, starting from the stores succeeds if no valid
    block has a justification that failed validation, and else fails with a
    missing justification: the message map is rebuilt without failed blocks.
    So adding a new block that validation accepts with a failed justification
    keeps the node from starting again. *)
Theorem restart_exact blake2b256 :
  dag_ok blake2b256 st → above_justifications st →
  (¬ failed_justification st → ∃ st', restart blake2b256 st = Ok st') ∧
  (failed_justification st → restart blake2b256 st = Err JustificationNotPresent) ∧
  (∀ fuel block shard_id min_phlo_price md mdp st',
     validate cb far mg norm st bs fuel block shard_id min_phlo_price = Some (Ok md) →
     core st !! md_block_hash md = None → no_fringe_collision blake2b256 (core st) md →
     dag_insert blake2b256 st md block = (st', Ok ()) →
     justified st block mdp → validation_failed mdp = true →
     restart blake2b256 st' = Err JustificationNotPresent).
Proof.
  intros Hok Ha. destruct (restart_cases _ _ Hok Ha) as [Hb Hr]. split; [done|]. split; [done|].
  intros fuel block shard_id price md mdp st' Hv Hnew Hnc Hins Hj Hf.
  destruct (dag_insert_run _ _ _ _ _ Hok Hnc Hnew Hins) as [Hok' Hcore].
  apply validate_Ok in Hv as (_ & Hcp & _). apply checkpoint_describes in Hcp as (Hd & _ & Hvf).
  apply restart_blocked; [done|]. by eapply failed_justification_insert; [..|apply Hvf].
Qed.
End CasperTheorems.

(** The scope of a merge.  On a message map that files messages under
    their ids, the final scope is the set of blocks the final fringe has seen
    and the prune fringe has not, and the conflict scope the set of blocks the
    merge fringe has seen and the final fringe has not, without the base block;
    the two are disjoint.  The genesis block is the base exactly when the final
    scope is empty. *)
Theorem merge_scope_exact (mm : gmap BlockHash Msg) M F P scope base :
  (∀ i m, mm !! i = Some m → id m = i) →
  from_fringes M F P mm = Ok (scope, base) →
  (∀ x, x ∈ final_scope scope ↔ fringe_sees mm F x ∧ ¬ fringe_sees mm P x) ∧
  (∀ x, x ∈ conflict_scope scope ↔
     fringe_sees mm M x ∧ ¬ fringe_sees mm F x ∧ base ≠ Some x) ∧
  final_scope scope ## conflict_scope scope ∧
  (final_scope scope = ∅ ↔ ∃ g m, base = Some g ∧ mm !! g = Some m ∧ parents m = ∅).
Proof.
  intros Hk E. destruct (from_fringes_spec mm Hk M F P scope base E) as (Hf & Hcs & Hb).
  split; [done|]. split; [done|]. split.
  - intros x Hx Hx'. apply Hf in Hx as [? _]. by apply Hcs in Hx' as (_ & ? & _).
  - destruct base as [g|]; [|naive_solver]. destruct Hb as [-> (m & ? & ?)]. naive_solver.
Qed.

(** ** Concrete instance

    Two validators of which only the first is bonded.  The replay fails for
    blocks signed with [9]. *)
Module CasperExample.
Import BlockDagExample.
Definition bonds0 : gmap Validator Z := {[val 0 := 100]}.
Definition cb (_ : StateHash) : Result (gmap Validator Z) ValidateFailure := Ok bonds0.
Definition far (_ : StateHash) (b : BlockMessage) : Result (Result bytes ReplayFailure) ValidateFailure :=
  if bool_decide (b_sig b = [9]) then Ok (Err (UnusedCommEvent [])) else Ok (Ok (post_state_hash b)).
Definition mg (_ : MergeScope) (s : bytes) (_ : gmap (gset BlockHash) FringeData) :
    Result (bytes * gset bytes) ValidateFailure := Ok (s, ∅).
Definition norm (_ : text) (s : bytes) : bytes := s.

Definition blk (i num sender seq : Z) (justs : list Z) (sig : Z) : BlockMessage :=
  mkBlock 1 [114] (hash i) num (val sender) seq zero_hash zero_hash (hash <$> justs) bonds0 ∅ ∅ ∅
    (mkRholangState [mkProcessed (signed i) (mkPCost 0) [] false None] []) [115] [sig].

Definition g := blk 1 0 0 0 [] 1.
Definition failing := blk 2 1 1 0 [1] 9.
Definition good := blk 3 1 0 1 [1; 2] 1.
Definition good' := blk 3 1 0 1 [1] 1.
Definition bs : gmap BlockHash BlockMessage :=
  list_to_map ((λ b, (b_block_hash b, b)) <$> [g; failing; good; good']).

(** The genesis block is inserted as validated. *)
Definition st0 : Storage := (dag_insert digest empty_storage (checkpoint_meta g false ∅ zero_hash) g).1.

(** Processing a block; the outcome is [Some b] with [b] the validity. *)
Definition process (st : Storage) (b : BlockMessage) : Storage * option bool :=
  match validate_and_add_to_dag cb far mg norm st bs digest 3 b [114] 1 with
  | Some (st', Ok (Ok _)) => (st', Some true)
  | Some (st', Ok (Err _)) => (st', Some false)
  | Some (st', Err _) => (st', None)
  | None => (st, None)
  end.

Definition st1 := (process st0 failing).1.
Definition st2 := (process st1 good).1.

(** *** Witnesses *)
Lemma genesis_ok : dag_ok digest st0.
Proof.
  assert (match (dag_insert digest empty_storage (checkpoint_meta g false ∅ zero_hash) g).2 with
          | Ok _ => true | Err _ => false end = true) as Hr by (vm_compute; reflexivity).
  unfold st0. destruct (dag_insert digest _ _ _) as [st [[]|]] eqn:E; [|done]. cbn.
  refine (proj1 (dag_insert_run digest empty_storage st _ g (dag_ok_empty digest) _ _ E)).
  - intros h md' Hl. unfold core in Hl. cbn in Hl. by rewrite fmap_empty, lookup_empty in Hl.
  - reflexivity.
Qed.

Lemma genesis_complete : complete st0 bs ∧ numbers_in_range st0.
Proof. apply ValidateExample.complete_b_ok. vm_compute. reflexivity. Qed.

Lemma good'_justified j : j ∈ b_justifications good' → is_Some (dag_lookup st0 j).
Proof.
  assert (b_justifications good' = [hash 1]) as -> by (vm_compute; reflexivity).
  intros ->%list_elem_of_singleton.
  assert (bool_decide (is_Some (dag_lookup st0 (hash 1))) = true) as Hd by (vm_compute; reflexivity).
  by apply bool_decide_eq_true in Hd.
Qed.

Definition validated_ok (r : option (Result BlockMetadata ValidateError)) : bool :=
  match r with Some (Ok _) => true | _ => false end.

Lemma validate_good' :
  ∃ md, validate cb far mg norm st0 bs 3 good' [114] 1 = Some (Ok md).
Proof.
  assert (validated_ok (validate cb far mg norm st0 bs 3 good' [114] 1) = true) as Hv
    by (vm_compute; reflexivity).
  destruct (validate cb far mg norm st0 bs 3 good' [114] 1) as [[md|]|]; [by eauto|done..].
Qed.

(** Witness of [validate_exact]. *)
Lemma validate_exact_witness :
  acceptable norm st0 bs good' [114] DEPLOY_LIFESPAN 1 ∧ ¬ neglects st0 good' ∧
  ∃ md, reproduces cb far mg st0 bs 3 good' md ∧ describes md good' ∧ validation_failed md = false.
Proof.
  destruct genesis_complete as [Hc Hn].
  destruct (validate_exact cb far mg norm st0 bs 3 good' [114] 1 Hc Hn good'_justified)
    as (Hacc & Hok & _); [vm_compute; by split|].
  destruct validate_good' as [md Hmd]. pose proof (Hok md Hmd) as [Hd Hf].
  apply Hacc in Hmd as (Ha & Hr & _ & Hne). split; [exact Ha|]. split; [exact Hne|].
  exists md. split; [exact Hr|]. split; [exact Hd|exact Hf].
Defined.


(** The metadata with which a block is inserted, if the insertion of the new
    block succeeds. *)
Definition inserted (st : Storage) (b : BlockMessage) : option BlockMetadata :=
  md ← match validate cb far mg norm st bs 3 b [114] 1 with
       | Some (Ok md) | Some (Err (ValidationFailed md _)) => Some md
       | _ => None
       end;
  if bool_decide (core st !! md_block_hash md = None) && collision_free st md &&
     match (dag_insert digest st md b).2 with Ok _ => true | Err _ => false end
  then Some md else None.

Lemma inserted_Some st b md :
  inserted st b = Some md →
  core st !! md_block_hash md = None ∧ no_fringe_collision digest (core st) md ∧
  dag_insert digest st md b = ((process st b).1, Ok ()).
Proof.
  unfold inserted, process, validate_and_add_to_dag.
  destruct (validate cb far mg norm st bs 3 b [114] 1) as [[md'|[md' status|e]]|]; [| |done..];
    cbn -[dag_insert collision_free]; (destruct (bool_decide _) eqn:Hn; [|done]);
    (destruct (collision_free st md') eqn:Hc; [|done]);
    destruct (dag_insert digest st md' b) as [st' [[]|]] eqn:Hi; cbn; [|done| |done];
    intros [= <-]; apply bool_decide_eq_true in Hn; apply collision_free_ok in Hc;
    (split_and!; [exact Hn|exact Hc|]); by rewrite Hi.
Qed.

Lemma st1_ok : dag_ok digest st1.
Proof.
  assert (bool_decide (is_Some (inserted st0 failing)) = true) as Hi by (vm_compute; reflexivity).
  apply bool_decide_eq_true in Hi as [md (Hn & Hc & Hi)%inserted_Some].
  exact (proj1 (dag_insert_run digest st0 st1 md failing genesis_ok Hc Hn Hi)).
Qed.

(** The block accepted after the failed one justifies it. *)
Definition accepts_failed (st : Storage) (b : BlockMessage) : option (BlockMetadata * BlockMetadata) :=
  match validate cb far mg norm st bs 3 b [114] 1, dag_lookup st (hash 2) with
  | Some (Ok md), Some mdp =>
      if bool_decide (inserted st b = Some md) && validation_failed mdp then Some (md, mdp) else None
  | _, _ => None
  end.

Lemma accepts_failed_Some st b md mdp :
  accepts_failed st b = Some (md, mdp) →
  validate cb far mg norm st bs 3 b [114] 1 = Some (Ok md) ∧ inserted st b = Some md ∧
  dag_lookup st (hash 2) = Some mdp ∧ validation_failed mdp = true.
Proof.
  unfold accepts_failed. destruct (validate cb far mg norm st bs 3 b [114] 1) as [[md'|]|]; [|done..].
  destruct (dag_lookup st (hash 2)) as [mdp'|]; [|done].
  destruct (bool_decide _) eqn:Hb; [|done]. destruct (validation_failed mdp') eqn:Hf; [|done].
  cbn. intros [= <- <-]. by apply bool_decide_eq_true in Hb.
Qed.

(** Witness of [restart_exact]: the block of an unbonded validator fails its
    replay and is stored as failed, and a block of the bonded validator that
    justifies it is accepted. *)
Lemma restart_exact_witness :
  (∃ st', restart digest st0 = Ok st') ∧ restart digest st2 = Err JustificationNotPresent.
Proof.
  split.
  - assert (ranked (core st0)) as Hr by (apply ranked_check; vm_compute; reflexivity).
    destruct (restart_exact cb far mg norm st0 bs digest genesis_ok (rk_height _ Hr)) as [Hs _].
    apply Hs. intros (h & md & p & mdp & _ & _ & _ & Hp & Hf).
    pose proof (rk_valid _ Hr _ _ Hp). congruence.
  - assert (above_justifications st1) as Ha by (apply above_check; vm_compute; reflexivity).
    destruct (restart_exact cb far mg norm st1 bs digest st1_ok Ha) as (_ & _ & Hb).
    assert (bool_decide (is_Some (accepts_failed st1 good)) = true) as Hi by (vm_compute; reflexivity).
    apply bool_decide_eq_true in Hi as [[md mdp] (Hv & Hin & Hl & Hf)%accepts_failed_Some].
    apply inserted_Some in Hin as (Hn & Hc & Hin).
    apply (Hb 3%nat good [114] 1 md mdp st2 Hv Hn Hc Hin); [|exact Hf].
    exists (hash 2). split; [|exact Hl]. vm_compute. right. left.
Defined.

(** Witness of [merge_scope_exact]: the DAG of [BlockDagExample]. *)
Notation mm3 := (msg_map (dag_message_state (representation st3))).

Definition scope3 : option (MergeScope * option BlockHash) :=
  match from_fringes {[hash 4]} {[hash 1]} ∅ mm3 with Ok r => Some r | Err _ => None end.

Lemma merge_scope_exact_witness :
  ∃ scope base, from_fringes {[hash 4]} {[hash 1]} ∅ mm3 = Ok (scope, base) ∧
    final_scope scope ## conflict_scope scope.
Proof.
  assert (bool_decide (is_Some scope3) = true) as Hs by (vm_compute; reflexivity).
  apply bool_decide_eq_true in Hs. unfold scope3 in Hs.
  destruct (from_fringes {[hash 4]} {[hash 1]} ∅ mm3) as [[scope base]|] eqn:E;
    [|by destruct Hs].
  exists scope, base. split; [reflexivity|].
  assert (∀ i m, mm3 !! i = Some m → id m = i) as Hk.
  { intros i m Hm. pose proof (do_msgs _ _ st3_ok) as Hok.
    destruct (mk_map_Some _ _ _ _ Hok Hm) as (md & Hc & Hmo).
    rewrite (mo_id _ _ _ Hmo). by apply (mk_keyed _ _ Hok). }
  destruct (merge_scope_exact mm3 _ _ _ scope base Hk E) as (_ & _ & Hd & _). exact Hd.
Defined.
End CasperExample.
