(* ===== verification/BlockReceiver.v ===== *)
(** * The block receiver

    [casper/src/blocks/block_receiver.rs]: the state machine that tracks the
    blocks between their arrival and their insertion in the DAG, the task that
    takes blocks from the network ([incoming_blocks]), the task that is told of
    validated blocks ([validated_blocks]), and the loop of
    [casper/src/blocks/block_processor.rs] that validates what they emit.  The
    tasks share the state under a lock: they interleave between their accesses,
    and a [Phase] is where the first one stands. *)

From S2P Require Import Prelude BTree Bytes.

Inductive RecvStatus :=
| BeginStoreBlock
| EndStoreBlock
| PendingValidation
| Requested.
#[export] Instance RecvStatus_eq_dec : EqDecision RecvStatus.
Proof. solve_decision. Defined.

Inductive ReceiverError :=
| NotBegun
| ReceiverFull
| UnexpectedFinish.

Definition MAX_PENDING_BLOCKS : nat := 1024.

Section Receiver.
Context {MId : Type} `{!Ord MId} `{Countable MId}.

Record BlockReceiverState := mkReceiver {
  blocks_st : gmap MId (gset MId);
  receive_st : gmap MId RecvStatus;
  child_relations : gmap MId (gset MId);
}.
Definition receiver_new : BlockReceiverState := mkReceiver ∅ ∅ ∅.

Definition begin_stored (st : BlockReceiverState) (id : MId) : BlockReceiverState * bool :=
  let expected_receive := match receive_st st !! id with
    | Some Requested => true
    | Some _ => false
    | None => true
    end in
  if expected_receive
  then (mkReceiver (blocks_st st) (<[id := BeginStoreBlock]> (receive_st st)) (child_relations st), true)
  else (st, false).

(** The entries of [m] at the keys of [ks] are set to [v]. *)
Definition set_all {V} (ks : gset MId) (v : V) (m : gmap MId V) : gmap MId V := set_to_map (λ k, (k, v)) ks ∪ m.

Definition add_child (id : MId) (relations : gmap MId (gset MId)) (parent : MId) : gmap MId (gset MId) :=
  <[parent := {[id]} ∪ default ∅ (relations !! parent)]> relations.

Definition end_stored (st : BlockReceiverState) (id : MId) (parents : list (MId * bool)) :
    Result (BlockReceiverState * gset MId) ReceiverError :=
  if negb (bool_decide (receive_st st !! id = Some BeginStoreBlock)) then Err NotBegun
  else if (MAX_PENDING_BLOCKS <=? size (blocks_st st))%nat && bool_decide (blocks_st st !! id = None) then Err ReceiverFull
  else
    let parents_not_stored : gset MId := list_to_set (filter (λ p, p.2 = true) parents).*1 in
    let unseen_parents :=
      filter (λ parent, blocks_st st !! parent = None ∧ receive_st st !! parent = None ∧ parent ≠ id) parents_not_stored in
    Ok (mkReceiver (<[id := unseen_parents]> (blocks_st st))
          (set_all unseen_parents Requested (<[id := EndStoreBlock]> (receive_st st)))
          (foldl (add_child id) (child_relations st) parents.*1),
        unseen_parents).

Definition finished (st : BlockReceiverState) (id : MId) (parents : gset MId) :
    Result (BlockReceiverState * gset MId) ReceiverError :=
  let parents_in_state := bool_decide (is_Some (blocks_st st !! id)) in
  let is_received := match receive_st st !! id with
    | Some EndStoreBlock | Some PendingValidation => true
    | _ => false
    end in
  if negb (parents_in_state && is_received) then Err UnexpectedFinish
  else
    let childs := default ∅ (child_relations st !! id) in
    let updated_blocks : gmap MId (gset MId) :=
      set_to_map (λ child, (child, default ∅ (blocks_st st !! child) ∖ {[id]})) childs in
    let deps_validated : gset MId :=
      dom (filter (λ bp : MId * gset MId, bp.2 = ∅ ∧ receive_st st !! bp.1 ≠ Some PendingValidation) updated_blocks) in
    Ok (mkReceiver (delete id (updated_blocks ∪ blocks_st st))
          (delete id (set_all deps_validated PendingValidation (receive_st st)))
          (map_imap (λ parent childs,
             if bool_decide (parent ∈ parents)
             then let childs := childs ∖ {[id]} in if bool_decide (childs = ∅) then None else Some childs
             else Some childs) (child_relations st)),
        deps_validated).

(** ** The tasks *)
(** Where the task of the incoming blocks stands with a block. *)
Inductive Phase :=
| Idle
| Begun (block : MId) (should_check : bool)
| Stored (block : MId) (parents : list (MId * bool))
| Ended (block : MId) (pending_requests : gset MId).

Record Node := mkNode {
  n_state : BlockReceiverState;
  n_phase : Phase;
  n_store : gset MId;
  n_dag : gset MId;
  n_incoming : list MId;
  n_requests : list MId;
  n_out : list MId;
  n_validated : list MId;
}.
Definition node_new (store dag : gset MId) : Node := mkNode receiver_new Idle store dag [] [] [] [].

(** The outcome of the validation of a block whose justifications are known. *)
Inductive Verdict :=
| Valid
| Invalid
| ProcessingFailed.
(** What the model leaves open: which block the network delivers, whether it
    is of interest, known or fails to be written, the blocks of a batch of the
    processor and their verdicts. *)
Inductive NodeEvent :=
| Arrive (block : MId)
| Receive (of_interest : bool)
| Store (known put_ok : bool)
| EndStore
| Forward
| Process (verdicts : list Verdict)
| Validated.

Context (justifications : MId → list MId).

(** [BlockReceiver.notValidated]. *)
Definition not_validated (n : Node) (hash : MId) : bool := bool_decide (hash ∈ n_store n ∧ hash ∉ n_dag n).

(** The blocks of a batch are validated against the DAG [known] of its start,
    and inserted one after the other. *)
Fixpoint insert_batch (known : gset MId) (batch : list (MId * Verdict)) (dag : gset MId) (validated : list MId) :
    gset MId * list MId :=
  match batch with
  | [] => (dag, validated)
  | (block, verdict) :: batch =>
      if forallb (λ h, bool_decide (h ∈ known)) (justifications block)
      then match verdict with
           | Valid => insert_batch known batch ({[block]} ∪ dag) (validated ++ [block])
           | Invalid => insert_batch known batch ({[block]} ∪ dag) validated
           | ProcessingFailed => insert_batch known batch dag validated
           end
      else insert_batch known batch dag validated
  end.

(** One step of a task; [None] when it has nothing to do. *)
Definition node_step (n : Node) (e : NodeEvent) : option Node :=
  let '(mkNode st phase store dag incoming requests out validated) := n in
  match e, phase with
  | Arrive block, _ => Some (mkNode st phase store dag (incoming ++ [block]) requests out validated)
  | Receive of_interest, Idle =>
      match incoming with
      | [] => None
      | block :: incoming =>
          if of_interest
          then let (st, should_check) := begin_stored st block in
               Some (mkNode st (Begun block should_check) store dag incoming requests out validated)
          else Some (mkNode st Idle store dag incoming requests out validated)
      end
  | Store known put_ok, Begun block should_check =>
      if known || negb should_check || (bool_decide (block ∉ store) && negb put_ok)
      then Some (mkNode st Idle store dag incoming requests out validated)
      else
        let store := {[block]} ∪ store in
        Some (mkNode st (Stored block ((λ h, (h, bool_decide (h ∉ store))) <$> justifications block))
                store dag incoming requests out validated)
  | EndStore, Stored block parents =>
      match end_stored st block parents with
      | Ok (st, unseen) => Some (mkNode st (Ended block unseen) store dag incoming requests out validated)
      | Err _ => Some (mkNode st Idle store dag incoming requests out validated)
      end
  | Forward, Ended block pending_requests =>
      if forallb (λ h, bool_decide (h ∈ dag)) (justifications block)
      then Some (mkNode st Idle store dag incoming requests (out ++ [block]) validated)
      else Some (mkNode st Idle store dag
                   (incoming ++ set_iter (list_to_set (filter (not_validated n) (justifications block)) : gset MId))
                   (requests ++ set_iter pending_requests) out validated)
  | Process verdicts, _ =>
      let batch := take (length verdicts) out in
      let (dag, validated) := insert_batch dag (zip batch verdicts) dag validated in
      Some (mkNode st phase store dag incoming requests (drop (length verdicts) out) validated)
  | Validated, _ =>
      match validated with
      | [] => None
      | block :: validated =>
          match finished st block (list_to_set (justifications block)) with
          | Ok (st, next) => Some (mkNode st phase store dag incoming requests (out ++ set_iter next) validated)
          | Err _ => Some (mkNode st phase store dag incoming requests out validated)
          end
      end
  | _, _ => None
  end.

(** A run; an event that is not possible is skipped. *)
Definition node_run (events : list NodeEvent) (n : Node) : Node := foldl (λ n e, default n (node_step n e)) n events.
Inductive node_reachable : Node → Prop :=
| reach_new store dag : node_reachable (node_new store dag)
| reach_step n e n' : node_reachable n → node_step n e = Some n' → node_reachable n'.
End Receiver.
#[global] Arguments BlockReceiverState MId {_ _}.
#[global] Arguments Phase MId {_ _}.
#[global] Arguments Node MId {_ _}.
