(* ===== verification/BlockReceiverSpec.v ===== *)
(** * The block receiver: what it tracks, and what it loses

    In every run the receiver holds, for the stored blocks, exactly the inverse
    of their justifications, and the dependencies it records are blocks that it
    waits for; the end of a validation releases exactly the blocks that waited
    for nothing else.  But parents that are stored and not validated are not
    recorded as dependencies, so a block can be released too early; its
    validation then fails, and it is never tried again. *)

From S2P Require Import Prelude BTree Bytes Refined Message Finalizer MessageState Block DagStore BlockDag Validate Casper BlockReceiver.

Section Spec.
Context {MId : Type} `{!Ord MId} `{Countable MId}.
Context (justifications : MId → list MId).
Implicit Types (st : BlockReceiverState MId) (n : Node MId).

Lemma lookup_set_all {V} (ks : gset MId) (v : V) m k :
  set_all ks v m !! k = if decide (k ∈ ks) then Some v else m !! k.
Proof.
  unfold set_all. destruct (decide (k ∈ ks)) as [Hk|Hk].
  - apply lookup_union_Some_l, lookup_set_to_map; [done|]. by exists k.
  - apply lookup_union_r, eq_None_not_Some. intros [w Hw]. apply lookup_set_to_map in Hw as (k' & Hk' & [= <- _]); done.
Qed.

Definition childs_of st (p : MId) : gset MId := default ∅ (child_relations st !! p).

Lemma add_children (id : MId) m (ps : list MId) p c :
  c ∈ (default ∅ (foldl (add_child id) m ps !! p) : gset MId) ↔ c ∈ (default ∅ (m !! p) : gset MId) ∨ p ∈ ps ∧ c = id.
Proof.
  revert m. induction ps as [|q ps IH]; intros m; cbn [foldl]; [set_solver|]. rewrite IH. unfold add_child.
  destruct (decide (q = p)) as [->|Hq]; [rewrite lookup_insert_eq|rewrite lookup_insert_ne by done]; cbn; set_solver.
Qed.
Lemma add_children_nonempty (id : MId) m (ps : list MId) : (∀ p, m !! p ≠ Some ∅) → ∀ p, foldl (add_child id) m ps !! p ≠ Some ∅.
Proof.
  revert m. induction ps as [|q ps IH]; intros m Hm; cbn [foldl]; [done|]. apply IH. intros p. unfold add_child.
  destruct (decide (q = p)) as [->|Hq]; [rewrite lookup_insert_eq|by rewrite lookup_insert_ne]. intros [=]. set_solver.
Qed.

(** ** The invariant *)
Record receiver_ok st : Prop := {
  ok_received b : is_Some (blocks_st st !! b) ↔ receive_st st !! b = Some EndStoreBlock ∨ receive_st st !! b = Some PendingValidation;
  ok_children p c : c ∈ childs_of st p ↔ is_Some (blocks_st st !! c) ∧ p ∈ justifications c;
  ok_nonempty p : child_relations st !! p ≠ Some ∅;
  ok_deps b deps p : blocks_st st !! b = Some deps → p ∈ deps → p ∈ justifications b ∧ p ≠ b ∧ is_Some (receive_st st !! p);
  ok_size : (size (blocks_st st) ≤ MAX_PENDING_BLOCKS)%nat;
}.

Lemma receiver_new_ok : receiver_ok receiver_new.
Proof.
  split; unfold childs_of; cbn; intros; try rewrite lookup_empty in *; try done.
  - split; [by intros [? ?]|by intros [|]].
  - cbn. split; [set_solver|]. by intros [[? ?] _].
  - rewrite map_size_empty. unfold MAX_PENDING_BLOCKS. lia.
Qed.

Lemma begin_stored_ok st id : receiver_ok st → receiver_ok (begin_stored st id).1.
Proof.
  intros Hok. unfold begin_stored. destruct (match receive_st st !! id with Some Requested => _ | _ => _ end) eqn:He; [|done].
  assert (receive_st st !! id = None ∨ receive_st st !! id = Some Requested) as Hid.
  { destruct (receive_st st !! id) as [[]|]; naive_solver. }
  cbn. destruct Hok as [Hr Hc Hn Hd Hs]. split; cbn; [|done|done| |done].
  - intros b. rewrite Hr. destruct (decide (id = b)) as [->|]; [rewrite lookup_insert_eq|by rewrite lookup_insert_ne]. naive_solver.
  - intros b deps p Hb Hp. destruct (Hd b deps p Hb Hp) as (? & ? & ?). split_and!; [done..|].
    destruct (decide (id = p)) as [->|]; [by rewrite lookup_insert_eq|by rewrite lookup_insert_ne].
Qed.

(** *** Storing a block *)
Lemma end_stored_ok st id parents st' unseen :
  receiver_ok st → parents.*1 = justifications id → end_stored st id parents = Ok (st', unseen) → receiver_ok st'.
Proof.
  intros [Hr Hc Hn Hd Hs] Hp. unfold end_stored. case_bool_decide as Hid; [|done]. cbn [negb].
  assert (blocks_st st !! id = None) as Hnew.
  { apply eq_None_not_Some. intros Hb. apply Hr in Hb. rewrite Hid in Hb. naive_solver. }
  rewrite bool_decide_eq_true_2, andb_true_r by done.
  destruct (Nat.leb_spec MAX_PENDING_BLOCKS (size (blocks_st st))) as [|Hsize]; [done|].
  set (missing := list_to_set (filter _ parents).*1 : gset MId). set (U := filter _ missing). intros [= <- <-].
  assert (∀ p, p ∈ U → p ∈ justifications id ∧ p ≠ id ∧ receive_st st !! p = None) as HU.
  { intros p. unfold U, missing. rewrite elem_of_filter, elem_of_list_to_set, list_elem_of_fmap.
    intros ((_ & Hrp & Hne) & [q b] & -> & [_ Hq]%list_elem_of_filter). split_and!; [|done..].
    rewrite <- Hp. apply list_elem_of_fmap. by exists (q, b). }
  split; cbn [blocks_st receive_st child_relations].
  - intros b. rewrite lookup_set_all. destruct (decide (b ∈ U)) as [Hb|Hb].
    + apply HU in Hb as (_ & Hne & Hb). rewrite lookup_insert_ne, Hr, Hb by done. naive_solver.
    + destruct (decide (id = b)) as [->|Hne]; [rewrite !lookup_insert_eq|by rewrite !lookup_insert_ne]. naive_solver.
  - intros p c. unfold childs_of. cbn. rewrite add_children, Hp. change (default ∅ _) with (childs_of st p). rewrite Hc.
    destruct (decide (id = c)) as [->|Hne]; [rewrite lookup_insert_eq|rewrite lookup_insert_ne by done].
    + rewrite Hnew. split; [naive_solver|]. intros [_ Hj]. by right.
    + naive_solver.
  - by apply add_children_nonempty.
  - intros b deps p. rewrite lookup_set_all. destruct (decide (id = b)) as [->|Hne].
    + rewrite lookup_insert_eq. intros [= <-] HpU. rewrite decide_True by done. by apply HU in HpU as (? & ? & _).
    + rewrite lookup_insert_ne by done. intros Hb Hdp. destruct (Hd b deps p Hb Hdp) as (? & ? & ?). split_and!; [done..|].
      destruct (decide (p ∈ U)); [done|]. destruct (decide (id = p)) as [->|]; [by rewrite lookup_insert_eq|by rewrite lookup_insert_ne].
  - rewrite map_size_insert_None by done. lia.
Qed.

(** *** The end of a validation *)
Lemma difference_empty (X : gset MId) x : X ∖ {[x]} = ∅ ↔ X ⊆ {[x]}.
Proof. split; [|set_solver]. intros HX y Hy. apply elem_of_singleton. destruct (decide (y = x)); [done|set_solver]. Qed.
Definition releasable st (id c : MId) : Prop :=
  id ∈ justifications c ∧ receive_st st !! c ≠ Some PendingValidation ∧ ∃ deps, blocks_st st !! c = Some deps ∧ deps ⊆ {[id]}.

Lemma lookup_updated st (id : MId) (C : gset MId) c deps :
  (set_to_map (λ child, (child, default ∅ (blocks_st st !! child) ∖ {[id]})) C : gmap MId (gset MId)) !! c = Some deps ↔
  c ∈ C ∧ deps = default ∅ (blocks_st st !! c) ∖ {[id]}.
Proof. rewrite lookup_set_to_map by done. split; [intros (c' & ? & [= <- <-]); done|]. intros [? ->]. by exists c. Qed.

Lemma finished_spec st id st' next : receiver_ok st → finished st id (list_to_set (justifications id)) = Ok (st', next) →
  (∀ c, c ∈ next ↔ releasable st id c) ∧
  (∀ c, blocks_st st' !! c = if decide (c = id) then None else
        if decide (id ∈ justifications c) then (.∖ {[id]}) <$> blocks_st st !! c else blocks_st st !! c) ∧
  (∀ c, receive_st st' !! c = if decide (c = id) then None else if decide (c ∈ next) then Some PendingValidation else receive_st st !! c) ∧
  (∀ p c, c ∈ childs_of st' p ↔ c ∈ childs_of st p ∧ c ≠ id) ∧ (∀ p, child_relations st' !! p ≠ Some ∅).
Proof.
  intros [Hr Hc Hn Hd Hs]. unfold finished. destruct (negb _); [done|].
  change (default ∅ (child_relations st !! id)) with (childs_of st id).
  set (U := set_to_map _ (childs_of st id)). set (D := dom _). intros [= <- <-]. cbn [blocks_st receive_st child_relations].
  assert (∀ c, U !! c = if decide (is_Some (blocks_st st !! c) ∧ id ∈ justifications c)
                        then Some (default ∅ (blocks_st st !! c) ∖ {[id]}) else None) as HU.
  { intros c. apply option_eq. intros deps. unfold U. rewrite lookup_updated, Hc. case_decide; naive_solver. }
  split_and!.
  - intros c. unfold D, releasable. rewrite elem_of_dom. split.
    + intros [deps [HUc [Hempty Hpend]]%map_lookup_filter_Some]. cbn in *. rewrite HU in HUc. case_decide as Hch; [|done].
      destruct Hch as [[ds Hds] Hj]. rewrite Hds in HUc. simplify_eq/=. split_and!; [done..|]. exists ds. by rewrite <- difference_empty.
    + intros (Hj & Hpend & ds & Hds & Hsub). exists ∅. apply map_lookup_filter_Some. rewrite HU, Hds, decide_True by eauto. cbn.
      split_and!; [|done..]. f_equal. by apply difference_empty.
  - intros c. destruct (decide (c = id)) as [->|Hne]; [by rewrite lookup_delete_eq|]. rewrite lookup_delete_ne, lookup_union, HU by done.
    destruct (blocks_st st !! c) as [ds|] eqn:Hds; cbn.
    + destruct (decide (id ∈ justifications c)); [rewrite decide_True by eauto|rewrite decide_False by naive_solver]; done.
    + rewrite decide_False by (intros [[? ?] _]; done). by case_decide.
  - intros c. destruct (decide (c = id)) as [->|Hne]; [by rewrite lookup_delete_eq|]. by rewrite lookup_delete_ne, lookup_set_all.
  - intros p c. unfold childs_of. cbn. rewrite map_lookup_imap. destruct (child_relations st !! p) as [C|] eqn:HC; cbn; [|set_solver].
    assert (id ∈ C → p ∈ justifications id) as Hp. { intros Hin. apply (Hc p id). unfold childs_of. by rewrite HC. }
    clear -Hp. repeat case_bool_decide; cbn; set_solver.
  - intros p. rewrite map_lookup_imap. specialize (Hn p). destruct (child_relations st !! p) as [C|] eqn:HC; cbn; [|done].
    clear -Hn. repeat case_bool_decide; naive_solver.
Qed.

Lemma finished_received st id parents st' next : finished st id parents = Ok (st', next) →
  is_Some (blocks_st st !! id) ∧ (receive_st st !! id = Some EndStoreBlock ∨ receive_st st !! id = Some PendingValidation).
Proof.
  unfold finished. case_bool_decide as Hb; [|done]. destruct (receive_st st !! id) as [[]|]; cbn; try done; eauto.
Qed.
Lemma finished_ok st id st' next : receiver_ok st → finished st id (list_to_set (justifications id)) = Ok (st', next) → receiver_ok st'.
Proof.
  intros Hok Hf. destruct (finished_spec st id st' next Hok Hf) as (Hnext & Hb & Hrcv & Hch & Hne).
  pose proof (finished_received _ _ _ _ _ Hf) as [Hid _]. destruct Hok as [Hr Hc Hn Hd Hs].
  assert (∀ c, is_Some (blocks_st st' !! c) ↔ c ≠ id ∧ is_Some (blocks_st st !! c)) as Hsome.
  { intros c. rewrite Hb. case_decide; [split; [by intros []|by intros [? _]]|].
    case_decide; [rewrite fmap_is_Some|]; split; [done|by intros [_ ?]|done|by intros [_ ?]]. }
  split.
  - intros b. rewrite Hsome, Hrcv. case_decide as Hbid; [split; [by intros [? _]|by intros [|]]|].
    case_decide as Hbn; [|rewrite Hr; by split; [intros [_ ?]|]].
    split; [by right|]. intros _. split; [done|]. apply Hnext in Hbn as (_ & _ & ds & Hds & _). by exists ds.
  - intros p c. rewrite Hch, Hc, Hsome. clear. tauto.
  - done.
  - intros b deps p. rewrite Hb. case_decide as Hbid; [done|]. intros Hdeps Hp.
    assert (p ≠ id ∧ ∃ ds, blocks_st st !! b = Some ds ∧ p ∈ ds) as (Hpid & ds & Hds & Hpds).
    { case_decide as Hj.
      - apply fmap_Some in Hdeps as (ds & Hds & ->). apply elem_of_difference in Hp as [Hp Hpid].
        rewrite elem_of_singleton in Hpid. by eauto.
      - split; [|by eauto]. intros ->. by destruct (Hd b deps id Hdeps Hp) as (? & _). }
    destruct (Hd b ds p Hds Hpds) as (? & ? & ?). split_and!; [done..|]. rewrite Hrcv, decide_False by done. destruct (decide (p ∈ next)); [by eexists|done].
  - etrans; [|exact Hs]. rewrite <- !size_dom. apply subseteq_size. intros c. rewrite !elem_of_dom, Hsome. by intros [_ ?].
Qed.

(** ** Runs *)
(** The parents a stored block waits with are its justifications. *)
Definition node_ok n : Prop :=
  receiver_ok (n_state n) ∧ match n_phase n with Stored b parents => parents.*1 = justifications b | _ => True end.

Lemma node_step_ok n e n' : node_ok n → node_step justifications n e = Some n' → node_ok n'.
Proof.
  destruct n as [st phase store dag incoming requests out validated]. unfold node_ok. cbn [n_state n_phase]. intros [Hok Hph].
  destruct e as [b|of_interest|known put_ok| | |verdicts| ]; cbn [node_step].
  - intros [= <-]. done.
  - destruct phase; try done. destruct incoming as [|b incoming]; [done|]. destruct of_interest; [|by intros [= <-]].
    pose proof (begin_stored_ok st b Hok) as Hb. destruct (begin_stored st b) as [st' chk]. by intros [= <-].
  - destruct phase as [|b chk| |]; try done. destruct (_ || _ || _); intros [= <-]; [done|]. split; [done|]. cbn.
    rewrite <- list_fmap_compose. apply list_fmap_id.
  - destruct phase as [| |b parents|]; try done. destruct (end_stored st b parents) as [[st' unseen]|e] eqn:He; intros [= <-]; [|done].
    split; [|done]. by eapply end_stored_ok.
  - destruct phase as [| | |b pend]; try done. destruct (forallb _ _); intros [= <-]; done.
  - destruct (insert_batch _ _ _ _ _) as [dag' validated']. intros [= <-]. done.
  - destruct validated as [|b validated]; [done|]. destruct (finished st b _) as [[st' next]|e] eqn:Hf; intros [= <-]; [|done].
    split; [|done]. by eapply finished_ok.
Qed.
Lemma node_reachable_ok n : node_reachable justifications n → node_ok n.
Proof. induction 1 as [store dag|n e n' _ IH Hs]; [split; [apply receiver_new_ok|done]|by eapply node_step_ok]. Qed.


(** ** Blocks that are never tried again *)
(** A block that is marked as being stored or validated, and is with no task. *)
Definition stuck (b : MId) n : Prop :=
  (receive_st (n_state n) !! b = Some BeginStoreBlock ∨ receive_st (n_state n) !! b = Some PendingValidation) ∧
  match n_phase n with
  | Idle => True
  | Begun c should_check => c = b → should_check = false
  | Stored c _ | Ended c _ => c ≠ b
  end ∧
  b ∉ n_out n ∧ b ∉ n_validated n ∧ b ∉ n_dag n.

Lemma insert_batch_other (b : MId) known batch dag validated : b ∉ batch.*1 → b ∉ dag → b ∉ validated →
  let (dag', validated') := insert_batch justifications known batch dag validated in b ∉ dag' ∧ b ∉ validated'.
Proof.
  revert dag validated. induction batch as [|[c v] batch IH]; intros dag validated Hb Hd Hv; cbn [insert_batch]; [done|].
  cbn in Hb. apply not_elem_of_cons in Hb as [Hc Hb].
  destruct (forallb _ _); [destruct v|]; apply IH; try done; [set_solver| |set_solver].
  rewrite elem_of_app, list_elem_of_singleton. tauto.
Qed.
Lemma end_stored_keeps st id parents st' unseen b s : end_stored st id parents = Ok (st', unseen) → b ≠ id →
  receive_st st !! b = Some s → receive_st st' !! b = Some s.
Proof.
  unfold end_stored. destruct (negb _); [done|]. destruct (_ && _); [done|]. intros [= <- <-] Hb Hs. cbn.
  rewrite lookup_set_all, decide_False, lookup_insert_ne by (done || (rewrite elem_of_filter, Hs; naive_solver)). done.
Qed.
Lemma finished_keeps st id st' next b : receiver_ok st → finished st id (list_to_set (justifications id)) = Ok (st', next) → b ≠ id →
  receive_st st !! b = Some BeginStoreBlock ∨ receive_st st !! b = Some PendingValidation →
  b ∉ next ∧ receive_st st' !! b = receive_st st !! b.
Proof.
  intros Hok Hf Hb Hs. destruct (finished_spec st id st' next Hok Hf) as (Hnext & _ & Hr & _).
  assert (b ∉ next) as Hbn.
  { rewrite Hnext. intros (_ & Hp & ds & Hds & _). destruct Hs as [Hs|Hs]; [|done].
    destruct (proj1 (ok_received _ Hok b)); [by exists ds|congruence..]. }
  split; [done|]. by rewrite Hr, decide_False, decide_False.
Qed.
Lemma stuck_step b n e n' : node_ok n → stuck b n → node_step justifications n e = Some n' → stuck b n'.
Proof.
  destruct n as [st phase store dag incoming requests out validated]. unfold node_ok, stuck.
  cbn [n_state n_phase n_out n_validated n_dag]. intros [Hok _] (Hs & Hph & Ho & Hv & Hd).
  destruct e as [c|of_interest|known put_ok| | |verdicts| ]; cbn [node_step].
  - by intros [= <-].
  - destruct phase; try done. destruct incoming as [|c incoming]; [done|]. destruct of_interest; [|by intros [= <-]].
    unfold begin_stored. destruct (decide (c = b)) as [->|Hc].
    + destruct Hs as [Hs|Hs]; rewrite Hs; intros [= <-]; cbn; rewrite Hs; tauto.
    + destruct (match receive_st st !! c with Some Requested => _ | _ => _ end); intros [= <-]; cbn; [|done].
      rewrite lookup_insert_ne by done. done.
  - destruct phase as [|c chk| |]; try done. destruct (known || _ || _) eqn:E; intros [= <-]; [done|]. cbn.
    split_and!; try done. intros ->. rewrite Hph in E by done. by destruct known.
  - destruct phase as [| |c parents|]; try done. destruct (end_stored st c parents) as [[st' unseen]|] eqn:He; intros [= <-]; [|done].
    cbn. split; [|done]. destruct Hs as [Hs|Hs]; [left|right]; by eapply end_stored_keeps.
  - destruct phase as [| | |c pend]; try done. destruct (forallb _ _); intros [= <-]; [|done]. cbn. split_and!; try done.
    rewrite elem_of_app, list_elem_of_singleton. naive_solver.
  - assert (b ∉ (zip (take (length verdicts) out) verdicts).*1) as Hz.
    { intros ([c v] & -> & Hx%elem_of_zip_l)%list_elem_of_fmap. apply Ho. rewrite <- (take_drop (length verdicts) out).
      apply elem_of_app. by left. }
    pose proof (insert_batch_other b dag _ dag validated Hz Hd Hv) as Hi.
    destruct (insert_batch _ _ _ _ _) as [dag' validated']. intros [= <-]. cbn. split_and!; try tauto.
    intros Hx. apply Ho. rewrite <- (take_drop (length verdicts) out). apply elem_of_app. by right.
  - destruct validated as [|c validated]; [done|]. apply not_elem_of_cons in Hv as [Hc Hv].
    destruct (finished st c _) as [[st' next]|] eqn:Hf; intros [= <-]; [|done]. cbn.
    destruct (finished_keeps st c st' next b Hok Hf Hc Hs) as [Hn ->]. split_and!; try done.
    rewrite elem_of_app, elem_of_set_iter. tauto.
Qed.
Lemma stuck_forever b events n : node_ok n → stuck b n → stuck b (node_run justifications events n).
Proof.
  unfold node_run. revert n. induction events as [|e events IH]; intros n Hok Hs; cbn [foldl]; [done|].
  destruct (node_step justifications n e) as [n'|] eqn:He; cbn; [|by apply IH].
  apply IH; [by eapply node_step_ok|by eapply stuck_step].
Qed.
Lemma node_run_reachable events n : node_reachable justifications n → node_reachable justifications (node_run justifications events n).
Proof.
  unfold node_run. revert n. induction events as [|e events IH]; intros n Hn; cbn [foldl]; [done|]. apply IH.
  destruct (node_step justifications n e) as [n'|] eqn:He; cbn; [by eapply reach_step|done].
Qed.
End Spec.

(** ** A lost block *)
Module ReceiverExample.
(** Two blocks on the genesis block 0, and a block on both. *)
Definition justs (b : nat) : list nat :=
  match b with 1 | 2 => [0] | 3 => [1; 2] | _ => [] end%nat.
Definition intake (b : nat) : list NodeEvent := [Arrive b; Receive true; Store false true; EndStore; Forward].
Definition genesis : Node nat := node_new {[0%nat]} {[0%nat]}.
(** The block on both arrives while its parents are in validation. *)
Definition received : Node nat := node_run justs (intake 1%nat ++ intake 2%nat ++ intake 3%nat) genesis.
Definition first_validated : Node nat := node_run justs [Process [Valid]; Validated] received.
Definition both_validated : Node nat := node_run justs [Process [Valid; Valid]; Validated] first_validated.

(** C37: A released block can be lost for good.  Blocks 1 and 2 are in
    validation when block 3, which has both as justifications, is stored.
    Because they are stored, they are not recorded as dependencies of 3, and
    the validation of 1 releases it next to 2.  Both are validated in one
    batch, 3 against a DAG without 2: it is not added.  Although all its
    justifications are in the DAG then, no further events, whatever they are,
    bring 3 into the DAG. *)
Theorem released_block_is_lost :
  n_out received = [1; 2]%nat ∧ blocks_st (n_state received) !! 3%nat = Some ∅ ∧
  n_out first_validated = [2; 3]%nat ∧ n_dag first_validated = {[0; 1]}%nat ∧
  n_dag both_validated = {[0; 1; 2]}%nat ∧ 3%nat ∈ n_store both_validated ∧
  ∀ events, 3%nat ∉ n_dag (node_run justs events both_validated).
Proof.
  do 5 (split; [vm_compute; reflexivity|]). split; [vm_decide|].
  intros events. apply (stuck_forever justs 3%nat).
  - apply node_reachable_ok. do 3 apply node_run_reachable. constructor.
  - unfold stuck. split_and!; [right; vm_compute; reflexivity|vm_compute; exact I|vm_decide..].
Qed.

End ReceiverExample.

(** ** The processor on a block with an unknown justification

    What [insert_batch] takes for granted, in the model of the validation: the
    block is not added, and the storage does not change. *)
Import MessageMap Finalizer MessageState Block DagStore BlockDag Validate.

Lemma try_map_missing {A B E} (f : A → Result B E) l x e : x ∈ l → f x = Err e → ∃ e', try_map f l = Err e'.
Proof.
  intros Hx Hf. destruct (try_map f l) as [ys|e'] eqn:Hl; [|by exists e']. apply try_map_Ok in Hl.
  apply list_elem_of_lookup in Hx as [i Hi]. destruct (Forall2_lookup_l _ _ _ _ _ Hl Hi) as (y & _ & Hy). congruence.
Qed.
Lemma unknown_justification_not_added cb far mg norm st block_store blake2b256 fuel block shard_id min_phlo_price j :
  j ∈ b_justifications block → dag_lookup st j = None → msg_map (dag_message_state (representation st)) !! j = None →
  ∃ e, Casper.validate_and_add_to_dag cb far mg norm st block_store blake2b256 fuel block shard_id min_phlo_price =
    Some (st, Err (Casper.ProcessInternal e)).
Proof.
  intros Hj Hst Hmm.
  assert (check_justification_regression st block = None) as Hreg.
  { unfold check_justification_regression. destruct (mapM _ _) as [justs|] eqn:Hm; [|done].
    apply mapM_Some in Hm. apply list_elem_of_lookup in Hj as [i Hi].
    destruct (Forall2_lookup_l _ _ _ _ _ Hm Hi) as (m & _ & Hm'). congruence. }
  assert (∃ e, sequence_number st block = Err e) as [e Hseq].
  { unfold sequence_number. destruct (try_map_missing (lookup_justification st) (b_justifications block) j (MissingJustification j))
      as [e ->]; [done| |by exists e]. unfold lookup_justification. by rewrite Hst. }
  exists e. unfold Casper.validate_and_add_to_dag, Casper.validate, block_summary, justification_regressions.
  rewrite Hreg, Hseq. reflexivity.
Qed.
