(* ===== verification/LfsRequester.v ===== *)
(** * The requester of the last finalized state

    [casper/src/engine/mod.rs] ([LfsState]) and
    [casper/src/engine/lfs_block_requester.rs]: a syncing node downloads the
    blocks of the finalized fringe and, by their justifications, all their
    ancestors.  The request loop and the response loop share the state under a
    lock and interleave between their accesses.  A block whose hash is valid is
    determined by its hash; of a block whose hash is not, only the hash and the
    height that it claims are used.  The test for the end and the choice of the
    next requests are one step; the request channel is unbounded, and reading a
    block that the store contains does not fail. *)

From S2P Require Import Prelude BTree Bytes.

Inductive ReqStatus :=
| Init
| ReqRequested
| Received.
#[export] Instance ReqStatus_eq_dec : EqDecision ReqStatus.
Proof. solve_decision. Defined.

Record ReceiveInfo := mkInfo {
  requested : bool;
  is_latest : bool;
  last_latest : bool;
}.

Section Requester.
Context {Key : Type} `{!Ord Key} `{Countable Key}.

Record LfsState := mkLfs {
  lfs_d : gmap Key ReqStatus;
  latest : gset Key;
  height_map : gmap Z (gset Key);
  lfs_finished : gset Key;
}.

Definition lfs_new (initial latest : gset Key) : LfsState := mkLfs (set_to_map (λ k, (k, Init)) initial) latest ∅ ∅.

Definition lfs_add (keys : gset Key) (st : LfsState) : LfsState :=
  mkLfs (lfs_d st ∪ set_to_map (λ k, (k, Init)) (keys ∖ lfs_finished st)) (latest st) (height_map st) (lfs_finished st).

(** The keys that a call of [get_next] selects. *)
Definition selects (resend : bool) (st : LfsState) (k : Key) (status : ReqStatus) : bool :=
  let check_for_request := bool_decide (status = Init) || (resend && bool_decide (status = ReqRequested)) in
  if bool_decide (latest st = ∅) then check_for_request else check_for_request && bool_decide (k ∈ latest st).
Definition get_next (resend : bool) (st : LfsState) : LfsState * gset Key :=
  let requests := lfs_d st ∪ set_to_map (λ k, (k, Init)) (latest st) in
  let keys : gset Key := dom (filter (λ ks : Key * ReqStatus, selects resend st ks.1 ks.2 = true) requests) in
  (mkLfs (set_to_map (λ k, (k, ReqRequested)) keys ∪ lfs_d st) (latest st) (height_map st) (lfs_finished st), keys).

Definition received (k : Key) (height : Z) (st : LfsState) : LfsState * ReceiveInfo :=
  if negb (bool_decide (lfs_d st !! k = Some ReqRequested)) then (st, mkInfo false false false)
  else
    let new_latest := latest st ∖ {[k]} in
    let is_latest := negb (bool_decide (latest st = new_latest)) in
    (mkLfs (<[k := Received]> (lfs_d st)) new_latest
       (<[height := {[k]} ∪ default ∅ (height_map st !! height)]> (height_map st)) (lfs_finished st),
     mkInfo true is_latest (is_latest && bool_decide (new_latest = ∅))).

Definition lfs_done (k : Key) (st : LfsState) : LfsState :=
  if bool_decide (lfs_d st !! k = Some Received)
  then mkLfs (delete k (lfs_d st)) (latest st) (height_map st) ({[k]} ∪ lfs_finished st)
  else st.

Definition is_finished (st : LfsState) : bool := bool_decide (latest st = ∅) && bool_decide (lfs_d st = ∅).

(** ** The loops *)
(** Where the response loop stands with a block of a valid hash. *)
Inductive ResponsePhase :=
| Waiting
| Accepted (k : Key)
| Saving (k : Key)
| Saved (k : Key).

Record Sync := mkSync {
  s_st : LfsState;
  s_phase : ResponsePhase;
  s_end : bool;
  s_selected : list Key;
  s_existing : list Key;
  s_asked : list Key;
  s_store : gset Key;
  s_lost : gset Key;
}.
Definition sync_new (fringe store : gset Key) : Sync := mkSync (lfs_new fringe fringe) Waiting false [] [] [] store ∅.

(** [Request] is a round of the request loop up to the lookup of the selected
    keys in the store, [Ask] the rest of it. [Incoming] is a block from the
    network with the hash and the height that it claims and whether its hash is
    valid, [Existing] the next block found in the store.  A failed write of
    the store is not noticed; the key is noted in [s_lost]. *)
Inductive SyncEvent :=
| Request (resend : bool)
| Ask
| Incoming (k : Key) (height : Z) (valid : bool)
| Existing (height : Z)
| AddJustifications
| SaveBlock (put_ok : bool)
| MarkDone.

Context (justifications : Key → list Key).

(** [validate_received_block] up to the validation of the hash. *)
Definition receive_block (k : Key) (height : Z) (valid : bool) (st : LfsState) : LfsState * ResponsePhase :=
  let (st, info) := received k height st in
  (st, if requested info && valid then Accepted k else Waiting).

Definition sync_step (s : Sync) (e : SyncEvent) : option Sync :=
  let '(mkSync st phase is_end selected existing asked store lost) := s in
  match e, phase with
  | Request resend, _ =>
      match selected with
      | [] => let (st', keys) := get_next resend st in
              Some (mkSync st' phase (is_finished st) (set_iter keys) existing asked store lost)
      | _ => None
      end
  | Ask, _ =>
      Some (mkSync st phase is_end [] (existing ++ filter (λ k, k ∈ store) selected)
              (if is_end then asked else asked ++ filter (λ k, k ∉ store) selected) store lost)
  | Incoming k height valid, Waiting =>
      let (st, phase) := receive_block k height valid st in Some (mkSync st phase is_end selected existing asked store lost)
  | Existing height, Waiting =>
      match existing with
      | [] => None
      | k :: existing =>
          let (st, phase) := receive_block k height true st in Some (mkSync st phase is_end selected existing asked store lost)
      end
  | AddJustifications, Accepted k =>
      Some (mkSync (lfs_add (list_to_set (justifications k)) st) (Saving k) is_end selected existing asked store lost)
  | SaveBlock put_ok, Saving k =>
      Some (if bool_decide (k ∈ store) then mkSync st (Saved k) is_end selected existing asked store lost
            else if put_ok then mkSync st (Saved k) is_end selected existing asked ({[k]} ∪ store) lost
            else mkSync st (Saved k) is_end selected existing asked store ({[k]} ∪ lost))
  | MarkDone, Saved k => Some (mkSync (lfs_done k st) Waiting is_end selected existing asked store lost)
  | _, _ => None
  end.

Definition sync_run (events : list SyncEvent) (s : Sync) : Sync := foldl (λ s e, default s (sync_step s e)) s events.
Inductive sync_reachable (fringe store : gset Key) : Sync → Prop :=
| sync_start : sync_reachable fringe store (sync_new fringe store)
| sync_next s e s' : sync_reachable fringe store s → sync_step s e = Some s' → sync_reachable fringe store s'.
End Requester.
#[global] Arguments LfsState Key {_ _}.
#[global] Arguments Sync Key {_ _}.
#[global] Arguments SyncEvent Key : clear implicits.
