(* ===== verification/LfsRequesterSpec.v ===== *)
(** * The requester of the last finalized state: theorems

    When the requester finishes it has the ancestry of the fringe; without
    blocks of an invalid hash it can always finish; one such block can keep it
    from ever finishing. *)

From S2P Require Import Prelude BTree Bytes LfsRequester.

Section Sync.
Context {Key : Type} `{!Ord Key} `{Countable Key} `{!OrdSpec Key}.
Context (justifications : Key → list Key).
Notation step := (sync_step justifications).
Notation LfsState := (LfsState Key).
Notation Sync := (Sync Key).
Implicit Types (st : LfsState) (s : Sync) (k : Key).

Lemma lookup_const_map (v : ReqStatus) (ks : gset Key) k :
  (set_to_map (λ k, (k, v)) ks : gmap Key ReqStatus) !! k = if decide (k ∈ ks) then Some v else None.
Proof.
  destruct (decide (k ∈ ks)) as [Hk|Hk].
  - apply lookup_set_to_map; [done|]. by exists k.
  - apply eq_None_not_Some. intros [w Hw]. apply lookup_set_to_map in Hw as (k' & Hk' & [= <- _]); done.
Qed.

Lemma lookup_lfs_add keys st k :
  lfs_d (lfs_add keys st) !! k =
  match lfs_d st !! k with
  | Some v => Some v
  | None => if decide (k ∈ keys ∖ lfs_finished st) then Some Init else None
  end.
Proof. cbn. rewrite lookup_union, lookup_const_map. destruct (lfs_d st !! k), (decide _); done. Qed.

(** The key is known: waited for or finished. *)
Definition known st k : Prop := is_Some (lfs_d st !! k) ∨ k ∈ lfs_finished st.

Lemma lookup_get_next resend st k :
  (∀ k, k ∈ latest st → is_Some (lfs_d st !! k)) →
  lfs_d (get_next resend st).1 !! k =
  match lfs_d st !! k with Some v => Some (if selects resend st k v then ReqRequested else v) | None => None end.
Proof.
  intros Hl. cbn. rewrite lookup_union, lookup_const_map.
  assert (Hr : lfs_d st ∪ set_to_map (λ k, (k, Init)) (latest st) = lfs_d st).
  { apply map_eq. intros i. rewrite lookup_union, lookup_const_map. destruct (decide (i ∈ latest st)) as [Hi|]; [|by destruct (lfs_d st !! i)].
    destruct (Hl _ Hi) as [v ->]. done. }
  rewrite Hr. destruct (lfs_d st !! k) as [v|] eqn:Hk.
  - destruct (selects resend st k v) eqn:Hs.
    + rewrite decide_True; [done|]. apply elem_of_dom. exists v. by apply map_lookup_filter_Some_2.
    + rewrite decide_False; [done|]. intros [w Hw]%elem_of_dom. apply map_lookup_filter_Some in Hw as [Hw Hsel].
      cbn in Hsel. congruence.
  - rewrite decide_False; [done|]. intros [w Hw]%elem_of_dom. apply map_lookup_filter_Some in Hw as [Hw _]. congruence.
Qed.

Lemma selects_not_received resend st k : selects resend st k Received = false.
Proof. unfold selects. destruct resend, (bool_decide _); done. Qed.

(** The key that the response loop works on. *)
Definition phase_key s : option Key :=
  match s_phase s with Waiting => None | Accepted k | Saving k | Saved k => Some k end.

Record sync_ok (fringe : gset Key) s : Prop := {
  ok_latest k : k ∈ latest (s_st s) → ∃ v, lfs_d (s_st s) !! k = Some v ∧ v ≠ Received;
  ok_fringe k : k ∈ fringe → known (s_st s) k;
  ok_finished k : k ∈ lfs_finished (s_st s) →
    k ∈ s_store s ∪ s_lost s ∧ ∀ j, j ∈ justifications k → known (s_st s) j;
  ok_phase k : phase_key s = Some k → lfs_d (s_st s) !! k = Some Received;
  ok_added k : s_phase s = Saving k ∨ s_phase s = Saved k → ∀ j, j ∈ justifications k → known (s_st s) j;
  ok_saved k : s_phase s = Saved k → k ∈ s_store s ∪ s_lost s;
}.

Lemma known_add keys st k : known st k → known (lfs_add keys st) k.
Proof. intros [[v Hv]|Hf]; [left; rewrite lookup_lfs_add, Hv; eauto|by right]. Qed.
Lemma known_added keys st k : k ∈ keys → known (lfs_add keys st) k.
Proof.
  intros Hk. destruct (decide (k ∈ lfs_finished st)) as [|Hf]; [by right|]. left. rewrite lookup_lfs_add.
  destruct (lfs_d st !! k); [eauto|]. rewrite decide_True by (by apply elem_of_difference). eauto.
Qed.
Lemma known_done k' st k : known st k → known (lfs_done k' st) k.
Proof.
  unfold lfs_done. case_bool_decide; [|done]. intros [Hv|Hf]; [|right; by apply elem_of_union_r].
  destruct (decide (k' = k)) as [->|Hne]; [right; cbn; by apply elem_of_union_l, elem_of_singleton|].
  left. cbn. by rewrite lookup_delete_ne.
Qed.
Lemma known_get_next resend st k :
  (∀ k, k ∈ latest st → is_Some (lfs_d st !! k)) → known st k → known (get_next resend st).1 k.
Proof. intros Hl [[v Hv]|Hf]; [left; rewrite lookup_get_next, Hv by done; eauto|by right]. Qed.
Lemma known_received k' h st k : known st k → known (received k' h st).1 k.
Proof.
  unfold received. case_bool_decide; [|done]. intros [[v Hv]|Hf]; [left|by right]. cbn.
  destruct (decide (k' = k)) as [->|]; [rewrite lookup_insert_eq|rewrite lookup_insert_ne by done]; eauto.
Qed.

Lemma sync_new_ok fringe store : sync_ok fringe (sync_new fringe store).
Proof.
  split; cbn; try set_solver.
  - intros k Hk. exists Init. by rewrite lookup_const_map, decide_True.
  - intros k Hk. left. cbn. rewrite lookup_const_map, decide_True by done. eauto.
Qed.

Lemma latest_in_d fringe s : sync_ok fringe s → ∀ k, k ∈ latest (s_st s) → is_Some (lfs_d (s_st s) !! k).
Proof. intros Hok k Hk. destruct (ok_latest _ _ Hok k Hk) as (v & Hv & _). eauto. Qed.

(** A state that keeps what is known, the finished keys, the received keys and
    the phase keeps the invariant. *)
Lemma sync_ok_weaken fringe s st' is_end selected existing asked :
  sync_ok fringe s →
  (∀ k, k ∈ latest st' → ∃ v, lfs_d st' !! k = Some v ∧ v ≠ Received) →
  (∀ k, known (s_st s) k → known st' k) → lfs_finished st' = lfs_finished (s_st s) →
  (∀ k, lfs_d (s_st s) !! k = Some Received → lfs_d st' !! k = Some Received) →
  sync_ok fringe (mkSync st' (s_phase s) is_end selected existing asked (s_store s) (s_lost s)).
Proof.
  intros [] Hl Hk Hf Hr. split; cbn; rewrite ?Hf; try done; eauto.
  intros k Hfin. destruct (ok_finished0 k Hfin). split; eauto.
Qed.

Lemma request_ok fringe s resend is_end selected :
  sync_ok fringe s →
  sync_ok fringe (mkSync (get_next resend (s_st s)).1 (s_phase s) is_end selected (s_existing s) (s_asked s) (s_store s) (s_lost s)).
Proof.
  intros Hok. pose proof (latest_in_d _ _ Hok) as Hl. apply sync_ok_weaken; try done.
  - change (latest (get_next resend (s_st s)).1) with (latest (s_st s)). intros k Hk. destruct (ok_latest _ _ Hok k Hk) as (v & Hv & Hn).
    rewrite lookup_get_next, Hv by done. eexists. split; [done|]. by destruct (selects _ _ _ _).
  - intros k. by apply known_get_next.
  - intros k Hk. by rewrite lookup_get_next, Hk, selects_not_received by done.
Qed.

Lemma receive_block_ok fringe s k h valid is_end selected existing asked :
  sync_ok fringe s → s_phase s = Waiting →
  sync_ok fringe (mkSync (receive_block k h valid (s_st s)).1 (receive_block k h valid (s_st s)).2
    is_end selected existing asked (s_store s) (s_lost s)).
Proof.
  intros Hok Hw. unfold receive_block. pose proof (known_received k h (s_st s)) as Hkn.
  destruct (received k h (s_st s)) as [st' info] eqn:Hr. cbn [fst snd] in *.
  unfold received in Hr. destruct Hok as [Hl Hfr Hfin Hph Hadd Hsav].
  case_bool_decide as Hreq; cbn [negb] in Hr; injection Hr as <- <-; cbn [requested andb].
  - split; cbn.
    + intros k' [Hk' Hne]%elem_of_difference. destruct (Hl k' Hk') as (v & Hv & Hn). exists v.
      rewrite lookup_insert_ne by set_solver. done.
    + eauto.
    + intros k' Hk'. destruct (Hfin k' Hk'). split; eauto.
    + destruct valid; cbn; [|done]. intros k' [= <-]. by rewrite lookup_insert_eq.
    + destruct valid; naive_solver.
    + by destruct valid.
  - split; cbn; eauto; naive_solver.
Qed.

Lemma save_ok fringe st k is_end selected existing asked store lost store' lost' :
  sync_ok fringe (mkSync st (Saving k) is_end selected existing asked store lost) →
  store ∪ lost ⊆ store' ∪ lost' → k ∈ store' ∪ lost' →
  sync_ok fringe (mkSync st (Saved k) is_end selected existing asked store' lost').
Proof.
  intros [Hl Hfr Hfin Hph Hadd _] Hsub Hk. cbn in *. split; cbn; [done..| | | |].
  - intros k' Hk'. destruct (Hfin k' Hk') as [Hin Hj]. split; [by apply Hsub|done].
  - intros k' [= <-]. by apply Hph.
  - intros k' [?|[= <-]]; [done|]. apply Hadd. by left.
  - by intros k' [= <-].
Qed.

Lemma sync_step_ok fringe s e s' : sync_ok fringe s → step s e = Some s' → sync_ok fringe s'.
Proof.
  intros Hok. pose proof Hok as [Hl Hfr Hfin Hph Hadd Hsav].
  destruct s as [st phase is_end selected existing asked store lost].
  destruct e as [resend| |k h valid|h| |put_ok|]; cbn [sync_step].
  - destruct selected; [|by destruct phase]. pose proof (request_ok fringe _ resend (is_finished st) (set_iter (get_next resend st).2) Hok) as Hn.
    cbn [s_st s_phase s_existing s_asked s_store s_lost] in Hn.
    destruct phase, (get_next resend st); intros [= <-]; exact Hn.
  - destruct phase; intros [= <-]; by apply (sync_ok_weaken fringe (mkSync _ _ _ _ _ _ _ _)) with (1 := Hok).
  - destruct phase; [|done..]. pose proof (receive_block_ok fringe _ k h valid is_end selected existing asked Hok eq_refl) as Hn.
    cbn [s_st s_store s_lost] in Hn. destruct (receive_block k h valid st); intros [= <-]; exact Hn.
  - destruct phase; [|done..]. destruct existing as [|k existing]; [done|].
    pose proof (receive_block_ok fringe _ k h true is_end selected existing asked Hok eq_refl) as Hn.
    cbn [s_st s_store s_lost] in Hn. destruct (receive_block k h true st); intros [= <-]; exact Hn.
  - destruct phase as [|k| |]; [done| |done..]. intros [= <-]. cbn in *. split; cbn.
    + intros k' Hk'. destruct (Hl k' Hk') as (v & Hv & Hn). exists v. split; [|done].
      change (lfs_d (lfs_add (list_to_set (justifications k)) st) !! k' = Some v). by rewrite lookup_lfs_add, Hv.
    + intros k' Hk'. by apply known_add, Hfr.
    + intros k' Hk'. destruct (Hfin k' Hk') as [? Hj]. split; [done|]. intros j Hjj. by apply known_add, Hj.
    + intros k' [= <-]. change (lfs_d (lfs_add (list_to_set (justifications k)) st) !! k = Some Received).
      by rewrite lookup_lfs_add, (Hph k eq_refl).
    + intros k' [[= <-]|?] j Hj; [|done]. apply known_added. by apply elem_of_list_to_set.
    + done.
  - destruct phase as [| |k|]; [done..| |done]. intros [= <-]. cbn in *.
    case_bool_decide as Hs; [|destruct put_ok]; (eapply save_ok; [exact Hok|..]);
      [intros i|by apply elem_of_union_l|intros i| |intros i|]; rewrite !elem_of_union, ?elem_of_singleton; tauto.
  - destruct phase as [| | |k]; [done..|]. intros [= <-]. cbn in *.
    pose proof (Hph k eq_refl) as Hr. pose proof (Hadd k (or_intror eq_refl)) as Hjs. pose proof (Hsav k eq_refl) as Hst.
    pose proof (known_done k st) as Hkn. unfold lfs_done in *. rewrite bool_decide_eq_true_2 in * by done.
    split; cbn; [|by eauto| |done|by intros ? [?|?]|done].
    + intros k' Hk'. destruct (Hl k' Hk') as (v & Hv & Hn). exists v. rewrite lookup_delete_ne by congruence. done.
    + intros k' [->%elem_of_singleton|Hk']%elem_of_union; [split; [done|]; intros j Hj; by apply Hkn, Hjs|].
      destruct (Hfin k' Hk') as [? Hj]. split; [done|]. intros j Hjj. by apply Hkn, Hj.
Qed.

Lemma sync_reachable_ok fringe store s : sync_reachable justifications fringe store s → sync_ok fringe s.
Proof. induction 1 as [|s e s' _ IH Hs]; [apply sync_new_ok|by eapply sync_step_ok]. Qed.

(** The ancestry of a set of blocks. *)
Inductive ancestor (fringe : gset Key) : Key → Prop :=
| anc_fringe k : k ∈ fringe → ancestor fringe k
| anc_parent k j : ancestor fringe k → j ∈ justifications k → ancestor fringe j.

(** C22: When the requester has finished, in whatever order requests and
    answers, also of blocks with an invalid hash, were handled, every block of
    the ancestry of the fringe is in the block store, but for blocks of which
    the write to the store failed. *)
Theorem sync_fetches_ancestry fringe store s
    (Hreach : sync_reachable justifications fringe store s) (Hend : is_finished (s_st s) = true) k
    (Hanc : ancestor fringe k) :
  k ∈ s_store s ∪ s_lost s.
Proof.
  apply sync_reachable_ok in Hreach as [_ Hfr Hfin _ _ _]. unfold is_finished in Hend.
  apply andb_true_iff in Hend as [_ Hd%bool_decide_eq_true].
  assert (Hall : ∀ k, known (s_st s) k → k ∈ lfs_finished (s_st s)).
  { intros i [[v Hv]|]; [|done]. by rewrite Hd, lookup_empty in Hv. }
  assert (k ∈ lfs_finished (s_st s)) as Hk; [|by apply Hfin].
  induction Hanc as [k Hk|k j _ IH Hj]; [by apply Hall, Hfr|]. apply Hall. by apply (Hfin k).
Qed.

(** ** A block that is never received again *)
Definition stalled k s : Prop := lfs_d (s_st s) !! k = Some Received ∧ phase_key s ≠ Some k.

Lemma received_other k k' h st : lfs_d st !! k = Some Received → lfs_d (received k' h st).1 !! k = Some Received.
Proof.
  intros Hk. unfold received. case_bool_decide as Hr; cbn; [|done]. rewrite lookup_insert_ne by congruence. done.
Qed.

Lemma receive_stalled k k' h valid st :
  lfs_d st !! k = Some Received →
  lfs_d (receive_block k' h valid st).1 !! k = Some Received ∧
  (receive_block k' h valid st).2 ≠ Accepted k.
Proof.
  intros Hk. unfold receive_block. pose proof (received_other k k' h st Hk) as Hd.
  destruct (received k' h st) as [st' info] eqn:Hr. cbn [fst snd] in *. split; [done|].
  destruct (requested info && valid) eqn:Hv; [|done]. intros [= ->]. unfold received in Hr.
  rewrite bool_decide_eq_false_2 in Hr by congruence. injection Hr as <- <-. done.
Qed.

Lemma receive_phase k h valid st : (receive_block k h valid st).2 = Waiting ∨ (receive_block k h valid st).2 = Accepted k.
Proof. unfold receive_block. destruct (received k h st) as [? info]. cbn. destruct (requested info && valid); auto. Qed.

Lemma stalled_step fringe k s e s' : sync_ok fringe s → stalled k s → step s e = Some s' → stalled k s'.
Proof.
  intros Hok [Hr Hp]. pose proof (latest_in_d _ _ Hok) as Hl.
  destruct s as [st phase is_end selected existing asked store lost]. unfold stalled, phase_key in *. cbn [s_st s_phase] in *.
  destruct e as [resend| |k' h valid|h| |put_ok|]; cbn [sync_step].
  - destruct selected; [|by destruct phase]. pose proof (lookup_get_next resend st k Hl) as Hn. rewrite Hr, selects_not_received in Hn.
    destruct phase, (get_next resend st); intros [= <-]; done.
  - destruct phase; intros [= <-]; done.
  - destruct phase; [|done..]. destruct (receive_stalled k k' h valid st Hr) as [H1 H2], (receive_phase k' h valid st) as [H3|H3];
      destruct (receive_block k' h valid st) as [st' ph]; intros [= <-]; cbn in *; subst ph; split; congruence.
  - destruct phase; [|done..]. destruct existing as [|k' existing]; [done|].
    destruct (receive_stalled k k' h true st Hr) as [H1 H2], (receive_phase k' h true st) as [H3|H3];
      destruct (receive_block k' h true st) as [st' ph]; intros [= <-]; cbn in *; subst ph; split; congruence.
  - destruct phase as [|k'| |]; [done| |done..]. intros [= <-]. cbn [s_st s_phase]. split; [|done].
    by rewrite lookup_lfs_add, Hr.
  - destruct phase as [| |k'|]; [done..| |done]. intros [= <-]. by destruct (bool_decide _), put_ok.
  - destruct phase as [| | |k']; [done..|]. intros [= <-]. cbn [s_st s_phase]. split; [|done].
    unfold lfs_done. case_bool_decide; [|done]. cbn. rewrite lookup_delete_ne by congruence. done.
Qed.

Lemma stalled_run fringe k events s :
  sync_ok fringe s → stalled k s → stalled k (sync_run justifications events s).
Proof.
  revert s. induction events as [|e events IH]; intros s Hok Hst; [done|]. cbn.
  destruct (step s e) as [s'|] eqn:Hs; cbn; apply IH; try done; [by eapply sync_step_ok|by eapply stalled_step].
Qed.

(** C35: A block with an invalid hash can keep the requester from ever
    finishing.  When the response loop waits and a block is requested, an
    answer with its hash and other contents marks it as received; it is
    neither requested nor accepted again, and whatever requests and answers
    follow, the requester does not finish. *)
Theorem invalid_block_stalls_sync fringe store s k h
    (Hreach : sync_reachable justifications fringe store s) (Hwait : s_phase s = Waiting)
    (Hreq : lfs_d (s_st s) !! k = Some ReqRequested) events :
  is_finished (s_st (sync_run justifications (Incoming k h false :: events) s)) = false.
Proof.
  pose proof (sync_reachable_ok _ _ _ Hreach) as Hok.
  assert (∃ s', step s (Incoming k h false) = Some s' ∧ stalled k s') as (s' & Hs & Hst).
  { destruct s as [st phase is_end selected existing asked store' lost]. cbn in *. subst phase.
    unfold receive_block, received. rewrite bool_decide_eq_true_2 by done. cbn.
    eexists. split; [done|]. split; [apply lookup_insert_eq|done]. }
  change (is_finished (s_st (sync_run justifications events (default s (step s (Incoming k h false))))) = false).
  rewrite Hs. cbn [default from_option id].
  destruct (stalled_run fringe k events s' (sync_step_ok _ _ _ _ Hok Hs) Hst) as [Hr _].
  unfold is_finished. apply andb_false_iff. right. apply bool_decide_eq_false. intros Hd. by rewrite Hd, lookup_empty in Hr.
Qed.

(** ** Finishing *)
Definition honest (e : SyncEvent Key) : Prop := match e with Incoming _ _ false => False | _ => True end.

(** Every received block is the one in hand, no finished block is waited for,
    and the blocks are those of a set. *)
Record live_ok (A : gset Key) s : Prop := {
  lv_received k : lfs_d (s_st s) !! k = Some Received → phase_key s = Some k;
  lv_apart k : is_Some (lfs_d (s_st s) !! k) → k ∉ lfs_finished (s_st s);
  lv_inside k : known (s_st s) k → k ∈ A;
}.

Lemma receive_live A s k h is_end selected existing asked :
  live_ok A s → s_phase s = Waiting →
  live_ok A (mkSync (receive_block k h true (s_st s)).1 (receive_block k h true (s_st s)).2
    is_end selected existing asked (s_store s) (s_lost s)).
Proof.
  intros [Hr Ha Hi] Hw. unfold phase_key in Hr. rewrite Hw in Hr. unfold receive_block, received.
  case_bool_decide as Hreq; cbn; [|split; cbn; [intros k' Hk'; by apply Hr in Hk'|done..]].
  split; cbn.
  - intros k'. destruct (decide (k = k')) as [->|Hne]; [done|]. rewrite lookup_insert_ne by done. intros Hk'. by apply Hr in Hk'.
  - intros k'. destruct (decide (k = k')) as [->|Hne]; [intros _; apply Ha; eauto|]. rewrite lookup_insert_ne by done. apply Ha.
  - intros k' [Hk'|Hk']; [|apply Hi; by right]. apply Hi. left.
    cbn in Hk'. destruct (decide (k = k')) as [->|Hne]; [eauto|]. by rewrite lookup_insert_ne in Hk'.
Qed.

Lemma live_step fringe A s e s' :
  (∀ k j, k ∈ A → j ∈ justifications k → j ∈ A) →
  sync_ok fringe s → live_ok A s → honest e → step s e = Some s' → live_ok A s'.
Proof.
  intros Hclosed Hok Hlive He. pose proof (latest_in_d _ _ Hok) as Hl. pose proof Hlive as [Hr Ha Hi]. pose proof (ok_phase _ _ Hok) as Hph.
  destruct s as [st phase is_end selected existing asked store lost]. unfold phase_key in *. cbn [s_st s_phase] in *.
  destruct e as [resend| |k h valid|h| |put_ok|]; cbn [sync_step].
  - destruct selected; [|by destruct phase]. pose proof (λ k, lookup_get_next resend st k Hl) as Hn.
    assert (lfs_finished (get_next resend st).1 = lfs_finished st) as Hf by done.
    intros Hs. assert (s' = mkSync (get_next resend st).1 phase (is_finished st) (set_iter (get_next resend st).2) existing asked store lost) as ->
      by (destruct phase; by injection Hs as <-). clear Hs.
    split; cbn [s_st]; unfold phase_key; cbn [s_phase].
    + intros k. rewrite Hn. destruct (lfs_d st !! k) as [v|] eqn:Hk; [|done]. destruct (selects resend st k v); [done|].
      intros [= ->]. by apply Hr.
    + intros k. rewrite Hn, Hf. destruct (lfs_d st !! k) as [v|] eqn:Hk; [|by intros [??]]. intros _. apply Ha. eauto.
    + intros k [Hk|Hk]; apply Hi; [left|by right]. rewrite Hn in Hk. destruct (lfs_d st !! k); [eauto|by destruct Hk].
  - destruct phase; intros [= <-]; done.
  - destruct phase; [|done..]. destruct valid; [|done].
    pose proof (receive_live A _ k h is_end selected existing asked Hlive eq_refl) as Hn. cbn [s_st s_store s_lost] in Hn.
    destruct (receive_block k h true st); intros [= <-]; exact Hn.
  - destruct phase; [|done..]. destruct existing as [|k existing]; [done|].
    pose proof (receive_live A _ k h is_end selected existing asked Hlive eq_refl) as Hn. cbn [s_st s_store s_lost] in Hn.
    destruct (receive_block k h true st); intros [= <-]; exact Hn.
  - destruct phase as [|k| |]; [done| |done..]. intros [= <-]. split; unfold phase_key; cbn [s_st s_phase].
    + intros k'. rewrite lookup_lfs_add. destruct (lfs_d st !! k') eqn:Hk'; [intros [= ->]; by apply Hr in Hk'|by case_decide].
    + intros k'. rewrite lookup_lfs_add. cbn [lfs_finished lfs_add]. destruct (lfs_d st !! k') eqn:Hk'; [intros _; apply Ha; eauto|].
      case_decide as Hd; [|by intros [??]]. intros _. by apply elem_of_difference in Hd as [_ ?].
    + intros k' [Hk'|Hk']; [|apply Hi; by right]. rewrite lookup_lfs_add in Hk'. destruct (lfs_d st !! k') eqn:E; [apply Hi; left; eauto|].
      case_decide as Hd; [|by destruct Hk']. apply elem_of_difference in Hd as [Hd%elem_of_list_to_set _].
      apply (Hclosed k); [|done]. apply Hi. left. rewrite (Hph k eq_refl). eauto.
  - destruct phase as [| |k|]; [done..| |done]. intros [= <-]. by destruct (bool_decide _), put_ok.
  - destruct phase as [| | |k]; [done..|]. intros [= <-]. pose proof (Hph k eq_refl) as Hk. unfold lfs_done.
    rewrite bool_decide_eq_true_2 by done. split; cbn.
    + intros k'. rewrite lookup_delete_Some. intros [Hne Hk']. apply Hr in Hk'. congruence.
    + intros k'. rewrite lookup_delete_is_Some. intros [Hne Hk']. apply Ha in Hk'. set_solver.
    + intros k' [Hk'|Hk']; cbn in Hk'; apply Hi; [left; by apply lookup_delete_is_Some in Hk' as [_ ?]|].
      apply elem_of_union in Hk' as [->%elem_of_singleton|]; [left; eauto|by right].
Qed.

Lemma live_run fringe A events s :
  (∀ k j, k ∈ A → j ∈ justifications k → j ∈ A) → Forall honest events →
  sync_ok fringe s → live_ok A s →
  sync_ok fringe (sync_run justifications events s) ∧ live_ok A (sync_run justifications events s).
Proof.
  intros Hc Hh. revert s. induction Hh as [|e events He _ IH]; intros s Hok Hl; [done|]. cbn.
  destruct (step s e) as [s'|] eqn:Hs; cbn; apply IH; try done; [by eapply sync_step_ok|by eapply live_step].
Qed.

(** The rest of the work on the block in hand. *)
Definition settle : list (SyncEvent Key) := [AddJustifications; SaveBlock true; MarkDone; Ask].
Lemma settle_waiting s : s_phase (sync_run justifications (settle ++ settle ++ settle) s) = Waiting ∧
  s_selected (sync_run justifications (settle ++ settle ++ settle) s) = [].
Proof.
  destruct s as [st phase ie sel ex ask store lost]. destruct phase as [|k|k|k]; cbn; try done;
    repeat case_bool_decide; cbn; done.
Qed.

(** A round that fetches one block. *)
Definition fetch k : list (SyncEvent Key) := [Request true; Incoming k 0 true; AddJustifications; SaveBlock true; MarkDone].
Lemma fetch_finishes fringe s k v :
  sync_ok fringe s → s_phase s = Waiting → s_selected s = [] →
  lfs_d (s_st s) !! k = Some v → selects true (s_st s) k v = true →
  lfs_finished (s_st (sync_run justifications (fetch k) s)) = {[k]} ∪ lfs_finished (s_st s).
Proof.
  intros Hok Hw Hsel Hk Hs. pose proof (lookup_get_next true (s_st s) k (latest_in_d _ _ Hok)) as Hn. rewrite Hk, Hs in Hn.
  destruct s as [st phase ie sel ex ask store lost]. cbn [s_phase s_selected s_st] in *. subst phase sel.
  change (lfs_finished st) with (lfs_finished (get_next true st).1). unfold fetch, sync_run. cbn [foldl sync_step].
  destruct (get_next true st) as [st1 keys]. cbn [fst default from_option id sync_step] in *.
  unfold receive_block, received. rewrite bool_decide_eq_true_2 by done. cbn [negb requested andb default from_option id sync_step].
  set (st2 := mkLfs _ _ _ _). assert (lfs_d (lfs_add (list_to_set (justifications k)) st2) !! k = Some Received) as Hr.
  { rewrite lookup_lfs_add. cbn. by rewrite lookup_insert_eq. }
  case_bool_decide; cbn [default from_option id sync_step s_st]; unfold lfs_done; by rewrite bool_decide_eq_true_2.
Qed.

(** While it is not finished, a key is selected. *)
Lemma next_key fringe A s :
  sync_ok fringe s → live_ok A s → s_phase s = Waiting → is_finished (s_st s) = false →
  ∃ k v, lfs_d (s_st s) !! k = Some v ∧ selects true (s_st s) k v = true.
Proof.
  intros Hok Hl Hw Hf.
  assert (Hn : ∀ k v, lfs_d (s_st s) !! k = Some v → bool_decide (v = Init) || bool_decide (v = ReqRequested) = true).
  { intros k v Hk. destruct v; try done. apply (lv_received _ _ Hl) in Hk. unfold phase_key in Hk. by rewrite Hw in Hk. }
  unfold selects. destruct (decide (latest (s_st s) = ∅)) as [He|He].
  - unfold is_finished in Hf. rewrite bool_decide_eq_true_2 in Hf by done. apply bool_decide_eq_false in Hf.
    apply map_choose in Hf as (k & v & Hk). exists k, v. split; [done|]. rewrite bool_decide_eq_true_2 by done. by apply (Hn k).
  - apply set_choose_L in He as [k Hk]. destruct (ok_latest _ _ Hok k Hk) as (v & Hv & _). exists k, v. split; [done|].
    rewrite bool_decide_eq_false_2 by set_solver. rewrite (bool_decide_eq_true_2 (k ∈ _)) by done. rewrite andb_true_r. by apply (Hn k).
Qed.

Lemma finished_step s e s' : step s e = Some s' → lfs_finished (s_st s) ⊆ lfs_finished (s_st s').
Proof.
  assert (Hr : ∀ k h valid st, lfs_finished (receive_block k h valid st).1 = lfs_finished st).
  { intros. unfold receive_block, received. by case_bool_decide. }
  destruct s as [st phase ie sel ex ask store lost]. destruct e as [resend| |k h valid|h| |put_ok|]; cbn [sync_step].
  - destruct sel; [|by destruct phase]. destruct phase; by intros [= <-].
  - destruct phase; by intros [= <-].
  - destruct phase; [|done..]. pose proof (Hr k h valid st) as Hf. destruct (receive_block k h valid st); intros [= <-]. cbn in *. by rewrite Hf.
  - destruct phase; [|done..]. destruct ex as [|k ex]; [done|]. pose proof (Hr k h true st) as Hf.
    destruct (receive_block k h true st); intros [= <-]. cbn in *. by rewrite Hf.
  - destruct phase; [done| |done..]. by intros [= <-].
  - destruct phase; [done..| |done]. intros [= <-]. by destruct (bool_decide _), put_ok.
  - destruct phase as [| | |k]; [done..|]. intros [= <-]. cbn. unfold lfs_done. case_bool_decide; [|done]. apply union_subseteq_r.
Qed.
Lemma finished_run events s : lfs_finished (s_st s) ⊆ lfs_finished (s_st (sync_run justifications events s)).
Proof.
  revert s. induction events as [|e events IH]; intros s; [done|]. cbn.
  destruct (step s e) as [s'|] eqn:Hs; cbn; [|apply IH]. etransitivity; [by eapply finished_step|apply IH].
Qed.

Lemma size_difference_mono (A X Y : gset Key) : X ⊆ Y → (size (A ∖ Y) ≤ size (A ∖ X))%nat.
Proof. intros HXY. apply subseteq_size. set_solver. Qed.
Lemma size_difference_add (A X : gset Key) k : k ∈ A ∖ X → (size (A ∖ ({[k]} ∪ X)) < size (A ∖ X))%nat.
Proof. intros Hk. apply subset_size. set_solver. Qed.

Lemma live_finish fringe A : (∀ k j, k ∈ A → j ∈ justifications k → j ∈ A) →
  ∀ n s, sync_ok fringe s → live_ok A s → (size (A ∖ lfs_finished (s_st s)) < n)%nat →
  ∃ events, Forall honest events ∧ is_finished (s_st (sync_run justifications events s)) = true.
Proof.
  intros Hc. induction n as [|n IH]; [lia|]. intros s Hok Hl Hn. set (pre := settle ++ settle ++ settle).
  assert (Forall honest pre) as Hpre by (by repeat constructor).
  destruct (live_run fringe A pre s Hc Hpre Hok Hl) as [Hok1 Hl1], (settle_waiting s) as [Hw Hsel].
  pose proof (finished_run pre s) as Hmono. set (s1 := sync_run justifications pre s) in *.
  destruct (is_finished (s_st s1)) eqn:Hf; [by exists pre|].
  destruct (next_key fringe A s1 Hok1 Hl1 Hw Hf) as (k & v & Hk & Hs).
  pose proof (fetch_finishes fringe s1 k v Hok1 Hw Hsel Hk Hs) as Hfin.
  assert (Forall honest (fetch k)) as Hfetch by (by repeat constructor).
  destruct (live_run fringe A (fetch k) s1 Hc Hfetch Hok1 Hl1) as [Hok2 Hl2].
  destruct (IH _ Hok2 Hl2) as (rest & Hrest & Hend).
  - rewrite Hfin. assert (k ∈ A ∖ lfs_finished (s_st s1)) as HkA.
    { apply elem_of_difference. split; [apply (lv_inside _ _ Hl1); left; eauto|apply (lv_apart _ _ Hl1); eauto]. }
    pose proof (size_difference_mono A _ _ Hmono). pose proof (size_difference_add A _ k HkA). lia.
  - exists (pre ++ fetch k ++ rest). split; [rewrite !(Forall_app honest); tauto|]. unfold sync_run. rewrite !foldl_app. exact Hend.
Qed.

(** C23: While no block with an invalid hash arrives, the requester can always
    finish: when the ancestry of the fringe is in a finite set, every run has
    a continuation, of requests and answers with valid blocks, after which it
    has finished. *)
Theorem sync_can_finish fringe store A events
    (Hfringe : fringe ⊆ A) (Hclosed : ∀ k j, k ∈ A → j ∈ justifications k → j ∈ A) (Hhonest : Forall honest events) :
  ∃ more, Forall honest more ∧
  is_finished (s_st (sync_run justifications (events ++ more) (sync_new fringe store))) = true.
Proof.
  assert (live_ok A (sync_new fringe store)) as Hl.
  { split; cbn.
    - intros k. rewrite lookup_const_map. by case_decide.
    - set_solver.
    - intros k [Hk|Hk]; cbn in Hk; [|set_solver]. rewrite lookup_const_map in Hk. case_decide; [by apply Hfringe|by destruct Hk]. }
  destruct (live_run fringe A events _ Hclosed Hhonest (sync_new_ok fringe store) Hl) as [Hok Hlive].
  destruct (live_finish fringe A Hclosed (S (size (A ∖ lfs_finished (s_st (sync_run justifications events (sync_new fringe store)))))) _ Hok Hlive)
    as (more & Hm & Hend); [lia|].
  exists more. split; [done|]. unfold sync_run in *. by rewrite foldl_app.
Qed.
End Sync.

(** ** Examples *)
Module SyncExample.

(** Block 2 on block 1 on block 0. *)
Definition justs (k : nat) : list nat := match k with O => [] | S k => [k] end.
Definition get (k : nat) : list (SyncEvent nat) :=
  [Request false; Ask; Incoming k (Z.of_nat k) true; AddJustifications; SaveBlock true; MarkDone].
Definition fringe : gset nat := {[2%nat]}.
Definition synced : Sync nat := sync_run justs (get 2 ++ get 1 ++ get 0) (sync_new fringe ∅).
Definition asked : Sync nat := sync_run justs [Request false] (sync_new fringe ∅).

Lemma run_reachable events s :
  sync_reachable justs fringe ∅ s → sync_reachable justs fringe ∅ (sync_run justs events s).
Proof.
  revert s. induction events as [|e events IH]; intros s Hs; [done|]. apply IH.
  destruct (sync_step justs s e) as [s'|] eqn:He; cbn; [by eapply sync_next|done].
Qed.

Lemma sync_fetches_ancestry_witness : is_finished (s_st synced) = true ∧ 0%nat ∈ s_store synced ∪ s_lost synced.
Proof.
  assert (is_finished (s_st synced) = true) as Hf by (vm_compute; reflexivity). split; [exact Hf|].
  apply (sync_fetches_ancestry justs fringe ∅ synced); [apply run_reachable; constructor|exact Hf|].
  apply (anc_parent _ _ 1%nat); [apply (anc_parent _ _ 2%nat); [apply anc_fringe|]|]; vm_decide.
Defined.

Lemma invalid_block_stalls_sync_witness :
  is_finished (s_st (sync_run justs (Incoming 2%nat 9 false :: get 2 ++ get 1 ++ get 0) asked)) = false.
Proof.
  apply (invalid_block_stalls_sync justs fringe ∅ asked 2%nat 9); [apply run_reachable; constructor|vm_compute; reflexivity..].
Defined.

Lemma sync_can_finish_witness :
  ∃ more, Forall honest more ∧ is_finished (s_st (sync_run justs ([Request false] ++ more) (sync_new fringe ∅))) = true.
Proof.
  apply (sync_can_finish justs fringe ∅ {[0%nat; 1%nat; 2%nat]} [Request false]).
  - unfold fringe. set_solver.
  - intros [|k] j Hk Hj; cbn in Hj; [by inversion Hj|]. apply list_elem_of_singleton in Hj as ->. set_solver by lia.
  - by repeat constructor.
Defined.
End SyncExample.
