(* ===== verification/Trace.v ===== *)
(** * Trace events and stable hashing

    [rspace/src/hashing/stable_hash_provider.rs], [rspace/src/trace/event.rs],
    [rspace/src/util.rs] and the byte-aligned half of
    [rspace/src/serializers/scodec_serialize.rs].  Channels, patterns, data and
    continuations are serializable types; the digest is a parameter.  The
    source compares [Produce] and [Consume] by their hash only: ordered sets
    and maps of them are kept by hash, and [comm_eqb] is the derived equality
    of [Comm]. *)

From S2P Require Import Prelude BTree Bytes.

Notation hash := (list byte).

(** The [Serialize] trait; the text of a decoding error is dropped by its
    callers. *)
Class Serialize (A : Type) := {
  ser_encode : A → list byte;
  ser_decode : list byte → option A;
}.
#[export] Hint Mode Serialize ! : typeclass_instances.

(** The law of an implementation that can be read back. *)
Class SerializeSpec (A : Type) `{!Serialize A} : Prop := {
  ser_decode_encode (a : A) : ser_decode (ser_encode a) = Some a;
}.
#[export] Hint Mode SerializeSpec ! - : typeclass_instances.

(** ** Sorting: [sort_by] is a stable sort *)
Definition cmp_le {A} (c : A → A → comparison) (a b : A) : Prop := c a b ≠ Gt.
#[export] Instance cmp_le_dec {A} (c : A → A → comparison) a b : Decision (cmp_le c a b).
Proof. unfold cmp_le. destruct (c a b); [left|left|right]; congruence. Defined.

(** Before the first element that is not smaller. *)
Fixpoint insert_by {A} (c : A → A → comparison) (a : A) (l : list A) : list A :=
  match l with
  | [] => [a]
  | b :: l' => match c a b with Gt => b :: insert_by c a l' | _ => a :: l end
  end.
Definition sort_by {A} (c : A → A → comparison) (l : list A) : list A := foldr (insert_by c) [] l.

Lemma insert_by_perm {A} (c : A → A → comparison) a l : insert_by c a l ≡ₚ a :: l.
Proof. induction l as [|b l IH]; simpl; [done|]. destruct (c a b); [done|done|]. rewrite IH. constructor. Qed.

Lemma sort_by_perm {A} (c : A → A → comparison) l : sort_by c l ≡ₚ l.
Proof. induction l as [|a l IH]; simpl; [done|]. by rewrite insert_by_perm, IH. Qed.

(** A sorted list is left alone. *)
Lemma sort_by_id {A} (c : A → A → comparison) l : StronglySorted (cmp_le c) l → sort_by c l = l.
Proof.
  induction 1 as [|a l _ IH Ha]; simpl; [done|]. rewrite IH. destruct Ha as [|b l Hab _]; [done|].
  simpl. unfold cmp_le in Hab. by destruct (c a b).
Qed.

Lemma insert_by_sorted {A} (c : A → A → comparison) `{!Transitive (cmp_le c), !Total (cmp_le c)} a l :
  StronglySorted (cmp_le c) l → StronglySorted (cmp_le c) (insert_by c a l).
Proof.
  induction 1 as [|b l Hl IH Hb]; simpl; [by repeat constructor|].
  destruct (decide (cmp_le c a b)) as [E|E].
  - assert (StronglySorted (cmp_le c) (a :: b :: l)); [|by unfold cmp_le in E; destruct (c a b)].
    constructor; [by constructor|]. constructor; [done|]. eapply Forall_impl; [exact Hb|]. intros x. by trans b.
  - assert (cmp_le c b a) as E' by (destruct (total (cmp_le c) a b); tauto).
    assert (StronglySorted (cmp_le c) (b :: insert_by c a l)); [|unfold cmp_le in E; destruct (c a b); [by destruct E|by destruct E|done]].
    constructor; [done|]. rewrite insert_by_perm. by constructor.
Qed.

Lemma sort_by_strongly_sorted {A} (c : A → A → comparison) `{!Transitive (cmp_le c), !Total (cmp_le c)} l :
  StronglySorted (cmp_le c) (sort_by c l).
Proof. induction l as [|a l IH]; simpl; [constructor|by apply insert_by_sorted]. Qed.

Lemma length_sort_by {A} (c : A → A → comparison) l : length (sort_by c l) = length l.
Proof. by rewrite sort_by_perm. Qed.

Lemma elem_of_sort_by {A} (c : A → A → comparison) l a : a ∈ sort_by c l ↔ a ∈ l.
Proof. by rewrite sort_by_perm. Qed.

(** On keys of an ordered type the sorted list is sorted, and determined by
    the contents when equal keys mean equal elements. *)
Section SortBy.
Context {A K : Type} `{!Ord K, !OrdSpec K} (key : A → K).
Notation c := (λ a b, cmp (key a) (key b)).

#[local] Instance cmp_le_trans : Transitive (cmp_le c).
Proof. intros x y z. apply (ord_le_trans (key x) (key y) (key z)). Qed.
#[local] Instance cmp_le_total : Total (cmp_le c).
Proof. intros x y. apply (ord_le_total (key x) (key y)). Qed.

Lemma sort_by_sorted l : StronglySorted (cmp_le c) (sort_by c l).
Proof. apply (sort_by_strongly_sorted _). Qed.

Lemma sort_by_idemp l : sort_by c (sort_by c l) = sort_by c l.
Proof. apply sort_by_id, sort_by_sorted. Qed.

(** Elements with the same key stay in order. *)
Lemma sort_by_stable `{!EqDecision K} l k :
  filter (λ a, key a = k) (sort_by c l) = filter (λ a, key a = k) l.
Proof.
  assert (∀ a l, filter (λ a, key a = k) (insert_by c a l) = filter (λ a, key a = k) (a :: l)) as Hi.
  { clear l. intros a l. induction l as [|b l IH]; [done|]. simpl insert_by.
    destruct (cmp (key a) (key b)) eqn:E; [done..|].
    rewrite (filter_cons _ b), IH, !filter_cons.
    destruct (decide (key b = k)) as [Hb|], (decide (key a = k)) as [Ha|]; try done.
    rewrite Ha, Hb, cmp_refl in E. done. }
  induction l as [|a l IH]; [done|]. simpl. by rewrite Hi, !filter_cons, IH.
Qed.

Lemma sort_by_key_eq l k :
  l ≡ₚ k → (∀ a b, a ∈ l → b ∈ l → key a = key b → a = b) → sort_by c l = sort_by c k.
Proof.
  intros Hp Hinj.
  assert (sort_by c l ≡ₚ sort_by c k) as Hsp by by rewrite !sort_by_perm.
  pose proof (sort_by_sorted l) as Hl. pose proof (sort_by_sorted k) as Hk.
  assert (∀ a b, a ∈ sort_by c l → b ∈ sort_by c l → key a = key b → a = b) as Hinj'.
  { intros a b Ha Hb. apply Hinj; by apply (elem_of_sort_by c). }
  clear Hp Hinj. revert Hsp Hl Hk Hinj'. generalize (sort_by c l) as l1, (sort_by c k) as l2.
  clear l k. intros l1. induction l1 as [|a l1 IH]; intros l2 Hp H1 H2 Hinj.
  { by apply Permutation_nil_l in Hp as ->. }
  destruct l2 as [|b l2]; [by apply Permutation_nil_r in Hp|].
  apply StronglySorted_inv in H1 as [H1 F1]. apply StronglySorted_inv in H2 as [H2 F2].
  assert (a = b) as ->.
  { assert (a ∈ b :: l2) as Ha by (rewrite <- Hp; by left).
    assert (b ∈ a :: l1) as Hb by (rewrite Hp; by left).
    apply Hinj; [by left|done|].
    apply elem_of_cons in Ha as [->|Ha]; [done|]. apply elem_of_cons in Hb as [->|Hb]; [done|].
    apply (ord_le_antisym (key a) (key b)).
    - by apply (proj1 (Forall_forall _ _) F1 b Hb).
    - by apply (proj1 (Forall_forall _ _) F2 a Ha). }
  f_equal. apply IH; [by apply (Permutation_cons_inv (a := b))|done|done|].
  intros x y Hx Hy. apply Hinj; by right.
Qed.
End SortBy.

(** ** Byte vectors *)

(** [to_be_bytes] of the low [w] bytes of a length. *)
Fixpoint be_bytes (w n : nat) : list byte :=
  match w with
  | O => []
  | S w' => be_bytes w' (n / 256) ++ [as_u8 n]
  end.

Definition veccmp (a b : list byte) : comparison :=
  match cmp (length a) (length b) with Eq => cmp a b | c => c end.

Definition size_head (bytes : list byte) : list byte := be_bytes 8 (length bytes) ++ bytes.

Definition encode_seq_byte_vectors (elements : list (list byte)) : list byte :=
  be_bytes 4 (length elements) ++
  (elements ≫= λ element, be_bytes 8 (length element) ++ element).

Definition bool8 (value : bool) : list byte := [if value then x01 else x00].

Definition to_ordered_byte_vectors {A} `{!Serialize A} (elements : list A) : list (list byte) :=
  sort_by veccmp (ser_encode <$> elements).

(** [veccmp] is the order of the pairs of length and bytes. *)
Lemma veccmp_key a b : veccmp a b = cmp (length a, a) (length b, b).
Proof. done. Qed.

Lemma sort_by_veccmp l k : l ≡ₚ k → sort_by veccmp l = sort_by veccmp k.
Proof.
  intros Hp. change veccmp with (λ a b : list byte, cmp (length a, a) (length b, b)).
  apply (sort_by_key_eq (λ a : list byte, (length a, a))); [done|].
  intros a b _ _ [= _ ->]. done.
Qed.

(** ** Events *)
Record Produce := mkProduce {
  p_channels_hash : hash;
  p_hash : hash;
  p_persistent : bool;
}.
Record Consume := mkConsume {
  c_channels_hashes : list hash;
  c_hash : hash;
  c_persistent : bool;
}.

(** [PartialEq] and [Ord] of events: by the hash. *)
Definition produce_eqb (a b : Produce) : bool := bool_decide (p_hash a = p_hash b).
Definition consume_eqb (a b : Consume) : bool := bool_decide (c_hash a = c_hash b).
Definition produce_cmp (a b : Produce) : comparison := cmp (p_hash a) (p_hash b).
Definition consume_cmp (a b : Consume) : comparison := cmp (c_hash a) (c_hash b).

Record Comm := mkComm {
  comm_consume : Consume;
  comm_produces : list Produce;
  comm_peeks : gset nat;
  times_repeated : gmap hash nat;
}.

Definition comm_eqb (a b : Comm) : bool :=
  consume_eqb (comm_consume a) (comm_consume b) &&
  bool_decide (p_hash <$> comm_produces a = p_hash <$> comm_produces b) &&
  bool_decide (comm_peeks a = comm_peeks b) &&
  bool_decide (times_repeated a = times_repeated b).

Inductive Event :=
| EvComm (comm : Comm)
| EvProduce (produce : Produce)
| EvConsume (consume : Consume).

Definition Log := list Event.

#[export] Instance Produce_eq_dec : EqDecision Produce.
Proof. solve_decision. Defined.
#[export] Instance Consume_eq_dec : EqDecision Consume.
Proof. solve_decision. Defined.
#[export] Instance Comm_eq_dec : EqDecision Comm.
Proof. solve_decision. Defined.
#[export] Instance Event_eq_dec : EqDecision Event.
Proof. solve_decision. Defined.

(** What [comm_eqb] compares. *)
Definition comm_view (c : Comm) : hash * list hash * gset nat * gmap hash nat :=
  (c_hash (comm_consume c), p_hash <$> comm_produces c, comm_peeks c, times_repeated c).

Lemma comm_eqb_view a b : comm_eqb a b = true ↔ comm_view a = comm_view b.
Proof.
  unfold comm_eqb, comm_view, consume_eqb. rewrite !andb_true_iff, !bool_decide_eq_true. split.
  - intros [[[-> ->] ->] ->]. done.
  - by intros [= -> -> -> ->].
Qed.

(** The sort key of [Comm::apply]. *)
#[export] Instance bool_ord : Ord bool := λ a b,
  match a, b with false, true => Lt | true, false => Gt | _, _ => Eq end.
#[export] Instance bool_ord_spec : OrdSpec bool.
Proof.
  split; intros; repeat match goal with b : bool |- _ => destruct b end; cbv in *; intuition congruence.
Qed.

Definition produce_key (p : Produce) : hash * hash * bool :=
  (p_channels_hash p, p_hash p, p_persistent p).

Lemma produce_key_inj p q : produce_key p = produce_key q → p = q.
Proof. destruct p, q. by intros [= -> -> ->]. Qed.

(** [Comm::apply] on the sources of the matched data. *)
Definition comm_apply (sources : list Produce) (consume_ref : Consume) (peeks : gset nat)
    (produce_counters : list Produce → gmap hash nat) : Comm :=
  let produce_refs := sort_by (λ a b, cmp (produce_key a) (produce_key b)) sources in
  mkComm consume_ref produce_refs peeks (produce_counters produce_refs).

(** The COMM does not depend on the order in which the data was matched
    (Law 8). *)
Lemma comm_apply_perm sources sources' consume_ref peeks counters :
  sources ≡ₚ sources' →
  comm_apply sources consume_ref peeks counters = comm_apply sources' consume_ref peeks counters.
Proof.
  intros Hp. unfold comm_apply. rewrite (sort_by_key_eq produce_key _ _ Hp); [done|].
  intros a b _ _. apply produce_key_inj.
Qed.

(** ** Stable hashing *)
Section StableHash.
Context (create : list byte → hash).
Context {C P A K : Type} `{!Serialize C, !Serialize P, !Serialize A, !Serialize K}.

Definition hash_channel (channel : C) : hash := create (ser_encode channel).

Definition hash_seq (channels : list C) : list hash := sort_by cmp (hash_channel <$> channels).

(** [create_many] hashes the concatenation of its parts. *)
Definition hash_hashes (channel_hashes : list hash) : hash :=
  create (concat (sort_by cmp channel_hashes)).

Definition hash_channels (channels : list C) : hash := hash_hashes (hash_seq channels).

Definition hash_consume (encoded_channels : list (list byte)) (patterns : list P)
    (continuation : K) (persist : bool) : hash :=
  create (encode_seq_byte_vectors
    (encoded_channels ++ to_ordered_byte_vectors patterns ++
     [ser_encode continuation] ++ [bool8 persist])).

Definition hash_produce (channel : list byte) (datum : A) (persist : bool) : hash :=
  create (encode_seq_byte_vectors [channel; ser_encode datum; bool8 persist]).

Definition produce_apply (channel : C) (datum : A) (persistent : bool) : Produce :=
  let channel_hash := hash_channel channel in
  mkProduce channel_hash (hash_produce channel_hash datum persistent) persistent.

Definition consume_apply (channels : list C) (patterns : list P) (continuation : K)
    (persistent : bool) : Consume :=
  let channels_hashes := hash_seq channels in
  mkConsume channels_hashes (hash_consume channels_hashes patterns continuation persistent)
    persistent.

Lemma sort_by_cmp_perm (l k : list hash) : l ≡ₚ k → sort_by cmp l = sort_by cmp k.
Proof. intros Hp. by apply (sort_by_key_eq id). Qed.

(** Law 7: the hash of a join does not depend on the order of its channels. *)
Lemma hash_seq_perm channels channels' :
  channels ≡ₚ channels' → hash_seq channels = hash_seq channels'.
Proof. intros Hp. apply sort_by_cmp_perm. by rewrite Hp. Qed.

Lemma hash_channels_perm channels channels' :
  channels ≡ₚ channels' → hash_channels channels = hash_channels channels'.
Proof. intros Hp. unfold hash_channels. by rewrite (hash_seq_perm _ _ Hp). Qed.

Lemma consume_apply_perm channels channels' patterns patterns' continuation persistent :
  channels ≡ₚ channels' → patterns ≡ₚ patterns' →
  consume_apply channels patterns continuation persistent =
  consume_apply channels' patterns' continuation persistent.
Proof.
  intros Hc Hp. unfold consume_apply, hash_consume, to_ordered_byte_vectors.
  rewrite (hash_seq_perm _ _ Hc).
  rewrite (sort_by_veccmp (ser_encode <$> patterns) (ser_encode <$> patterns')); [done|].
  by rewrite Hp.
Qed.
End StableHash.
