(* ===== verification/HotStore.v ===== *)
(** * The hot store

    [rspace/src/hot_store.rs], [rspace/src/hot_store_action.rs],
    [rspace/src/errors.rs] and the data types of [rspace/src/internal.rs]: an
    overlay over the reader of a history root, with memoized reads.  The state
    and the cache are each under a lock for the whole of an operation's access;
    a cell of the cache that is not initialized is an absent entry.  What a
    store shows is its [view]; the lemmas say what each operation does to it. *)

From S2P Require Import Prelude BTree Bytes Trace.

(** The last one is no variant of the source: a panic below the operation,
    which unwinds through it. *)
Inductive RSpaceError :=
| LockPoisoned
| CodecFailed
| UnexpectedLeaf
| HistoryCommitFailed
| InstallNotAllowed
| CachedKeyMissing
| EmptyPrefix
| ReplayDataNotEmpty
| ReplayCommNotInTrace
| Panicked.

Record Datum (A : Type) := mkDatum {
  d_a : A;
  d_persist : bool;
  d_source : Produce;
}.
#[global] Arguments mkDatum {A}.
#[global] Arguments d_a {A}.
#[global] Arguments d_persist {A}.
#[global] Arguments d_source {A}.

Record WaitingContinuation (P K : Type) := mkWC {
  wc_patterns : list P;
  wc_continuation : K;
  wc_persist : bool;
  wc_peeks : gset nat;
  wc_source : Consume;
}.
#[global] Arguments mkWC {P K}.
#[global] Arguments wc_patterns {P K}.
#[global] Arguments wc_continuation {P K}.
#[global] Arguments wc_persist {P K}.
#[global] Arguments wc_peeks {P K}.
#[global] Arguments wc_source {P K}.

Record Row (P A K : Type) := mkRow {
  row_data : list (Datum A);
  row_wks : list (WaitingContinuation P K);
}.
#[global] Arguments mkRow {P A K}.
#[global] Arguments row_data {P A K}.
#[global] Arguments row_wks {P A K}.

(** [Vec::remove]: the source calls it only in range. *)
Definition remove_index {E} (col : list E) (index : nat) : list E := delete index col.

(** [Iterator::position] of an equal element. *)
Fixpoint position {E} (f : E → bool) (l : list E) : option nat :=
  match l with
  | [] => None
  | e :: l' => if f e then Some 0%nat else S <$> position f l'
  end.

Lemma list_delete_out {E} (l : list E) i : (length l ≤ i)%nat → delete i l = l.
Proof.
  intros Hi. rewrite delete_take_drop, take_ge by done. rewrite drop_ge by lia. apply app_nil_r.
Qed.

Section HotStore.
Context {C P A K : Type} `{!Ord C} `{Countable C}.
Notation WC := (WaitingContinuation P K).

Record HotStoreState := mkHotStoreState {
  continuations : gmap (list C) (list WC);
  installed_continuations : gmap (list C) WC;
  data : gmap C (list (Datum A));
  joins : gmap C (list (list C));
  installed_joins : gmap C (list (list C));
}.

Definition default_state : HotStoreState := mkHotStoreState ∅ ∅ ∅ ∅ ∅.

Inductive HotStoreAction :=
| InsertData (channel : C) (ds : list (Datum A))
| InsertJoins (channel : C) (js : list (list C))
| InsertContinuations (channels : list C) (wcs : list WC)
| DeleteData (channel : C)
| DeleteJoins (channel : C)
| DeleteContinuations (channels : list C).

(** The [HistoryReaderBase] trait. *)
Record HistoryReaderBase := mkReader {
  rd_data : C → Result (list (Datum A)) RSpaceError;
  rd_continuations : list C → Result (list WC) RSpaceError;
  rd_joins : C → Result (list (list C)) RSpaceError;
}.

Record HistoryStoreCache := mkCache {
  cache_continuations : gmap (list C) (list WC);
  cache_datums : gmap C (list (Datum A));
  cache_joins : gmap C (list (list C));
}.

Record InMemHotStore := mkHotStore {
  hs_state : HotStoreState;
  hs_cache : HistoryStoreCache;
  reader_base : HistoryReaderBase;
}.

Definition hot_store_new (r : HistoryReaderBase) : InMemHotStore :=
  mkHotStore default_state (mkCache ∅ ∅ ∅) r.
Definition from_state (st : HotStoreState) (r : HistoryReaderBase) : InMemHotStore :=
  mkHotStore st (mkCache ∅ ∅ ∅) r.

Definition HSM (X : Type) : Type := StateResult InMemHotStore X RSpaceError.

(** ** Memoized history reads *)
Definition get_cont_from_history_store (channels : list C) : HSM (list WC) := λ hs,
  match cache_continuations (hs_cache hs) !! channels with
  | Some l => (hs, Ok l)
  | None =>
      match rd_continuations (reader_base hs) channels with
      | Ok l => (mkHotStore (hs_state hs)
                   (mkCache (<[channels := l]> (cache_continuations (hs_cache hs)))
                      (cache_datums (hs_cache hs)) (cache_joins (hs_cache hs)))
                   (reader_base hs), Ok l)
      | Err e => (hs, Err e)
      end
  end.

Definition get_data_from_history_store (channel : C) : HSM (list (Datum A)) := λ hs,
  match cache_datums (hs_cache hs) !! channel with
  | Some l => (hs, Ok l)
  | None =>
      match rd_data (reader_base hs) channel with
      | Ok l => (mkHotStore (hs_state hs)
                   (mkCache (cache_continuations (hs_cache hs))
                      (<[channel := l]> (cache_datums (hs_cache hs))) (cache_joins (hs_cache hs)))
                   (reader_base hs), Ok l)
      | Err e => (hs, Err e)
      end
  end.

Definition get_joins_from_history_store (channel : C) : HSM (list (list C)) := λ hs,
  match cache_joins (hs_cache hs) !! channel with
  | Some l => (hs, Ok l)
  | None =>
      match rd_joins (reader_base hs) channel with
      | Ok l => (mkHotStore (hs_state hs)
                   (mkCache (cache_continuations (hs_cache hs))
                      (cache_datums (hs_cache hs)) (<[channel := l]> (cache_joins (hs_cache hs))))
                   (reader_base hs), Ok l)
      | Err e => (hs, Err e)
      end
  end.

(** Writes to the fields of the locked state. *)
Definition modify_state (f : HotStoreState → HotStoreState) : HSM unit :=
  sr_modify (λ hs, mkHotStore (f (hs_state hs)) (hs_cache hs) (reader_base hs)).
Definition set_continuations (channels : list C) (l : list WC) (st : HotStoreState) :=
  mkHotStoreState (<[channels := l]> (continuations st)) (installed_continuations st)
    (data st) (joins st) (installed_joins st).
Definition set_data (channel : C) (l : list (Datum A)) (st : HotStoreState) :=
  mkHotStoreState (continuations st) (installed_continuations st)
    (<[channel := l]> (data st)) (joins st) (installed_joins st).
Definition set_joins (channel : C) (l : list (list C)) (st : HotStoreState) :=
  mkHotStoreState (continuations st) (installed_continuations st)
    (data st) (<[channel := l]> (joins st)) (installed_joins st).

(** ** Continuations *)
Definition get_continuations (channels : list C) : HSM (list WC) :=
  from_history ←$ get_cont_from_history_store channels;
  state ←$ sr_gets hs_state;
  let installed := option_list (installed_continuations state !! channels) in
  match continuations state !! channels with
  | Some conts => sr_ret (installed ++ conts)
  | None =>
      _ ←$ modify_state (set_continuations channels from_history);
      sr_ret (installed ++ from_history)
  end.

Definition put_continuation (channels : list C) (wc : WC) : HSM unit :=
  from_history ←$ get_cont_from_history_store channels;
  state ←$ sr_gets hs_state;
  let cur := default from_history (continuations state !! channels) in
  modify_state (set_continuations channels (wc :: cur)).

Definition install_continuation (channels : list C) (wc : WC) : HSM unit :=
  modify_state (λ st,
    mkHotStoreState (continuations st) (<[channels := wc]> (installed_continuations st))
      (data st) (joins st) (installed_joins st)).

Definition remove_continuation (channels : list C) (index : nat) : HSM unit :=
  from_history ←$ get_cont_from_history_store channels;
  state ←$ sr_gets hs_state;
  let is_installed := bool_decide (is_Some (installed_continuations state !! channels)) in
  if is_installed && (index =? 0)%nat then sr_ret ()
  else
    let removed_index := if is_installed then (index - 1)%nat else index in
    let cur := default from_history (continuations state !! channels) in
    modify_state (set_continuations channels
      (if (removed_index <? length cur)%nat then remove_index cur removed_index else cur)).

(** ** Data *)
Definition get_data (channel : C) : HSM (list (Datum A)) :=
  from_history ←$ get_data_from_history_store channel;
  state ←$ sr_gets hs_state;
  match data state !! channel with
  | Some l => sr_ret l
  | None =>
      _ ←$ modify_state (set_data channel from_history);
      sr_ret from_history
  end.

Definition put_datum (channel : C) (datum : Datum A) : HSM unit :=
  from_history ←$ get_data_from_history_store channel;
  state ←$ sr_gets hs_state;
  let cur := default from_history (data state !! channel) in
  modify_state (set_data channel (datum :: cur)).

Definition remove_datum (channel : C) (index : Z) : HSM unit :=
  from_history ←$ get_data_from_history_store channel;
  state ←$ sr_gets hs_state;
  let cur := default from_history (data state !! channel) in
  modify_state (set_data channel
    (if (0 <=? index) && (Z.to_nat index <? length cur)%nat
     then remove_index cur (Z.to_nat index) else cur)).

(** ** Joins *)
Definition get_joins (channel : C) : HSM (list (list C)) :=
  from_history ←$ get_joins_from_history_store channel;
  state ←$ sr_gets hs_state;
  let installed := default [] (installed_joins state !! channel) in
  match joins state !! channel with
  | Some l => sr_ret (installed ++ l)
  | None =>
      _ ←$ modify_state (set_joins channel from_history);
      sr_ret (installed ++ from_history)
  end.

Definition put_join (channel : C) (join : list C) : HSM unit :=
  from_history ←$ get_joins_from_history_store channel;
  state ←$ sr_gets hs_state;
  let cur := default from_history (joins state !! channel) in
  modify_state (set_joins channel (if bool_decide (join ∈ cur) then cur else join :: cur)).

Definition install_join (channel : C) (join : list C) : HSM unit :=
  modify_state (λ st,
    let cur := default [] (installed_joins st !! channel) in
    mkHotStoreState (continuations st) (installed_continuations st) (data st) (joins st)
      (<[channel := if bool_decide (join ∈ cur) then cur else join :: cur]> (installed_joins st))).

Definition remove_join (channel : C) (join : list C) : HSM unit :=
  from_history ←$ get_joins_from_history_store channel;
  state ←$ sr_gets hs_state;
  let cur := default from_history (joins state !! channel) in
  modify_state (set_joins channel
    match position (λ j, bool_decide (j = join)) cur with
    | Some index => remove_index cur index
    | None => cur
    end).

(** ** Dumps *)
Definition changes (hs : InMemHotStore) : list HotStoreAction :=
  ((λ '(k, v), match v with [] => DeleteContinuations k | _ => InsertContinuations k v end)
     <$> map_iter (continuations (hs_state hs))) ++
  ((λ '(k, v), match v with [] => DeleteData k | _ => InsertData k v end)
     <$> map_iter (data (hs_state hs))) ++
  ((λ '(k, v), match v with [] => DeleteJoins k | _ => InsertJoins k v end)
     <$> map_iter (joins (hs_state hs))).

Definition row_default : Row P A K := mkRow [] [].

Definition to_map (hs : InMemHotStore) : gmap (list C) (Row P A K) :=
  let st := hs_state hs in
  let out := foldl (λ out '(k, v),
    let row := default row_default (out !! [k]) in
    <[[k] := mkRow v (row_wks row)]> out) ∅ (map_iter (data st)) in
  let out := foldl (λ out '(k, v),
    let row := default row_default (out !! k) in
    <[k := mkRow (row_data row) (row_wks row ++ v)]> out) out (map_iter (continuations st)) in
  let out := foldl (λ out '(k, v),
    let row := default row_default (out !! k) in
    <[k := mkRow (row_data row) (v :: row_wks row)]> out) out
    (map_iter (installed_continuations st)) in
  filter (λ '(_, row), ¬ (row_data row = [] ∧ row_wks row = [])) out.

Definition snapshot (hs : InMemHotStore) : HotStoreState := hs_state hs.
End HotStore.

#[global] Arguments HotStoreState : clear implicits.
#[global] Arguments HotStoreState C P A K {_ _}.
#[global] Arguments HotStoreAction : clear implicits.
#[global] Arguments HistoryReaderBase : clear implicits.
#[global] Arguments InMemHotStore : clear implicits.
#[global] Arguments InMemHotStore C P A K {_ _}.

(** ** What a store shows

    The contents a reader of the store finds, history included. *)
Section View.
Context {C P A K : Type} `{!Ord C} `{Countable C}.
Notation WC := (WaitingContinuation P K).
Notation Store := (InMemHotStore C P A K).
Notation Reader := (HistoryReaderBase C P A K).

Record View := mkView {
  v_data : C → list (Datum A);
  v_conts : list C → list WC;
  v_joins : C → list (list C);
  v_iconts : list C → option WC;
  v_ijoins : C → list (list C);
}.

Definition upd {X Y} `{EqDecision X} (f : X → Y) (k : X) (y : Y) : X → Y :=
  λ k', if decide (k' = k) then y else f k'.

Lemma upd_eq {X Y} `{EqDecision X} (f : X → Y) k y : upd f k y k = y.
Proof. unfold upd. by rewrite decide_True. Qed.
Lemma upd_ne {X Y} `{EqDecision X} (f : X → Y) k k' y : k' ≠ k → upd f k y k' = f k'.
Proof. intros. unfold upd. by rewrite decide_False. Qed.

(** The operations on views. *)
Definition v_get_conts (v : View) (cs : list C) : list WC :=
  option_list (v_iconts v cs) ++ v_conts v cs.
Definition v_get_joins (v : View) (c : C) : list (list C) := v_ijoins v c ++ v_joins v c.
Definition v_set_data (v : View) (c : C) (l : list (Datum A)) : View :=
  mkView (upd (v_data v) c l) (v_conts v) (v_joins v) (v_iconts v) (v_ijoins v).
Definition v_set_conts (v : View) (cs : list C) (l : list WC) : View :=
  mkView (v_data v) (upd (v_conts v) cs l) (v_joins v) (v_iconts v) (v_ijoins v).
Definition v_set_joins (v : View) (c : C) (l : list (list C)) : View :=
  mkView (v_data v) (v_conts v) (upd (v_joins v) c l) (v_iconts v) (v_ijoins v).
Definition v_put_datum (v : View) (c : C) (d : Datum A) : View :=
  v_set_data v c (d :: v_data v c).
Definition v_remove_datum (v : View) (c : C) (i : Z) : View :=
  if 0 <=? i then v_set_data v c (delete (Z.to_nat i) (v_data v c)) else v.
Definition v_put_cont (v : View) (cs : list C) (wc : WC) : View :=
  v_set_conts v cs (wc :: v_conts v cs).
Definition v_remove_cont (v : View) (cs : list C) (i : nat) : View :=
  match v_iconts v cs with
  | None => v_set_conts v cs (delete i (v_conts v cs))
  | Some _ => match i with O => v | S i' => v_set_conts v cs (delete i' (v_conts v cs)) end
  end.
Definition v_put_join (v : View) (c : C) (j : list C) : View :=
  if decide (j ∈ v_joins v c) then v else v_set_joins v c (j :: v_joins v c).
Definition v_remove_join (v : View) (c : C) (j : list C) : View :=
  match position (λ j', bool_decide (j' = j)) (v_joins v c) with
  | Some i => v_set_joins v c (delete i (v_joins v c))
  | None => v
  end.
Definition v_install (v : View) (cs : list C) (wc : WC) : View :=
  mkView (v_data v) (v_conts v) (v_joins v) (upd (v_iconts v) cs (Some wc)) (v_ijoins v).
Definition v_install_join (v : View) (c : C) (j : list C) : View :=
  if decide (j ∈ v_ijoins v c) then v
  else mkView (v_data v) (v_conts v) (v_joins v) (v_iconts v)
         (upd (v_ijoins v) c (j :: v_ijoins v c)).

(** Views are compared pointwise. *)
Record view_eq (v w : View) : Prop := {
  veq_data c : v_data v c = v_data w c;
  veq_conts cs : v_conts v cs = v_conts w cs;
  veq_joins c : v_joins v c = v_joins w c;
  veq_iconts cs : v_iconts v cs = v_iconts w cs;
  veq_ijoins c : v_ijoins v c = v_ijoins w c;
}.
#[global] Instance view_equiv : Equiv View := view_eq.
#[global] Instance view_equivalence : Equivalence (≡@{View}).
Proof.
  split.
  - by intros v; split.
  - intros v w []. split; intros; by symmetry.
  - intros u v w [D1 C1 J1 I1 L1] [D2 C2 J2 I2 L2]. split; intros x;
      [rewrite D1|rewrite C1|rewrite J1|rewrite I1|rewrite L1]; auto.
Qed.

(** A history that can be read. *)
Record readable (r : Reader) : Prop := {
  readable_data c : ∃ l, rd_data r c = Ok l;
  readable_conts cs : ∃ l, rd_continuations r cs = Ok l;
  readable_joins c : ∃ l, rd_joins r c = Ok l;
}.

Definition ok_list {X E} (r : Result (list X) E) : list X :=
  match r with Ok l => l | Err _ => [] end.

(** The view of a fresh store over [r]. *)
Definition hist_view (r : Reader) : View :=
  mkView (λ c, ok_list (rd_data r c)) (λ cs, ok_list (rd_continuations r cs))
    (λ c, ok_list (rd_joins r c)) (λ _, None) (λ _, []).

Definition view (hs : Store) : View :=
  let h := hist_view (reader_base hs) in
  let st := hs_state hs in
  mkView (λ c, default (v_data h c) (data st !! c))
    (λ cs, default (v_conts h cs) (continuations st !! cs))
    (λ c, default (v_joins h c) (joins st !! c))
    (λ cs, installed_continuations st !! cs)
    (λ c, default [] (installed_joins st !! c)).

Record cache_ok (hs : Store) : Prop := {
  cache_ok_data c l : cache_datums (hs_cache hs) !! c = Some l → rd_data (reader_base hs) c = Ok l;
  cache_ok_conts cs l :
    cache_continuations (hs_cache hs) !! cs = Some l → rd_continuations (reader_base hs) cs = Ok l;
  cache_ok_joins c l : cache_joins (hs_cache hs) !! c = Some l → rd_joins (reader_base hs) c = Ok l;
}.

(** The store [hs] over the reader [r] shows [v]. *)
Record shows (r : Reader) (v : View) (hs : Store) : Prop := {
  shows_reader : reader_base hs = r;
  shows_readable : readable r;
  shows_cache : cache_ok hs;
  shows_view : view hs ≡ v;
}.

Lemma shows_proper r v w hs : v ≡ w → shows r v hs → shows r w hs.
Proof. intros E []. split; [done..|]. by etrans. Qed.

Lemma shows_new r : readable r → shows r (hist_view r) (hot_store_new r).
Proof.
  intros Hr. split; [done|done| |done]. split; intros *; simpl; by rewrite lookup_empty.
Qed.

Lemma shows_from_state r hs v : shows r v hs → shows r v (from_state (snapshot hs) r).
Proof.
  intros [<- ? ? ?]. split; [done|done| |done]. split; intros *; simpl; by rewrite lookup_empty.
Qed.

(** The memoized reads return what the reader returns and change no view. *)
Lemma get_data_history_spec r v hs c :
  shows r v hs →
  ∃ hs', get_data_from_history_store c hs = (hs', Ok (v_data (hist_view r) c)) ∧
         shows r v hs' ∧ hs_state hs' = hs_state hs.
Proof.
  intros [<- Hr [Hd Hc Hj] Hv]. unfold get_data_from_history_store.
  destruct (cache_datums _ !! c) as [l|] eqn:E.
  { exists hs. simpl. rewrite (Hd _ _ E). by split_and!. }
  destruct (readable_data _ Hr c) as [l Hl]. simpl. rewrite Hl.
  eexists. split_and!; [done| |done]. split; [done|done| |done].
  split; simpl; [|done..]. intros c' l'. rewrite lookup_insert_Some. intros [[<- <-]|[_ ?]]; eauto.
Qed.

Lemma get_cont_history_spec r v hs cs :
  shows r v hs →
  ∃ hs', get_cont_from_history_store cs hs = (hs', Ok (v_conts (hist_view r) cs)) ∧
         shows r v hs' ∧ hs_state hs' = hs_state hs.
Proof.
  intros [<- Hr [Hd Hc Hj] Hv]. unfold get_cont_from_history_store.
  destruct (cache_continuations _ !! cs) as [l|] eqn:E.
  { exists hs. simpl. rewrite (Hc _ _ E). by split_and!. }
  destruct (readable_conts _ Hr cs) as [l Hl]. simpl. rewrite Hl.
  eexists. split_and!; [done| |done]. split; [done|done| |done].
  split; simpl; [done| |done]. intros c' l'. rewrite lookup_insert_Some. intros [[<- <-]|[_ ?]]; eauto.
Qed.

Lemma get_joins_history_spec r v hs c :
  shows r v hs →
  ∃ hs', get_joins_from_history_store c hs = (hs', Ok (v_joins (hist_view r) c)) ∧
         shows r v hs' ∧ hs_state hs' = hs_state hs.
Proof.
  intros [<- Hr [Hd Hc Hj] Hv]. unfold get_joins_from_history_store.
  destruct (cache_joins _ !! c) as [l|] eqn:E.
  { exists hs. simpl. rewrite (Hj _ _ E). by split_and!. }
  destruct (readable_joins _ Hr c) as [l Hl]. simpl. rewrite Hl.
  eexists. split_and!; [done| |done]. split; [done|done| |done].
  split; simpl; [done..|]. intros c' l'. rewrite lookup_insert_Some. intros [[<- <-]|[_ ?]]; eauto.
Qed.
(** The overlay entries behind a view. *)
Lemma shows_data_entry r v hs c :
  shows r v hs → default (v_data (hist_view r) c) (data (hs_state hs) !! c) = v_data v c.
Proof. intros [<- _ _ [Hd _ _ _ _]]. apply Hd. Qed.
Lemma shows_conts_entry r v hs cs :
  shows r v hs → default (v_conts (hist_view r) cs) (continuations (hs_state hs) !! cs) = v_conts v cs.
Proof. intros [<- _ _ [_ Hc _ _ _]]. apply Hc. Qed.
Lemma shows_joins_entry r v hs c :
  shows r v hs → default (v_joins (hist_view r) c) (joins (hs_state hs) !! c) = v_joins v c.
Proof. intros [<- _ _ [_ _ Hj _ _]]. apply Hj. Qed.
Lemma shows_iconts_entry r v hs cs :
  shows r v hs → installed_continuations (hs_state hs) !! cs = v_iconts v cs.
Proof. intros [<- _ _ [_ _ _ Hi _]]. apply Hi. Qed.
Lemma shows_ijoins_entry r v hs c :
  shows r v hs → default [] (installed_joins (hs_state hs) !! c) = v_ijoins v c.
Proof. intros [<- _ _ [_ _ _ _ Hi]]. apply Hi. Qed.

(** Writing an entry changes the view at that key. *)
Lemma default_insert {X Y} `{Countable X} (m : gmap X Y) (d : X → Y) k y k' :
  default (d k') (<[k := y]> m !! k') = upd (λ k', default (d k') (m !! k')) k y k'.
Proof.
  unfold upd. case_decide as E; [subst; by rewrite lookup_insert_eq|by rewrite lookup_insert_ne].
Qed.

Lemma upd_ext {X Y} `{EqDecision X} (f g : X → Y) k y k' :
  (∀ x, f x = g x) → upd f k y k' = upd g k y k'.
Proof. intros E. unfold upd. by case_decide. Qed.

Lemma upd_same {X Y} `{EqDecision X} (f : X → Y) k k' : upd f k (f k) k' = f k'.
Proof. unfold upd. case_decide; by subst. Qed.

Lemma shows_set_data r v hs c l :
  shows r v hs →
  ∃ hs', modify_state (set_data c l) hs = (hs', Ok ()) ∧ shows r (v_set_data v c l) hs'.
Proof.
  intros [<- Hr Hc [Hd Hcs Hj Hi Hij]]. eexists. split; [done|].
  split; [done|done|by destruct Hc|]. split; simpl; [|done..]. intros c'.
  etrans; [apply (default_insert (data (hs_state hs)) (v_data (hist_view (reader_base hs))))|].
  apply upd_ext, Hd.
Qed.
Lemma shows_set_conts r v hs cs l :
  shows r v hs →
  ∃ hs', modify_state (set_continuations cs l) hs = (hs', Ok ()) ∧ shows r (v_set_conts v cs l) hs'.
Proof.
  intros [<- Hr Hc [Hd Hcs Hj Hi Hij]]. eexists. split; [done|].
  split; [done|done|by destruct Hc|]. split; simpl; [done| |done..]. intros c'.
  etrans; [apply (default_insert (continuations (hs_state hs)) (v_conts (hist_view (reader_base hs))))|].
  apply upd_ext, Hcs.
Qed.
Lemma shows_set_joins r v hs c l :
  shows r v hs →
  ∃ hs', modify_state (set_joins c l) hs = (hs', Ok ()) ∧ shows r (v_set_joins v c l) hs'.
Proof.
  intros [<- Hr Hc [Hd Hcs Hj Hi Hij]]. eexists. split; [done|].
  split; [done|done|by destruct Hc|]. split; simpl; [done..| |done|done]. intros c'.
  etrans; [apply (default_insert (joins (hs_state hs)) (v_joins (hist_view (reader_base hs))))|].
  apply upd_ext, Hj.
Qed.

(** Writing back what is shown changes nothing. *)
Lemma v_set_data_same v c l : l = v_data v c → v_set_data v c l ≡ v.
Proof. intros ->. split; simpl; intros; [apply upd_same|done..]. Qed.
Lemma v_set_conts_same v cs l : l = v_conts v cs → v_set_conts v cs l ≡ v.
Proof. intros ->. split; simpl; intros; [done|apply upd_same|done..]. Qed.
Lemma v_set_joins_same v c l : l = v_joins v c → v_set_joins v c l ≡ v.
Proof. intros ->. split; simpl; intros; [done|done|apply upd_same|done..]. Qed.

(** ** What the operations do *)

Lemma get_data_spec r v hs c :
  shows r v hs → ∃ hs', get_data c hs = (hs', Ok (v_data v c)) ∧ shows r v hs'.
Proof.
  intros Hs. destruct (get_data_history_spec r v hs c Hs) as (hs1 & E1 & Hs1 & _).
  unfold get_data. rewrite (sr_bind_Ok _ _ _ _ _ E1).
  rewrite (sr_bind_Ok (sr_gets hs_state) _ hs1 hs1 (hs_state hs1) eq_refl).
  pose proof (shows_data_entry r v hs1 c Hs1) as Hd.
  destruct (data (hs_state hs1) !! c) as [l|]; [simpl in Hd; subst; by eauto|].
  change (v_data (hist_view r) c = v_data v c) in Hd.
  destruct (shows_set_data r v hs1 c (v_data (hist_view r) c) Hs1) as (hs2 & E2 & Hs2).
  exists hs2. rewrite (sr_bind_Ok _ _ _ _ _ E2), Hd in *. split; [done|].
  eapply shows_proper; [|exact Hs2]. by apply v_set_data_same.
Qed.

Lemma put_datum_spec r v hs c d :
  shows r v hs → ∃ hs', put_datum c d hs = (hs', Ok ()) ∧ shows r (v_put_datum v c d) hs'.
Proof.
  intros Hs. destruct (get_data_history_spec r v hs c Hs) as (hs1 & E1 & Hs1 & _).
  unfold put_datum. rewrite (sr_bind_Ok _ _ _ _ _ E1). cbn -[modify_state hist_view Nat.ltb Nat.eqb Z.leb].
  rewrite (shows_data_entry r v hs1 c Hs1). by apply shows_set_data.
Qed.

Lemma remove_datum_spec r v hs c i :
  shows r v hs → ∃ hs', remove_datum c i hs = (hs', Ok ()) ∧ shows r (v_remove_datum v c i) hs'.
Proof.
  intros Hs. destruct (get_data_history_spec r v hs c Hs) as (hs1 & E1 & Hs1 & _).
  unfold remove_datum. rewrite (sr_bind_Ok _ _ _ _ _ E1). cbn -[modify_state hist_view Nat.ltb Nat.eqb Z.leb].
  rewrite (shows_data_entry r v hs1 c Hs1). unfold v_remove_datum.
  destruct (0 <=? i); cbn [andb].
  - destruct (shows_set_data r v hs1 c (delete (Z.to_nat i) (v_data v c)) Hs1) as (hs2 & E2 & Hs2).
    destruct (Nat.ltb_spec (Z.to_nat i) (length (v_data v c))) as [Hi|Hi].
    { by exists hs2. }
    exists hs2. split; [|done]. rewrite <- E2. by rewrite list_delete_out by lia.
  - destruct (shows_set_data r v hs1 c (v_data v c) Hs1) as (hs2 & E2 & Hs2).
    exists hs2. split; [done|]. eapply shows_proper; [|exact Hs2]. by apply v_set_data_same.
Qed.

Lemma get_continuations_spec r v hs cs :
  shows r v hs → ∃ hs', get_continuations cs hs = (hs', Ok (v_get_conts v cs)) ∧ shows r v hs'.
Proof.
  intros Hs. destruct (get_cont_history_spec r v hs cs Hs) as (hs1 & E1 & Hs1 & _).
  unfold get_continuations, v_get_conts. rewrite (sr_bind_Ok _ _ _ _ _ E1).
  rewrite (sr_bind_Ok (sr_gets hs_state) _ hs1 hs1 (hs_state hs1) eq_refl).
  pose proof (shows_conts_entry r v hs1 cs Hs1) as Hd.
  rewrite (shows_iconts_entry r v hs1 cs Hs1).
  destruct (continuations (hs_state hs1) !! cs) as [l|]; [simpl in Hd; subst; by eauto|].
  change (v_conts (hist_view r) cs = v_conts v cs) in Hd.
  destruct (shows_set_conts r v hs1 cs (v_conts (hist_view r) cs) Hs1) as (hs2 & E2 & Hs2).
  exists hs2. rewrite (sr_bind_Ok _ _ _ _ _ E2), Hd in *. split; [done|].
  eapply shows_proper; [|exact Hs2]. by apply v_set_conts_same.
Qed.

Lemma put_continuation_spec r v hs cs wc :
  shows r v hs → ∃ hs', put_continuation cs wc hs = (hs', Ok ()) ∧ shows r (v_put_cont v cs wc) hs'.
Proof.
  intros Hs. destruct (get_cont_history_spec r v hs cs Hs) as (hs1 & E1 & Hs1 & _).
  unfold put_continuation. rewrite (sr_bind_Ok _ _ _ _ _ E1). cbn -[modify_state hist_view Nat.ltb Nat.eqb Z.leb].
  rewrite (shows_conts_entry r v hs1 cs Hs1). by apply shows_set_conts.
Qed.

Lemma remove_continuation_spec r v hs cs i :
  shows r v hs →
  ∃ hs', remove_continuation cs i hs = (hs', Ok ()) ∧ shows r (v_remove_cont v cs i) hs'.
Proof.
  intros Hs. destruct (get_cont_history_spec r v hs cs Hs) as (hs1 & E1 & Hs1 & _).
  unfold remove_continuation. rewrite (sr_bind_Ok _ _ _ _ _ E1). cbn -[modify_state hist_view Nat.ltb Nat.eqb Z.leb].
  rewrite (shows_conts_entry r v hs1 cs Hs1), (shows_iconts_entry r v hs1 cs Hs1).
  unfold v_remove_cont.
  assert (∀ j, ∃ hs', modify_state (set_continuations cs
      (if (j <? length (v_conts v cs))%nat then remove_index (v_conts v cs) j else v_conts v cs)) hs1
      = (hs', Ok ()) ∧ shows r (v_set_conts v cs (delete j (v_conts v cs))) hs') as Hset.
  { intros j. destruct (shows_set_conts r v hs1 cs (delete j (v_conts v cs)) Hs1) as (hs2 & E2 & Hs2).
    exists hs2. split; [|done]. rewrite <- E2.
    destruct (Nat.ltb_spec j (length (v_conts v cs))); [done|]. by rewrite list_delete_out by lia. }
  destruct (v_iconts v cs); simpl; [|apply Hset].
  destruct i as [|i]; simpl; [by eauto|]. rewrite Nat.sub_0_r. apply Hset.
Qed.

Lemma install_continuation_spec r v hs cs wc :
  shows r v hs →
  ∃ hs', install_continuation cs wc hs = (hs', Ok ()) ∧ shows r (v_install v cs wc) hs'.
Proof.
  intros [<- Hr Hc [Hd Hcs Hj Hi Hij]]. eexists. split; [done|].
  split; [done|done|by destruct Hc|]. split; simpl; [done..| |done]. intros cs'.
  unfold upd. case_decide as E; [subst; by rewrite lookup_insert_eq|].
  rewrite lookup_insert_ne by done. apply Hi.
Qed.

Lemma get_joins_spec r v hs c :
  shows r v hs → ∃ hs', get_joins c hs = (hs', Ok (v_get_joins v c)) ∧ shows r v hs'.
Proof.
  intros Hs. destruct (get_joins_history_spec r v hs c Hs) as (hs1 & E1 & Hs1 & _).
  unfold get_joins, v_get_joins. rewrite (sr_bind_Ok _ _ _ _ _ E1).
  rewrite (sr_bind_Ok (sr_gets hs_state) _ hs1 hs1 (hs_state hs1) eq_refl).
  pose proof (shows_joins_entry r v hs1 c Hs1) as Hd.
  rewrite (shows_ijoins_entry r v hs1 c Hs1).
  destruct (joins (hs_state hs1) !! c) as [l|]; [simpl in Hd; subst; by eauto|].
  change (v_joins (hist_view r) c = v_joins v c) in Hd.
  destruct (shows_set_joins r v hs1 c (v_joins (hist_view r) c) Hs1) as (hs2 & E2 & Hs2).
  exists hs2. rewrite (sr_bind_Ok _ _ _ _ _ E2), Hd in *. split; [done|].
  eapply shows_proper; [|exact Hs2]. by apply v_set_joins_same.
Qed.

Lemma put_join_spec r v hs c j :
  shows r v hs → ∃ hs', put_join c j hs = (hs', Ok ()) ∧ shows r (v_put_join v c j) hs'.
Proof.
  intros Hs. destruct (get_joins_history_spec r v hs c Hs) as (hs1 & E1 & Hs1 & _).
  unfold put_join. rewrite (sr_bind_Ok _ _ _ _ _ E1). cbn -[modify_state hist_view Nat.ltb Nat.eqb Z.leb].
  rewrite (shows_joins_entry r v hs1 c Hs1). unfold v_put_join.
  case_bool_decide; [rewrite decide_True by done|rewrite decide_False by done; by apply shows_set_joins].
  destruct (shows_set_joins r v hs1 c (v_joins v c) Hs1) as (hs2 & E2 & Hs2).
  exists hs2. split; [done|]. eapply shows_proper; [|exact Hs2]. by apply v_set_joins_same.
Qed.

Lemma remove_join_spec r v hs c j :
  shows r v hs → ∃ hs', remove_join c j hs = (hs', Ok ()) ∧ shows r (v_remove_join v c j) hs'.
Proof.
  intros Hs. destruct (get_joins_history_spec r v hs c Hs) as (hs1 & E1 & Hs1 & _).
  unfold remove_join. rewrite (sr_bind_Ok _ _ _ _ _ E1). cbn -[modify_state hist_view Nat.ltb Nat.eqb Z.leb].
  rewrite (shows_joins_entry r v hs1 c Hs1). unfold v_remove_join, remove_index.
  destruct (position _ _); [by apply shows_set_joins|].
  destruct (shows_set_joins r v hs1 c (v_joins v c) Hs1) as (hs2 & E2 & Hs2).
  exists hs2. split; [done|]. eapply shows_proper; [|exact Hs2]. by apply v_set_joins_same.
Qed.

Lemma install_join_spec r v hs c j :
  shows r v hs → ∃ hs', install_join c j hs = (hs', Ok ()) ∧ shows r (v_install_join v c j) hs'.
Proof.
  intros Hs. pose proof (shows_ijoins_entry r v hs c Hs) as Ej.
  destruct Hs as [<- Hr Hc [Hd Hcs Hj Hi Hij]]. eexists. split; [done|].
  split; [done|done|by destruct Hc|]. unfold v_install_join. rewrite Ej.
  case_bool_decide; [rewrite decide_True by done|rewrite decide_False by done];
    (split; simpl; [done..|]); intros c'; rewrite (default_insert _ (λ _, []));
    rewrite (upd_ext _ (v_ijoins v) _ _ _ Hij); [apply upd_same|done].
Qed.
End View.
#[global] Arguments View : clear implicits.
