(* ===== verification/Scodec.v ===== *)
(** * The bit-level serializers

    [rspace/src/serializers/scodec_serialize.rs] and the leaf codec of
    [rspace/src/history/cold_store.rs].  A [u64] value is an [N]; bits are
    written and read most significant first.  Reading past the end is an
    out-of-range panic, shown as [None]. *)

From S2P Require Import Prelude BTree Bytes Trace HotStore.

(** ** Bits *)
Definition u8_N (b : byte) : N := N.of_nat (u8_val b).
Definition N_u8 (n : N) : byte := as_u8 (N.to_nat n).
Definition u64_wrap (n : N) : N := (n mod 2 ^ 64)%N.

Record BitWriter := mkBitWriter {
  bw_bytes : list byte;
  bit_len : nat;
}.
Definition bit_writer_new : BitWriter := mkBitWriter [] 0.

(** The index is in range: the byte was pushed if it was missing. *)
Definition write_bit (w : BitWriter) (bit : N) : BitWriter :=
  let byte_idx := (bit_len w / 8)%nat in
  let bytes := if (byte_idx =? length (bw_bytes w))%nat then bw_bytes w ++ [x00] else bw_bytes w in
  mkBitWriter
    (alter (λ b, N_u8 (N.lor (u8_N b) (N.shiftl (N.land bit 1) (N.of_nat (7 - bit_len w mod 8))))) byte_idx bytes)
    (S (bit_len w)).

(** [for i in (0..n).rev()]. *)
Fixpoint write_bits (w : BitWriter) (value : N) (n : nat) : BitWriter :=
  match n with
  | O => w
  | S i => write_bits (write_bit w (N.land (N.shiftr value (N.of_nat i)) 1)) value i
  end.

Definition write_bytes (w : BitWriter) (data : list byte) : BitWriter :=
  foldl (λ w b, write_bits w (u8_N b) 8) w data.

Definition write_bool (w : BitWriter) (b : bool) : BitWriter := write_bit w (if b then 1 else 0)%N.

Record BitReader := mkBitReader {
  br_bytes : list byte;
  bit_pos : nat;
}.
Definition bit_reader_new (bytes : list byte) : BitReader := mkBitReader bytes 0.

Definition RD (X : Type) : Type := BitReader → option (X * BitReader).
Definition rd_ret {X} (x : X) : RD X := λ r, Some (x, r).
Definition rd_bind {X Y} (m : RD X) (k : X → RD Y) : RD Y := λ r,
  match m r with None => None | Some (x, r') => k x r' end.
Notation "x ←% m ; k" := (rd_bind m (λ x, k)) (at level 20, m at level 100, k at level 200) : rust_scope.

Definition read_bit : RD N := λ r,
  match br_bytes r !! (bit_pos r / 8)%nat with
  | None => None
  | Some b =>
      Some (N.land (N.shiftr (u8_N b) (N.of_nat (7 - bit_pos r mod 8))) 1,
            mkBitReader (br_bytes r) (S (bit_pos r)))
  end.

Fixpoint read_bits_loop (n : nat) (v : N) : RD N :=
  match n with
  | O => rd_ret v
  | S n' => bit ←% read_bit; read_bits_loop n' (N.lor (u64_wrap (N.shiftl v 1)) bit)
  end.
Definition read_bits (n : nat) : RD N := read_bits_loop n 0.

(** [for _ in 0..n { out.push(..) }]. *)
Fixpoint read_times {X} (n : nat) (m : RD X) : RD (list X) :=
  match n with
  | O => rd_ret []
  | S n' => x ←% m; l ←% read_times n' m; rd_ret (x :: l)
  end.

Definition read_bytes_bits (n : nat) : RD (list byte) := read_times n (b ←% read_bits 8; rd_ret (N_u8 b)).
Definition read_bool : RD bool := b ←% read_bit; rd_ret (negb (b =? 0)%N).

Definition write_size_head (w : BitWriter) (bytes : list byte) : BitWriter :=
  write_bytes (write_bits w (N.of_nat (length bytes)) 64) bytes.
Definition read_size_head : RD (list byte) := len ←% read_bits 64; read_bytes_bits (N.to_nat len).

(** ** Events *)
Definition encode_produce (w : BitWriter) (produce : Produce) : BitWriter :=
  write_bool (write_bytes (write_bytes w (p_channels_hash produce)) (p_hash produce)) (p_persistent produce).
Definition encode_consume (w : BitWriter) (consume : Consume) : BitWriter :=
  let w := write_bits w (N.of_nat (length (c_channels_hashes consume))) 32 in
  let w := foldl write_bytes w (c_channels_hashes consume) in
  write_bool (write_bytes w (c_hash consume)) (c_persistent consume).

Definition read_produce : RD Produce :=
  channels_hash ←% read_bytes_bits 32;
  hash ←% read_bytes_bits 32;
  persistent ←% read_bool;
  rd_ret (mkProduce channels_hash hash persistent).
Definition read_consume : RD Consume :=
  count ←% read_bits 32;
  channels_hashes ←% read_times (N.to_nat count) (read_bytes_bits 32);
  hash ←% read_bytes_bits 32;
  persistent ←% read_bool;
  rd_ret (mkConsume channels_hashes hash persistent).

(** ** Rows of the store *)
Definition encode_seq (l : list (list byte)) : list byte := encode_seq_byte_vectors (sort_by veccmp l).

Section Codec.
Context {C P A K : Type} `{!Serialize C, !Serialize P, !Serialize A, !Serialize K}.
Notation WC := (WaitingContinuation P K).

Definition encode_datum (w : BitWriter) (datum : Datum A) : BitWriter :=
  let w := write_size_head w (ser_encode (d_a datum)) in
  encode_produce (write_bool w (d_persist datum)) (d_source datum).

(** The peeks are visited in order. *)
Definition encode_waiting_continuation (w : BitWriter) (wc : WC) : BitWriter :=
  let w := write_bits w (N.of_nat (length (wc_patterns wc))) 32 in
  let w := foldl (λ w p, write_size_head w (ser_encode p)) w (wc_patterns wc) in
  let w := write_size_head w (ser_encode (wc_continuation wc)) in
  let w := write_bool w (wc_persist wc) in
  let w := write_bits w (N.of_nat (size (wc_peeks wc))) 32 in
  let w := foldl (λ w peek, write_bits w (N.of_nat peek) 8) w (set_iter (wc_peeks wc)) in
  encode_consume w (wc_source wc).

(** [map_err(..)?] of a decoded value. *)
Definition decoded {X} (o : option X) : Result X RSpaceError :=
  match o with Some x => Ok x | None => Err CodecFailed end.
Definition rd_try {X Y} (m : RD (Result X RSpaceError)) (k : X → RD (Result Y RSpaceError)) :
    RD (Result Y RSpaceError) :=
  x ←% m; match x with Ok x => k x | Err e => rd_ret (Err e) end.

Definition read_datum : RD (Result (Datum A) RSpaceError) :=
  rd_try (bytes ←% read_size_head; rd_ret (decoded (ser_decode bytes))) (λ a,
    persist ←% read_bool;
    source ←% read_produce;
    rd_ret (Ok (mkDatum a persist source))).

Fixpoint read_patterns (n : nat) : RD (Result (list P) RSpaceError) :=
  match n with
  | O => rd_ret (Ok [])
  | S n' =>
      rd_try (bytes ←% read_size_head; rd_ret (decoded (ser_decode bytes))) (λ p,
        rd_try (read_patterns n') (λ l, rd_ret (Ok (p :: l))))
  end.

Definition read_waiting_continuation : RD (Result WC RSpaceError) :=
  pattern_count ←% read_bits 32;
  rd_try (read_patterns (N.to_nat pattern_count)) (λ patterns,
  rd_try (bytes ←% read_size_head; rd_ret (decoded (ser_decode bytes))) (λ continuation,
    persist ←% read_bool;
    peek_count ←% read_bits 32;
    peeks ←% read_times (N.to_nat peek_count) (read_bits 8);
    source ←% read_consume;
    rd_ret (Ok (mkWC patterns continuation persist (list_to_set (N.to_nat <$> peeks)) source)))).

Definition encode_datum_bytes (datum : Datum A) : list byte := bw_bytes (encode_datum bit_writer_new datum).
Definition encode_datums (datums : list (Datum A)) : list byte := encode_seq (encode_datum_bytes <$> datums).
Definition encode_continuations (konts : list WC) : list byte :=
  encode_seq ((λ wc, bw_bytes (encode_waiting_continuation bit_writer_new wc)) <$> konts).
Definition encode_joins (joins : list (list C)) : list byte :=
  encode_seq ((λ join, encode_seq (ser_encode <$> join)) <$> joins).

Definition encode_datums_binary (datums : list (list byte)) : list byte := encode_seq datums.
Definition encode_continuations_binary (konts : list (list byte)) : list byte := encode_seq konts.
Definition encode_joins_binary (joins : list (list byte)) : list byte := encode_seq joins.

(** The value of a reader run on its own bytes. *)
Definition run_reader {X} (m : RD X) (bytes : list byte) : option X := fst <$> m (bit_reader_new bytes).

Definition decode_seq_byte_vectors (bytes : list byte) : option (list (list byte)) :=
  run_reader (count ←% read_bits 32; read_times (N.to_nat count) read_size_head) bytes.

(** [map(..).collect()] into a [Result]: stops at the first error. *)
Fixpoint collect_results {X Y} (f : X → option (Result Y RSpaceError)) (l : list X) :
    option (Result (list Y) RSpaceError) :=
  match l with
  | [] => Some (Ok [])
  | x :: l' =>
      match f x with
      | None => None
      | Some (Err e) => Some (Err e)
      | Some (Ok y) =>
          match collect_results f l' with
          | None => None
          | Some (Err e) => Some (Err e)
          | Some (Ok ys) => Some (Ok (y :: ys))
          end
      end
  end.

Definition decode_datum (bytes : list byte) : option (Result (Datum A) RSpaceError) := run_reader read_datum bytes.
Definition decode_datums (bytes : list byte) : option (Result (list (Datum A)) RSpaceError) :=
  l ← decode_seq_byte_vectors bytes; collect_results decode_datum l.
Definition decode_continuations (bytes : list byte) : option (Result (list WC) RSpaceError) :=
  l ← decode_seq_byte_vectors bytes; collect_results (run_reader read_waiting_continuation) l.
Definition decode_join (bytes : list byte) : option (Result (list C) RSpaceError) :=
  l ← decode_seq_byte_vectors bytes; collect_results (λ c, Some (decoded (ser_decode c))) l.
Definition decode_joins (bytes : list byte) : option (Result (list (list C)) RSpaceError) :=
  l ← decode_seq_byte_vectors bytes; collect_results decode_join l.

(** The rows with the bytes of their entries. *)
Record WithRaw (X : Type) := mkWithRaw {
  raw_decoded : X;
  raw : list byte;
}.
Definition DatumB : Type := WithRaw (Datum A).
Definition WaitingContinuationB : Type := WithRaw WC.
Definition JoinsB : Type := WithRaw (list C).

Definition with_raw {X} (decode : list byte → option (Result X RSpaceError)) (raw : list byte) :
    option (Result (WithRaw X) RSpaceError) :=
  match decode raw with
  | None => None
  | Some (Err e) => Some (Err e)
  | Some (Ok x) => Some (Ok (mkWithRaw X x raw))
  end.

Definition decode_datums_binary (bytes : list byte) : option (Result (list DatumB) RSpaceError) :=
  l ← decode_seq_byte_vectors bytes; collect_results (with_raw (run_reader read_datum)) l.
Definition decode_continuations_binary (bytes : list byte) : option (Result (list WaitingContinuationB) RSpaceError) :=
  l ← decode_seq_byte_vectors bytes; collect_results (with_raw (run_reader read_waiting_continuation)) l.
Definition decode_joins_binary (bytes : list byte) : option (Result (list JoinsB) RSpaceError) :=
  l ← decode_seq_byte_vectors bytes; collect_results (with_raw decode_join) l.
End Codec.
#[global] Arguments mkWithRaw {X}.
#[global] Arguments raw_decoded {X}.
#[global] Arguments raw {X}.

(** ** Persisted leaves *)
Inductive PersistedData :=
| JoinsLeaf (bytes : list byte)
| DataLeaf (bytes : list byte)
| ContinuationsLeaf (bytes : list byte)
| NativeLeaf (bytes : list byte).

Definition encode_persisted_data (value : PersistedData) : list byte :=
  let '(tag, bytes) :=
    match value with
    | JoinsLeaf b => (0, b)
    | DataLeaf b => (1, b)
    | ContinuationsLeaf b => (2, b)
    | NativeLeaf b => (3, b)
    end%N in
  let w := write_bits bit_writer_new tag 2 in
  let w := write_bits w (N.of_nat (length bytes)) 64 in
  bw_bytes (foldl (λ w b, write_bits w (u8_N b) 8) w bytes).

Definition decode_persisted_data (bytes : list byte) : option (Result PersistedData RSpaceError) :=
  run_reader (
    tag ←% read_bits 2;
    len ←% read_bits 64;
    data ←% read_bytes_bits (N.to_nat len);
    rd_ret (match tag with
            | 0 => Ok (JoinsLeaf data)
            | 1 => Ok (DataLeaf data)
            | 2 => Ok (ContinuationsLeaf data)
            | 3 => Ok (NativeLeaf data)
            | _ => Err CodecFailed
            end%N)) bytes.

(** ** What is written is what is read *)

(** The bit at position [i], most significant first. *)
Definition bit_at (bytes : list byte) (i : nat) : option bool :=
  (λ b, N.testbit (u8_N b) (N.of_nat (7 - i mod 8))) <$> bytes !! (i / 8)%nat.

Fixpoint bits_of (n : nat) (value : N) : list bool :=
  match n with O => [] | S i => N.testbit value (N.of_nat i) :: bits_of i value end.
Definition bits_of_bytes (l : list byte) : list bool := l ≫= λ b, bits_of 8 (u8_N b).

Lemma length_bits_of n v : length (bits_of n v) = n.
Proof. induction n as [|n IH]; simpl; [done|by rewrite IH]. Qed.
Lemma length_bits_of_bytes l : length (bits_of_bytes l) = (8 * length l)%nat.
Proof. induction l as [|b l IH]; [done|]. cbn -[bits_of]. rewrite length_app, length_bits_of. unfold bits_of_bytes in IH. lia. Qed.

Lemma u8_N_bound b : (u8_N b < 256)%N.
Proof. unfold u8_N. pose proof (u8_val_bound b). lia. Qed.
Lemma u8_N_u8 n : (n < 256)%N → u8_N (N_u8 n) = n.
Proof. intros Hn. unfold u8_N, N_u8. rewrite u8_val_as by lia. lia. Qed.
Lemma N_u8_N b : N_u8 (u8_N b) = b.
Proof. unfold u8_N, N_u8. rewrite Nat2N.id. apply as_u8_val. Qed.

(** The writer holds the bits [l]: they are at the front, and the rest of the
    last byte is zero. *)
Record holds (w : BitWriter) (l : list bool) : Prop := {
  holds_len : bit_len w = length l;
  holds_bytes : length (bw_bytes w) = ((length l + 7) / 8)%nat;
  holds_bit i : (i < 8 * length (bw_bytes w))%nat → bit_at (bw_bytes w) i = Some (default false (l !! i));
}.

Lemma holds_new : holds bit_writer_new [].
Proof. split; [done|done|]. simpl. lia. Qed.

Lemma lor_bound a b n : (a < 2 ^ n → b < 2 ^ n → N.lor a b < 2 ^ n)%N.
Proof.
  intros Ha Hb. destruct (N.eq_dec (N.lor a b) 0) as [->|Hne]; [lia|].
  destruct (N.eq_dec n 0) as [->|Hn].
  { exfalso. apply Hne. change (2 ^ 0)%N with 1%N in *. by replace a with 0%N by lia; replace b with 0%N by lia. }
  assert (∀ x, (x < 2 ^ n → N.log2 x < n)%N) as Hlog.
  { intros x Hx. destruct (N.eq_dec x 0) as [->|]; [change (N.log2 0) with 0%N; lia|].
    apply N.log2_lt_pow2; [lia|done]. }
  apply N.log2_lt_pow2; [lia|]. rewrite N.log2_lor. apply N.max_lub_lt; auto.
Qed.

Lemma bit_at_alter f bytes j i :
  (j < length bytes)%nat →
  bit_at (alter f j bytes) i =
  if decide (i / 8 = j)%nat
  then (λ b, N.testbit (u8_N (f b)) (N.of_nat (7 - i mod 8))) <$> bytes !! j
  else bit_at bytes i.
Proof.
  intros Hj. unfold bit_at. case_decide as E.
  - rewrite E, list_lookup_alter_eq. by destruct (bytes !! j).
  - by rewrite list_lookup_alter_ne.
Qed.

Lemma holds_write_bit w l (b : bool) : holds w l → holds (write_bit w (N.b2n b)) (l ++ [b]).
Proof.
  intros [Hl Hb Hbit]. set (n := length l) in *.
  assert (N.land (N.b2n b) 1 = N.b2n b) as Eb by by destruct b.
  set (bytes := if (bit_len w / 8 =? length (bw_bytes w))%nat then bw_bytes w ++ [x00] else bw_bytes w).
  assert (length bytes = S (n / 8) ∧ ∀ i, (i < 8 * length bytes)%nat →
    bit_at bytes i = Some (default false (l !! i))) as [Hlen Hbits].
  { unfold bytes. rewrite Hl. pose proof (Nat.div_mod_eq n 8). pose proof (Nat.mod_upper_bound n 8).
    pose proof (Nat.div_mod_eq (n + 7) 8). pose proof (Nat.mod_upper_bound (n + 7) 8).
    destruct (Nat.eqb_spec (n / 8) (length (bw_bytes w))) as [E|E].
    - rewrite length_app. cbn [length]. split; [lia|]. intros i Hi.
      destruct (decide (i < 8 * length (bw_bytes w))%nat) as [Hlt|Hge].
      + rewrite <- Hbit by done. unfold bit_at. rewrite lookup_app_l; [done|].
        apply Nat.Div0.div_lt_upper_bound. lia.
      + unfold bit_at. rewrite lookup_app_r by (apply Nat.div_le_lower_bound; lia).
        assert (i / 8 = length (bw_bytes w))%nat as -> by (symmetry; apply (Nat.div_unique i 8 _ (i - 8 * length (bw_bytes w))); lia).
        rewrite Nat.sub_diag. simpl. rewrite (lookup_ge_None_2 l i) by lia. done.
    - split; [lia|]. intros i Hi. apply Hbit. lia. }
  split.
  - simpl. rewrite Hl, length_app. simpl. lia.
  - unfold write_bit. fold bytes. cbn [bw_bytes]. rewrite length_alter, Hlen, length_app. cbn [length]. fold n.
    replace (n + 1 + 7)%nat with (1 * 8 + n)%nat by lia. rewrite Nat.div_add_l by lia. lia.
  - unfold write_bit. fold bytes. cbn [bw_bytes]. rewrite length_alter. intros i Hi.
    rewrite Hl, bit_at_alter by (rewrite Hlen; lia). pose proof (Hbits i Hi) as Hi'.
    pose proof (Nat.div_mod_eq i 8). pose proof (Nat.mod_upper_bound i 8).
    pose proof (Nat.div_mod_eq n 8). pose proof (Nat.mod_upper_bound n 8).
    case_decide as Ei.
    + unfold bit_at in Hi'. rewrite Ei in Hi'. destruct (bytes !! (n / 8)%nat) as [x|]; [|done].
      cbn [fmap option_fmap option_map] in Hi' |- *. apply (inj Some) in Hi'. f_equal. rewrite u8_N_u8.
      2:{ apply (lor_bound _ _ 8); [apply u8_N_bound|]. rewrite Eb.
          rewrite N.shiftl_mul_pow2. apply N.le_lt_trans with (1 * 2 ^ 7)%N; [|done].
          apply N.mul_le_mono; [destruct b; done|]. apply N.pow_le_mono_r; lia. }
      rewrite N.lor_spec, Hi', Eb.
      destruct (decide (i = n)) as [->|Hne].
      * rewrite list_lookup_middle by done. rewrite (lookup_ge_None_2 l n) by done. cbn [default].
        rewrite N.shiftl_spec_high' by lia. rewrite N.sub_diag. by destruct b.
      * assert (N.testbit (N.shiftl (N.b2n b) (N.of_nat (7 - n mod 8)))
          (N.of_nat (7 - i mod 8)) = false) as ->.
        { destruct (decide (i < n)%nat).
          - rewrite N.shiftl_spec_high' by lia.
            destruct (N.of_nat (7 - i mod 8) - N.of_nat (7 - n mod 8))%N eqn:E; [lia|]. by destruct b.
          - apply N.shiftl_spec_low. lia. }
        rewrite orb_false_r. destruct (decide (i < n)%nat).
        -- by rewrite lookup_app_l.
        -- rewrite !lookup_ge_None_2; [done|rewrite length_app; simpl; lia|lia].
    + rewrite Hi'. f_equal. f_equal. destruct (decide (i < n)%nat); [by rewrite lookup_app_l|].
      rewrite !lookup_ge_None_2; [done|rewrite length_app; simpl; lia|lia].
Qed.

Definition writes (f : BitWriter → BitWriter) (l : list bool) : Prop := ∀ w k, holds w k → holds (f w) (k ++ l).
Definition stream (bytes : list byte) (pos : nat) (l : list bool) : Prop :=
  ∀ i b, l !! i = Some b → bit_at bytes (pos + i) = Some b.
Definition reads {X} (m : RD X) (l : list bool) (x : X) : Prop :=
  ∀ bytes pos, stream bytes pos l → m (mkBitReader bytes pos) = Some (x, mkBitReader bytes (pos + length l)).

Lemma writes_comp f g l k : writes f l → writes g k → writes (λ w, g (f w)) (l ++ k).
Proof. intros Hf Hg w m Hw. rewrite app_assoc. auto. Qed.
Lemma writes_foldl {X} (f : BitWriter → X → BitWriter) (bits : X → list bool) (xs : list X) :
  (∀ x, x ∈ xs → writes (λ w, f w x) (bits x)) → writes (λ w, foldl f w xs) (xs ≫= bits).
Proof.
  induction xs as [|x xs IH]; intros Hf w k Hw; simpl; [by rewrite app_nil_r|].
  rewrite app_assoc. apply IH; [intros; apply Hf; by right|]. apply Hf; [by left|done].
Qed.

Lemma bit_testbit v i : N.land (N.shiftr v i) 1 = N.b2n (N.testbit v i).
Proof.
  change 1%N with (N.ones 1). by rewrite N.land_ones, N.shiftr_div_pow2, N.testbit_spec'.
Qed.

Lemma writes_bits v n : writes (λ w, write_bits w v n) (bits_of n v).
Proof.
  induction n as [|n IH]; intros w k Hw; simpl; [by rewrite app_nil_r|].
  rewrite bit_testbit. rewrite cons_middle, app_assoc. by apply IH, holds_write_bit.
Qed.
Lemma writes_bytes data : writes (λ w, write_bytes w data) (bits_of_bytes data).
Proof. apply (writes_foldl (λ w b, write_bits w (u8_N b) 8)). intros. apply writes_bits. Qed.
Lemma writes_bool b : writes (λ w, write_bool w b) [b].
Proof. intros w k Hw. unfold write_bool. pose proof (holds_write_bit w k b Hw) as Hb. by destruct b. Qed.

Lemma stream_app bytes pos l k : stream bytes pos (l ++ k) → stream bytes pos l ∧ stream bytes (pos + length l) k.
Proof.
  intros Hs. split; intros i b Hi.
  - apply Hs. by apply lookup_app_l_Some.
  - rewrite <- Nat.add_assoc. apply Hs. rewrite lookup_app_r by lia. by replace (length l + i - length l)%nat with i by lia.
Qed.

Lemma reads_ret {X} (x : X) : reads (rd_ret x) [] x.
Proof. intros bytes pos _. by rewrite Nat.add_0_r. Qed.
Lemma reads_bind {X Y} (m : RD X) (k : X → RD Y) l1 l2 x y :
  reads m l1 x → reads (k x) l2 y → reads (rd_bind m k) (l1 ++ l2) y.
Proof.
  intros Hm Hk bytes pos [H1 H2]%stream_app. unfold rd_bind. rewrite (Hm _ _ H1), (Hk _ _ H2).
  by rewrite length_app, Nat.add_assoc.
Qed.
Lemma reads_bit b : reads read_bit [b] (N.b2n b).
Proof.
  intros bytes pos Hs. specialize (Hs 0%nat b eq_refl). rewrite Nat.add_0_r in Hs. unfold read_bit, bit_at in *. cbn [br_bytes bit_pos].
  destruct (bytes !! (pos / 8)%nat) as [x|]; [|done].
  cbn [fmap option_fmap option_map] in Hs. apply (inj Some) in Hs. rewrite bit_testbit, Hs.
  cbn [length]. by rewrite Nat.add_1_r.
Qed.
Lemma reads_bool b : reads read_bool [b] b.
Proof.
  change [b] with ([b] ++ []). eapply reads_bind; [apply reads_bit|].
  replace b with (negb (N.b2n b =? 0)%N) at 2 by by destruct b. apply reads_ret.
Qed.

Lemma mod_pow2_succ v i : (v mod 2 ^ N.of_nat (S i) = N.b2n (N.testbit v (N.of_nat i)) * 2 ^ N.of_nat i + v mod 2 ^ N.of_nat i)%N.
Proof.
  rewrite Nat2N.inj_succ, N.pow_succ_r', N.testbit_spec', (N.mul_comm 2), N.Div0.mod_mul_r. lia.
Qed.

Lemma reads_bits_loop n acc v :
  (acc * 2 ^ N.of_nat n + 2 ^ N.of_nat n <= 2 ^ 64)%N →
  reads (read_bits_loop n acc) (bits_of n v) (acc * 2 ^ N.of_nat n + v mod 2 ^ N.of_nat n)%N.
Proof.
  revert acc. induction n as [|n IH]; intros acc Hb.
  - replace (acc * 2 ^ N.of_nat 0 + v mod 2 ^ N.of_nat 0)%N with acc; [apply reads_ret|].
    change (2 ^ N.of_nat 0)%N with 1%N. rewrite N.mod_1_r. lia.
  - cbn [read_bits_loop bits_of]. set (b := N.testbit v (N.of_nat n)).
    assert (N.lor (u64_wrap (N.shiftl acc 1)) (N.b2n b) = 2 * acc + N.b2n b)%N as Eacc.
    { unfold u64_wrap. rewrite N.shiftl_mul_pow2, N.mod_small.
      2:{ rewrite Nat2N.inj_succ, N.pow_succ_r' in Hb. pose proof (N.neq_0_lt_0 (2 ^ N.of_nat n)). nia. }
      rewrite N.mul_comm. change (2 ^ 1)%N with 2%N. destruct b; simpl N.b2n.
      - by destruct acc.
      - rewrite N.lor_0_r. lia. }
    change (b :: bits_of n v) with ([b] ++ bits_of n v).
    eapply reads_bind; [apply reads_bit|]. rewrite Eacc.
    replace (acc * 2 ^ N.of_nat (S n) + v mod 2 ^ N.of_nat (S n))%N
      with ((2 * acc + N.b2n b) * 2 ^ N.of_nat n + v mod 2 ^ N.of_nat n)%N.
    2:{ rewrite mod_pow2_succ. fold b. rewrite Nat2N.inj_succ, N.pow_succ_r'. lia. }
    apply IH. rewrite Nat2N.inj_succ, N.pow_succ_r' in Hb. destruct b; simpl N.b2n; nia.
Qed.

Lemma reads_bits n v : (n ≤ 64)%nat → (v < 2 ^ N.of_nat n)%N → reads (read_bits n) (bits_of n v) v.
Proof.
  intros Hn Hv. unfold read_bits. rewrite <- (N.mod_small v (2 ^ N.of_nat n)) at 2 by done.
  apply (reads_bits_loop n 0 v). rewrite N.mul_0_l, N.add_0_l. apply N.pow_le_mono_r; lia.
Qed.

Lemma reads_times {X} (m : RD X) (bits : X → list bool) (xs : list X) :
  (∀ x, x ∈ xs → reads m (bits x) x) → reads (read_times (length xs) m) (xs ≫= bits) xs.
Proof.
  induction xs as [|x xs IH]; intros Hm; [apply reads_ret|]. rewrite bind_cons. cbn [read_times length].
  eapply reads_bind; [apply Hm; by left|]. rewrite <- (app_nil_r (xs ≫= bits)).
  eapply reads_bind; [apply IH; intros; apply Hm; by right|]. apply reads_ret.
Qed.

Lemma reads_bytes l : reads (read_bytes_bits (length l)) (bits_of_bytes l) l.
Proof.
  apply (reads_times _ (λ b, bits_of 8 (u8_N b))). intros b _. rewrite <- (app_nil_r (bits_of 8 (u8_N b))).
  eapply reads_bind; [apply reads_bits; [lia|apply u8_N_bound]|]. rewrite N_u8_N. apply reads_ret.
Qed.
Lemma reads_bytes_len n l : length l = n → reads (read_bytes_bits n) (bits_of_bytes l) l.
Proof. intros <-. apply reads_bytes. Qed.

(** What a writer wrote, a reader reads. *)
Lemma holds_reads {X} w l (m : RD X) x : holds w l → reads m l x → run_reader m (bw_bytes w) = Some x.
Proof.
  intros [Hl Hb Hbit] Hm. unfold run_reader, bit_reader_new. rewrite Hm; [done|].
  intros i b Hi. simpl. apply lookup_lt_Some in Hi as Hlt. rewrite Hbit.
  - by rewrite Hi.
  - rewrite Hb. pose proof (Nat.div_mod_eq (length l + 7) 8). pose proof (Nat.mod_upper_bound (length l + 7) 8). lia.
Qed.

Lemma run_reads {X} bytes l (m : RD X) x : stream bytes 0 l → reads m l x → run_reader m bytes = Some x.
Proof. intros Hs Hm. unfold run_reader, bit_reader_new. by rewrite Hm. Qed.

(** ** Byte vectors *)
Lemma bits_of_split a b v : bits_of (a + b) v = bits_of a (N.shiftr v (N.of_nat b)) ++ bits_of b v.
Proof.
  induction a as [|a IH]; simpl; [done|]. rewrite IH. f_equal. rewrite N.shiftr_spec'. f_equal. lia.
Qed.
Lemma bits_of_mod n v : bits_of n (v mod 2 ^ N.of_nat n) = bits_of n v.
Proof.
  assert (∀ k, (k ≤ n)%nat → bits_of k (v mod 2 ^ N.of_nat n) = bits_of k v) as Hk; [|by apply Hk].
  induction k as [|k IH]; intros Hle; [done|]. cbn [bits_of]. rewrite IH by lia.
  by rewrite N.mod_pow2_bits_low by lia.
Qed.
Lemma bits_of_be_bytes w n : bits_of_bytes (be_bytes w n) = bits_of (8 * w) (N.of_nat n).
Proof.
  revert n. induction w as [|w IH]; intros n; [done|].
  replace (8 * S w)%nat with (8 * w + 8)%nat by lia. rewrite bits_of_split. cbn [be_bytes].
  unfold bits_of_bytes in *. rewrite bind_app, IH. f_equal.
  - f_equal. rewrite N.shiftr_div_pow2. change (2 ^ N.of_nat 8)%N with (N.of_nat 256). by rewrite Nat2N.inj_div.
  - rewrite bind_cons, app_nil_r. rewrite <- (bits_of_mod 8 (N.of_nat n)). f_equal.
    unfold u8_N, as_u8. change (2 ^ N.of_nat 8)%N with (N.of_nat 256). rewrite <- Nat2N.inj_mod. f_equal.
    rewrite <- (u8_val_as (n mod 256)) at 2 by (apply Nat.mod_upper_bound; lia).
    unfold as_u8. by rewrite Nat.Div0.mod_mod.
Qed.

Lemma bytes_stream bytes : stream bytes 0 (bits_of_bytes bytes).
Proof.
  assert (∀ l k : list byte, stream (k ++ l) (8 * length k) (bits_of_bytes l)) as Hs; [|apply (Hs bytes [])].
  induction l as [|b l IH]; intros k i c Hi; [done|]. unfold bits_of_bytes in Hi. rewrite bind_cons in Hi.
  destruct (decide (i < 8)%nat) as [Hlt|Hge].
  - rewrite lookup_app_l in Hi by (by rewrite length_bits_of). unfold bit_at.
    rewrite (Nat.mul_comm 8), Nat.div_add_l, (Nat.div_small i), Nat.add_0_r by lia.
    rewrite Nat.add_comm, Nat.Div0.mod_add, Nat.mod_small by lia.
    rewrite lookup_app_r, Nat.sub_diag by lia. cbn [lookup list_lookup fmap option_fmap option_map].
    rewrite <- Hi. clear -Hlt. do 8 (destruct i as [|i]; [done|]). lia.
  - rewrite lookup_app_r in Hi by (by rewrite length_bits_of; lia). rewrite length_bits_of in Hi.
    replace (8 * length k + i)%nat with (8 * length (k ++ [b]) + (i - 8))%nat
      by (rewrite length_app; cbn [length]; lia).
    rewrite cons_middle, app_assoc. by apply (IH (k ++ [b])).
Qed.

Definition fits (n : nat) (bits : N) : Prop := (N.of_nat n < 2 ^ bits)%N.
Definition size_head_bits (l : list byte) : list bool := bits_of 64 (N.of_nat (length l)) ++ bits_of_bytes l.

Lemma writes_size_head l : writes (λ w, write_size_head w l) (size_head_bits l).
Proof.
  intros w k Hw. unfold write_size_head, size_head_bits. rewrite app_assoc.
  apply (writes_bytes l), (writes_bits (N.of_nat (length l)) 64), Hw.
Qed.
Lemma reads_size_head l : fits (length l) 64 → reads read_size_head (size_head_bits l) l.
Proof.
  intros Hf. eapply reads_bind; [apply reads_bits; [lia|exact Hf]|]. rewrite Nat2N.id. apply reads_bytes.
Qed.

(** A sequence of byte vectors comes back. *)
Lemma decode_encode_seq l :
  fits (length l) 32 → Forall (λ b, fits (length b) 64) l →
  decode_seq_byte_vectors (encode_seq_byte_vectors l) = Some l.
Proof.
  intros Hl Hf. rewrite Forall_forall in Hf.
  apply (run_reads _ (bits_of 32 (N.of_nat (length l)) ++ (l ≫= size_head_bits))).
  - pose proof (bytes_stream (encode_seq_byte_vectors l)) as Hs.
    unfold encode_seq_byte_vectors in Hs at 2. unfold bits_of_bytes in Hs. rewrite bind_app in Hs.
    change (be_bytes 4 (length l) ≫= _) with (bits_of_bytes (be_bytes 4 (length l))) in Hs.
    rewrite (bits_of_be_bytes 4) in Hs. cbn [Nat.mul Nat.add] in Hs.
    replace (l ≫= size_head_bits) with ((l ≫= λ element, be_bytes 8 (length element) ++ element) ≫= λ b, bits_of 8 (u8_N b)); [done|].
    clear. induction l as [|b l IH]; [done|]. rewrite !bind_cons, bind_app, IH. f_equal.
    unfold size_head_bits. rewrite bind_app. f_equal. apply (bits_of_be_bytes 8).
  - eapply reads_bind; [apply reads_bits; [lia|exact Hl]|]. rewrite Nat2N.id.
    apply (reads_times _ size_head_bits). intros b Hb. apply reads_size_head. by apply Hf.
Qed.
Lemma decode_encode_sorted l :
  fits (length l) 32 → Forall (λ b, fits (length b) 64) l →
  decode_seq_byte_vectors (encode_seq l) = Some (sort_by veccmp l).
Proof.
  intros Hl Hf. apply decode_encode_seq; [by rewrite length_sort_by|]. by rewrite (sort_by_perm veccmp l).
Qed.

(** ** Rows of the store *)
Definition produce_ok (p : Produce) : Prop := length (p_channels_hash p) = 32%nat ∧ length (p_hash p) = 32%nat.
Definition consume_ok (c : Consume) : Prop :=
  fits (length (c_channels_hashes c)) 32 ∧ Forall (λ h, length h = 32%nat) (c_channels_hashes c) ∧
  length (c_hash c) = 32%nat.

Definition produce_bits (p : Produce) : list bool :=
  bits_of_bytes (p_channels_hash p) ++ bits_of_bytes (p_hash p) ++ [p_persistent p].
Definition consume_bits (c : Consume) : list bool :=
  bits_of 32 (N.of_nat (length (c_channels_hashes c))) ++ (c_channels_hashes c ≫= bits_of_bytes) ++
  bits_of_bytes (c_hash c) ++ [c_persistent c].

Lemma writes_produce p : writes (λ w, encode_produce w p) (produce_bits p).
Proof.
  intros w k Hw. unfold encode_produce, produce_bits. rewrite !app_assoc.
  by apply writes_bool, writes_bytes, writes_bytes.
Qed.
Lemma writes_consume c : writes (λ w, encode_consume w c) (consume_bits c).
Proof.
  intros w k Hw. unfold encode_consume, consume_bits. rewrite !app_assoc. apply writes_bool, writes_bytes.
  apply (writes_foldl write_bytes bits_of_bytes); [intros; apply writes_bytes|].
  apply (writes_bits (N.of_nat (length (c_channels_hashes c))) 32), Hw.
Qed.
Lemma reads_produce p : produce_ok p → reads read_produce (produce_bits p) p.
Proof.
  intros [H1 H2]. destruct p as [ch h b]. unfold produce_bits. simpl in *.
  eapply reads_bind; [by apply reads_bytes_len|]. eapply reads_bind; [by apply reads_bytes_len|].
  change [b] with ([b] ++ []). eapply reads_bind; [apply reads_bool|]. apply reads_ret.
Qed.
Lemma reads_consume c : consume_ok c → reads read_consume (consume_bits c) c.
Proof.
  intros (H1 & H2 & H3). destruct c as [chs h b]. unfold consume_bits. cbn [c_channels_hashes c_hash c_persistent] in *.
  eapply reads_bind; [apply reads_bits; [lia|exact H1]|]. rewrite Nat2N.id.
  eapply reads_bind; [apply (reads_times _ bits_of_bytes)|].
  { intros x Hx. apply reads_bytes_len. rewrite Forall_forall in H2. by apply H2. }
  eapply reads_bind; [by apply reads_bytes_len|].
  change [b] with ([b] ++ []). eapply reads_bind; [apply reads_bool|]. apply reads_ret.
Qed.

Section Roundtrip.
Context {C P A K : Type} `{!Serialize C, !Serialize P, !Serialize A, !Serialize K}.
Context `{!SerializeSpec C, !SerializeSpec P, !SerializeSpec A, !SerializeSpec K}.
Notation WC := (WaitingContinuation P K).

(** What fits the fields of the encoding. *)
Definition datum_ok (d : Datum A) : Prop := fits (length (ser_encode (d_a d))) 64 ∧ produce_ok (d_source d).
Definition wc_ok (wc : WC) : Prop :=
  fits (length (wc_patterns wc)) 32 ∧ Forall (λ p, fits (length (ser_encode p)) 64) (wc_patterns wc) ∧
  fits (length (ser_encode (wc_continuation wc))) 64 ∧ fits (size (wc_peeks wc)) 32 ∧
  (∀ i, i ∈ wc_peeks wc → (i < 256)%nat) ∧ consume_ok (wc_source wc).

Definition datum_bits (d : Datum A) : list bool :=
  size_head_bits (ser_encode (d_a d)) ++ [d_persist d] ++ produce_bits (d_source d).
Definition wc_bits (wc : WC) : list bool :=
  bits_of 32 (N.of_nat (length (wc_patterns wc))) ++ (wc_patterns wc ≫= λ p, size_head_bits (ser_encode p)) ++
  size_head_bits (ser_encode (wc_continuation wc)) ++ [wc_persist wc] ++
  bits_of 32 (N.of_nat (size (wc_peeks wc))) ++ (set_iter (wc_peeks wc) ≫= λ i, bits_of 8 (N.of_nat i)) ++
  consume_bits (wc_source wc).

Lemma writes_datum d : writes (λ w, encode_datum w d) (datum_bits d).
Proof.
  intros w k Hw. unfold encode_datum, datum_bits. rewrite !app_assoc.
  by apply writes_produce, writes_bool, writes_size_head.
Qed.
Lemma writes_wc wc : writes (λ w, encode_waiting_continuation w wc) (wc_bits wc).
Proof.
  intros w k Hw. unfold encode_waiting_continuation, wc_bits. rewrite !app_assoc. apply writes_consume.
  apply (writes_foldl (λ w peek, write_bits w (N.of_nat peek) 8) (λ i, bits_of 8 (N.of_nat i))).
  { intros i _. apply (writes_bits (N.of_nat i) 8). }
  apply (writes_bits (N.of_nat (size (wc_peeks wc))) 32), writes_bool, writes_size_head.
  apply (writes_foldl (λ w p, write_size_head w (ser_encode p)) (λ p, size_head_bits (ser_encode p))).
  { intros p _. apply writes_size_head. }
  apply (writes_bits (N.of_nat (length (wc_patterns wc))) 32), Hw.
Qed.

Lemma reads_try {X Y} (m : RD (Result X RSpaceError)) (k : X → RD (Result Y RSpaceError)) l1 l2 x y :
  reads m l1 (Ok x) → reads (k x) l2 y → reads (rd_try m k) (l1 ++ l2) y.
Proof. intros Hm Hk. by eapply reads_bind. Qed.
Lemma reads_ser {X} `{!Serialize X, !SerializeSpec X} (x : X) :
  fits (length (ser_encode x)) 64 →
  reads (bytes ←% read_size_head; rd_ret (decoded (ser_decode bytes))) (size_head_bits (ser_encode x)) (Ok x).
Proof.
  intros Hf. rewrite <- (app_nil_r (size_head_bits _)). eapply reads_bind; [by apply reads_size_head|].
  rewrite ser_decode_encode. apply reads_ret.
Qed.

Lemma reads_datum d : datum_ok d → reads read_datum (datum_bits d) (Ok d).
Proof.
  intros [H1 H2]. destruct d as [a b p]. unfold datum_bits. cbn [d_a d_persist d_source] in *.
  eapply reads_try; [by apply reads_ser|]. eapply reads_bind; [apply reads_bool|].
  rewrite <- (app_nil_r (produce_bits p)). eapply reads_bind; [by apply reads_produce|]. apply reads_ret.
Qed.

Lemma reads_patterns (ps : list P) :
  Forall (λ p, fits (length (ser_encode p)) 64) ps →
  reads (read_patterns (length ps)) (ps ≫= λ p, size_head_bits (ser_encode p)) (Ok ps).
Proof.
  induction 1 as [|p ps Hp _ IH]; [apply reads_ret|]. rewrite bind_cons. cbn [read_patterns length].
  eapply reads_try; [by apply reads_ser|]. rewrite <- (app_nil_r (ps ≫= _)).
  eapply reads_try; [exact IH|]. apply reads_ret.
Qed.

Lemma reads_wc wc : wc_ok wc → reads read_waiting_continuation (wc_bits wc) (Ok wc).
Proof.
  intros (H1 & H2 & H3 & H4 & H5 & H6). destruct wc as [ps cont b peeks src]. unfold wc_bits.
  cbn [wc_patterns wc_continuation wc_persist wc_peeks wc_source] in *.
  eapply reads_bind; [apply reads_bits; [lia|exact H1]|]. rewrite Nat2N.id.
  eapply reads_try; [by apply reads_patterns|]. eapply reads_try; [by apply reads_ser|].
  eapply reads_bind; [apply reads_bool|]. eapply reads_bind; [apply reads_bits; [lia|exact H4]|]. rewrite Nat2N.id.
  replace (size peeks) with (length (N.of_nat <$> set_iter peeks))
    by (rewrite length_fmap, set_iter_perm; done).
  replace (set_iter peeks ≫= λ i, bits_of 8 (N.of_nat i)) with ((N.of_nat <$> set_iter peeks) ≫= bits_of 8)
    by (generalize (set_iter peeks) as l; clear; intros l; induction l as [|i l IH]; [done|]; rewrite fmap_cons, !bind_cons; by rewrite IH).
  eapply reads_bind; [apply (reads_times _ (bits_of 8))|].
  { intros x (i & -> & Hi%elem_of_set_iter)%list_elem_of_fmap. apply reads_bits; [lia|]. specialize (H5 i Hi).
    change (2 ^ N.of_nat 8)%N with 256%N. lia. }
  rewrite <- (app_nil_r (consume_bits src)). eapply reads_bind; [by apply reads_consume|].
  replace (list_to_set (N.to_nat <$> (N.of_nat <$> set_iter peeks))) with peeks; [apply reads_ret|].
  apply set_eq. intros i. rewrite elem_of_list_to_set, <- list_fmap_compose, list_elem_of_fmap. split.
  - intros Hi. exists i. split; [unfold compose; by rewrite Nat2N.id|by apply elem_of_set_iter].
  - intros (j & -> & Hj%elem_of_set_iter). unfold compose. by rewrite Nat2N.id.
Qed.

Lemma decode_datum_bytes d : datum_ok d → decode_datum (encode_datum_bytes d) = Some (Ok d).
Proof.
  intros Hd. unfold decode_datum, encode_datum_bytes. eapply holds_reads; [|by apply reads_datum].
  apply (writes_datum d bit_writer_new []), holds_new.
Qed.
Lemma decode_wc_bytes wc :
  wc_ok wc → run_reader read_waiting_continuation (bw_bytes (encode_waiting_continuation bit_writer_new wc)) = Some (Ok wc).
Proof.
  intros Hd. eapply holds_reads; [|by apply reads_wc]. apply (writes_wc wc bit_writer_new []), holds_new.
Qed.

Lemma collect_results_ok {X Y} (f : X → option (Result Y RSpaceError)) (g : Y → X) (ys : list Y) :
  (∀ y, y ∈ ys → f (g y) = Some (Ok y)) → collect_results f (g <$> ys) = Some (Ok ys).
Proof.
  induction ys as [|y ys IH]; intros Hf; [done|]. rewrite fmap_cons. cbn [collect_results].
  rewrite Hf by by left. rewrite IH; [done|]. intros. apply Hf. by right.
Qed.

(** A sorted sequence of encodings comes back, in the order of the encodings. *)
Lemma decode_sorted {Y} (f : list byte → option (Result Y RSpaceError)) (g : Y → list byte) (ys : list Y) :
  fits (length ys) 32 → Forall (λ y, fits (length (g y)) 64 ∧ f (g y) = Some (Ok y)) ys →
  ∃ ys', ys' ≡ₚ ys ∧ (l ← decode_seq_byte_vectors (encode_seq (g <$> ys)); collect_results f l) = Some (Ok ys').
Proof.
  intros Hl Hf. rewrite Forall_forall in Hf.
  destruct (Permutation_map_inv g ys (sort_by_perm veccmp (g <$> ys))) as (ys' & E & Hp).
  exists ys'. split; [by symmetry|]. rewrite decode_encode_sorted.
  - cbn [mbind option_bind]. trans (collect_results f (g <$> ys')); [f_equal; exact E|]. apply (collect_results_ok f g). intros y Hy. apply Hf. by rewrite Hp.
  - by rewrite length_fmap.
  - apply Forall_forall. intros b (y & -> & Hy)%list_elem_of_fmap. by apply Hf.
Qed.

Definition data_row_ok (ds : list (Datum A)) : Prop :=
  fits (length ds) 32 ∧ Forall (λ d, datum_ok d ∧ fits (length (encode_datum_bytes d)) 64) ds.
Definition conts_row_ok (l : list WC) : Prop :=
  fits (length l) 32 ∧
  Forall (λ wc, wc_ok wc ∧ fits (length (bw_bytes (encode_waiting_continuation bit_writer_new wc))) 64) l.

(** A row of data comes back up to the order. *)
Lemma decode_encode_datums ds :
  data_row_ok ds → ∃ ds', ds' ≡ₚ ds ∧ decode_datums (encode_datums ds) = Some (Ok ds').
Proof.
  intros [Hl Hf]. apply (decode_sorted decode_datum encode_datum_bytes); [done|].
  eapply Forall_impl; [exact Hf|]. intros d [Hd Hs]. split; [done|]. by apply decode_datum_bytes.
Qed.
Lemma decode_encode_continuations l :
  conts_row_ok l → ∃ l', l' ≡ₚ l ∧ decode_continuations (encode_continuations l) = Some (Ok l').
Proof.
  intros [Hl Hf].
  apply (decode_sorted _ (λ wc, bw_bytes (encode_waiting_continuation bit_writer_new wc))); [done|].
  eapply Forall_impl; [exact Hf|]. intros wc [Hd Hs]. split; [done|]. by apply decode_wc_bytes.
Qed.

(** *** Joins: the channels of a join are sorted by their encoding. *)
Definition canonical_join (j : list C) : list C := sort_by (λ a b, veccmp (ser_encode a) (ser_encode b)) j.

#[global] Instance ser_encode_inj : Inj (=) (=) (ser_encode (A := C)).
Proof. intros a b E. apply (inj Some). by rewrite <- !ser_decode_encode, E. Qed.

Lemma canonical_join_eq j j' : j ≡ₚ j' → canonical_join j = canonical_join j'.
Proof.
  intros Hp. unfold canonical_join.
  change (λ a b : C, veccmp (ser_encode a) (ser_encode b)) with
    (λ a b : C, cmp (length (ser_encode a), ser_encode a) (length (ser_encode b), ser_encode b)).
  apply (sort_by_key_eq (λ a : C, (length (ser_encode a), ser_encode a))); [done|].
  intros a b _ _ [= _ E]. by apply (inj ser_encode).
Qed.
Lemma canonical_join_perm j : canonical_join j ≡ₚ j.
Proof. apply sort_by_perm. Qed.

Lemma sort_encoded j : sort_by veccmp (ser_encode <$> j) = ser_encode <$> canonical_join j.
Proof.
  set (R := cmp_le veccmp).
  assert (AntiSymm (=) R) as HA.
  { intros a b Hab Hba. pose proof (ord_le_antisym (length a, a) (length b, b) Hab Hba) as E. by injection E. }
  apply (StronglySorted_unique R).
  - exact (sort_by_sorted (λ a : list byte, (length a, a)) (ser_encode <$> j)).
  - pose proof (sort_by_sorted (λ a : C, (length (ser_encode a), ser_encode a)) j) as Hs.
    change (StronglySorted (cmp_le (λ a b : C, veccmp (ser_encode a) (ser_encode b))) (canonical_join j)) in Hs.
    induction Hs as [|a l Hs IH Ha]; [constructor|]. rewrite fmap_cons. constructor; [done|].
    rewrite Forall_fmap. exact Ha.
  - rewrite sort_by_perm. by rewrite canonical_join_perm.
Qed.

Definition join_ok (j : list C) : Prop :=
  fits (length j) 32 ∧ Forall (λ c, fits (length (ser_encode c)) 64) j ∧
  fits (length (encode_seq (ser_encode <$> j))) 64.

Lemma decode_encode_join j : join_ok j → decode_join (encode_seq (ser_encode <$> j)) = Some (Ok (canonical_join j)).
Proof.
  intros (Hl & Hf & _). unfold decode_join. rewrite decode_encode_sorted; [|by rewrite length_fmap|by rewrite Forall_fmap].
  cbn [mbind option_bind]. rewrite sort_encoded. apply collect_results_ok. intros c _. by rewrite ser_decode_encode.
Qed.

Lemma decode_encode_joins js :
  fits (length js) 32 → Forall join_ok js →
  ∃ js', js' ≡ₚ canonical_join <$> js ∧ decode_joins (encode_joins js) = Some (Ok js').
Proof.
  intros Hl Hf.
  assert (encode_joins js = encode_joins (canonical_join <$> js)) as ->.
  { unfold encode_joins. rewrite <- list_fmap_compose. f_equal. apply list_fmap_ext. intros i j _. unfold compose.
    unfold encode_seq. by rewrite (sort_encoded j), (sort_encoded (canonical_join j)),
      (canonical_join_eq _ _ (canonical_join_perm j)). }
  apply (decode_sorted decode_join (λ join, encode_seq (ser_encode <$> join))); [by rewrite length_fmap|].
  rewrite Forall_fmap. eapply Forall_impl; [exact Hf|]. intros j Hj.
  assert (encode_seq (ser_encode <$> canonical_join j) = encode_seq (ser_encode <$> j)) as E.
  { unfold encode_seq. by rewrite (sort_encoded j), (sort_encoded (canonical_join j)),
      (canonical_join_eq _ _ (canonical_join_perm j)). }
  unfold compose. rewrite E. split; [apply Hj|]. by apply decode_encode_join.
Qed.
End Roundtrip.

(** A leaf comes back. *)
Definition leaf_bytes (leaf : PersistedData) : list byte :=
  match leaf with JoinsLeaf b | DataLeaf b | ContinuationsLeaf b | NativeLeaf b => b end.

(** Persisted leaves come back: decoding the encoding of a leaf, whose
    payload has less than 2^64 bytes, gives the leaf. *)
Lemma persisted_data_roundtrip leaf :
  fits (length (leaf_bytes leaf)) 64 → decode_persisted_data (encode_persisted_data leaf) = Some (Ok leaf).
Proof.
  intros Hf.
  assert (∀ tag bytes (k : N → list byte → Result PersistedData RSpaceError) out,
    (tag < 4)%N → fits (length bytes) 64 → k tag bytes = out →
    run_reader (t ←% read_bits 2; len ←% read_bits 64; data ←% read_bytes_bits (N.to_nat len); rd_ret (k t data))
      (bw_bytes (write_size_head (write_bits bit_writer_new tag 2) bytes)) = Some out) as Hgen.
  { intros tag bytes k out Ht Hb <-.
    apply (holds_reads _ (bits_of 2 tag ++ size_head_bits bytes)).
    - apply (writes_size_head bytes), (writes_bits tag 2 bit_writer_new []), holds_new.
    - eapply reads_bind; [apply reads_bits; [lia|exact Ht]|]. unfold size_head_bits.
      eapply reads_bind; [apply reads_bits; [lia|exact Hb]|]. rewrite Nat2N.id.
      rewrite <- (app_nil_r (bits_of_bytes bytes)). eapply reads_bind; [apply reads_bytes|apply reads_ret]. }
  unfold decode_persisted_data. destruct leaf as [b|b|b|b].
  all: apply (Hgen _ b (λ tag data, match tag with
            | 0 => Ok (JoinsLeaf data) | 1 => Ok (DataLeaf data) | 2 => Ok (ContinuationsLeaf data)
            | 3 => Ok (NativeLeaf data) | _ => Err CodecFailed end%N)); [done|exact Hf|done].
Qed.
