(* ===== verification/SpaceMatcher.v ===== *)
(** * Searching the tuple space for matches

    [rspace/src/space_matcher.rs] and the candidates of
    [rspace/src/internal.rs].  The matcher (the [Match] trait) is a parameter.
    Each loop over a list is the recursion on it. *)

From S2P Require Import Prelude BTree Bytes Trace HotStore.

Record ConsumeCandidate (C A : Type) := mkCC {
  cc_channel : C;
  cc_datum : Datum A;
  removed_datum : A;
  datum_index : Z;
}.
#[global] Arguments mkCC {C A}.
#[global] Arguments cc_channel {C A}.
#[global] Arguments cc_datum {C A}.
#[global] Arguments removed_datum {C A}.
#[global] Arguments datum_index {C A}.

Record ProduceCandidate (C P A K : Type) := mkPC {
  pc_channels : list C;
  pc_continuation : WaitingContinuation P K;
  continuation_index : nat;
  data_candidates : list (ConsumeCandidate C A);
}.
#[global] Arguments mkPC {C P A K}.
#[global] Arguments pc_channels {C P A K}.
#[global] Arguments pc_continuation {C P A K}.
#[global] Arguments continuation_index {C P A K}.
#[global] Arguments data_candidates {C P A K}.

Lemma Forall2_impl_elem {X Y} (Q R : X → Y → Prop) l k :
  Forall2 Q l k → (∀ x y, x ∈ l → y ∈ k → Q x y → R x y) → Forall2 R l k.
Proof.
  induction 1 as [|x y l k Hxy _ IH]; intros HR; constructor.
  - apply HR; [by left..|done].
  - apply IH. intros. apply HR; [by right..|done].
Qed.

(** [Iterator::collect] into an [Option<Vec>]. *)
Fixpoint collect {X} (l : list (option X)) : option (list X) :=
  match l with
  | [] => Some []
  | Some x :: l' => (x ::.) <$> collect l'
  | None :: _ => None
  end.

Lemma collect_Some {X} (l : list (option X)) xs : collect l = Some xs ↔ l = Some <$> xs.
Proof.
  split.
  - revert xs. induction l as [|[x|] l IH]; intros xs; simpl; [by intros [= <-]| |done].
    destruct (collect l) as [ys|]; [|done]. intros [= <-]. rewrite fmap_cons. f_equal. by apply IH.
  - intros ->. induction xs as [|x xs IH]; [done|]. rewrite fmap_cons. simpl. by rewrite IH.
Qed.

Lemma collect_None {X} (l : list (option X)) : collect l = None ↔ None ∈ l.
Proof.
  induction l as [|[x|] l IH]; simpl.
  - split; [done|]. by intros ?%elem_of_nil.
  - rewrite elem_of_cons. destruct (collect l); simpl; naive_solver.
  - split; [by left|done].
Qed.

Section SpaceMatcher.
Context {C P A K : Type} `{!Ord C} `{Countable C}.
Notation WC := (WaitingContinuation P K).
Notation IndexedData := (list (Datum A * Z)).
(** [Match::get]. *)
Context (get : P → A → option A).

(** The [loop], with the data already passed in [prefix]. *)
Fixpoint find_matching_loop (channel : C) (data : IndexedData) (pattern : P)
    (prefix remaining : IndexedData) : option (ConsumeCandidate C A * IndexedData) :=
  match remaining with
  | [] => None
  | (datum, data_index) :: rest =>
      match get pattern (d_a datum) with
      | None => find_matching_loop channel data pattern ((datum, data_index) :: prefix) rest
      | Some mat =>
          let indexed_datums := if d_persist datum then data else prefix ++ rest in
          Some (mkCC channel (mkDatum mat (d_persist datum) (d_source datum)) (d_a datum) data_index,
                indexed_datums)
      end
  end.

Definition find_matching_data_candidate (channel : C) (data : IndexedData) (pattern : P) :
    option (ConsumeCandidate C A * IndexedData) :=
  find_matching_loop channel data pattern [] data.

Fixpoint extract_data_loop (channel_pattern_pairs : list (C * P))
    (acc : list (option (ConsumeCandidate C A))) (map : gmap C IndexedData) :
    list (option (ConsumeCandidate C A)) :=
  match channel_pattern_pairs with
  | [] => acc
  | (channel, pattern) :: pairs =>
      match map !! channel ≫= λ indexed_data,
              find_matching_data_candidate channel indexed_data pattern with
      | Some (candidate, rem) =>
          extract_data_loop pairs (acc ++ [Some candidate]) (<[channel := rem]> map)
      | None => extract_data_loop pairs (acc ++ [None]) map
      end
  end.

Definition extract_data_candidates (channel_pattern_pairs : list (C * P))
    (channel_to_indexed_data : gmap C IndexedData) : list (option (ConsumeCandidate C A)) :=
  extract_data_loop channel_pattern_pairs [] channel_to_indexed_data.

Fixpoint first_match_loop (channels : list C) (channel_to_indexed_data : gmap C IndexedData)
    (sorted : list (WC * nat)) : option (ProduceCandidate C P A K) :=
  match sorted with
  | [] => None
  | (wc, index) :: sorted' =>
      let cands := extract_data_candidates (zip channels (wc_patterns wc)) channel_to_indexed_data in
      if forallb (λ c, bool_decide (is_Some c)) cands
      then Some (mkPC channels wc index (omap id cands))
      else first_match_loop channels channel_to_indexed_data sorted'
  end.

Definition extract_first_match (channels : list C) (match_candidates : list (WC * nat))
    (channel_to_indexed_data : gmap C IndexedData) : option (ProduceCandidate C P A K) :=
  first_match_loop channels channel_to_indexed_data
    (sort_by (λ a b, consume_cmp (wc_source a.1) (wc_source b.1)) match_candidates).

(** ** What a candidate is *)

(** [cand] matches [pattern] with the datum [d] stored at index [i]. *)
Definition candidate_of (channel : C) (pattern : P) (d : Datum A) (i : Z)
    (cand : ConsumeCandidate C A) : Prop :=
  ∃ mat, get pattern (d_a d) = Some mat ∧
    cand = mkCC channel (mkDatum mat (d_persist d) (d_source d)) (d_a d) i.

(** The first matching datum is taken; the rest is what remains. *)
Lemma find_matching_loop_Some channel data pattern prefix remaining cand rem :
  find_matching_loop channel data pattern prefix remaining = Some (cand, rem) ↔
  ∃ l1 d i l2, remaining = l1 ++ (d, i) :: l2 ∧
    (∀ x, x ∈ l1 → get pattern (d_a x.1) = None) ∧
    candidate_of channel pattern d i cand ∧
    rem = (if d_persist d then data else reverse l1 ++ prefix ++ l2).
Proof.
  revert prefix. induction remaining as [|[d i] rest IH]; intros prefix; simpl.
  { split; [done|]. intros (l1 & d & i & l2 & E & _). by destruct l1. }
  destruct (get pattern (d_a d)) as [mat|] eqn:Eg.
  - split.
    + intros [= <- <-]. exists [], d, i, rest. split_and!; [done|by intros ? ?%elem_of_nil| |done].
      by exists mat.
    + intros ([|x l1] & d' & i' & l2 & E & Hn & (mat' & Eg' & ->) & ->).
      * injection E as -> -> ->. assert (mat = mat') as -> by congruence. done.
      * injection E as <- _. specialize (Hn (d, i) ltac:(by left)). simpl in Hn. congruence.
  - rewrite IH. split.
    + intros (l1 & d' & i' & l2 & -> & Hn & Hc & ->). exists ((d, i) :: l1), d', i', l2.
      split_and!; [done| |done|].
      * intros x [->|Hx]%elem_of_cons; [done|]. by apply Hn.
      * rewrite reverse_cons, <- app_assoc. done.
    + intros ([|x l1] & d' & i' & l2 & E & Hn & Hc & ->).
      * injection E as -> -> ->. destruct Hc as (mat & Eg' & _). congruence.
      * injection E as <- ->. exists l1, d', i', l2. split_and!; [done| |done|].
        -- intros y Hy. apply Hn. by right.
        -- rewrite reverse_cons, <- app_assoc. done.
Qed.

Lemma find_matching_loop_None channel data pattern prefix remaining :
  find_matching_loop channel data pattern prefix remaining = None ↔
  ∀ x, x ∈ remaining → get pattern (d_a x.1) = None.
Proof.
  revert prefix. induction remaining as [|[d i] rest IH]; intros prefix; simpl.
  { split; [|done]. by intros _ ? ?%elem_of_nil. }
  setoid_rewrite elem_of_cons. destruct (get pattern (d_a d)) eqn:Eg.
  - split; [done|]. intros Hn. specialize (Hn (d, i) ltac:(by left)). simpl in Hn. congruence.
  - rewrite IH. naive_solver.
Qed.

(** The candidates in order, each found in the data left by the ones before. *)
Inductive extracts : list (C * P) → gmap C IndexedData → list (ConsumeCandidate C A) → Prop :=
| extracts_nil map : extracts [] map []
| extracts_cons channel pattern pairs map indexed cand rem cands :
    map !! channel = Some indexed →
    find_matching_data_candidate channel indexed pattern = Some (cand, rem) →
    extracts pairs (<[channel := rem]> map) cands →
    extracts ((channel, pattern) :: pairs) map (cand :: cands).

Lemma extract_data_loop_acc pairs acc map :
  extract_data_loop pairs acc map = acc ++ extract_data_loop pairs [] map.
Proof.
  revert acc map. induction pairs as [|[c p] pairs IH]; intros acc map; simpl.
  { by rewrite app_nil_r. }
  destruct (map !! c ≫= _) as [[cand rem]|].
  - rewrite IH. rewrite (IH [Some cand]). by rewrite <- app_assoc.
  - rewrite IH. rewrite (IH [None]). by rewrite <- app_assoc.
Qed.

Lemma collect_extract pairs map cands :
  collect (extract_data_candidates pairs map) = Some cands ↔ extracts pairs map cands.
Proof.
  rewrite collect_Some. unfold extract_data_candidates. revert map cands.
  induction pairs as [|[c p] pairs IH]; intros map cands; simpl.
  { destruct cands; split; [constructor|done|done|by inversion 1]. }
  destruct (map !! c ≫= _) as [[cand rem]|] eqn:E.
  - rewrite extract_data_loop_acc. simpl. destruct cands as [|cand' cands].
    { split; [done|inversion 1]. }
    destruct (map !! c) as [indexed|] eqn:Em; simpl in E; [|done]. split.
    + intros [= <- Hl]. econstructor; [done|done|]. by apply IH.
    + inversion 1; subst. simplify_eq. rewrite fmap_cons. f_equal. by apply IH.
  - rewrite extract_data_loop_acc. simpl. destruct cands as [|cand' cands].
    { split; [done|inversion 1]. }
    split; [done|]. inversion 1; subst. by simplify_option_eq.
Qed.

(** [collect] is what [all(is_some)] and [flatten] compute. *)
Lemma collect_forallb {X} (l : list (option X)) :
  (if forallb (λ c, bool_decide (is_Some c)) l then Some (omap id l) else None) = collect l.
Proof.
  induction l as [|[x|] l IH]; [done| |done].
  cbn -[bool_decide omap]. rewrite bool_decide_true by eauto. simpl. rewrite <- IH.
  by destruct (forallb _ l).
Qed.

(** The first continuation in the sorted order that can be served. *)
Lemma first_match_loop_Some channels map sorted pc :
  first_match_loop channels map sorted = Some pc ↔
  ∃ l1 wc index l2 cands, sorted = l1 ++ (wc, index) :: l2 ∧
    (∀ x, x ∈ l1 → ∀ cands, ¬ extracts (zip channels (wc_patterns x.1)) map cands) ∧
    extracts (zip channels (wc_patterns wc)) map cands ∧
    pc = mkPC channels wc index cands.
Proof.
  induction sorted as [|[wc index] sorted IH]; cbn -[extract_data_candidates].
  { split; [done|]. intros (l1 & wc & index & l2 & cands & E & _). by destruct l1. }
  pose proof (collect_forallb (extract_data_candidates (zip channels (wc_patterns wc)) map)) as Ec.
  destruct (forallb _ _) eqn:Ef.
  - symmetry in Ec. apply collect_extract in Ec as He. split.
    + intros [= <-]. exists [], wc, index, sorted, (omap id (extract_data_candidates (zip channels (wc_patterns wc)) map)).
      split_and!; [done|by intros ? ?%elem_of_nil|done|done].
    + intros ([|x l1] & wc' & index' & l2 & cands & E & Hn & Hx & ->).
      * injection E as -> -> ->. apply collect_extract in Hx. rewrite Hx in Ec. by injection Ec as <-.
      * injection E as <- _. exfalso. by eapply (Hn (wc, index)); [left|].
  - symmetry in Ec. rewrite IH. split.
    + intros (l1 & wc' & index' & l2 & cands & -> & Hn & Hx & ->).
      exists ((wc, index) :: l1), wc', index', l2, cands. split_and!; [done| |done|done].
      intros x [->|Hx']%elem_of_cons; [|by apply Hn]. intros cands' Hc.
      apply collect_extract in Hc. simpl in Hc. congruence.
    + intros ([|x l1] & wc' & index' & l2 & cands & E & Hn & Hx & ->).
      * injection E as -> -> ->. apply collect_extract in Hx. congruence.
      * injection E as <- ->. exists l1, wc', index', l2, cands.
        split_and!; [done| |done|done]. intros y Hy. apply Hn. by right.
Qed.

Lemma first_match_loop_None channels map sorted :
  first_match_loop channels map sorted = None ↔
  ∀ x, x ∈ sorted → ∀ cands, ¬ extracts (zip channels (wc_patterns x.1)) map cands.
Proof.
  induction sorted as [|[wc index] sorted IH]; cbn -[extract_data_candidates].
  { split; [|done]. by intros _ ? ?%elem_of_nil. }
  pose proof (collect_forallb (extract_data_candidates (zip channels (wc_patterns wc)) map)) as Ec.
  setoid_rewrite elem_of_cons. destruct (forallb _ _) eqn:Ef; symmetry in Ec.
  - apply collect_extract in Ec. split; [done|]. intros Hn. exfalso. by eapply (Hn (wc, index)); [left|].
  - rewrite IH. split; [|naive_solver]. intros Hn x [->|Hx]; [|by apply Hn].
    intros cands Hc. apply collect_extract in Hc. simpl in Hc. congruence.
Qed.
(** ** Where the candidates come from *)

(** Every candidate is a datum of its channel that matches its pattern. *)
Definition found_in (map : gmap C IndexedData) (cp : C * P) (cand : ConsumeCandidate C A) : Prop :=
  ∃ l d, map !! cp.1 = Some l ∧ (d, datum_index cand) ∈ l ∧
         candidate_of cp.1 cp.2 d (datum_index cand) cand.

(** The data that a candidate takes from the store. *)
Definition slot (cand : ConsumeCandidate C A) : C * Z := (cc_channel cand, datum_index cand).
Definition takes (cand : ConsumeCandidate C A) : Prop := d_persist (cc_datum cand) = false.
#[global] Instance takes_dec cand : Decision (takes cand).
Proof. unfold takes. apply _. Defined.

Lemma find_matching_sub channel indexed pattern cand rem :
  find_matching_data_candidate channel indexed pattern = Some (cand, rem) →
  NoDup indexed.*2 →
  (∀ x, x ∈ rem → x ∈ indexed) ∧ NoDup rem.*2 ∧
  (takes cand → datum_index cand ∉ rem.*2) ∧
  ∃ d, (d, datum_index cand) ∈ indexed ∧ candidate_of channel pattern d (datum_index cand) cand.
Proof.
  intros (l1 & d & i & l2 & -> & _ & (mat & Hg & ->) & ->)%find_matching_loop_Some Hnd.
  assert (∃ d', (d', i) ∈ l1 ++ (d, i) :: l2 ∧
    candidate_of channel pattern d' i (mkCC channel (mkDatum mat (d_persist d) (d_source d)) (d_a d) i)) as Hex.
  { exists d. split; [rewrite elem_of_app, elem_of_cons; naive_solver|]. by exists mat. }
  simpl. unfold takes. simpl. destruct (d_persist d) eqn:Ep; [by split_and!|].
  assert (reverse l1 ++ [] ++ l2 ≡ₚ l1 ++ l2) as Hp by by rewrite reverse_Permutation.
  assert (NoDup (i :: (l1 ++ l2).*2)) as [Hi Hnd']%NoDup_cons.
  { rewrite <- Permutation_middle in Hnd. done. }
  split_and!.
  - intros x. rewrite Hp, !elem_of_app, elem_of_cons. naive_solver.
  - by rewrite Hp.
  - intros _. by rewrite Hp.
  - done.
Qed.

Lemma extracts_facts pairs map cands :
  extracts pairs map cands →
  (∀ c l, map !! c = Some l → NoDup l.*2) →
  Forall2 (found_in map) pairs cands ∧ NoDup (slot <$> filter takes cands).
Proof.
  induction 1 as [map|channel pattern pairs map indexed cand rem cands Hm Hf _ IH]; intros Hnd.
  { split; constructor. }
  pose proof (Hnd _ _ Hm) as Hi.
  destruct (find_matching_sub _ _ _ _ _ Hf Hi) as (Hsub & Hr & Ht & d & Hd & Hc).
  destruct IH as [IH1 IH2].
  { intros c l. destruct (decide (c = channel)) as [->|].
    - rewrite lookup_insert_eq. by intros [= <-].
    - rewrite lookup_insert_ne by done. apply Hnd. }
  assert (∀ cp cand', found_in (<[channel := rem]> map) cp cand' →
    found_in map cp cand' ∧ (cp.1 = channel → datum_index cand' ∈ rem.*2)) as Hfound.
  { intros [c p] cand' (l & d' & Hl & Hd' & Hc'). simpl in *. destruct (decide (c = channel)) as [->|].
    - rewrite lookup_insert_eq in Hl. injection Hl as <-. split.
      + exists indexed, d'. split_and!; [done|by apply Hsub|done].
      + intros _. apply list_elem_of_fmap. by exists (d', datum_index cand').
    - rewrite lookup_insert_ne in Hl by done. split; [by exists l, d'|done]. }
  split.
  - constructor; [by exists indexed, d|]. eapply Forall2_impl; [exact IH1|].
    intros cp cand' ?. by apply Hfound.
  - rewrite filter_cons. case_decide as Htk; [|done]. rewrite fmap_cons, NoDup_cons.
    split; [|done]. rewrite list_elem_of_fmap. intros (cand' & Es & [_ Hin]%list_elem_of_filter).
    apply (Ht Htk). apply list_elem_of_lookup in Hin as [k Hk].
    destruct (Forall2_lookup_r _ _ _ _ _ IH1 Hk) as (cp & Hcp & Hfd).
    destruct (Hfound _ _ Hfd) as [(l & d' & _ & _ & (mat & _ & Ecand)) Hrem].
    destruct Hc as (mat' & _ & Ecand').
    injection Es as Ech Eidx. rewrite Eidx. apply Hrem.
    rewrite Ecand, Ecand' in Ech. simpl in Ech. done.
Qed.

(** A pattern that some datum of the list matches. *)
Definition matchable (map : gmap C IndexedData) (cp : C * P) : Prop :=
  ∃ l x, map !! cp.1 = Some l ∧ x ∈ l ∧ is_Some (get cp.2 (d_a x.1)).

(** On distinct channels the search is complete: it succeeds iff every
    pattern has a matching datum on its channel. *)
Lemma extracts_complete pairs map :
  NoDup pairs.*1 → ((∃ cands, extracts pairs map cands) ↔ ∀ cp, cp ∈ pairs → matchable map cp).
Proof.
  revert map. induction pairs as [|[c p] pairs IH]; intros map Hnd.
  { split; [by intros _ ? ?%elem_of_nil|]. intros _. exists []. constructor. }
  rewrite fmap_cons, NoDup_cons in Hnd. destruct Hnd as [Hc Hnd].
  assert (∀ rem cp, cp ∈ pairs → matchable (<[c := rem]> map) cp ↔ matchable map cp) as Hframe.
  { intros rem [c' p'] Hin. unfold matchable. simpl. rewrite lookup_insert_ne; [done|].
    intros ->. apply Hc, list_elem_of_fmap. by exists (c', p'). }
  split.
  - intros [cands He]. inversion He as [|? ? ? ? indexed cand rem cands' Hm Hf He']; subst.
    intros cp [->|Hin]%elem_of_cons.
    + apply find_matching_loop_Some in Hf as (l1 & d & i & l2 & -> & _ & (mat & Hg & _) & _).
      exists (l1 ++ (d, i) :: l2), (d, i). split_and!; [done|apply elem_of_app; right; by left|by eauto].
    + apply (Hframe rem); [done|]. apply IH; [done|by eauto|done].
  - intros Hall. destruct (Hall (c, p)) as (l & x & Hl & Hx & Hg); [by left|]. simpl in *.
    destruct (find_matching_data_candidate c l p) as [[cand rem]|] eqn:Ef.
    + destruct (IH (<[c := rem]> map) Hnd) as [_ [cands He]].
      { intros cp Hin. apply Hframe; [done|]. apply Hall. by right. }
      exists (cand :: cands). by econstructor.
    + exfalso. eapply find_matching_loop_None in Ef; [|exact Hx].
      destruct Hg as [? Hg]. congruence.
Qed.

(** On distinct channels the candidates are found independently. *)
Lemma extracts_distinct pairs map cands :
  NoDup pairs.*1 →
  extracts pairs map cands ↔
  Forall2 (λ cp cand, ∃ l rem, map !! cp.1 = Some l ∧
    find_matching_data_candidate cp.1 l cp.2 = Some (cand, rem)) pairs cands.
Proof.
  revert map cands. induction pairs as [|[c p] pairs IH]; intros map cands Hnd.
  { split; [inversion 1; constructor|]. intros ->%Forall2_nil_inv_l. constructor. }
  rewrite fmap_cons, NoDup_cons in Hnd. destruct Hnd as [Hc Hnd].
  assert (∀ rem cands, Forall2 (λ cp cand, ∃ l rem', <[c := rem]> map !! cp.1 = Some l ∧
      find_matching_data_candidate cp.1 l cp.2 = Some (cand, rem')) pairs cands ↔
    Forall2 (λ cp cand, ∃ l rem, map !! cp.1 = Some l ∧
      find_matching_data_candidate cp.1 l cp.2 = Some (cand, rem)) pairs cands) as Hframe.
  { intros rem cands'. split; intros Hf; (eapply Forall2_impl_elem; [exact Hf|]).
    all: intros [c' p'] cand Hin _ (l & rem' & Hl & Hfind); exists l, rem'; split; [|done].
    all: simpl in *; assert (c ≠ c') by (intros ->; apply Hc, list_elem_of_fmap; by exists (c', p')).
    - by rewrite lookup_insert_ne in Hl.
    - by rewrite lookup_insert_ne. }
  split.
  - inversion 1 as [|? ? ? ? indexed cand rem cands' Hm Hf He]; subst.
    constructor; [by exists indexed, rem|]. apply (Hframe rem), IH; done.
  - intros (cand & cands' & (l & rem & Hl & Hf) & Hfs & ->)%Forall2_cons_inv_l.
    econstructor; [done|done|]. apply IH; [done|]. by apply Hframe.
Qed.
End SpaceMatcher.
