(* ===== verification/NativeStore.v ===== *)
(** * The native system-contract store

    [rspace/src/native_store.rs]: an overlay of written values and tombstones
    over a reader of a history root. *)

From S2P Require Import Prelude BTree Bytes Trace.

Definition PREFIX_REGISTRY : byte := x03.
Definition PREFIX_POS : byte := x04.
Definition PREFIX_VAULT : byte := x05.

Definition NativeKey : Type := byte * hash.

Inductive NativeStoreAction :=
| NativePut (prefix : byte) (key : hash) (value : list byte)
| NativeDelete (prefix : byte) (key : hash).

(** The error of a native read: a text. *)
Inductive NativeError := NativeReadFailed | NativePanicked.

(** The [NativeHistoryReader] trait. *)
Definition NativeReader : Type := byte → hash → Result (option (list byte)) NativeError.

Definition NoopNativeReader : NativeReader := λ _ _, Ok None.

Definition NativeStoreState : Type := gmap NativeKey (option (list byte)).

Record InMemNativeStore := mkNative {
  overlay : NativeStoreState;
  native_reader : NativeReader;
}.

Definition native_new (reader : NativeReader) : InMemNativeStore := mkNative ∅ reader.
Definition native_empty : InMemNativeStore := native_new NoopNativeReader.

Definition native_get (s : InMemNativeStore) (prefix : byte) (key : hash) :
    Result (option (list byte)) NativeError :=
  match overlay s !! (prefix, key) with
  | Some v => Ok v
  | None => native_reader s prefix key
  end.

Definition native_put (s : InMemNativeStore) (prefix : byte) (key : hash) (value : list byte) :
    InMemNativeStore :=
  mkNative (<[(prefix, key) := Some value]> (overlay s)) (native_reader s).

Definition native_delete (s : InMemNativeStore) (prefix : byte) (key : hash) : InMemNativeStore :=
  mkNative (<[(prefix, key) := None]> (overlay s)) (native_reader s).

(** An entry of the overlay as an action. *)
Definition native_action (entry : NativeKey * option (list byte)) : NativeStoreAction :=
  let '((prefix, key), value) := entry in
  match value with Some v => NativePut prefix key v | None => NativeDelete prefix key end.

Definition drain_changes (s : InMemNativeStore) : InMemNativeStore * list NativeStoreAction :=
  (mkNative ∅ (native_reader s), native_action <$> map_iter (overlay s)).

Definition native_snapshot (s : InMemNativeStore) : NativeStoreState := overlay s.
Definition native_revert (s : InMemNativeStore) (state : NativeStoreState) : InMemNativeStore :=
  mkNative state (native_reader s).
Definition set_reader (s : InMemNativeStore) (reader : NativeReader) : InMemNativeStore :=
  mkNative (overlay s) reader.

(** ** The drained changes are the difference to the history *)

(** A reader after the actions of a checkpoint. *)
Definition native_action_key (a : NativeStoreAction) : NativeKey :=
  match a with NativePut prefix key _ | NativeDelete prefix key => (prefix, key) end.
Definition native_action_value (a : NativeStoreAction) : option (list byte) :=
  match a with NativePut _ _ value => Some value | NativeDelete _ _ => None end.
Definition apply_native (actions : list NativeStoreAction) (reader : NativeReader) : NativeReader :=
  foldl (λ r a prefix key,
    if decide ((prefix, key) = native_action_key a) then Ok (native_action_value a)
    else r prefix key) reader actions.

Lemma apply_native_spec actions reader prefix key :
  NoDup (native_action_key <$> actions) →
  apply_native actions reader prefix key =
  match List.find (λ a, bool_decide (native_action_key a = (prefix, key))) actions with
  | Some a => Ok (native_action_value a)
  | None => reader prefix key
  end.
Proof.
  unfold apply_native. revert reader. induction actions as [|a actions IH]; intros reader Hnd; [done|].
  rewrite fmap_cons, NoDup_cons in Hnd. destruct Hnd as [Hn Hnd]. simpl. rewrite IH by done.
  case_bool_decide as E.
  - destruct (List.find _ actions) as [a'|] eqn:Ef.
    + apply List.find_some in Ef as [Hin Ek%bool_decide_eq_true]. exfalso. apply Hn.
      rewrite E, <- Ek. apply list_elem_of_fmap. exists a'. by rewrite list_elem_of_In.
    + by rewrite decide_True.
  - destruct (List.find _ actions); [done|]. by rewrite decide_False.
Qed.

(** Draining and reading the changed history shows what the store showed. *)
Lemma drain_changes_view s prefix key :
  apply_native (drain_changes s).2 (native_reader s) prefix key = native_get s prefix key.
Proof.
  unfold drain_changes. cbn [snd]. set (f := native_action).
  assert (∀ kv, native_action_key (f kv) = kv.1) as Hk by by intros [[p k] [v|]].
  assert (∀ kv, native_action_value (f kv) = kv.2) as Hv by by intros [[p k] [v|]].
  rewrite apply_native_spec.
  - unfold native_get. destruct (overlay s !! (prefix, key)) as [v|] eqn:E.
    + destruct (List.find _ _) as [a|] eqn:Ef.
      * apply List.find_some in Ef as [Hin Ek%bool_decide_eq_true].
        apply list_elem_of_In, list_elem_of_fmap in Hin as ([[p k] v'] & -> & Hin).
        rewrite Hk in Ek. simpl in Ek. simplify_eq. apply elem_of_map_iter in Hin. rewrite Hv. simpl.
        assert (Some v = Some v') as [= ->]; [|done]. etrans; [symmetry; exact E|exact Hin].
      * assert (f ((prefix, key), v) ∈ f <$> map_iter (overlay s)) as Hin.
        { apply list_elem_of_fmap. eexists. split; [done|]. by apply elem_of_map_iter. }
        apply list_elem_of_In in Hin. apply (List.find_none _ _ Ef) in Hin.
        by rewrite Hk, bool_decide_true in Hin.
    + destruct (List.find _ _) as [a|] eqn:Ef; [|done].
      apply List.find_some in Ef as [Hin Ek%bool_decide_eq_true].
      apply list_elem_of_In, list_elem_of_fmap in Hin as ([[p k] v'] & -> & Hin).
      rewrite Hk in Ek. simpl in Ek. simplify_eq. apply elem_of_map_iter in Hin.
      assert (None = Some v'); [|done]. etrans; [symmetry; exact E|exact Hin].
  - rewrite <- list_fmap_compose.
    rewrite (list_fmap_ext _ fst) by (intros; apply Hk). apply NoDup_map_iter_keys.
Qed.
