(* ===== verification/RSpace.v ===== *)
(** * The play tuple space

    [rspace/src/rspace.rs], [rspace/src/tuple_space.rs] and
    [rspace/src/checkpoint.rs].  The space is a record of its interior state; an
    operation runs under the channel locks, so it is one function on the state.
    The history repository is used through the operations of the class
    [HistoryOps]; [HistoryRepository] has the implementation.  A failed
    [assert!] of an entry point is [None]. *)

From S2P Require Import Prelude BTree Bytes Trace HotStore SpaceMatcher NativeStore.

Record ContResult (C P K : Type) := mkContResult {
  cr_continuation : K;
  cr_persistent : bool;
  cr_channels : list C;
  cr_patterns : list P;
  cr_peek : bool;
}.
#[global] Arguments mkContResult {C P K}.
#[global] Arguments cr_continuation {C P K}.
#[global] Arguments cr_persistent {C P K}.
#[global] Arguments cr_channels {C P K}.
#[global] Arguments cr_patterns {C P K}.
#[global] Arguments cr_peek {C P K}.

Record SpaceResult (C A : Type) := mkSpaceResult {
  sp_channel : C;
  matched_datum : A;
  sp_removed_datum : A;
  sp_persistent : bool;
}.
#[global] Arguments mkSpaceResult {C A}.
#[global] Arguments sp_channel {C A}.
#[global] Arguments matched_datum {C A}.
#[global] Arguments sp_removed_datum {C A}.
#[global] Arguments sp_persistent {C A}.

Record Install (P K : Type) := mkInstall {
  in_patterns : list P;
  in_continuation : K;
}.
#[global] Arguments mkInstall {P K}.

Record Checkpoint := mkCheckpoint {
  cp_root : hash;
  cp_log : Log;
}.

(** The error of a history operation, a text, or a panic. *)
Inductive HistoryError := HistoryFailed | HistoryPanicked.

(** What the space asks of the history repository: the current root, a
    checkpoint (on success the repository stands at the new root), a reset,
    and readers of a root, which can fail to open only by a panic. *)
Class HistoryOps (Repo C P A K : Type) := {
  hr_root : Repo → hash;
  hr_checkpoint : list (HotStoreAction C P A K) → list NativeStoreAction →
    StateResult Repo unit HistoryError;
  hr_reset : hash → StateResult Repo unit HistoryError;
  hr_reader : Repo → hash → Result (HistoryReaderBase C P A K) HistoryError;
  hr_native_reader : Repo → hash → Result NativeReader HistoryError;
}.
#[export] Hint Mode HistoryOps ! - - - - : typeclass_instances.

(** [enumerate] of the stored data. *)
Definition index_data {A} (l : list (Datum A)) : list (Datum A * Z) :=
  imap (λ i d, (d, Z.of_nat i)) l.

Definition by_source {A} : (Datum A * Z) → (Datum A * Z) → comparison :=
  λ a b, produce_cmp (d_source a.1) (d_source b.1).

Section RSpace.
Context (create : list byte → hash).
Context {C P A K Repo : Type} `{!Ord C} `{Countable C}.
Context `{!Serialize C, !Serialize P, !Serialize A, !Serialize K} `{!HistoryOps Repo C P A K}.
Context (get : P → A → option A).
Notation WC := (WaitingContinuation P K).

Record RSpace := mkRSpace {
  history_repository : Repo;
  rs_store : InMemHotStore C P A K;
  event_log : Log;
  produce_counter : gmap hash nat;
  installs : gmap (list C) (Install P K);
  native_store : InMemNativeStore;
}.

Record SoftCheckpoint := mkSoft {
  cache_snapshot : HotStoreState C P A K;
  soft_log : Log;
  soft_produce_counter : gmap hash nat;
  soft_native : NativeStoreState;
}.

Definition rspace_new (repo : Repo) (store : InMemHotStore C P A K) : RSpace :=
  mkRSpace repo store [] ∅ ∅ native_empty.

Definition RM (X : Type) : Type := StateResult RSpace X RSpaceError.
Definition ActionResult : Type := option (ContResult C P K * list (SpaceResult C A)).

Definition set_store (hs : InMemHotStore C P A K) (s : RSpace) : RSpace :=
  mkRSpace (history_repository s) hs (event_log s) (produce_counter s) (installs s) (native_store s).
Definition on_store {X} (m : StateResult (InMemHotStore C P A K) X RSpaceError) : RM X :=
  sr_zoom rs_store set_store m.

(** ** Counters and the log *)
Definition produce_counter_value (s : RSpace) (source : Produce) : nat :=
  default 0%nat (produce_counter s !! p_hash source).

Definition produce_counters (s : RSpace) (produce_refs : list Produce) : gmap hash nat :=
  list_to_map ((λ p, (p_hash p, produce_counter_value s p)) <$> produce_refs).

Definition increment_produce_counter (produce_ref : Produce) : RM unit :=
  sr_modify (λ s, mkRSpace (history_repository s) (rs_store s) (event_log s)
    (<[p_hash produce_ref := S (produce_counter_value s produce_ref)]> (produce_counter s))
    (installs s) (native_store s)).

Definition log_event (e : Event) : RM unit :=
  sr_modify (λ s, mkRSpace (history_repository s) (rs_store s) (e :: event_log s)
    (produce_counter s) (installs s) (native_store s)).
Definition log_comm (comm : Comm) : RM unit := log_event (EvComm comm).
Definition log_consume (consume_ref : Consume) : RM unit := log_event (EvConsume consume_ref).
Definition log_produce (produce_ref : Produce) (persist : bool) : RM unit :=
  _ ←$ log_event (EvProduce produce_ref);
  if persist then sr_ret () else increment_produce_counter produce_ref.

(** ** Reading and writing the store *)

(** The loop over the channels that fills a map of their indexed data. *)
Fixpoint fetch_loop (index : C → list (Datum A) → list (Datum A * Z)) (channels : list C)
    (map : gmap C (list (Datum A * Z))) : RM (gmap C (list (Datum A * Z))) :=
  match channels with
  | [] => sr_ret map
  | c :: channels' =>
      l ←$ on_store (HotStore.get_data c);
      fetch_loop index channels' (<[c := index c l]> map)
  end.

Definition fetch_channel_to_index_data (channels : list C) : RM (gmap C (list (Datum A * Z))) :=
  fetch_loop (λ _ l, sort_by by_source (index_data l)) channels ∅.

Definition store_waiting_continuation (channels : list C) (wc : WC) : RM ActionResult :=
  _ ←$ on_store (put_continuation channels wc);
  _ ←$ sr_iter (λ channel, on_store (put_join channel channels)) channels;
  sr_ret None.

Definition store_data (channel : C) (data : A) (persist : bool) (produce_ref : Produce) :
    RM ActionResult :=
  _ ←$ on_store (put_datum channel (mkDatum data persist produce_ref));
  sr_ret None.

(** [sort_by(|a, b| b.datum_index.cmp(&a.datum_index))]. *)
Definition by_index_desc (cands : list (ConsumeCandidate C A)) : list (ConsumeCandidate C A) :=
  sort_by (λ a b, cmp (datum_index b) (datum_index a)) cands.

Definition store_persistent_data (cands : list (ConsumeCandidate C A)) : RM unit :=
  sr_iter (λ candidate,
    if d_persist (cc_datum candidate) then sr_ret ()
    else on_store (remove_datum (cc_channel candidate) (datum_index candidate)))
    (by_index_desc cands).

Definition remove_matched_datum_and_join (channels : list C)
    (cands : list (ConsumeCandidate C A)) : RM unit :=
  sr_iter (λ candidate,
    _ ←$ (if (0 <=? datum_index candidate) && negb (d_persist (cc_datum candidate))
          then on_store (remove_datum (cc_channel candidate) (datum_index candidate))
          else sr_ret ());
    on_store (remove_join (cc_channel candidate) channels))
    (by_index_desc cands).

Definition wrap_result (channels : list C) (wk : WC) (cands : list (ConsumeCandidate C A)) :
    ActionResult :=
  Some (mkContResult (wc_continuation wk) (wc_persist wk) channels (wc_patterns wk)
          (negb (bool_decide (wc_peeks wk = ∅))),
        (λ dc, mkSpaceResult (cc_channel dc) (d_a (cc_datum dc)) (removed_datum dc)
                 (d_persist (cc_datum dc))) <$> cands).

(** [Comm::apply] with the counters of the space. *)
Definition comm_of (s : RSpace) (cands : list (ConsumeCandidate C A)) (consume_ref : Consume)
    (peeks : gset nat) : Comm :=
  comm_apply (d_source ∘ cc_datum <$> cands) consume_ref peeks (produce_counters s).

(** The data of a channel of a join, the datum being produced first. *)
Definition index_with_produced (bat_channel : C) (datum : Datum A) (c : C)
    (l : list (Datum A)) : list (Datum A * Z) :=
  let indexed := sort_by by_source (index_data l) in
  if bool_decide (c = bat_channel) then (datum, -1) :: indexed else indexed.

Definition index_continuations (conts : list WC) : list (WC * nat) :=
  imap (λ i wc, (wc, i)) conts.

Fixpoint extract_produce_candidate (grouped_channels : list (list C)) (bat_channel : C)
    (datum : Datum A) : RM (option (ProduceCandidate C P A K)) :=
  match grouped_channels with
  | [] => sr_ret None
  | channels :: grouped_channels' =>
      conts ←$ on_store (get_continuations channels);
      channel_to_indexed_data ←$
        fetch_loop (index_with_produced bat_channel datum) channels ∅;
      match extract_first_match get channels (index_continuations conts)
              channel_to_indexed_data with
      | Some pc => sr_ret (Some pc)
      | None => extract_produce_candidate grouped_channels' bat_channel datum
      end
  end.

Definition process_match_found (pc : ProduceCandidate C P A K) : RM ActionResult :=
  let wk := pc_continuation pc in
  comm ←$ sr_gets (λ s, comm_of s (data_candidates pc) (wc_source wk) (wc_peeks wk));
  _ ←$ log_comm comm;
  _ ←$ (if wc_persist wk then sr_ret ()
        else on_store (remove_continuation (pc_channels pc) (continuation_index pc)));
  _ ←$ remove_matched_datum_and_join (pc_channels pc) (data_candidates pc);
  sr_ret (wrap_result (pc_channels pc) wk (data_candidates pc)).

(** ** Consume, produce, install *)
Definition locked_consume (channels : list C) (patterns : list P) (continuation : K)
    (persist : bool) (peeks : gset nat) (consume_ref : Consume) : RM ActionResult :=
  _ ←$ log_consume consume_ref;
  channel_to_indexed_data ←$ fetch_channel_to_index_data channels;
  let options := extract_data_candidates get (zip channels patterns) channel_to_indexed_data in
  let wk := mkWC patterns continuation persist peeks consume_ref in
  match collect options with
  | None => store_waiting_continuation channels wk
  | Some cands =>
      comm ←$ sr_gets (λ s, comm_of s cands consume_ref peeks);
      _ ←$ log_comm comm;
      _ ←$ store_persistent_data cands;
      sr_ret (wrap_result channels wk cands)
  end.

Definition locked_produce (channel : C) (data : A) (persist : bool) (produce_ref : Produce) :
    RM ActionResult :=
  grouped_channels ←$ on_store (get_joins channel);
  _ ←$ log_produce produce_ref persist;
  extracted ←$ extract_produce_candidate grouped_channels channel
                 (mkDatum data persist produce_ref);
  match extracted with
  | None => store_data channel data persist produce_ref
  | Some pc => process_match_found pc
  end.

Definition locked_install (channels : list C) (patterns : list P) (continuation : K) :
    RM (option (K * list A)) :=
  let consume_ref := consume_apply create channels patterns continuation true in
  existing ←$ on_store (get_continuations channels);
  if existsb (λ wc, consume_eqb (wc_source wc) consume_ref) existing then sr_ret None
  else
    channel_to_indexed_data ←$ fetch_loop (λ _ l, index_data l) channels ∅;
    let options := extract_data_candidates get (zip channels patterns) channel_to_indexed_data in
    match collect options with
    | None =>
        let wc := mkWC patterns continuation true ∅ consume_ref in
        _ ←$ sr_modify (λ s, mkRSpace (history_repository s) (rs_store s) (event_log s)
               (produce_counter s)
               (<[channels := mkInstall patterns continuation]> (installs s)) (native_store s));
        _ ←$ on_store (install_continuation channels wc);
        _ ←$ sr_iter (λ channel, on_store (install_join channel channels)) channels;
        sr_ret None
    | Some _ => sr_err InstallNotAllowed
    end.

Definition consume (channels : list C) (patterns : list P) (continuation : K) (persist : bool)
    (peeks : gset nat) : option (RM ActionResult) :=
  if bool_decide (channels ≠ []) && (length channels =? length patterns)%nat
  then Some (locked_consume channels patterns continuation persist peeks
               (consume_apply create channels patterns continuation persist))
  else None.

(** The keys of the second lock phase are read from the store first. *)
Definition produce (channel : C) (data : A) (persist : bool) : RM ActionResult :=
  _ ←$ on_store (get_joins channel);
  locked_produce channel data persist (produce_apply create channel data persist).

Definition install (channels : list C) (patterns : list P) (continuation : K) :
    option (RM (option (K * list A))) :=
  if (length channels =? length patterns)%nat
  then Some (locked_install channels patterns continuation) else None.

(** ** Checkpoints *)

(** The last part of a checkpoint and of a reset: the store and the native
    store are opened at the new root. *)
Definition reopen (root : hash) : StateResult RSpace unit HistoryError := λ s,
  match hr_reader (history_repository s) root with
  | Err e => (s, Err e)
  | Ok r => (set_store (hot_store_new r) s, Ok ())
  end.
Definition set_native (native : InMemNativeStore) (s : RSpace) : RSpace :=
  mkRSpace (history_repository s) (rs_store s) (event_log s) (produce_counter s) (installs s) native.
Definition reopen_native (root : hash) : StateResult RSpace unit HistoryError := λ s,
  match hr_native_reader (history_repository s) root with
  | Err e => (s, Err e)
  | Ok r => (set_native (set_reader (native_store s) r) s, Ok ())
  end.

Definition create_checkpoint : StateResult RSpace Checkpoint HistoryError := λ s,
  let actions := changes (rs_store s) in
  let '(native, native_changes) := drain_changes (native_store s) in
  match hr_checkpoint actions native_changes (history_repository s) with
  | (repo, Err e) =>
      (mkRSpace repo (rs_store s) (event_log s) (produce_counter s) (installs s) native, Err e)
  | (repo, Ok _) =>
      let root := hr_root repo in
      (_ ←$ reopen root;
       _ ←$ reopen_native root;
       sr_ret (mkCheckpoint root (event_log s)))
        (mkRSpace repo (rs_store s) [] ∅ (installs s) native)
  end.

Definition space_reset (root : hash) : StateResult RSpace unit HistoryError := λ s,
  match hr_reset root (history_repository s) with
  | (repo, Err e) =>
      (mkRSpace repo (rs_store s) (event_log s) (produce_counter s) (installs s) (native_store s),
       Err e)
  | (repo, Ok _) =>
      (_ ←$ reopen root;
       _ ←$ sr_modify (λ s, set_native (native_revert (native_store s) ∅) s);
       reopen_native root)
        (mkRSpace repo (rs_store s) [] ∅ (installs s) (native_store s))
  end.

Definition create_soft_checkpoint (s : RSpace) : RSpace * SoftCheckpoint :=
  (mkRSpace (history_repository s) (rs_store s) [] ∅ (installs s) (native_store s),
   mkSoft (snapshot (rs_store s)) (event_log s) (produce_counter s)
     (native_snapshot (native_store s))).

Definition revert_to_soft_checkpoint (checkpoint : SoftCheckpoint) :
    StateResult RSpace unit HistoryError := λ s,
  let repo := history_repository s in
  match hr_reader repo (hr_root repo) with
  | Err e => (s, Err e)
  | Ok r =>
      (mkRSpace repo (from_state (cache_snapshot checkpoint) r)
         (soft_log checkpoint) (soft_produce_counter checkpoint) (installs s)
         (native_revert (native_store s) (soft_native checkpoint)), Ok ())
  end.
End RSpace.
