(* ===== verification/HistoryRepository.v ===== *)
(** * The history repository

    [rspace/src/history/history_repository.rs],
    [rspace/src/history/instances/rspace_history_reader_impl.rs],
    [rspace/src/history/root_repository.rs],
    [rspace/src/history/roots_store.rs] and
    [rspace/src/hot_store_trie_action.rs], over the radix history.  The stores
    are maps of bytes, shared by all repositories and readers; errors of the
    storage medium are not modelled.  The stores only grow, and a read is not
    affected by the caches, so a reader is a function of the state it was opened
    in. *)

From S2P Require Import Prelude BTree Bytes RadixCodec RadixTree Trace HotStore Scodec.
From S2P Require Import NativeStore SpaceMatcher RSpace.

(** ** Roots *)
Notation RootsStore := (gmap (list byte) (list byte)).

(** The texts ["current-root"] and ["root"]. *)
Definition CURRENT_ROOT : list byte :=
  [x63; x75; x72; x72; x65; x6e; x74; x2d; x72; x6f; x6f; x74].
Definition ROOT_TAG : list byte := [x72; x6f; x6f; x74].

Definition roots_current_root (s : RootsStore) : option hash := s !! CURRENT_ROOT.

Definition roots_validate_and_set_current_root (key : hash) (s : RootsStore) : RootsStore * option hash :=
  match s !! key with
  | Some _ => (<[CURRENT_ROOT := key]> s, Some key)
  | None => (s, None)
  end.

Definition record_root (key : hash) (s : RootsStore) : RootsStore :=
  <[CURRENT_ROOT := key]> (<[key := ROOT_TAG]> s).

Definition root_commit (root : hash) (s : RootsStore) : RootsStore := record_root root s.

Definition current_root (create : list byte → hash) (s : RootsStore) : RootsStore * hash :=
  match roots_current_root s with
  | None => let empty := RadixTree.empty_root_hash create in (record_root empty s, empty)
  | Some root => (s, root)
  end.

Definition validate_and_set_current_root (root : hash) : StateResult RootsStore unit HistoryError := λ s,
  match roots_validate_and_set_current_root root s with
  | (s', Some _) => (s', Ok ())
  | (s', None) => (s', Err HistoryFailed)
  end.

(** ** The repository *)
Definition PREFIX_DATUM : byte := x00.
Definition PREFIX_KONT : byte := x01.
Definition PREFIX_JOINS : byte := x02.

Record HistoryRepository := mkRepo {
  current_history : RadixTree.RadixHistory;
  radix : RadixTree.RadixTreeImpl;
  roots : RootsStore;
  leaf_store : gmap hash (list byte);
}.

Definition ColdAction : Type := hash * option PersistedData.

Definition key_segment (prefix : byte) (key : hash) : list byte := prefix :: key.

Section HistoryRepository.
Context (create : list byte → hash).
Context {C P A K : Type} `{!Ord C} `{Countable C}.
Context `{!Serialize C, !Serialize P, !Serialize A, !Serialize K}.
Notation WC := (WaitingContinuation P K).
Notation Reader := (HistoryReaderBase C P A K).

Inductive HotStoreTrieAction :=
| TrieInsertProduce (key : hash) (data : list (Datum A))
| TrieInsertJoins (key : hash) (joins : list (list C))
| TrieInsertConsume (key : hash) (conts : list WC)
| TrieInsertBinaryProduce (key : hash) (data : list (list byte))
| TrieInsertBinaryJoins (key : hash) (joins : list (list byte))
| TrieInsertBinaryConsume (key : hash) (conts : list (list byte))
| TrieDeleteProduce (key : hash)
| TrieDeleteJoins (key : hash)
| TrieDeleteConsume (key : hash).

(** A leaf under its hash, and the insertion of the hash. *)
Definition insert_leaf (prefix : byte) (key : hash) (leaf : PersistedData) : ColdAction * HistoryAction :=
  let leaf_hash := create (encode_persisted_data leaf) in
  ((leaf_hash, Some leaf), ActInsert (key_segment prefix key) leaf_hash).
Definition delete_leaf (prefix : byte) (key : hash) : ColdAction * HistoryAction :=
  ((key, None), ActDelete (key_segment prefix key)).

Definition calculate_storage_action (action : HotStoreTrieAction) : ColdAction * HistoryAction :=
  match action with
  | TrieInsertProduce key data => insert_leaf PREFIX_DATUM key (DataLeaf (encode_datums data))
  | TrieInsertConsume key conts => insert_leaf PREFIX_KONT key (ContinuationsLeaf (encode_continuations conts))
  | TrieInsertJoins key joins => insert_leaf PREFIX_JOINS key (JoinsLeaf (encode_joins joins))
  | TrieInsertBinaryProduce key data => insert_leaf PREFIX_DATUM key (DataLeaf (encode_datums_binary data))
  | TrieInsertBinaryConsume key conts =>
      insert_leaf PREFIX_KONT key (ContinuationsLeaf (encode_continuations_binary conts))
  | TrieInsertBinaryJoins key joins => insert_leaf PREFIX_JOINS key (JoinsLeaf (encode_joins_binary joins))
  | TrieDeleteProduce key => delete_leaf PREFIX_DATUM key
  | TrieDeleteConsume key => delete_leaf PREFIX_KONT key
  | TrieDeleteJoins key => delete_leaf PREFIX_JOINS key
  end.

Definition calculate_native_storage_action (action : NativeStoreAction) : ColdAction * HistoryAction :=
  match action with
  | NativePut prefix key value => insert_leaf prefix key (NativeLeaf value)
  | NativeDelete prefix key => delete_leaf prefix key
  end.

Definition transform (action : HotStoreAction C P A K) : HotStoreTrieAction :=
  match action with
  | InsertData channel data => TrieInsertProduce (hash_channel create channel) data
  | InsertContinuations channels conts => TrieInsertConsume (hash_channels create channels) conts
  | InsertJoins channel joins => TrieInsertJoins (hash_channel create channel) joins
  | DeleteData channel => TrieDeleteProduce (hash_channel create channel)
  | DeleteContinuations channels => TrieDeleteConsume (hash_channels create channels)
  | DeleteJoins channel => TrieDeleteJoins (hash_channel create channel)
  end.

Definition cold_leaf (a : ColdAction * HistoryAction) : option (hash * PersistedData) :=
  match a.1 with (key, Some leaf) => Some (key, leaf) | (_, None) => None end.

(** The cold leaves that are absent are written. *)
Definition put_leaves (cold : list (hash * PersistedData)) (s : gmap hash (list byte)) : gmap hash (list byte) :=
  let present := (λ kv : hash * PersistedData, bool_decide (is_Some (s !! kv.1))) <$> cold in
  let absent := (filter (λ p, p.2 = false) (zip cold present)).*1 in
  foldl (λ s kv, <[kv.1 := encode_persisted_data kv.2]> s) s absent.

Definition do_checkpoint_with_native (trie_actions : list HotStoreTrieAction)
    (native_actions : list NativeStoreAction) : StateResult HistoryRepository unit HistoryError := λ repo,
  let actions := (calculate_storage_action <$> trie_actions) ++ (calculate_native_storage_action <$> native_actions) in
  let leaves := put_leaves (omap cold_leaf actions) (leaf_store repo) in
  match RadixTree.process create (current_history repo) actions.*2 (radix repo) with
  | RadixTree.Done (Ok new_history) t =>
      (mkRepo new_history t (root_commit (RadixTree.root_hash new_history) (roots repo)) leaves, Ok ())
  | RadixTree.Done (Err _) t => (mkRepo (current_history repo) t (roots repo) leaves, Err HistoryFailed)
  | RadixTree.Panic _ t => (mkRepo (current_history repo) t (roots repo) leaves, Err HistoryPanicked)
  | RadixTree.NoFuel => (repo, Err HistoryPanicked)
  end.

Definition checkpoint_with_native (actions : list (HotStoreAction C P A K))
    (native_actions : list NativeStoreAction) : StateResult HistoryRepository unit HistoryError :=
  do_checkpoint_with_native (transform <$> actions) native_actions.

Definition repo_reset (root : hash) : StateResult HistoryRepository unit HistoryError := λ repo,
  match validate_and_set_current_root root (roots repo) with
  | (rs, Err e) => (mkRepo (current_history repo) (radix repo) rs (leaf_store repo), Err e)
  | (rs, Ok _) =>
      match RadixTree.reset root (radix repo) with
      | RadixTree.Done next t => (mkRepo next t rs (leaf_store repo), Ok ())
      | _ => (mkRepo (current_history repo) (radix repo) rs (leaf_store repo), Err HistoryPanicked)
      end
  end.

(** ** Readers *)
Record HistoryReaderImpl := mkReaderImpl {
  target_history : RadixTree.RadixHistory;
  target_tree : RadixTree.RadixTreeImpl;
  target_leaves : gmap hash (list byte);
}.

Definition fetch_data (r : HistoryReaderImpl) (prefix : byte) (key : hash) :
    Result (option PersistedData) RSpaceError :=
  match RadixTree.history_read (target_history r) (key_segment prefix key) (target_tree r) with
  | RadixTree.Done (Some leaf_hash) _ =>
      match target_leaves r !! leaf_hash with
      | None => Ok None
      | Some bytes =>
          match decode_persisted_data bytes with
          | None => Err Panicked
          | Some (Err e) => Err e
          | Some (Ok leaf) => Ok (Some leaf)
          end
      end
  | RadixTree.Done None _ => Ok None
  | _ => Err Panicked
  end.

(** The rows of the decoders; [None] is their panic. *)
Definition row {X} (o : option (Result (list X) RSpaceError)) : Result (list X) RSpaceError :=
  default (Err Panicked) o.

Definition reader_get_data (r : HistoryReaderImpl) (key : hash) : Result (list (Datum A)) RSpaceError :=
  leaf ←? fetch_data r PREFIX_DATUM key;
  match leaf with
  | Some (DataLeaf bytes) => row (decode_datums bytes)
  | Some _ => Err UnexpectedLeaf
  | None => Ok []
  end.
Definition reader_get_continuations (r : HistoryReaderImpl) (key : hash) : Result (list WC) RSpaceError :=
  leaf ←? fetch_data r PREFIX_KONT key;
  match leaf with
  | Some (ContinuationsLeaf bytes) => row (decode_continuations bytes)
  | Some _ => Err UnexpectedLeaf
  | None => Ok []
  end.
Definition reader_get_joins (r : HistoryReaderImpl) (key : hash) : Result (list (list C)) RSpaceError :=
  leaf ←? fetch_data r PREFIX_JOINS key;
  match leaf with
  | Some (JoinsLeaf bytes) => row (decode_joins bytes)
  | Some _ => Err UnexpectedLeaf
  | None => Ok []
  end.
Definition reader_get_native (r : HistoryReaderImpl) : NativeReader := λ prefix key,
  match fetch_data r prefix key with
  | Err Panicked => Err NativePanicked
  | Err _ => Err NativeReadFailed
  | Ok (Some (NativeLeaf bytes)) => Ok (Some bytes)
  | Ok (Some _) => Err NativeReadFailed
  | Ok None => Ok None
  end.

(** The binary reader. *)
Definition binary_get_data (r : HistoryReaderImpl) (key : hash) : Result (list (@DatumB A)) RSpaceError :=
  leaf ←? fetch_data r PREFIX_DATUM key;
  match leaf with
  | Some (DataLeaf bytes) => row (decode_datums_binary bytes)
  | Some _ => Err UnexpectedLeaf
  | None => Ok []
  end.
Definition binary_get_continuations (r : HistoryReaderImpl) (key : hash) :
    Result (list (@WaitingContinuationB P K)) RSpaceError :=
  leaf ←? fetch_data r PREFIX_KONT key;
  match leaf with
  | Some (ContinuationsLeaf bytes) => row (decode_continuations_binary bytes)
  | Some _ => Err UnexpectedLeaf
  | None => Ok []
  end.
Definition binary_get_joins (r : HistoryReaderImpl) (key : hash) : Result (list (@JoinsB C)) RSpaceError :=
  leaf ←? fetch_data r PREFIX_JOINS key;
  match leaf with
  | Some (JoinsLeaf bytes) => row (decode_joins_binary bytes)
  | Some _ => Err UnexpectedLeaf
  | None => Ok []
  end.

(** The reader that hashes the channels. *)
Definition base_reader (r : HistoryReaderImpl) : Reader :=
  mkReader (λ c, reader_get_data r (hash_channel create c))
    (λ cs, reader_get_continuations r (hash_channels create cs))
    (λ c, reader_get_joins r (hash_channel create c)).

Definition open_reader (repo : HistoryRepository) (state_hash : hash) : Result HistoryReaderImpl HistoryError :=
  match RadixTree.reset state_hash (radix repo) with
  | RadixTree.Done history t => Ok (mkReaderImpl history t (leaf_store repo))
  | _ => Err HistoryPanicked
  end.
Definition get_history_reader (repo : HistoryRepository) (state_hash : hash) : Result Reader HistoryError :=
  r ←? open_reader repo state_hash; Ok (base_reader r).
Definition get_native_reader (repo : HistoryRepository) (state_hash : hash) : Result NativeReader HistoryError :=
  r ←? open_reader repo state_hash; Ok (reader_get_native r).

#[export] Instance repository_history : HistoryOps HistoryRepository C P A K := {
  hr_root repo := RadixTree.root_hash (current_history repo);
  hr_checkpoint := checkpoint_with_native;
  hr_reset := repo_reset;
  hr_reader := get_history_reader;
  hr_native_reader := get_native_reader;
}.
End HistoryRepository.
