(* ===== verification/Merger.v ===== *)
(** * Event-log merging

    [rspace/src/merger/]: the index of the events of a log, the conflicts and
    dependencies of two logs, the change of the state by a log, and the actions
    that apply a change to the history (Law 9).

    A set of events is ordered and compared by the hash of its elements, so it
    is the map of its elements by hash; a union or an intersection keeps the
    element of its first argument. *)

From S2P Require Import Prelude BTree Bytes RadixCodec RadixTree Trace HotStore Scodec SpaceMatcher NativeStore RSpace HistoryRepository.

(** [seq_diff]: the first occurrence of each element of [b] is removed. *)
Fixpoint remove_first {A} `{EqDecision A} (item : A) (l : list A) : list A :=
  match l with
  | [] => []
  | x :: l => if decide (x = item) then l else x :: remove_first item l
  end.
Definition seq_diff {A} `{EqDecision A} (a b : list A) : list A := foldl (λ out item, remove_first item out) a b.

(** ** Event-log indices *)
Notation PSet := (gmap hash Produce).
Notation CSet := (gmap hash Consume).
Notation NumberChannelsDiff := (gmap hash Z).

Record EventLogIndex := mkIndex {
  produces_linear : PSet;
  produces_persistent : PSet;
  produces_consumed : PSet;
  produces_peeked : PSet;
  produces_copied_by_peek : PSet;
  produces_touching_base_joins : PSet;
  consumes_linear_and_peeks : CSet;
  consumes_persistent : CSet;
  consumes_produced : CSet;
  produces_mergeable : PSet;
  consumes_mergeable : CSet;
  number_channels_data : NumberChannelsDiff;
}.
Definition index_empty : EventLogIndex := mkIndex ∅ ∅ ∅ ∅ ∅ ∅ ∅ ∅ ∅ ∅ ∅ ∅.

(** [BTreeSet::insert]: an equal element stays. *)
Definition add_produce (p : Produce) (s : PSet) : PSet := s ∪ {[p_hash p := p]}.
Definition add_consume (c : Consume) (s : CSet) : CSet := s ∪ {[c_hash c := c]}.

Section Classify.
Context (produce_exists_in_pre_state produce_touch_pre_state_join : Produce → bool).

(** One round of the loop over the log. *)
Definition classify_event (i : EventLogIndex) (event : Event) : EventLogIndex :=
  let '(mkIndex linear persistent consumed peeked copied touching kl kp kr pm cm numbers) := i in
  match event with
  | EvProduce p =>
      mkIndex (if p_persistent p then linear else add_produce p linear)
        (if p_persistent p then add_produce p persistent else persistent) consumed peeked
        (if produce_exists_in_pre_state p then add_produce p copied else copied)
        (if produce_touch_pre_state_join p then add_produce p touching else touching)
        kl kp kr pm cm numbers
  | EvConsume c =>
      mkIndex linear persistent consumed peeked copied touching
        (if c_persistent c then kl else add_consume c kl)
        (if c_persistent c then add_consume c kp else kp) kr pm cm numbers
  | EvComm c =>
      let no_peeks := bool_decide (comm_peeks c = ∅) in
      let add s := foldl (λ s p, add_produce p s) s (comm_produces c) in
      mkIndex linear persistent (if no_peeks then add consumed else consumed) (if no_peeks then peeked else add peeked)
        copied touching kl kp (add_consume (comm_consume c) kr) pm cm numbers
  end.

(** Collecting into a set keeps the last of equal elements. *)
Definition index_apply (event_log : Log) (mergeable_chs : NumberChannelsDiff) : EventLogIndex :=
  let '(mkIndex linear persistent consumed peeked copied touching kl kp kr _ _ _) :=
    foldl classify_event index_empty event_log in
  let is_mergeable h := bool_decide (is_Some (mergeable_chs !! h)) in
  let all_produces := peeked ∪ consumed ∪ persistent ∪ linear in
  let all_consumes := kr ∪ kp ∪ kl in
  mkIndex linear persistent consumed peeked copied touching kl kp kr
    (filter (λ hp, is_mergeable (p_channels_hash hp.2) = true) all_produces)
    (filter (λ hc, existsb is_mergeable (c_channels_hashes hc.2) = true) all_consumes)
    mergeable_chs.
End Classify.

(** ** The logic of merging *)
Definition produces_created (e : EventLogIndex) : PSet :=
  (produces_linear e ∪ produces_persistent e) ∖ produces_copied_by_peek e.
Definition consumes_created (e : EventLogIndex) : CSet := consumes_linear_and_peeks e ∪ consumes_persistent e.
Definition produces_created_and_not_destroyed (e : EventLogIndex) : PSet :=
  ((produces_linear e ∖ produces_consumed e) ∪ produces_persistent e) ∖ produces_copied_by_peek e.
Definition consumes_created_and_not_destroyed (e : EventLogIndex) : CSet :=
  (consumes_linear_and_peeks e ∖ consumes_produced e) ∪ consumes_persistent e.
Definition produces_affected (e : EventLogIndex) : PSet :=
  let external_destroyed := filter (λ hp, p_persistent hp.2 = false) (produces_consumed e ∖ produces_created e) in
  produces_created_and_not_destroyed e ∪ external_destroyed.
Definition consumes_affected (e : EventLogIndex) : CSet :=
  let external_destroyed := filter (λ hc, c_persistent hc.2 = false) (consumes_produced e ∖ consumes_created e) in
  consumes_created_and_not_destroyed e ∪ external_destroyed.

Definition combine_produces_copied_by_peek (x y : EventLogIndex) : PSet :=
  (produces_copied_by_peek x ∪ produces_copied_by_peek y) ∖ (produces_created x ∪ produces_created y).

(** [*entry(k).or_insert(0) += v] for the entries of [y]. *)
Definition add_diffs (x y : NumberChannelsDiff) : NumberChannelsDiff :=
  foldl (λ m kv, <[kv.1 := i64_wrap (default 0 (m !! kv.1) + kv.2)]> m) x (map_iter y).

Definition index_combine (x y : EventLogIndex) : EventLogIndex :=
  mkIndex (produces_linear x ∪ produces_linear y) (produces_persistent x ∪ produces_persistent y)
    (produces_consumed x ∪ produces_consumed y) (produces_peeked x ∪ produces_peeked y)
    (combine_produces_copied_by_peek x y)
    (produces_touching_base_joins x ∪ produces_touching_base_joins y)
    (consumes_linear_and_peeks x ∪ consumes_linear_and_peeks y) (consumes_persistent x ∪ consumes_persistent y)
    (consumes_produced x ∪ consumes_produced y) (produces_mergeable x ∪ produces_mergeable y)
    (consumes_mergeable x ∪ consumes_mergeable y) (add_diffs (number_channels_data x) (number_channels_data y)).

Definition depends (target source : EventLogIndex) : bool :=
  let produces_source := produces_created_and_not_destroyed source ∖ produces_mergeable source in
  let produces_target := produces_consumed target ∖ produces_mergeable source in
  negb (bool_decide (produces_source ∩ produces_target = ∅)) ||
  negb (bool_decide (consumes_created_and_not_destroyed source ∩ consumes_produced target = ∅)).

(** Potential COMMs of the produces of one side with the consumes of the other. *)
Definition match_found (consume : Consume) (produce : Produce) : bool :=
  bool_decide (p_channels_hash produce ∈ c_channels_hashes consume).
Definition potential_comms (left right : EventLogIndex) : list hash :=
  (map_iter (produces_created_and_not_destroyed left)).*2 ≫= λ p,
  (map_iter (consumes_created_and_not_destroyed right)).*2 ≫= λ c,
  if match_found c p then [p_channels_hash p] else [].

(** An intersection keeps the events of the first index, where
    [BTreeSet::intersection] may return those of the smaller one; equal hashes
    with different other fields are excluded where it matters ([same_events]). *)
Definition conflicts (a b : EventLogIndex) : list hash :=
  let shared_consumes := consumes_produced a ∩ consumes_produced b in
  let mergeable_consumes := consumes_mergeable a ∩ consumes_mergeable b in
  let consume_races := filter (λ c, c_persistent c = false) (map_iter (shared_consumes ∖ mergeable_consumes)).*2 in
  let shared_produces := produces_consumed a ∩ produces_consumed b in
  let mergeable_produces := produces_mergeable a ∩ produces_mergeable b in
  let produce_races := filter (λ p, p_persistent p = false) (map_iter (shared_produces ∖ mergeable_produces)).*2 in
  (consume_races ≫= c_channels_hashes) ++ (p_channels_hash <$> produce_races) ++
  potential_comms a b ++ potential_comms b a ++
  (p_channels_hash <$> (map_iter (produces_touching_base_joins a ∪ produces_touching_base_joins b)).*2).
Definition are_conflicting (a b : EventLogIndex) : bool := negb (bool_decide (conflicts a b = [])).

(** ** Changes of the state *)
Record ChannelChange := mkChange {
  added : list (list byte);
  removed : list (list byte);
}.
#[global] Instance ChannelChange_eq_dec : EqDecision ChannelChange. Proof. solve_decision. Defined.
Definition change_empty : ChannelChange := mkChange [] [].
Definition change_combine (x y : ChannelChange) : ChannelChange :=
  mkChange (added x ++ added y) (removed x ++ removed y).

Definition combine_channel_change_map {Key} `{!Ord Key} `{Countable Key} (x y : gmap Key ChannelChange) :
    gmap Key ChannelChange :=
  foldl (λ out kv, <[kv.1 := match out !! kv.1 with
                             | Some existing => change_combine existing kv.2
                             | None => kv.2
                             end]> out) x (map_iter y).

Record StateChange := mkStateChange {
  datums_changes : gmap hash ChannelChange;
  kont_changes : gmap (list hash) ChannelChange;
  consume_channels_to_join_serialized_map : gmap (list hash) (list byte);
}.
Definition state_change_empty : StateChange := mkStateChange ∅ ∅ ∅.

Definition state_change_combine (x y : StateChange) : StateChange :=
  mkStateChange (combine_channel_change_map (datums_changes x) (datums_changes y))
    (combine_channel_change_map (kont_changes x) (kont_changes y))
    (foldl (λ joins kv, <[kv.1 := kv.2]> joins) (consume_channels_to_join_serialized_map x)
       (map_iter (consume_channels_to_join_serialized_map y))).

Definition compute_value_change (start_value end_value : list (list byte)) : ChannelChange :=
  mkChange (seq_diff end_value start_value) (seq_diff start_value end_value).

(** [entry(key).or_default()], extended by the change. *)
Definition extend_change {Key} `{Countable Key} (key : Key) (change : ChannelChange) (m : gmap Key ChannelChange) :
    gmap Key ChannelChange :=
  <[key := change_combine (default change_empty (m !! key)) change]> m.

Definition is_empty_change (c : ChannelChange) : bool := bool_decide (added c = []) && bool_decide (removed c = []).
Definition has_empty_change {Key} `{!Ord Key} `{Countable Key} (m : gmap Key ChannelChange) : bool :=
  existsb (λ kv, is_empty_change kv.2) (map_iter m).

Inductive MergeError :=
| ReaderFailed (e : RSpaceError)
| JoinNotFound
| EmptyProduceChange
| EmptyConsumeChange
| EmptyTrieChange
| EmptyConsumeTrieChange
| NoJoinValue
| IndexPanicked.

(** A loop whose body may return early. *)
Fixpoint try_fold {X S E} (f : S → X → Result S E) (l : list X) (s : S) : Result S E :=
  match l with
  | [] => Ok s
  | x :: l => s ←? f s x; try_fold f l s
  end.

Section StateChange.
Context (create : list byte → hash).
Context {C P A K : Type} `{!Serialize C}.

(** The trait [HistoryReaderBinary]. *)
Record HistoryReaderBinary := mkBinary {
  hb_get_data : hash → Result (list (@DatumB A)) RSpaceError;
  hb_get_continuations : hash → Result (list (@WaitingContinuationB P K)) RSpaceError;
  hb_get_joins : hash → Result (list (@JoinsB C)) RSpaceError;
}.
Definition read {X} (r : Result X RSpaceError) : Result X MergeError :=
  match r with Ok x => Ok x | Err e => Err (ReaderFailed e) end.

Context (pre_state_reader post_state_reader : HistoryReaderBinary).

Definition diff_datums (datums_diff : gmap hash ChannelChange) (history_pointer : hash) :
    Result (gmap hash ChannelChange) MergeError :=
  start ←? read (hb_get_data pre_state_reader history_pointer);
  end_ ←? read (hb_get_data post_state_reader history_pointer);
  Ok (extend_change history_pointer (compute_value_change (raw <$> start) (raw <$> end_)) datums_diff).

Definition join_matches (consume_channels : list hash) (j : @JoinsB C) : bool :=
  bool_decide (sort_by cmp consume_channels = sort_by cmp (hash_channel create <$> raw_decoded j)).

Definition diff_konts (s : gmap (list hash) ChannelChange * gmap (list hash) (list byte)) (consume_channels : list hash) :
    Result (gmap (list hash) ChannelChange * gmap (list hash) (list byte)) MergeError :=
  let '(konts_diff, joins_map) := s in
  let history_pointer := hash_hashes create consume_channels in
  start ←? read (hb_get_continuations pre_state_reader history_pointer);
  end_ ←? read (hb_get_continuations post_state_reader history_pointer);
  let konts_diff :=
    extend_change consume_channels (compute_value_change (raw <$> start) (raw <$> end_)) konts_diff in
  match consume_channels with
  | [] => Err IndexPanicked
  | history_pointer :: _ =>
      pre ←? read (hb_get_joins pre_state_reader history_pointer);
      post ←? read (hb_get_joins post_state_reader history_pointer);
      match List.find (join_matches consume_channels) (pre ++ post) with
      | None => Err JoinNotFound
      | Some j => Ok (konts_diff, <[consume_channels := raw j]> joins_map)
      end
  end.

Definition state_change_apply (event_log_index : EventLogIndex) : Result StateChange MergeError :=
  let produce_hashes := (λ hp, p_channels_hash hp.2) <$> map_iter (produces_affected event_log_index) in
  datums_diff ←? try_fold diff_datums produce_hashes ∅;
  let consume_channel_sets := (λ hc, c_channels_hashes hc.2) <$> map_iter (consumes_affected event_log_index) in
  konts ←? try_fold diff_konts consume_channel_sets (∅, ∅);
  if has_empty_change datums_diff then Err EmptyProduceChange
  else if has_empty_change konts.1 then Err EmptyConsumeChange
  else Ok (mkStateChange datums_diff konts.1 konts.2).
End StateChange.
#[global] Arguments HistoryReaderBinary : clear implicits.

(** ** Actions on the history *)
Inductive JoinAction :=
| AddJoin (channels : list hash)
| RemoveJoin (channels : list hash).
Definition join_action_channels (a : JoinAction) : list hash :=
  match a with AddJoin channels | RemoveJoin channels => channels end.

(** The value of a channel after a change. *)
Definition apply_change (init_value : list (list byte)) (changes : ChannelChange) : list (list byte) :=
  seq_diff init_value (removed changes) ++ added changes.

Section TrieActions.
Context (create : list byte → hash).
Context {C P A K : Type}.
Notation Action := (@HotStoreTrieAction C P A K).

Definition mk_trie_action (history_pointer : hash) (init_value : list (list byte)) (changes : ChannelChange)
    (remove_action : hash → Action) (update_action : hash → list (list byte) → Action) : Result Action MergeError :=
  let new_val := apply_change init_value changes in
  if bool_decide (new_val = []) && negb (bool_decide (init_value = [])) then Ok (remove_action history_pointer)
  else if negb (bool_decide (init_value = new_val)) then Ok (update_action history_pointer new_val)
  else Err EmptyTrieChange.

Context (changes : StateChange) (base_reader : HistoryReaderBinary C P A K) (mergeable_chs : NumberChannelsDiff).
Context (handle_channel_change : hash → ChannelChange → NumberChannelsDiff → option Action).

Definition consume_action (s : list Action * list JoinAction) (change : list hash * ChannelChange) :
    Result (list Action * list JoinAction) MergeError :=
  let '(actions, join_actions) := s in
  let '(consume_channels, channel_change) := change in
  let history_pointer := hash_hashes create consume_channels in
  init ←? read (hb_get_continuations base_reader history_pointer);
  let init := raw <$> init in
  let new_val := apply_change init channel_change in
  if bool_decide (init = new_val) then Err EmptyConsumeTrieChange
  else if bool_decide (new_val = []) && negb (bool_decide (init = [])) then
    Ok (actions ++ [TrieDeleteConsume history_pointer], join_actions ++ [RemoveJoin consume_channels])
  else if bool_decide (init = []) then
    Ok (actions ++ [TrieInsertBinaryConsume history_pointer new_val], join_actions ++ [AddJoin consume_channels])
  else Ok (actions ++ [TrieInsertBinaryConsume history_pointer new_val], join_actions).

Definition produce_action (change : hash * ChannelChange) : Result Action MergeError :=
  let '(history_pointer, channel_change) := change in
  match handle_channel_change history_pointer channel_change mergeable_chs with
  | Some action => Ok action
  | None =>
      init ←? read (hb_get_data base_reader history_pointer);
      mk_trie_action history_pointer (raw <$> init) channel_change TrieDeleteProduce TrieInsertBinaryProduce
  end.

(** A join that is added or removed changes the joins of each of its channels. *)
Definition spread_join (joins_changes : gmap hash ChannelChange) (join_action : JoinAction) :
    Result (gmap hash ChannelChange) MergeError :=
  join ←? ok_or (consume_channels_to_join_serialized_map changes !! join_action_channels join_action) NoJoinValue;
  Ok (foldl (λ joins_changes c,
        let cur := default change_empty (joins_changes !! c) in
        <[c := match join_action with
               | AddJoin _ => mkChange (join :: added cur) (removed cur)
               | RemoveJoin _ => mkChange (added cur) (join :: removed cur)
               end]> joins_changes) joins_changes (join_action_channels join_action)).

Definition joins_action (change : hash * ChannelChange) : Result Action MergeError :=
  init ←? read (hb_get_joins base_reader change.1);
  mk_trie_action change.1 (raw <$> init) change.2 TrieDeleteJoins TrieInsertBinaryJoins.

Definition compute_trie_actions : Result (list Action) MergeError :=
  consumes ←? try_fold consume_action (map_iter (kont_changes changes)) ([], []);
  produce_trie_actions ←? try_map produce_action (map_iter (datums_changes changes));
  joins_changes ←? try_fold spread_join consumes.2 ∅;
  joins_trie_actions ←? try_map joins_action (map_iter joins_changes);
  Ok (produce_trie_actions ++ consumes.1 ++ joins_trie_actions).
End TrieActions.

(** The binary reader of a history reader. *)
Definition reader_binary {C P A K} `{!Serialize C, !Serialize P, !Serialize A, !Serialize K}
    (r : HistoryReaderImpl) : HistoryReaderBinary C P A K :=
  mkBinary (binary_get_data r) (binary_get_continuations r) (binary_get_joins r).
