(* ===== verification/MergerSpec.v ===== *)
(** * Event-log merging: theorems

    The monoid of event-log indices, the symmetry of conflicts, and what the
    change of a log does when it is applied to a state. *)

From S2P Require Import Prelude BTree Bytes Trace HotStore Scodec SpaceMatcher NativeStore RSpace HistoryRepository Merger.

(** ** Multiset difference *)
Section SeqDiff.
Context {A : Type} `{EqDecision A}.
Notation count := (count_occ (decide_rel (=@{A}))).

Lemma count_remove_first x y (l : list A) :
  count (remove_first x l) y = (count l y - (if decide_rel (=) x y then 1 else 0))%nat.
Proof.
  induction l as [|z l IH]; [by destruct (decide_rel _ x y)|]. cbn [remove_first].
  destruct (decide (z = x)) as [->|Hz]; cbn [count_occ].
  - destruct (decide_rel _ x y); lia.
  - rewrite IH. destruct (decide_rel _ z y), (decide_rel _ x y); subst; lia || congruence.
Qed.

Lemma count_seq_diff (a b : list A) y : count (seq_diff a b) y = (count a y - count b y)%nat.
Proof.
  unfold seq_diff. revert a. induction b as [|x b IH]; intros a; cbn [foldl count_occ]; [lia|].
  rewrite IH, count_remove_first. destruct (decide_rel _ x y); lia.
Qed.

Lemma perm_count (a b : list A) : (∀ y, count a y = count b y) → a ≡ₚ b.
Proof. intros H. by apply (Permutation_count_occ (decide_rel (=@{A}))). Qed.

Lemma submseteq_count (a b : list A) y : a ⊆+ b → (count a y ≤ count b y)%nat.
Proof.
  intros [k Hk]%submseteq_Permutation.
  rewrite (proj1 (Permutation_count_occ (decide_rel (=@{A})) _ _) Hk y), count_occ_app. lia.
Qed.
End SeqDiff.

Ltac by_count := apply perm_count; let y := fresh "y" in intros y; unfold apply_change, change_combine; cbn [added removed];
  repeat rewrite ?count_occ_app, ?count_seq_diff.

(** Applying the difference of two values gives the second from the first. *)
Lemma value_change_roundtrip start end_ : apply_change start (compute_value_change start end_) ≡ₚ end_.
Proof. unfold compute_value_change. by_count. lia. Qed.

Lemma apply_change_combine init c d :
  removed c ++ removed d ⊆+ init →
  apply_change init (change_combine c d) ≡ₚ apply_change (apply_change init c) d.
Proof.
  intros Hs. by_count. pose proof (submseteq_count _ _ y Hs) as Hc. rewrite count_occ_app in Hc. lia.
Qed.

(** ** Loops that update the entries of another map *)
Section UpdateEntries.
Context {Key V W : Type} `{!Ord Key} `{Countable Key} `{!OrdSpec Key}.

Lemma foldl_update (f : option V → W → V) (l : list (Key * W)) (x : gmap Key V) k :
  NoDup l.*1 →
  foldl (λ m kv, <[kv.1 := f (m !! kv.1) kv.2]> m) x l !! k =
  match (list_to_map l : gmap Key W) !! k with Some w => Some (f (x !! k) w) | None => x !! k end.
Proof.
  revert x. induction l as [|[k' w] l IH]; intros x Hnd; [by cbn; rewrite lookup_empty|].
  cbn in Hnd. apply NoDup_cons in Hnd as [Hk' Hnd]. cbn [foldl fst snd]. rewrite IH by done. cbn [list_to_map foldr].
  destruct (decide (k' = k)) as [->|Hne].
  - rewrite (not_elem_of_list_to_map_1 l k Hk'). cbn. by rewrite !lookup_insert_eq.
  - cbn. by rewrite !lookup_insert_ne.
Qed.

Lemma update_entries (f : option V → W → V) (x : gmap Key V) (y : gmap Key W) k :
  foldl (λ m kv, <[kv.1 := f (m !! kv.1) kv.2]> m) x (map_iter y) !! k =
  match y !! k with Some w => Some (f (x !! k) w) | None => x !! k end.
Proof. rewrite foldl_update by apply NoDup_map_iter_keys. by rewrite list_to_map_iter. Qed.
End UpdateEntries.

Lemma lookup_add_diffs x y k :
  add_diffs x y !! k = match y !! k with Some v => Some (i64_wrap (default 0 (x !! k) + v)) | None => x !! k end.
Proof. apply (update_entries (λ o v, i64_wrap (default 0 o + v))). Qed.

Lemma lookup_combine_changes {Key} `{!Ord Key} `{Countable Key} `{!OrdSpec Key} (x y : gmap Key ChannelChange) k :
  combine_channel_change_map x y !! k = union_with (λ c d, Some (change_combine c d)) (x !! k) (y !! k).
Proof.
  unfold combine_channel_change_map.
  rewrite (update_entries (λ o d, match o with Some c => change_combine c d | None => d end)).
  by destruct (x !! k), (y !! k).
Qed.

Lemma lookup_combine_joins (x y : gmap (list hash) (list byte)) k :
  foldl (λ joins kv, <[kv.1 := kv.2]> joins) x (map_iter y) !! k = (y ∪ x) !! k.
Proof. rewrite (update_entries (λ _ v, v)), lookup_union. by destruct (x !! k), (y !! k). Qed.

Lemma i64_wrap_add_l a b : i64_wrap (i64_wrap a + b) = i64_wrap (a + b).
Proof.
  unfold i64_wrap. f_equal.
  replace ((a + 2 ^ 63) mod 2 ^ 64 - 2 ^ 63 + b + 2 ^ 63) with ((a + 2 ^ 63) mod 2 ^ 64 + b) by lia.
  rewrite Zplus_mod_idemp_l. f_equal. lia.
Qed.
Lemma i64_wrap_add_r a b : i64_wrap (a + i64_wrap b) = i64_wrap (a + b).
Proof. rewrite Z.add_comm, i64_wrap_add_l. f_equal. lia. Qed.

(** ** The monoid of indices *)

(** The values of the number channels are of type [i64]. *)
Definition index_ok (x : EventLogIndex) : Prop := map_Forall (λ _ v, i64_range v) (number_channels_data x).

Lemma add_diffs_ok x y : map_Forall (λ _ v, i64_range v) x → map_Forall (λ _ v, i64_range v) (add_diffs x y).
Proof.
  intros Hx k v. rewrite lookup_add_diffs. destruct (y !! k); [intros [= <-]; apply i64_wrap_range|apply Hx].
Qed.

Lemma add_diffs_assoc x y z : add_diffs x (add_diffs y z) = add_diffs (add_diffs x y) z.
Proof.
  apply map_eq. intros k. rewrite !lookup_add_diffs. destruct (x !! k), (y !! k), (z !! k); cbn; try done;
    rewrite ?i64_wrap_add_l, ?i64_wrap_add_r; do 2 f_equal; lia.
Qed.

Lemma add_diffs_comm x y :
  map_Forall (λ _ v, i64_range v) x → map_Forall (λ _ v, i64_range v) y → add_diffs x y = add_diffs y x.
Proof.
  intros Hx Hy. apply map_eq. intros k. rewrite !lookup_add_diffs.
  destruct (x !! k) as [a|] eqn:Ha, (y !! k) as [b|] eqn:Hb; cbn; try done.
  - do 2 f_equal; lia.
  - by rewrite i64_wrap_id by (apply (Hx _ _ Ha)).
  - by rewrite i64_wrap_id by (apply (Hy _ _ Hb)).
Qed.
Lemma add_diffs_empty_r x : add_diffs x ∅ = x.
Proof. apply map_eq. intros k. by rewrite lookup_add_diffs, lookup_empty. Qed.

(** Equality of maps, by the cases of the entries of a key. *)
Ltac map_cases := apply map_eq; intros ?k;
  repeat rewrite ?lookup_union, ?lookup_difference, ?lookup_empty;
  repeat match goal with |- context [?m !! ?k] => destruct (m !! k) end; reflexivity.

(** The same events (an event is compared by its hash) and the same numbers. *)
#[global] Instance index_equiv : Equiv EventLogIndex := λ x y,
  dom (produces_linear x) = dom (produces_linear y) ∧ dom (produces_persistent x) = dom (produces_persistent y) ∧
  dom (produces_consumed x) = dom (produces_consumed y) ∧ dom (produces_peeked x) = dom (produces_peeked y) ∧
  dom (produces_copied_by_peek x) = dom (produces_copied_by_peek y) ∧
  dom (produces_touching_base_joins x) = dom (produces_touching_base_joins y) ∧
  dom (consumes_linear_and_peeks x) = dom (consumes_linear_and_peeks y) ∧
  dom (consumes_persistent x) = dom (consumes_persistent y) ∧ dom (consumes_produced x) = dom (consumes_produced y) ∧
  dom (produces_mergeable x) = dom (produces_mergeable y) ∧ dom (consumes_mergeable x) = dom (consumes_mergeable y) ∧
  number_channels_data x = number_channels_data y.
#[global] Instance index_equivalence : Equivalence (≡@{EventLogIndex}).
Proof.
  split.
  - intros x. by repeat split.
  - intros x y H. unfold equiv, index_equiv in *. intuition congruence.
  - intros x y z H K. unfold equiv, index_equiv in *. intuition congruence.
Qed.

Lemma dom_combine_copied x y :
  dom (combine_produces_copied_by_peek x y) =
  (dom (produces_copied_by_peek x) ∪ dom (produces_copied_by_peek y)) ∖
  ((dom (produces_linear x) ∪ dom (produces_persistent x)) ∖ dom (produces_copied_by_peek x) ∪
   (dom (produces_linear y) ∪ dom (produces_persistent y)) ∖ dom (produces_copied_by_peek y)).
Proof. unfold combine_produces_copied_by_peek, produces_created. by rewrite !dom_difference_L, !dom_union_L, !dom_difference_L, !dom_union_L. Qed.

#[global] Instance index_combine_proper : Proper ((≡) ==> (≡) ==> (≡)) index_combine.
Proof.
  intros x x' Hx y y' Hy. unfold equiv, index_equiv in *. cbn. rewrite !dom_combine_copied, !dom_union_L.
  destruct_and!. repeat split; congruence.
Qed.

Lemma index_combine_assoc x y z : index_combine x (index_combine y z) = index_combine (index_combine x y) z.
Proof.
  unfold index_combine at 1 3. f_equal; cbn; rewrite ?map_union_assoc; try done; [|apply add_diffs_assoc].
  unfold combine_produces_copied_by_peek, produces_created; cbn. unfold combine_produces_copied_by_peek, produces_created.
  map_cases.
Qed.

Lemma index_combine_empty_l x : index_ok x → index_combine index_empty x = x.
Proof.
  destruct x. intros Hx. unfold index_combine, combine_produces_copied_by_peek, produces_created; cbn.
  f_equal; try apply map_empty_union; try map_cases.
  apply map_eq. intros k. rewrite lookup_add_diffs, lookup_empty. destruct (_ !! k) eqn:Hk; [|done].
  cbn. f_equal. apply i64_wrap_id, (Hx _ _ Hk).
Qed.

Lemma index_combine_empty_r x : index_combine x index_empty = x.
Proof.
  destruct x. unfold index_combine, combine_produces_copied_by_peek, produces_created; cbn.
  f_equal; try apply map_union_empty; try apply add_diffs_empty_r. map_cases.
Qed.

Lemma index_combine_comm x y : index_ok x → index_ok y → index_combine x y ≡ index_combine y x.
Proof.
  intros Hx Hy. unfold equiv, index_equiv. cbn. rewrite !dom_combine_copied, !dom_union_L.
  repeat split; try apply (comm_L (∪)).
  - set_solver.
  - by apply add_diffs_comm.
Qed.

(** C27: Law 9, event-log indices under [EventLogIndex::combine] are a monoid
    with [EventLogIndex::empty], the sums of number channels wrapping at 64
    bits; and the order of two indices changes neither the events nor the
    numbers of their combination. *)
Theorem merge_is_a_commutative_monoid x y z (Hx : index_ok x) (Hy : index_ok y) :
  index_combine index_empty x = x ∧ index_combine x index_empty = x ∧
  index_combine x (index_combine y z) = index_combine (index_combine x y) z ∧
  index_combine x y ≡ index_combine y x ∧ index_ok (index_combine x y).
Proof.
  split_and!.
  - by apply index_combine_empty_l.
  - apply index_combine_empty_r.
  - apply index_combine_assoc.
  - by apply index_combine_comm.
  - by apply add_diffs_ok.
Qed.

(** ** Conflicts *)
Definition produce_race (a b : EventLogIndex) : Prop := ∃ h p,
  produces_consumed a !! h = Some p ∧ is_Some (produces_consumed b !! h) ∧ p_persistent p = false ∧
  (produces_mergeable a !! h = None ∨ produces_mergeable b !! h = None).
Definition consume_race (a b : EventLogIndex) : Prop := ∃ h c,
  consumes_produced a !! h = Some c ∧ is_Some (consumes_produced b !! h) ∧ c_persistent c = false ∧
  c_channels_hashes c ≠ [] ∧ (consumes_mergeable a !! h = None ∨ consumes_mergeable b !! h = None).
Definition potential_comm (a b : EventLogIndex) : Prop := ∃ h p k c,
  produces_created_and_not_destroyed a !! h = Some p ∧ consumes_created_and_not_destroyed b !! k = Some c ∧
  p_channels_hash p ∈ c_channels_hashes c.
Definition touches_base_join (a : EventLogIndex) : Prop := produces_touching_base_joins a ≠ ∅.

(** Two indices that hold the same event hold it with the same data. *)
Definition same_events (a b : EventLogIndex) : Prop :=
  (∀ h p q, produces_consumed a !! h = Some p → produces_consumed b !! h = Some q → p = q) ∧
  (∀ h c d, consumes_produced a !! h = Some c → consumes_produced b !! h = Some d → c = d).

Lemma lookup_race {E} (a b ma mb : gmap hash E) h (x : E) :
  ((a ∩ b) ∖ (ma ∩ mb)) !! h = Some x ↔
  a !! h = Some x ∧ is_Some (b !! h) ∧ (ma !! h = None ∨ mb !! h = None).
Proof.
  rewrite lookup_difference_Some, lookup_intersection_Some, lookup_intersection_None. naive_solver.
Qed.

Lemma elem_of_values {E} (m : gmap hash E) x : x ∈ (map_iter m).*2 ↔ ∃ h, m !! h = Some x.
Proof.
  rewrite list_elem_of_fmap. split.
  - intros ([h y] & -> & Hy). exists h. by apply elem_of_map_iter.
  - intros [h Hh]. exists (h, x). split; [done|]. by apply elem_of_map_iter.
Qed.

Lemma not_nil_elem {E} (l : list E) : l ≠ [] ↔ ∃ x, x ∈ l.
Proof. destruct l; split; [done|intros [x Hx]; by inversion Hx|intros _; eexists; left|done]. Qed.

Lemma elem_of_potential_comms a b h :
  h ∈ potential_comms a b ↔ ∃ p c, p ∈ (map_iter (produces_created_and_not_destroyed a)).*2 ∧
    c ∈ (map_iter (consumes_created_and_not_destroyed b)).*2 ∧ p_channels_hash p ∈ c_channels_hashes c ∧
    h = p_channels_hash p.
Proof.
  unfold potential_comms, match_found. rewrite list_elem_of_bind. setoid_rewrite list_elem_of_bind. split.
  - intros (p & (c & Hh & Hc) & Hp). exists p, c. case_bool_decide; [|by inversion Hh].
    by apply list_elem_of_singleton in Hh.
  - intros (p & c & Hp & Hc & Hm & ->). exists p. split; [|done]. exists c. split; [|done].
    rewrite bool_decide_eq_true_2 by done. by apply list_elem_of_singleton.
Qed.

Lemma app_not_nil {E} (l k : list E) : l ++ k ≠ [] ↔ l ≠ [] ∨ k ≠ [].
Proof. destruct l, k; naive_solver. Qed.

Lemma consume_races_spec a b :
  filter (λ c, c_persistent c = false)
    (map_iter ((consumes_produced a ∩ consumes_produced b) ∖ (consumes_mergeable a ∩ consumes_mergeable b))).*2
    ≫= c_channels_hashes ≠ [] ↔ consume_race a b.
Proof.
  rewrite not_nil_elem. setoid_rewrite list_elem_of_bind. setoid_rewrite list_elem_of_filter.
  setoid_rewrite elem_of_values. setoid_rewrite lookup_race. unfold consume_race. split.
  - intros (x & c & Hx & Hp & h & Hh). exists h, c. destruct_and!. split_and!; try done.
    apply not_nil_elem. by exists x.
  - intros (h & c & Hc & Hb & Hp & [x Hx]%not_nil_elem & Hm). exists x, c. eauto 10.
Qed.

Lemma produce_races_spec a b :
  p_channels_hash <$> filter (λ p, p_persistent p = false)
    (map_iter ((produces_consumed a ∩ produces_consumed b) ∖ (produces_mergeable a ∩ produces_mergeable b))).*2
    ≠ [] ↔ produce_race a b.
Proof.
  rewrite not_nil_elem. setoid_rewrite list_elem_of_fmap. setoid_rewrite list_elem_of_filter.
  setoid_rewrite elem_of_values. setoid_rewrite lookup_race. unfold produce_race. split.
  - intros (x & p & Hx & Hp & h & Hh). exists h, p. by destruct_and!.
  - intros (h & p & Hc & Hb & Hp & Hm). exists (p_channels_hash p), p. eauto 10.
Qed.

Lemma potential_comms_spec a b : potential_comms a b ≠ [] ↔ potential_comm a b.
Proof.
  rewrite not_nil_elem. setoid_rewrite elem_of_potential_comms. setoid_rewrite elem_of_values.
  unfold potential_comm. split.
  - intros (x & p & c & [h Hh] & [k Hk] & Hm & _). by exists h, p, k, c.
  - intros (h & p & k & c & Hh & Hk & Hm). eexists _, p, c. eauto 10.
Qed.

Lemma touching_spec a b :
  p_channels_hash <$> (map_iter (produces_touching_base_joins a ∪ produces_touching_base_joins b)).*2 ≠ [] ↔
  touches_base_join a ∨ touches_base_join b.
Proof.
  unfold touches_base_join. transitivity (produces_touching_base_joins a ∪ produces_touching_base_joins b ≠ ∅).
  - apply not_iff_compat. rewrite <- (map_iter_nil (produces_touching_base_joins a ∪ _)).
    by destruct (map_iter _).
  - destruct (decide (produces_touching_base_joins a = ∅)) as [->|Ha].
    + rewrite map_empty_union. naive_solver.
    + split; [by left|]. intros _. by apply map_positive_l_alt.
Qed.

Lemma are_conflicting_spec a b :
  are_conflicting a b = true ↔
  consume_race a b ∨ produce_race a b ∨ potential_comm a b ∨ potential_comm b a ∨
  touches_base_join a ∨ touches_base_join b.
Proof.
  unfold are_conflicting. rewrite negb_true_iff, bool_decide_eq_false. unfold conflicts. cbv zeta.
  by rewrite !app_not_nil, consume_races_spec, produce_races_spec, !potential_comms_spec, touching_spec.
Qed.

Lemma produce_race_sym a b : same_events a b → produce_race a b → produce_race b a.
Proof.
  intros [Hs _] (h & p & Ha & [q Hb] & Hp & Hm). exists h, q. assert (p = q) as -> by by eapply Hs.
  rewrite Ha. by destruct Hm; eauto 10.
Qed.
Lemma consume_race_sym a b : same_events a b → consume_race a b → consume_race b a.
Proof.
  intros [_ Hs] (h & c & Ha & [d Hb] & Hc & Hn & Hm). exists h, d. assert (c = d) as -> by by eapply Hs.
  rewrite Ha. by destruct Hm; eauto 10.
Qed.
Lemma same_events_sym a b : same_events a b → same_events b a.
Proof. intros [Hp Hc]. split; intros; symmetry; eauto. Qed.

(** C28: Two event logs conflict ([are_conflicting]) exactly when both destroy
    the same linear event and it is not mergeable in both, when a datum that one
    leaves could meet a continuation that the other leaves, or when a produce of
    either touches a join of the base state; and, as an event is determined by
    its hash, the order of the logs does not matter. *)
Theorem conflicts_exactly a b (Hs : same_events a b) :
  (are_conflicting a b = true ↔
   consume_race a b ∨ produce_race a b ∨ potential_comm a b ∨ potential_comm b a ∨
   touches_base_join a ∨ touches_base_join b) ∧
  are_conflicting a b = are_conflicting b a.
Proof.
  split; [apply are_conflicting_spec|]. apply eq_true_iff_eq. rewrite !are_conflicting_spec.
  pose proof (same_events_sym _ _ Hs). split; intros; destruct_or?; eauto 10 using produce_race_sym, consume_race_sym.
Qed.

(** ** The change of a log *)

(** A change, [n] times over. *)
Definition repeat_change (n : nat) (c : ChannelChange) : ChannelChange :=
  Nat.iter n (λ acc, change_combine acc c) change_empty.

(** The number of affected produces on a channel. *)
Definition affected_on (e : EventLogIndex) (h : hash) : nat :=
  count_occ (decide_rel (=)) ((λ hp, p_channels_hash hp.2) <$> map_iter (produces_affected e)) h.

Lemma change_combine_assoc c d e : change_combine c (change_combine d e) = change_combine (change_combine c d) e.
Proof. unfold change_combine. cbn. by rewrite !app_assoc. Qed.
Lemma change_combine_empty_l c : change_combine change_empty c = c.
Proof. by destruct c. Qed.
Lemma change_combine_empty_r c : change_combine c change_empty = c.
Proof. destruct c. unfold change_combine. cbn. by rewrite !app_nil_r. Qed.
Lemma repeat_change_S n c : repeat_change (S n) c = change_combine c (repeat_change n c).
Proof.
  induction n as [|n IH].
  - cbn. by rewrite change_combine_empty_l, change_combine_empty_r.
  - change (change_combine (repeat_change (S n) c) c = change_combine c (change_combine (repeat_change n c) c)).
    by rewrite IH, change_combine_assoc.
Qed.

Lemma repeat_change_1 c : repeat_change 1 c = c.
Proof. apply change_combine_empty_l. Qed.

Section Changes.
Context (create : list byte → hash).
Context {C P A K : Type} `{!Serialize C}.
Context (pre post : HistoryReaderBinary C P A K).

Lemma diff_datums_spec l m m' h start end_ :
  try_fold (diff_datums pre post) l m = Ok m' →
  hb_get_data pre h = Ok start → hb_get_data post h = Ok end_ →
  m' !! h = match count_occ (decide_rel (=)) l h with
            | O => m !! h
            | n => Some (change_combine (default change_empty (m !! h))
                           (repeat_change n (compute_value_change (raw <$> start) (raw <$> end_))))
            end.
Proof.
  intros Hm Hs He. revert m Hm. induction l as [|g l IH]; intros m Hm; [by injection Hm as ->|].
  cbn [try_fold] in Hm. destruct (diff_datums pre post m g) as [m1|] eqn:Hd; [|done].
  rewrite (IH _ Hm). cbn [count_occ]. unfold diff_datums in Hd.
  destruct (decide_rel (=) g h) as [->|Hne].
  - rewrite Hs, He in Hd. cbn in Hd. injection Hd as <-. unfold extend_change. rewrite lookup_insert_eq. cbn [default from_option id].
    destruct (count_occ _ l h) as [|n].
    + cbn. by rewrite change_combine_empty_l.
    + by rewrite (repeat_change_S (S n)), change_combine_assoc.
  - destruct (read (hb_get_data pre g)); [|done]. destruct (read (hb_get_data post g)); [|done].
    injection Hd as <-. unfold extend_change. by rewrite lookup_insert_ne.
Qed.

(** C30: The change that [StateChange::apply] records for a channel is the
    difference of the data of the channel in the two states once for every
    affected produce on it; with one affected produce, applying it to the data
    of the first state gives the data of the second. *)
Theorem state_change_per_produce e sc h start end_
    (Hsc : state_change_apply create pre post e = Ok sc)
    (Hstart : hb_get_data pre h = Ok start) (Hend : hb_get_data post h = Ok end_) :
  datums_changes sc !! h =
    (if decide (affected_on e h = 0%nat) then None
     else Some (repeat_change (affected_on e h) (compute_value_change (raw <$> start) (raw <$> end_)))) ∧
  (affected_on e h = 1%nat →
   ∃ change, datums_changes sc !! h = Some change ∧ apply_change (raw <$> start) change ≡ₚ raw <$> end_).
Proof.
  unfold state_change_apply in Hsc. destruct (try_fold (diff_datums pre post) _ _) as [dd|] eqn:Hd; [|done].
  pose proof (diff_datums_spec _ _ _ h _ _ Hd Hstart Hend) as Hh. rewrite lookup_empty in Hh. cbn [default from_option] in Hh.
  destruct (try_fold (diff_konts create pre post) _ _) as [ks|]; [|done].
  destruct (has_empty_change dd); [done|]. destruct (has_empty_change ks.1); [done|]. injection Hsc as <-.
  cbn [datums_changes]. fold (affected_on e h) in Hh. destruct (affected_on e h) as [|n]; [done|].
  rewrite change_combine_empty_l in Hh. split; [by rewrite decide_False|]. intros [= ->].
  eexists. split; [done|]. rewrite repeat_change_1. apply value_change_roundtrip.
Qed.

(** The action sets the data of channel [h] to [data], up to order: it deletes
    the channel if there is none and writes it otherwise. *)
Definition sets_data (h : hash) (data : list (list byte)) (act : @HotStoreTrieAction C P A K) : Prop :=
  (data = [] ∧ act = TrieDeleteProduce h) ∨
  (data ≠ [] ∧ ∃ v, act = TrieInsertBinaryProduce h v ∧ v ≡ₚ data).

Context (mergeable : NumberChannelsDiff).
Context (handle : hash → ChannelChange → NumberChannelsDiff → option (@HotStoreTrieAction C P A K)).

(** The action of a channel that the handler leaves alone. *)
Lemma produce_action_spec h change base data :
  hb_get_data pre h = Ok base → handle h change mergeable = None →
  apply_change (raw <$> base) change ≡ₚ data →
  (∃ act, produce_action pre mergeable handle (h, change) = Ok act ∧ sets_data h data act) ∨
  (produce_action pre mergeable handle (h, change) = Err EmptyTrieChange ∧
   raw <$> base = apply_change (raw <$> base) change).
Proof.
  intros Hb Hh Hdata. unfold produce_action. rewrite Hh, Hb. cbn [read]. unfold mk_trie_action, sets_data.
  set (new_val := apply_change _ _) in *.
  destruct (decide (raw <$> base = new_val)) as [He|Hne].
  - right. rewrite He, (bool_decide_eq_true_2 (new_val = new_val)) by done.
    by destruct (bool_decide (new_val = [])).
  - left. rewrite (bool_decide_eq_false_2 _ Hne). destruct (decide (new_val = [])) as [Hn|Hn].
    + rewrite (bool_decide_eq_true_2 _ Hn), bool_decide_eq_false_2 by congruence.
      eexists. split; [done|]. left. rewrite Hn in Hdata. by apply Permutation_nil_l in Hdata.
    + rewrite (bool_decide_eq_false_2 _ Hn). eexists. split; [done|]. right.
      split; [|by eexists]. intros ->. by apply Permutation_nil_r in Hdata.
Qed.

(** The action of every changed channel is among the computed actions. *)
Lemma compute_trie_actions_produce sc actions h change :
  compute_trie_actions create sc pre mergeable handle = Ok actions →
  datums_changes sc !! h = Some change →
  ∃ act, act ∈ actions ∧ produce_action pre mergeable handle (h, change) = Ok act.
Proof.
  unfold compute_trie_actions. intros Hr Hh%elem_of_map_iter.
  destruct (try_fold _ _ _) as [consumes|]; [|done].
  destruct (try_map (produce_action _ _ _) _) as [produces|] eqn:Hp; [|done].
  destruct (try_fold _ _ _) as [joins|]; [|done]. destruct (try_map (joins_action _) _) as [ja|]; [|done].
  injection Hr as <-. apply try_map_Ok in Hp. apply list_elem_of_lookup in Hh as [i Hi].
  destruct (Forall2_lookup_l _ _ _ _ _ Hp Hi) as (act & Hact & Ha). exists act. split; [|done].
  apply elem_of_app. left. by apply list_elem_of_lookup_2 with i.
Qed.

(** C29: Merged branches leave what they leave one after the other.  Two
    branches change a channel, removing data of the base state without
    removing the same datum twice, and the handler of number channels leaves
    the channel alone.  Then applying the branches in either order gives the
    same data; the action of the combined change sets the channel to that
    data (deleting it if there is none), and fails only if the combined
    change leaves the channel as it was; whenever the merge computes its
    actions, that action is among them. *)
Theorem merged_branches_replay x y h c d base
    (Hbase : hb_get_data pre h = Ok base)
    (Hc : datums_changes x !! h = Some c) (Hd : datums_changes y !! h = Some d)
    (Hapart : removed c ++ removed d ⊆+ raw <$> base)
    (Hhandle : ∀ change, handle h change mergeable = None) :
  let sequential := apply_change (apply_change (raw <$> base) c) d in
  sequential ≡ₚ apply_change (apply_change (raw <$> base) d) c ∧
  (∃ change, datums_changes (state_change_combine x y) !! h = Some change ∧
    ((∃ act, produce_action pre mergeable handle (h, change) = Ok act ∧ sets_data h sequential act) ∨
     (produce_action pre mergeable handle (h, change) = Err EmptyTrieChange ∧ raw <$> base ≡ₚ sequential))) ∧
  (∀ actions, compute_trie_actions create (state_change_combine x y) pre mergeable handle = Ok actions →
     ∃ act, act ∈ actions ∧ sets_data h sequential act).
Proof.
  intros sequential. pose proof (apply_change_combine _ _ _ Hapart) as Hcd. fold sequential in Hcd.
  assert (datums_changes (state_change_combine x y) !! h = Some (change_combine c d)) as Hl
    by (cbn; by rewrite lookup_combine_changes, Hc, Hd).
  pose proof (produce_action_spec h (change_combine c d) base sequential Hbase (Hhandle _) Hcd) as Hp.
  split; [|split].
  - rewrite <- Hcd, <- apply_change_combine by (by rewrite (Permutation_app_comm (removed d))). by_count; lia.
  - exists (change_combine c d). split; [done|].
    destruct Hp as [?|[? He]]; [by left|right]. split; [done|]. by rewrite He.
  - intros actions Hr. destruct (compute_trie_actions_produce _ _ _ _ Hr Hl) as (act & Hin & Ha).
    exists act. split; [done|]. destruct Hp as [(act' & ? & ?)|[? _]]; congruence.
Qed.

End Changes.

(** ** Two produces on one channel *)
Lemma map_iter_none {Key V} `{!Ord Key} `{Countable Key} `{!OrdSpec Key} : map_iter (∅ : gmap Key V) = [].
Proof. by apply map_iter_nil. Qed.
Lemma map_iter_one {Key V} `{!Ord Key} `{Countable Key} `{!OrdSpec Key} (k : Key) (v : V) :
  map_iter (<[k := v]> (∅ : gmap Key V)) = [(k, v)].
Proof.
  apply Permutation_singleton_r. rewrite map_iter_perm, insert_empty. by rewrite map_to_list_singleton.
Qed.
Lemma fmap_const_iter (m : PSet) h :
  map_Forall (λ _ p, p_channels_hash p = h) m →
  (λ hp, p_channels_hash hp.2) <$> map_iter m = replicate (size m) h.
Proof.
  intros Hm. rewrite <- length_map_iter.
  assert (Forall (λ hp, p_channels_hash hp.2 = h) (map_iter m)) as Hf.
  { apply Forall_forall. intros [k p] Hk%elem_of_map_iter. apply (Hm _ _ Hk). }
  induction Hf as [|x l Hx _ IH]; [done|]. cbn. by rewrite Hx, IH.
Qed.

(** The log of two linear produces, with no mergeable channel. *)
Definition two_produces (p q : Produce) : EventLogIndex :=
  index_apply (λ _, false) (λ _, false) [EvProduce p; EvProduce q] ∅.

Lemma two_produces_affected p q :
  p_persistent p = false → p_persistent q = false →
  produces_affected (two_produces p q) = {[p_hash p := p]} ∪ {[p_hash q := q]} ∧
  consumes_affected (two_produces p q) = ∅.
Proof.
  intros Hp Hq. unfold two_produces, index_apply. cbn [foldl classify_event index_empty]. rewrite Hp, Hq.
  unfold add_produce, produces_affected, consumes_affected, produces_created_and_not_destroyed, produces_created,
    consumes_created_and_not_destroyed, consumes_created. cbn.
  by repeat rewrite ?map_difference_empty, ?map_empty_difference, ?map_filter_empty, ?map_union_empty, ?map_empty_union.
Qed.

(** C38: A deploy that leaves two data on an empty channel merges wrongly: the
    change of its log holds the data of the channel twice, as
    [StateChange::apply] adds the difference of the channel for each of the
    affected produces, and the action computed from it on the very state the
    deploy started from writes every datum twice. *)
Theorem two_produces_are_doubled create {C P A K} `{!Serialize C} (pre post : HistoryReaderBinary C P A K) p q h data
    (Hp : p_persistent p = false) (Hq : p_persistent q = false) (Hne : p_hash p ≠ p_hash q)
    (Hch : p_channels_hash p = h ∧ p_channels_hash q = h)
    (Hpre : hb_get_data pre h = Ok []) (Hpost : hb_get_data post h = Ok data) (Hdata : data ≠ []) :
  ∃ sc, state_change_apply create pre post (two_produces p q) = Ok sc ∧
  compute_trie_actions create sc pre ∅ (λ _ _ _, None) =
    Ok [TrieInsertBinaryProduce h ((raw <$> data) ++ (raw <$> data))].
Proof.
  destruct (two_produces_affected p q Hp Hq) as [Ha Hk]. destruct Hch as [Hph Hqh].
  unfold state_change_apply. rewrite Ha, Hk, (fmap_const_iter _ h).
  2:{ apply map_Forall_union_2; by apply map_Forall_singleton. }
  rewrite map_size_disj_union, !map_size_singleton by (by apply map_disjoint_singleton_l_2, lookup_singleton_ne).
  cbn [replicate Nat.add try_fold]. unfold diff_datums. rewrite Hpre, Hpost. cbn [read fmap list_fmap].
  unfold extend_change. rewrite lookup_empty, lookup_insert_eq, insert_insert_eq. cbn [default from_option id].
  assert (Hd : compute_value_change [] (raw <$> data) = mkChange (raw <$> data) []).
  { unfold compute_value_change, seq_diff. f_equal. clear. induction (raw <$> data) as [|x l IH]; [done|apply IH]. }
  rewrite Hd, change_combine_empty_l. unfold change_combine. cbn [added removed app].
  set (two := mkChange ((raw <$> data) ++ (raw <$> data)) []).
  assert (Hne2 : (raw <$> data) ++ (raw <$> data) ≠ []) by (by destruct data).
  unfold has_empty_change. rewrite map_iter_one, !map_iter_none. cbn [existsb snd fmap list_fmap try_fold fst].
  unfold is_empty_change at 1. cbn [added]. rewrite (bool_decide_eq_false_2 _ Hne2).
  rewrite map_iter_none. cbn [andb orb existsb]. eexists. split; [done|].
  unfold compute_trie_actions. cbn [kont_changes datums_changes]. rewrite map_iter_one, !map_iter_none.
  cbn [try_fold try_map produce_action snd fst]. rewrite Hpre. cbn [read fmap list_fmap].
  unfold mk_trie_action. change (apply_change [] two) with ((raw <$> data) ++ (raw <$> data)).
  rewrite (bool_decide_eq_false_2 _ Hne2), (bool_decide_eq_false_2 ([] = _ ++ _)) by congruence.
  cbn [andb negb try_fold]. by rewrite map_iter_none.
Qed.

(** ** The index of a log and of its parts *)
Section Parts.
Context (exists_in_pre touch : Produce → bool).
Notation classify := (classify_event exists_in_pre touch).

(** The union of all the sets. *)
Definition index_union (x y : EventLogIndex) : EventLogIndex :=
  mkIndex (produces_linear x ∪ produces_linear y) (produces_persistent x ∪ produces_persistent y)
    (produces_consumed x ∪ produces_consumed y) (produces_peeked x ∪ produces_peeked y)
    (produces_copied_by_peek x ∪ produces_copied_by_peek y)
    (produces_touching_base_joins x ∪ produces_touching_base_joins y)
    (consumes_linear_and_peeks x ∪ consumes_linear_and_peeks y) (consumes_persistent x ∪ consumes_persistent y)
    (consumes_produced x ∪ consumes_produced y) (produces_mergeable x ∪ produces_mergeable y)
    (consumes_mergeable x ∪ consumes_mergeable y) (number_channels_data x).

Lemma add_produces_union (a b : PSet) ps :
  foldl (λ s p, add_produce p s) (a ∪ b) ps = a ∪ foldl (λ s p, add_produce p s) b ps.
Proof.
  revert b. induction ps as [|p ps IH]; intros b; [done|]. cbn [foldl]. unfold add_produce at 2 4.
  by rewrite <- map_union_assoc, IH.
Qed.

Lemma classify_union i j e : classify (index_union i j) e = index_union i (classify j e).
Proof.
  destruct i, j, e as [c|p|c]; unfold index_union; cbn; unfold add_produce, add_consume.
  - case_bool_decide; rewrite <- ?map_union_assoc; f_equal; apply add_produces_union.
  - destruct (p_persistent p), (exists_in_pre p), (touch p); by rewrite <- ?map_union_assoc.
  - destruct (c_persistent c); by rewrite <- ?map_union_assoc.
Qed.

Lemma index_union_empty_r i : index_union i index_empty = i.
Proof. destruct i. unfold index_union. cbn. by rewrite !map_union_empty. Qed.

Lemma foldl_classify_union log i : foldl classify i log = index_union i (foldl classify index_empty log).
Proof.
  induction log as [|e log IH] using rev_ind; [by rewrite index_union_empty_r|].
  by rewrite !foldl_snoc, IH, classify_union.
Qed.

(** A produce is copied exactly when it exists in the state before. *)
Definition copied_ok (i : EventLogIndex) : Prop :=
  (∀ h p, produces_copied_by_peek i !! h = Some p → p_hash p = h ∧ exists_in_pre p = true) ∧
  (∀ h p, (produces_linear i ∪ produces_persistent i) !! h = Some p →
     p_hash p = h ∧ (exists_in_pre p = true → is_Some (produces_copied_by_peek i !! h))) ∧
  produces_mergeable i = ∅ ∧ consumes_mergeable i = ∅ ∧ number_channels_data i = ∅.

Lemma lookup_add_produce (p q : Produce) (s : PSet) (h : hash) : add_produce p s !! h = Some q → s !! h = Some q ∨ (p_hash p = h ∧ q = p).
Proof.
  unfold add_produce. rewrite lookup_union_Some_raw, lookup_singleton_Some. naive_solver.
Qed.
Lemma add_produce_mono (p : Produce) (s : PSet) (h : hash) : is_Some (s !! h) → is_Some (add_produce p s !! h).
Proof. intros [q Hq]. exists q. by apply lookup_union_Some_l. Qed.
Lemma add_produce_own (p : Produce) (s : PSet) : is_Some (add_produce p s !! p_hash p).
Proof. unfold add_produce. rewrite lookup_union_is_Some, lookup_singleton_eq. eauto. Qed.

Lemma copied_ok_classify i e : copied_ok i → copied_ok (classify i e).
Proof.
  destruct i as [li pe co pk cp to kl kp kr pm cm nu], e as [c|p|c]; unfold copied_ok; cbn; intros (Hc & Hl & Hm); [done| |done].
  split_and!; try apply Hm.
  - intros h q Hq. destruct (exists_in_pre p) eqn:Hp; [|by apply Hc].
    apply lookup_add_produce in Hq as [Hq|[<- ->]]; [by apply Hc|done].
  - intros h q Hq. assert ((li ∪ pe) !! h = Some q ∨ (p_hash p = h ∧ q = p)) as [Ho|[<- ->]].
    { destruct (p_persistent p); apply lookup_union_Some_raw in Hq as [Hq|[Hn Hq]].
      - left. by apply lookup_union_Some_l.
      - apply lookup_add_produce in Hq as [Hq|]; [left; by rewrite lookup_union_r|by right].
      - apply lookup_add_produce in Hq as [Hq|]; [left; by apply lookup_union_Some_l|by right].
      - left. rewrite lookup_union_r; [done|]. unfold add_produce in Hn. by apply lookup_union_None in Hn as [??]. }
    + destruct (Hl _ _ Ho) as [Hh Hex]. split; [done|]. intros Ht. apply Hex in Ht.
      destruct (exists_in_pre p); [by apply add_produce_mono|done].
    + split; [done|]. intros ->. apply add_produce_own.
Qed.

Lemma copied_ok_log log : copied_ok (foldl classify index_empty log).
Proof.
  induction log as [|e log IH] using rev_ind; [|rewrite foldl_snoc; by apply copied_ok_classify].
  split_and!; try done; intros h p; cbn; by rewrite ?map_union_empty, lookup_empty.
Qed.

(** Without mergeable channels, the index is the classification of the log. *)
Lemma index_apply_plain log : index_apply exists_in_pre touch log ∅ = foldl classify index_empty log.
Proof.
  unfold index_apply. destruct (copied_ok_log log) as (_ & _ & Hpm & Hcm & Hn).
  destruct (foldl _ _ _). cbn in *. subst. f_equal.
  - apply map_empty. intros h. apply map_lookup_filter_None_2. right. intros q _. cbn. by rewrite bool_decide_eq_false_2 by (rewrite lookup_empty; by intros [??]).
  - apply map_empty. intros h. apply map_lookup_filter_None_2. right. intros c _. cbn. intros (x & _ & Hx)%existsb_exists.
    apply bool_decide_eq_true in Hx. rewrite lookup_empty in Hx. by destruct Hx.
Qed.

Context (by_hash : ∀ p q, p_hash p = p_hash q → exists_in_pre p = exists_in_pre q).

Lemma created_not_copied x y h :
  copied_ok x → copied_ok y → is_Some (produces_copied_by_peek x !! h) → produces_created y !! h = None.
Proof.
  intros [Hx _] (_ & Hy & _) [p Hp]. unfold produces_created. apply lookup_difference_None.
  destruct ((produces_linear y ∪ produces_persistent y) !! h) as [q|] eqn:Hq; [right|by left].
  destruct (Hx _ _ Hp) as [Hph Ht], (Hy _ _ Hq) as [Hqh Hk]. apply Hk. rewrite <- Ht. apply by_hash. congruence.
Qed.

(** The index of a log is the combination of the indices of its parts, so
    the index of a chain of deploys, combined from the indices of its deploys,
    is the index of their logs taken together. *)
Theorem index_of_parts l1 l2 :
  index_apply exists_in_pre touch (l1 ++ l2) ∅ =
  index_combine (index_apply exists_in_pre touch l1 ∅) (index_apply exists_in_pre touch l2 ∅).
Proof.
  rewrite !index_apply_plain, foldl_app, foldl_classify_union.
  pose proof (copied_ok_log l1) as Hx. pose proof (copied_ok_log l2) as Hy.
  set (x := foldl classify index_empty l1) in *. set (y := foldl classify index_empty l2) in *.
  unfold index_union, index_combine. f_equal.
  - apply map_eq. intros h. unfold combine_produces_copied_by_peek. rewrite lookup_difference.
    destruct ((produces_created x ∪ produces_created y) !! h) as [p|] eqn:Hcr; [|done].
    destruct ((produces_copied_by_peek x ∪ produces_copied_by_peek y) !! h) as [q|] eqn:Hk; [|done].
    apply mk_is_Some, lookup_union_is_Some in Hk. assert (produces_created x !! h = None ∧ produces_created y !! h = None) as [H1 H2].
    { destruct Hk as [Hk|Hk]; split; (eapply created_not_copied; [| |exact Hk]; done). }
    by rewrite lookup_union, H1, H2 in Hcr.
  - destruct Hx as (_ & _ & _ & _ & ->), Hy as (_ & _ & _ & _ & ->). by rewrite add_diffs_empty_r.
Qed.
End Parts.

(** ** Examples *)
Module MergerExample.

#[local] Instance bytes_serialize : Serialize (list byte) := { ser_encode := id; ser_decode := Some }.
Definition create : list byte → hash := id.
Definition ch : hash := [x01].
Definition p1 : Produce := mkProduce ch [x11] false.
Definition p2 : Produce := mkProduce ch [x12] false.
Definition k1 : Consume := mkConsume [ch] [x21] false.
Definition in_pre (p : Produce) : bool := bool_decide (p_hash p = [x11]).
Definition datum (b : byte) : @DatumB unit := mkWithRaw (mkDatum () false p1) [b].
Definition reader (data : list (@DatumB unit)) : HistoryReaderBinary (list byte) unit unit unit :=
  mkBinary (λ h, Ok (if decide (h = ch) then data else [])) (λ _, Ok []) (λ _, Ok []).
Definition idx1 : EventLogIndex := index_apply (λ _, false) (λ _, false) [EvProduce p1] {[ch := 5]}.
Definition idx2 : EventLogIndex := index_apply (λ _, false) (λ _, false) [EvConsume k1] {[ch := -2]}.

Lemma idx_ok : index_ok idx1 ∧ index_ok idx2.
Proof. split; apply map_Forall_singleton; unfold_ints; lia. Qed.

Lemma merge_is_a_commutative_monoid_witness :
  index_ok idx1 ∧ index_ok idx2 ∧ index_combine idx1 idx2 ≡ index_combine idx2 idx1.
Proof.
  destruct idx_ok as [H1 H2]. split_and!; [exact H1|exact H2|].
  apply (merge_is_a_commutative_monoid idx1 idx2 index_empty H1 H2).
Defined.

Lemma conflicts_exactly_witness : are_conflicting idx1 idx2 = true ∧ are_conflicting idx2 idx1 = true.
Proof.
  assert (same_events idx1 idx2) as Hs by (split; intros ??? H; vm_compute in H; discriminate H).
  destruct (conflicts_exactly idx1 idx2 Hs) as [_ <-]. split; vm_compute; reflexivity.
Defined.

Lemma index_of_parts_witness :
  index_apply in_pre (λ _, false) [EvProduce p1; EvProduce p2] ∅ =
  index_combine (index_apply in_pre (λ _, false) [EvProduce p1] ∅) (index_apply in_pre (λ _, false) [EvProduce p2] ∅).
Proof.
  apply (index_of_parts in_pre (λ _, false)) with (l1 := [EvProduce p1]) (l2 := [EvProduce p2]).
  intros p q Hpq. unfold in_pre. by rewrite Hpq.
Defined.

Lemma two_produces_are_doubled_witness :
  ∃ sc, state_change_apply create (reader []) (reader [datum x31; datum x32]) (two_produces p1 p2) = Ok sc ∧
  compute_trie_actions create sc (reader []) ∅ (λ _ _ _, None) =
    Ok [TrieInsertBinaryProduce ch [[x31]; [x32]; [x31]; [x32]]].
Proof.
  apply (two_produces_are_doubled create (reader []) (reader [datum x31; datum x32]) p1 p2 ch [datum x31; datum x32]);
    done.
Defined.

(** The log of one produce. *)
Definition one_produce : EventLogIndex := index_apply (λ _, false) (λ _, false) [EvProduce p1] ∅.
Definition one_change : StateChange := mkStateChange {[ch := mkChange [[x32]] []]} ∅ ∅.

Lemma state_change_per_produce_witness :
  affected_on one_produce ch = 1%nat ∧
  ∃ change, datums_changes one_change !! ch = Some change ∧ apply_change [[x31]] change ≡ₚ [[x31]; [x32]].
Proof.
  assert (affected_on one_produce ch = 1%nat) as H1 by (vm_compute; reflexivity). split; [done|].
  apply (state_change_per_produce create (reader [datum x31]) (reader [datum x31; datum x32]) one_produce one_change ch
    [datum x31] [datum x31; datum x32]); [vm_compute; reflexivity..|exact H1].
Defined.

Definition change_a : StateChange := mkStateChange {[ch := mkChange [[x33]] [[x31]]]} ∅ ∅.
Definition change_b : StateChange := mkStateChange {[ch := mkChange [] [[x32]]]} ∅ ∅.

Lemma merged_branches_replay_witness :
  compute_trie_actions create (state_change_combine change_a change_b) (reader [datum x31; datum x32]) ∅
    (λ _ _ _, None) = Ok [TrieInsertBinaryProduce ch [[x33]]] ∧
  ∃ act, act ∈ [TrieInsertBinaryProduce ch [[x33]]] ∧ sets_data (C := list byte) (P := unit) (A := unit) (K := unit) ch [[x33]] act.
Proof.
  assert (compute_trie_actions create (state_change_combine change_a change_b) (reader [datum x31; datum x32]) ∅
    (λ _ _ _, None) = Ok [TrieInsertBinaryProduce ch [[x33]]]) as Hr by (vm_compute; reflexivity).
  split; [exact Hr|].
  apply (merged_branches_replay create (reader [datum x31; datum x32]) ∅ (λ _ _ _, None) change_a change_b ch
    (mkChange [[x33]] [[x31]]) (mkChange [] [[x32]]) [datum x31; datum x32]);
    [vm_compute; reflexivity..|reflexivity|reflexivity|exact Hr].
Defined.
End MergerExample.
