(* ===== verification/HistorySpec.v ===== *)
(** * Checkpoints keep the contents

    The history repository refines a map from keys to leaves ([repo_rep]): a
    checkpoint applies its actions to the map, a reader looks the map up, and a
    recorded root can be opened again.  With the encodings of the rows this
    gives that a tuple space shows the same contents after a checkpoint.

    Digests have 32 bytes, so that two byte strings can have the same one; the
    hypotheses say that this is not the case for the byte strings at hand. *)

From S2P Require Import Prelude BTree Bytes RadixCodec RadixTree RadixTreeSpec RadixHistory Trace HotStore Scodec.
From S2P Require Import NativeStore SpaceMatcher RSpace HistoryRepository.

Section Repository.
Context (create : list byte → hash).
Context (create_length : ∀ b, length (create b) = 32%nat).
Notation Leaves := (list byte → option PersistedData).

(** ** The map of leaves *)
Definition LeafAction : Type := (byte * hash) * option PersistedData.
Definition leaf_action (la : LeafAction) : ColdAction * HistoryAction :=
  match la.2 with
  | Some leaf => insert_leaf create la.1.1 la.1.2 leaf
  | None => delete_leaf la.1.1 la.1.2
  end.
Definition leaf_key (la : LeafAction) : list byte := key_segment la.1.1 la.1.2.
Definition apply_leaf (f : Leaves) (la : LeafAction) : Leaves := λ k,
  if decide (k = leaf_key la) then la.2 else f k.
Definition apply_leaves (f : Leaves) (las : list LeafAction) : Leaves := foldl apply_leaf f las.

Definition leaf_fits (leaf : PersistedData) : Prop := fits (length (leaf_bytes leaf)) 64.

(** The leaves [s] hold what the hashes of [m] stand for. *)
Definition leaves_at (s : gmap hash (list byte)) (m : contents) (f : Leaves) : Prop := ∀ k,
  match m k with
  | None => f k = None
  | Some h => ∃ leaf, f k = Some leaf ∧ s !! h = Some (encode_persisted_data leaf) ∧ leaf_fits leaf
  end.

Record repo_rep (repo : HistoryRepository) (f : Leaves) : Prop := {
  rr_history : ∃ m, history_rep create 32 (radix repo) (current_history repo) m ∧
    leaves_at (leaf_store repo) m f;
  rr_open : openable create (radix repo) (current_history repo);
}.

Lemma leaves_at_mono s s' m f : s ⊆ s' → leaves_at s m f → leaves_at s' m f.
Proof.
  intros Hs Hl k. specialize (Hl k). destruct (m k) as [h|]; [|done].
  destruct Hl as (leaf & Hf & Hk & Hfit). exists leaf. split_and!; [done| |done]. by eapply lookup_weaken.
Qed.

Lemma apply_leaves_out f las k : k ∉ leaf_key <$> las → apply_leaves f las k = f k.
Proof.
  unfold apply_leaves. revert f. induction las as [|la las IH]; intros f Hk; [done|]. simpl.
  rewrite fmap_cons, not_elem_of_cons in Hk. destruct Hk as [Hne Hk]. rewrite IH by done.
  unfold apply_leaf. by rewrite decide_False.
Qed.
Lemma apply_leaves_in f las la :
  NoDup (leaf_key <$> las) → la ∈ las → apply_leaves f las (leaf_key la) = la.2.
Proof.
  unfold apply_leaves. revert f. induction las as [|la' las IH]; intros f Hnd Hin; [by apply elem_of_nil in Hin|].
  rewrite fmap_cons, NoDup_cons in Hnd. destruct Hnd as [Hn Hnd]. simpl.
  apply elem_of_cons in Hin as [->|Hin]; [|by apply IH].
  rewrite (apply_leaves_out _ las) by done. unfold apply_leaf. by rewrite decide_True.
Qed.

(** ** Recording roots *)
Lemma root_committed (root : hash) (s : RootsStore) : is_Some (root_commit root s !! root).
Proof. unfold root_commit, record_root. rewrite !lookup_insert_is_Some'. auto. Qed.
Lemma root_commit_keeps (root root' : hash) (s : RootsStore) :
  is_Some (s !! root') → is_Some (root_commit root s !! root').
Proof. unfold root_commit, record_root. rewrite !lookup_insert_is_Some'. auto. Qed.

(** ** Writing leaves *)

(** No two leaves at hand have the same digest. *)
Definition leaves_clean (s : gmap hash (list byte)) (cold : list (hash * PersistedData)) : Prop :=
  ∀ kv, kv ∈ cold →
    (∀ b, s !! kv.1 = Some b → b = encode_persisted_data kv.2) ∧
    ∀ kv', kv' ∈ cold → kv'.1 = kv.1 → encode_persisted_data kv'.2 = encode_persisted_data kv.2.

Lemma foldl_put_lookup (l : list (hash * PersistedData)) (s : gmap hash (list byte)) k v :
  (∀ kv, kv ∈ l → kv.1 = k → encode_persisted_data kv.2 = v) →
  s !! k = Some v ∨ (∃ kv, kv ∈ l ∧ kv.1 = k) →
  foldl (λ s kv, <[kv.1 := encode_persisted_data kv.2]> s) s l !! k = Some v.
Proof.
  revert s. induction l as [|kv l IH]; intros s Hv Hor.
  { destruct Hor as [?|(kv & Hin & _)]; [done|]. by apply elem_of_nil in Hin. }
  simpl. apply IH; [intros; apply Hv; [by right|done]|].
  destruct (decide (kv.1 = k)) as [<-|Hne].
  - left. rewrite lookup_insert_eq. f_equal. apply Hv; [by left|done].
  - rewrite lookup_insert_ne by done. destruct Hor as [?|(kv' & Hin & Hk)]; [by left|].
    apply elem_of_cons in Hin as [->|Hin]; [done|]. right. eauto.
Qed.

Lemma zip_fmap_self {X Y} (g : X → Y) (l : list X) : zip l (g <$> l) = (λ x, (x, g x)) <$> l.
Proof. induction l as [|x l IH]; [done|]. simpl. f_equal. exact IH. Qed.

Lemma elem_of_absent (cold : list (hash * PersistedData)) (s : gmap hash (list byte)) kv :
  kv ∈ (filter (λ p, p.2 = false)
    (zip cold ((λ kv : hash * PersistedData, bool_decide (is_Some (s !! kv.1))) <$> cold))).*1 ↔
  kv ∈ cold ∧ s !! kv.1 = None.
Proof.
  rewrite zip_fmap_self, list_elem_of_fmap. split.
  - intros (p & -> & Hp). apply list_elem_of_filter in Hp as [Hf (kv' & -> & Hin)%list_elem_of_fmap].
    simpl in *. apply bool_decide_eq_false in Hf. split; [done|]. by apply eq_None_not_Some.
  - intros [Hin Hn]. exists (kv, false). split; [done|]. apply list_elem_of_filter. split; [done|].
    apply list_elem_of_fmap. exists kv. split; [|done]. f_equal. symmetry. apply bool_decide_eq_false.
    by apply eq_None_not_Some.
Qed.

Lemma put_leaves_mono cold s : s ⊆ put_leaves cold s.
Proof.
  apply map_subseteq_spec. intros k b Hb. apply foldl_put_lookup; [|by left].
  intros kv [_ Hn]%elem_of_absent <-. simplify_eq.
Qed.

Lemma put_leaves_lookup cold s kv :
  leaves_clean s cold → kv ∈ cold → put_leaves cold s !! kv.1 = Some (encode_persisted_data kv.2).
Proof.
  intros Hc Hin. destruct (s !! kv.1) as [b|] eqn:E.
  - rewrite <- (proj1 (Hc kv Hin) b E). eapply lookup_weaken; [exact E|apply put_leaves_mono].
  - apply foldl_put_lookup.
    + intros kv' [Hin' _]%elem_of_absent Hk. by apply (proj2 (Hc kv Hin)).
    + right. exists kv. split; [|done]. by apply elem_of_absent.
Qed.

Lemma apply_leaves_at s m f las :
  (∀ la leaf, la ∈ las → la.2 = Some leaf →
    s !! create (encode_persisted_data leaf) = Some (encode_persisted_data leaf) ∧ leaf_fits leaf) →
  leaves_at s m f → leaves_at s (apply_actions m (leaf_action <$> las).*2) (apply_leaves f las).
Proof.
  revert m f. induction las as [|la las IH]; intros m f Hs Hl; [done|]. simpl. unfold apply_leaves, apply_actions.
  simpl. apply IH; [intros; apply (Hs la0); [by right|done]|]. intros k. unfold apply_act, RadixTreeSpec.upd, apply_leaf, leaf_key.
  destruct la as [[p key] [leaf|]]; simpl.
  - destruct (decide (k = key_segment p key)) as [->|Hne]; [|exact (Hl k)].
    exists leaf. split; [done|]. apply (Hs (p, key, Some leaf)); [by left|done].
  - destruct (decide (k = key_segment p key)) as [->|Hne]; [done|exact (Hl k)].
Qed.

(** ** Checkpoints *)
Definition no_collision (h : RadixTree.RadixHistory) (l : list HistoryAction) (t : RadixTree.RadixTreeImpl) : Prop :=
  (∀ t1, RadixTree.make_actions create (RadixTree.root_node h) l t = RadixTree.Done None t1 → clean t1) ∧
  match RadixTree.process create h l t with
  | RadixTree.Done _ t' => clean t'
  | RadixTree.Panic r t' => clean t' ∧ ¬ is_collision r
  | RadixTree.NoFuel => True
  end.

Record batch_ok (repo : HistoryRepository) (las : list LeafAction) : Prop := {
  bo_keys : NoDup (leaf_key <$> las);
  bo_length : ∀ la, la ∈ las → length la.1.2 = 32%nat;
  bo_fits : ∀ la leaf, la ∈ las → la.2 = Some leaf → leaf_fits leaf;
  bo_leaves : leaves_clean (leaf_store repo) (omap cold_leaf (leaf_action <$> las));
  bo_tree : no_collision (current_history repo) (leaf_action <$> las).*2 (radix repo);
}.

(** The state of root [root] is stored: it can be opened, and has leaves [f]. *)
Definition stored (repo : HistoryRepository) (h : RadixTree.RadixHistory) (f : Leaves) : Prop :=
  ∃ m, history_rep create 32 (radix repo) h m ∧ known create (radix repo) (RadixTree.root_node h) ∧
    leaves_at (leaf_store repo) m f.

Lemma action_key_leaf la : action_key (leaf_action la).2 = leaf_key la.
Proof. by destruct la as [[p k] [leaf|]]. Qed.

Lemma batch_actions_ok repo las : batch_ok repo las → actions_ok 33 (leaf_action <$> las).*2.
Proof.
  intros [Hk Hl _ _ _]. split.
  - intros a (x & -> & (la & -> & Hin)%list_elem_of_fmap)%list_elem_of_fmap.
    rewrite action_key_leaf. unfold leaf_key, key_segment. simpl. by rewrite Hl.
  - rewrite <- !list_fmap_compose. rewrite (list_fmap_ext _ leaf_key); [done|]. intros i la _. apply action_key_leaf.
  - intros a v (x & -> & (la & -> & Hin)%list_elem_of_fmap)%list_elem_of_fmap.
    destruct la as [[q k] [leaf|]]; simpl; [|done]. intros [= <-]. apply create_length.
Qed.

Lemma batch_leaves repo las la leaf :
  batch_ok repo las → la ∈ las → la.2 = Some leaf →
  put_leaves (omap cold_leaf (leaf_action <$> las)) (leaf_store repo) !! create (encode_persisted_data leaf) =
    Some (encode_persisted_data leaf).
Proof.
  intros [_ _ _ Hc _] Hin E.
  apply (put_leaves_lookup _ _ (create (encode_persisted_data leaf), leaf) Hc).
  apply list_elem_of_omap. exists (leaf_action la). split; [by apply list_elem_of_fmap_2|].
  unfold leaf_action. by rewrite E.
Qed.

Lemma checkpoint_rep {C P A K} `{!Serialize C, !Serialize P, !Serialize A, !Serialize K}
    (trie : list (@HotStoreTrieAction C P A K)) native las repo f :
  (calculate_storage_action create <$> trie) ++ (calculate_native_storage_action create <$> native) =
    leaf_action <$> las →
  repo_rep repo f → batch_ok repo las →
  ∃ repo', do_checkpoint_with_native create trie native repo = (repo', Ok ()) ∧
    repo_rep repo' (apply_leaves f las) ∧
    roots repo' = root_commit (RadixTree.root_hash (current_history repo')) (roots repo) ∧
    ∀ h g, stored repo h g → stored repo' h g.
Proof.
  intros Ea [(m & Hh & Hl) Hop] Hb. pose proof (batch_actions_ok _ _ Hb) as Hact.
  unfold do_checkpoint_with_native. rewrite Ea. set (leaves := put_leaves _ _).
  assert (leaf_store repo ⊆ leaves) as Hmono by apply put_leaves_mono.
  pose proof (process_outcome create create_length 32 _ _ m _ ltac:(lia) Hh Hact) as Ho. revert Ho.
  destruct (bo_tree _ _ Hb) as [Hsame Hcl]. revert Hcl.
  destruct (RadixTree.process create (current_history repo) (leaf_action <$> las).*2 (radix repo))
    as [[h'|e] t'|r t'|] eqn:E; [|done|by intros [? ?] Hc; destruct H0; apply Hc|done].
  intros _ _.
  destruct (process_ok create create_length 32 _ _ m _ h' t' ltac:(lia) Hh Hact E Hsame) as [Hr Hold].
  destruct (process_opens create create_length 32 _ _ m _ h' t' ltac:(lia) Hh Hact Hop E) as [Hst Hop'].
  eexists. split; [done|]. split_and!; [|done|].
  - split; [|done]. exists (apply_actions m (leaf_action <$> las).*2). split; [done|]. simpl.
    apply apply_leaves_at; [|by eapply leaves_at_mono].
    intros la leaf Hin El. split; [by apply (batch_leaves repo las la)|by eapply bo_fits].
  - intros h g (mg & Hg & Hk & Hlg). exists mg. simpl. split_and!; [by apply Hold| |by eapply leaves_at_mono].
    eapply known_store; [exact Hst|apply (hr_write _ _ _ _ _ Hh)|exact Hk].
Qed.

(** A checkpointed state other than the empty one is stored. *)
Lemma repo_stored repo f :
  repo_rep repo f → RadixTree.root_node (current_history repo) ≠ RadixNode.empty_node → stored repo (current_history repo) f.
Proof. intros [(m & Hh & Hl) [Hk|[? _]]] Hne; [|done]. by exists m. Qed.

Lemma repo_reset_stored repo h f :
  stored repo h f → is_Some (roots repo !! RadixTree.root_hash h) →
  ∃ repo', repo_reset (RadixTree.root_hash h) repo = (repo', Ok ()) ∧ repo_rep repo' f ∧ current_history repo' = h ∧
    ∀ h' g, stored repo h' g → stored repo' h' g.
Proof.
  intros (m & Hh & Hk & Hl) [x Hx].
  destruct (history_opens create 32 _ _ _ Hh (or_introl Hk)) as (t' & Er & Hr & Hst).
  unfold repo_reset, validate_and_set_current_root, roots_validate_and_set_current_root. rewrite Hx, Er.
  eexists. split; [done|]. split_and!; [|done|].
  - split; [by exists m|]. left. simpl. eapply known_store; [|apply (hr_write _ _ _ _ _ Hh)|exact Hk]. by rewrite Hst.
  - intros h' g (m' & Hh' & Hk' & Hl'). exists m'. simpl. split_and!; [| |done].
    + pose proof Hr as [Hok Hw _ _]. pose proof Hh' as [_ Hw' Hn' Hhash']. split; [done|done| |done].
      eapply node_rep_mono; [|exact Hn']. intros n. apply known_store; [by rewrite Hst|done].
    + eapply known_store; [|apply (hr_write _ _ _ _ _ Hh)|exact Hk']. by rewrite Hst.
Qed.

(** ** Readers *)
Lemma open_reader_reads repo f :
  repo_rep repo f →
  ∃ r, open_reader repo (RadixTree.root_hash (current_history repo)) = Ok r ∧
    ∀ p k, length k = 32%nat → fetch_data r p k = Ok (f (key_segment p k)).
Proof.
  intros [(m & Hh & Hl) Hop]. destruct (history_opens create 32 _ _ _ Hh Hop) as (t' & Er & Hr & Hst).
  unfold open_reader. rewrite Er. eexists. split; [done|]. intros p k Hk. unfold fetch_data. simpl.
  destruct (history_reads create 32 _ _ _ (key_segment p k) Hr) as (t'' & -> & _); [simpl; lia|].
  specialize (Hl (key_segment p k)). destruct (m (key_segment p k)) as [h|]; [|by rewrite Hl].
  destruct Hl as (leaf & -> & -> & Hf). by rewrite persisted_data_roundtrip.
Qed.
End Repository.

Section Contents.
Context (create : list byte → hash).
Context (create_length : ∀ b, length (create b) = 32%nat).
Context {C P A K : Type} `{!Ord C} `{Countable C}.
Context `{!Serialize C, !Serialize P, !Serialize A, !Serialize K}.
Context `{!SerializeSpec C, !SerializeSpec P, !SerializeSpec A, !SerializeSpec K}.
Notation WC := (WaitingContinuation P K).
Notation Leaves := (list byte → option PersistedData).
Notation Space := (@RSpace C P A K HistoryRepository _ _).
#[local] Instance history_ops : HistoryOps HistoryRepository C P A K := repository_history create.

(** ** The actions of a checkpoint as leaves *)
Definition storage_leaf (a : HotStoreAction C P A K) : LeafAction :=
  match a with
  | InsertData c l => ((PREFIX_DATUM, hash_channel create c), Some (DataLeaf (encode_datums l)))
  | InsertContinuations cs l =>
      ((PREFIX_KONT, hash_channels create cs), Some (ContinuationsLeaf (encode_continuations l)))
  | InsertJoins c l => ((PREFIX_JOINS, hash_channel create c), Some (JoinsLeaf (encode_joins l)))
  | DeleteData c => ((PREFIX_DATUM, hash_channel create c), None)
  | DeleteContinuations cs => ((PREFIX_KONT, hash_channels create cs), None)
  | DeleteJoins c => ((PREFIX_JOINS, hash_channel create c), None)
  end.
Definition native_leaf (a : NativeStoreAction) : LeafAction :=
  match a with
  | NativePut p k v => ((p, k), Some (NativeLeaf v))
  | NativeDelete p k => ((p, k), None)
  end.
Definition space_leaves (s : Space) : list LeafAction :=
  (storage_leaf <$> changes (rs_store s)) ++ (native_leaf <$> (drain_changes (native_store s)).2).

Lemma space_leaves_actions s :
  (calculate_storage_action create <$> (transform create <$> changes (rs_store s))) ++
  (calculate_native_storage_action create <$> (drain_changes (native_store s)).2) =
  leaf_action create <$> space_leaves s.
Proof.
  unfold space_leaves. rewrite fmap_app. f_equal.
  - rewrite <- !list_fmap_compose. apply list_fmap_ext. by intros i [] _.
  - rewrite <- list_fmap_compose. apply list_fmap_ext. by intros i [] _.
Qed.

(** ** Reading rows from leaves *)
Definition leaf_data (o : option PersistedData) : Result (list (Datum A)) RSpaceError :=
  match o with Some (DataLeaf b) => row (decode_datums b) | Some _ => Err UnexpectedLeaf | None => Ok [] end.
Definition leaf_conts (o : option PersistedData) : Result (list WC) RSpaceError :=
  match o with
  | Some (ContinuationsLeaf b) => row (decode_continuations b) | Some _ => Err UnexpectedLeaf | None => Ok []
  end.
Definition leaf_joins (o : option PersistedData) : Result (list (list C)) RSpaceError :=
  match o with Some (JoinsLeaf b) => row (decode_joins b) | Some _ => Err UnexpectedLeaf | None => Ok [] end.
Definition leaf_native (o : option PersistedData) : Result (option (list byte)) NativeError :=
  match o with Some (NativeLeaf b) => Ok (Some b) | Some _ => Err NativeReadFailed | None => Ok None end.

(** The readers of a space show the leaves [f]. *)
Record reads_leaves (r : HistoryReaderBase C P A K) (nr : NativeReader) (f : Leaves) : Prop := {
  rl_data c : rd_data r c = leaf_data (f (key_segment PREFIX_DATUM (hash_channel create c)));
  rl_conts cs : rd_continuations r cs = leaf_conts (f (key_segment PREFIX_KONT (hash_channels create cs)));
  rl_joins c : rd_joins r c = leaf_joins (f (key_segment PREFIX_JOINS (hash_channel create c)));
  rl_native p k : length k = 32%nat → nr p k = leaf_native (f (key_segment p k));
}.

Lemma readers_read repo f :
  repo_rep create repo f →
  ∃ r nr, get_history_reader create repo (RadixTree.root_hash (current_history repo)) = Ok r ∧
    get_native_reader repo (RadixTree.root_hash (current_history repo)) = Ok nr ∧ reads_leaves r nr f.
Proof.
  intros Hr. destruct (open_reader_reads create repo f Hr) as (r & E & Hf).
  unfold get_history_reader, get_native_reader. rewrite E. eexists _, _. split; [done|]. split; [done|].
  split; simpl; [intros c|intros cs|intros c|intros p k Hk].
  - unfold reader_get_data. rewrite Hf by apply create_length. done.
  - unfold reader_get_continuations. rewrite Hf by apply create_length. done.
  - unfold reader_get_joins. rewrite Hf by apply create_length. done.
  - unfold reader_get_native. rewrite Hf by done. by destruct (f _) as [[]|].
Qed.

(** A space over the leaves [f]. *)
Record space_at (s : Space) (f : Leaves) : Prop := {
  sa_repo : repo_rep create (history_repository s) f;
  sa_readers : reads_leaves (reader_base (rs_store s)) (native_reader (native_store s)) f;
  sa_readable : readable (reader_base (rs_store s));
}.

(** What can be checkpointed: the rows fit their encodings, and no digests
    collide.  Two joins on the same channels in a different order have the same
    digest. *)
Record checkpointable (s : Space) : Prop := {
  ck_batch : batch_ok create (history_repository s) (space_leaves s);
  ck_data c l : data (hs_state (rs_store s)) !! c = Some l → data_row_ok l;
  ck_conts cs l : continuations (hs_state (rs_store s)) !! cs = Some l → conts_row_ok l;
  ck_joins c l : joins (hs_state (rs_store s)) !! c = Some l → fits (length l) 32 ∧ Forall join_ok l;
  ck_native p k v : overlay (native_store s) !! (p, k) = Some v → p ∉ [PREFIX_DATUM; PREFIX_KONT; PREFIX_JOINS];
}.

(** ** The leaves of a checkpoint *)
Definition row_leaf {X} (p : byte) (h : hash) (l : list X) (leaf : PersistedData) : LeafAction :=
  ((p, h), match l with [] => None | _ => Some leaf end).

Lemma elem_of_space_leaves s la :
  la ∈ space_leaves s ↔
  (∃ cs l, continuations (hs_state (rs_store s)) !! cs = Some l ∧
     la = row_leaf PREFIX_KONT (hash_channels create cs) l (ContinuationsLeaf (encode_continuations l))) ∨
  (∃ c l, data (hs_state (rs_store s)) !! c = Some l ∧
     la = row_leaf PREFIX_DATUM (hash_channel create c) l (DataLeaf (encode_datums l))) ∨
  (∃ c l, joins (hs_state (rs_store s)) !! c = Some l ∧
     la = row_leaf PREFIX_JOINS (hash_channel create c) l (JoinsLeaf (encode_joins l))) ∨
  (∃ p k v, overlay (native_store s) !! (p, k) = Some v ∧ la = ((p, k), NativeLeaf <$> v)).
Proof.
  unfold space_leaves, changes, drain_changes. cbn [snd]. rewrite !fmap_app, !elem_of_app, <- !list_fmap_compose, !list_elem_of_fmap.
  unfold compose. split.
  - intros [[([k v] & -> & Hin)|[([k v] & -> & Hin)|([k v] & -> & Hin)]]|([[p k] v] & -> & Hin)];
      apply elem_of_map_iter in Hin; [left|right; left|right; right; left|right; right; right]; eexists _, _;
      [split; [exact Hin|by destruct v].. |]. eexists. split; [exact Hin|by destruct v].
  - intros [(k & v & Hk & ->)|[(k & v & Hk & ->)|[(k & v & Hk & ->)|(p & k & v & Hk & ->)]]];
      apply elem_of_map_iter in Hk; [left; left|left; right; left|left; right; right|right];
      eexists; (split; [|exact Hk]); by destruct v.
Qed.

Lemma leaf_after s f p h :
  checkpointable s →
  (∃ o, ((p, h), o) ∈ space_leaves s ∧ apply_leaves f (space_leaves s) (key_segment p h) = o) ∨
  ((∀ o, ((p, h), o) ∉ space_leaves s) ∧ apply_leaves f (space_leaves s) (key_segment p h) = f (key_segment p h)).
Proof.
  intros Hck. pose proof (bo_keys _ _ _ (ck_batch s Hck)) as Hnd.
  destruct (decide (key_segment p h ∈ leaf_key <$> space_leaves s)) as [Hin|Hout].
  - left. apply list_elem_of_fmap in Hin as (la & E & Hin). destruct la as [[p' h'] o].
    unfold leaf_key, key_segment in E. simpl in E. simplify_eq. exists o. split; [done|].
    exact (apply_leaves_in f _ ((p', h'), o) Hnd Hin).
  - right. split; [|by apply apply_leaves_out]. intros o Hin. apply Hout.
    apply list_elem_of_fmap. by exists ((p, h), o).
Qed.

(** What the rows of a channel are after the checkpoint. *)
Lemma data_after s f c :
  checkpointable s →
  let o := apply_leaves f (space_leaves s) (key_segment PREFIX_DATUM (hash_channel create c)) in
  (∃ c' l l', data (hs_state (rs_store s)) !! c' = Some l ∧ hash_channel create c' = hash_channel create c ∧
     leaf_data o = Ok l' ∧ l' ≡ₚ l) ∨
  (data (hs_state (rs_store s)) !! c = None ∧ o = f (key_segment PREFIX_DATUM (hash_channel create c))).
Proof.
  intros Hck o. destruct (leaf_after s f PREFIX_DATUM (hash_channel create c) Hck) as [(o' & Hin & E)|[Hout E]].
  - left. fold o in E. rewrite E.
    apply elem_of_space_leaves in Hin as [(?&?&?&[=])|[(c' & l & Hl & [= E' ->])|[(?&?&?&[=])|(p&k&v&Hv&[= <- <- ->])]]].
    + exists c', l. destruct (decode_encode_datums l (ck_data s Hck c' l Hl)) as (l' & Hp & Hd).
      destruct l as [|d l]; [exists []; split; [exact Hl|split; [symmetry; exact E'|split; [reflexivity|constructor]]]|].
      exists l'. split; [exact Hl|]. split; [symmetry; exact E'|]. split; [|exact Hp]. unfold leaf_data, row. rewrite Hd. reflexivity.
    + exfalso. apply (ck_native s Hck _ _ _ Hv). by left.
  - right. split; [|done]. apply eq_None_not_Some. intros [l Hl]. eapply Hout. apply elem_of_space_leaves. right. left. by exists c, l.
Qed.
Lemma conts_after s f cs :
  checkpointable s →
  let o := apply_leaves f (space_leaves s) (key_segment PREFIX_KONT (hash_channels create cs)) in
  (∃ cs' l l', continuations (hs_state (rs_store s)) !! cs' = Some l ∧
     hash_channels create cs' = hash_channels create cs ∧ leaf_conts o = Ok l' ∧ l' ≡ₚ l) ∨
  (continuations (hs_state (rs_store s)) !! cs = None ∧ o = f (key_segment PREFIX_KONT (hash_channels create cs))).
Proof.
  intros Hck o. destruct (leaf_after s f PREFIX_KONT (hash_channels create cs) Hck) as [(o' & Hin & E)|[Hout E]].
  - left. fold o in E. rewrite E.
    apply elem_of_space_leaves in Hin as [(c' & l & Hl & [= E' ->])|[(?&?&?&[=])|[(?&?&?&[=])|(p&k&v&Hv&[= <- <- ->])]]].
    + exists c', l. destruct (decode_encode_continuations l (ck_conts s Hck c' l Hl)) as (l' & Hp & Hd).
      destruct l as [|d l]; [exists []; split; [exact Hl|split; [symmetry; exact E'|split; [reflexivity|constructor]]]|].
      exists l'. split; [exact Hl|]. split; [symmetry; exact E'|]. split; [|exact Hp]. unfold leaf_conts, row. rewrite Hd. reflexivity.
    + exfalso. apply (ck_native s Hck _ _ _ Hv). right. by left.
  - right. split; [|done]. apply eq_None_not_Some. intros [l Hl]. eapply Hout. apply elem_of_space_leaves. left. by exists cs, l.
Qed.
Lemma joins_after s f c :
  checkpointable s →
  let o := apply_leaves f (space_leaves s) (key_segment PREFIX_JOINS (hash_channel create c)) in
  (∃ c' l l', joins (hs_state (rs_store s)) !! c' = Some l ∧ hash_channel create c' = hash_channel create c ∧
     leaf_joins o = Ok l' ∧ l' ≡ₚ canonical_join <$> l) ∨
  (joins (hs_state (rs_store s)) !! c = None ∧ o = f (key_segment PREFIX_JOINS (hash_channel create c))).
Proof.
  intros Hck o. destruct (leaf_after s f PREFIX_JOINS (hash_channel create c) Hck) as [(o' & Hin & E)|[Hout E]].
  - left. fold o in E. rewrite E.
    apply elem_of_space_leaves in Hin as [(?&?&?&[=])|[(?&?&?&[=])|[(c' & l & Hl & [= E' ->])|(p&k&v&Hv&[= <- <- ->])]]].
    + exists c', l. destruct (ck_joins s Hck c' l Hl) as [Hf Hj]. destruct (decode_encode_joins l Hf Hj) as (l' & Hp & Hd).
      destruct l as [|d l]; [exists []; split; [exact Hl|split; [symmetry; exact E'|split; [reflexivity|constructor]]]|].
      exists l'. split; [exact Hl|]. split; [symmetry; exact E'|]. split; [|exact Hp]. unfold leaf_joins, row. rewrite Hd. reflexivity.
    + exfalso. apply (ck_native s Hck _ _ _ Hv). right. right. by left.
  - right. split; [|done]. apply eq_None_not_Some. intros [l Hl]. eapply Hout. apply elem_of_space_leaves. right. right. left. by exists c, l.
Qed.
Lemma native_after s f p k :
  checkpointable s → p ∉ [PREFIX_DATUM; PREFIX_KONT; PREFIX_JOINS] →
  leaf_native (apply_leaves f (space_leaves s) (key_segment p k)) =
  match overlay (native_store s) !! (p, k) with Some v => Ok v | None => leaf_native (f (key_segment p k)) end.
Proof.
  intros Hck Hp. rewrite !not_elem_of_cons in Hp. destruct Hp as (H1 & H2 & H3 & _).
  destruct (leaf_after s f p k Hck) as [(o & Hin & ->)|[Hout ->]].
  - apply elem_of_space_leaves in Hin as [(?&?&?&[= -> _ _])|[(?&?&?&[= -> _ _])|[(?&?&?&[= -> _ _])|(p'&k'&v&Hv&[= -> -> ->])]]];
      [done..|]. rewrite Hv. by destruct v.
  - destruct (overlay (native_store s) !! (p, k)) as [v|] eqn:E; [|done]. exfalso. eapply Hout.
    apply elem_of_space_leaves. right. right. right. by exists p, k, v.
Qed.

(** ** Checkpoints of a space *)
Lemma create_checkpoint_at s f :
  space_at s f → checkpointable s →
  ∃ s', create_checkpoint s =
      (s', Ok (mkCheckpoint (RadixTree.root_hash (current_history (history_repository s'))) (event_log s))) ∧
    repo_rep create (history_repository s') (apply_leaves f (space_leaves s)) ∧
    reads_leaves (reader_base (rs_store s')) (native_reader (native_store s')) (apply_leaves f (space_leaves s)) ∧
    hs_state (rs_store s') = default_state ∧ overlay (native_store s') = ∅ ∧ event_log s' = [] ∧
    produce_counter s' = ∅ ∧
    roots (history_repository s') = root_commit
      (RadixTree.root_hash (current_history (history_repository s'))) (roots (history_repository s)) ∧
    ∀ h g, stored create (history_repository s) h g → stored create (history_repository s') h g.
Proof.
  intros [Hr _ _] Hck.
  destruct (checkpoint_rep create create_length _ _ _ _ f (space_leaves_actions s) Hr (ck_batch s Hck))
    as (repo & E & Hr' & Hroots & Hold).
  destruct (readers_read repo _ Hr') as (r & nr & E1 & E2 & Hrl).
  unfold create_checkpoint. destruct (drain_changes (native_store s)) as [native nch] eqn:Ed.
  assert (overlay native = ∅) as Hov by (unfold drain_changes in Ed; by simplify_eq).
  cbn [snd] in E.
  unfold hr_checkpoint. simpl. unfold checkpoint_with_native. rewrite E. unfold reopen, reopen_native, sr_bind. simpl.
  rewrite E1. simpl. rewrite E2.
  exists (mkRSpace repo (hot_store_new r) [] ∅ (installs s) (set_reader native nr)). split; [reflexivity|].
  by split_and!.
Qed.

Lemma readable_after s f r nr :
  checkpointable s → space_at s f → reads_leaves r nr (apply_leaves f (space_leaves s)) → readable r.
Proof.
  intros Hck [_ Hrl [R1 R2 R3]] [H1 H2 H3 _].
  split; [intros c; rewrite H1|intros c; rewrite H2|intros c; rewrite H3].
  - destruct (data_after s f c Hck) as [(? & ? & l' & _ & _ & E & _)|[_ ->]]; [by exists l'|].
    rewrite <- (rl_data _ _ _ Hrl). apply R1.
  - destruct (conts_after s f c Hck) as [(? & ? & l' & _ & _ & E & _)|[_ ->]]; [by exists l'|].
    rewrite <- (rl_conts _ _ _ Hrl). apply R2.
  - destruct (joins_after s f c Hck) as [(? & ? & l' & _ & _ & E & _)|[_ ->]]; [by exists l'|].
    rewrite <- (rl_joins _ _ _ Hrl). apply R3.
Qed.

(** The channels whose digest no other channel of the overlay has. *)
Definition own_digest {X Y} `{Countable X} (digest : X → hash) (m : gmap X Y) (x : X) : Prop :=
  ∀ x', is_Some (m !! x') → digest x' = digest x → x' = x.

(** C10: A checkpoint keeps the contents.  Take a tuple space over a readable
    history that can be checkpointed: its changed rows fit their encodings,
    their digests are distinct (two joins on the same channels in a different
    order have one digest) and collide with nothing stored, and the native
    writes use prefixes of their own.  Then a checkpoint succeeds and returns
    the new root and the event log, and the space it leaves is again over a
    readable history.  On every channel, or list of channels, that shares its
    digest with no other one of the overlay it shows the same data and
    continuations up to their order, and the same joins up to their order and
    the order of their channels; it shows the same native values under their
    prefixes. *)
Theorem checkpoint_keeps_contents s f :
  space_at s f → checkpointable s →
  ∃ s', create_checkpoint s =
      (s', Ok (mkCheckpoint (RadixTree.root_hash (current_history (history_repository s'))) (event_log s))) ∧
    space_at s' (apply_leaves f (space_leaves s)) ∧
    (∀ c, own_digest (hash_channel create) (data (hs_state (rs_store s))) c →
       v_data (view (rs_store s')) c ≡ₚ v_data (view (rs_store s)) c) ∧
    (∀ cs, own_digest (hash_channels create) (continuations (hs_state (rs_store s))) cs →
       v_conts (view (rs_store s')) cs ≡ₚ v_conts (view (rs_store s)) cs) ∧
    (∀ c, own_digest (hash_channel create) (joins (hs_state (rs_store s))) c →
       canonical_join <$> v_joins (view (rs_store s')) c ≡ₚ canonical_join <$> v_joins (view (rs_store s)) c) ∧
    (∀ p k, p ∉ [PREFIX_DATUM; PREFIX_KONT; PREFIX_JOINS] → length k = 32%nat →
       native_get (native_store s') p k = native_get (native_store s) p k).
Proof.
  intros Hs Hck. pose proof Hs as [Hr [D1 C1 J1 N1] _].
  destruct (create_checkpoint_at s f Hs Hck) as (s' & E & Hr' & Hrl & Est & Eov & _). exists s'.
  pose proof Hrl as [D2 C2 J2 N2]. split; [exact E|]. split_and!.
  - split; [done|done|by eapply readable_after].
  - intros c Hc. simpl. rewrite Est, D1, D2. simpl. rewrite lookup_empty. simpl.
    destruct (data_after s f c Hck) as [(c' & l & l' & Hl & Hd & -> & Hp)|[-> ->]]; [|done].
    assert (c' = c) as -> by (apply Hc; [by exists l|done]). by rewrite Hl.
  - intros c Hc. simpl. rewrite Est, C1, C2. simpl. rewrite lookup_empty. simpl.
    destruct (conts_after s f c Hck) as [(c' & l & l' & Hl & Hd & -> & Hp)|[-> ->]]; [|done].
    assert (c' = c) as -> by (apply Hc; [by exists l|done]). by rewrite Hl.
  - intros c Hc. simpl. rewrite Est, J1, J2. simpl. rewrite lookup_empty. simpl.
    destruct (joins_after s f c Hck) as [(c' & l & l' & Hl & Hd & -> & Hp)|[-> ->]]; [|done].
    assert (c' = c) as -> by (apply Hc; [by exists l|done]). rewrite Hl. simpl. rewrite Hp, <- list_fmap_compose.
    rewrite (list_fmap_ext _ canonical_join); [done|]. intros i j _. apply canonical_join_eq, canonical_join_perm.
  - intros p k Hp Hk. unfold native_get. rewrite Eov.
    trans (native_reader (native_store s') p k); [reflexivity|]. rewrite N2, (native_after s f p k Hck Hp) by done.
    by rewrite N1.
Qed.

(** ** Going back to a checkpoint *)

(** Steps of a space: work that leaves the history alone, and checkpoints. *)
Inductive evolves : Space → Space → Prop :=
| ev_refl s : evolves s s
| ev_work s s' s'' :
    history_repository s' = history_repository s → reader_base (rs_store s') = reader_base (rs_store s) →
    native_reader (native_store s') = native_reader (native_store s) → evolves s' s'' → evolves s s''
| ev_checkpoint s s' s'' cp :
    checkpointable s → create_checkpoint s = (s', Ok cp) → evolves s' s'' → evolves s s''.

Lemma evolves_stored s s2 f h g :
  evolves s s2 → space_at s f → stored create (history_repository s) h g →
  is_Some (roots (history_repository s) !! RadixTree.root_hash h) →
  stored create (history_repository s2) h g ∧ is_Some (roots (history_repository s2) !! RadixTree.root_hash h).
Proof.
  intros Hev. revert f. induction Hev as [|s s' s'' E1 E2 E3 _ IH|s s' s'' cp Hck E _ IH]; intros f Hs Hst Hroot; [done|..].
  - apply (IH f); [|by rewrite E1..]. destruct Hs as [A1 A2 A3]. split; [by rewrite E1|by rewrite E2, E3|by rewrite E2].
  - destruct (create_checkpoint_at s f Hs Hck) as (s1 & E' & Hr' & Hrl & _ & _ & _ & _ & Hroots & Hold).
    rewrite E in E'. simplify_eq. apply (IH (apply_leaves f (space_leaves s))); [|by apply Hold|].
    + split; [done|done|by eapply readable_after].
    + rewrite Hroots. by apply root_commit_keeps.
Qed.

(** C11: A recorded state can be returned to.  From a space over a recorded root,
    not the empty one, let the space do any work and any number of checkpoints,
    each without collisions of digests: a reset to that root succeeds and
    leaves a space that shows the contents of the recorded state and nothing
    else: no overlay, no log, no counters. *)
Theorem reset_returns_to_checkpoint s s2 f :
  space_at s f → RadixTree.root_node (current_history (history_repository s)) ≠ RadixNode.empty_node →
  is_Some (roots (history_repository s) !! RadixTree.root_hash (current_history (history_repository s))) →
  evolves s s2 →
  ∃ s3, space_reset (RadixTree.root_hash (current_history (history_repository s))) s2 = (s3, Ok ()) ∧
    space_at s3 f ∧ view (rs_store s3) ≡ hist_view (reader_base (rs_store s)) ∧
    (∀ p k, length k = 32%nat → native_get (native_store s3) p k = native_reader (native_store s) p k) ∧
    event_log s3 = [] ∧ produce_counter s3 = ∅.
Proof.
  intros Hs Hne Hroot Hev. pose proof Hs as [Hr Hrl [R1 R2 R3]].
  destruct (evolves_stored s s2 f _ f Hev Hs (repo_stored create _ _ Hr Hne) Hroot) as [Hst Hroot2].
  destruct (repo_reset_stored create _ _ _ Hst Hroot2) as (repo & E & Hr' & Eh & _).
  destruct (readers_read repo _ Hr') as (r & nr & E1 & E2 & Hrl'). rewrite Eh in E1, E2.
  unfold space_reset, hr_reset. simpl. rewrite E. unfold reopen, reopen_native, sr_bind. simpl. rewrite E1. simpl. rewrite E2.
  eexists. split; [done|]. destruct Hrl as [D1 C1 J1 N1]. destruct Hrl' as [D2 C2 J2 N2]. split_and!; try done.
  - split; [done|done|]. split; simpl; intros c; [rewrite D2, <- D1|rewrite C2, <- C1|rewrite J2, <- J1]; auto.
  - split; simpl; intros c; rewrite ?lookup_empty; simpl; [by rewrite D1, D2|by rewrite C1, C2|by rewrite J1, J2|done|done].
  - intros p k Hk. trans (nr p k); [reflexivity|]. by rewrite N1, N2.
Qed.
End Contents.
