(* ===== verification/RSpaceSpec.v ===== *)
(** * What the tuple-space operations do

    The operations of [RSpace] in terms of the view of the hot store: which
    continuation and data a consume or a produce takes, what is left, and what
    is written to the log. *)

From S2P Require Import Prelude BTree Bytes Trace HotStore SpaceMatcher NativeStore RSpace.

(** ** Removing matched data *)

(** Removing elements by index, from the highest to the lowest, takes exactly
    the elements at these indices. *)
Lemma delete_desc {X} (l : list X) (idx : list nat) (ds : list X) :
  StronglySorted (λ i j, (j < i)%nat) idx → Forall2 (λ i d, l !! i = Some d) idx ds →
  l ≡ₚ ds ++ foldl (λ l i, delete i l) l idx.
Proof.
  intros Hs Hf. revert l ds Hf. induction Hs as [|i idx Hs IH Hi]; intros l ds Hf.
  { apply Forall2_nil_inv_l in Hf as ->. done. }
  apply Forall2_cons_inv_l in Hf as (d & ds' & Hd & Hf & ->). simpl.
  rewrite <- (IH (delete i l) ds').
  - by apply delete_Permutation.
  - rewrite Forall2_lookup in Hf |- *. intros k. specialize (Hf k).
    destruct (idx !! k) as [j|] eqn:Ej; inversion Hf as [? d' Hd'|]; subst; constructor.
    rewrite list_lookup_delete_lt; [done|].
    rewrite Forall_lookup in Hi. by eapply Hi.
Qed.

(** ** Enumerated data *)
Lemma elem_of_index_data {A} (l : list (Datum A)) d i :
  (d, i) ∈ index_data l ↔ ∃ k, i = Z.of_nat k ∧ l !! k = Some d.
Proof.
  unfold index_data. rewrite list_elem_of_lookup. setoid_rewrite list_lookup_imap. split.
  - intros [k Hk]. apply fmap_Some in Hk as (d' & Hl & [= -> ->]). by exists k.
  - intros (k & -> & Hl). exists k. by rewrite Hl.
Qed.

Lemma index_data_snd {A} (l : list (Datum A)) : (index_data l).*2 = Z.of_nat <$> seq 0 (length l).
Proof.
  apply list_eq. intros k. unfold index_data.
  rewrite !list_lookup_fmap, list_lookup_imap. destruct (l !! k) as [d|] eqn:E.
  - apply lookup_lt_Some in E. by rewrite lookup_seq_lt.
  - apply lookup_ge_None in E. by rewrite lookup_seq_ge.
Qed.

Lemma NoDup_index_data {A} (l : list (Datum A)) : NoDup (index_data l).*2.
Proof. rewrite index_data_snd. apply (NoDup_fmap_2 _), NoDup_seq. Qed.

Lemma StronglySorted_filter {X} (R : relation X) (Q : X → Prop) `{!∀ x, Decision (Q x)} l :
  StronglySorted R l → StronglySorted R (filter Q l).
Proof.
  induction 1 as [|a l Hs IH Ha]; [constructor|]. rewrite filter_cons. case_decide; [|done].
  constructor; [done|]. rewrite Forall_forall in Ha |- *. intros x [_ Hx]%list_elem_of_filter. auto.
Qed.

Section Spec.
Context (create : list byte → hash).
Context {C P A K Repo : Type} `{!Ord C} `{Countable C}.
Context `{!Serialize C, !Serialize P, !Serialize A, !Serialize K} `{!HistoryOps Repo C P A K}.
Context (get : P → A → option A).
Notation WC := (WaitingContinuation P K).
Notation Space := (@RSpace C P A K Repo _ _).
Notation Reader := (HistoryReaderBase C P A K).
Notation View := (View C P A K).
Implicit Types (s : Space) (v : View) (r : Reader) (c : C) (cs channels : list C).
Implicit Types (cand : ConsumeCandidate C A) (cands : list (ConsumeCandidate C A)).

Lemma set_store_set_store hs hs' s : set_store hs (set_store hs' s) = set_store hs s.
Proof. done. Qed.
Lemma set_store_same s : set_store (rs_store s) s = s.
Proof. by destruct s. Qed.

Lemma on_store_Ok {X} (m : StateResult (InMemHotStore C P A K) X RSpaceError) s hs' x :
  m (rs_store s) = (hs', Ok x) → on_store (Repo := Repo) m s = (set_store hs' s, Ok x).
Proof. intros E. unfold on_store, sr_zoom. by rewrite E. Qed.

(** An operation on the store that succeeds, with its effect on the view. *)
Definition store_op {X} (m : @RM C P A K Repo _ _ X) r v s (x : X) v' : Prop :=
  ∃ hs', m s = (set_store hs' s, Ok x) ∧ shows r v' hs'.

Lemma store_op_lift {X} (m : StateResult (InMemHotStore C P A K) X RSpaceError) r v v' s x :
  (∃ hs', m (rs_store s) = (hs', Ok x) ∧ shows r v' hs') → store_op (on_store m) r v s x v'.
Proof. intros (hs' & E & Hs). exists hs'. split; [by apply on_store_Ok|done]. Qed.

Lemma store_op_ret {X} r v s (x : X) : shows r v (rs_store s) → store_op (sr_ret x) r v s x v.
Proof. intros Hs. exists (rs_store s). by rewrite set_store_same. Qed.

Lemma store_op_bind {X Y} (m : @RM C P A K Repo _ _ X) (k : X → @RM C P A K Repo _ _ Y) r v s x v1 y v2 :
  store_op m r v s x v1 →
  (∀ s1, shows r v1 (rs_store s1) → store_op (k x) r v1 s1 y v2) →
  store_op (sr_bind m k) r v s y v2.
Proof.
  intros (hs1 & E1 & Hs1) Hk. destruct (Hk (set_store hs1 s) Hs1) as (hs2 & E2 & Hs2).
  exists hs2. split; [|done]. rewrite (sr_bind_Ok _ _ _ _ _ E1). by rewrite E2.
Qed.

Lemma store_op_iter {X} (f : X → @RM C P A K Repo _ _ unit) (g : View → X → View) r v s l :
  (∀ a v s, a ∈ l → shows r v (rs_store s) → store_op (f a) r v s () (g v a)) →
  shows r v (rs_store s) → store_op (sr_iter f l) r v s () (foldl g v l).
Proof.
  revert v s. induction l as [|a l IH]; intros v s Hf Hs; simpl; [by apply store_op_ret|].
  eapply store_op_bind; [apply Hf; [by left|done]|]. intros s1 Hs1. apply IH; [|done].
  intros. apply Hf; [by right|done].
Qed.

(** ** Fetching data *)
Definition indexed_map (index : C → list (Datum A) → list (Datum A * Z)) v channels
    (map : gmap C (list (Datum A * Z))) : gmap C (list (Datum A * Z)) :=
  foldl (λ m c, <[c := index c (v_data v c)]> m) map channels.

Lemma lookup_indexed_map index v channels map c :
  indexed_map index v channels map !! c =
  if decide (c ∈ channels) then Some (index c (v_data v c)) else map !! c.
Proof.
  unfold indexed_map. revert map. induction channels as [|c0 channels IH]; intros map; cbn [foldl].
  { by rewrite decide_False by apply not_elem_of_nil. }
  rewrite IH. destruct (decide (c ∈ channels)).
  - by rewrite decide_True by by right.
  - destruct (decide (c = c0)) as [->|].
    + rewrite decide_True by by left. by rewrite lookup_insert_eq.
    + rewrite decide_False by (rewrite elem_of_cons; naive_solver). by rewrite lookup_insert_ne.
Qed.

Lemma fetch_loop_spec index r v s channels map :
  shows r v (rs_store s) →
  store_op (fetch_loop index channels map) r v s (indexed_map index v channels map) v.
Proof.
  unfold indexed_map. revert s map. induction channels as [|c channels IH]; intros s map Hs; simpl.
  { by apply store_op_ret. }
  eapply store_op_bind; [by apply store_op_lift, get_data_spec|]. intros s1 Hs1. by apply IH.
Qed.

(** ** The writes *)
Definition v_wait v channels (wc : WC) : View :=
  foldl (λ v c, v_put_join v c channels) (v_put_cont v channels wc) channels.
Definition v_take v cand : View :=
  if d_persist (cc_datum cand) then v else v_remove_datum v (cc_channel cand) (datum_index cand).
Definition v_take_and_join channels v cand : View :=
  v_remove_join (v_take v cand) (cc_channel cand) channels.

Lemma store_waiting_continuation_spec r v s channels (wc : WC) :
  shows r v (rs_store s) →
  store_op (store_waiting_continuation channels wc) r v s None (v_wait v channels wc).
Proof.
  intros Hs. eapply store_op_bind; [by apply store_op_lift, put_continuation_spec|]. intros s1 Hs1.
  eapply store_op_bind; [|intros; by apply store_op_ret].
  apply (store_op_iter _ (λ v c, v_put_join v c channels)); [|done].
  intros. by apply store_op_lift, put_join_spec.
Qed.

Lemma store_data_spec r v s c (a : A) persist produce_ref :
  shows r v (rs_store s) →
  store_op (store_data c a persist produce_ref) r v s None
    (v_put_datum v c (mkDatum a persist produce_ref)).
Proof.
  intros Hs. eapply store_op_bind; [by apply store_op_lift, put_datum_spec|].
  intros. by apply store_op_ret.
Qed.

Lemma store_persistent_data_spec r v s cands :
  shows r v (rs_store s) →
  store_op (store_persistent_data cands) r v s () (foldl v_take v (by_index_desc cands)).
Proof.
  intros Hs. apply (store_op_iter _ v_take); [|done]. intros cand v' s' _ Hs'. unfold v_take.
  destruct (d_persist _); [by apply store_op_ret|by apply store_op_lift, remove_datum_spec].
Qed.

Lemma remove_matched_datum_and_join_spec r v s channels cands :
  shows r v (rs_store s) →
  store_op (remove_matched_datum_and_join channels cands) r v s ()
    (foldl (v_take_and_join channels) v (by_index_desc cands)).
Proof.
  intros Hs. apply (store_op_iter _ (v_take_and_join channels)); [|done].
  intros cand v' s' _ Hs'. unfold v_take_and_join.
  eapply (store_op_bind _ _ _ _ _ () (v_take v' cand)); [|intros; by apply store_op_lift, remove_join_spec].
  unfold v_take, v_remove_datum. destruct (d_persist _); rewrite ?andb_false_r, ?andb_true_r.
  { by apply store_op_ret. }
  destruct (0 <=? datum_index cand) eqn:Ei; [|by apply store_op_ret].
  destruct (remove_datum_spec r v' (rs_store s') (cc_channel cand) (datum_index cand) Hs') as (hs & E & Hhs).
  apply store_op_lift. exists hs. split; [done|]. unfold v_remove_datum in Hhs. by rewrite Ei in Hhs.
Qed.

Lemma remove_continuation_op r v s channels i (persist : bool) :
  shows r v (rs_store s) →
  store_op (if persist then sr_ret () else on_store (remove_continuation channels i)) r v s ()
    (if persist then v else v_remove_cont v channels i).
Proof.
  intros Hs. destruct persist; [by apply store_op_ret|by apply store_op_lift, remove_continuation_spec].
Qed.

(** ** What taking data leaves *)

(** The stored data at [c] that the candidates take. *)
Definition taken cands c : list (Datum A) :=
  (λ cand, mkDatum (removed_datum cand) false (d_source (cc_datum cand))) <$>
    filter (λ cand, takes cand ∧ cc_channel cand = c ∧ 0 ≤ datum_index cand) cands.

(** The candidates point to stored data, no two to the same. *)
Record in_store v cands : Prop := {
  in_store_lookup cand : cand ∈ cands → takes cand → 0 ≤ datum_index cand →
    v_data v (cc_channel cand) !! Z.to_nat (datum_index cand) =
      Some (mkDatum (removed_datum cand) false (d_source (cc_datum cand)));
  in_store_distinct : NoDup (slot <$> filter takes cands);
}.

Definition indices cands c : list nat :=
  (λ cand, Z.to_nat (datum_index cand)) <$>
    filter (λ cand, takes cand ∧ cc_channel cand = c ∧ 0 ≤ datum_index cand) cands.

(** A step that takes one candidate's datum, whatever else it does. *)
Definition takes_step (f : View → ConsumeCandidate C A → View) : Prop :=
  ∀ v cand c, v_data (f v cand) c = v_data (v_take v cand) c.

Lemma v_data_take_fold f v cands c :
  takes_step f →
  v_data (foldl f v cands) c = foldl (λ l i, delete i l) (v_data v c) (indices cands c).
Proof.
  intros Hf. revert v. induction cands as [|cand cands IH]; intros v; [done|].
  cbn [foldl]. rewrite IH, Hf. unfold indices, v_take, v_remove_datum. rewrite filter_cons.
  destruct (decide (takes cand)) as [Ht|Ht].
  2:{ rewrite decide_False by naive_solver. unfold takes in Ht.
      by apply not_false_iff_true in Ht as ->. }
  pose proof Ht as Ep. unfold takes in Ep. rewrite Ep.
  destruct (Z.leb_spec 0 (datum_index cand)); [|by rewrite decide_False by (intros (? & ? & ?); lia)].
  cbn [v_data v_set_data]. destruct (decide (c = cc_channel cand)) as [->|Hne].
  - rewrite upd_eq, decide_True by naive_solver. done.
  - rewrite upd_ne by done. by rewrite decide_False by naive_solver.
Qed.

Lemma by_index_desc_perm cands : by_index_desc cands ≡ₚ cands.
Proof. apply sort_by_perm. Qed.

Lemma by_index_desc_sorted cands :
  StronglySorted (λ a b, datum_index b ≤ datum_index a) (by_index_desc cands).
Proof.
  set (R := cmp_le (λ a b : ConsumeCandidate C A, cmp (datum_index b) (datum_index a))).
  assert (Transitive R) as HT.
  { intros a b c Hab Hbc. change (datum_index c ≤ datum_index a).
    change (datum_index b ≤ datum_index a) in Hab. change (datum_index c ≤ datum_index b) in Hbc. lia. }
  assert (Total R) as HR.
  { intros a b. change (datum_index b ≤ datum_index a ∨ datum_index a ≤ datum_index b). lia. }
  apply (sort_by_strongly_sorted _).
Qed.

(** Taking the candidates, from the highest index to the lowest, takes
    exactly their data. *)
Lemma take_conserves f v cands c :
  takes_step f → in_store v cands →
  v_data v c ≡ₚ taken cands c ++ v_data (foldl f v (by_index_desc cands)) c.
Proof.
  intros Hf [Hl Hd]. rewrite (v_data_take_fold f v _ c Hf).
  set (Q := λ cand : ConsumeCandidate C A, takes cand ∧ cc_channel cand = c ∧ 0 ≤ datum_index cand).
  set (l := filter Q (by_index_desc cands)).
  transitivity (((λ cand, mkDatum (removed_datum cand) false (d_source (cc_datum cand))) <$> l) ++
    foldl (λ l i, delete i l) (v_data v c) ((λ cand, Z.to_nat (datum_index cand)) <$> l)).
  2:{ apply Permutation_app_tail, fmap_Permutation. unfold l, Q. by rewrite (by_index_desc_perm cands). }
  assert (NoDup (slot <$> l)) as Hnd.
  { unfold l. rewrite (by_index_desc_perm cands).
    assert (filter Q cands = filter Q (filter takes cands)) as ->.
    { rewrite list_filter_filter. apply list_filter_iff. unfold Q. naive_solver. }
    eapply sublist_NoDup; [exact Hd|]. apply fmap_sublist, sublist_filter. }
  assert (∀ cand, cand ∈ l → Q cand ∧ cand ∈ cands) as HQ.
  { intros cand [HQ Hin]%list_elem_of_filter. split; [done|]. by rewrite (by_index_desc_perm cands) in Hin. }
  assert (StronglySorted (λ a b, datum_index b ≤ datum_index a) l) as Hs.
  { apply StronglySorted_filter, by_index_desc_sorted. }
  apply delete_desc.
  - clear Hl Hd. clearbody l. induction Hs as [|cand l' Hs IH Ha]; [constructor|]. rewrite fmap_cons in *.
    apply NoDup_cons in Hnd as [Hn Hnd]. constructor.
    + apply IH; [done|]. intros x Hx. apply HQ. by right.
    + rewrite Forall_forall in Ha. apply Forall_forall. intros i (x & -> & Hx)%list_elem_of_fmap.
      specialize (Ha x Hx). destruct (HQ cand) as [(_ & Ec & Hi) _]; [by left|].
      destruct (HQ x) as [(_ & Ex & Hi') _]; [by right|].
      assert (datum_index x ≠ datum_index cand); [|lia]. intros E. apply Hn.
      apply list_elem_of_fmap. exists x. split; [|done]. unfold slot. congruence.
  - rewrite Forall2_fmap. apply Forall_Forall2_diag, Forall_forall. intros cand Hc.
    destruct (HQ cand Hc) as [(Ht & Ec & Hi) Hin]. rewrite <- Ec. by apply Hl.
Qed.

(** ** Finding the continuation for a produce *)
Fixpoint v_extract v (grouped : list (list C)) c (d : Datum A) : option (ProduceCandidate C P A K) :=
  match grouped with
  | [] => None
  | channels :: grouped' =>
      match extract_first_match get channels (index_continuations (v_get_conts v channels))
              (indexed_map (index_with_produced c d) v channels ∅) with
      | Some pc => Some pc
      | None => v_extract v grouped' c d
      end
  end.

Lemma extract_produce_candidate_spec r v s grouped c (d : Datum A) :
  shows r v (rs_store s) →
  store_op (extract_produce_candidate get grouped c d) r v s (v_extract v grouped c d) v.
Proof.
  revert s. induction grouped as [|channels grouped IH]; intros s Hs; cbn -[extract_first_match].
  { by apply store_op_ret. }
  eapply store_op_bind; [by apply store_op_lift, get_continuations_spec|]. intros s1 Hs1.
  eapply store_op_bind; [by apply fetch_loop_spec|]. intros s2 Hs2.
  destruct (extract_first_match _ _ _ _); [by apply store_op_ret|by apply IH].
Qed.

(** ** Consume *)
Definition v_indexed v channels : gmap C (list (Datum A * Z)) :=
  indexed_map (λ _ l, sort_by by_source (index_data l)) v channels ∅.
Definition v_match v channels (patterns : list P) : option (list (ConsumeCandidate C A)) :=
  collect (extract_data_candidates get (zip channels patterns) (v_indexed v channels)).

Definition add_events (es : Log) s : Space :=
  mkRSpace (history_repository s) (rs_store s) (es ++ event_log s) (produce_counter s)
    (installs s) (native_store s).

Definition consume_after v channels patterns (wk : WC) : View :=
  match v_match v channels patterns with
  | None => v_wait v channels wk
  | Some cands => foldl v_take v (by_index_desc cands)
  end.
Definition consume_result v channels patterns (wk : WC) : @ActionResult C P A K :=
  match v_match v channels patterns with
  | None => None
  | Some cands => wrap_result channels wk cands
  end.
Definition consume_events s v channels patterns (wk : WC) : Log :=
  match v_match v channels patterns with
  | None => [EvConsume (wc_source wk)]
  | Some cands => [EvComm (comm_of s cands (wc_source wk) (wc_peeks wk)); EvConsume (wc_source wk)]
  end.

Lemma locked_consume_spec r v s channels patterns continuation persist peeks consume_ref :
  shows r v (rs_store s) →
  let wk := mkWC patterns continuation persist peeks consume_ref in
  ∃ hs',
    locked_consume get channels patterns continuation persist peeks consume_ref s =
      (set_store hs' (add_events (consume_events s v channels patterns wk) s),
       Ok (consume_result v channels patterns wk)) ∧
    shows r (consume_after v channels patterns wk) hs'.
Proof.
  intros Hs wk. unfold locked_consume, consume_events, consume_result, consume_after.
  rewrite (sr_bind_Ok _ _ _ (add_events [EvConsume consume_ref] s) () eq_refl).
  destruct (fetch_loop_spec (λ _ l, sort_by by_source (index_data l)) r v
    (add_events [EvConsume consume_ref] s) channels ∅ Hs) as (hs1 & E1 & Hs1).
  unfold fetch_channel_to_index_data. rewrite (sr_bind_Ok _ _ _ _ _ E1).
  fold (v_indexed v channels). fold (v_match v channels patterns).
  destruct (v_match v channels patterns) as [cands|].
  - set (s1 := set_store hs1 _).
    rewrite (sr_bind_Ok _ _ _ s1 (comm_of s cands consume_ref peeks) eq_refl).
    set (s2 := add_events [EvComm (comm_of s cands consume_ref peeks)] s1).
    rewrite (sr_bind_Ok _ _ _ s2 () eq_refl).
    destruct (store_persistent_data_spec r v s2 cands Hs1) as (hs2 & E2 & Hs2).
    rewrite (sr_bind_Ok _ _ _ _ _ E2). by exists hs2.
  - destruct (store_waiting_continuation_spec r v (set_store hs1 (add_events [EvConsume consume_ref] s))
      channels wk Hs1) as (hs2 & E2 & Hs2).
    exists hs2. split; [exact E2|done].
Qed.

(** ** Produce *)
Definition count_produce (ref : Produce) (persist : bool) s : Space :=
  if persist then s
  else mkRSpace (history_repository s) (rs_store s) (event_log s)
         (<[p_hash ref := S (produce_counter_value s ref)]> (produce_counter s))
         (installs s) (native_store s).

Definition v_produce_match v c (d : Datum A) : option (ProduceCandidate C P A K) :=
  v_extract v (v_get_joins v c) c d.
Definition v_fire v (pc : ProduceCandidate C P A K) : View :=
  foldl (v_take_and_join (pc_channels pc))
    (if wc_persist (pc_continuation pc) then v
     else v_remove_cont v (pc_channels pc) (continuation_index pc))
    (by_index_desc (data_candidates pc)).
Definition produce_after v c (d : Datum A) : View :=
  match v_produce_match v c d with
  | None => v_put_datum v c d
  | Some pc => v_fire v pc
  end.
Definition produce_result v c (d : Datum A) : @ActionResult C P A K :=
  match v_produce_match v c d with
  | None => None
  | Some pc => wrap_result (pc_channels pc) (pc_continuation pc) (data_candidates pc)
  end.
(** The COMM of a fired continuation, with the counters after the produce. *)
Definition comm_of_pc s (pc : ProduceCandidate C P A K) : Comm :=
  comm_of s (data_candidates pc) (wc_source (pc_continuation pc)) (wc_peeks (pc_continuation pc)).
Definition produce_events s v c (d : Datum A) : Log :=
  match v_produce_match v c d with
  | None => [EvProduce (d_source d)]
  | Some pc =>
      [EvComm (comm_of_pc (count_produce (d_source d) (d_persist d) s) pc); EvProduce (d_source d)]
  end.

Lemma comm_of_counter s s' cands consume_ref peeks :
  produce_counter s = produce_counter s' → comm_of s cands consume_ref peeks = comm_of s' cands consume_ref peeks.
Proof. intros E. unfold comm_of, comm_apply, produce_counters, produce_counter_value. by rewrite E. Qed.

Lemma log_produce_spec s ref persist :
  log_produce ref persist s = (count_produce ref persist (add_events [EvProduce ref] s), Ok ()).
Proof. by destruct persist. Qed.

Lemma locked_produce_spec r v s c (a : A) persist produce_ref :
  shows r v (rs_store s) →
  let d := mkDatum a persist produce_ref in
  ∃ hs',
    locked_produce get c a persist produce_ref s =
      (set_store hs' (count_produce produce_ref persist (add_events (produce_events s v c d) s)),
       Ok (produce_result v c d)) ∧
    shows r (produce_after v c d) hs'.
Proof.
  intros Hs d. unfold locked_produce.
  destruct (get_joins_spec r v (rs_store s) c Hs) as (hs1 & E1%on_store_Ok & Hs1).
  rewrite (sr_bind_Ok _ _ _ _ _ E1), (sr_bind_Ok _ _ _ _ _ (log_produce_spec _ _ _)).
  set (s1 := count_produce _ _ _).
  assert (shows r v (rs_store s1)) as Hs1' by (unfold s1, count_produce; by destruct persist).
  destruct (extract_produce_candidate_spec r v s1 (v_get_joins v c) c d Hs1') as (hs2 & E2 & Hs2).
  unfold d in E2. rewrite (sr_bind_Ok _ _ _ _ _ E2). fold d.
  unfold produce_events, produce_after, produce_result, v_produce_match. fold d.
  destruct (v_extract v (v_get_joins v c) c d) as [pc|].
  - unfold process_match_found. set (s2 := set_store hs2 s1).
    rewrite (sr_bind_Ok _ _ s2 s2 (comm_of_pc s2 pc) eq_refl).
    rewrite (sr_bind_Ok _ _ _ (add_events [EvComm (comm_of_pc s2 pc)] s2) () eq_refl).
    destruct (remove_continuation_op r v (add_events [EvComm (comm_of_pc s2 pc)] s2)
      (pc_channels pc) (continuation_index pc) (wc_persist (pc_continuation pc)) Hs2) as (hs3 & E3 & Hs3).
    rewrite (sr_bind_Ok _ _ _ _ _ E3).
    destruct (remove_matched_datum_and_join_spec r _ (set_store hs3 (add_events [EvComm (comm_of_pc s2 pc)] s2))
      (pc_channels pc) (data_candidates pc) Hs3) as (hs4 & E4 & Hs4).
    rewrite (sr_bind_Ok _ _ _ _ _ E4). exists hs4. split; [|done].
    rewrite set_store_set_store. f_equal.
    assert (comm_of_pc s2 pc = comm_of_pc (count_produce produce_ref persist s) pc) as ->.
    { apply comm_of_counter. unfold s2, s1, count_produce. by destruct persist. }
    unfold s2, s1, count_produce, add_events, set_store, d. by destruct persist.
  - destruct (store_data_spec r v (set_store hs2 s1) c a persist produce_ref Hs2) as (hs3 & E3 & Hs3).
    exists hs3. split; [|done]. rewrite E3, set_store_set_store. f_equal.
    unfold s1, count_produce. by destruct persist.
Qed.
(** ** What is matched *)

(** The data a pattern is matched against: what is stored, and on its channel
    the datum being produced. *)
Definition available v (inflight : option (C * Datum A)) c (d : Datum A) : Prop :=
  d ∈ v_data v c ∨ inflight = Some (c, d).

(** [cand] is a datum available at the channel, matched by the pattern; its
    index tells a stored datum from the one being produced. *)
Definition serves v (inflight : option (C * Datum A)) (cp : C * P) cand : Prop :=
  ∃ d, (if 0 <=? datum_index cand then d ∈ v_data v cp.1 else inflight = Some (cp.1, d)) ∧
       candidate_of get cp.1 cp.2 d (datum_index cand) cand.

Lemma v_indexed_lookup v channels c l :
  v_indexed v channels !! c = Some l → l = sort_by by_source (index_data (v_data v c)) ∧ c ∈ channels.
Proof.
  unfold v_indexed. rewrite lookup_indexed_map, lookup_empty. case_decide; [|done]. by intros [= <-].
Qed.

Lemma produced_lookup v channels c0 d0 c l :
  indexed_map (index_with_produced c0 d0) v channels ∅ !! c = Some l →
  l = index_with_produced c0 d0 c (v_data v c) ∧ c ∈ channels.
Proof. rewrite lookup_indexed_map, lookup_empty. case_decide; [|done]. by intros [= <-]. Qed.

Lemma elem_of_sorted_index (l : list (Datum A)) x :
  x ∈ sort_by by_source (index_data l) ↔ x ∈ index_data l.
Proof. apply elem_of_sort_by. Qed.

Lemma elem_of_produced c0 (d0 : Datum A) c (l : list (Datum A)) d i :
  (d, i) ∈ index_with_produced c0 d0 c l ↔
  (d, i) ∈ index_data l ∨ (c = c0 ∧ d = d0 ∧ i = -1).
Proof.
  unfold index_with_produced. case_bool_decide as E.
  - rewrite elem_of_cons, elem_of_sorted_index. naive_solver.
  - rewrite elem_of_sorted_index. naive_solver.
Qed.

Lemma NoDup_sorted_index (l : list (Datum A)) : NoDup (sort_by by_source (index_data l)).*2.
Proof. rewrite (sort_by_perm by_source (index_data l)). apply NoDup_index_data. Qed.

Lemma NoDup_produced c0 (d0 : Datum A) c l : NoDup (index_with_produced c0 d0 c l).*2.
Proof.
  unfold index_with_produced. case_bool_decide; [|apply NoDup_sorted_index].
  rewrite fmap_cons. apply NoDup_cons. split; [|apply NoDup_sorted_index]. simpl.
  rewrite (sort_by_perm by_source (index_data l)), index_data_snd, list_elem_of_fmap.
  intros (k & E & _). lia.
Qed.

(** Candidates drawn from enumerated data. *)
Lemma found_in_store v map cands pairs inflight :
  (∀ c l d i, map !! c = Some l → (d, i) ∈ l →
     (d, i) ∈ index_data (v_data v c) ∨ (inflight = Some (c, d) ∧ i = -1)) →
  Forall2 (found_in get map) pairs cands → NoDup (slot <$> filter takes cands) →
  in_store v cands ∧ Forall2 (serves v inflight) pairs cands.
Proof.
  intros Hmap Hf Hnd. split.
  - split; [|done]. intros cand Hin Ht Hi. apply list_elem_of_lookup in Hin as [k Hk].
    destruct (Forall2_lookup_r _ _ _ _ _ Hf Hk) as ([c p] & _ & l & d & Hl & Hd & mat & _ & Ecand).
    simpl in *. destruct (Hmap _ _ _ _ Hl Hd) as [(j & Ej & Hj)%elem_of_index_data|[_ ?]]; [|lia].
    rewrite Ecand in *. unfold takes in Ht. simpl in *. rewrite Ej, Nat2Z.id, Hj. f_equal.
    destruct d; simpl in *; by subst.
  - eapply Forall2_impl; [exact Hf|]. intros [c p] cand (l & d & Hl & Hd & Hc). exists d.
    split; [|done]. simpl in *. destruct (Hmap _ _ _ _ Hl Hd) as [(j & Ej & Hj)%elem_of_index_data|[? ->]].
    + rewrite Ej. rewrite (proj2 (Z.leb_le 0 (Z.of_nat j))) by lia. by eapply list_elem_of_lookup_2.
    + done.
Qed.

Lemma v_match_Some v channels patterns cands :
  v_match v channels patterns = Some cands →
  in_store v cands ∧ Forall2 (serves v None) (zip channels patterns) cands ∧
  (∀ cand, cand ∈ cands → 0 ≤ datum_index cand).
Proof.
  intros He%collect_extract. apply extracts_facts in He as [Hf Hnd].
  2:{ intros c l [-> _]%v_indexed_lookup. apply NoDup_sorted_index. }
  assert (∀ c l d i, v_indexed v channels !! c = Some l → (d, i) ∈ l → (d, i) ∈ index_data (v_data v c)) as Hm.
  { intros c l d i [-> _]%v_indexed_lookup. by rewrite elem_of_sorted_index. }
  destruct (λ H, found_in_store v (v_indexed v channels) cands _ None H Hf Hnd) as [Hin Hs].
  { intros c l d i Hl Hd. left. by eapply Hm. }
  split_and!; [done..|]. intros cand [k Hk]%list_elem_of_lookup.
  destruct (Forall2_lookup_r _ _ _ _ _ Hf Hk) as (cp & _ & l & d & Hl & Hd & _).
  apply (Hm _ _ _ _ Hl) in Hd. apply elem_of_index_data in Hd as (j & -> & _). lia.
Qed.

(** On distinct channels a consume fires iff every channel has a datum that
    its pattern matches. *)
Lemma v_match_None v channels patterns :
  NoDup channels → length channels = length patterns →
  v_match v channels patterns = None ↔
  ∃ c p, (c, p) ∈ zip channels patterns ∧ ∀ d, d ∈ v_data v c → get p (d_a d) = None.
Proof.
  intros Hnd Hlen.
  assert (∀ cp, cp ∈ zip channels patterns → matchable get (v_indexed v channels) cp ↔
            ∃ d, d ∈ v_data v cp.1 ∧ is_Some (get cp.2 (d_a d))) as Hm.
  { intros [c p] Hin. unfold matchable. simpl. split.
    - intros (l & [d i] & [-> _]%v_indexed_lookup & Hx & Hg).
      apply elem_of_sorted_index, elem_of_index_data in Hx as (k & _ & Hk). exists d.
      split; [by eapply list_elem_of_lookup_2|done].
    - intros (d & [k Hk]%list_elem_of_lookup & Hg).
      exists (sort_by by_source (index_data (v_data v c))), (d, Z.of_nat k). split_and!; [|..|done].
      + unfold v_indexed. rewrite lookup_indexed_map, decide_True; [done|].
        by eapply elem_of_zip_l.
      + apply elem_of_sorted_index, elem_of_index_data. by exists k. }
  pose proof (extracts_complete get (zip channels patterns) (v_indexed v channels)) as Hc.
  rewrite fst_zip in Hc by lia. specialize (Hc Hnd). unfold v_match. split.
  - intros E. destruct (decide (Forall (λ cp, Exists (λ d, is_Some (get cp.2 (d_a d))) (v_data v cp.1))
      (zip channels patterns))) as [Hall|Hnot].
    + exfalso. destruct (proj2 Hc) as [cands He].
      { intros cp Hin. apply Hm; [done|]. rewrite Forall_forall in Hall.
        apply Exists_exists, Hall, Hin. }
      apply collect_extract in He. congruence.
    + apply not_Forall_Exists, Exists_exists in Hnot as ([c p] & Hin & Hn); [|apply _].
      exists c, p. split; [done|]. intros d Hd. simpl in Hn. destruct (get p (d_a d)) eqn:Eg; [|done].
      exfalso. apply Hn, Exists_exists. exists d. by rewrite Eg.
  - intros (c & p & Hin & Hn). destruct (collect _) as [cands|] eqn:E; [|done]. exfalso.
    apply collect_extract in E. pose proof (proj1 Hc (ex_intro _ _ E) _ Hin) as Hcp.
    apply Hm in Hcp as (d & Hd & [a Hg]); [|done]. simpl in *. rewrite Hn in Hg; done.
Qed.
(** ** The continuation a produce fires *)
Lemma NoDup_zip_fst channels (patterns : list P) : NoDup channels → NoDup (zip channels patterns).*1.
Proof.
  intros Hnd. eapply sublist_NoDup; [exact Hnd|]. clear Hnd. revert patterns.
  induction channels as [|c channels IH]; intros [|p patterns]; simpl; [constructor..| |].
  - apply sublist_nil_l.
  - by constructor.
Qed.

Lemma elem_of_index_continuations (conts : list WC) wc i :
  (wc, i) ∈ index_continuations conts ↔ conts !! i = Some wc.
Proof.
  unfold index_continuations. rewrite list_elem_of_lookup. setoid_rewrite list_lookup_imap. split.
  - intros [k Hk]. by apply fmap_Some in Hk as (wc' & Hl & [= -> ->]).
  - intros Hl. exists i. by rewrite Hl.
Qed.

Lemma produced_facts v channels c (d : Datum A) pairs cands :
  extracts get pairs (indexed_map (index_with_produced c d) v channels ∅) cands →
  in_store v cands ∧ Forall2 (serves v (Some (c, d))) pairs cands.
Proof.
  intros He. apply extracts_facts in He as [Hf Hnd].
  2:{ intros c' l [-> _]%produced_lookup. apply NoDup_produced. }
  eapply found_in_store; [|exact Hf|exact Hnd].
  intros c' l d' i [-> _]%produced_lookup [?|(-> & -> & ->)]%elem_of_produced; [by left|by right].
Qed.

Lemma v_extract_Some v grouped c (d : Datum A) pc :
  v_extract v grouped c d = Some pc →
  pc_channels pc ∈ grouped ∧
  v_get_conts v (pc_channels pc) !! continuation_index pc = Some (pc_continuation pc) ∧
  in_store v (data_candidates pc) ∧
  Forall2 (serves v (Some (c, d))) (zip (pc_channels pc) (wc_patterns (pc_continuation pc)))
    (data_candidates pc).
Proof.
  induction grouped as [|channels grouped IH]; [done|]. cbn -[extract_first_match].
  destruct (extract_first_match _ _ _ _) as [pc'|] eqn:E.
  - intros [= <-]. apply first_match_loop_Some in E as (l1 & wc & i & l2 & cands & Es & _ & He & ->).
    simpl. split; [by left|]. split; [|by apply produced_facts in He].
    apply elem_of_index_continuations, (elem_of_sort_by (λ a b, consume_cmp (wc_source a.1) (wc_source b.1))).
    rewrite Es. apply elem_of_app. right. by left.
  - intros (Hin & ?)%IH. split; [by right|done].
Qed.

(** A continuation is enabled when every pattern has an available datum. *)
Definition enabled v (inflight : option (C * Datum A)) channels (wc : WC) : Prop :=
  ∀ c p, (c, p) ∈ zip channels (wc_patterns wc) →
  ∃ d, available v inflight c d ∧ is_Some (get p (d_a d)).

Lemma v_extract_None v grouped c (d : Datum A) :
  (∀ j, j ∈ grouped → NoDup j) →
  v_extract v grouped c d = None →
  ∀ j wc, j ∈ grouped → wc ∈ v_get_conts v j → ¬ enabled v (Some (c, d)) j wc.
Proof.
  induction grouped as [|channels grouped IH]; intros Hnd; [by intros _ ? ? ?%elem_of_nil|].
  cbn -[extract_first_match]. destruct (extract_first_match _ _ _ _) as [pc|] eqn:E; [done|].
  intros Hn j wc [->|Hj]%elem_of_cons Hwc Hen; [|eapply IH; [|done..]; intros; apply Hnd; by right].
  apply list_elem_of_lookup in Hwc as [i Hi].
  destruct (proj2 (extracts_complete get (zip channels (wc_patterns wc))
    (indexed_map (index_with_produced c d) v channels ∅)
    (NoDup_zip_fst _ _ (Hnd channels ltac:(by left))))) as [cands He].
  - intros [c' p] Hin. destruct (Hen c' p Hin) as (d' & Ha & Hg).
    assert (∃ i, (d', i) ∈ index_with_produced c d c' (v_data v c')) as [i' Hi'].
    { destruct Ha as [[k Hk]%list_elem_of_lookup|[= -> ->]].
      - exists (Z.of_nat k). apply elem_of_produced. left. apply elem_of_index_data. by exists k.
      - exists (-1). apply elem_of_produced. by right. }
    eexists _, (d', i'). split_and!; [|exact Hi'|done].
    simpl. rewrite lookup_indexed_map, decide_True; [done|]. by eapply elem_of_zip_l.
  - eapply (proj1 (first_match_loop_None get channels _ _) E (wc, i)); [|exact He].
    by apply elem_of_sort_by, elem_of_index_continuations.
Qed.

(** ** The theorems *)

(** A store over a readable history, with a sound cache. *)
Definition store_ok (hs : InMemHotStore C P A K) : Prop := readable (reader_base hs) ∧ cache_ok hs.

Lemma shows_self hs : store_ok hs → shows (reader_base hs) (view hs) hs.
Proof. by intros []. Qed.

Lemma shows_store_ok r v hs : shows r v hs → store_ok hs.
Proof. intros [<- ? ? ?]. done. Qed.

(** The data at [c] that a result has taken from the store. *)
Definition takes_from (results : list (SpaceResult C A)) c (ds : list (Datum A)) : Prop :=
  Forall (λ d, d_persist d = false) ds ∧
  d_a <$> ds = sp_removed_datum <$> filter (λ res, sp_channel res = c ∧ sp_persistent res = false) results.

(** A result serves a pattern on a channel. *)
Definition answers (cp : C * P) (res : SpaceResult C A) : Prop :=
  sp_channel res = cp.1 ∧ get cp.2 (sp_removed_datum res) = Some (matched_datum res).

Lemma serves_answers v inflight pairs cands :
  Forall2 (serves v inflight) pairs cands →
  Forall2 answers pairs
    ((λ dc, mkSpaceResult (cc_channel dc) (d_a (cc_datum dc)) (removed_datum dc)
              (d_persist (cc_datum dc))) <$> cands).
Proof.
  intros Hf. rewrite Forall2_fmap_r. eapply Forall2_impl; [exact Hf|].
  intros [c p] cand (d & _ & mat & Hg & ->). done.
Qed.

Lemma taken_takes_from cands c :
  (∀ cand, cand ∈ cands → cc_channel cand = c → takes cand → 0 ≤ datum_index cand) →
  takes_from ((λ dc, mkSpaceResult (cc_channel dc) (d_a (cc_datum dc)) (removed_datum dc)
                (d_persist (cc_datum dc))) <$> cands) c (taken cands c).
Proof.
  intros Hi. split.
  - apply Forall_forall. intros d (cand & -> & _)%list_elem_of_fmap. done.
  - unfold taken. rewrite <- list_fmap_compose.
    induction cands as [|cand cands IH]; [done|]. rewrite fmap_cons, !filter_cons.
    assert (∀ x, x ∈ cands → cc_channel x = c → takes x → 0 ≤ datum_index x) as Hi'
      by (intros x ?; apply Hi; by right).
    specialize (IH Hi').
    destruct (decide (takes cand ∧ cc_channel cand = c ∧ 0 ≤ datum_index cand)) as [(Ht & Ec & _)|Hn].
    + rewrite decide_True by done. rewrite !fmap_cons, IH. done.
    + rewrite decide_False; [done|]. intros [Ec Ht]. apply Hn. split_and!; [done..|].
      apply Hi; [by left|done..].
Qed.
(** The parts of a view that an operation leaves as they are. *)
Lemma foldl_frame {X Y} (g : View → X → View) (proj : View → Y) v l :
  (∀ v a, proj (g v a) = proj v) → proj (foldl g v l) = proj v.
Proof. intros Hg. revert v. induction l as [|a l IH]; intros v; simpl; [done|]. by rewrite IH. Qed.

Lemma v_put_join_frame v c j :
  v_data (v_put_join v c j) = v_data v ∧ v_conts (v_put_join v c j) = v_conts v ∧
  v_iconts (v_put_join v c j) = v_iconts v ∧ v_ijoins (v_put_join v c j) = v_ijoins v.
Proof. unfold v_put_join. by case_decide. Qed.

Lemma v_put_join_elem v c j c' j' :
  j' ∈ v_joins (v_put_join v c j) c' ↔ j' ∈ v_joins v c' ∨ (c' = c ∧ j' = j).
Proof.
  unfold v_put_join. case_decide as Hd; simpl; [naive_solver|].
  unfold upd. case_decide as Ec; [subst; rewrite elem_of_cons|]; naive_solver.
Qed.

(** A continuation that waits: it is stored, and found from each channel. *)
Lemma v_wait_spec v channels (wk : WC) :
  v_data (v_wait v channels wk) = v_data v ∧
  v_conts (v_wait v channels wk) = upd (v_conts v) channels (wk :: v_conts v channels) ∧
  v_iconts (v_wait v channels wk) = v_iconts v ∧ v_ijoins (v_wait v channels wk) = v_ijoins v ∧
  ∀ c j, j ∈ v_joins (v_wait v channels wk) c ↔ j ∈ v_joins v c ∨ (c ∈ channels ∧ j = channels).
Proof.
  unfold v_wait. split_and!.
  - rewrite (foldl_frame _ v_data); [done|]. intros. apply v_put_join_frame.
  - rewrite (foldl_frame _ v_conts); [done|]. intros. apply v_put_join_frame.
  - rewrite (foldl_frame _ v_iconts); [done|]. intros. apply v_put_join_frame.
  - rewrite (foldl_frame _ v_ijoins); [done|]. intros. apply v_put_join_frame.
  - intros c j. rewrite (foldl_accum (λ w, j ∈ v_joins w c) (λ c', c = c' ∧ j = channels)).
    + simpl. naive_solver.
    + intros. apply v_put_join_elem.
Qed.

Lemma v_take_frame v cand :
  v_conts (v_take v cand) = v_conts v ∧ v_joins (v_take v cand) = v_joins v ∧
  v_iconts (v_take v cand) = v_iconts v ∧ v_ijoins (v_take v cand) = v_ijoins v.
Proof. unfold v_take, v_remove_datum. by destruct (d_persist (cc_datum cand)), (0 <=? datum_index cand). Qed.

Lemma v_take_step : takes_step v_take.
Proof. done. Qed.
Lemma v_take_and_join_step channels : takes_step (v_take_and_join channels).
Proof. intros v cand c. unfold v_take_and_join, v_remove_join. by destruct (position _ _). Qed.

Lemma v_remove_join_frame v c j :
  v_data (v_remove_join v c j) = v_data v ∧ v_conts (v_remove_join v c j) = v_conts v ∧
  v_iconts (v_remove_join v c j) = v_iconts v ∧ v_ijoins (v_remove_join v c j) = v_ijoins v.
Proof. unfold v_remove_join. by destruct (position _ _). Qed.

Lemma v_take_and_join_frame channels v cand :
  v_conts (v_take_and_join channels v cand) = v_conts v ∧
  v_iconts (v_take_and_join channels v cand) = v_iconts v.
Proof.
  unfold v_take_and_join. destruct (v_remove_join_frame (v_take v cand) (cc_channel cand) channels)
    as (_ & -> & -> & _). destruct (v_take_frame v cand) as (-> & _ & -> & _). done.
Qed.

Lemma v_remove_cont_get v channels i cs :
  v_get_conts (v_remove_cont v channels i) cs =
  if decide (cs = channels)
  then match v_iconts v cs, i with Some _, O => v_get_conts v cs | _, _ => delete i (v_get_conts v cs) end
  else v_get_conts v cs.
Proof.
  unfold v_remove_cont, v_get_conts. case_decide as E.
  - subst. destruct (v_iconts v channels) as [wc|] eqn:Ei; [destruct i|]; cbn [v_conts v_iconts v_set_conts];
      rewrite ?Ei, ?upd_eq; done.
  - destruct (v_iconts v channels); [destruct i|]; cbn [v_conts v_iconts v_set_conts];
      rewrite ?upd_ne by done; done.
Qed.

Lemma v_remove_cont_frame v channels i :
  v_data (v_remove_cont v channels i) = v_data v ∧ v_iconts (v_remove_cont v channels i) = v_iconts v.
Proof. unfold v_remove_cont. destruct (v_iconts v channels); [destruct i|]; done. Qed.

Lemma v_fire_conts v pc cs :
  v_get_conts (v_fire v pc) cs =
  if decide (cs = pc_channels pc ∧ wc_persist (pc_continuation pc) = false ∧
             (v_iconts v (pc_channels pc) = None ∨ continuation_index pc ≠ O))
  then delete (continuation_index pc) (v_get_conts v cs) else v_get_conts v cs.
Proof.
  unfold v_fire. set (w := if wc_persist _ then _ else _).
  assert (v_get_conts (foldl (v_take_and_join (pc_channels pc)) w (by_index_desc (data_candidates pc))) cs
    = v_get_conts w cs) as ->.
  { unfold v_get_conts. rewrite (foldl_frame _ v_conts), (foldl_frame _ v_iconts); [done|..];
      intros; apply v_take_and_join_frame. }
  unfold w. destruct (wc_persist _); [by rewrite decide_False by naive_solver|].
  rewrite v_remove_cont_get. case_decide as E.
  - subst. destruct (v_iconts v (pc_channels pc)) as [wc|], (continuation_index pc) as [|i];
      (rewrite decide_True by naive_solver) || (rewrite decide_False by naive_solver); done.
  - by rewrite decide_False by naive_solver.
Qed.

Lemma v_fire_data v pc c :
  in_store v (data_candidates pc) →
  v_data v c ≡ₚ taken (data_candidates pc) c ++ v_data (v_fire v pc) c.
Proof.
  intros [Hl Hd]. unfold v_fire. set (w := if wc_persist _ then _ else _).
  assert (v_data w = v_data v) as Ew.
  { unfold w. destruct (wc_persist _); [done|]. apply v_remove_cont_frame. }
  rewrite <- Ew. apply take_conserves; [apply v_take_and_join_step|]. split; [|done]. by rewrite Ew.
Qed.

Lemma v_fire_data_same v pc c :
  (∀ cand, cand ∈ data_candidates pc → cc_channel cand = c → datum_index cand < 0) →
  v_data (v_fire v pc) c = v_data v c.
Proof.
  intros Hneg. unfold v_fire. rewrite v_data_take_fold by apply v_take_and_join_step.
  assert (indices (by_index_desc (data_candidates pc)) c = []) as ->.
  { apply fmap_nil_iff, elem_of_nil_inv. intros cand [(_ & Ec & Hi) Hin]%list_elem_of_filter.
    rewrite (by_index_desc_perm (data_candidates pc)) in Hin. specialize (Hneg _ Hin Ec). lia. }
  simpl. destruct (wc_persist _); [done|]. by destruct (v_remove_cont_frame v (pc_channels pc) (continuation_index pc)) as [-> _].
Qed.

(** What serves a channel of the join: the channel is served once, so either by
    the datum being produced, or by a stored one and then the continuation was
    enabled without the new datum. *)
Lemma serves_enabled v inflight channels (wc : WC) cands :
  Forall2 (serves v inflight) (zip channels (wc_patterns wc)) cands → enabled v inflight channels wc.
Proof.
  intros Hf c p [k Hk]%list_elem_of_lookup.
  destruct (Forall2_lookup_l _ _ _ _ _ Hf Hk) as (cand & _ & d & Hav & mat & Hg & _).
  exists d. split; [|by eauto].
  destruct (0 <=? datum_index cand); [by left|by right].
Qed.

Lemma served_once v inflight channels (wc : WC) cands c :
  NoDup channels → c ∈ channels → length channels = length (wc_patterns wc) →
  Forall2 (serves v inflight) (zip channels (wc_patterns wc)) cands →
  ∃ p cand, cand ∈ cands ∧ serves v inflight (c, p) cand ∧
    ∀ cand', cand' ∈ cands → cc_channel cand' = c → cand' = cand.
Proof.
  intros Hnd [k Hk]%list_elem_of_lookup Hlen Hf.
  destruct (lookup_lt_is_Some_2 (wc_patterns wc) k) as [p Hp].
  { rewrite <- Hlen. by eapply lookup_lt_Some. }
  assert (zip channels (wc_patterns wc) !! k = Some (c, p)) as Hz.
  { apply lookup_zip_with_Some. by exists c, p. }
  destruct (Forall2_lookup_l _ _ _ _ _ Hf Hz) as (cand & Hcand & Hs). exists p, cand.
  split; [by eapply list_elem_of_lookup_2|]. split; [done|].
  intros cand' [k' Hk']%list_elem_of_lookup Ec.
  destruct (Forall2_lookup_r _ _ _ _ _ Hf Hk') as ([c2 p2] & Hcp2 & d2 & _ & mat2 & _ & Ecand2).
  rewrite Ecand2 in Ec. simpl in Ec. subst c2.
  assert (k = k') as <-; [|congruence].
  pose proof (NoDup_zip_fst channels (wc_patterns wc) Hnd) as Hn.
  eapply (NoDup_lookup _ _ _ c Hn); rewrite list_lookup_fmap; [by rewrite Hz|by rewrite Hcp2].
Qed.

Lemma fired_uses v c (d : Datum A) channels (wc : WC) cands :
  NoDup channels → c ∈ channels → length channels = length (wc_patterns wc) →
  Forall2 (serves v (Some (c, d))) (zip channels (wc_patterns wc)) cands →
  ((∀ cand, cand ∈ cands → cc_channel cand = c → datum_index cand < 0) ∧
   (∃ cand, cand ∈ cands ∧ cc_channel cand = c ∧ removed_datum cand = d_a d)) ∨
  ((∀ cand, cand ∈ cands → cc_channel cand = c → 0 ≤ datum_index cand) ∧ enabled v None channels wc).
Proof.
  intros Hnd Hc Hlen Hf.
  destruct (served_once _ _ _ _ _ c Hnd Hc Hlen Hf) as (p & cand & Hin & (d' & Hav & mat & _ & Ecand) & Hone).
  destruct (Z.leb_spec 0 (datum_index cand)) as [Hge|Hlt]; simpl in Hav.
  - right. split; [intros cand' ? ?; by rewrite (Hone cand')|].
    intros c' p' [k Hk]%list_elem_of_lookup.
    destruct (Forall2_lookup_l _ _ _ _ _ Hf Hk) as (cand' & Hk' & d2 & Hav' & mat' & Hg & Ecand').
    exists d2. split; [|by eauto]. left. simpl in *.
    destruct (Z.leb_spec 0 (datum_index cand')) as [|Hlt']; [done|]. injection Hav' as -> ->.
    exfalso. rewrite (Hone cand') in Hlt'; [lia|by eapply list_elem_of_lookup_2|by rewrite Ecand'].
  - left. split; [intros cand' ? ?; by rewrite (Hone cand')|].
    exists cand. injection Hav as ->. split; [done|]. by rewrite Ecand.
Qed.

End Spec.

(** ** Concrete runs *)
Module RSpaceExample.
#[export] Instance Z_serialize : Serialize Z := {
  ser_encode z := [as_u8 (Z.to_nat z)];
  ser_decode l := match l with [b] => Some (Z.of_nat (u8_val b)) | _ => None end;
}.

(** A repository that holds nothing. *)
Definition empty_reader : HistoryReaderBase Z Z Z Z :=
  mkReader (λ _, Ok []) (λ _, Ok []) (λ _, Ok []).
#[export] Instance empty_history : HistoryOps unit Z Z Z Z := {
  hr_root _ := [];
  hr_checkpoint _ _ := sr_ret ();
  hr_reset _ := sr_ret ();
  hr_reader _ _ := Ok empty_reader;
  hr_native_reader _ _ := Ok NoopNativeReader;
}.
Notation Space := (@RSpace Z Z Z Z unit _ _).

(** A pattern matches the equal datum; the digest keeps its input. *)
Definition eq_match (p a : Z) : option Z := if p =? a then Some a else None.
Definition digest (l : list byte) : hash := l.

Definition s0 : Space := rspace_new () (hot_store_new empty_reader).

Lemma s0_store_ok : store_ok (rs_store s0).
Proof. split; [split; intros; by eexists|split; intros *; simpl; by rewrite lookup_empty]. Qed.

(** [for (@p <- c) { k }], and [c!(a)]. *)
Definition do_consume (c p k : Z) (persist : bool) (s : Space) : Space * option ActionResult :=
  match consume digest eq_match [c] [p] k persist ∅ with
  | Some run => match run s with (s', Ok res) => (s', Some res) | (s', Err _) => (s', None) end
  | None => (s, None)
  end.
Definition do_produce (c a : Z) (s : Space) : Space * option ActionResult :=
  match produce digest eq_match c a false s with
  | (s', Ok res) => (s', Some res)
  | (s', Err _) => (s', None)
  end.
(** The continuation that ran, if one did. *)
Definition ran (r : option (@ActionResult Z Z Z Z)) : option Z :=
  match r with Some (Some (cont, _)) => Some (cr_continuation cont) | _ => None end.
Definition stored (s : Space) (c : Z) : list Z := d_a <$> v_data (view (rs_store s)) c.
Definition waiting (s : Space) (c : Z) : list Z := wc_continuation <$> v_get_conts (view (rs_store s)) [c].

(** A contract on channel 1 and two calls. *)
Definition contract1 := do_consume 1 7 100 true s0.
Definition call1 := do_produce 1 7 contract1.1.
Definition call2 := do_produce 1 7 call1.1.

(** A persistent continuation answers only one produce.  The contract
    [contract @1(7) = 100] runs for the first message sent to it; firing it
    removes the join record of its channel although the continuation keeps
    waiting, so the second message is stored beside the waiting continuation
    that matches it, and nothing runs. *)
Theorem contract_answers_once :
  ran call1.2 = Some 100 ∧ waiting call1.1 1 = [100] ∧
  ran call2.2 = None ∧ waiting call2.1 1 = [100] ∧ stored call2.1 1 = [7].
Proof. by vm_compute. Qed.

(** Two receivers of 7, one of 9, and messages 7, 7 and 5. *)
Definition lost1 := do_consume 1 7 101 false (do_consume 1 7 100 false s0).1.
Definition lost2 := do_produce 1 7 (do_produce 1 7 lost1.1).1.
Definition lost3 := do_produce 1 5 (do_consume 1 9 102 false lost2.1).1.

(** A produce can lose its datum.  After the second receiver of 7 was
    missed, a receiver of 9 restores the join record; the message 5, which no
    receiver matches, then fires the missed receiver with the stored 7, and 5
    is neither stored nor received. *)
Theorem produce_drops_datum :
  ran lost2.2 = None ∧ stored lost2.1 1 = [7] ∧
  is_Some (ran lost3.2) ∧ stored lost3.1 1 = [] ∧
  waiting lost3.1 1 = [102].
Proof. split_and!; [by vm_compute..| |by vm_compute|by vm_compute]. vm_compute. by eexists. Qed.


Definition s1 : Space := contract1.1.
Lemma s1_store_ok : store_ok (rs_store s1).
Proof.
  destruct (locked_consume_spec (Repo := unit) eq_match _ _ s0 [1] [7] 100 true ∅
    (consume_apply digest [1] [7] 100 true) (shows_self _ s0_store_ok)) as (hs & E & Hs).
  unfold s1, contract1, do_consume, consume. rewrite bool_decide_true by done.
  cbn [length Nat.eqb andb]. rewrite E. destruct (consume_result _ _ _ _ _) as [|]; by eapply shows_store_ok.
Qed.

Lemma s1_joins : v_get_joins (view (rs_store s1)) 1 = [[1]].
Proof. by vm_compute. Qed.
Lemma s1_patterns : length ∘ wc_patterns <$> v_get_conts (view (rs_store s1)) [1] = [1%nat].
Proof. by vm_compute. Qed.

End RSpaceExample.
