(* ===== verification/ReplayRSpace.v ===== *)
(** * The replay tuple space

    [rspace/src/replay_rspace.rs].  The recorded COMMs are kept by the hash of
    the consume and of the produces they mention; COMMs are compared with
    [comm_eqb].  The wrapped play space is a field; the operations of the source
    that only forward to it are the ones of [RSpace]. *)

From S2P Require Import Prelude BTree Bytes Trace HotStore SpaceMatcher NativeStore RSpace RSpaceSpec.

Record ReplayData := mkReplayData {
  by_consume : gmap hash (list Comm);
  by_produce : gmap hash (list Comm);
}.

Definition comms_for_consume (rd : ReplayData) (consume : Consume) : option (list Comm) :=
  by_consume rd !! c_hash consume.
Definition comms_for_produce (rd : ReplayData) (produce : Produce) : option (list Comm) :=
  by_produce rd !! p_hash produce.

(** Remove the first equal COMM of an entry, and the entry if it gets empty. *)
Definition remove_binding (m : gmap hash (list Comm)) (key : hash) (comm : Comm) :
    gmap hash (list Comm) :=
  match m !! key with
  | None => m
  | Some comms =>
      let comms := match position (λ c, comm_eqb c comm) comms with
                   | Some pos => remove_index comms pos
                   | None => comms
                   end in
      match comms with [] => delete key m | _ => <[key := comms]> m end
  end.
Definition remove_consume_binding (rd : ReplayData) (consume : Consume) (comm : Comm) : ReplayData :=
  mkReplayData (remove_binding (by_consume rd) (c_hash consume) comm) (by_produce rd).
Definition remove_produce_binding (rd : ReplayData) (produce : Produce) (comm : Comm) : ReplayData :=
  mkReplayData (by_consume rd) (remove_binding (by_produce rd) (p_hash produce) comm).

Definition replay_is_empty (rd : ReplayData) : bool :=
  bool_decide (by_consume rd = ∅) && bool_decide (by_produce rd = ∅).
Definition replay_len (rd : ReplayData) : nat :=
  (sum_list_with length (map_values (by_consume rd)) +
   sum_list_with length (map_values (by_produce rd)))%nat.

(** [entry(key).or_default().push(comm)]. *)
Definition push_binding (m : gmap hash (list Comm)) (key : hash) (comm : Comm) :
    gmap hash (list Comm) :=
  <[key := default [] (m !! key) ++ [comm]]> m.

Definition log_produces (log : Log) : gset hash :=
  list_to_set (omap (λ e, match e with EvProduce p => Some (p_hash p) | _ => None end) log).
Definition log_consumes (log : Log) : gset hash :=
  list_to_set (omap (λ e, match e with EvConsume c => Some (c_hash c) | _ => None end) log).

Definition bind_comm (produces consumes : gset hash) (rd : ReplayData) (comm : Comm) : ReplayData :=
  mkReplayData
    (if bool_decide (c_hash (comm_consume comm) ∈ consumes)
     then push_binding (by_consume rd) (c_hash (comm_consume comm)) comm else by_consume rd)
    (foldl (λ m produce,
       if bool_decide (p_hash produce ∈ produces) then push_binding m (p_hash produce) comm else m)
       (by_produce rd) (comm_produces comm)).

Definition build_replay_data (log : Log) : ReplayData :=
  foldl (λ rd e, match e with
                 | EvComm comm => bind_comm (log_produces log) (log_consumes log) rd comm
                 | _ => rd
                 end) (mkReplayData ∅ ∅) log.

Definition remove_bindings_for (rd : ReplayData) (comm : Comm) : ReplayData :=
  foldl (λ rd produce, remove_produce_binding rd produce comm)
    (remove_consume_binding rd (comm_consume comm) comm) (comm_produces comm).

Section ReplayRSpace.
Context (create : list byte → hash).
Context {C P A K Repo : Type} `{!Ord C} `{Countable C}.
Context `{!Serialize C, !Serialize P, !Serialize A, !Serialize K} `{!HistoryOps Repo C P A K}.
Context (get : P → A → option A).
Notation WC := (WaitingContinuation P K).
Notation Space := (@RSpace C P A K Repo _ _).

Record ReplayRSpace := mkReplay {
  rp_space : Space;
  replay_data : ReplayData;
}.

Definition RPM (X : Type) : Type := StateResult ReplayRSpace X RSpaceError.
Definition on_space {X} (m : StateResult Space X RSpaceError) : RPM X :=
  sr_zoom rp_space (λ sp s, mkReplay sp (replay_data s)) m.

Definition matches (s : Space) (comm : Comm) (datum : Datum A) : bool :=
  if negb (existsb (λ p, produce_eqb p (d_source datum)) (comm_produces comm)) then false
  else if d_persist datum then true
  else
    let expected := default 0%nat (times_repeated comm !! p_hash (d_source datum)) in
    (produce_counter_value s (d_source datum) =? expected)%nat.

(** The stored data that takes part in [comm], with its index. *)
Definition filter_matches (s : Space) (comm : Comm) (l : list (Datum A * Z)) : list (Datum A * Z) :=
  filter (λ x, matches s comm x.1 = true) l.

Definition run_matcher_consume (channels : list C) (patterns : list P) (comm : Comm) :
    RPM (option (list (ConsumeCandidate C A))) :=
  s ←$ sr_gets rp_space;
  channel_to_indexed_data ←$
    on_space (fetch_loop (λ _ l, filter_matches s comm (index_data l)) channels ∅);
  sr_ret (collect (extract_data_candidates get (zip channels patterns) channel_to_indexed_data)).

Fixpoint get_comm_and_consume_candidates (channels : list C) (patterns : list P)
    (comms : list Comm) : RPM (option (Comm * list (ConsumeCandidate C A))) :=
  match comms with
  | [] => sr_ret None
  | comm :: comms' =>
      found ←$ run_matcher_consume channels patterns comm;
      match found with
      | Some cands => sr_ret (Some (comm, cands))
      | None => get_comm_and_consume_candidates channels patterns comms'
      end
  end.

Definition index_for_comm (s : Space) (comm : Comm) (channel : C) (datum : Datum A) (c : C)
    (l : list (Datum A)) : list (Datum A * Z) :=
  filter_matches s comm
    ((if bool_decide (c = channel) then [(datum, -1)] else []) ++ index_data l).

Fixpoint run_matcher_produce (channel : C) (datum : Datum A) (comm : Comm)
    (grouped_channels : list (list C)) : RPM (option (ProduceCandidate C P A K)) :=
  match grouped_channels with
  | [] => sr_ret None
  | channels :: grouped_channels' =>
      conts ←$ on_space (on_store (get_continuations channels));
      let match_candidates :=
        filter (λ x, consume_eqb (comm_consume comm) (wc_source x.1) = true)
          (index_continuations conts) in
      s ←$ sr_gets rp_space;
      channel_to_indexed_data ←$
        on_space (fetch_loop (index_for_comm s comm channel datum) channels ∅);
      match extract_first_match get channels match_candidates channel_to_indexed_data with
      | Some pc => sr_ret (Some pc)
      | None => run_matcher_produce channel datum comm grouped_channels'
      end
  end.

Fixpoint get_comm_or_produce_candidate (channel : C) (datum : Datum A) (comms : list Comm)
    (grouped_channels : list (list C)) : RPM (option (Comm * ProduceCandidate C P A K)) :=
  match comms with
  | [] => sr_ret None
  | comm :: comms' =>
      found ←$ run_matcher_produce channel datum comm grouped_channels;
      match found with
      | Some pc => sr_ret (Some (comm, pc))
      | None => get_comm_or_produce_candidate channel datum comms' grouped_channels
      end
  end.

Definition use_comm (comm : Comm) : RPM unit :=
  sr_modify (λ s, mkReplay (rp_space s) (remove_bindings_for (replay_data s) comm)).

Definition replay_locked_consume (channels : list C) (patterns : list P) (continuation : K)
    (persist : bool) (peeks : gset nat) (consume_ref : Consume) : RPM (@ActionResult C P A K) :=
  let wk := mkWC patterns continuation persist peeks consume_ref in
  bound ←$ sr_gets (λ s, comms_for_consume (replay_data s) consume_ref);
  match bound with
  | None => on_space (store_waiting_continuation channels wk)
  | Some comms =>
      found ←$ get_comm_and_consume_candidates channels patterns comms;
      match found with
      | None => on_space (store_waiting_continuation channels wk)
      | Some (_, cands) =>
          comm_ref ←$ sr_gets (λ s, comm_of (rp_space s) cands consume_ref peeks);
          if negb (existsb (λ c, comm_eqb c comm_ref) comms) then sr_err ReplayCommNotInTrace
          else
            _ ←$ on_space (store_persistent_data cands);
            _ ←$ use_comm comm_ref;
            sr_ret (wrap_result channels wk cands)
      end
  end.

Definition handle_match (pc : ProduceCandidate C P A K) (comms : list Comm) :
    RPM (@ActionResult C P A K) :=
  let wk := pc_continuation pc in
  comm_ref ←$ sr_gets (λ s, comm_of (rp_space s) (data_candidates pc) (wc_source wk) (wc_peeks wk));
  if negb (existsb (λ c, comm_eqb c comm_ref) comms) then sr_err ReplayCommNotInTrace
  else
    _ ←$ on_space (if wc_persist wk then sr_ret ()
                   else on_store (remove_continuation (pc_channels pc) (continuation_index pc)));
    _ ←$ on_space (remove_matched_datum_and_join (pc_channels pc) (data_candidates pc));
    _ ←$ use_comm comm_ref;
    sr_ret (wrap_result (pc_channels pc) wk (data_candidates pc)).

Definition replay_locked_produce (channel : C) (data : A) (persist : bool) (produce_ref : Produce) :
    RPM (@ActionResult C P A K) :=
  let datum := mkDatum data persist produce_ref in
  grouped_channels ←$ on_space (on_store (get_joins channel));
  _ ←$ on_space (if persist then sr_ret () else increment_produce_counter produce_ref);
  bound ←$ sr_gets (λ s, comms_for_produce (replay_data s) produce_ref);
  match bound with
  | None => on_space (store_data channel data persist produce_ref)
  | Some comms =>
      found ←$ get_comm_or_produce_candidate channel datum comms grouped_channels;
      match found with
      | None => on_space (store_data channel data persist produce_ref)
      | Some (_, pc) => handle_match pc comms
      end
  end.

Definition replay_consume (channels : list C) (patterns : list P) (continuation : K)
    (persist : bool) (peeks : gset nat) : option (RPM (@ActionResult C P A K)) :=
  if bool_decide (channels ≠ []) && (length channels =? length patterns)%nat
  then Some (replay_locked_consume channels patterns continuation persist peeks
               (consume_apply create channels patterns continuation persist))
  else None.

Definition replay_produce (channel : C) (data : A) (persist : bool) : RPM (@ActionResult C P A K) :=
  _ ←$ on_space (on_store (get_joins channel));
  replay_locked_produce channel data persist (produce_apply create channel data persist).

(** ** Rigging and checking *)
Definition rig (log : Log) (s : ReplayRSpace) : ReplayRSpace :=
  mkReplay (rp_space s) (build_replay_data log).

Definition rig_and_reset (start_root : hash) (log : Log) : StateResult ReplayRSpace unit HistoryError :=
  λ s, sr_zoom rp_space (λ sp s, mkReplay sp (replay_data s)) (space_reset start_root) (rig log s).

Inductive ReplayException := UnusedComms (left : nat).

Definition check_replay_data (s : ReplayRSpace) : Result unit ReplayException :=
  if replay_is_empty (replay_data s) then Ok () else Err (UnusedComms (replay_len (replay_data s))).

Definition replay_create_checkpoint :
    StateResult ReplayRSpace Checkpoint (ReplayException + HistoryError) := λ s,
  match check_replay_data s with
  | Err e => (s, Err (inl e))
  | Ok _ =>
      let '(sp, res) := create_checkpoint (rp_space s) in
      (mkReplay sp (replay_data s),
       match res with Ok cp => Ok cp | Err e => Err (inr e) end)
  end.
End ReplayRSpace.
