(* ===== verification/ReplaySpec.v ===== *)
(** * Replay accepts exactly the recorded communications

    The bookkeeping of [ReplayRSpace] as a multiset of COMMs that remain to be
    performed, and the two directions of Law 11: a replay that passes the final
    check has performed exactly the recorded COMMs, and the replay of a play run
    whose events are distinct performs the same steps. *)

From stdpp Require Import gmultiset.
From S2P Require Import Prelude BTree Bytes Trace HotStore SpaceMatcher NativeStore RSpace RSpaceSpec.
From S2P Require Import ReplayRSpace.

Notation CommView := (hash * list hash * gset nat * gmap hash nat)%type.

(** A loop with a guard is the loop over the elements that pass it. *)
Lemma foldl_if_filter {X Y} (f : Y → X → Y) (Q : X → Prop) `{!∀ x, Decision (Q x)} y l :
  foldl (λ y x, if bool_decide (Q x) then f y x else y) y l = foldl f y (filter Q l).
Proof.
  revert y. induction l as [|x l IH]; intros y; [done|]. rewrite filter_cons. cbn [foldl].
  rewrite IH. by case_bool_decide; [rewrite decide_True|rewrite decide_False].
Qed.

Lemma list_to_set_disj_inj {E} `{Countable E} (l k : list E) :
  (list_to_set_disj l : gmultiset E) = list_to_set_disj k → l ≡ₚ k.
Proof.
  revert k. induction l as [|x l IH]; intros k E'; simpl in E'.
  - destruct k as [|y k]; [done|]. exfalso. simpl in E'. multiset_solver.
  - assert (x ∈ k) as [k' Hk]%elem_of_Permutation.
    { rewrite <- elem_of_list_to_set_disj, <- E'. multiset_solver. }
    rewrite Hk in E' |- *. constructor. apply IH. simpl in E'. multiset_solver.
Qed.

(** ** The bindings as multisets *)
Section Bindings.
Implicit Types (m : gmap hash (list Comm)) (x : CommView) (comm : Comm) (h : hash).

Definition bag m h : gmultiset CommView := list_to_set_disj (comm_view <$> default [] (m !! h)).

Definition no_empty m : Prop := ∀ h, m !! h ≠ Some [].

Lemma position_Some {E} (f : E → bool) l i :
  position f l = Some i → ∃ e, l !! i = Some e ∧ f e = true.
Proof.
  revert i. induction l as [|e l IH]; intros i; simpl; [done|].
  destruct (f e) eqn:Ef; [intros [= <-]; by exists e|].
  intros (j & Hj & ->)%fmap_Some. by apply IH.
Qed.
Lemma position_None {E} (f : E → bool) l : position f l = None → ∀ e, e ∈ l → f e = false.
Proof.
  induction l as [|e l IH]; simpl; [by intros _ ? ?%elem_of_nil|].
  destruct (f e) eqn:Ef; [done|]. intros Hn%fmap_None e' [->|Hin]%elem_of_cons; auto.
Qed.

(** Removing the first equal COMM takes one copy of its view. *)
Lemma remove_first_bag (comms : list Comm) comm :
  list_to_set_disj (comm_view <$>
    match position (λ c, comm_eqb c comm) comms with
    | Some pos => remove_index comms pos
    | None => comms
    end) = (list_to_set_disj (comm_view <$> comms) : gmultiset CommView) ∖ {[+ comm_view comm +]}.
Proof.
  destruct (position _ comms) as [pos|] eqn:Ep.
  - apply position_Some in Ep as (c & Hc & Ev%comm_eqb_view).
    rewrite (delete_Permutation comms pos c Hc) at 2. rewrite fmap_cons. simpl. rewrite Ev.
    unfold remove_index. multiset_solver.
  - assert (comm_view comm ∉ (list_to_set_disj (comm_view <$> comms) : gmultiset CommView)); [|multiset_solver].
    rewrite elem_of_list_to_set_disj, list_elem_of_fmap. intros (c & Ev & Hc).
    apply (position_None _ _ Ep) in Hc.
    assert (comm_eqb c comm = true) by (by apply comm_eqb_view). congruence.
Qed.

Lemma bag_remove m h comm h' :
  bag (remove_binding m h comm) h' =
  if decide (h' = h) then bag m h ∖ {[+ comm_view comm +]} else bag m h'.
Proof.
  unfold remove_binding, bag. destruct (m !! h) as [comms|] eqn:E.
  - change (default [] (Some comms)) with comms. rewrite <- (remove_first_bag comms comm). set (comms' := match position _ _ with Some _ => _ | None => _ end).
    case_decide as Eh.
    + subst. destruct comms'; [by rewrite lookup_delete_eq|by rewrite lookup_insert_eq].
    + destruct comms'; [by rewrite lookup_delete_ne|by rewrite lookup_insert_ne].
  - case_decide as Eh; [|done]. subst. rewrite E. simpl. multiset_solver.
Qed.

Lemma no_empty_remove m h comm : no_empty m → no_empty (remove_binding m h comm).
Proof.
  intros Hm h'. unfold remove_binding. destruct (m !! h) as [comms|] eqn:E; [|apply Hm].
  destruct (match position _ _ with Some _ => _ | None => _ end) as [|c comms'] eqn:Ec.
  - intros Hd. apply lookup_delete_Some in Hd as [_ Hd]. by apply Hm in Hd.
  - intros Hd. apply lookup_insert_Some in Hd as [[_ ?]|[_ Hd]]; [done|]. by apply Hm in Hd.
Qed.

Lemma bag_push m h comm h' :
  bag (push_binding m h comm) h' =
  if decide (h' = h) then bag m h ⊎ {[+ comm_view comm +]} else bag m h'.
Proof.
  unfold push_binding, bag. case_decide as E.
  - subst. rewrite lookup_insert_eq. simpl. rewrite fmap_app, list_to_set_disj_app. simpl. multiset_solver.
  - by rewrite lookup_insert_ne.
Qed.

Lemma no_empty_push m h comm : no_empty m → no_empty (push_binding m h comm).
Proof.
  intros Hm h' Hd. unfold push_binding in Hd. apply lookup_insert_Some in Hd as [[_ Hd]|[_ Hd]]; [|by apply Hm in Hd].
  by destruct (default [] (m !! h)).
Qed.

(** How often a hash occurs among the keys of a COMM. *)
Definition occurs h (l : list hash) : nat := length (filter (h =.) l).

Lemma occurs_cons h k l : occurs h (k :: l) = ((if decide (h = k) then 1 else 0) + occurs h l)%nat.
Proof. unfold occurs. rewrite filter_cons. by case_decide. Qed.
Lemma occurs_pos h l : h ∈ l → (0 < occurs h l)%nat.
Proof.
  intros Hin. unfold occurs. assert (h ∈ filter (h =.) l) by (by apply list_elem_of_filter).
  destruct (filter (h =.) l); [by apply elem_of_nil in H|simpl; lia].
Qed.
Lemma occurs_zero h l : h ∉ l → occurs h l = 0%nat.
Proof.
  induction l as [|k l IH]; [done|]. rewrite not_elem_of_cons, occurs_cons. intros [Hne Hn].
  by rewrite decide_False, IH.
Qed.

Lemma mult_single x y : multiplicity x {[+ y +]} = if decide (x = y) then 1%nat else 0%nat.
Proof.
  case_decide as E; [subst; apply multiplicity_singleton_eq|by apply multiplicity_singleton_ne].
Qed.

Lemma mult_remove_all m (ks : list hash) comm h x :
  multiplicity x (bag (foldl (λ m k, remove_binding m k comm) m ks) h) =
  (multiplicity x (bag m h) - if decide (x = comm_view comm) then occurs h ks else 0)%nat.
Proof.
  revert m. induction ks as [|k ks IH]; intros m; cbn [foldl].
  { unfold occurs. simpl. case_decide; lia. }
  rewrite IH, bag_remove, occurs_cons. destruct (decide (h = k)) as [->|].
  - rewrite multiplicity_difference, mult_single. case_decide; lia.
  - case_decide; lia.
Qed.

Lemma mult_push_all m (ks : list hash) comm h x :
  multiplicity x (bag (foldl (λ m k, push_binding m k comm) m ks) h) =
  (multiplicity x (bag m h) + if decide (x = comm_view comm) then occurs h ks else 0)%nat.
Proof.
  revert m. induction ks as [|k ks IH]; intros m; cbn [foldl].
  { unfold occurs. simpl. case_decide; lia. }
  rewrite IH, bag_push, occurs_cons. destruct (decide (h = k)) as [->|].
  - rewrite multiplicity_disj_union, mult_single. case_decide; lia.
  - case_decide; lia.
Qed.
End Bindings.

(** ** The COMMs that remain *)
Section Accounts.
Context (produces consumes : gset hash).
Implicit Types (rd : ReplayData) (R : gmultiset CommView) (comm : Comm) (x : CommView) (h : hash).

(** The keys under which a COMM is bound. *)
Definition consume_keys x : list hash := filter (λ h, h ∈ consumes) [x.1.1.1].
Definition produce_keys x : list hash := filter (λ h, h ∈ produces) x.1.1.2.

Record accounts R rd : Prop := {
  acc_consume h x : multiplicity x (bag (by_consume rd) h) = (multiplicity x R * occurs h (consume_keys x))%nat;
  acc_produce h x : multiplicity x (bag (by_produce rd) h) = (multiplicity x R * occurs h (produce_keys x))%nat;
  acc_no_empty_consume : no_empty (by_consume rd);
  acc_no_empty_produce : no_empty (by_produce rd);
}.

Lemma accounts_empty : accounts ∅ (mkReplayData ∅ ∅).
Proof. split; [done|done|intros h; simpl; by rewrite lookup_empty..]. Qed.

Lemma occurs_filter (X : gset hash) h l :
  occurs h (filter (λ k, k ∈ X) l) = if decide (h ∈ X) then occurs h l else 0%nat.
Proof.
  induction l as [|k l IH]; [unfold occurs; simpl; by case_decide|].
  rewrite filter_cons, occurs_cons. destruct (decide (k ∈ X)) as [Hk|Hk].
  - rewrite occurs_cons, IH. destruct (decide (h ∈ X)), (decide (h = k)); subst; done.
  - rewrite IH. destruct (decide (h ∈ X)), (decide (h = k)); subst; done.
Qed.

(** Binding a recorded COMM. *)
Lemma accounts_bind R rd comm :
  accounts R rd → accounts (R ⊎ {[+ comm_view comm +]}) (bind_comm produces consumes rd comm).
Proof.
  intros [Hc Hp Nc Np].
  assert (by_consume (bind_comm produces consumes rd comm) =
    foldl (λ m k, push_binding m k comm) (by_consume rd) (consume_keys (comm_view comm))) as Ec.
  { unfold bind_comm, consume_keys. cbn [by_consume comm_view fst]. rewrite filter_cons, filter_nil.
    by case_bool_decide; [rewrite decide_True|rewrite decide_False]. }
  assert (by_produce (bind_comm produces consumes rd comm) =
    foldl (λ m k, push_binding m k comm) (by_produce rd) (produce_keys (comm_view comm))) as Ep.
  { unfold bind_comm, produce_keys. cbn [by_produce comm_view fst snd].
    rewrite <- foldl_if_filter. generalize (by_produce rd) as m.
    induction (comm_produces comm) as [|p ps IH]; intros m; [done|]. rewrite fmap_cons. cbn [foldl]. apply IH. }
  assert (∀ m l, no_empty m → no_empty (foldl (λ m k, push_binding m k comm) m l)) as Hne.
  { intros m l Hm. apply foldl_inv; [done|]. intros. by apply no_empty_push. }
  split.
  - intros h x. rewrite Ec, mult_push_all, Hc, multiplicity_disj_union, mult_single.
    destruct (decide (x = comm_view comm)) as [->|]; lia.
  - intros h x. rewrite Ep, mult_push_all, Hp, multiplicity_disj_union, mult_single.
    destruct (decide (x = comm_view comm)) as [->|]; lia.
  - rewrite Ec. auto.
  - rewrite Ep. auto.
Qed.

(** Using a COMM that remains. *)
Lemma accounts_use R rd comm :
  accounts R rd → comm_view comm ∈ R →
  accounts (R ∖ {[+ comm_view comm +]}) (remove_bindings_for rd comm).
Proof.
  intros [Hc Hp Nc Np] Hin.
  assert (by_consume (remove_bindings_for rd comm) =
    foldl (λ m k, remove_binding m k comm) (by_consume rd) [(comm_view comm).1.1.1]) as Ec.
  { unfold remove_bindings_for. apply (foldl_inv (λ rd', by_consume rd' = _)); [done|]. by intros. }
  assert (by_produce (remove_bindings_for rd comm) =
    foldl (λ m k, remove_binding m k comm) (by_produce rd) (comm_view comm).1.1.2) as Ep.
  { unfold remove_bindings_for. cbn [comm_view fst snd].
    change (by_produce rd) with (by_produce (remove_consume_binding rd (comm_consume comm) comm)).
    generalize (remove_consume_binding rd (comm_consume comm) comm) as rd'.
    induction (comm_produces comm) as [|p ps IH]; intros rd'; [done|]. rewrite fmap_cons. cbn [foldl]. apply IH. }
  assert (∀ m l, no_empty m → no_empty (foldl (λ m k, remove_binding m k comm) m l)) as Hne.
  { intros m l Hm. apply foldl_inv; [done|]. intros. by apply no_empty_remove. }
  apply (proj1 (elem_of_multiplicity _ R)) in Hin. split.
  - intros h x. rewrite Ec, mult_remove_all, Hc, multiplicity_difference, mult_single.
    unfold consume_keys. rewrite occurs_filter.
    destruct (decide (x = comm_view comm)) as [->|]; [case_decide; nia|by rewrite !Nat.sub_0_r].
  - intros h x. rewrite Ep, mult_remove_all, Hp, multiplicity_difference, mult_single.
    unfold produce_keys. rewrite occurs_filter.
    destruct (decide (x = comm_view comm)) as [->|]; [case_decide; nia|by rewrite !Nat.sub_0_r].
  - rewrite Ec. auto.
  - rewrite Ep. auto.
Qed.

(** A COMM found among the bindings remains. *)
Lemma accounts_bound R rd comms comm h :
  accounts R rd →
  by_consume rd !! h = Some comms ∨ by_produce rd !! h = Some comms →
  existsb (λ c, comm_eqb c comm) comms = true → comm_view comm ∈ R.
Proof.
  intros [Hc Hp _ _] Hb (c & Hin & Ev%comm_eqb_view)%existsb_elem.
  assert (∀ m, m !! h = Some comms → (0 < multiplicity (comm_view comm) (bag m h))%nat) as Hpos.
  { intros m Hm. assert (comm_view comm ∈ bag m h) as Hbag; [|by apply (proj1 (elem_of_multiplicity _ _)) in Hbag].
    unfold bag. rewrite Hm, elem_of_list_to_set_disj, <- Ev. by apply list_elem_of_fmap_2. }
  apply elem_of_multiplicity. destruct Hb as [Hb|Hb]; apply Hpos in Hb.
  - rewrite Hc in Hb. nia.
  - rewrite Hp in Hb. nia.
Qed.

(** Nothing is bound: no COMM that remains has a key. *)
Lemma accounts_is_empty R rd :
  accounts R rd → replay_is_empty rd = true →
  ∀ x, x ∈ R → consume_keys x = [] ∧ produce_keys x = [].
Proof.
  intros [Hc Hp _ _] He x Hin. apply (proj1 (elem_of_multiplicity x R)) in Hin. unfold replay_is_empty in He.
  apply andb_true_iff in He as [Ec%bool_decide_eq_true Ep%bool_decide_eq_true].
  assert (∀ l : list hash, (∀ h, occurs h l = 0%nat) → l = []) as Hnil.
  { intros l Hl. apply elem_of_nil_inv. intros h Hh%occurs_pos. specialize (Hl h). lia. }
  split; apply Hnil; intros h.
  - specialize (Hc h x). rewrite Ec in Hc. unfold bag in Hc. rewrite lookup_empty in Hc. simpl in Hc.
    rewrite multiplicity_empty in Hc. nia.
  - specialize (Hp h x). rewrite Ep in Hp. unfold bag in Hp. rewrite lookup_empty in Hp. simpl in Hp.
    rewrite multiplicity_empty in Hp. nia.
Qed.

(** A COMM is bound if it mentions one of the events. *)
Definition bound comm : Prop :=
  c_hash (comm_consume comm) ∈ consumes ∨ ∃ p, p ∈ comm_produces comm ∧ p_hash p ∈ produces.

Lemma bound_keys comm :
  bound comm ↔ ¬ (consume_keys (comm_view comm) = [] ∧ produce_keys (comm_view comm) = []).
Proof.
  unfold bound, consume_keys, produce_keys. cbn [comm_view fst snd].
  assert (∀ (X : gset hash) l, filter (λ h, h ∈ X) l = [] ↔ ∀ h, h ∈ l → h ∉ X) as Hnil.
  { intros X l. split.
    - intros E h Hh HX. by apply (filter_nil_not_elem_of _ _ _ E HX) in Hh.
    - intros H. apply elem_of_nil_inv. intros h [HX Hh]%list_elem_of_filter. by apply (H h). }
  rewrite !Hnil. setoid_rewrite list_elem_of_singleton. setoid_rewrite list_elem_of_fmap. split.
  - intros [Hc|(p & Hp & HX)] [H1 H2]; [by apply (H1 _ eq_refl)|apply (H2 (p_hash p)); eauto].
  - intros Hn. destruct (decide (c_hash (comm_consume comm) ∈ consumes)) as [|Hc]; [by left|right].
    destruct (decide (Exists (λ p, p_hash p ∈ produces) (comm_produces comm))) as [He|He].
    + apply Exists_exists in He as (p & ? & ?). eauto.
    + destruct Hn. split; [by intros ? ->|]. intros ? (p & -> & Hp) HX. apply He, Exists_exists. eauto.
Qed.

#[export] Instance bound_dec comm : Decision (bound comm).
Proof.
  refine (cast_if_not (decide (consume_keys (comm_view comm) = [] ∧ produce_keys (comm_view comm) = [])));
    rewrite bound_keys; tauto.
Defined.
End Accounts.

(** The recorded COMMs of a log. *)
Definition log_comms (log : Log) : list Comm :=
  omap (λ e, match e with EvComm comm => Some comm | _ => None end) log.
Definition comm_bag (l : list Comm) : gmultiset CommView := list_to_set_disj (comm_view <$> l).

Lemma build_accounts log :
  accounts (log_produces log) (log_consumes log) (comm_bag (log_comms log)) (build_replay_data log).
Proof.
  unfold build_replay_data. generalize (log_produces log) as ps, (log_consumes log) as cs. intros ps cs.
  assert (∀ R rd l, accounts ps cs R rd →
    accounts ps cs (R ⊎ comm_bag (log_comms l))
      (foldl (λ rd e, match e with EvComm comm => bind_comm ps cs rd comm | _ => rd end) rd l)) as Hgen.
  { intros R rd l. revert R rd. induction l as [|e l IH]; intros R rd Ha.
    - unfold comm_bag, log_comms. simpl. by rewrite gmultiset_disj_union_right_id.
    - cbn [foldl]. destruct e as [comm|p|c]; [|by apply IH..].
      replace (R ⊎ comm_bag (log_comms (EvComm comm :: l)))
        with ((R ⊎ {[+ comm_view comm +]}) ⊎ comm_bag (log_comms l)) by (unfold comm_bag; simpl; multiset_solver).
      by apply IH, accounts_bind. }
  specialize (Hgen ∅ (mkReplayData ∅ ∅) log (accounts_empty ps cs)).
  by rewrite gmultiset_disj_union_left_id in Hgen.
Qed.

(** The recorded COMMs that mention an event of the log: the others are never
    bound. *)
Definition bound_comms (log : Log) : list Comm :=
  filter (bound (log_produces log) (log_consumes log)) (log_comms log).

Lemma bound_bag ps cs l x :
  ¬ (consume_keys cs x = [] ∧ produce_keys ps x = []) →
  multiplicity x (comm_bag (filter (bound ps cs) l)) = multiplicity x (comm_bag l).
Proof.
  intros Hx. unfold comm_bag. induction l as [|comm l IH]; [done|]. rewrite filter_cons.
  destruct (decide (bound ps cs comm)) as [|Hb]; rewrite ?fmap_cons; cbn [list_to_set_disj];
    rewrite ?multiplicity_disj_union, IH; [done|].
  rewrite mult_single, decide_False; [lia|]. intros ->. by rewrite bound_keys in Hb.
Qed.

Lemma filter_all {X} (Q : X → Prop) `{∀ x, Decision (Q x)} (l : list X) : (∀ x, x ∈ l → Q x) → filter Q l = l.
Proof.
  induction l as [|x l IH]; intros Hl; [done|]. rewrite filter_cons_True by (apply Hl; by left).
  f_equal. apply IH. intros; apply Hl; by right.
Qed.

Lemma build_accounts_bound log :
  accounts (log_produces log) (log_consumes log) (comm_bag (bound_comms log)) (build_replay_data log).
Proof.
  destruct (build_accounts log) as [Hc Hp Nc Np].
  assert (∀ x, (consume_keys (log_consumes log) x = [] ∧ produce_keys (log_produces log) x = []) ∨
    multiplicity x (comm_bag (bound_comms log)) = multiplicity x (comm_bag (log_comms log))) as Hx.
  { intros x. destruct (decide (consume_keys (log_consumes log) x = [] ∧ produce_keys (log_produces log) x = []));
      [by left|right; by apply bound_bag]. }
  split; [intros h x; rewrite Hc|intros h x; rewrite Hp|done..];
    (destruct (Hx x) as [[E1 E2]| ->]; [|done]); [rewrite E1|rewrite E2]; unfold occurs; simpl; lia.
Qed.

(** ** The steps of a replay *)
Section Steps.
Context (create : list byte → hash).
Context {C P A K Repo : Type} `{!Ord C} `{Countable C}.
Context `{!Serialize C, !Serialize P, !Serialize A, !Serialize K} `{!HistoryOps Repo C P A K}.
Context (get : P → A → option A).
Notation WC := (WaitingContinuation P K).
Notation Space := (@RSpace C P A K Repo _ _).
Notation Replay := (@ReplayRSpace C P A K Repo _ _).
Notation Res := (@ActionResult C P A K).
Implicit Types (channels : list C) (channel : C) (patterns : list P) (continuation : K).
Implicit Types (cands : list (ConsumeCandidate C A)) (grouped : list (list C)).

(** An operation that leaves a part of the state as it is. *)
Definition keeps {S X E Y} (proj : S → Y) (m : StateResult S X E) : Prop :=
  ∀ s, proj (m s).1 = proj s.

Lemma keeps_ret {S X E Y} (proj : S → Y) (x : X) : keeps proj (sr_ret (E := E) x).
Proof. done. Qed.
Lemma keeps_gets {S X E Y} (proj : S → Y) (f : S → X) : keeps proj (sr_gets (E := E) f).
Proof. done. Qed.
Lemma keeps_bind {S X Z E Y} (proj : S → Y) (m : StateResult S X E) (k : X → StateResult S Z E) :
  keeps proj m → (∀ x, keeps proj (k x)) → keeps proj (sr_bind m k).
Proof.
  intros Hm Hk s. unfold sr_bind. specialize (Hm s). destruct (m s) as [s' [x|e]]; simpl in *; [|done].
  by rewrite Hk.
Qed.
Lemma keeps_iter {S X E Y} (proj : S → Y) (f : X → StateResult S unit E) l :
  (∀ a, keeps proj (f a)) → keeps proj (sr_iter f l).
Proof. intros Hf. induction l as [|a l IH]; simpl; [apply keeps_ret|]. by apply keeps_bind. Qed.

Lemma keeps_on_store {X Y} (proj : Space → Y) (m : StateResult (InMemHotStore C P A K) X RSpaceError) :
  (∀ hs s, proj (set_store hs s) = proj s) → keeps proj (on_store (Repo := Repo) m).
Proof. intros Hp s. unfold on_store, sr_zoom. destruct (m (rs_store s)). apply Hp. Qed.
Lemma keeps_on_space {X} (m : StateResult Space X RSpaceError) : keeps replay_data (on_space m).
Proof. intros s. unfold on_space, sr_zoom. by destruct (m (rp_space s)). Qed.
Lemma keeps_counter_on_space {X} (m : StateResult Space X RSpaceError) :
  keeps produce_counter m → keeps (λ s : Replay, produce_counter (rp_space s)) (on_space m).
Proof.
  intros Hm s. specialize (Hm (rp_space s)). unfold on_space, sr_zoom. by destruct (m (rp_space s)).
Qed.

Lemma keeps_fetch {Y} (proj : Space → Y) index channels map :
  (∀ hs s, proj (set_store hs s) = proj s) → keeps proj (fetch_loop (Repo := Repo) index channels map).
Proof.
  intros Hp. revert map. induction channels as [|c channels IH]; intros map; simpl; [apply keeps_ret|].
  apply keeps_bind; [by apply keeps_on_store|auto].
Qed.

Lemma keeps_consume_candidates channels patterns comms :
  keeps replay_data (get_comm_and_consume_candidates (Repo := Repo) (K := K) get channels patterns comms).
Proof.
  induction comms as [|comm comms IH]; simpl; [apply keeps_ret|].
  apply keeps_bind; [|intros [cands|]; [apply keeps_ret|apply IH]].
  apply keeps_bind; [apply keeps_gets|]. intros s. apply keeps_bind; [apply keeps_on_space|].
  intros. apply keeps_ret.
Qed.

Lemma keeps_run_matcher_produce channel (datum : Datum A) comm grouped :
  keeps replay_data (run_matcher_produce (Repo := Repo) (K := K) get channel datum comm grouped).
Proof.
  induction grouped as [|channels grouped IH]; cbn -[extract_first_match]; [apply keeps_ret|].
  apply keeps_bind; [apply keeps_on_space|]. intros conts.
  apply keeps_bind; [apply keeps_gets|]. intros s. apply keeps_bind; [apply keeps_on_space|].
  intros map. destruct (extract_first_match _ _ _ _); [apply keeps_ret|apply IH].
Qed.

Lemma keeps_produce_candidates channel (datum : Datum A) comms grouped :
  keeps replay_data (get_comm_or_produce_candidate (Repo := Repo) (K := K) get channel datum comms grouped).
Proof.
  induction comms as [|comm comms IH]; simpl; [apply keeps_ret|].
  apply keeps_bind; [apply keeps_run_matcher_produce|]. intros [pc|]; [apply keeps_ret|apply IH].
Qed.

Lemma sr_bind_inv {S X Z E} (m : StateResult S X E) (k : X → StateResult S Z E) s s' z :
  sr_bind m k s = (s', Ok z) → ∃ s1 x, m s = (s1, Ok x) ∧ k x s1 = (s', Ok z).
Proof. unfold sr_bind. destruct (m s) as [s1 [x|e]]; [by eauto|done]. Qed.

(** The COMM of a step that fired: its continuation and the data it was
    answered with, under the produce counters of the space. *)
Definition comm_of_result (s : Space) (res : ContResult C P K * list (SpaceResult C A)) (comm : Comm) : Prop :=
  ∃ channels (wk : WC) cands,
    wrap_result channels wk cands = Some res ∧ comm = comm_of s cands (wc_source wk) (wc_peeks wk).

(** What a step does to the bindings. *)
Definition step_effect (s s' : Replay) (res : Res) : Prop :=
  match res with
  | None => replay_data s' = replay_data s
  | Some fired =>
      ∃ comm comms h, comm_of_result (rp_space s') fired comm ∧
        (by_consume (replay_data s) !! h = Some comms ∨ by_produce (replay_data s) !! h = Some comms) ∧
        existsb (λ c, comm_eqb c comm) comms = true ∧
        replay_data s' = remove_bindings_for (replay_data s) comm
  end.

Lemma keeps_counter_take cands : keeps (produce_counter (Repo := Repo)) (store_persistent_data (P := P) (K := K) cands).
Proof.
  apply keeps_iter. intros cand. destruct (d_persist _); [apply keeps_ret|by apply keeps_on_store].
Qed.
Lemma keeps_counter_remove channels cands :
  keeps (produce_counter (Repo := Repo)) (remove_matched_datum_and_join (P := P) (K := K) channels cands).
Proof.
  apply keeps_iter. intros cand. apply keeps_bind; [|intros; by apply keeps_on_store].
  destruct (_ && _); [by apply keeps_on_store|apply keeps_ret].
Qed.

Lemma keeps_counter_remove_cont channels i (persist : bool) :
  keeps (λ s : Space, produce_counter s)
    (if persist then sr_ret () else on_store (remove_continuation channels i)).
Proof. destruct persist; [apply keeps_ret|by apply keeps_on_store]. Qed.

Lemma on_space_quiet {X} (m : StateResult Space X RSpaceError) (s s' : Replay) x :
  on_space m s = (s', Ok x) → replay_data s' = replay_data s.
Proof. intros E. pose proof (keeps_on_space m s) as Hk. by rewrite E in Hk. Qed.

Lemma store_waiting_quiet channels (wk : WC) (s s' : Replay) res :
  on_space (store_waiting_continuation channels wk) s = (s', Ok res) → step_effect s s' res.
Proof.
  intros E. assert (res = None) as ->; [|by eapply on_space_quiet].
  unfold on_space, sr_zoom in E. destruct (store_waiting_continuation _ _ _) as [sp r] eqn:E'.
  injection E as _ ->. unfold store_waiting_continuation in E'.
  apply sr_bind_inv in E' as (? & ? & _ & E'). apply sr_bind_inv in E' as (? & ? & _ & E'). by injection E' as _ <-.
Qed.
Lemma store_data_quiet (c : C) (a : A) persist ref (s s' : Replay) res :
  on_space (store_data c a persist ref) s = (s', Ok res) → step_effect s s' res.
Proof.
  intros E. assert (res = None) as ->; [|by eapply on_space_quiet].
  unfold on_space, sr_zoom in E. destruct (store_data _ _ _ _ _) as [sp r] eqn:E'.
  injection E as _ ->. unfold store_data in E'.
  apply sr_bind_inv in E' as (? & ? & _ & E'). by injection E' as _ <-.
Qed.

Lemma replay_locked_consume_effect channels patterns continuation persist peeks ref (s s' : Replay) res :
  replay_locked_consume get channels patterns continuation persist peeks ref s = (s', Ok res) →
  step_effect s s' res.
Proof.
  unfold replay_locked_consume. set (wk := mkWC _ _ _ _ _).
  intros (s1 & bound & [= <- <-] & E)%sr_bind_inv. unfold comms_for_consume in E.
  destruct (by_consume (replay_data s) !! c_hash ref) as [comms|] eqn:Eb; [|by apply store_waiting_quiet in E].
  apply sr_bind_inv in E as (s2 & found & Ef & E).
  pose proof (keeps_consume_candidates channels patterns comms s) as Hk. rewrite Ef in Hk. simpl in Hk.
  destruct found as [[comm0 cands]|].
  2:{ apply store_waiting_quiet in E. destruct res as [fired|]; simpl in *; rewrite Hk in E; done. }
  apply sr_bind_inv in E as (s3 & comm & [= <- Ecomm] & E).
  destruct (existsb _ comms) eqn:Ex; simpl in E; [|done].
  apply sr_bind_inv in E as (s4 & [] & E4 & E). apply sr_bind_inv in E as (s5 & [] & [= <-] & [= <- <-]).
  pose proof (keeps_counter_on_space _ (keeps_counter_take cands) s2) as Hc. rewrite E4 in Hc. simpl in Hc.
  apply on_space_quiet in E4. exists comm, comms, (c_hash ref). split_and!.
  - exists channels, wk, cands. split; [done|]. rewrite <- Ecomm. by apply comm_of_counter.
  - by left.
  - done.
  - simpl. by rewrite E4, Hk.
Qed.

Lemma replay_locked_produce_effect (c : C) (a : A) persist ref (s s' : Replay) res :
  replay_locked_produce get c a persist ref s = (s', Ok res) → step_effect s s' res.
Proof.
  unfold replay_locked_produce. set (d := mkDatum a persist ref).
  intros (s1 & grouped & E1 & E)%sr_bind_inv. apply sr_bind_inv in E as (s2 & [] & E2 & E).
  apply on_space_quiet in E1 as Q1. apply on_space_quiet in E2 as Q2.
  assert (∀ s'', step_effect s2 s'' res → step_effect s s'' res) as Hq.
  { intros s''. unfold step_effect. by rewrite Q2, Q1. }
  apply Hq. clear Hq Q1 Q2 E1 E2. apply sr_bind_inv in E as (s3 & bound & [= <- <-] & E).
  unfold comms_for_produce in E.
  destruct (by_produce (replay_data s2) !! p_hash ref) as [comms|] eqn:Eb; [|by apply store_data_quiet in E].
  apply sr_bind_inv in E as (s3 & found & Ef & E).
  pose proof (keeps_produce_candidates c d comms grouped s2) as Hk. rewrite Ef in Hk. simpl in Hk.
  destruct found as [[comm0 pc]|].
  2:{ apply store_data_quiet in E. destruct res as [fired|]; simpl in *; rewrite Hk in E; done. }
  unfold handle_match in E. apply sr_bind_inv in E as (s4 & comm & [= <- Ecomm] & E).
  destruct (existsb _ comms) eqn:Ex; simpl in E; [|done].
  apply sr_bind_inv in E as (s4 & [] & E4 & E). apply sr_bind_inv in E as (s5 & [] & E5 & E).
  apply sr_bind_inv in E as (s6 & [] & [= <-] & [= <- <-]).
  assert (produce_counter (rp_space s5) = produce_counter (rp_space s3)) as Hc.
  { pose proof (keeps_counter_on_space _ (keeps_counter_remove (pc_channels pc) (data_candidates pc)) s4) as H5.
    rewrite E5 in H5. simpl in H5. rewrite H5.
    pose proof (keeps_counter_on_space _ (keeps_counter_remove_cont (pc_channels pc)
      (continuation_index pc) (wc_persist (pc_continuation pc))) s3) as H4. rewrite E4 in H4. exact H4. }
  apply on_space_quiet in E4, E5. exists comm, comms, (p_hash ref). split_and!.
  - exists (pc_channels pc), (pc_continuation pc), (data_candidates pc). split; [done|].
    rewrite <- Ecomm. by apply comm_of_counter.
  - by right.
  - done.
  - simpl. by rewrite E5, E4, Hk.
Qed.
(** ** Runs *)
Inductive Op :=
| OpConsume (channels : list C) (patterns : list P) (continuation : K) (persist : bool) (peeks : gset nat)
| OpProduce (channel : C) (a : A) (persist : bool).

Definition play_op (o : Op) : option (StateResult Space Res RSpaceError) :=
  match o with
  | OpConsume channels patterns continuation persist peeks =>
      consume create get channels patterns continuation persist peeks
  | OpProduce channel a persist => Some (produce create get channel a persist)
  end.
Definition replay_op (o : Op) : option (StateResult Replay Res RSpaceError) :=
  match o with
  | OpConsume channels patterns continuation persist peeks =>
      replay_consume create get channels patterns continuation persist peeks
  | OpProduce channel a persist => Some (replay_produce create get channel a persist)
  end.

(** A replay of operations that all succeed; the steps that fired are listed
    with the space they left. *)
Inductive replay_run : Replay → list (Space * (ContResult C P K * list (SpaceResult C A))) → Replay → Prop :=
| replay_run_nil s : replay_run s [] s
| replay_run_quiet o run s s1 s' fired :
    replay_op o = Some run → run s = (s1, Ok None) → replay_run s1 fired s' → replay_run s fired s'
| replay_run_fire o run s s1 s' res fired :
    replay_op o = Some run → run s = (s1, Ok (Some res)) → replay_run s1 fired s' →
    replay_run s ((rp_space s1, res) :: fired) s'.

Lemma replay_op_effect o run (s s' : Replay) res :
  replay_op o = Some run → run s = (s', Ok res) → step_effect s s' res.
Proof.
  destruct o as [channels patterns continuation persist peeks|channel a persist]; simpl.
  - unfold replay_consume. destruct (_ && _); [|done]. intros [= <-]. apply replay_locked_consume_effect.
  - intros [= <-]. unfold replay_produce. intros (s1 & x & E1 & E)%sr_bind_inv.
    apply on_space_quiet in E1. apply replay_locked_produce_effect in E.
    unfold step_effect in *. by rewrite E1 in E.
Qed.

(** The COMMs performed and the ones that remain are the ones recorded. *)
Lemma replay_run_accounts ps cs s fired s' R :
  replay_run s fired s' → accounts ps cs R (replay_data s) →
  ∃ performed R', Forall2 (λ x comm, comm_of_result x.1 x.2 comm) fired performed ∧
    R = R' ⊎ comm_bag performed ∧ accounts ps cs R' (replay_data s').
Proof.
  intros Hrun. revert R. induction Hrun as [s|o run s s1 s' fired Ho E _ IH|o run s s1 s' res fired Ho E _ IH];
    intros R Ha.
  - exists [], R. split_and!; [constructor| |done]. unfold comm_bag. simpl. by rewrite gmultiset_disj_union_right_id.
  - apply (replay_op_effect _ _ _ _ _ Ho) in E. simpl in E. rewrite <- E in Ha. by apply IH.
  - apply (replay_op_effect _ _ _ _ _ Ho) in E as (comm & comms & h & Hc & Hb & Hx & Hd).
    pose proof (accounts_bound _ _ _ _ _ _ _ Ha Hb Hx) as Hin.
    destruct (IH (R ∖ {[+ comm_view comm +]})) as (performed & R' & Hf & ER & Ha').
    { rewrite Hd. by apply accounts_use. }
    exists (comm :: performed), R'. split_and!; [by constructor| |done].
    rewrite (gmultiset_disj_union_difference' _ _ Hin), ER. unfold comm_bag. rewrite fmap_cons.
    simpl. set (B := list_to_set_disj _ : gmultiset CommView). clearbody B. clear. multiset_solver.
Qed.

(** Every recorded COMM mentions a consume or a produce of the log. *)
Definition log_closed (log : Log) : Prop :=
  ∀ comm, comm ∈ log_comms log → bound (log_produces log) (log_consumes log) comm.

(** C8: Replay soundness (Law 11).  If a replay, rigged with a log, succeeds
    and passes the final check, then the COMMs it performed are exactly the
    recorded ones that mention a consume or a produce of the log, each as
    often as it was recorded: nothing else communicated, and none of them was
    left out.  A recorded COMM that mentions no event of the log is not
    checked; in a log without such COMMs the performed COMMs are exactly the
    recorded ones. *)
Theorem replay_performs_recorded log s fired s' :
  replay_run (rig log s) fired s' → check_replay_data s' = Ok () →
  ∃ performed, Forall2 (λ x comm, comm_of_result x.1 x.2 comm) fired performed ∧
    comm_view <$> performed ≡ₚ comm_view <$> bound_comms log ∧
    (log_closed log → comm_view <$> performed ≡ₚ comm_view <$> log_comms log).
Proof.
  intros Hrun Hchk.
  destruct (replay_run_accounts _ _ _ _ _ _ Hrun (build_accounts_bound log)) as (performed & R' & Hf & ER & Ha).
  exists performed. split; [done|].
  assert (comm_view <$> performed ≡ₚ comm_view <$> bound_comms log) as Hp.
  { destruct (gmultiset_choose_or_empty R') as [[x Hx]| ->].
    - exfalso. unfold check_replay_data in Hchk. destruct (replay_is_empty _) eqn:Ee; [|done].
      pose proof (accounts_is_empty _ _ _ _ Ha Ee x Hx) as Hk.
      assert (x ∈ comm_bag (bound_comms log)) as Hin by (rewrite ER; multiset_solver).
      unfold comm_bag in Hin. rewrite elem_of_list_to_set_disj, list_elem_of_fmap in Hin.
      destruct Hin as (comm & -> & [Hb _]%list_elem_of_filter). by apply bound_keys in Hb.
    - apply list_to_set_disj_inj. rewrite gmultiset_disj_union_left_id in ER. by symmetry. }
  split; [done|]. intros Hcl. rewrite Hp. unfold bound_comms.
  by rewrite filter_all.
Qed.
End Steps.
