(* ===== verification/ReplayComplete.v ===== *)
(** * The replay of a play run

    Law 11 in the other direction: when the events of a run are distinct, the
    replay of its log takes the same steps as the play, with the same results,
    and uses up the recorded COMMs.  Distinct means that a hash determines the
    channel of a datum and the channels of a continuation, and that no
    operation of the run repeats an event. *)

From stdpp Require Import gmultiset.
From S2P Require Import Prelude BTree Bytes Trace HotStore SpaceMatcher NativeStore RSpace RSpaceSpec.
From S2P Require Import ReplayRSpace ReplaySpec.

(** ** Looking up the bindings *)
Section Bound.
Context (ps cs : gset hash) (R : gmultiset CommView) (rd : ReplayData) (Ha : accounts ps cs R rd).

Lemma bag_elem m (h : hash) comms comm :
  m !! h = Some comms → comm ∈ comms → (0 < multiplicity (comm_view comm) (bag m h))%nat.
Proof.
  intros Hm Hin. assert (comm_view comm ∈ bag m h) as Hbag; [|by apply (proj1 (elem_of_multiplicity _ _)) in Hbag].
  unfold bag. rewrite Hm, elem_of_list_to_set_disj. by apply list_elem_of_fmap_2.
Qed.
Lemma bag_bound m (h : hash) comm :
  (0 < multiplicity (comm_view comm) (bag m h))%nat →
  ∃ comms, m !! h = Some comms ∧ existsb (λ c, comm_eqb c comm) comms = true.
Proof.
  intros Hp. apply (proj2 (elem_of_multiplicity _ _)) in Hp. unfold bag in Hp.
  rewrite elem_of_list_to_set_disj in Hp. destruct (m !! h) as [comms|]; [|by apply elem_of_nil in Hp].
  apply list_elem_of_fmap in Hp as (comm' & E & Hin). exists comms. split; [done|].
  apply existsb_elem. exists comm'. split; [done|]. by apply comm_eqb_view.
Qed.
Lemma occurs_elem (h : hash) l : (0 < occurs h l)%nat → h ∈ l.
Proof. intros Hp. destruct (decide (h ∈ l)) as [|Hn]; [done|]. rewrite (occurs_zero _ _ Hn) in Hp. lia. Qed.

Lemma bound_consume h comms comm :
  by_consume rd !! h = Some comms → comm ∈ comms → comm_view comm ∈ R ∧ c_hash (comm_consume comm) = h.
Proof.
  intros Hb Hin. pose proof (bag_elem _ _ _ _ Hb Hin) as Hp. rewrite (acc_consume _ _ _ _ Ha) in Hp. split.
  - apply elem_of_multiplicity. lia.
  - assert (h ∈ consume_keys cs (comm_view comm)) as [_ Hk]%list_elem_of_filter by (apply occurs_elem; nia).
    by apply list_elem_of_singleton in Hk.
Qed.
Lemma bound_produce h comms comm :
  by_produce rd !! h = Some comms → comm ∈ comms → comm_view comm ∈ R ∧ h ∈ p_hash <$> comm_produces comm.
Proof.
  intros Hb Hin. pose proof (bag_elem _ _ _ _ Hb Hin) as Hp. rewrite (acc_produce _ _ _ _ Ha) in Hp. split.
  - apply elem_of_multiplicity. lia.
  - assert (h ∈ produce_keys ps (comm_view comm)) as [_ Hk]%list_elem_of_filter by (apply occurs_elem; nia). done.
Qed.
Lemma consume_bound comm :
  comm_view comm ∈ R → c_hash (comm_consume comm) ∈ cs →
  ∃ comms, by_consume rd !! c_hash (comm_consume comm) = Some comms ∧ existsb (λ c, comm_eqb c comm) comms = true.
Proof.
  intros HR Hk. apply bag_bound. rewrite (acc_consume _ _ _ _ Ha). apply (proj1 (elem_of_multiplicity _ _)) in HR.
  assert (0 < occurs (c_hash (comm_consume comm)) (consume_keys cs (comm_view comm)))%nat; [|nia].
  apply occurs_pos, list_elem_of_filter. split; [done|by left].
Qed.
Lemma produce_bound comm h :
  comm_view comm ∈ R → h ∈ p_hash <$> comm_produces comm → h ∈ ps →
  ∃ comms, by_produce rd !! h = Some comms ∧ existsb (λ c, comm_eqb c comm) comms = true.
Proof.
  intros HR Hin Hk. apply bag_bound. rewrite (acc_produce _ _ _ _ Ha). apply (proj1 (elem_of_multiplicity _ _)) in HR.
  assert (0 < occurs h (produce_keys ps (comm_view comm)))%nat; [|nia].
  apply occurs_pos, list_elem_of_filter. done.
Qed.
End Bound.

Section ReplayComplete.
Context (create : list byte → hash).
Context {C P A K Repo : Type} `{!Ord C} `{Countable C}.
Context `{!Serialize C, !Serialize P, !Serialize A, !Serialize K} `{!HistoryOps Repo C P A K}.
Context (get : P → A → option A).
Notation WC := (WaitingContinuation P K).
Notation Space := (@RSpace C P A K Repo _ _).
Notation Replay := (@ReplayRSpace C P A K Repo _ _).
Notation Reader := (HistoryReaderBase C P A K).
Notation View := (View C P A K).
Notation Res := (@ActionResult C P A K).
Implicit Types (v : View) (r : Reader) (channels : list C) (patterns : list P).
Implicit Types (cands : list (ConsumeCandidate C A)) (comm : Comm).

(** ** The replay operations on views *)
Definition r_op {X} (m : @RPM C P A K Repo _ _ X) r v (s : Replay) (x : X) v' : Prop :=
  ∃ hs', m s = (mkReplay (set_store hs' (rp_space s)) (replay_data s), Ok x) ∧ shows r v' hs'.
Definition r_shows r v (s : Replay) : Prop := shows r v (rs_store (rp_space s)).

Lemma r_op_space {X} (m : StateResult Space X RSpaceError) r v (s : Replay) x v' :
  store_op m r v (rp_space s) x v' → r_op (on_space m) r v s x v'.
Proof. intros (hs' & E & Hs). exists hs'. unfold on_space, sr_zoom. by rewrite E. Qed.

Lemma r_op_ret {X} r v (s : Replay) (x : X) : r_shows r v s → r_op (sr_ret x) r v s x v.
Proof. intros Hs. exists (rs_store (rp_space s)). rewrite set_store_same. by destruct s. Qed.

Lemma r_op_bind {X Y} (m : @RPM C P A K Repo _ _ X) (k : X → @RPM C P A K Repo _ _ Y) r v (s : Replay) x v1 y v2 :
  r_op m r v s x v1 →
  (∀ s1 : Replay, produce_counter (rp_space s1) = produce_counter (rp_space s) → r_shows r v1 s1 →
     r_op (k x) r v1 s1 y v2) →
  r_op (sr_bind m k) r v s y v2.
Proof.
  intros (hs1 & E1 & Hs1) Hk.
  destruct (Hk (mkReplay (set_store hs1 (rp_space s)) (replay_data s)) eq_refl Hs1) as (hs2 & E2 & Hs2).
  exists hs2. split; [|done]. rewrite (sr_bind_Ok _ _ _ _ _ E1). by rewrite E2.
Qed.

Lemma r_op_gets {Y} (k : Space → @RPM C P A K Repo _ _ Y) r v (s : Replay) y v2 :
  r_op (k (rp_space s)) r v s y v2 → r_op (sr_bind (sr_gets rp_space) k) r v s y v2.
Proof. done. Qed.

(** Matching against a COMM depends on the counters of the space only. *)
Lemma filter_matches_counter (s s' : Space) comm l :
  produce_counter s = produce_counter s' → filter_matches s comm l = filter_matches s' comm l.
Proof. intros E. unfold filter_matches, matches, produce_counter_value. by rewrite E. Qed.

Lemma indexed_map_ext (f g : C → list (Datum A) → list (Datum A * Z)) v channels map :
  (∀ c l, f c l = g c l) → indexed_map f v channels map = indexed_map g v channels map.
Proof.
  intros E. unfold indexed_map. revert map. induction channels as [|c channels IH]; intros map; simpl; [done|].
  by rewrite E, IH.
Qed.

Definition r_match v (s : Space) comm channels patterns : option (list (ConsumeCandidate C A)) :=
  collect (extract_data_candidates get (zip channels patterns)
    (indexed_map (λ _ l, filter_matches s comm (index_data l)) v channels ∅)).

Fixpoint r_find v (s : Space) channels patterns (comms : list Comm) :
    option (Comm * list (ConsumeCandidate C A)) :=
  match comms with
  | [] => None
  | comm :: comms' =>
      match r_match v s comm channels patterns with
      | Some cands => Some (comm, cands)
      | None => r_find v s channels patterns comms'
      end
  end.

Lemma r_match_counter v (s s' : Space) comm channels patterns :
  produce_counter s = produce_counter s' → r_match v s comm channels patterns = r_match v s' comm channels patterns.
Proof.
  intros E. unfold r_match. do 2 f_equal. apply indexed_map_ext. intros. by apply filter_matches_counter.
Qed.

Lemma r_find_spec r v (s : Replay) channels patterns comms :
  r_shows r v s →
  r_op (get_comm_and_consume_candidates get channels patterns comms) r v s
    (r_find v (rp_space s) channels patterns comms) v.
Proof.
  revert s. induction comms as [|comm comms IH]; intros s Hs; simpl; [by apply r_op_ret|].
  eapply (r_op_bind _ _ _ _ _ (r_match v (rp_space s) comm channels patterns) v).
  - unfold run_matcher_consume. apply r_op_gets. eapply r_op_bind; [by apply r_op_space, fetch_loop_spec|].
    intros s1 Ec Hs1. by apply r_op_ret.
  - intros s1 Ec Hs1. destruct (r_match v (rp_space s) comm channels patterns); [by apply r_op_ret|].
    replace (r_find v (rp_space s) channels patterns comms)
      with (r_find v (rp_space s1) channels patterns comms); [by apply IH|].
    clear -Ec. induction comms as [|comm comms IH]; simpl; [done|].
    rewrite (r_match_counter _ _ _ _ _ _ Ec). by rewrite IH.
Qed.

Definition r_candidates v comm (j : list C) : list (WC * nat) :=
  filter (λ x, consume_eqb (comm_consume comm) (wc_source x.1) = true) (index_continuations (v_get_conts v j)).

Fixpoint r_extract v (s : Space) comm (c : C) (d : Datum A) (grouped : list (list C)) :
    option (ProduceCandidate C P A K) :=
  match grouped with
  | [] => None
  | j :: grouped' =>
      match extract_first_match get j (r_candidates v comm j)
              (indexed_map (index_for_comm s comm c d) v j ∅) with
      | Some pc => Some pc
      | None => r_extract v s comm c d grouped'
      end
  end.

Fixpoint r_find_produce v (s : Space) (c : C) (d : Datum A) (comms : list Comm) (grouped : list (list C)) :
    option (Comm * ProduceCandidate C P A K) :=
  match comms with
  | [] => None
  | comm :: comms' =>
      match r_extract v s comm c d grouped with
      | Some pc => Some (comm, pc)
      | None => r_find_produce v s c d comms' grouped
      end
  end.

Lemma r_extract_counter v (s s' : Space) comm c d grouped :
  produce_counter s = produce_counter s' → r_extract v s comm c d grouped = r_extract v s' comm c d grouped.
Proof.
  intros E. induction grouped as [|j grouped IH]; cbn -[extract_first_match]; [done|]. rewrite IH.
  rewrite (indexed_map_ext (index_for_comm s comm c d) (index_for_comm s' comm c d)); [done|].
  intros. by apply filter_matches_counter.
Qed.

Lemma r_extract_spec r v (s : Replay) comm c d grouped :
  r_shows r v s →
  r_op (run_matcher_produce get c d comm grouped) r v s (r_extract v (rp_space s) comm c d grouped) v.
Proof.
  revert s. induction grouped as [|j grouped IH]; intros s Hs; cbn -[extract_first_match]; [by apply r_op_ret|].
  eapply r_op_bind; [by apply r_op_space, store_op_lift, get_continuations_spec|]. intros s1 Ec1 Hs1.
  apply r_op_gets. eapply r_op_bind; [by apply r_op_space, fetch_loop_spec|]. intros s2 Ec2 Hs2.
  unfold r_candidates.
  rewrite (indexed_map_ext (index_for_comm (rp_space s1) comm c d) (index_for_comm (rp_space s) comm c d))
    by (intros; by apply filter_matches_counter).
  destruct (extract_first_match _ _ _ _); [by apply r_op_ret|].
  rewrite (r_extract_counter v (rp_space s) (rp_space s2)) by congruence. by apply IH.
Qed.

Lemma r_find_produce_spec r v (s : Replay) c d comms grouped :
  r_shows r v s →
  r_op (get_comm_or_produce_candidate get c d comms grouped) r v s
    (r_find_produce v (rp_space s) c d comms grouped) v.
Proof.
  revert s. induction comms as [|comm comms IH]; intros s Hs; simpl; [by apply r_op_ret|].
  eapply r_op_bind; [by apply r_extract_spec|]. intros s1 Ec Hs1.
  destruct (r_extract v (rp_space s) comm c d grouped); [by apply r_op_ret|].
  replace (r_find_produce v (rp_space s) c d comms grouped)
    with (r_find_produce v (rp_space s1) c d comms grouped); [by apply IH|].
  clear -Ec. induction comms as [|comm comms IH]; simpl; [done|].
  rewrite (r_extract_counter v (rp_space s1) (rp_space s)) by done. by rewrite IH.
Qed.

(** ** What a COMM matches *)
Notation dh d := (p_hash (d_source d)).
Notation wh wc := (c_hash (wc_source wc)).

Lemma comm_of_hashes (s : Space) cands ref peeks :
  p_hash <$> comm_produces (comm_of s cands ref peeks) ≡ₚ (λ cand, dh (cc_datum cand)) <$> cands.
Proof.
  unfold comm_of, comm_apply. cbn [comm_produces]. rewrite (sort_by_perm _ (d_source ∘ cc_datum <$> cands)).
  by rewrite <- list_fmap_compose.
Qed.

Lemma comm_of_repeated (s : Space) cands ref peeks p :
  p_hash p ∈ p_hash <$> comm_produces (comm_of s cands ref peeks) →
  times_repeated (comm_of s cands ref peeks) !! p_hash p = Some (produce_counter_value s p).
Proof.
  unfold comm_of, comm_apply. cbn [comm_produces times_repeated]. generalize (sort_by (λ a b, cmp (produce_key a) (produce_key b)) (d_source ∘ cc_datum <$> cands)) as ps.
  intros ps (q & E & Hq)%list_elem_of_fmap. unfold produce_counters. rewrite E.
  replace (produce_counter_value s p) with (produce_counter_value s q) by (unfold produce_counter_value; by rewrite E).
  apply elem_of_list_to_map_1'.
  - intros y (q' & [= E' ->] & _)%list_elem_of_fmap. unfold produce_counter_value. by rewrite E'.
  - by apply (list_elem_of_fmap_2 (λ p, (p_hash p, produce_counter_value s p))).
Qed.

Lemma matches_hash (s : Space) comm (d : Datum A) :
  matches s comm d = true → dh d ∈ p_hash <$> comm_produces comm.
Proof.
  unfold matches. destruct (existsb _ _) eqn:Ex; simpl; [|done]. intros _.
  apply existsb_elem in Ex as (p & Hp & E%bool_decide_eq_true). rewrite <- E. by apply list_elem_of_fmap_2.
Qed.

Lemma matches_comm_of (s : Space) cands ref peeks (d : Datum A) :
  matches s (comm_of s cands ref peeks) d = true ↔
  dh d ∈ (λ cand, dh (cc_datum cand)) <$> cands.
Proof.
  rewrite <- (comm_of_hashes s cands ref peeks). split; [apply matches_hash|]. intros Hin. unfold matches.
  assert (existsb (λ p, produce_eqb p (d_source d)) (comm_produces (comm_of s cands ref peeks)) = true) as ->.
  { apply existsb_elem. pose proof Hin as (p & E & Hp)%list_elem_of_fmap. exists p. split; [done|].
    by apply bool_decide_eq_true. }
  cbn [negb]. destruct (d_persist d); [done|]. rewrite comm_of_repeated by done. apply Nat.eqb_refl.
Qed.

Lemma matches_view (s : Space) x y (d : Datum A) :
  comm_view x = comm_view y → matches s x d = matches s y d.
Proof.
  intros [= _ Ep _ Et]. unfold matches. rewrite Et.
  assert (∀ l, existsb (λ p, produce_eqb p (d_source d)) l =
               existsb (λ h, bool_decide (h = dh d)) (p_hash <$> l)) as Hl.
  { intros l. induction l as [|p l IH]; [done|]. rewrite fmap_cons. simpl. by rewrite IH. }
  by rewrite !Hl, Ep.
Qed.

Lemma filter_matches_view (s : Space) x y l :
  comm_view x = comm_view y → filter_matches s x l = filter_matches s y l.
Proof.
  intros E. unfold filter_matches. apply list_filter_iff. intros z. by rewrite (matches_view s x y).
Qed.

Lemma filter_unique {X Y} (f : X → Y) (Q : X → Prop) `{!∀ x, Decision (Q x)} (l : list X) x :
  NoDup (f <$> l) → x ∈ l → (∀ y, y ∈ l → Q y ↔ f y = f x) → filter Q l = [x].
Proof.
  intros Hnd Hx HQ. apply list_elem_of_split in Hx as (l1 & l2 & ->).
  rewrite fmap_app, fmap_cons in Hnd. apply NoDup_app in Hnd as (_ & Hd & [Hn _]%NoDup_cons).
  assert (∀ l', (∀ y, y ∈ l' → ¬ Q y) → filter Q l' = []) as Hnil.
  { intros l' Hl. apply elem_of_nil_inv. intros y [HQy Hy]%list_elem_of_filter. by eapply Hl. }
  rewrite filter_app, filter_cons, decide_True, !Hnil; [done|..].
  - intros y Hy Qy. apply HQ in Qy; [|apply elem_of_app; right; by right].
    apply Hn. rewrite <- Qy. by apply list_elem_of_fmap_2.
  - intros y Hy Qy. apply HQ in Qy; [|apply elem_of_app; by left].
    eapply Hd; [by apply list_elem_of_fmap_2|]. rewrite Qy. by left.
  - apply HQ; [|done]. apply elem_of_app. right. by left.
Qed.

(** ** Distinct events *)
Section Distinct.
(** The channel of a produce and the channels of a consume, by hash. *)
Context (chan_of : hash → C) (join_of : hash → list C).

(** The data that the patterns are matched against, by channel: it is at the
    channel that its hash says, and no hash occurs twice. *)
Definition good_pool (pool : C → list (Datum A * Z)) : Prop :=
  ∀ c, (∀ x, x ∈ pool c → chan_of (dh x.1) = c) ∧ NoDup ((λ x, dh x.1) <$> pool c).

Lemma cands_channels pool (map : gmap C (list (Datum A * Z))) (pairs : list (C * P)) cands :
  NoDup pairs.*1 → good_pool pool → (∀ c l x, map !! c = Some l → x ∈ l → x ∈ pool c) →
  extracts get pairs map cands → (λ cand, chan_of (dh (cc_datum cand))) <$> cands = pairs.*1.
Proof.
  intros Hnd Hg Hm He%extracts_distinct; [|done]. clear Hnd.
  induction He as [|[c p] cand pairs cands (l & rem & Hl & Hf) _ IH]; [done|]. rewrite !fmap_cons, IH. f_equal.
  apply find_matching_loop_Some in Hf as (l1 & d & i & l2 & -> & _ & (mat & _ & ->) & _). simpl.
  apply (proj1 (Hg c) (d, i)), (Hm _ _ _ Hl). apply elem_of_app. right. by left.
Qed.

(** The COMM of a match finds the same candidates among the filtered data. *)
Lemma same_candidates (s : Space) pool (map rmap : gmap C (list (Datum A * Z))) (pairs : list (C * P)) cands ref peeks :
  NoDup pairs.*1 → good_pool pool → (∀ c l x, map !! c = Some l → x ∈ l → x ∈ pool c) →
  (∀ c, c ∈ pairs.*1 → rmap !! c = Some (filter_matches s (comm_of s cands ref peeks) (pool c))) →
  extracts get pairs map cands → extracts get pairs rmap cands.
Proof.
  intros Hnd Hg Hm Hr He. pose proof (cands_channels _ _ _ _ Hnd Hg Hm He) as Hch.
  apply extracts_distinct in He; [|done]. apply extracts_distinct; [done|].
  eapply Forall2_impl_elem; [exact He|]. intros [c p] cand Hcp Hcand (l & rem & Hl & Hf). simpl in *.
  apply find_matching_loop_Some in Hf as (l1 & d & i & l2 & -> & _ & Hc & _).
  assert ((d, i) ∈ pool c) as Hd by (apply (Hm _ _ _ Hl), elem_of_app; right; by left).
  assert (dh (cc_datum cand) = dh d) as Ecand by (by destruct Hc as (mat & _ & ->)).
  assert (filter_matches s (comm_of s cands ref peeks) (pool c) = [(d, i)]) as Ef.
  { apply (filter_unique (λ x, dh x.1)); [apply Hg|done|]. intros [d' i'] Hd'. rewrite matches_comm_of. simpl.
    rewrite list_elem_of_fmap. split; [|intros ->; by exists cand].
    intros (cand' & E & Hin). rewrite E, <- Ecand.
    assert (chan_of (dh (cc_datum cand')) = chan_of (dh (cc_datum cand))) as Ech.
    { rewrite <- E, Ecand. transitivity c; [apply (proj1 (Hg c) _ Hd')|symmetry; apply (proj1 (Hg c) _ Hd)]. }
    assert (cand' = cand) as ->; [|done].
    apply list_elem_of_lookup in Hin as [k Hk], Hcand as [k' Hk'].
    rewrite <- Hch in Hnd. assert (k = k') as <-; [|congruence].
    eapply (NoDup_lookup _ _ _ _ Hnd); rewrite list_lookup_fmap; [rewrite Hk|rewrite Hk']; simpl; by f_equal. }
  exists [(d, i)], (if d_persist d then [(d, i)] else []). split.
  - rewrite <- Ef. apply Hr, list_elem_of_fmap. by exists (c, p).
  - apply find_matching_loop_Some. exists [], d, i, []. split_and!; [done|by intros ? ?%elem_of_nil|done|].
    by destruct (d_persist d).
Qed.

(** A COMM that needs a datum which is not there matches nothing. *)
Lemma absent_no_match (s : Space) pool (rmap : gmap C (list (Datum A * Z))) (pairs : list (C * P)) cands comm t :
  NoDup pairs.*1 → good_pool pool →
  (∀ c, c ∈ pairs.*1 → rmap !! c = Some (filter_matches s comm (pool c))) →
  NoDup (chan_of <$> (p_hash <$> comm_produces comm)) →
  t ∈ p_hash <$> comm_produces comm → chan_of t ∈ pairs.*1 →
  (∀ c x, x ∈ pool c → dh x.1 ≠ t) → ¬ extracts get pairs rmap cands.
Proof.
  intros Hnd Hg Hr Hw Ht Hc Hab He. pose proof Hc as ([c p] & Ec & Hin)%list_elem_of_fmap. simpl in Ec.
  pose proof (proj1 (extracts_complete get pairs rmap Hnd) (ex_intro _ _ He) _ Hin) as (l & [d i] & Hl & Hx & _).
  simpl in Hl. rewrite Hr in Hl by (by rewrite <- Ec). injection Hl as <-.
  apply list_elem_of_filter in Hx as [Hmt Hx]. apply matches_hash in Hmt. simpl in Hmt.
  apply (Hab c _ Hx). simpl. apply (proj1 (Hg c) _) in Hx. simpl in Hx.
  apply list_elem_of_lookup in Hmt as [k Hk], Ht as [k' Hk'].
  assert (k = k') as <-; [|congruence].
  eapply (NoDup_lookup _ _ _ _ Hw); rewrite list_lookup_fmap; [rewrite Hk|rewrite Hk']; simpl; f_equal; congruence.
Qed.

(** A tidy view: hashes tell the channels, and no hash is stored twice. *)
Record tidy v : Prop := {
  tidy_chan c d : d ∈ v_data v c → chan_of (dh d) = c;
  tidy_data c : NoDup ((λ d, dh d) <$> v_data v c);
  tidy_join j wc : wc ∈ v_get_conts v j → join_of (wh wc) = j ∧ length j = length (wc_patterns wc);
  tidy_conts j : NoDup ((λ wc, wh wc) <$> v_get_conts v j);
  tidy_joins c j : j ∈ v_get_joins v c → NoDup j;
}.

Lemma index_data_hashes (l : list (Datum A)) : (λ x, dh x.1) <$> index_data l = (λ d, dh d) <$> l.
Proof.
  apply list_eq. intros k. unfold index_data. rewrite !list_lookup_fmap, list_lookup_imap. by destruct (l !! k).
Qed.
Lemma index_data_elem (l : list (Datum A)) x : x ∈ index_data l → x.1 ∈ l.
Proof. destruct x as [d i]. intros (k & _ & Hk)%elem_of_index_data. by eapply list_elem_of_lookup_2. Qed.
Lemma index_continuations_hashes (l : list WC) : (λ x, wh x.1) <$> index_continuations l = (λ wc, wh wc) <$> l.
Proof.
  apply list_eq. intros k. unfold index_continuations. rewrite !list_lookup_fmap, list_lookup_imap.
  by destruct (l !! k).
Qed.

Definition stored_pool v : C → list (Datum A * Z) := λ c, index_data (v_data v c).
Definition produced_pool v (c0 : C) (d0 : Datum A) : C → list (Datum A * Z) := λ c,
  (if bool_decide (c = c0) then [(d0, -1)] else []) ++ index_data (v_data v c).

Lemma good_stored v : tidy v → good_pool (stored_pool v).
Proof.
  intros Ht c. split.
  - intros x Hx%index_data_elem. by apply (tidy_chan _ Ht).
  - unfold stored_pool. rewrite index_data_hashes. apply (tidy_data _ Ht).
Qed.
Lemma elem_of_produced_pool v c0 d0 c x :
  x ∈ produced_pool v c0 d0 c ↔ x ∈ index_data (v_data v c) ∨ (c = c0 ∧ x = (d0, -1)).
Proof.
  unfold produced_pool. rewrite elem_of_app. case_bool_decide; rewrite ?list_elem_of_singleton, ?elem_of_nil; naive_solver.
Qed.
Lemma good_produced v c0 d0 :
  tidy v → chan_of (dh d0) = c0 → (∀ c d, d ∈ v_data v c → dh d ≠ dh d0) → good_pool (produced_pool v c0 d0).
Proof.
  intros Ht Hc Hf c. split.
  - intros x [Hx%index_data_elem|[-> ->]]%elem_of_produced_pool; [by apply (tidy_chan _ Ht)|done].
  - unfold produced_pool. rewrite fmap_app, index_data_hashes. apply NoDup_app. split_and!.
    + case_bool_decide; [apply NoDup_singleton|constructor].
    + case_bool_decide; [|by intros ? ?%elem_of_nil]. intros h Hh (d & E & Hd)%list_elem_of_fmap.
      apply list_elem_of_singleton in Hh. simpl in Hh. apply (Hf c d Hd). congruence.
    + apply (tidy_data _ Ht).
Qed.

(** *** Consume *)
Lemma r_match_same v (s : Space) channels patterns cands ref peeks :
  tidy v → NoDup channels → v_match get v channels patterns = Some cands →
  r_match v s (comm_of s cands ref peeks) channels patterns = Some cands.
Proof.
  intros Ht Hnd He%collect_extract. apply collect_extract.
  eapply (same_candidates s (stored_pool v)); [by apply NoDup_zip_fst|by apply good_stored| | |exact He].
  - intros c l x [-> _]%v_indexed_lookup. by rewrite elem_of_sorted_index.
  - intros c ([c' p] & -> & Hin)%list_elem_of_fmap. rewrite lookup_indexed_map, decide_True; [done|].
    by eapply elem_of_zip_l.
Qed.

Lemma r_match_absent v (s : Space) channels patterns comm t :
  tidy v → NoDup channels → length channels = length patterns →
  NoDup (chan_of <$> (p_hash <$> comm_produces comm)) → t ∈ p_hash <$> comm_produces comm →
  chan_of t ∈ channels → (∀ c d, d ∈ v_data v c → dh d ≠ t) → r_match v s comm channels patterns = None.
Proof.
  intros Ht Hnd Hlen Hw Hin Hc Hab. destruct (r_match v s comm channels patterns) as [cands|] eqn:E; [|done].
  exfalso. apply collect_extract in E. revert E.
  eapply (absent_no_match s (stored_pool v)); [by apply NoDup_zip_fst|by apply good_stored| |done|exact Hin| |].
  - intros c ([c' p] & -> & Hz)%list_elem_of_fmap. rewrite lookup_indexed_map, decide_True; [done|].
    by eapply elem_of_zip_l.
  - rewrite fst_zip; [done|lia].
  - intros c x Hx%index_data_elem. by eapply Hab.
Qed.

Lemma r_match_view v (s : Space) x y channels patterns :
  comm_view x = comm_view y → r_match v s x channels patterns = r_match v s y channels patterns.
Proof.
  intros E. unfold r_match. do 2 f_equal. apply indexed_map_ext. intros. by apply filter_matches_view.
Qed.

Lemma r_find_None v (s : Space) channels patterns comms :
  (∀ y, y ∈ comms → r_match v s y channels patterns = None) → r_find v s channels patterns comms = None.
Proof.
  induction comms as [|y comms IH]; intros Hn; simpl; [done|]. rewrite Hn by by left. apply IH.
  intros z Hz. apply Hn. by right.
Qed.
Lemma r_find_Some v (s : Space) channels patterns comms cands :
  (∀ y, y ∈ comms → r_match v s y channels patterns = None ∨ r_match v s y channels patterns = Some cands) →
  (∃ y, y ∈ comms ∧ r_match v s y channels patterns = Some cands) →
  ∃ y, r_find v s channels patterns comms = Some (y, cands).
Proof.
  induction comms as [|y comms IH]; intros Ho (z & Hz & Ez); [by apply elem_of_nil in Hz|]. simpl.
  destruct (Ho y) as [En|Es]; [by left| |by rewrite Es; eauto]. rewrite En. apply IH.
  - intros. apply Ho. by right.
  - exists z. split; [|done]. apply elem_of_cons in Hz as [->|]; [congruence|done].
Qed.

(** *** The COMMs to come *)

(** The event of an operation: a consume on the left, a produce on the right. *)
Definition op_key (o : @Op C P A K) : hash + hash :=
  match o with
  | OpConsume channels patterns continuation persist _ =>
      inl (c_hash (consume_apply create channels patterns continuation persist))
  | OpProduce channel a persist => inr (p_hash (produce_apply create channel a persist))
  end.

Definition absent v (key : hash + hash) : Prop :=
  match key with
  | inl h => ∀ j wc, wc ∈ v_get_conts v j → wh wc ≠ h
  | inr h => ∀ c d, d ∈ v_data v c → dh d ≠ h
  end.
Definition mentions (x : CommView) (key : hash + hash) : Prop :=
  match key with inl h => x.1.1.1 = h | inr h => h ∈ x.1.1.2 end.
Definition wf_comm (x : CommView) : Prop :=
  NoDup (chan_of <$> x.1.1.2) ∧ ∀ h, h ∈ x.1.1.2 → chan_of h ∈ join_of x.1.1.1.

(** A COMM that a later operation than [key] will make. *)
Definition future v (key : hash + hash) (x : CommView) : Prop :=
  wf_comm x ∧ ∃ key', key' ≠ key ∧ absent v key' ∧ mentions x key'.

Lemma future_consume v (s : Space) ref channels patterns comm :
  tidy v → NoDup channels → length channels = length patterns → join_of (c_hash ref) = channels →
  future v (inl (c_hash ref)) (comm_view comm) → c_hash (comm_consume comm) = c_hash ref →
  r_match v s comm channels patterns = None.
Proof.
  intros Ht Hnd Hlen Hj [[Hw Hin] ([h|t] & Hne & Hab & Hm)] Ec; simpl in *; [congruence|].
  eapply r_match_absent; [done..|exact Hm| |exact Hab]. rewrite <- Hj, <- Ec. by apply Hin.
Qed.

Lemma future_produce v (s : Space) c d grouped comm :
  tidy v → chan_of (dh d) = c → absent v (inr (dh d)) → (∀ j, j ∈ grouped → NoDup j) →
  future v (inr (dh d)) (comm_view comm) → r_extract v s comm c d grouped = None.
Proof.
  intros Ht Hc Hf Hnd [[Hw Hin] (key & Hne & Hab & Hm)].
  induction grouped as [|j grouped IH]; cbn -[extract_first_match]; [done|].
  assert (extract_first_match get j (r_candidates v comm j) (indexed_map (index_for_comm s comm c d) v j ∅) = None) as ->.
  2:{ apply IH. intros. apply Hnd. by right. }
  apply first_match_loop_None. intros [wc i] Hx%elem_of_sort_by cands.
  apply list_elem_of_filter in Hx as [Ew%bool_decide_eq_true Hx]. simpl in Ew.
  apply elem_of_index_continuations, list_elem_of_lookup_2 in Hx.
  destruct (tidy_join _ Ht _ _ Hx) as [Hj Hlen]. simpl.
  destruct key as [h|t]; simpl in *; [exfalso; apply (Hab _ _ Hx); congruence|].
  assert (NoDup j) as Hndj by (apply Hnd; by left).
  eapply (absent_no_match s (produced_pool v c d)); [by apply NoDup_zip_fst|by apply good_produced| |done|exact Hm| |].
  - intros c' ([c2 p] & -> & Hz)%list_elem_of_fmap. rewrite lookup_indexed_map, decide_True; [done|].
    by eapply elem_of_zip_l.
  - rewrite fst_zip by lia. rewrite <- Hj, <- Ew. by apply Hin.
  - intros c' x [Hx'%index_data_elem|[-> ->]]%elem_of_produced_pool; [by eapply Hab|]. simpl. congruence.
Qed.

(** *** Produce *)
Lemma v_extract_split v grouped c (d : Datum A) pc :
  v_extract get v grouped c d = Some pc →
  ∃ g1 g2, grouped = g1 ++ pc_channels pc :: g2 ∧ pc_channels pc ∉ g1 ∧
    extract_first_match get (pc_channels pc) (index_continuations (v_get_conts v (pc_channels pc)))
      (indexed_map (index_with_produced c d) v (pc_channels pc) ∅) = Some pc.
Proof.
  induction grouped as [|j grouped IH]; cbn -[extract_first_match]; [done|].
  destruct (extract_first_match _ j _ _) as [pc'|] eqn:E.
  - intros [= <-]. pose proof E as (l1 & wc & i & l2 & cands & _ & _ & _ & Epc)%first_match_loop_Some.
    assert (pc_channels pc' = j) as Ej by by rewrite Epc. rewrite Ej.
    exists [], grouped. split_and!; [done|apply not_elem_of_nil|done].
  - intros (g1 & g2 & -> & Hn & Ef)%IH. exists (j :: g1), g2. split_and!; [done| |done].
    apply not_elem_of_cons. split; [|done]. intros Ej. rewrite <- Ej in E. congruence.
Qed.

Lemma r_extract_app v (s : Space) comm c d g1 g2 :
  (∀ j, j ∈ g1 → r_candidates v comm j = []) →
  r_extract v s comm c d (g1 ++ g2) = r_extract v s comm c d g2.
Proof.
  induction g1 as [|j g1 IH]; intros Hn; [done|]. cbn -[extract_first_match]. rewrite Hn by by left.
  apply IH. intros. apply Hn. by right.
Qed.

Lemma r_extract_same v (s : Space) c d grouped pc :
  tidy v → chan_of (dh d) = c → absent v (inr (dh d)) → (∀ j, j ∈ grouped → NoDup j) →
  v_extract get v grouped c d = Some pc → r_extract v s (comm_of_pc s pc) c d grouped = Some pc.
Proof.
  intros Ht Hc Hf Hnd (g1 & g2 & -> & Hn & E)%v_extract_split.
  destruct pc as [j wc i cands]. cbn [pc_channels] in *.
  apply first_match_loop_Some in E as (l1 & wc' & i' & l2 & cands' & Es & _ & He & [= <- <- <-]).
  set (pc' := mkPC j wc i cands).
  assert ((wc, i) ∈ index_continuations (v_get_conts v j)) as Hwi.
  { apply (elem_of_sort_by (λ a b, consume_cmp (wc_source a.1) (wc_source b.1))). rewrite Es.
    apply elem_of_app. right. by left. }
  pose proof Hwi as Hw%elem_of_index_continuations%list_elem_of_lookup_2.
  destruct (tidy_join _ Ht _ _ Hw) as [Hj Hlen].
  rewrite r_extract_app.
  2:{ intros j' Hj'. apply elem_of_nil_inv. intros [wc' i'] [Ew%bool_decide_eq_true Hx]%list_elem_of_filter.
      apply elem_of_index_continuations, list_elem_of_lookup_2 in Hx. simpl in Ew.
      destruct (tidy_join _ Ht _ _ Hx) as [Hj2 _]. rewrite <- Ew in Hj2. congruence. }
  cbn -[extract_first_match].
  assert (r_candidates v (comm_of_pc s pc') j = [(wc, i)]) as ->.
  { apply (filter_unique (λ x, wh x.1)); [|done|].
    - rewrite index_continuations_hashes. apply (tidy_conts _ Ht).
    - intros [wc' i'] _. unfold consume_eqb. rewrite bool_decide_eq_true. simpl. split; congruence. }
  assert (extract_first_match get j [(wc, i)] (indexed_map (index_for_comm s (comm_of_pc s pc') c d) v j ∅) = Some pc') as ->; [|done].
  apply first_match_loop_Some. exists [], wc, i, [], cands. split_and!; [done|by intros ? ?%elem_of_nil| |done].
  assert (NoDup j) as Hndj by (apply Hnd, elem_of_app; right; by left).
  eapply (same_candidates s (produced_pool v c d) _ _ _ _ (wc_source wc) (wc_peeks wc)); [by apply NoDup_zip_fst|by apply good_produced| | |exact He].
  - intros c' l [d' i'] [-> _]%produced_lookup Hx%elem_of_produced. apply elem_of_produced_pool. naive_solver.
  - intros c' ([c2 p] & -> & Hz)%list_elem_of_fmap. rewrite lookup_indexed_map, decide_True; [done|].
    by eapply elem_of_zip_l.
Qed.

Lemma r_extract_view v (s : Space) x y c d grouped :
  comm_view x = comm_view y → r_extract v s x c d grouped = r_extract v s y c d grouped.
Proof.
  intros E. induction grouped as [|j grouped IH]; cbn -[extract_first_match]; [done|]. rewrite IH.
  rewrite (indexed_map_ext (index_for_comm s x c d) (index_for_comm s y c d))
    by (intros; by apply filter_matches_view).
  unfold r_candidates, consume_eqb. injection E as -> _ _ _. done.
Qed.

Lemma r_find_produce_None v (s : Space) c d comms grouped :
  (∀ y, y ∈ comms → r_extract v s y c d grouped = None) → r_find_produce v s c d comms grouped = None.
Proof.
  induction comms as [|y comms IH]; intros Hn; simpl; [done|]. rewrite Hn by by left. apply IH.
  intros z Hz. apply Hn. by right.
Qed.
Lemma r_find_produce_Some v (s : Space) c d comms grouped pc :
  (∀ y, y ∈ comms → r_extract v s y c d grouped = None ∨ r_extract v s y c d grouped = Some pc) →
  (∃ y, y ∈ comms ∧ r_extract v s y c d grouped = Some pc) →
  ∃ y, r_find_produce v s c d comms grouped = Some (y, pc).
Proof.
  induction comms as [|y comms IH]; intros Ho (z & Hz & Ez); [by apply elem_of_nil in Hz|]. simpl.
  destruct (Ho y) as [En|Es]; [by left| |by rewrite Es; eauto]. rewrite En. apply IH.
  - intros. apply Ho. by right.
  - exists z. split; [|done]. apply elem_of_cons in Hz as [->|]; [congruence|done].
Qed.

(** *** The steps *)
Definition in_step r v (counter : gmap hash nat) ps cs R (sr : Replay) : Prop :=
  r_shows r v sr ∧ produce_counter (rp_space sr) = counter ∧ accounts ps cs R (replay_data sr).

Lemma bag_cons comm (R : gmultiset CommView) :
  (comm_bag [comm] ⊎ R) ∖ {[+ comm_view comm +]} = R ∧ comm_view comm ∈ comm_bag [comm] ⊎ R.
Proof. unfold comm_bag. simpl. split; multiset_solver. Qed.

Lemma bag_cases comm (R : gmultiset CommView) x : x ∈ comm_bag [comm] ⊎ R → x = comm_view comm ∨ x ∈ R.
Proof. unfold comm_bag. simpl. multiset_solver. Qed.

Lemma replay_consume_step r v ps cs R (s : Space) (sr : Replay) channels patterns continuation persist peeks ref :
  let wk := mkWC patterns continuation persist peeks ref in
  tidy v → NoDup channels → length channels = length patterns → join_of (c_hash ref) = channels →
  c_hash ref ∈ cs → (∀ x, x ∈ R → future v (inl (c_hash ref)) x) →
  in_step r v (produce_counter s) ps cs (comm_bag (log_comms (consume_events get s v channels patterns wk)) ⊎ R) sr →
  ∃ sr', replay_locked_consume get channels patterns continuation persist peeks ref sr =
           (sr', Ok (consume_result get v channels patterns wk)) ∧
         in_step r (consume_after get v channels patterns wk) (produce_counter s) ps cs R sr'.
Proof.
  intros wk Ht Hnd Hlen Hj Hk HR (Hs & Hc & Ha).
  assert (∀ comms y, by_consume (replay_data sr) !! c_hash ref = Some comms → y ∈ comms →
    comm_view y ∈ R → r_match v (rp_space sr) y channels patterns = None) as Hfut.
  { intros comms y Hb Hy HyR. destruct (bound_consume _ _ _ _ Ha _ _ _ Hb Hy) as [_ Ey].
    eapply future_consume; [done..| |exact Ey]. by apply HR. }
  unfold replay_locked_consume. rewrite (sr_bind_Ok _ _ _ sr _ eq_refl). fold wk.
  unfold comms_for_consume, consume_events, consume_result, consume_after in *.
  destruct (v_match get v channels patterns) as [cands|] eqn:Em.
  - set (comm := comm_of s cands ref peeks) in *. change (log_comms _) with [comm] in Ha.
    assert (comm_of (rp_space sr) cands ref peeks = comm) as Ecomm by by apply comm_of_counter.
    destruct (bag_cons comm R) as [ER Hin].
    destruct (consume_bound _ _ _ _ Ha comm Hin Hk) as (comms & Hb & Hx).
    change (c_hash (comm_consume comm)) with (c_hash ref) in Hb. rewrite Hb.
    pose proof (r_match_same v (rp_space sr) channels patterns cands ref peeks Ht Hnd Em) as Hm. rewrite Ecomm in Hm.
    destruct (r_find_Some v (rp_space sr) channels patterns comms cands) as [y Ef].
    { intros y Hy. destruct (bound_consume _ _ _ _ Ha _ _ _ Hb Hy) as [HyR _].
      apply bag_cases in HyR as [Ev|HyR]; [right|left; by eapply Hfut]. by rewrite (r_match_view _ _ _ comm). }
    { apply existsb_elem in Hx as (y & Hy & Ev%comm_eqb_view). exists y. split; [done|].
      by rewrite (r_match_view _ _ _ comm). }
    destruct (r_find_spec r v sr channels patterns comms Hs) as (hs1 & E1 & Hs1). rewrite Ef in E1.
    rewrite (sr_bind_Ok _ _ _ _ _ E1). set (sr1 := mkReplay (set_store hs1 (rp_space sr)) (replay_data sr)).
    rewrite (sr_bind_Ok _ _ sr1 sr1 (comm_of (rp_space sr) cands ref peeks) eq_refl), Ecomm, Hx. cbn [negb].
    destruct (r_op_space _ _ _ sr1 _ _ (store_persistent_data_spec r v (rp_space sr1) cands Hs1)) as (hs2 & E2 & Hs2).
    rewrite (sr_bind_Ok _ _ _ _ _ E2). eexists. split; [done|].
    split_and!; [done|done|]. cbn [replay_data]. rewrite <- ER. by apply accounts_use.
  - change (log_comms _) with (@nil Comm) in Ha.
    assert (comm_bag [] ⊎ R = R) as ER by apply gmultiset_disj_union_left_id. rewrite ER in Ha.
    assert (∀ sr1 : Replay, r_shows r v sr1 → produce_counter (rp_space sr1) = produce_counter s →
      replay_data sr1 = replay_data sr →
      ∃ sr', on_space (store_waiting_continuation channels wk) sr1 = (sr', Ok None) ∧
        in_step r (v_wait v channels wk) (produce_counter s) ps cs R sr') as Hwait.
    { intros sr1 Hs1 Hc1 Hd1.
      destruct (r_op_space _ _ _ sr1 _ _ (store_waiting_continuation_spec r v (rp_space sr1) channels wk Hs1))
        as (hs2 & E2 & Hs2). eexists. split; [exact E2|]. split_and!; [done|done|]. cbn. by rewrite Hd1. }
    destruct (by_consume (replay_data sr) !! c_hash ref) as [comms|] eqn:Hb; [|by apply Hwait].
    destruct (r_find_spec r v sr channels patterns comms Hs) as (hs1 & E1 & Hs1).
    rewrite r_find_None in E1; [rewrite (sr_bind_Ok _ _ _ _ _ E1); by apply Hwait|].
    intros y Hy. eapply Hfut; [done..|]. eapply bound_consume; done.
Qed.

Lemma count_produce_counter ref persist (s s' : Space) :
  produce_counter s = produce_counter s' →
  produce_counter (count_produce ref persist s) = produce_counter (count_produce ref persist s').
Proof. intros E. unfold count_produce, produce_counter_value. destruct persist; simpl; by rewrite E. Qed.

Lemma handle_match_step r v ps cs R (sr : Replay) pc comms :
  let comm := comm_of_pc (rp_space sr) pc in
  r_shows r v sr → existsb (λ c, comm_eqb c comm) comms = true →
  accounts ps cs (comm_bag [comm] ⊎ R) (replay_data sr) →
  ∃ sr', handle_match pc comms sr =
           (sr', Ok (wrap_result (pc_channels pc) (pc_continuation pc) (data_candidates pc))) ∧
         in_step r (v_fire v pc) (produce_counter (rp_space sr)) ps cs R sr'.
Proof.
  intros comm Hs Hx Ha. unfold handle_match. rewrite (sr_bind_Ok _ _ sr sr comm eq_refl), Hx. cbn [negb].
  destruct (r_op_space _ _ _ sr _ _ (remove_continuation_op r v (rp_space sr) (pc_channels pc)
    (continuation_index pc) (wc_persist (pc_continuation pc)) Hs)) as (hs1 & E1 & Hs1).
  rewrite (sr_bind_Ok _ _ _ _ _ E1). set (sr1 := mkReplay (set_store hs1 (rp_space sr)) (replay_data sr)).
  destruct (r_op_space _ _ _ sr1 _ _ (remove_matched_datum_and_join_spec r _ (rp_space sr1) (pc_channels pc)
    (data_candidates pc) Hs1)) as (hs2 & E2 & Hs2).
  rewrite (sr_bind_Ok _ _ _ _ _ E2). eexists. split; [done|]. split_and!; [done|done|].
  destruct (bag_cons comm R) as [ER Hin]. cbn [replay_data sr1]. rewrite <- ER. by apply accounts_use.
Qed.

(** The match of a produce uses the datum that is produced. *)
Definition uses_produced (s : Space) v c (d : Datum A) : Prop :=
  ∀ pc, v_produce_match get v c d = Some pc → dh d ∈ p_hash <$> comm_produces (comm_of_pc s pc).

Lemma replay_produce_step r v ps cs R (s : Space) (sr : Replay) c a persist ref :
  let d := mkDatum a persist ref in
  tidy v → chan_of (p_hash ref) = c → absent v (inr (p_hash ref)) → p_hash ref ∈ ps →
  uses_produced (count_produce ref persist s) v c d →
  (∀ x, x ∈ R → future v (inr (p_hash ref)) x) →
  in_step r v (produce_counter s) ps cs (comm_bag (log_comms (produce_events get s v c d)) ⊎ R) sr →
  ∃ sr', replay_locked_produce get c a persist ref sr = (sr', Ok (produce_result get v c d)) ∧
         in_step r (produce_after get v c d) (produce_counter (count_produce ref persist s)) ps cs R sr'.
Proof.
  intros d Ht Hch Hab Hk Hu HR (Hs & Hc & Ha). unfold replay_locked_produce.
  destruct (r_op_space _ _ _ sr _ _ (store_op_lift _ _ v _ _ _ (get_joins_spec r v (rs_store (rp_space sr)) c Hs)))
    as (hs1 & E1 & Hs1). rewrite (sr_bind_Ok _ _ _ _ _ E1).
  set (sr1 := mkReplay (set_store hs1 (rp_space sr)) (replay_data sr)).
  set (sr2 := mkReplay (count_produce ref persist (rp_space sr1)) (replay_data sr)).
  assert (on_space (if persist then sr_ret () else increment_produce_counter ref) sr1 = (sr2, Ok ())) as E2
    by (by destruct persist).
  rewrite (sr_bind_Ok _ _ _ _ _ E2), (sr_bind_Ok _ _ sr2 sr2 _ eq_refl). fold d.
  assert (r_shows r v sr2) as Hs2 by (unfold r_shows, sr2, count_produce; by destruct persist).
  assert (produce_counter (rp_space sr2) = produce_counter (count_produce ref persist s)) as Hc2
    by by apply count_produce_counter.
  assert (∀ j, j ∈ v_get_joins v c → NoDup j) as Hnd by apply (tidy_joins _ Ht).
  assert (∀ comms y, by_produce (replay_data sr) !! p_hash ref = Some comms → y ∈ comms →
    comm_view y ∈ R → r_extract v (rp_space sr2) y c d (v_get_joins v c) = None) as Hfut.
  { intros comms y Hb Hy HyR. eapply future_produce; [done..|]. by apply HR. }
  unfold comms_for_produce, produce_events, produce_result, produce_after in *. change (replay_data sr2) with (replay_data sr).
  destruct (v_produce_match get v c d) as [pc|] eqn:Em.
  - set (comm := comm_of_pc (count_produce ref persist s) pc) in *.
    change (log_comms _) with [comm] in Ha.
    assert (comm_of_pc (rp_space sr2) pc = comm) as Ecomm by by apply comm_of_counter.
    destruct (bag_cons comm R) as [_ Hin]. specialize (Hu pc Em). fold comm in Hu.
    destruct (produce_bound _ _ _ _ Ha comm _ Hin Hu Hk) as (comms & Hb & Hx). cbn [d_source d] in Hb. rewrite Hb.
    pose proof (r_extract_same v (rp_space sr2) c d (v_get_joins v c) pc Ht Hch Hab Hnd Em) as Hm. rewrite Ecomm in Hm.
    destruct (r_find_produce_Some v (rp_space sr2) c d comms (v_get_joins v c) pc) as [y Ef].
    { intros y Hy. destruct (bound_produce _ _ _ _ Ha _ _ _ Hb Hy) as [HyR _].
      apply bag_cases in HyR as [Ev|HyR]; [right|left; by eapply Hfut]. by rewrite (r_extract_view _ _ _ comm). }
    { apply existsb_elem in Hx as (y & Hy & Ev%comm_eqb_view). exists y. split; [done|].
      by rewrite (r_extract_view _ _ _ comm). }
    destruct (r_find_produce_spec r v sr2 c d comms (v_get_joins v c) Hs2) as (hs3 & E3 & Hs3). rewrite Ef in E3.
    rewrite (sr_bind_Ok _ _ _ _ _ E3). rewrite <- Ecomm in Hx, Ha.
    destruct (handle_match_step r v ps cs R (mkReplay (set_store hs3 (rp_space sr2)) (replay_data sr2)) pc comms
      Hs3 Hx Ha) as (sr' & E4 & Hs' & Hc' & Ha'). exists sr'. split; [done|]. split_and!; [done| |done].
    by rewrite Hc', <- Hc2.
  - change (log_comms _) with (@nil Comm) in Ha.
    assert (comm_bag [] ⊎ R = R) as ER by apply gmultiset_disj_union_left_id. rewrite ER in Ha.
    assert (∀ sr3 : Replay, r_shows r v sr3 → produce_counter (rp_space sr3) = produce_counter (rp_space sr2) →
      replay_data sr3 = replay_data sr →
      ∃ sr', on_space (store_data c a persist ref) sr3 = (sr', Ok None) ∧
        in_step r (v_put_datum v c d) (produce_counter (count_produce ref persist s)) ps cs R sr') as Hst.
    { intros sr3 Hs3 Hc3 Hd3.
      destruct (r_op_space _ _ _ sr3 _ _ (store_data_spec r v (rp_space sr3) c a persist ref Hs3)) as (hs4 & E4 & Hs4).
      eexists. split; [exact E4|]. split_and!; [done|by rewrite <- Hc2, <- Hc3|]. cbn. by rewrite Hd3. }
    destruct (by_produce (replay_data sr) !! p_hash ref) as [comms|] eqn:Hb; [|by apply Hst].
    destruct (r_find_produce_spec r v sr2 c d comms (v_get_joins v c) Hs2) as (hs3 & E3 & Hs3).
    rewrite r_find_produce_None in E3; [rewrite (sr_bind_Ok _ _ _ _ _ E3); by apply Hst|].
    intros y Hy. eapply Hfut; [done..|]. eapply bound_produce; done.
Qed.

(** *** What stays tidy *)

(** [v'] holds no more than [v]. *)
Record shrinks v v' : Prop := {
  shrinks_data c : v_data v' c `sublist_of` v_data v c;
  shrinks_conts j : v_get_conts v' j `sublist_of` v_get_conts v j;
  shrinks_joins c j : j ∈ v_get_joins v' c → j ∈ v_get_joins v c;
}.
Lemma shrinks_refl v : shrinks v v.
Proof. by split. Qed.
Lemma shrinks_trans v v1 v2 : shrinks v v1 → shrinks v1 v2 → shrinks v v2.
Proof. intros [D1 C1 J1] [D2 C2 J2]. split; intros; [by etrans; [apply D2|]|by etrans; [apply C2|]|auto]. Qed.
Lemma shrinks_foldl {X} (g : View → X → View) v l : (∀ v a, shrinks v (g v a)) → shrinks v (foldl g v l).
Proof.
  intros Hg. revert v. induction l as [|a l IH]; intros v; simpl; [apply shrinks_refl|].
  by eapply shrinks_trans.
Qed.

Lemma tidy_shrinks v v' : tidy v → shrinks v v' → tidy v'.
Proof.
  intros [Hd Hdn Hj Hjn Hs] [D1 C1 J1].
  split.
  - intros c d Hin. eapply Hd, elem_of_sublist; [exact Hin|done].
  - intros c. eapply sublist_NoDup; [apply (Hdn c)|]. by apply fmap_sublist.
  - intros j wc Hin. eapply Hj, elem_of_sublist; [exact Hin|done].
  - intros j. eapply sublist_NoDup; [apply (Hjn j)|]. by apply fmap_sublist.
  - intros c j Hin. by eapply Hs, J1.
Qed.
Lemma absent_shrinks v v' key : absent v key → shrinks v v' → absent v' key.
Proof.
  intros Hab [D1 C1 _]. destruct key; simpl in *; intros x y Hin; eapply Hab, elem_of_sublist; [exact Hin|done|exact Hin|done].
Qed.

Lemma v_take_shrinks v (cand : ConsumeCandidate C A) : shrinks v (v_take v cand).
Proof.
  split.
  - intros c. unfold v_take, v_remove_datum.
    destruct (d_persist (cc_datum cand)), (0 <=? datum_index cand); [done|done| |done].
    simpl. unfold upd. case_decide; [subst; apply sublist_delete|done].
  - intros j. unfold v_get_conts. destruct (v_take_frame v cand) as (-> & _ & -> & _). done.
  - intros c j. unfold v_get_joins. destruct (v_take_frame v cand) as (_ & -> & _ & ->). done.
Qed.
Lemma v_remove_join_shrinks v c j : shrinks v (v_remove_join v c j).
Proof.
  destruct (v_remove_join_frame v c j) as (Ed & Ec & Ei & El). split.
  - intros c'. by rewrite Ed.
  - intros j'. unfold v_get_conts. by rewrite Ec, Ei.
  - intros c' j'. unfold v_get_joins. rewrite El, !elem_of_app. intros [|Hin]; [by left|]. right.
    unfold v_remove_join in Hin. destruct (position _ _) as [i|]; [|done]. simpl in Hin. unfold upd in Hin.
    case_decide; [subst|done]. eapply elem_of_sublist; [exact Hin|apply sublist_delete].
Qed.
Lemma v_remove_cont_shrinks v j i : shrinks v (v_remove_cont v j i).
Proof.
  split.
  - intros c. by destruct (v_remove_cont_frame v j i) as [-> _].
  - intros j'. rewrite v_remove_cont_get. case_decide; [|done].
    destruct (v_iconts v j') as [|]; [destruct i|]; try done; apply sublist_delete.
  - intros c j'. unfold v_remove_cont. by destruct (v_iconts v j); [destruct i|].
Qed.
Lemma v_fire_shrinks v pc : shrinks v (v_fire v pc).
Proof.
  unfold v_fire. eapply shrinks_trans; [|apply shrinks_foldl].
  - destruct (wc_persist _); [apply shrinks_refl|apply v_remove_cont_shrinks].
  - intros w cand. eapply shrinks_trans; [apply v_take_shrinks|apply v_remove_join_shrinks].
Qed.

Lemma v_wait_get_conts v channels (wk : WC) j :
  v_get_conts (v_wait v channels wk) j ≡ₚ
  (if decide (j = channels) then [wk] else []) ++ v_get_conts v j.
Proof.
  unfold v_get_conts. destruct (v_wait_spec v channels wk) as (_ & -> & -> & _). unfold upd.
  case_decide; [subst|done]. simpl. by rewrite <- Permutation_middle.
Qed.

Lemma tidy_consume v channels patterns (wk : WC) :
  tidy v → NoDup channels → length channels = length (wc_patterns wk) → join_of (wh wk) = channels →
  absent v (inl (wh wk)) → tidy (consume_after get v channels patterns wk).
Proof.
  intros Ht Hnd Hlen Hj Hab. unfold consume_after. destruct (v_match get v channels patterns) as [cands|].
  { eapply tidy_shrinks; [done|]. apply shrinks_foldl, v_take_shrinks. }
  destruct (v_wait_spec v channels wk) as (Ed & _ & _ & Ei & Ejn). destruct Ht as [Hd Hdn Hjn Hcn Hs]. split.
  - intros c d. rewrite Ed. apply Hd.
  - intros c. rewrite Ed. apply Hdn.
  - intros j wc. rewrite v_wait_get_conts, elem_of_app. intros [Hin|]; [|by apply Hjn].
    case_decide; [subst j|by apply elem_of_nil in Hin]. by apply list_elem_of_singleton in Hin as ->.
  - intros j. rewrite v_wait_get_conts. case_decide; [|apply Hcn]. simpl. apply NoDup_cons. split; [|apply Hcn].
    rewrite list_elem_of_fmap. intros (wc & E & Hin). by eapply Hab.
  - intros c j. unfold v_get_joins. rewrite Ei, elem_of_app. intros [Hin|[Hin|[_ ->]]%Ejn]; [| |done].
    + apply (Hs c). apply elem_of_app. by left.
    + apply (Hs c). apply elem_of_app. by right.
Qed.
Lemma absent_consume v channels patterns (wk : WC) key :
  absent v key → key ≠ inl (wh wk) → absent (consume_after get v channels patterns wk) key.
Proof.
  intros Hab Hne. unfold consume_after. destruct (v_match get v channels patterns) as [cands|].
  { eapply absent_shrinks; [done|]. apply shrinks_foldl, v_take_shrinks. }
  destruct key as [h|h]; simpl in *.
  - intros j wc. rewrite v_wait_get_conts, elem_of_app. intros [Hin|Hin]; [|by eapply Hab].
    case_decide; [|by apply elem_of_nil in Hin]. apply list_elem_of_singleton in Hin as ->. congruence.
  - destruct (v_wait_spec v channels wk) as (-> & _). done.
Qed.

Lemma tidy_produce v c (d : Datum A) :
  tidy v → chan_of (dh d) = c → absent v (inr (dh d)) → tidy (produce_after get v c d).
Proof.
  intros Ht Hc Hab. unfold produce_after. destruct (v_produce_match get v c d) as [pc|].
  { eapply tidy_shrinks; [done|apply v_fire_shrinks]. }
  destruct Ht as [Hd Hdn Hjn Hcn Hs]. split; [| |done..]; simpl; unfold upd.
  - intros c' d'. case_decide; [subst c'|apply Hd]. intros [->|Hin]%elem_of_cons; [done|by apply Hd].
  - intros c'. case_decide; [subst c'|apply Hdn]. rewrite fmap_cons. apply NoDup_cons. split; [|apply Hdn].
    rewrite list_elem_of_fmap. intros (d' & E & Hin). by eapply Hab.
Qed.
Lemma absent_produce v c (d : Datum A) key :
  absent v key → key ≠ inr (dh d) → absent (produce_after get v c d) key.
Proof.
  intros Hab Hne. unfold produce_after. destruct (v_produce_match get v c d) as [pc|].
  { eapply absent_shrinks; [done|apply v_fire_shrinks]. }
  destruct key as [h|h]; simpl in *; [done|]. unfold upd. intros c' d'. case_decide; [|apply Hab].
  intros [->|Hin]%elem_of_cons; [congruence|by eapply Hab].
Qed.

(** *** Operations on views *)
Definition op_wk channels patterns continuation persist peeks : WC :=
  mkWC patterns continuation persist peeks (consume_apply create channels patterns continuation persist).
Definition op_datum (c : C) (a : A) persist : Datum A := mkDatum a persist (produce_apply create c a persist).

Definition op_after v (o : @Op C P A K) : View :=
  match o with
  | OpConsume channels patterns continuation persist peeks =>
      consume_after get v channels patterns (op_wk channels patterns continuation persist peeks)
  | OpProduce c a persist => produce_after get v c (op_datum c a persist)
  end.
Definition op_result v (o : @Op C P A K) : Res :=
  match o with
  | OpConsume channels patterns continuation persist peeks =>
      consume_result get v channels patterns (op_wk channels patterns continuation persist peeks)
  | OpProduce c a persist => produce_result get v c (op_datum c a persist)
  end.
Definition op_events (s : Space) v (o : @Op C P A K) : Log :=
  match o with
  | OpConsume channels patterns continuation persist peeks =>
      consume_events get s v channels patterns (op_wk channels patterns continuation persist peeks)
  | OpProduce c a persist => produce_events get s v c (op_datum c a persist)
  end.
Definition op_count (s : Space) (o : @Op C P A K) : Space :=
  match o with
  | OpConsume _ _ _ _ _ => s
  | OpProduce c a persist => count_produce (produce_apply create c a persist) persist s
  end.

(** The channels of an operation are distinct, and its hash tells them. *)
Definition op_ok (o : @Op C P A K) : Prop :=
  match o with
  | OpConsume channels patterns continuation persist _ =>
      NoDup channels ∧ join_of (c_hash (consume_apply create channels patterns continuation persist)) = channels
  | OpProduce c a persist => chan_of (p_hash (produce_apply create c a persist)) = c
  end.

Lemma play_step r v (s s1 : Space) o run res :
  shows r v (rs_store s) → play_op create get o = Some run → run s = (s1, Ok res) →
  res = op_result v o ∧ event_log s1 = op_events s v o ++ event_log s ∧
  produce_counter s1 = produce_counter (op_count s o) ∧ shows r (op_after v o) (rs_store s1).
Proof.
  intros Hs. destruct o as [channels patterns continuation persist peeks|c a persist]; simpl.
  - unfold consume. destruct (_ && _); [|done]. intros [= <-] E.
    destruct (locked_consume_spec get r v s channels patterns continuation persist peeks
      (consume_apply create channels patterns continuation persist) Hs) as (hs' & E' & Hs').
    rewrite E' in E. injection E as <- <-. done.
  - intros [= <-] E. unfold produce in E.
    destruct (get_joins_spec r v (rs_store s) c Hs) as (hs1 & E1%on_store_Ok & Hs1).
    rewrite (sr_bind_Ok _ _ _ _ _ E1) in E.
    destruct (locked_produce_spec get r v (set_store hs1 s) c a persist (produce_apply create c a persist) Hs1)
      as (hs' & E' & Hs'). rewrite E' in E. injection E as <- <-. unfold count_produce.
    fold (op_datum c a persist) in *. split_and!; [done|..|done].
    + rewrite <- (app_nil_r (event_log s)) at 1. unfold produce_events, count_produce.
      by destruct persist, (v_produce_match get v c _); simpl; rewrite ?app_nil_r.
    + by destruct persist.
Qed.

Lemma replay_step r v ps cs R (s : Space) (sr : Replay) o run :
  tidy v → op_ok o → absent v (op_key o) → play_op (Repo := Repo) create get o = Some run →
  match op_key o with inl h => h ∈ cs | inr h => h ∈ ps end →
  (∀ c a persist, o = OpProduce c a persist → uses_produced (op_count s o) v c (op_datum c a persist)) →
  (∀ x, x ∈ R → future v (op_key o) x) →
  in_step r v (produce_counter s) ps cs (comm_bag (log_comms (op_events s v o)) ⊎ R) sr →
  ∃ run' sr', replay_op create get o = Some run' ∧ run' sr = (sr', Ok (op_result v o)) ∧
    in_step r (op_after v o) (produce_counter (op_count s o)) ps cs R sr'.
Proof.
  intros Ht Ho Hab Hp Hk Hu HR Hst. destruct o as [channels patterns continuation persist peeks|c a persist]; simpl in *.
  - unfold consume in Hp. unfold replay_consume. destruct Ho as [Hnd Hj].
    destruct (bool_decide (channels ≠ [])); simpl in *; [|done].
    destruct (length channels =? length patterns)%nat eqn:El; simpl in *; [|done]. apply Nat.eqb_eq in El.
    destruct (replay_consume_step r v ps cs R s sr channels patterns continuation persist peeks
      (consume_apply create channels patterns continuation persist) Ht Hnd El Hj Hk HR Hst) as (sr' & E & Hst').
    by eexists _, sr'.
  - destruct Hst as (Hs & Hc & Ha).
    destruct (r_op_space _ _ _ sr _ _ (store_op_lift _ _ v _ _ _ (get_joins_spec r v (rs_store (rp_space sr)) c Hs)))
      as (hs1 & E1 & Hs1).
    destruct (replay_produce_step r v ps cs R s (mkReplay (set_store hs1 (rp_space sr)) (replay_data sr)) c a persist
      (produce_apply create c a persist) Ht Ho Hab Hk (Hu _ _ _ eq_refl) HR) as (sr' & E & Hst'); [done|].
    eexists _, sr'. split_and!; [done| |done]. unfold replay_produce. rewrite (sr_bind_Ok _ _ _ _ _ E1). exact E.
Qed.

Lemma op_after_tidy v o run :
  tidy v → op_ok o → absent v (op_key o) → play_op (Repo := Repo) create get o = Some run → tidy (op_after v o).
Proof.
  destruct o as [channels patterns continuation persist peeks|c a persist]; simpl; intros Ht Ho Hab Hp.
  - unfold consume in Hp. destruct (bool_decide (channels ≠ [])); simpl in *; [|done].
    destruct (length channels =? length patterns)%nat eqn:El; simpl in *; [|done]. apply Nat.eqb_eq in El.
    by apply tidy_consume; [|apply Ho| |apply Ho|].
  - by apply tidy_produce.
Qed.
Lemma op_after_absent v o key : absent v key → key ≠ op_key o → absent (op_after v o) key.
Proof. destruct o; simpl; intros; [by apply absent_consume|by apply absent_produce]. Qed.

(** The COMM of a match is well formed. *)
Lemma wf_comm_of (s : Space) cands ref peeks channels :
  (λ cand, chan_of (dh (cc_datum cand))) <$> cands = channels → NoDup channels → join_of (c_hash ref) = channels →
  wf_comm (comm_view (comm_of s cands ref peeks)).
Proof.
  intros Hch Hnd Hj.
  assert (chan_of <$> (comm_view (comm_of s cands ref peeks)).1.1.2 ≡ₚ channels) as Hp.
  { cbn [comm_view fst snd]. rewrite comm_of_hashes, <- Hch. by rewrite <- list_fmap_compose. }
  split; [by rewrite Hp|]. intros h Hin. change ((comm_view _).1.1.1) with (c_hash ref). rewrite Hj, <- Hp.
  by apply list_elem_of_fmap_2.
Qed.

(** In a log, newest first, the COMM of a produce mentions the produce. *)
Fixpoint triggers_used (log : Log) : Prop :=
  match log with
  | [] => True
  | e :: log' =>
      match e, head log' with
      | EvComm comm, Some (EvProduce p) => p_hash p ∈ p_hash <$> comm_produces comm
      | _, _ => True
      end ∧ triggers_used log'
  end.

Lemma triggers_used_app l1 l2 : triggers_used (l1 ++ l2) → triggers_used l1 ∧ triggers_used l2.
Proof.
  induction l1 as [|e l1 IH]; [done|]. simpl. intros [He [H1 H2]%IH]. split_and!; [|done|done].
  destruct l1 as [|e' l1]; [by destruct e|done].
Qed.

Lemma op_events_mention (s : Space) v o run x :
  tidy v → op_ok o → absent v (op_key o) → play_op (Repo := Repo) create get o = Some run →
  triggers_used (op_events s v o) → x ∈ comm_bag (log_comms (op_events s v o)) →
  wf_comm x ∧ mentions x (op_key o).
Proof.
  intros Ht Ho Hab Hp Hu Hx. unfold comm_bag in Hx. rewrite elem_of_list_to_set_disj in Hx.
  destruct o as [channels patterns continuation persist peeks|c a persist].
  - destruct Ho as [Hnd Hj]. simpl in Hp, Hx. unfold consume in Hp. unfold consume_events in Hx.
    destruct (bool_decide (channels ≠ [])); simpl in Hp; [|done].
    destruct (length channels =? length patterns)%nat eqn:El; simpl in Hp; [|done]. apply Nat.eqb_eq in El.
    destruct (v_match get v channels patterns) as [cands|] eqn:Em; [|by apply elem_of_nil in Hx].
    apply list_elem_of_singleton in Hx as ->. split; [|done]. apply collect_extract in Em.
    eapply wf_comm_of; [|exact Hnd|done].
    etrans; [eapply (cands_channels (stored_pool v) _ _ _ (NoDup_zip_fst _ _ Hnd) (good_stored v Ht)); [|exact Em]|].
    2:{ apply fst_zip. lia. }
    intros c l y [-> _]%v_indexed_lookup. by rewrite elem_of_sorted_index.
  - simpl in Ho, Hab, Hx, Hu. unfold produce_events in Hx, Hu. set (d := op_datum c a persist) in *.
    destruct (v_produce_match get v c d) as [pc|] eqn:Em; [|by apply elem_of_nil in Hx].
    apply list_elem_of_singleton in Hx as ->. split; [|apply Hu].
    apply v_extract_split in Em as (g1 & g2 & Eg & _ & Ef). destruct pc as [j wc i cands]. cbn [pc_channels] in *.
    apply first_match_loop_Some in Ef as (l1 & wc' & i' & l2 & cands' & Es & _ & He & [= <- <- <-]).
    assert (wc ∈ v_get_conts v j) as Hw.
    { eapply list_elem_of_lookup_2, elem_of_index_continuations.
      apply (elem_of_sort_by (λ a b, consume_cmp (wc_source a.1) (wc_source b.1))). rewrite Es.
      apply elem_of_app. right. by left. }
    destruct (tidy_join _ Ht _ _ Hw) as [Hj Hlen].
    assert (NoDup j) as Hnd by (apply (tidy_joins _ Ht c); rewrite Eg; apply elem_of_app; right; by left).
    eapply wf_comm_of; [|exact Hnd|done].
    etrans; [eapply (cands_channels (produced_pool v c d) _ _ _ (NoDup_zip_fst _ _ Hnd)
      (good_produced v c d Ht Ho Hab)); [|exact He]|].
    2:{ apply fst_zip. simpl. lia. }
    intros c' l [d' i''] [-> _]%produced_lookup Hy%elem_of_produced. apply elem_of_produced_pool. naive_solver.
Qed.

#[global] Instance triggers_used_dec log : Decision (triggers_used log).
Proof.
  induction log as [|e log IH]; simpl; [apply _|].
  apply and_dec; [|done]. destruct e as [comm| |]; [|apply _..]. destruct (head log) as [[]|]; apply _.
Defined.

(** ** Runs *)
Fixpoint run_all {S} (step : @Op C P A K → option (StateResult S Res RSpaceError)) (ops : list (@Op C P A K))
    (s : S) : option (S * list Res) :=
  match ops with
  | [] => Some (s, [])
  | o :: ops' =>
      match step o with
      | None => None
      | Some run =>
          match run s with
          | (_, Err _) => None
          | (s1, Ok res) =>
              match run_all step ops' s1 with
              | None => None
              | Some (s2, results) => Some (s2, res :: results)
              end
          end
      end
  end.

(** The operations of a run: no event is repeated or already stored. *)
Record distinct_run v (ops : list (@Op C P A K)) : Prop := {
  run_ok o : o ∈ ops → op_ok o;
  run_distinct : NoDup (op_key <$> ops);
  run_absent o : o ∈ ops → absent v (op_key o);
}.

Definition logged (ps cs : gset hash) (ops : list (@Op C P A K)) : Prop :=
  ∀ o, o ∈ ops → match op_key o with inl h => h ∈ cs | inr h => h ∈ ps end.

Lemma op_events_logged (s : Space) v o log :
  log_produces (log ++ op_events s v o) = log_produces log ∪
    (match op_key o with inl h => ∅ | inr h => {[h]} end) ∧
  log_consumes (log ++ op_events s v o) = log_consumes log ∪
    (match op_key o with inl h => {[h]} | inr h => ∅ end).
Proof.
  unfold log_produces, log_consumes. rewrite !omap_app, !list_to_set_app_L.
  destruct o as [channels patterns continuation persist peeks|c a persist]; simpl.
  - unfold consume_events. destruct (v_match get v channels patterns); simpl; split; f_equal; set_solver.
  - unfold produce_events. destruct (v_produce_match get v c _); simpl; split; f_equal; set_solver.
Qed.

Lemma distinct_run_cons v o ops run :
  tidy v → play_op (Repo := Repo) create get o = Some run → distinct_run v (o :: ops) →
  tidy (op_after v o) ∧ distinct_run (op_after v o) ops ∧ ∀ o', o' ∈ ops → op_key o' ≠ op_key o.
Proof.
  intros Ht Hp [Hok Hnd Hab]. rewrite fmap_cons, NoDup_cons in Hnd. destruct Hnd as [Hn Hnd].
  assert (∀ o', o' ∈ ops → op_key o' ≠ op_key o) as Hne.
  { intros o' Hin E. apply Hn. rewrite <- E. by apply list_elem_of_fmap_2. }
  split_and!; [|split|done].
  - eapply op_after_tidy; [done|apply Hok; by left|apply Hab; by left|done].
  - intros o' Hin. apply Hok. by right.
  - done.
  - intros o' Hin. apply op_after_absent; [apply Hab; by right|by apply Hne].
Qed.

(** The replay of a run, step by step. *)
Lemma run_in_step ops : ∀ (s s' : Space) results r v,
  shows r v (rs_store s) → tidy v → distinct_run v ops →
  run_all (play_op create get) ops s = Some (s', results) →
  ∃ es, event_log s' = es ++ event_log s ∧ logged (log_produces es) (log_consumes es) ops ∧
    (triggers_used es →
     (∀ x, x ∈ comm_bag (log_comms es) → wf_comm x ∧ ∃ o, o ∈ ops ∧ mentions x (op_key o)) ∧
     ∀ (sr : Replay) r' ps cs, logged ps cs ops →
       in_step r' v (produce_counter s) ps cs (comm_bag (log_comms es)) sr →
       ∃ sr' v', run_all (replay_op create get) ops sr = Some (sr', results) ∧
         shows r v' (rs_store s') ∧ in_step r' v' (produce_counter s') ps cs ∅ sr').
Proof.
  induction ops as [|o ops IH]; intros s s' results r v Hs Ht Hd E.
  { simpl in E. injection E as <- <-. exists []. split_and!; [done|by intros ? ?%elem_of_nil|].
    intros _. split; [by intros x Hx%gmultiset_elem_of_empty|]. intros sr r' ps cs _ Hst. by exists sr, v. }
  cbn [run_all] in E. destruct (play_op create get o) as [run|] eqn:Ep; [|done].
  destruct (run s) as [s1 [res|]] eqn:Er; [|done].
  destruct (run_all _ ops s1) as [[s2 results']|] eqn:Ea; [|done]. injection E as -> <-.
  destruct (play_step r v s s1 o run res Hs Ep Er) as (-> & El & Ec & Hs1).
  destruct (distinct_run_cons v o ops run Ht Ep Hd) as (Ht1 & Hd1 & Hne).
  destruct (IH s1 s' results' r _ Hs1 Ht1 Hd1 Ea) as (es & El' & Hlog & Hrest).
  destruct (op_events_logged s v o es) as [Elp Elc].
  exists (es ++ op_events s v o). split_and!.
  - by rewrite El', El, app_assoc.
  - rewrite Elp, Elc. intros o' [->|Hin]%elem_of_cons.
    + destruct (op_key o); set_solver.
    + specialize (Hlog o' Hin). destruct (op_key o'); set_solver.
  - intros [Hu1 Hu2]%triggers_used_app. destruct (Hrest Hu1) as [Hfut Hrep].
    assert (comm_bag (log_comms (es ++ op_events s v o)) =
      comm_bag (log_comms (op_events s v o)) ⊎ comm_bag (log_comms es)) as EB.
    { unfold comm_bag, log_comms. rewrite omap_app, fmap_app, list_to_set_disj_app.
      by rewrite gmultiset_disj_union_comm. }
    assert (op_ok o ∧ absent v (op_key o)) as [Ho Hab] by (split; apply Hd; by left).
    split.
    + intros x. rewrite EB, gmultiset_elem_of_disj_union. intros [Hx|Hx].
      * destruct (op_events_mention s v o run x Ht Ho Hab Ep Hu2 Hx). split; [done|].
        exists o. split; [by left|done].
      * destruct (Hfut x Hx) as [? (o' & ? & ?)]. split; [done|]. exists o'. split; [by right|done].
    + intros sr r' ps cs Hl Hst. rewrite EB in Hst.
      destruct (replay_step r' v ps cs (comm_bag (log_comms es)) s sr o run Ht Ho Hab Ep) as (run' & sr1 & Er' & E1 & Hst1).
      * apply Hl. by left.
      * intros c a persist -> pc Hpc. simpl in Hu2. unfold produce_events in Hu2. rewrite Hpc in Hu2. apply Hu2.
      * intros x Hx. destruct (Hfut x Hx) as [Hw (o' & Hin & Hm)]. split; [done|].
        exists (op_key o'). split_and!; [by apply Hne|apply Hd; by right|done].
      * done.
      * rewrite <- Ec in Hst1. destruct (Hrep sr1 r' ps cs) as (sr' & v' & Ea' & Hs' & Hst').
        { intros o' Hin. apply Hl. by right. }
        { done. }
        exists sr', v'. split_and!; [|done|done]. cbn [run_all]. by rewrite Er', E1, Ea'.
Qed.

(** With no COMM left, nothing is bound. *)
Lemma accounts_none ps cs rd : accounts ps cs ∅ rd → replay_is_empty rd = true.
Proof.
  intros [Hc Hp Nc Np].
  assert (∀ m, no_empty m → (∀ h x, multiplicity x (bag m h) = 0%nat) → m = ∅) as Hm.
  { intros m Hn Hz. apply map_empty. intros h. destruct (m !! h) as [[|comm comms]|] eqn:E; [by apply Hn in E| |done].
    pose proof (bag_elem m h _ comm E ltac:(by left)) as Hb. rewrite Hz in Hb. lia. }
  unfold replay_is_empty. rewrite (Hm (by_consume rd) Nc), (Hm (by_produce rd) Np); [done|..].
  - intros h x. by rewrite Hp, multiplicity_empty.
  - intros h x. by rewrite Hc, multiplicity_empty.
Qed.

End Distinct.
End ReplayComplete.
