(* ===== verification/ReplayExample.v ===== *)
(** * Concrete replays

    A run whose replay fails, and the instances of the replay theorems. *)

From S2P Require Import Prelude BTree Bytes Trace HotStore SpaceMatcher NativeStore RSpace RSpaceSpec.
From S2P Require Import ReplayRSpace ReplaySpec ReplayComplete.
Export RSpaceExample.

Notation Replay := (@ReplayRSpace Z Z Z Z unit _ _).

Definition r0 : Replay := mkReplay s0 (mkReplayData ∅ ∅).
Definition play_all (ops : list (@Op Z Z Z Z)) : option (Space * list ActionResult) :=
  run_all (play_op digest eq_match) ops s0.
Definition replay_all (log : Log) (ops : list (@Op Z Z Z Z)) : option (Replay * list ActionResult) :=
  run_all (replay_op digest eq_match) ops (rig log r0).

(** Two receivers of 7 and 8, the messages 7 and 8, a receiver of 9 and the
    message 5: every event of the run is different. *)
Definition lost_ops : list (@Op Z Z Z Z) :=
  [OpConsume [1] [7] 100 false ∅; OpConsume [1] [8] 101 false ∅; OpProduce 1 7 false;
   OpProduce 1 8 false; OpConsume [1] [9] 102 false ∅; OpProduce 1 5 false].

(** What the final check of the replay of a play run says. *)
Definition replay_verdict (ops : list (@Op Z Z Z Z)) : option (Result unit ReplayException) :=
  match play_all ops with
  | Some (s, _) =>
      match replay_all (event_log s) ops with
      | Some (r, _) => Some (check_replay_data r)
      | None => None
      end
  | None => None
  end.

(** An honest play run can fail its own replay.  A produce that fires with
    a stored datum in place of its own logs a COMM that does not mention it;
    the replay, which looks COMMs up by the produce, stores the datum instead,
    and the final check reports the COMM (bound twice) as unused. *)
Theorem lost_datum_breaks_replay : replay_verdict lost_ops = Some (Err (UnusedComms 2)).
Proof. by vm_compute. Qed.

(** A receiver on two channels and its two messages. *)
Definition join_ops : list (@Op Z Z Z Z) :=
  [OpConsume [1; 2] [7; 8] 100 false ∅; OpProduce 1 7 false; OpProduce 2 8 false].
Definition join_run : Space * list (@ActionResult Z Z Z Z) := default (s0, []) (play_all join_ops).

Lemma join_plays : play_all join_ops = Some (join_run.1, join_run.2).
Proof.
  assert (bool_decide (is_Some (play_all join_ops)) = true) as Hb by (vm_compute; reflexivity).
  apply bool_decide_eq_true in Hb as [[s res] E]. unfold join_run. by rewrite E.
Qed.
Lemma join_triggers : triggers_used (event_log join_run.1).
Proof.
  assert (@bool_decide _ (triggers_used_dec (event_log join_run.1)) = true) as Hb by (vm_compute; reflexivity).
  exact (bool_decide_eq_true_1 _ Hb).
Qed.

Definition join_chan (h : hash) : Z := if bool_decide (h = p_hash (produce_apply digest 1 7 false)) then 1 else 2.

Lemma tidy_s0 : tidy join_chan (λ _, [1; 2]) (view (rs_store s0)).
Proof. split; intros *; simpl; rewrite ?lookup_empty; (by intros ?%elem_of_nil) || constructor. Qed.

Lemma join_distinct : distinct_run digest join_chan (λ _, [1; 2]) (view (rs_store s0)) join_ops.
Proof.
  split.
  - intros o [->|[->|[->|?%elem_of_nil]%elem_of_cons]%elem_of_cons]%elem_of_cons; [| | |done].
    + split; [apply (bool_decide_unpack _)|]; by vm_compute.
    + by vm_compute.
    + by vm_compute.
  - apply (bool_decide_unpack _). by vm_compute.
  - intros o _. destruct o; simpl; intros *; rewrite ?lookup_empty; by intros ?%elem_of_nil.
Qed.


Lemma run_all_replay_run ops : ∀ (r r' : Replay) results,
  run_all (replay_op digest eq_match) ops r = Some (r', results) → ∃ fired, replay_run digest eq_match r fired r'.
Proof.
  induction ops as [|o ops IH]; intros r r' results E; cbn [run_all] in E.
  { injection E as <- <-. exists []. constructor. }
  destruct (replay_op digest eq_match o) as [run|] eqn:Eo; [|done].
  destruct (run r) as [r1 [res|]] eqn:Er; [|done]. destruct (run_all _ ops r1) as [[r2 results']|] eqn:Ea; [|done].
  injection E as -> <-. destruct (IH _ _ _ Ea) as [fired Hf]. destruct res as [res|].
  - exists ((rp_space r1, res) :: fired). by eapply replay_run_fire.
  - exists fired. by eapply replay_run_quiet.
Qed.

Lemma join_closed : log_closed (event_log join_run.1).
Proof.
  set (log := event_log join_run.1).
  assert (Forall (λ comm, c_hash (comm_consume comm) ∈ log_consumes log) (log_comms log)) as Hf.
  { apply (bool_decide_unpack _). by vm_compute. }
  intros comm Hin. left. rewrite Forall_forall in Hf. by apply Hf.
Qed.
Definition join_replay : Replay := default r0 (fst <$> replay_all (event_log join_run.1) join_ops).
Lemma join_replays : ∃ fired, replay_run digest eq_match (rig (event_log join_run.1) r0) fired join_replay.
Proof.
  assert (bool_decide (is_Some (replay_all (event_log join_run.1) join_ops)) = true) as Hb by (vm_compute; reflexivity).
  apply bool_decide_eq_true in Hb as [[r res] E]. unfold join_replay. rewrite E. by eapply run_all_replay_run.
Qed.
Lemma join_check : check_replay_data join_replay = Ok ().
Proof. by vm_compute. Qed.

Lemma replay_performs_recorded_witness :
  ∃ performed : list Comm, comm_view <$> performed ≡ₚ comm_view <$> log_comms (event_log join_run.1).
Proof.
  destruct join_replays as [fired Hr].
  destruct (replay_performs_recorded digest eq_match (event_log join_run.1) r0 fired join_replay
    Hr join_check) as (performed & _ & _ & Hp). exists performed. exact (Hp join_closed).
Defined.
