(* ===== verification/HistoryExample.v ===== *)
(** * Concrete checkpoints

    The instances of the theorems on checkpoints, and two runs in which a
    checkpoint does not keep what the space does. *)

From S2P Require Import Prelude BTree Bytes RadixCodec RadixTree RadixTreeSpec RadixHistory Trace HotStore Scodec.
From S2P Require Import NativeStore SpaceMatcher RSpace HistoryRepository HistorySpec.

(** Names, patterns, data and continuations are bytes. *)
#[export] Instance byte_serialize : Serialize byte := {
  ser_encode b := [b];
  ser_decode l := match l with [b] => Some b | _ => None end;
}.
#[export] Instance byte_serialize_spec : SerializeSpec byte.
Proof. by split. Qed.

(** Some function to 32 bytes stands for the digest. *)
Definition sum_hash (l : list byte) : hash :=
  let h := foldl (λ h b, (h * 257 + u8_N b + 1) mod 2305843009213693951)%N 7%N l in
  replicate 24 x00 ++ ((λ i, N_u8 (N.shiftr h (8 * N.of_nat i) mod 256)%N) <$> seq 0 8).
Lemma sum_hash_length l : length (sum_hash l) = 32%nat.
Proof. unfold sum_hash. by rewrite length_app, length_replicate, length_fmap, length_seq. Qed.

Notation ByteSpace := (@RSpace byte byte byte byte HistoryRepository _ _).
#[export] Instance byte_history : HistoryOps HistoryRepository byte byte byte byte := repository_history sum_hash.
Definition byte_match (p a : byte) : option byte := if bool_decide (p = a) then Some a else None.

(** A space over the empty history. *)
Definition repo0 : HistoryRepository :=
  mkRepo (RadixTree.mkHistory (RadixTree.empty_root_hash sum_hash) RadixNode.empty_node) (RadixTree.new ∅) ∅ ∅.
Definition reader0 : HistoryReaderBase byte byte byte byte :=
  base_reader sum_hash (mkReaderImpl (current_history repo0) (RadixTree.new ∅) ∅).
Definition space0 : ByteSpace := rspace_new repo0 (hot_store_new reader0).

(** [for (@p1 <- c1; ... ) { k }], and [c!(a)] with the continuation that ran. *)
Definition wait (cs ps : list byte) (k : byte) (s : ByteSpace) : ByteSpace :=
  match consume sum_hash byte_match cs ps k false ∅ with Some run => (run s).1 | None => s end.
Definition send (c a : byte) (s : ByteSpace) : ByteSpace * option byte :=
  match produce sum_hash byte_match c a false s with
  | (s', Ok (Some (cont, _))) => (s', Some (cr_continuation cont))
  | (s', _) => (s', None)
  end.
Definition checkpointed (s : ByteSpace) : option ByteSpace :=
  match create_checkpoint s with (s', Ok _) => Some s' | _ => None end.
(** What the second of two messages runs. *)
Definition send_two (c1 a1 c2 a2 : byte) (s : ByteSpace) : option byte := (send c2 a2 (send c1 a1 s).1).2.

(** A receiver of 8 on channel 2 and of 7 on channel 1. *)
Definition waiting : ByteSpace := wait [x02; x01] [x08; x07] x64 space0.

(** A checkpoint can cross the patterns of a join.  A receiver of 8 on
    channel 2 and 7 on channel 1 waits.  The messages run it.  After a
    checkpoint they do not, and the messages 8 on channel 1 and 7 on channel 2,
    which it must not accept, do: the channels of a stored join are sorted by
    their encoding, the patterns of the stored continuation keep their order. *)
Theorem checkpoint_crosses_patterns :
  ∃ after, checkpointed waiting = Some after ∧
    send_two x01 x07 x02 x08 waiting = Some x64 ∧ send_two x01 x08 x02 x07 waiting = None ∧
    send_two x01 x07 x02 x08 after = None ∧ send_two x01 x08 x02 x07 after = Some x64.
Proof.
  assert (match checkpointed waiting with
    | Some after =>
        bool_decide (send_two x01 x07 x02 x08 waiting = Some x64) && bool_decide (send_two x01 x08 x02 x07 waiting = None) &&
        bool_decide (send_two x01 x07 x02 x08 after = None) && bool_decide (send_two x01 x08 x02 x07 after = Some x64)
    | None => false
    end = true) as Hb by (vm_compute; reflexivity).
  destruct (checkpointed waiting) as [after|]; [|done]. exists after. split; [done|].
  rewrite !andb_true_iff, !bool_decide_eq_true in Hb. tauto.
Qed.

(** Receivers on the same channels in two orders make the checkpoint panic:
    their rows have the same key in the history, because the digest of a list
    of channels does not depend on its order, and a batch with two actions on
    a key is refused by an assertion. *)
Theorem permuted_joins_panic_checkpoint :
  (create_checkpoint (wait [x01; x02] [x07; x08] x65 waiting)).2 = Err HistoryPanicked.
Proof.
  assert (match (create_checkpoint (wait [x01; x02] [x07; x08] x65 waiting)).2 with
    | Err HistoryPanicked => true | _ => false end = true) as Hb by (vm_compute; reflexivity).
  by destruct (create_checkpoint _).2 as [|[]].
Qed.

(** ** The instances *)

(** A datum on channel 2, a receiver on channel 1, and a native value. *)
Definition some_datum : Datum byte := mkDatum x05 false (produce_apply sum_hash x02 x05 false).
Definition some_wc : WaitingContinuation byte byte :=
  mkWC [x09] x64 false ∅ (consume_apply sum_hash [x01] [x09] x64 false).
Definition some_key : NativeKey := (PREFIX_VAULT, replicate 32 x01).
Definition some_space : ByteSpace :=
  mkRSpace repo0
    (mkHotStore (mkHotStoreState {[ [x01] := [some_wc] ]} ∅ {[ x02 := [some_datum] ]} {[ x01 := [[x01]] ]} ∅)
       (mkCache ∅ ∅ ∅) reader0)
    [] ∅ ∅ (mkNative {[ some_key := Some [x2a] ]} NoopNativeReader).

Lemma repo0_rep : repo_rep sum_hash repo0 (λ _, None).
Proof.
  split; [|right; by vm_compute]. exists (λ _, None). split; [exact (fresh_history sum_hash 32)|done].
Qed.

Lemma open_repo0 :
  open_reader repo0 (RadixTree.root_hash (current_history repo0)) =
  Ok (mkReaderImpl (current_history repo0) (RadixTree.new ∅) ∅).
Proof. by vm_compute. Qed.

Lemma some_space_at : space_at sum_hash some_space (λ _, None).
Proof.
  split; [exact repo0_rep| |].
  - destruct (readers_read sum_hash sum_hash_length (C := byte) (P := byte) (A := byte) (K := byte) repo0 _ repo0_rep)
      as (r & nr & E1 & E2 & [D C J N]).
    assert (r = reader0) as -> by (unfold get_history_reader in E1; rewrite open_repo0 in E1; by injection E1).
    split; [exact D|exact C|exact J|done].
  - split; intros c; exists []; by vm_compute.
Qed.

#[local] Instance fits_dec n bits : Decision (fits n bits) := decide (N.of_nat n < 2 ^ bits)%N.

(** Different keys in the batch, and no collision in an empty store. *)
Lemma distinct_leaves_clean cold : NoDup cold.*1 → leaves_clean ∅ cold.
Proof.
  intros Hnd kv Hin. split; [intros b; by rewrite lookup_empty|]. intros kv' Hin' E.
  apply list_elem_of_lookup in Hin as [i Hi], Hin' as [j Hj].
  assert (i = j) as ->; [|by simplify_eq].
  apply (NoDup_lookup _ _ _ (kv.1) Hnd); rewrite list_lookup_fmap; [by rewrite Hi|by rewrite Hj, <- E].
Qed.

Definition batch_runs (repo : HistoryRepository) (las : list LeafAction) : bool :=
  let actions := (leaf_action sum_hash <$> las).*2 in
  match RadixTree.make_actions sum_hash (RadixTree.root_node (current_history repo)) actions (radix repo) with
  | RadixTree.Done None _ => false
  | _ => true
  end &&
  match RadixTree.process sum_hash (current_history repo) actions (radix repo) with
  | RadixTree.Done _ t => bool_decide (RadixTree.cache_write t = ∅)
  | _ => false
  end.

Lemma batch_runs_ok repo las :
  batch_runs repo las = true →
  no_collision sum_hash (current_history repo) (leaf_action sum_hash <$> las).*2 (radix repo).
Proof.
  intros [H1 H2]%andb_true_iff. split.
  - intros t1 E. by rewrite E in H1.
  - destruct (RadixTree.process _ _ _ _) as [x t|r t|]; [|done..]. apply bool_decide_eq_true in H2. by apply no_writes.
Qed.

Lemma some_batch : batch_ok sum_hash repo0 (space_leaves sum_hash some_space).
Proof.
  split.
  - vm_decide.
  - apply Forall_forall. vm_decide.
  - assert (Forall (λ la : LeafAction, fits (length (from_option leaf_bytes [] la.2)) 64)
      (space_leaves sum_hash some_space)) as Hf by vm_decide.
    intros la leaf Hin E. rewrite Forall_forall in Hf. specialize (Hf la Hin). by rewrite E in Hf.
  - apply distinct_leaves_clean. vm_decide.
  - apply batch_runs_ok. vm_compute. reflexivity.
Qed.

Lemma some_checkpointable : checkpointable sum_hash some_space.
Proof.
  split; [exact some_batch|unfold some_space; simpl..].
  - intros c l Hl. apply lookup_singleton_Some in Hl as [<- <-]. split; [done|]. repeat constructor; vm_decide.
  - intros c l Hl. apply lookup_singleton_Some in Hl as [<- <-]. split; [done|]. apply Forall_singleton.
    split; [|vm_decide]. split_and!; [vm_decide..| |split_and!; vm_decide]. intros i Hi. exfalso. revert Hi. apply not_elem_of_empty.
  - intros c l Hl. apply lookup_singleton_Some in Hl as [<- <-]. split; [done|]. repeat constructor; vm_decide.
  - intros p k v Hl. apply lookup_singleton_Some in Hl as [[= <- <-] <-]. vm_decide.
Qed.

(** Witness of [checkpoint_keeps_contents]. *)
Lemma checkpoint_keeps_contents_witness :
  ∃ s', create_checkpoint some_space =
      (s', Ok (mkCheckpoint (RadixTree.root_hash (current_history (history_repository s'))) [])) ∧
    v_data (view (rs_store s')) x02 ≡ₚ [some_datum] ∧ v_conts (view (rs_store s')) [x01] ≡ₚ [some_wc] ∧
    native_get (native_store s') PREFIX_VAULT (replicate 32 x01) = Ok (Some [x2a]).
Proof.
  destruct (checkpoint_keeps_contents sum_hash sum_hash_length some_space _ some_space_at some_checkpointable)
    as (s' & E & _ & HD & HC & _ & HN). exists s'. split; [exact E|]. split_and!.
  - apply (HD x02). intros x [l Hl] _. unfold some_space in Hl; simpl in Hl. by apply lookup_singleton_Some in Hl as [-> _].
  - apply (HC [x01]). intros x [l Hl] _. unfold some_space in Hl; simpl in Hl. by apply lookup_singleton_Some in Hl as [-> _].
  - rewrite HN; [by vm_compute|vm_decide|done].
Defined.

(** The space after the checkpoint. *)
Definition changes_root (s : ByteSpace) : bool :=
  match create_checkpoint s with
  | (s', Ok _) => bool_decide (RadixTree.root_node (current_history (history_repository s')) ≠ RadixNode.empty_node)
  | _ => false
  end.

(** Witness of [reset_returns_to_checkpoint]: a datum is removed and the space
    is reset. *)
Lemma reset_returns_to_checkpoint_witness :
  ∃ s s2 s3 : ByteSpace, create_checkpoint some_space =
      (s, Ok (mkCheckpoint (RadixTree.root_hash (current_history (history_repository s))) [])) ∧
    data (hs_state (rs_store s2)) !! x02 = Some [] ∧
    space_reset (RadixTree.root_hash (current_history (history_repository s))) s2 = (s3, Ok ()) ∧
    v_data (view (rs_store s3)) x02 = ok_list (rd_data (reader_base (rs_store s)) x02).
Proof.
  destruct (create_checkpoint_at sum_hash sum_hash_length some_space _ some_space_at some_checkpointable)
    as (s & E & Hr & Hrl & _ & _ & _ & _ & Hroots & _).
  assert (space_at sum_hash s (apply_leaves (λ _, None) (space_leaves sum_hash some_space))) as Hs.
  { split; [exact Hr|exact Hrl|].
    exact (readable_after sum_hash _ _ _ _ some_checkpointable some_space_at Hrl). }
  assert (changes_root some_space = true) as Hne by (vm_compute; reflexivity).
  unfold changes_root in Hne.
  change (create_checkpoint (HistoryOps0 := byte_history) some_space = (s, Ok (mkCheckpoint
    (RadixTree.root_hash (current_history (history_repository s))) []))) in E. rewrite E in Hne. apply bool_decide_eq_true in Hne.
  set (s2 := mkRSpace (history_repository s)
    (mkHotStore (set_data x02 [] (hs_state (rs_store s))) (hs_cache (rs_store s)) (reader_base (rs_store s)))
    (event_log s) (produce_counter s) (installs s) (native_store s)).
  destruct (reset_returns_to_checkpoint sum_hash sum_hash_length s s2 _ Hs Hne)
    as (s3 & Er & _ & [Hd _ _ _ _] & _).
  - rewrite Hroots. apply root_committed.
  - apply (ev_work sum_hash s s2); [reflexivity..|apply ev_refl].
  - exists s, s2, s3. split; [exact E|]. split; [apply lookup_insert_eq|]. split; [exact Er|]. exact (Hd x02).
Defined.
