(* ===== verification/Ast.v ===== *)
(** * Rholang terms

    [models/src/ast.rs].  The structs are records over the type of the processes
    they contain, and [Par] closes the recursion; [Box] is the identity, and the
    sort of a [Par] (name or process), which is a phantom, is left out.  Byte
    strings are lists of bytes, also the UTF-8 strings; 32 and 64 bit integers
    and big integers are [Z]; the injections of a [New], a [BTreeMap], are the
    list of its entries in key order.  The nineteen binary operators are one
    constructor with the operator as its argument.

    Equality of terms leaves out the sets of free variables ([AlwaysEqual]):
    [par_eqb], which is equality after [erase]. *)

From S2P Require Import Prelude BTree Bytes.

Notation Str := (list byte).
Notation BitSet := (list Z).

Inductive Var :=
| BoundVar (level : Z)
| FreeVar (level : Z)
| Wildcard
| VarEmpty.
#[export] Instance Var_eq_dec : EqDecision Var.
Proof. solve_decision. Defined.

Record SendF (P : Type) := mkSend {
  s_chan : P;
  s_data : list P;
  s_persistent : bool;
  s_locally_free : BitSet;
  s_connective_used : bool;
}.
Record ReceiveBindF (P : Type) := mkBind {
  rb_patterns : list P;
  rb_source : P;
  rb_remainder : option Var;
  rb_free_count : Z;
}.
Record ReceiveF (P : Type) := mkReceive {
  r_binds : list (ReceiveBindF P);
  r_body : P;
  r_persistent : bool;
  r_peek : bool;
  r_bind_count : Z;
  r_locally_free : BitSet;
  r_connective_used : bool;
}.
Record NewF (P : Type) := mkNew {
  n_bind_count : Z;
  n_p : P;
  n_uri : list Str;
  n_injections : list (Str * P);
  n_locally_free : BitSet;
}.
Record MatchCaseF (P : Type) := mkCase {
  mc_pattern : P;
  mc_source : P;
  mc_free_count : Z;
}.
Record MatchF (P : Type) := mkMatch {
  m_target : P;
  m_cases : list (MatchCaseF P);
  m_locally_free : BitSet;
  m_connective_used : bool;
}.
Record BundleF (P : Type) := mkBundle {
  b_body : P;
  b_write_flag : bool;
  b_read_flag : bool;
}.

Inductive BinOp :=
| EMult | EDiv | EMod | EPlus | EMinus
| ELt | ELte | EGt | EGte | EEq | ENeq
| EAnd | EOr | EShortAnd | EShortOr
| EMatches | EPercentPercent | EPlusPlus | EMinusMinus.
#[export] Instance BinOp_eq_dec : EqDecision BinOp.
Proof. solve_decision. Defined.

Record EListF (P : Type) := mkEList {
  el_ps : list P;
  el_locally_free : BitSet;
  el_connective_used : bool;
  el_remainder : option Var;
}.
Record ETupleF (P : Type) := mkETuple {
  et_ps : list P;
  et_locally_free : BitSet;
  et_connective_used : bool;
}.
Record ParSetF (P : Type) := mkParSet {
  ps_ps : list P;
  ps_connective_used : bool;
  ps_locally_free : BitSet;
  ps_remainder : option Var;
}.
Record ParMapF (P : Type) := mkParMap {
  pm_kvs : list (P * P);
  pm_connective_used : bool;
  pm_locally_free : BitSet;
  pm_remainder : option Var;
}.
Record EMethodF (P : Type) := mkEMethod {
  em_method_name : Str;
  em_target : P;
  em_arguments : list P;
  em_locally_free : BitSet;
  em_connective_used : bool;
}.

Inductive ExprF (P : Type) :=
| GBool (b : bool)
| GInt (i : Z)
| GBigInt (i : Z)
| GString (s : Str)
| GUri (s : Str)
| GByteArray (bs : list byte)
| ENot (p : P)
| ENeg (p : P)
| EVar (v : Var)
| EBin (op : BinOp) (p1 p2 : P)
| EList (l : EListF P)
| ETuple (t : ETupleF P)
| ESet (s : ParSetF P)
| EMap (m : ParMapF P)
| EMethod (m : EMethodF P).

Inductive GUnforgeable :=
| GPrivate (id : list byte)
| GDeployId (sig : list byte)
| GDeployerId (public_key : list byte)
| GSysAuthToken
| UnforgeableEmpty.
#[export] Instance GUnforgeable_eq_dec : EqDecision GUnforgeable.
Proof. solve_decision. Defined.

Inductive ConnectiveF (P : Type) :=
| ConnAnd (ps : list P)
| ConnOr (ps : list P)
| ConnNot (p : P)
| VarRef (index depth : Z)
| ConnBool (b : bool)
| ConnInt (b : bool)
| ConnBigInt (b : bool)
| ConnString (b : bool)
| ConnUri (b : bool)
| ConnByteArray (b : bool)
| ConnEmpty.

(** Implicit arguments. *)
#[global] Arguments mkSend {P}.
#[global] Arguments s_chan {P}.
#[global] Arguments s_data {P}.
#[global] Arguments s_persistent {P}.
#[global] Arguments s_locally_free {P}.
#[global] Arguments s_connective_used {P}.
#[global] Arguments mkBind {P}.
#[global] Arguments rb_patterns {P}.
#[global] Arguments rb_source {P}.
#[global] Arguments rb_remainder {P}.
#[global] Arguments rb_free_count {P}.
#[global] Arguments mkReceive {P}.
#[global] Arguments r_binds {P}.
#[global] Arguments r_body {P}.
#[global] Arguments r_persistent {P}.
#[global] Arguments r_peek {P}.
#[global] Arguments r_bind_count {P}.
#[global] Arguments r_locally_free {P}.
#[global] Arguments r_connective_used {P}.
#[global] Arguments mkNew {P}.
#[global] Arguments n_bind_count {P}.
#[global] Arguments n_p {P}.
#[global] Arguments n_uri {P}.
#[global] Arguments n_injections {P}.
#[global] Arguments n_locally_free {P}.
#[global] Arguments mkCase {P}.
#[global] Arguments mc_pattern {P}.
#[global] Arguments mc_source {P}.
#[global] Arguments mc_free_count {P}.
#[global] Arguments mkMatch {P}.
#[global] Arguments m_target {P}.
#[global] Arguments m_cases {P}.
#[global] Arguments m_locally_free {P}.
#[global] Arguments m_connective_used {P}.
#[global] Arguments mkBundle {P}.
#[global] Arguments b_body {P}.
#[global] Arguments b_write_flag {P}.
#[global] Arguments b_read_flag {P}.
#[global] Arguments mkEList {P}.
#[global] Arguments el_ps {P}.
#[global] Arguments el_locally_free {P}.
#[global] Arguments el_connective_used {P}.
#[global] Arguments el_remainder {P}.
#[global] Arguments mkETuple {P}.
#[global] Arguments et_ps {P}.
#[global] Arguments et_locally_free {P}.
#[global] Arguments et_connective_used {P}.
#[global] Arguments mkParSet {P}.
#[global] Arguments ps_ps {P}.
#[global] Arguments ps_connective_used {P}.
#[global] Arguments ps_locally_free {P}.
#[global] Arguments ps_remainder {P}.
#[global] Arguments mkParMap {P}.
#[global] Arguments pm_kvs {P}.
#[global] Arguments pm_connective_used {P}.
#[global] Arguments pm_locally_free {P}.
#[global] Arguments pm_remainder {P}.
#[global] Arguments mkEMethod {P}.
#[global] Arguments em_method_name {P}.
#[global] Arguments em_target {P}.
#[global] Arguments em_arguments {P}.
#[global] Arguments em_locally_free {P}.
#[global] Arguments em_connective_used {P}.
#[global] Arguments GBool {P}.
#[global] Arguments GInt {P}.
#[global] Arguments GBigInt {P}.
#[global] Arguments GString {P}.
#[global] Arguments GUri {P}.
#[global] Arguments GByteArray {P}.
#[global] Arguments ENot {P}.
#[global] Arguments ENeg {P}.
#[global] Arguments EVar {P}.
#[global] Arguments EBin {P}.
#[global] Arguments EList {P}.
#[global] Arguments ETuple {P}.
#[global] Arguments ESet {P}.
#[global] Arguments EMap {P}.
#[global] Arguments EMethod {P}.
#[global] Arguments ConnAnd {P}.
#[global] Arguments ConnOr {P}.
#[global] Arguments ConnNot {P}.
#[global] Arguments VarRef {P}.
#[global] Arguments ConnBool {P}.
#[global] Arguments ConnInt {P}.
#[global] Arguments ConnBigInt {P}.
#[global] Arguments ConnString {P}.
#[global] Arguments ConnUri {P}.
#[global] Arguments ConnByteArray {P}.
#[global] Arguments ConnEmpty {P}.

#[warnings="-register-all"] Inductive Par := mkPar {
  sends : list (SendF Par);
  receives : list (ReceiveF Par);
  news : list (NewF Par);
  exprs : list (ExprF Par);
  matches : list (MatchF Par);
  unforgeables : list GUnforgeable;
  bundles : list (BundleF Par);
  connectives : list (ConnectiveF Par);
  locally_free : BitSet;
  connective_used : bool;
}.

Notation Send := (SendF Par).
Notation ReceiveBind := (ReceiveBindF Par).
Notation Receive := (ReceiveF Par).
Notation New := (NewF Par).
Notation MatchCase := (MatchCaseF Par).
Notation Match := (MatchF Par).
Notation Bundle := (BundleF Par).
Notation Expr := (ExprF Par).
Notation ParSet := (ParSetF Par).
Notation ParMap := (ParMapF Par).
Notation Connective := (ConnectiveF Par).

(** [Par::default()]: the process [Nil]. *)
Definition par_nil : Par := mkPar [] [] [] [] [] [] [] [] [] false.

(** ** Traversals

    The map of a function over the processes of a term, and of another one over
    its sets of free variables; and the list of the processes of a term. *)
Section Traverse.
Context {P Q : Type} (g : BitSet → BitSet) (f : P → Q).

Definition send_map (s : SendF P) : SendF Q :=
  mkSend (f (s_chan s)) (f <$> s_data s) (s_persistent s) (g (s_locally_free s)) (s_connective_used s).
Definition bind_map (b : ReceiveBindF P) : ReceiveBindF Q :=
  mkBind (f <$> rb_patterns b) (f (rb_source b)) (rb_remainder b) (rb_free_count b).
Definition receive_map (r : ReceiveF P) : ReceiveF Q :=
  mkReceive (bind_map <$> r_binds r) (f (r_body r)) (r_persistent r) (r_peek r) (r_bind_count r)
    (g (r_locally_free r)) (r_connective_used r).
Definition new_map (n : NewF P) : NewF Q :=
  mkNew (n_bind_count n) (f (n_p n)) (n_uri n) (prod_map id f <$> n_injections n) (g (n_locally_free n)).
Definition case_map (c : MatchCaseF P) : MatchCaseF Q :=
  mkCase (f (mc_pattern c)) (f (mc_source c)) (mc_free_count c).
Definition match_map (m : MatchF P) : MatchF Q :=
  mkMatch (f (m_target m)) (case_map <$> m_cases m) (g (m_locally_free m)) (m_connective_used m).
Definition bundle_map (b : BundleF P) : BundleF Q :=
  mkBundle (f (b_body b)) (b_write_flag b) (b_read_flag b).
Definition expr_map (e : ExprF P) : ExprF Q :=
  match e with
  | GBool b => GBool b
  | GInt i => GInt i
  | GBigInt i => GBigInt i
  | GString s => GString s
  | GUri s => GUri s
  | GByteArray bs => GByteArray bs
  | ENot p => ENot (f p)
  | ENeg p => ENeg (f p)
  | EVar v => EVar v
  | EBin op p1 p2 => EBin op (f p1) (f p2)
  | EList l => EList (mkEList (f <$> el_ps l) (g (el_locally_free l)) (el_connective_used l) (el_remainder l))
  | ETuple t => ETuple (mkETuple (f <$> et_ps t) (g (et_locally_free t)) (et_connective_used t))
  | ESet s => ESet (mkParSet (f <$> ps_ps s) (ps_connective_used s) (g (ps_locally_free s)) (ps_remainder s))
  | EMap m => EMap (mkParMap (prod_map f f <$> pm_kvs m) (pm_connective_used m) (g (pm_locally_free m)) (pm_remainder m))
  | EMethod m => EMethod (mkEMethod (em_method_name m) (f (em_target m)) (f <$> em_arguments m)
                            (g (em_locally_free m)) (em_connective_used m))
  end.
Definition connective_map (c : ConnectiveF P) : ConnectiveF Q :=
  match c with
  | ConnAnd ps => ConnAnd (f <$> ps)
  | ConnOr ps => ConnOr (f <$> ps)
  | ConnNot p => ConnNot (f p)
  | VarRef index depth => VarRef index depth
  | ConnBool b => ConnBool b
  | ConnInt b => ConnInt b
  | ConnBigInt b => ConnBigInt b
  | ConnString b => ConnString b
  | ConnUri b => ConnUri b
  | ConnByteArray b => ConnByteArray b
  | ConnEmpty => ConnEmpty
  end.
End Traverse.

Section Children.
Context {P : Type}.
Definition send_children (s : SendF P) : list P := s_chan s :: s_data s.
Definition bind_children (b : ReceiveBindF P) : list P := rb_source b :: rb_patterns b.
Definition receive_children (r : ReceiveF P) : list P := r_body r :: (r_binds r ≫= bind_children).
Definition new_children (n : NewF P) : list P := n_p n :: (n_injections n).*2.
Definition case_children (c : MatchCaseF P) : list P := [mc_pattern c; mc_source c].
Definition match_children (m : MatchF P) : list P := m_target m :: (m_cases m ≫= case_children).
Definition bundle_children (b : BundleF P) : list P := [b_body b].
Definition pair_children (kv : P * P) : list P := [kv.1; kv.2].
Definition expr_children (e : ExprF P) : list P :=
  match e with
  | GBool _ | GInt _ | GBigInt _ | GString _ | GUri _ | GByteArray _ | EVar _ => []
  | ENot p | ENeg p => [p]
  | EBin _ p1 p2 => [p1; p2]
  | EList l => el_ps l
  | ETuple t => et_ps t
  | ESet s => ps_ps s
  | EMap m => pm_kvs m ≫= pair_children
  | EMethod m => em_target m :: em_arguments m
  end.
Definition connective_children (c : ConnectiveF P) : list P :=
  match c with
  | ConnAnd ps | ConnOr ps => ps
  | ConnNot p => [p]
  | _ => []
  end.
End Children.

Definition par_children (p : Par) : list Par :=
  (sends p ≫= send_children) ++ (receives p ≫= receive_children) ++ (news p ≫= new_children) ++
  (exprs p ≫= expr_children) ++ (matches p ≫= match_children) ++ (bundles p ≫= bundle_children) ++
  (connectives p ≫= connective_children).

(** A function on the processes right below a process. *)
Definition par_map_children (g : BitSet → BitSet) (f : Par → Par) (p : Par) : Par :=
  mkPar (send_map g f <$> sends p) (receive_map g f <$> receives p) (new_map g f <$> news p)
    (expr_map g f <$> exprs p) (match_map g f <$> matches p) (unforgeables p)
    (bundle_map f <$> bundles p) (connective_map f <$> connectives p)
    (g (locally_free p)) (connective_used p).

(** *** Induction on the processes below a process *)
Definition expr_sum (f : Par → nat) (e : Expr) : nat :=
  match e with
  | GBool _ | GInt _ | GBigInt _ | GString _ | GUri _ | GByteArray _ | EVar _ => 0
  | ENot p | ENeg p => f p
  | EBin _ p1 p2 => f p1 + f p2
  | EList l => sum_list_with f (el_ps l)
  | ETuple t => sum_list_with f (et_ps t)
  | ESet s => sum_list_with f (ps_ps s)
  | EMap m => sum_list_with (λ kv, f kv.1 + f kv.2) (pm_kvs m)
  | EMethod m => f (em_target m) + sum_list_with f (em_arguments m)
  end%nat.
Definition connective_sum (f : Par → nat) (c : Connective) : nat :=
  match c with
  | ConnAnd ps | ConnOr ps => sum_list_with f ps
  | ConnNot p => f p
  | _ => 0
  end%nat.

Fixpoint par_size (p : Par) : nat :=
  S (sum_list_with (λ s, par_size (s_chan s) + sum_list_with par_size (s_data s)) (sends p) +
     sum_list_with (λ r, par_size (r_body r) +
       sum_list_with (λ b, par_size (rb_source b) + sum_list_with par_size (rb_patterns b)) (r_binds r)) (receives p) +
     sum_list_with (λ n, par_size (n_p n) + sum_list_with (λ kv, par_size kv.2) (n_injections n)) (news p) +
     sum_list_with (expr_sum par_size) (exprs p) +
     sum_list_with (λ m, par_size (m_target m) +
       sum_list_with (λ c, par_size (mc_pattern c) + par_size (mc_source c)) (m_cases m)) (matches p) +
     sum_list_with (λ b, par_size (b_body b)) (bundles p) +
     sum_list_with (connective_sum par_size) (connectives p))%nat.

Lemma sum_list_with_bind {A B} (f : B → nat) (h : A → list B) (l : list A) :
  sum_list_with f (l ≫= h) = sum_list_with (λ a, sum_list_with f (h a)) l.
Proof. induction l as [|a l IH]; [done|]. rewrite bind_cons, sum_list_with_app. simpl. by rewrite IH. Qed.
Lemma sum_list_with_ext {A} (f h : A → nat) (l : list A) :
  (∀ a, f a = h a) → sum_list_with f l = sum_list_with h l.
Proof. intros E. induction l as [|a l IH]; [done|]. simpl. by rewrite E, IH. Qed.
Lemma sum_list_with_fmap {A B} (f : B → nat) (h : A → B) (l : list A) :
  sum_list_with f (h <$> l) = sum_list_with (λ a, f (h a)) l.
Proof. induction l as [|a l IH]; [done|]. rewrite fmap_cons. cbn [sum_list_with]. by rewrite IH. Qed.
Lemma sum_list_with_in {A} (f : A → nat) (l : list A) a : a ∈ l → (f a ≤ sum_list_with f l)%nat.
Proof. induction 1 as [|a b l _ IH]; simpl; lia. Qed.

Lemma par_size_children p : par_size p = S (sum_list_with par_size (par_children p)).
Proof.
  unfold par_children. rewrite !sum_list_with_app, !sum_list_with_bind. destruct p as [ss rs ns es ms us bs cs lf cu].
  cbn [par_size sends receives news exprs matches bundles connectives]. f_equal. rewrite !Nat.add_assoc.
  f_equal; [|apply sum_list_with_ext; intros []; simpl; lia].
  f_equal; [|apply sum_list_with_ext; intros []; simpl; lia].
  f_equal; [|apply sum_list_with_ext; intros []; unfold match_children; simpl; rewrite sum_list_with_bind;
    f_equal; apply sum_list_with_ext; intros []; simpl; lia].
  f_equal; [|apply sum_list_with_ext; intros []; simpl; rewrite ?sum_list_with_bind; try lia;
    apply sum_list_with_ext; intros []; simpl; lia].
  f_equal; [|apply sum_list_with_ext; intros []; unfold new_children; simpl; by rewrite sum_list_with_fmap].
  f_equal. apply sum_list_with_ext; intros []; unfold receive_children; simpl. by rewrite sum_list_with_bind.
Qed.

Lemma par_child_size p q : q ∈ par_children p → (par_size q < par_size p)%nat.
Proof. intros Hq%(sum_list_with_in par_size). rewrite (par_size_children p). lia. Qed.

Lemma par_children_ind (R : Par → Prop) :
  (∀ p, (∀ q, q ∈ par_children p → R q) → R p) → ∀ p, R p.
Proof.
  intros Hstep p. remember (par_size p) as n eqn:En. revert p En.
  induction (lt_wf n) as [n _ IH]. intros p ->. apply Hstep. intros q Hq.
  by eapply IH; [apply (par_child_size p q Hq)|].
Qed.

(** *** Laws of the traversals *)
Lemma fmap_ext_in {A B} (f h : A → B) (l : list A) : (∀ a, a ∈ l → f a = h a) → f <$> l = h <$> l.
Proof. intros E. apply list_fmap_ext. intros i a Hi. apply E. by eapply list_elem_of_lookup_2. Qed.

Section MapLaws.
Context {P Q : Type} (g : BitSet → BitSet).
Implicit Types f h : P → Q.

Lemma send_map_ext f h s : (∀ q, q ∈ send_children s → f q = h q) → send_map g f s = send_map g h s.
Proof.
  intros E. destruct s. unfold send_map, send_children in *. simpl in *. f_equal; [apply E; by left|].
  apply fmap_ext_in. intros; apply E. by right.
Qed.
Lemma bind_map_ext f h b : (∀ q, q ∈ bind_children b → f q = h q) → bind_map f b = bind_map h b.
Proof.
  intros E. destruct b. unfold bind_map, bind_children in *. simpl in *. f_equal; [|apply E; by left].
  apply fmap_ext_in. intros; apply E. by right.
Qed.
Lemma receive_map_ext f h r : (∀ q, q ∈ receive_children r → f q = h q) → receive_map g f r = receive_map g h r.
Proof.
  intros E. destruct r. unfold receive_map, receive_children in *. simpl in *. f_equal; [|apply E; by left].
  apply fmap_ext_in. intros b Hb. apply bind_map_ext. intros; apply E. right. apply list_elem_of_bind. eauto.
Qed.
Lemma new_map_ext f h n : (∀ q, q ∈ new_children n → f q = h q) → new_map g f n = new_map g h n.
Proof.
  intros E. destruct n. unfold new_map, new_children in *. simpl in *. f_equal; [apply E; by left|].
  apply fmap_ext_in. intros [k q] Hq. unfold prod_map. simpl. f_equal. apply E. right.
  apply list_elem_of_fmap. by exists (k, q).
Qed.
Lemma case_map_ext f h c : (∀ q, q ∈ case_children c → f q = h q) → case_map f c = case_map h c.
Proof.
  intros E. destruct c. unfold case_map, case_children in *. simpl in *.
  f_equal; apply E; [by left|right; by left].
Qed.
Lemma match_map_ext f h m : (∀ q, q ∈ match_children m → f q = h q) → match_map g f m = match_map g h m.
Proof.
  intros E. destruct m. unfold match_map, match_children in *. simpl in *. f_equal; [apply E; by left|].
  apply fmap_ext_in. intros b Hb. apply case_map_ext. intros; apply E. right. apply list_elem_of_bind. eauto.
Qed.
Lemma bundle_map_ext f h b : (∀ q, q ∈ bundle_children b → f q = h q) → bundle_map f b = bundle_map h b.
Proof. intros E. destruct b. unfold bundle_map. simpl. f_equal. apply E. by left. Qed.
Lemma expr_map_ext f h e : (∀ q, q ∈ expr_children e → f q = h q) → expr_map g f e = expr_map g h e.
Proof.
  intros E. destruct e as [| | | | | |p|p| |op p1 p2|l|t|s|m|m]; simpl in *; [done..| | |done| | | | | |].
  - f_equal. apply E. by left.
  - f_equal. apply E. by left.
  - f_equal; apply E; [by left|right; by left].
  - do 2 f_equal. by apply fmap_ext_in.
  - do 2 f_equal. by apply fmap_ext_in.
  - do 2 f_equal. by apply fmap_ext_in.
  - do 2 f_equal. apply fmap_ext_in. intros [k v] Hkv. unfold prod_map. simpl. f_equal; apply E; apply list_elem_of_bind;
      exists (k, v); (split; [|done]); [by left|right; by left].
  - do 2 f_equal; [apply E; by left|]. apply fmap_ext_in. intros; apply E. by right.
Qed.
Lemma connective_map_ext f h c :
  (∀ q, q ∈ connective_children c → f q = h q) → connective_map f c = connective_map h c.
Proof.
  intros E. destruct c as [ps|ps|p| | | | | | | |]; simpl in *; try done;
    f_equal; try (apply fmap_ext_in; intros; by apply E). apply E. by left.
Qed.
End MapLaws.

Section MapCompose.
Context {P Q R : Type} (g1 g2 : BitSet → BitSet) (f : P → Q) (h : Q → R).

Lemma send_map_map s : send_map g2 h (send_map g1 f s) = send_map (g2 ∘ g1) (h ∘ f) s.
Proof. unfold send_map. simpl. by rewrite <- list_fmap_compose. Qed.
Lemma bind_map_map b : bind_map h (bind_map f b) = bind_map (h ∘ f) b.
Proof. unfold bind_map. simpl. by rewrite <- list_fmap_compose. Qed.
Lemma receive_map_map r : receive_map g2 h (receive_map g1 f r) = receive_map (g2 ∘ g1) (h ∘ f) r.
Proof.
  unfold receive_map. simpl. rewrite <- list_fmap_compose. f_equal. apply list_fmap_ext. intros; apply bind_map_map.
Qed.
Lemma new_map_map n : new_map g2 h (new_map g1 f n) = new_map (g2 ∘ g1) (h ∘ f) n.
Proof. unfold new_map. simpl. by rewrite <- list_fmap_compose. Qed.
Lemma case_map_map c : case_map h (case_map f c) = case_map (h ∘ f) c.
Proof. done. Qed.
Lemma match_map_map m : match_map g2 h (match_map g1 f m) = match_map (g2 ∘ g1) (h ∘ f) m.
Proof. unfold match_map. simpl. by rewrite <- list_fmap_compose. Qed.
Lemma bundle_map_map b : bundle_map h (bundle_map f b) = bundle_map (h ∘ f) b.
Proof. done. Qed.
Lemma expr_map_map e : expr_map g2 h (expr_map g1 f e) = expr_map (g2 ∘ g1) (h ∘ f) e.
Proof. destruct e; simpl; by rewrite <- ?list_fmap_compose. Qed.
Lemma connective_map_map c : connective_map h (connective_map f c) = connective_map (h ∘ f) c.
Proof. destruct c; simpl; by rewrite <- ?list_fmap_compose. Qed.
End MapCompose.

Section MapChildren.
Context {P Q : Type} (g : BitSet → BitSet) (f : P → Q).

Lemma bind_fmap_children {A B} (c : A → list P) (c' : B → list Q) (u : A → B) l :
  (∀ a, c' (u a) = f <$> c a) → (u <$> l) ≫= c' = f <$> (l ≫= c).
Proof.
  intros E. induction l as [|a l IH]; [done|]. rewrite fmap_cons, !bind_cons, fmap_app, E. by rewrite IH.
Qed.
Lemma send_map_children s : send_children (send_map g f s) = f <$> send_children s.
Proof. done. Qed.
Lemma bind_map_children b : bind_children (bind_map f b) = f <$> bind_children b.
Proof. done. Qed.
Lemma receive_map_children r : receive_children (receive_map g f r) = f <$> receive_children r.
Proof.
  unfold receive_children. rewrite fmap_cons. cbn [receive_map r_body r_binds]. f_equal.
  by apply bind_fmap_children.
Qed.
Lemma new_map_children n : new_children (new_map g f n) = f <$> new_children n.
Proof. unfold new_children. rewrite fmap_cons. simpl. f_equal. by rewrite <- !list_fmap_compose. Qed.
Lemma case_map_children c : case_children (case_map f c) = f <$> case_children c.
Proof. done. Qed.
Lemma match_map_children m : match_children (match_map g f m) = f <$> match_children m.
Proof.
  unfold match_children. rewrite fmap_cons. cbn [match_map m_target m_cases]. f_equal.
  by apply bind_fmap_children.
Qed.
Lemma bundle_map_children b : bundle_children (bundle_map f b) = f <$> bundle_children b.
Proof. done. Qed.
Lemma expr_map_children e : expr_children (expr_map g f e) = f <$> expr_children e.
Proof. destruct e; simpl; try done. by apply bind_fmap_children. Qed.
Lemma connective_map_children c : connective_children (connective_map f c) = f <$> connective_children c.
Proof. by destruct c. Qed.
End MapChildren.

Lemma par_map_children_children g f p : par_children (par_map_children g f p) = f <$> par_children p.
Proof.
  unfold par_children. rewrite !fmap_app. simpl.
  f_equal; [by apply bind_fmap_children|]. f_equal; [apply bind_fmap_children, receive_map_children|].
  f_equal; [apply bind_fmap_children, new_map_children|]. f_equal; [apply bind_fmap_children, expr_map_children|].
  f_equal; [apply bind_fmap_children, match_map_children|]. f_equal; [by apply bind_fmap_children|].
  apply bind_fmap_children, connective_map_children.
Qed.

(** ** Equality

    The derived equality compares the fields in turn; sets of free variables
    are always equal. *)
Fixpoint list_eqb {A B} (eqb : A → B → bool) (l : list A) (k : list B) : bool :=
  match l, k with
  | [], [] => true
  | a :: l', b :: k' => eqb a b && list_eqb eqb l' k'
  | _, _ => false
  end.

Section Eqb.
Context {P : Type} (eqb : P → P → bool).

Definition send_eqb (s t : SendF P) : bool :=
  eqb (s_chan s) (s_chan t) && list_eqb eqb (s_data s) (s_data t) &&
  Bool.eqb (s_persistent s) (s_persistent t) && Bool.eqb (s_connective_used s) (s_connective_used t).
Definition bind_eqb (b c : ReceiveBindF P) : bool :=
  list_eqb eqb (rb_patterns b) (rb_patterns c) && eqb (rb_source b) (rb_source c) &&
  bool_decide (rb_remainder b = rb_remainder c) && bool_decide (rb_free_count b = rb_free_count c).
Definition receive_eqb (r t : ReceiveF P) : bool :=
  list_eqb bind_eqb (r_binds r) (r_binds t) && eqb (r_body r) (r_body t) &&
  Bool.eqb (r_persistent r) (r_persistent t) && Bool.eqb (r_peek r) (r_peek t) &&
  bool_decide (r_bind_count r = r_bind_count t) && Bool.eqb (r_connective_used r) (r_connective_used t).
Definition new_eqb (n m : NewF P) : bool :=
  bool_decide (n_bind_count n = n_bind_count m) && eqb (n_p n) (n_p m) && bool_decide (n_uri n = n_uri m) &&
  list_eqb (λ x y, bool_decide (x.1 = y.1) && eqb x.2 y.2) (n_injections n) (n_injections m).
Definition case_eqb (c d : MatchCaseF P) : bool :=
  eqb (mc_pattern c) (mc_pattern d) && eqb (mc_source c) (mc_source d) &&
  bool_decide (mc_free_count c = mc_free_count d).
Definition match_eqb (m n : MatchF P) : bool :=
  eqb (m_target m) (m_target n) && list_eqb case_eqb (m_cases m) (m_cases n) &&
  Bool.eqb (m_connective_used m) (m_connective_used n).
Definition bundle_eqb (b c : BundleF P) : bool :=
  eqb (b_body b) (b_body c) && Bool.eqb (b_write_flag b) (b_write_flag c) &&
  Bool.eqb (b_read_flag b) (b_read_flag c).
Definition pair_eqb (x y : P * P) : bool := eqb x.1 y.1 && eqb x.2 y.2.
Definition expr_eqb (e d : ExprF P) : bool :=
  match e, d with
  | GBool b, GBool c => Bool.eqb b c
  | GInt i, GInt j => bool_decide (i = j)
  | GBigInt i, GBigInt j => bool_decide (i = j)
  | GString s, GString t => bool_decide (s = t)
  | GUri s, GUri t => bool_decide (s = t)
  | GByteArray s, GByteArray t => bool_decide (s = t)
  | ENot p, ENot q => eqb p q
  | ENeg p, ENeg q => eqb p q
  | EVar v, EVar w => bool_decide (v = w)
  | EBin o p1 p2, EBin o' q1 q2 => bool_decide (o = o') && eqb p1 q1 && eqb p2 q2
  | EList l, EList k =>
      list_eqb eqb (el_ps l) (el_ps k) && Bool.eqb (el_connective_used l) (el_connective_used k) &&
      bool_decide (el_remainder l = el_remainder k)
  | ETuple l, ETuple k =>
      list_eqb eqb (et_ps l) (et_ps k) && Bool.eqb (et_connective_used l) (et_connective_used k)
  | ESet l, ESet k =>
      list_eqb eqb (ps_ps l) (ps_ps k) && Bool.eqb (ps_connective_used l) (ps_connective_used k) &&
      bool_decide (ps_remainder l = ps_remainder k)
  | EMap l, EMap k =>
      list_eqb pair_eqb (pm_kvs l) (pm_kvs k) && Bool.eqb (pm_connective_used l) (pm_connective_used k) &&
      bool_decide (pm_remainder l = pm_remainder k)
  | EMethod l, EMethod k =>
      bool_decide (em_method_name l = em_method_name k) && eqb (em_target l) (em_target k) &&
      list_eqb eqb (em_arguments l) (em_arguments k) && Bool.eqb (em_connective_used l) (em_connective_used k)
  | _, _ => false
  end.
Definition connective_eqb (c d : ConnectiveF P) : bool :=
  match c, d with
  | ConnAnd ps, ConnAnd qs | ConnOr ps, ConnOr qs => list_eqb eqb ps qs
  | ConnNot p, ConnNot q => eqb p q
  | VarRef i j, VarRef i' j' => bool_decide (i = i') && bool_decide (j = j')
  | ConnBool b, ConnBool c | ConnInt b, ConnInt c | ConnBigInt b, ConnBigInt c
  | ConnString b, ConnString c | ConnUri b, ConnUri c | ConnByteArray b, ConnByteArray c => Bool.eqb b c
  | ConnEmpty, ConnEmpty => true
  | _, _ => false
  end.
End Eqb.

Fixpoint par_eqb (p q : Par) : bool :=
  list_eqb (send_eqb par_eqb) (sends p) (sends q) && list_eqb (receive_eqb par_eqb) (receives p) (receives q) &&
  list_eqb (new_eqb par_eqb) (news p) (news q) && list_eqb (expr_eqb par_eqb) (exprs p) (exprs q) &&
  list_eqb (match_eqb par_eqb) (matches p) (matches q) && bool_decide (unforgeables p = unforgeables q) &&
  list_eqb (bundle_eqb par_eqb) (bundles p) (bundles q) &&
  list_eqb (connective_eqb par_eqb) (connectives p) (connectives q) &&
  Bool.eqb (connective_used p) (connective_used q).

(** Without the sets of free variables. *)
Definition no_free (_ : BitSet) : BitSet := [].
Fixpoint erase (p : Par) : Par :=
  mkPar (send_map no_free erase <$> sends p) (receive_map no_free erase <$> receives p)
    (new_map no_free erase <$> news p) (expr_map no_free erase <$> exprs p)
    (match_map no_free erase <$> matches p) (unforgeables p) (bundle_map erase <$> bundles p)
    (connective_map erase <$> connectives p) [] (connective_used p).

(** Equal fields against equal records. *)
Ltac solve_fields :=
  split;
  [ intros; destruct_and?; congruence
  | let E := fresh in intros E; injection E; intros; split_and?; congruence ].

Lemma list_eqb_spec {A B} (eqb : A → A → bool) (u : A → B) (l k : list A) :
  (∀ a, a ∈ l → ∀ b, eqb a b = true ↔ u a = u b) → list_eqb eqb l k = true ↔ u <$> l = u <$> k.
Proof.
  revert k. induction l as [|a l IH]; intros [|b k] E; [done..|]. cbn [list_eqb].
  rewrite andb_true_iff, (E a) by by left. rewrite IH by (intros; apply E; by right).
  rewrite !fmap_cons. solve_fields.
Qed.

Section EqbSpec.
Context {P Q : Type} (eqb : P → P → bool) (u : P → Q).
Definition eqb_at (l : list P) : Prop := ∀ q, q ∈ l → ∀ q', eqb q q' = true ↔ u q = u q'.

Lemma send_eqb_spec s t : eqb_at (send_children s) →
  send_eqb eqb s t = true ↔ send_map no_free u s = send_map no_free u t.
Proof.
  intros E. unfold send_eqb, send_map, no_free. rewrite !andb_true_iff, !Bool.eqb_true_iff.
  rewrite (E (s_chan s)) by by left.
  rewrite (list_eqb_spec eqb u) by (intros; apply E; by right). solve_fields.
Qed.
Lemma bind_eqb_spec s t : eqb_at (bind_children s) → bind_eqb eqb s t = true ↔ bind_map u s = bind_map u t.
Proof.
  intros E. unfold bind_eqb, bind_map. rewrite !andb_true_iff, !bool_decide_eq_true.
  rewrite (E (rb_source s)) by by left.
  rewrite (list_eqb_spec eqb u) by (intros; apply E; by right). solve_fields.
Qed.
Lemma receive_eqb_spec s t : eqb_at (receive_children s) →
  receive_eqb eqb s t = true ↔ receive_map no_free u s = receive_map no_free u t.
Proof.
  intros E. unfold receive_eqb, receive_map, no_free.
  rewrite !andb_true_iff, !bool_decide_eq_true, !Bool.eqb_true_iff. rewrite (E (r_body s)) by by left.
  rewrite (list_eqb_spec (bind_eqb eqb) (bind_map u)); [solve_fields|].
  intros b Hb c. apply bind_eqb_spec. intros q Hq. apply E. right. apply list_elem_of_bind. eauto.
Qed.
Lemma new_eqb_spec s t : eqb_at (new_children s) →
  new_eqb eqb s t = true ↔ new_map no_free u s = new_map no_free u t.
Proof.
  intros E. unfold new_eqb, new_map, no_free. rewrite !andb_true_iff, !bool_decide_eq_true.
  rewrite (E (n_p s)) by by left.
  rewrite (list_eqb_spec _ (prod_map id u)); [solve_fields|].
  intros [k q] Hq [k' q']. simpl. rewrite andb_true_iff, bool_decide_eq_true, (E q); [unfold prod_map; simpl; solve_fields|].
  right. apply list_elem_of_fmap. by exists (k, q).
Qed.
Lemma case_eqb_spec s t : eqb_at (case_children s) → case_eqb eqb s t = true ↔ case_map u s = case_map u t.
Proof.
  intros E. unfold case_eqb, case_map. rewrite !andb_true_iff, !bool_decide_eq_true.
  rewrite (E (mc_pattern s)) by by left. rewrite (E (mc_source s)) by (right; by left). solve_fields.
Qed.
Lemma match_eqb_spec s t : eqb_at (match_children s) →
  match_eqb eqb s t = true ↔ match_map no_free u s = match_map no_free u t.
Proof.
  intros E. unfold match_eqb, match_map, no_free. rewrite !andb_true_iff, !Bool.eqb_true_iff.
  rewrite (E (m_target s)) by by left.
  rewrite (list_eqb_spec (case_eqb eqb) (case_map u)); [solve_fields|].
  intros b Hb c. apply case_eqb_spec. intros q Hq. apply E. right. apply list_elem_of_bind. eauto.
Qed.
Lemma bundle_eqb_spec s t : eqb_at (bundle_children s) →
  bundle_eqb eqb s t = true ↔ bundle_map u s = bundle_map u t.
Proof.
  intros E. unfold bundle_eqb, bundle_map. rewrite !andb_true_iff, !Bool.eqb_true_iff.
  rewrite (E (b_body s)) by by left. solve_fields.
Qed.
Lemma expr_eqb_spec s t : eqb_at (expr_children s) →
  expr_eqb eqb s t = true ↔ expr_map no_free u s = expr_map no_free u t.
Proof.
  intros E. destruct s as [| | | | | |p|p| |op p1 p2|l|l|l|l|l], t; simpl; try done;
    rewrite ?andb_true_iff, ?Bool.eqb_true_iff, ?bool_decide_eq_true; unfold no_free; try solve_fields.
  - rewrite (E p) by by left. solve_fields.
  - rewrite (E p) by by left. solve_fields.
  - rewrite (E p1) by by left. rewrite (E p2) by (right; by left). solve_fields.
  - rewrite (list_eqb_spec eqb u) by done. solve_fields.
  - rewrite (list_eqb_spec eqb u) by done. solve_fields.
  - rewrite (list_eqb_spec eqb u) by done. solve_fields.
  - rewrite (list_eqb_spec (pair_eqb eqb) (prod_map u u)); [solve_fields|].
    intros [k v] Hkv [k' v']. unfold pair_eqb, prod_map. simpl. rewrite andb_true_iff, (E k), (E v); [solve_fields|..];
      apply list_elem_of_bind; exists (k, v); (split; [|done]); [right; by left|by left].
  - rewrite (E (em_target l)) by by left. rewrite (list_eqb_spec eqb u) by (intros; apply E; by right). solve_fields.
Qed.
Lemma connective_eqb_spec s t : eqb_at (connective_children s) →
  connective_eqb eqb s t = true ↔ connective_map u s = connective_map u t.
Proof.
  intros E. destruct s as [ps|ps|p| | | | | | | |], t; simpl; try done;
    rewrite ?andb_true_iff, ?Bool.eqb_true_iff, ?bool_decide_eq_true; try solve_fields.
  - rewrite (list_eqb_spec eqb u) by done. solve_fields.
  - rewrite (list_eqb_spec eqb u) by done. solve_fields.
  - rewrite (E p) by by left. solve_fields.
Qed.
End EqbSpec.

Lemma elem_of_bind_in {A B} (h : A → list B) (l : list A) a b : a ∈ l → b ∈ h a → b ∈ l ≫= h.
Proof. intros. apply list_elem_of_bind. eauto. Qed.

(** The children of a process by the field they are in. *)
Lemma elem_of_par_children q p :
  q ∈ par_children p ↔
  (∃ s, s ∈ sends p ∧ q ∈ send_children s) ∨ (∃ r, r ∈ receives p ∧ q ∈ receive_children r) ∨
  (∃ n, n ∈ news p ∧ q ∈ new_children n) ∨ (∃ e, e ∈ exprs p ∧ q ∈ expr_children e) ∨
  (∃ m, m ∈ matches p ∧ q ∈ match_children m) ∨ (∃ b, b ∈ bundles p ∧ q ∈ bundle_children b) ∨
  (∃ c, c ∈ connectives p ∧ q ∈ connective_children c).
Proof. unfold par_children. rewrite !elem_of_app, !list_elem_of_bind. naive_solver. Qed.

Create HintDb ast.
Section ParChild.
Context (p q : Par).
Lemma send_child x : x ∈ sends p → q ∈ send_children x → q ∈ par_children p.
Proof. intros. apply elem_of_par_children. left. by exists x. Qed.
Lemma receive_child x : x ∈ receives p → q ∈ receive_children x → q ∈ par_children p.
Proof. intros. apply elem_of_par_children. do 1 right. left. by exists x. Qed.
Lemma new_child x : x ∈ news p → q ∈ new_children x → q ∈ par_children p.
Proof. intros. apply elem_of_par_children. do 2 right. left. by exists x. Qed.
Lemma expr_child x : x ∈ exprs p → q ∈ expr_children x → q ∈ par_children p.
Proof. intros. apply elem_of_par_children. do 3 right. left. by exists x. Qed.
Lemma match_child x : x ∈ matches p → q ∈ match_children x → q ∈ par_children p.
Proof. intros. apply elem_of_par_children. do 4 right. left. by exists x. Qed.
Lemma bundle_child x : x ∈ bundles p → q ∈ bundle_children x → q ∈ par_children p.
Proof. intros. apply elem_of_par_children. do 5 right. left. by exists x. Qed.
Lemma connective_child x : x ∈ connectives p → q ∈ connective_children x → q ∈ par_children p.
Proof. intros. apply elem_of_par_children. do 6 right. by exists x. Qed.
End ParChild.
#[export] Hint Resolve send_child receive_child new_child expr_child match_child bundle_child connective_child : ast.

Lemma par_eqb_erase p q : par_eqb p q = true ↔ erase p = erase q.
Proof.
  revert q. induction p as [p IH] using par_children_ind. intros q.
  destruct p as [ss rs ns es ms us bs cs lf cu], q as [ss' rs' ns' es' ms' us' bs' cs' lf' cu'].
  cbn [par_eqb erase sends receives news exprs matches unforgeables bundles connectives connective_used].
  rewrite !andb_true_iff, Bool.eqb_true_iff, bool_decide_eq_true.
  rewrite (list_eqb_spec (send_eqb par_eqb) (send_map no_free erase)),
    (list_eqb_spec (receive_eqb par_eqb) (receive_map no_free erase)),
    (list_eqb_spec (new_eqb par_eqb) (new_map no_free erase)),
    (list_eqb_spec (expr_eqb par_eqb) (expr_map no_free erase)),
    (list_eqb_spec (match_eqb par_eqb) (match_map no_free erase)),
    (list_eqb_spec (bundle_eqb par_eqb) (bundle_map erase)),
    (list_eqb_spec (connective_eqb par_eqb) (connective_map erase)); [solve_fields|..].
  - intros c Hc d. apply connective_eqb_spec. intros x Hx. apply IH. eauto with ast.
  - intros c Hc d. apply bundle_eqb_spec. intros x Hx. apply IH. eauto with ast.
  - intros c Hc d. apply match_eqb_spec. intros x Hx. apply IH. eauto with ast.
  - intros c Hc d. apply expr_eqb_spec. intros x Hx. apply IH. eauto with ast.
  - intros c Hc d. apply new_eqb_spec. intros x Hx. apply IH. eauto with ast.
  - intros c Hc d. apply receive_eqb_spec. intros x Hx. apply IH. eauto with ast.
  - intros c Hc d. apply send_eqb_spec. intros x Hx. apply IH. eauto with ast.
Qed.

Lemma erase_children p : erase p = par_map_children no_free erase p.
Proof. by destruct p. Qed.
