(* ===== verification/ParOps.v ===== *)
(** * Building processes

    [models/src/par_ops.rs]: the caches of a process (its locally free
    variables, and whether it uses a connective) and the functions that
    compose processes. *)

From S2P Require Import Prelude BTree Bytes Ast.

(** ** Sets of levels *)
Definition union_free (a b : BitSet) : BitSet :=
  set_iter (list_to_set b ∪ list_to_set a : gset Z).

Definition until_free (b : BitSet) (n : Z) : BitSet := filter (λ x, x < n) b.

(** ** Caches *)
Definition locally_free_of_var (v : Var) (depth : Z) : BitSet :=
  match v with
  | BoundVar index => if depth =? 0 then [index] else []
  | FreeVar _ | Wildcard | VarEmpty => []
  end.

Definition connective_used_of_var (v : Var) : bool :=
  match v with FreeVar _ | Wildcard => true | _ => false end.

Definition locally_free_of_expr (e : Expr) (depth : Z) : BitSet :=
  match e with
  | GBool _ | GInt _ | GBigInt _ | GString _ | GUri _ | GByteArray _ => []
  | EList l => el_locally_free l
  | ETuple t => et_locally_free t
  | ESet s => ps_locally_free s
  | EMap m => pm_locally_free m
  | EVar v => locally_free_of_var v depth
  | ENot p | ENeg p => locally_free p
  | EBin _ p1 p2 => union_free (locally_free p1) (locally_free p2)
  | EMethod m => em_locally_free m
  end.

Definition connective_used_of_expr (e : Expr) : bool :=
  match e with
  | GBool _ | GInt _ | GBigInt _ | GString _ | GUri _ | GByteArray _ => false
  | EList l => el_connective_used l
  | ETuple t => et_connective_used t
  | ESet s => ps_connective_used s
  | EMap m => pm_connective_used m
  | EVar v => connective_used_of_var v
  | ENot p | ENeg p => connective_used p
  | EBin EMatches target _ => connective_used target
  | EBin _ p1 p2 => connective_used p1 || connective_used p2
  | EMethod m => em_connective_used m
  end.

Definition locally_free_of_connective (c : Connective) (depth : Z) : BitSet :=
  match c with
  | VarRef index var_depth => if depth =? var_depth then [index] else []
  | _ => []
  end.

Definition connective_used_of_connective (c : Connective) : bool :=
  match c with VarRef _ _ | ConnEmpty => false | _ => true end.

(** ** Builders *)
Definition par_concat (p that : Par) : Par :=
  mkPar (sends that ++ sends p) (receives that ++ receives p) (news that ++ news p)
    (exprs that ++ exprs p) (matches that ++ matches p) (unforgeables that ++ unforgeables p)
    (bundles that ++ bundles p) (connectives that ++ connectives p)
    (union_free (locally_free that) (locally_free p)) (connective_used that || connective_used p).

(** [Par] with one field changed and its caches recomputed. *)
Definition with_sends (p : Par) (x : list Send) (lf : BitSet) (cu : bool) : Par :=
  mkPar x (receives p) (news p) (exprs p) (matches p) (unforgeables p) (bundles p) (connectives p) lf cu.
Definition with_receives (p : Par) (x : list Receive) (lf : BitSet) (cu : bool) : Par :=
  mkPar (sends p) x (news p) (exprs p) (matches p) (unforgeables p) (bundles p) (connectives p) lf cu.
Definition with_news (p : Par) (x : list New) (lf : BitSet) (cu : bool) : Par :=
  mkPar (sends p) (receives p) x (exprs p) (matches p) (unforgeables p) (bundles p) (connectives p) lf cu.
Definition with_exprs (p : Par) (x : list Expr) (lf : BitSet) (cu : bool) : Par :=
  mkPar (sends p) (receives p) (news p) x (matches p) (unforgeables p) (bundles p) (connectives p) lf cu.
Definition with_matches (p : Par) (x : list Match) (lf : BitSet) (cu : bool) : Par :=
  mkPar (sends p) (receives p) (news p) (exprs p) x (unforgeables p) (bundles p) (connectives p) lf cu.
Definition with_bundles (p : Par) (x : list Bundle) (lf : BitSet) (cu : bool) : Par :=
  mkPar (sends p) (receives p) (news p) (exprs p) (matches p) (unforgeables p) x (connectives p) lf cu.
Definition with_connectives (p : Par) (x : list Connective) (lf : BitSet) (cu : bool) : Par :=
  mkPar (sends p) (receives p) (news p) (exprs p) (matches p) (unforgeables p) (bundles p) x lf cu.

Definition prepend_send (par : Par) (s : Send) : Par :=
  with_sends par (s :: sends par) (union_free (locally_free par) (s_locally_free s))
    (connective_used par || s_connective_used s).
Definition prepend_receive (par : Par) (r : Receive) : Par :=
  with_receives par (r :: receives par) (union_free (locally_free par) (r_locally_free r))
    (connective_used par || r_connective_used r).
Definition prepend_new (par : Par) (n : New) : Par :=
  with_news par (n :: news par) (union_free (locally_free par) (n_locally_free n))
    (connective_used par || connective_used (n_p n)).
Definition prepend_expr (par : Par) (e : Expr) (depth : Z) : Par :=
  with_exprs par (e :: exprs par) (union_free (locally_free par) (locally_free_of_expr e depth))
    (connective_used par || connective_used_of_expr e).
Definition prepend_match (par : Par) (m : Match) : Par :=
  with_matches par (m :: matches par) (union_free (locally_free par) (m_locally_free m))
    (connective_used par || m_connective_used m).
Definition prepend_bundle (par : Par) (b : Bundle) : Par :=
  with_bundles par (b :: bundles par) (union_free (locally_free (b_body b)) (locally_free par))
    (connective_used par).
Definition prepend_connective (par : Par) (c : Connective) (depth : Z) : Par :=
  with_connectives par (c :: connectives par) (locally_free_of_connective c depth)
    (connective_used par || connective_used_of_connective c).

(** ** Single terms *)
Definition is_empty {A} (l : list A) : bool := match l with [] => true | _ => false end.

Definition par_empty_except (p : Par) (which : nat) : bool :=
  let empties := [is_empty (sends p); is_empty (receives p); is_empty (news p); is_empty (exprs p);
                  is_empty (matches p); is_empty (unforgeables p); is_empty (bundles p);
                  is_empty (connectives p)] in
  forallb (λ ie, (ie.1 =? which)%nat || ie.2) (imap pair empties).

Definition single_expr (p : Par) : option Expr :=
  if par_empty_except p 3 && (length (exprs p) =? 1)%nat then head (exprs p) else None.
Definition single_bundle (p : Par) : option Bundle :=
  if par_empty_except p 6 && (length (bundles p) =? 1)%nat then head (bundles p) else None.
Definition single_unforgeable (p : Par) : option GUnforgeable :=
  if par_empty_except p 5 && (length (unforgeables p) =? 1)%nat then head (unforgeables p) else None.
Definition single_connective (p : Par) : option Connective :=
  if par_empty_except p 7 && (length (connectives p) =? 1)%nat then head (connectives p) else None.

Definition is_nil (p : Par) : bool :=
  is_empty (sends p) && is_empty (receives p) && is_empty (news p) && is_empty (exprs p) &&
  is_empty (matches p) && is_empty (unforgeables p) && is_empty (bundles p) && is_empty (connectives p).

Definition from_expr (expr : Expr) : Par :=
  mkPar [] [] [] [expr] [] [] [] [] (locally_free_of_expr expr 0) (connective_used_of_expr expr).

(** ** Lemmas *)
Lemma elem_of_union_free a b x : x ∈ union_free a b ↔ x ∈ a ∨ x ∈ b.
Proof. unfold union_free. rewrite elem_of_set_iter. set_solver. Qed.

Lemma elem_of_until_free b n x : x ∈ until_free b n ↔ x ∈ b ∧ x < n.
Proof. unfold until_free. rewrite list_elem_of_filter. naive_solver. Qed.

(** A single expression is the only term of its process. *)
Lemma single_expr_Some p e : single_expr p = Some e ↔
  p = mkPar [] [] [] [e] [] [] [] [] (locally_free p) (connective_used p).
Proof.
  destruct p as [ss rs ns es ms us bs cs lf cu]. unfold single_expr, par_empty_except. simpl.
  destruct ss; [|simpl; split; congruence]. destruct rs; [|simpl; split; congruence]. destruct ns; [|simpl; split; congruence].
  destruct ms; [|simpl; rewrite ?andb_false_r; split; congruence]. destruct us; [|simpl; rewrite ?andb_false_r; split; congruence].
  destruct bs; [|simpl; rewrite ?andb_false_r; split; congruence]. destruct cs; [|simpl; rewrite ?andb_false_r; split; congruence].
  destruct es as [|x [|y es]]; simpl; split; congruence.
Qed.
