(* ===== verification/Types.v ===== *)
(** * Closed and well scoped terms

    [models/src/types.rs]: the sorts, the closedness check (Law 6), the scoping
    check and the count of the free variables of a pattern (Law 5).  Each
    function of a term takes the function of the processes below it. *)

From S2P Require Import Prelude BTree Bytes Ast ParOps.

Inductive PSort := Proc | Name.
#[export] Instance PSort_eq_dec : EqDecision PSort.
Proof. solve_decision. Defined.
Notation Ctx := (list PSort).

Definition var_sort (ctx : Ctx) (v : Var) : option PSort :=
  match v with
  | BoundVar l => if l >=? 0 then ctx !! Z.to_nat l else None
  | FreeVar _ | Wildcard | VarEmpty => None
  end.

Definition is_pure_name (p : Par) : bool :=
  is_empty (sends p) && is_empty (receives p) && is_empty (news p) && is_empty (matches p).

Definition classify (p : Par) : PSort := if is_pure_name p then Name else Proc.

(** ** Free variables *)
Section Collect.
Context {P : Type} (collect : P → gset Z → gset Z).

Definition collect_free_vars_var (v : Var) (out : gset Z) : gset Z :=
  match v with FreeVar l => {[l]} ∪ out | _ => out end.

Definition collect_free_vars_expr (e : ExprF P) (out : gset Z) : gset Z :=
  match e with
  | GBool _ | GInt _ | GBigInt _ | GString _ | GUri _ | GByteArray _ => out
  | EVar v => collect_free_vars_var v out
  | ENot p | ENeg p => collect p out
  | EBin _ p q => collect q (collect p out)
  | EList l => foldl (λ out q, collect q out) out (el_ps l)
  | ETuple t => foldl (λ out q, collect q out) out (et_ps t)
  | ESet s => foldl (λ out q, collect q out) out (ps_ps s)
  | EMap m => foldl (λ out kv, collect kv.2 (collect kv.1 out)) out (pm_kvs m)
  | EMethod m => foldl (λ out q, collect q out) (collect (em_target m) out) (em_arguments m)
  end.

Definition collect_free_vars_connective (c : ConnectiveF P) (out : gset Z) : gset Z :=
  match c with
  | ConnAnd ps | ConnOr ps => foldl (λ out q, collect q out) out ps
  | ConnNot p => collect p out
  | _ => out
  end.
End Collect.

Fixpoint collect_free_vars_par (p : Par) (out : gset Z) : gset Z :=
  let out := foldl (λ out s,
    foldl (λ out d, collect_free_vars_par d out) (collect_free_vars_par (s_chan s) out) (s_data s))
    out (sends p) in
  let out := foldl (λ out r,
    collect_free_vars_par (r_body r)
      (foldl (λ out b, collect_free_vars_par (rb_source b)
         (foldl (λ out pat, collect_free_vars_par pat out) out (rb_patterns b))) out (r_binds r)))
    out (receives p) in
  let out := foldl (λ out n, collect_free_vars_par (n_p n) out) out (news p) in
  let out := foldl (λ out e, collect_free_vars_expr collect_free_vars_par e out) out (exprs p) in
  let out := foldl (λ out m,
    foldl (λ out c, collect_free_vars_par (mc_source c) (collect_free_vars_par (mc_pattern c) out))
      (collect_free_vars_par (m_target m) out) (m_cases m)) out (matches p) in
  let out := foldl (λ out b, collect_free_vars_par (b_body b) out) out (bundles p) in
  foldl (λ out c, collect_free_vars_connective collect_free_vars_par c out) out (connectives p).

Definition count_free_vars (p : Par) : Z := Z.of_nat (size (collect_free_vars_par p ∅)).

(** ** Closedness *)
Definition closed_var (v : Var) (pattern : bool) : bool :=
  match v with FreeVar _ => pattern | BoundVar _ | Wildcard | VarEmpty => true end.

Section Closed.
Context {P : Type} (closed_par : P → bool → bool).

Definition closed_send (s : SendF P) (pattern : bool) : bool :=
  closed_par (s_chan s) pattern && forallb (λ d, closed_par d pattern) (s_data s).
Definition closed_receive_bind (rb : ReceiveBindF P) (pattern : bool) : bool :=
  forallb (λ p, closed_par p true) (rb_patterns rb) && closed_par (rb_source rb) pattern.
Definition closed_receive (r : ReceiveF P) (pattern : bool) : bool :=
  forallb (λ b, closed_receive_bind b pattern) (r_binds r) && closed_par (r_body r) pattern.
Definition closed_new (n : NewF P) (pattern : bool) : bool := closed_par (n_p n) pattern.
Definition closed_match_case (mc : MatchCaseF P) (pattern : bool) : bool :=
  closed_par (mc_pattern mc) true && closed_par (mc_source mc) pattern.
Definition closed_match (m : MatchF P) (pattern : bool) : bool :=
  closed_par (m_target m) pattern && forallb (λ c, closed_match_case c pattern) (m_cases m).
Definition closed_expr (e : ExprF P) (pattern : bool) : bool :=
  match e with
  | GBool _ | GInt _ | GBigInt _ | GString _ | GUri _ | GByteArray _ => true
  | EVar v => closed_var v pattern
  | ENot p | ENeg p => closed_par p pattern
  | EBin _ p q => closed_par p pattern && closed_par q pattern
  | EList l => forallb (λ p, closed_par p pattern) (el_ps l)
  | ETuple t => forallb (λ p, closed_par p pattern) (et_ps t)
  | ESet s => forallb (λ p, closed_par p pattern) (ps_ps s)
  | EMap m => forallb (λ kv, closed_par kv.1 pattern && closed_par kv.2 pattern) (pm_kvs m)
  | EMethod m => closed_par (em_target m) pattern && forallb (λ p, closed_par p pattern) (em_arguments m)
  end.
Definition closed_bundle (b : BundleF P) (pattern : bool) : bool := closed_par (b_body b) pattern.
Definition closed_connective (c : ConnectiveF P) (pattern : bool) : bool :=
  match c with
  | ConnAnd ps | ConnOr ps => forallb (λ p, closed_par p pattern) ps
  | ConnNot p => closed_par p pattern
  | _ => true
  end.
End Closed.

Fixpoint closed_par (p : Par) (pattern : bool) : bool :=
  forallb (λ s, closed_send closed_par s pattern) (sends p) &&
  forallb (λ r, closed_receive closed_par r pattern) (receives p) &&
  forallb (λ n, closed_new closed_par n pattern) (news p) &&
  forallb (λ e, closed_expr closed_par e pattern) (exprs p) &&
  forallb (λ m, closed_match closed_par m pattern) (matches p) &&
  forallb (λ b, closed_bundle closed_par b pattern) (bundles p) &&
  forallb (λ c, closed_connective closed_par c pattern) (connectives p).

Definition is_closed (p : Par) : bool := closed_par p false.

(** ** Scoping *)
Definition well_scoped_var (depth : Z) (v : Var) : bool :=
  match v with
  | BoundVar l => (0 <=? l) && (l <? depth)
  | FreeVar _ | Wildcard | VarEmpty => true
  end.

Section Scoped.
Context {P : Type} (well_scoped_par : Z → P → bool).

Definition well_scoped_send (depth : Z) (s : SendF P) : bool :=
  well_scoped_par depth (s_chan s) && forallb (well_scoped_par depth) (s_data s).
Definition well_scoped_receive_bind (depth : Z) (rb : ReceiveBindF P) : bool :=
  forallb (well_scoped_par depth) (rb_patterns rb) && well_scoped_par depth (rb_source rb) &&
  match rb_remainder rb with Some v => well_scoped_var depth v | None => true end.
Definition well_scoped_receive (depth : Z) (r : ReceiveF P) : bool :=
  forallb (well_scoped_receive_bind depth) (r_binds r) &&
  well_scoped_par (depth + Z.max (r_bind_count r) 0) (r_body r).
Definition well_scoped_new (depth : Z) (n : NewF P) : bool :=
  well_scoped_par (depth + Z.max (n_bind_count n) 0) (n_p n).
Definition well_scoped_match_case (depth : Z) (mc : MatchCaseF P) : bool :=
  well_scoped_par depth (mc_pattern mc) &&
  well_scoped_par (depth + Z.max (mc_free_count mc) 0) (mc_source mc).
Definition well_scoped_match (depth : Z) (m : MatchF P) : bool :=
  well_scoped_par depth (m_target m) && forallb (well_scoped_match_case depth) (m_cases m).
Definition well_scoped_expr (depth : Z) (e : ExprF P) : bool :=
  match e with
  | GBool _ | GInt _ | GBigInt _ | GString _ | GUri _ | GByteArray _ => true
  | EVar v => well_scoped_var depth v
  | ENot p | ENeg p => well_scoped_par depth p
  | EBin _ p q => well_scoped_par depth p && well_scoped_par depth q
  | EList l => forallb (well_scoped_par depth) (el_ps l)
  | ETuple t => forallb (well_scoped_par depth) (et_ps t)
  | ESet s => forallb (well_scoped_par depth) (ps_ps s)
  | EMap m => forallb (λ kv, well_scoped_par depth kv.1 && well_scoped_par depth kv.2) (pm_kvs m)
  | EMethod m => well_scoped_par depth (em_target m) && forallb (well_scoped_par depth) (em_arguments m)
  end.
Definition well_scoped_bundle (depth : Z) (b : BundleF P) : bool := well_scoped_par depth (b_body b).
Definition well_scoped_connective (depth : Z) (c : ConnectiveF P) : bool :=
  match c with
  | ConnAnd ps | ConnOr ps => forallb (well_scoped_par depth) ps
  | ConnNot p => well_scoped_par depth p
  | _ => true
  end.
End Scoped.

Fixpoint well_scoped_par (depth : Z) (p : Par) : bool :=
  forallb (well_scoped_send well_scoped_par depth) (sends p) &&
  forallb (well_scoped_receive well_scoped_par depth) (receives p) &&
  forallb (well_scoped_new well_scoped_par depth) (news p) &&
  forallb (well_scoped_expr well_scoped_par depth) (exprs p) &&
  forallb (well_scoped_match well_scoped_par depth) (matches p) &&
  forallb (well_scoped_bundle well_scoped_par depth) (bundles p) &&
  forallb (well_scoped_connective well_scoped_par depth) (connectives p).

Definition well_scoped (ctx : Ctx) (p : Par) : bool := well_scoped_par (Z.of_nat (length ctx)) p.

(** The checked constructors. *)
Definition Closed_new (par : Par) : option Par := if is_closed par then Some par else None.
Definition WellScoped_new (ctx : Ctx) (par : Par) : option (Ctx * Par) :=
  if well_scoped ctx par then Some (ctx, par) else None.
Definition FreeCount_new (n : Z) : option Z := if n >=? 0 then Some n else None.

(** ** Checks and traversals *)
Lemma forallb_perm {A} (f : A → bool) l k : l ≡ₚ k → forallb f l = forallb f k.
Proof.
  induction 1 as [|x l k _ IH|x y l|l k m _ IH1 _ IH2]; simpl; [done|by rewrite IH| |congruence].
  destruct (f x), (f y); done.
Qed.
Lemma forallb_fmap {A B} (f : B → bool) (h : A → B) l : forallb f (h <$> l) = forallb (λ x, f (h x)) l.
Proof. induction l as [|x l IH]; [done|]. rewrite fmap_cons. cbn [forallb]. by rewrite IH. Qed.
Lemma forallb_ext_in {A} (f h : A → bool) l : (∀ x, x ∈ l → f x = h x) → forallb f l = forallb h l.
Proof.
  intros E. induction l as [|x l IH]; [done|]. cbn [forallb].
  rewrite (E x) by by left. rewrite IH; [done|]. intros; apply E; by right.
Qed.

(** A function on the processes below that keeps the check keeps it for the
    terms that contain them. *)
Section ClosedMap.
Context {P Q : Type} (g : BitSet → BitSet) (f : P → Q) (cl : P → bool → bool) (cl' : Q → bool → bool).
Definition keeps_at (l : list P) : Prop := ∀ q, q ∈ l → ∀ b, cl' (f q) b = cl q b.

Lemma keeps_forallb l b : keeps_at l → forallb (λ q, cl' q b) (f <$> l) = forallb (λ q, cl q b) l.
Proof. intros E. rewrite forallb_fmap. apply forallb_ext_in. intros q Hq. by apply E. Qed.

Lemma closed_send_map s b : keeps_at (send_children s) → closed_send cl' (send_map g f s) b = closed_send cl s b.
Proof.
  intros E. unfold closed_send. simpl. rewrite (E (s_chan s)) by by left.
  rewrite keeps_forallb; [done|]. intros q ?. apply E. by right.
Qed.
Lemma closed_bind_map x b : keeps_at (bind_children x) → closed_receive_bind cl' (bind_map f x) b = closed_receive_bind cl x b.
Proof.
  intros E. unfold closed_receive_bind. simpl. rewrite (E (rb_source x)) by by left.
  rewrite keeps_forallb; [done|]. intros q ?. apply E. by right.
Qed.
Lemma closed_receive_map r b : keeps_at (receive_children r) → closed_receive cl' (receive_map g f r) b = closed_receive cl r b.
Proof.
  intros E. unfold closed_receive. cbn [receive_map r_binds r_body]. rewrite (E (r_body r)) by by left. f_equal.
  rewrite forallb_fmap. apply forallb_ext_in. intros x Hx. apply closed_bind_map.
  intros q Hq. apply E. right. by eapply elem_of_bind_in.
Qed.
Lemma closed_case_map x b : keeps_at (case_children x) → closed_match_case cl' (case_map f x) b = closed_match_case cl x b.
Proof.
  intros E. unfold closed_match_case. simpl. rewrite (E (mc_pattern x)) by by left.
  rewrite (E (mc_source x)); [done|]. right. by left.
Qed.
Lemma closed_match_map m b : keeps_at (match_children m) → closed_match cl' (match_map g f m) b = closed_match cl m b.
Proof.
  intros E. unfold closed_match. cbn [match_map m_target m_cases]. rewrite (E (m_target m)) by by left. f_equal.
  rewrite forallb_fmap. apply forallb_ext_in. intros x Hx. apply closed_case_map.
  intros q Hq. apply E. right. by eapply elem_of_bind_in.
Qed.
Lemma closed_bundle_map x b : keeps_at (bundle_children x) → closed_bundle cl' (bundle_map f x) b = closed_bundle cl x b.
Proof. intros E. apply E. by left. Qed.
Lemma closed_expr_map e b : keeps_at (expr_children e) → closed_expr cl' (expr_map g f e) b = closed_expr cl e b.
Proof.
  intros E. destruct e as [| | | | | |p|p| |op p q|l|t|s|m|m]; simpl in *; try done.
  - apply E. by left.
  - apply E. by left.
  - rewrite (E p) by by left. rewrite (E q); [done|]. right. by left.
  - by apply keeps_forallb.
  - by apply keeps_forallb.
  - by apply keeps_forallb.
  - rewrite forallb_fmap. apply forallb_ext_in. intros kv Hkv. simpl.
    rewrite !E; [done|..]; eapply elem_of_bind_in; [exact Hkv|right; by left|exact Hkv|by left].
  - rewrite (E (em_target m)) by by left. rewrite keeps_forallb; [done|]. intros q ?. apply E. by right.
Qed.
Lemma closed_connective_map c b :
  keeps_at (connective_children c) → closed_connective cl' (connective_map f c) b = closed_connective cl c b.
Proof.
  intros E. destruct c; simpl in *; try done; [by apply keeps_forallb..|]. apply E. by left.
Qed.
End ClosedMap.

Section ScopedMap.
Context {P Q : Type} (g : BitSet → BitSet) (f : P → Q) (ws : Z → P → bool) (ws' : Z → Q → bool).
Definition keeps_scope (l : list P) : Prop := ∀ q, q ∈ l → ∀ d, ws' d (f q) = ws d q.

Lemma keeps_scope_forallb l d : keeps_scope l → forallb (ws' d) (f <$> l) = forallb (ws d) l.
Proof. intros E. rewrite forallb_fmap. apply forallb_ext_in. intros q Hq. by apply E. Qed.

Lemma scoped_send_map s d : keeps_scope (send_children s) → well_scoped_send ws' d (send_map g f s) = well_scoped_send ws d s.
Proof.
  intros E. unfold well_scoped_send. simpl. rewrite (E (s_chan s)) by by left.
  rewrite keeps_scope_forallb; [done|]. intros q ?. apply E. by right.
Qed.
Lemma scoped_bind_map x d : keeps_scope (bind_children x) → well_scoped_receive_bind ws' d (bind_map f x) = well_scoped_receive_bind ws d x.
Proof.
  intros E. unfold well_scoped_receive_bind. simpl. rewrite (E (rb_source x)) by by left.
  rewrite keeps_scope_forallb; [done|]. intros q ?. apply E. by right.
Qed.
Lemma scoped_receive_map r d : keeps_scope (receive_children r) → well_scoped_receive ws' d (receive_map g f r) = well_scoped_receive ws d r.
Proof.
  intros E. unfold well_scoped_receive. cbn [receive_map r_binds r_body r_bind_count]. rewrite (E (r_body r)) by by left. f_equal.
  rewrite forallb_fmap. apply forallb_ext_in. intros x Hx. apply scoped_bind_map.
  intros q Hq. apply E. right. by eapply elem_of_bind_in.
Qed.
Lemma scoped_case_map x d : keeps_scope (case_children x) → well_scoped_match_case ws' d (case_map f x) = well_scoped_match_case ws d x.
Proof.
  intros E. unfold well_scoped_match_case. simpl. rewrite (E (mc_pattern x)) by by left.
  rewrite (E (mc_source x)); [done|]. right. by left.
Qed.
Lemma scoped_match_map m d : keeps_scope (match_children m) → well_scoped_match ws' d (match_map g f m) = well_scoped_match ws d m.
Proof.
  intros E. unfold well_scoped_match. cbn [match_map m_target m_cases]. rewrite (E (m_target m)) by by left. f_equal.
  rewrite forallb_fmap. apply forallb_ext_in. intros x Hx. apply scoped_case_map.
  intros q Hq. apply E. right. by eapply elem_of_bind_in.
Qed.
Lemma scoped_bundle_map x d : keeps_scope (bundle_children x) → well_scoped_bundle ws' d (bundle_map f x) = well_scoped_bundle ws d x.
Proof. intros E. apply E. by left. Qed.
Lemma scoped_expr_map e d : keeps_scope (expr_children e) → well_scoped_expr ws' d (expr_map g f e) = well_scoped_expr ws d e.
Proof.
  intros E. destruct e as [| | | | | |p|p| |op p q|l|t|s|m|m]; simpl in *; try done.
  - apply E. by left.
  - apply E. by left.
  - rewrite (E p) by by left. rewrite (E q); [done|]. right. by left.
  - by apply keeps_scope_forallb.
  - by apply keeps_scope_forallb.
  - by apply keeps_scope_forallb.
  - rewrite forallb_fmap. apply forallb_ext_in. intros kv Hkv. simpl.
    rewrite !E; [done|..]; eapply elem_of_bind_in; [exact Hkv|right; by left|exact Hkv|by left].
  - rewrite (E (em_target m)) by by left. rewrite keeps_scope_forallb; [done|]. intros q ?. apply E. by right.
Qed.
Lemma scoped_connective_map c d :
  keeps_scope (connective_children c) → well_scoped_connective ws' d (connective_map f c) = well_scoped_connective ws d c.
Proof.
  intros E. destruct c; simpl in *; try done; [by apply keeps_scope_forallb..|]. apply E. by left.
Qed.
End ScopedMap.
