(* ===== verification/Sorter.v ===== *)
(** * The canonicalizing sorter

    [models/src/sorter.rs] and [models/src/sorted.rs].  A term is scored by a
    tree, and the fields of a process are sorted by score.  The functions take
    the sorter of the processes below them; [sort_par] closes the recursion. *)

From S2P Require Import Prelude BTree Bytes Trace Ast.

(** ** Scores *)
Definition ABSENT : Z := 0.
Definition BOOL : Z := 1.
Definition INT : Z := 2.
Definition STRING : Z := 3.
Definition URI : Z := 4.
Definition PRIVATE : Z := 5.
Definition ELIST : Z := 6.
Definition ETUPLE : Z := 7.
Definition ESET : Z := 8.
Definition EMAP : Z := 9.
Definition DEPLOYER_AUTH : Z := 10.
Definition DEPLOY_ID : Z := 11.
Definition SYS_AUTH_TOKEN : Z := 12.
Definition BIG_INT : Z := 13.
Definition BOUND_VAR : Z := 50.
Definition FREE_VAR : Z := 51.
Definition WILDCARD : Z := 52.
Definition EVAR : Z := 100.
Definition ENEG : Z := 101.
Definition ENOT : Z := 112.
Definition EMETHOD : Z := 115.
Definition EBYTEARR : Z := 116.
Definition SEND : Z := 300.
Definition RECEIVE : Z := 301.
Definition NEW : Z := 303.
Definition MATCH : Z := 304.
Definition BUNDLE_EQUIV : Z := 305.
Definition BUNDLE_READ : Z := 306.
Definition BUNDLE_WRITE : Z := 307.
Definition BUNDLE_READ_WRITE : Z := 308.
Definition CONNECTIVE_NOT : Z := 400.
Definition CONNECTIVE_AND : Z := 401.
Definition CONNECTIVE_OR : Z := 402.
Definition CONNECTIVE_VARREF : Z := 403.
Definition CONNECTIVE_BOOL : Z := 404.
Definition CONNECTIVE_INT : Z := 405.
Definition CONNECTIVE_STRING : Z := 406.
Definition CONNECTIVE_URI : Z := 407.
Definition CONNECTIVE_BYTEARRAY : Z := 408.
Definition CONNECTIVE_BIG_INT : Z := 409.
Definition PAR : Z := 999.

(** The scores of the binary operators. *)
Definition bin_op_score (op : BinOp) : Z :=
  match op with
  | EMult => 102 | EDiv => 103 | EPlus => 104 | EMinus => 105
  | ELt => 106 | ELte => 107 | EGt => 108 | EGte => 109 | EEq => 110 | ENeq => 111
  | EAnd => 113 | EOr => 114
  | EMatches => 118 | EPercentPercent => 119 | EPlusPlus => 120 | EMinusMinus => 121
  | EMod => 122 | EShortAnd => 123 | EShortOr => 124
  end.

Inductive ScoreAtom :=
| AInt (i : Z)
| ABigInt (i : Z)
| AStr (s : Str)
| ABytes (b : list byte).
#[export] Instance ScoreAtom_eq_dec : EqDecision ScoreAtom.
Proof. solve_decision. Defined.

(** [b as i8]. *)
Definition as_i8 (b : byte) : Z :=
  let n := Z.of_nat (u8_val b) in if n <? 128 then n else n - 256.
Definition cmp_signed_byte (a b : byte) : comparison := Z.compare (as_i8 a) (as_i8 b).

Fixpoint compare_bytes_signed (a b : list byte) : comparison :=
  match a, b with
  | x :: a', y :: b' => match cmp_signed_byte x y with Eq => compare_bytes_signed a' b' | other => other end
  | _ :: _, [] => Gt
  | [], _ :: _ => Lt
  | [], [] => Eq
  end.

Definition atom_cmp (a b : ScoreAtom) : comparison :=
  match a, b with
  | AInt i, AInt j => cmp i j
  | AInt _, _ => Lt
  | _, AInt _ => Gt
  | ABigInt i, ABigInt j => cmp i j
  | ABigInt _, _ => Lt
  | _, ABigInt _ => Gt
  | AStr s, AStr t => cmp s t
  | AStr _, _ => Lt
  | _, AStr _ => Gt
  | ABytes s, ABytes t => compare_bytes_signed s t
  end.

Inductive Tree :=
| Leaf (a : ScoreAtom)
| Node (children : list Tree).

(** [compare_children], with the comparison of the trees. *)
Fixpoint compare_children {A} (c : A → A → comparison) (a b : list A) : comparison :=
  match a, b with
  | [], [] => Eq
  | [], _ :: _ => Lt
  | _ :: _, [] => Gt
  | x :: a', y :: b' => match c x y with Eq => compare_children c a' b' | other => other end
  end.
Fixpoint tree_cmp (s t : Tree) : comparison :=
  match s, t with
  | Leaf a, Leaf b => atom_cmp a b
  | Leaf _, Node _ => Lt
  | Node _, Leaf _ => Gt
  | Node a, Node b => compare_children tree_cmp a b
  end.
#[export] Instance tree_ord : Ord Tree := tree_cmp.

Record ScoredTerm (T : Type) := mkScored {
  st_term : T;
  st_score : Tree;
}.
#[global] Arguments mkScored {T}.
#[global] Arguments st_term {T}.
#[global] Arguments st_score {T}.

Definition leaf_i64 (v : Z) : Tree := Leaf (AInt v).
Definition leaves (vals : list Z) : Tree := Node (leaf_i64 <$> vals).
Definition node_score (score : Z) (children : list Tree) : Tree := Node (leaf_i64 score :: children).
Definition flag (b : bool) : Tree := leaf_i64 (if b then 1 else 0).

(** [sort_by(|a, b| a.score.cmp(&b.score))]. *)
Definition sort_scores {T} (scored : list (ScoredTerm T)) : list (ScoredTerm T) :=
  sort_by (λ a b, cmp (st_score a) (st_score b)) scored.
Definition sort_scored {T} (scored : list (ScoredTerm T)) : list T := st_term <$> sort_scores scored.

(** ** The matchers *)
Definition var_score (v : Var) : Tree :=
  match v with
  | BoundVar level => leaves [BOUND_VAR; level]
  | FreeVar level => leaves [FREE_VAR; level]
  | Wildcard => leaves [WILDCARD]
  | VarEmpty => leaf_i64 ABSENT
  end.
Definition sort_var (v : Var) : ScoredTerm Var := mkScored v (var_score v).
Definition remainder_score (remainder : option Var) : Tree :=
  match remainder with Some v => st_score (sort_var v) | None => leaf_i64 (-1) end.
Definition sort_unforgeable (unf : GUnforgeable) : ScoredTerm GUnforgeable :=
  mkScored unf
    match unf with
    | GPrivate id => node_score PRIVATE [Leaf (ABytes id)]
    | GDeployerId public_key => node_score DEPLOYER_AUTH [Leaf (ABytes public_key)]
    | GDeployId sig => node_score DEPLOY_ID [Leaf (ABytes sig)]
    | GSysAuthToken => node_score SYS_AUTH_TOKEN []
    | UnforgeableEmpty => node_score ABSENT []
    end.

Section Matchers.
Context {P : Type} (sort_par : P → ScoredTerm P).
Notation term p := (st_term (sort_par p)).
Notation score p := (st_score (sort_par p)).

Definition sort_send (s : SendF P) : ScoredTerm (SendF P) :=
  mkScored (send_map id (λ p, term p) s)
    (node_score SEND ([flag (s_persistent s); score (s_chan s)] ++ ((λ p, score p) <$> s_data s) ++
       [flag (s_connective_used s)])).

Definition sort_receive_bind (b : ReceiveBindF P) : ScoredTerm (ReceiveBindF P) :=
  mkScored (bind_map (λ p, term p) b)
    (Node ([score (rb_source b)] ++ ((λ p, score p) <$> rb_patterns b) ++
       [match rb_remainder b with Some v => st_score (sort_var v) | None => leaf_i64 ABSENT end])).

Definition sort_receive (r : ReceiveF P) : ScoredTerm (ReceiveF P) :=
  mkScored (receive_map id (λ p, term p) r)
    (node_score RECEIVE ([flag (r_persistent r); flag (r_peek r)] ++
       ((λ b, st_score (sort_receive_bind b)) <$> r_binds r) ++
       [score (r_body r); leaf_i64 (r_bind_count r); flag (r_connective_used r)])).

Definition sort_new (n : NewF P) : ScoredTerm (NewF P) :=
  let sorted_uri := sort_by cmp (n_uri n) in
  let uri_score := match sorted_uri with [] => [leaf_i64 ABSENT] | _ => (λ u, Leaf (AStr u)) <$> sorted_uri end in
  let injections := sort_by (λ a b, cmp a.1 b.1) ((λ kv, (kv.1, sort_par kv.2)) <$> n_injections n) in
  let injections_score :=
    match injections with
    | [] => [leaf_i64 ABSENT]
    | _ => (λ kst, Node [Leaf (AStr kst.1); st_score kst.2]) <$> injections
    end in
  mkScored (mkNew (n_bind_count n) (term (n_p n)) sorted_uri
              ((λ kst, (kst.1, st_term kst.2)) <$> injections) (n_locally_free n))
    (Node ([leaf_i64 NEW; leaf_i64 (n_bind_count n)] ++ uri_score ++ injections_score ++ [score (n_p n)])).

Definition sort_match_case (c : MatchCaseF P) : ScoredTerm (MatchCaseF P) :=
  mkScored (case_map (λ p, term p) c)
    (Node [score (mc_pattern c); score (mc_source c); leaf_i64 (mc_free_count c)]).

Definition sort_match (m : MatchF P) : ScoredTerm (MatchF P) :=
  mkScored (match_map id (λ p, term p) m)
    (node_score MATCH ([score (m_target m)] ++ ((λ c, st_score (sort_match_case c)) <$> m_cases m) ++
       [flag (m_connective_used m)])).

Definition bundle_score (b : BundleF P) : Z :=
  if b_write_flag b && b_read_flag b then BUNDLE_READ_WRITE
  else if b_write_flag b && negb (b_read_flag b) then BUNDLE_WRITE
  else if negb (b_write_flag b) && b_read_flag b then BUNDLE_READ
  else BUNDLE_EQUIV.
Definition sort_bundle (b : BundleF P) : ScoredTerm (BundleF P) :=
  mkScored (bundle_map (λ p, term p) b) (node_score (bundle_score b) [score (b_body b)]).

Definition conn_flag (b : bool) : Z := if b then 1 else 0.
Definition sort_connective (c : ConnectiveF P) : ScoredTerm (ConnectiveF P) :=
  mkScored (connective_map (λ p, term p) c)
    match c with
    | ConnAnd ps => node_score CONNECTIVE_AND ((λ p, score p) <$> ps)
    | ConnOr ps => node_score CONNECTIVE_OR ((λ p, score p) <$> ps)
    | ConnNot p => node_score CONNECTIVE_NOT [score p]
    | VarRef index depth => leaves [CONNECTIVE_VARREF; index; depth]
    | ConnBool b => leaves [CONNECTIVE_BOOL; conn_flag b]
    | ConnInt b => leaves [CONNECTIVE_INT; conn_flag b]
    | ConnBigInt b => leaves [CONNECTIVE_BIG_INT; conn_flag b]
    | ConnString b => leaves [CONNECTIVE_STRING; conn_flag b]
    | ConnUri b => leaves [CONNECTIVE_URI; conn_flag b]
    | ConnByteArray b => leaves [CONNECTIVE_BYTEARRAY; conn_flag b]
    | ConnEmpty => leaf_i64 ABSENT
    end.

Definition sort_expr (e : ExprF P) : ScoredTerm (ExprF P) :=
  mkScored (expr_map id (λ p, term p) e)
    match e with
    | GBool b => leaves [BOOL; if b then 0 else 1]
    | GInt v => leaves [INT; v]
    | GBigInt v => node_score BIG_INT [Leaf (ABigInt v)]
    | GString v => node_score STRING [Leaf (AStr v)]
    | GUri v => node_score URI [Leaf (AStr v)]
    | GByteArray v => node_score EBYTEARR [Leaf (ABytes v)]
    | ENot p => node_score ENOT [score p]
    | ENeg p => node_score ENEG [score p]
    | EVar v => node_score EVAR [st_score (sort_var v)]
    | EBin op p1 p2 => node_score (bin_op_score op) [score p1; score p2]
    | EList l => Node ([leaf_i64 ELIST; remainder_score (el_remainder l)] ++ ((λ p, score p) <$> el_ps l) ++
                       [flag (el_connective_used l)])
    | ETuple t => Node ([leaf_i64 ETUPLE] ++ ((λ p, score p) <$> et_ps t) ++ [flag (et_connective_used t)])
    | ESet s => Node ([leaf_i64 ESET; remainder_score (ps_remainder s)] ++ ((λ p, score p) <$> ps_ps s) ++
                      [flag (ps_connective_used s)])
    | EMap m => Node ([leaf_i64 EMAP; remainder_score (pm_remainder m)] ++ ((λ kv, score kv.1) <$> pm_kvs m) ++
                      [flag (pm_connective_used m)])
    | EMethod m => Node ([leaf_i64 EMETHOD; Leaf (AStr (em_method_name m)); score (em_target m)] ++
                         ((λ p, score p) <$> em_arguments m) ++ [flag (em_connective_used m)])
    end.
End Matchers.

Fixpoint sort_par (par : Par) : ScoredTerm Par :=
  let sends := sort_scores (sort_send sort_par <$> sends par) in
  let receives := sort_scores (sort_receive sort_par <$> receives par) in
  let exprs := sort_scores (sort_expr sort_par <$> exprs par) in
  let news := sort_scores (sort_new sort_par <$> news par) in
  let matches := sort_scores (sort_match sort_par <$> matches par) in
  let bundles := sort_scores (sort_bundle sort_par <$> bundles par) in
  let connectives := sort_scores (sort_connective sort_par <$> connectives par) in
  let unforgeables := sort_scores (sort_unforgeable <$> unforgeables par) in
  mkScored
    (mkPar (st_term <$> sends) (st_term <$> receives) (st_term <$> news) (st_term <$> exprs)
       (st_term <$> matches) (st_term <$> unforgeables) (st_term <$> bundles) (st_term <$> connectives)
       (locally_free par) (connective_used par))
    (node_score PAR
       ((st_score <$> sends) ++ (st_score <$> receives) ++ (st_score <$> exprs) ++ (st_score <$> news) ++
        (st_score <$> matches) ++ (st_score <$> bundles) ++ (st_score <$> connectives) ++
        (st_score <$> unforgeables) ++ [flag (connective_used par)])).

(** ** The interface *)
Definition sort_par_term (par : Par) : Par := st_term (sort_par par).

Definition sort_pars (pars : list Par) : list Par := sort_scored (sort_par <$> pars).
Definition sort_pairs (pairs : list (Par * Par)) : list (Par * Par) :=
  sort_scored ((λ kv, mkScored (st_term (sort_par kv.1), st_term (sort_par kv.2)) (st_score (sort_par kv.1)))
                 <$> pairs).

Definition sort_receive_binds_with {T} (binds : list (ReceiveBind * T)) : list (ReceiveBind * T) :=
  sort_scored ((λ bt, let sb := sort_receive_bind sort_par bt.1 in mkScored (st_term sb, bt.2) (st_score sb)) <$> binds).

Definition par_contains (l : list Par) (p : Par) : bool := existsb (λ q, par_eqb q p) l.

Definition par_set (ps : list Par) : ParSet :=
  let deduped := foldl (λ deduped p, if par_contains deduped p then deduped else deduped ++ [p]) [] ps in
  mkParSet (sort_pars deduped) false [] None.

(** The slot of a key is overwritten, or a new one is added. *)
Fixpoint set_slot (map : list (Par * Par)) (k v : Par) : list (Par * Par) :=
  match map with
  | [] => [(k, v)]
  | (ek, ev) :: map' => if par_eqb ek k then (ek, v) :: map' else (ek, ev) :: set_slot map' k v
  end.
Definition par_map (kvs : list (Par * Par)) : ParMap :=
  let map := foldl (λ map kv, set_slot map kv.1 kv.2) [] kvs in
  mkParMap (sort_pairs map) false [] None.
