(* ===== verification/SorterSpec.v ===== *)
(** * The canonical order

    The score trees are totally ordered; sorting is idempotent, keeps a term
    closed and well scoped, and decides the congruence of the parallel
    composition (Law 1). *)

From S2P Require Import Prelude BTree Bytes Trace Ast ParOps Types Sorter.

(** ** The order of the scores *)
Lemma as_i8_inj a b : as_i8 a = as_i8 b → a = b.
Proof.
  unfold as_i8. intros E. apply u8_val_inj.
  pose proof (u8_val_bound a). pose proof (u8_val_bound b).
  destruct (Z.ltb_spec (Z.of_nat (u8_val a)) 128), (Z.ltb_spec (Z.of_nat (u8_val b)) 128); lia.
Qed.

Lemma compare_bytes_signed_cmp a b : compare_bytes_signed a b = cmp (as_i8 <$> a) (as_i8 <$> b).
Proof. revert b. induction a as [|x a IH]; intros [|y b]; [done..|]. simpl. by rewrite IH. Qed.

Definition atom_view (a : ScoreAtom) : nat * (Z * (list byte * list Z)) :=
  match a with
  | AInt i => (0%nat, (i, ([], [])))
  | ABigInt i => (1%nat, (i, ([], [])))
  | AStr s => (2%nat, (0, (s, [])))
  | ABytes b => (3%nat, (0, ([], as_i8 <$> b)))
  end.
#[export] Instance atom_ord : Ord ScoreAtom := atom_cmp.
#[export] Instance atom_ord_spec : OrdSpec ScoreAtom.
Proof.
  apply (ord_spec_inj atom_view).
  - intros [|?|?|s] [|?|?|t]; simpl; intros E; try congruence. f_equal.
    injection E as E. revert t E. induction s as [|x s IH]; intros [|y t] E; [done..|].
    injection E as Ex%as_i8_inj Es. rewrite Ex. f_equal. by apply IH.
  - intros [|?|?|s] [|?|?|t]; try done; unfold cmp, atom_ord, atom_cmp, atom_view, prod_ord; simpl.
    + change (cmp i i0 = match cmp i i0 with Eq => Eq | c => c end). by destruct (cmp i i0).
    + change (cmp i i0 = match cmp i i0 with Eq => Eq | c => c end). by destruct (cmp i i0).
    + change (cmp s s0 = match cmp s s0 with Eq => Eq | c => c end). by destruct (cmp s s0).
    + apply compare_bytes_signed_cmp.
Qed.

Lemma Tree_nested_ind (R : Tree → Prop) :
  (∀ a, R (Leaf a)) → (∀ l, Forall R l → R (Node l)) → ∀ t, R t.
Proof.
  intros Hl Hn. refine (fix go t := match t with Leaf a => Hl a | Node l => Hn l _ end).
  induction l as [|t' l IH]; constructor; [apply go|apply IH].
Qed.

#[export] Instance tree_ord_spec : OrdSpec Tree.
Proof.
  assert (∀ s t, tree_cmp s t = Eq ↔ s = t) as Heq.
  { intros s. induction s as [a|l IH] using Tree_nested_ind; intros [b|k]; simpl; [|done|done|].
    { change (atom_cmp a b) with (cmp a b). rewrite cmp_eq. naive_solver. }
    transitivity (l = k); [|naive_solver]. revert k. induction IH as [|x l Hx _ IHl]; intros [|y k]; simpl; [done..|].
    specialize (Hx y). specialize (IHl k). destruct (tree_cmp x y); naive_solver. }
  split; unfold cmp, tree_ord; [apply Heq|..].
  - intros s. induction s as [a|l IH] using Tree_nested_ind; intros [b|k]; simpl; [apply (cmp_opp a b)|done|done|].
    revert k. induction IH as [|x l Hx _ IHl]; intros [|y k]; simpl; [done..|].
    rewrite Hx, IHl. by destruct (tree_cmp x y).
  - intros s. induction s as [a|l IH] using Tree_nested_ind; intros [b|k] [c|m]; simpl; try done;
      [apply (cmp_lt_trans a b c)|].
    revert k m. induction IH as [|x l Hx _ IHl]; intros [|y k] [|z m]; simpl; [done..|].
    specialize (Hx y z). destruct (tree_cmp x y) eqn:Exy; [apply Heq in Exy as ->| |done].
    + destruct (tree_cmp y z); [apply IHl|done|done].
    + intros _. destruct (tree_cmp y z) eqn:Eyz; [apply Heq in Eyz as ->; by rewrite Exy| |done].
      by rewrite Hx.
Qed.

(** ** Sorted fields *)
Lemma elem_of_sort_scores {T} (y : ScoredTerm T) l : y ∈ sort_scores l ↔ y ∈ l.
Proof. apply elem_of_sort_by. Qed.

Lemma sort_scores_idemp {T} (l : list (ScoredTerm T)) : sort_scores (sort_scores l) = sort_scores l.
Proof. apply (sort_by_idemp st_score). Qed.

(** Sorting the terms of a sorted field again. *)
Lemma sort_field_idemp {T} (f : T → ScoredTerm T) l :
  (∀ x, x ∈ l → f (st_term (f x)) = f x) →
  sort_scores (f <$> (st_term <$> sort_scores (f <$> l))) = sort_scores (f <$> l).
Proof.
  intros Hf. rewrite <- list_fmap_compose.
  assert ((f ∘ st_term) <$> sort_scores (f <$> l) = sort_scores (f <$> l)) as ->; [|apply sort_scores_idemp].
  rewrite <- (list_fmap_id (sort_scores (f <$> l))) at 2. apply fmap_ext_in.
  intros y (x & -> & Hx)%elem_of_sort_scores%list_elem_of_fmap. by apply Hf.
Qed.

(** A check of every term of a field. *)
Lemma forallb_sort_field {T} (chk : T → bool) (f : T → ScoredTerm T) l :
  (∀ x, x ∈ l → chk (st_term (f x)) = chk x) →
  forallb chk (st_term <$> sort_scores (f <$> l)) = forallb chk l.
Proof.
  intros E. unfold sort_scores. rewrite forallb_fmap, (forallb_perm _ _ _ (sort_by_perm _ _)), forallb_fmap. by apply forallb_ext_in.
Qed.

(** ** Idempotence *)
Section SortedAt.
Context {P : Type} (srt : P → ScoredTerm P).
Definition sorted_at (l : list P) : Prop := ∀ q, q ∈ l → srt (st_term (srt q)) = srt q.

Lemma sorted_at_terms l : sorted_at l → (λ p, st_term (srt p)) <$> ((λ p, st_term (srt p)) <$> l) = (λ p, st_term (srt p)) <$> l.
Proof. intros E. rewrite <- list_fmap_compose. apply fmap_ext_in. intros q Hq. simpl. by rewrite (E q Hq). Qed.
Lemma sorted_at_scores l : sorted_at l → (λ p, st_score (srt p)) <$> ((λ p, st_term (srt p)) <$> l) = (λ p, st_score (srt p)) <$> l.
Proof. intros E. rewrite <- list_fmap_compose. apply fmap_ext_in. intros q Hq. simpl. by rewrite (E q Hq). Qed.
End SortedAt.

Section Idemp.
Context {P : Type} (srt : P → ScoredTerm P).

Lemma sort_send_idemp s : sorted_at srt (send_children s) → sort_send srt (st_term (sort_send srt s)) = sort_send srt s.
Proof.
  intros E. destruct s as [c d ? ? ?]. unfold sort_send, send_map, send_children in *. simpl in *.
  rewrite (E c) by by left.
  rewrite sorted_at_terms, sorted_at_scores by (intros q ?; apply E; by right). done.
Qed.
Lemma sort_bind_idemp b : sorted_at srt (bind_children b) →
  sort_receive_bind srt (st_term (sort_receive_bind srt b)) = sort_receive_bind srt b.
Proof.
  intros E. destruct b as [ps c ? ?]. unfold sort_receive_bind, bind_map, bind_children in *. simpl in *.
  rewrite (E c) by by left.
  rewrite sorted_at_terms, sorted_at_scores by (intros q ?; apply E; by right). done.
Qed.
Lemma sort_receive_idemp r : sorted_at srt (receive_children r) →
  sort_receive srt (st_term (sort_receive srt r)) = sort_receive srt r.
Proof.
  intros E. destruct r as [bs bd pe pk bc lf cu]. unfold receive_children in E. simpl in E.
  unfold sort_receive, receive_map. cbn [st_term r_binds r_body r_persistent r_peek r_bind_count r_locally_free r_connective_used].
  rewrite (E bd) by by left.
  change (bind_map (λ p, st_term (srt p))) with (λ b, st_term (sort_receive_bind srt b)).
  rewrite (sorted_at_terms (sort_receive_bind srt)), (sorted_at_scores (sort_receive_bind srt)); [done|..];
    intros b Hb; apply sort_bind_idemp; intros q Hq; apply E; right; by eapply elem_of_bind_in.
Qed.
Lemma sort_case_idemp c : sorted_at srt (case_children c) →
  sort_match_case srt (st_term (sort_match_case srt c)) = sort_match_case srt c.
Proof.
  intros E. destruct c as [a b ?]. unfold sort_match_case, case_map, case_children in *. simpl in *.
  rewrite (E a) by by left. rewrite (E b) by (right; by left). done.
Qed.
Lemma sort_match_idemp m : sorted_at srt (match_children m) → sort_match srt (st_term (sort_match srt m)) = sort_match srt m.
Proof.
  intros E. destruct m as [t cs lf cu]. unfold match_children in E. simpl in E.
  unfold sort_match, match_map. cbn [st_term m_target m_cases m_locally_free m_connective_used].
  rewrite (E t) by by left.
  change (case_map (λ p, st_term (srt p))) with (λ b, st_term (sort_match_case srt b)).
  rewrite (sorted_at_terms (sort_match_case srt)), (sorted_at_scores (sort_match_case srt)); [done|..];
    intros b Hb; apply sort_case_idemp; intros q Hq; apply E; right; by eapply elem_of_bind_in.
Qed.
Lemma sort_bundle_idemp b : sorted_at srt (bundle_children b) → sort_bundle srt (st_term (sort_bundle srt b)) = sort_bundle srt b.
Proof. intros E. destruct b as [q ? ?]. unfold sort_bundle, bundle_map. simpl. rewrite (E q) by by left. done. Qed.
Lemma sort_connective_idemp c : sorted_at srt (connective_children c) →
  sort_connective srt (st_term (sort_connective srt c)) = sort_connective srt c.
Proof.
  intros E. destruct c as [ps|ps|p| | | | | | | |]; unfold sort_connective; simpl in *; try done.
  1,2: by rewrite sorted_at_terms, sorted_at_scores.
  rewrite (E p) by by left. done.
Qed.
Lemma sort_expr_idemp e : sorted_at srt (expr_children e) → sort_expr srt (st_term (sort_expr srt e)) = sort_expr srt e.
Proof.
  intros E. destruct e as [| | | | | |p|p| |op p q|l|t|s|m|m]; unfold sort_expr; simpl in *; try done.
  1,2: rewrite (E p) by (by left); done.
  - rewrite (E p) by by left. rewrite (E q) by (right; by left). done.
  - by rewrite sorted_at_terms, sorted_at_scores.
  - by rewrite sorted_at_terms, sorted_at_scores.
  - by rewrite sorted_at_terms, sorted_at_scores.
  - assert (∀ kv, kv ∈ pm_kvs m → srt (st_term (srt kv.1)) = srt kv.1 ∧ srt (st_term (srt kv.2)) = srt kv.2) as Hkv.
    { intros kv Hkv. split; apply E; eapply elem_of_bind_in; [exact Hkv|by left|exact Hkv|right; by left]. }
    rewrite <- !list_fmap_compose. f_equal.
    + do 2 f_equal. apply fmap_ext_in. intros kv [E1 E2]%Hkv. unfold prod_map. simpl. by rewrite E1, E2.
    + do 4 f_equal. apply fmap_ext_in. intros kv [E1 E2]%Hkv. simpl. by rewrite E1.
  - rewrite (E (em_target m)) by by left.
    rewrite sorted_at_terms, sorted_at_scores by (intros q ?; apply E; by right). done.
Qed.

(** The injections of a [New], sorted by key. *)
Definition sort_injections (l : list (Str * P)) : list (Str * ScoredTerm P) :=
  sort_by (λ a b, cmp a.1 b.1) ((λ kv, (kv.1, srt kv.2)) <$> l).
Lemma sort_injections_idemp l : sorted_at srt l.*2 →
  sort_injections ((λ kst, (kst.1, st_term kst.2)) <$> sort_injections l) = sort_injections l.
Proof.
  intros E. unfold sort_injections at 1. rewrite <- list_fmap_compose.
  match goal with |- sort_by _ ?k = _ => assert (k = sort_injections l) as -> end.
  - rewrite <- (list_fmap_id (sort_injections l)) at 2. apply fmap_ext_in. intros kst Hk.
    unfold sort_injections in Hk. apply elem_of_sort_by, list_elem_of_fmap in Hk as ([k q] & -> & Hq). simpl.
    rewrite E; [done|]. apply list_elem_of_fmap. by exists (k, q).
  - apply (sort_by_idemp fst).
Qed.
Lemma sort_new_idemp n : sorted_at srt (new_children n) → sort_new srt (st_term (sort_new srt n)) = sort_new srt n.
Proof.
  intros E. destruct n as [bc p uri inj ?]. unfold new_children in E. simpl in E.
  unfold sort_new. simpl. fold (sort_injections inj).
  fold (sort_injections ((λ kst : Str * ScoredTerm P, (kst.1, st_term kst.2)) <$> sort_injections inj)).
  rewrite sort_injections_idemp by (intros q ?; apply E; by right).
  rewrite (sort_by_idemp id). rewrite (E p) by by left. done.
Qed.
End Idemp.

Lemma sort_par_idemp p : sort_par (sort_par_term p) = sort_par p.
Proof.
  unfold sort_par_term. induction p as [p IH] using par_children_ind. destruct p as [ss rs ns es ms us bs cs lf cu].
  cbn [sort_par st_term sends receives news exprs matches unforgeables bundles connectives locally_free connective_used].
  rewrite !sort_field_idemp; [done|..]; intros x Hx.
  - apply sort_connective_idemp. intros q Hq. apply IH. eauto with ast.
  - apply sort_bundle_idemp. intros q Hq. apply IH. eauto with ast.
  - done.
  - apply sort_match_idemp. intros q Hq. apply IH. eauto with ast.
  - apply sort_expr_idemp. intros q Hq. apply IH. eauto with ast.
  - apply sort_new_idemp. intros q Hq. apply IH. eauto with ast.
  - apply sort_receive_idemp. intros q Hq. apply IH. eauto with ast.
  - apply sort_send_idemp. intros q Hq. apply IH. eauto with ast.
Qed.

(** ** Sorting and typing *)
Lemma closed_sort p pattern : closed_par (sort_par_term p) pattern = closed_par p pattern.
Proof.
  unfold sort_par_term. revert pattern. induction p as [p IH] using par_children_ind. intros b.
  destruct p as [ss rs ns es ms us bs cs lf cu].
  cbn [sort_par closed_par st_term sends receives news exprs matches bundles connectives].
  rewrite !forallb_sort_field; [done|..]; intros x Hx.
  - apply closed_connective_map. intros q Hq. apply IH. eauto with ast.
  - apply closed_bundle_map. intros q Hq. apply IH. eauto with ast.
  - apply closed_match_map. intros q Hq. apply IH. eauto with ast.
  - apply closed_expr_map. intros q Hq. apply IH. eauto with ast.
  - apply IH. eapply new_child; [exact Hx|]. by left.
  - apply closed_receive_map. intros q Hq. apply IH. eauto with ast.
  - apply closed_send_map. intros q Hq. apply IH. eauto with ast.
Qed.

Lemma scoped_sort p depth : well_scoped_par depth (sort_par_term p) = well_scoped_par depth p.
Proof.
  unfold sort_par_term. revert depth. induction p as [p IH] using par_children_ind. intros d.
  destruct p as [ss rs ns es ms us bs cs lf cu].
  cbn [sort_par well_scoped_par st_term sends receives news exprs matches bundles connectives].
  rewrite !forallb_sort_field; [done|..]; intros x Hx.
  - apply scoped_connective_map. intros q Hq. apply IH. eauto with ast.
  - apply scoped_bundle_map. intros q Hq. apply IH. eauto with ast.
  - apply scoped_match_map. intros q Hq. apply IH. eauto with ast.
  - apply scoped_expr_map. intros q Hq. apply IH. eauto with ast.
  - apply IH. eapply new_child; [exact Hx|]. by left.
  - apply scoped_receive_map. intros q Hq. apply IH. eauto with ast.
  - apply scoped_send_map. intros q Hq. apply IH. eauto with ast.
Qed.

(** ** Sorted terms

    [models/src/sorted.rs]: a term in canonical order, made by [Sorted_new]
    only; a decoded term is sorted again. *)
Definition Sorted_new (par : Par) : Par := sort_par_term par.
Definition Sorted_decode {E} (decode : list byte → Result Par E) (bytes : list byte) : Result Par E :=
  par ←? decode bytes; Ok (Sorted_new par).

(** The invariant of the type. *)
Definition Sorted_valid (p : Par) : Prop := p = sort_par_term p.

Lemma Sorted_new_valid par : Sorted_valid (Sorted_new par).
Proof. unfold Sorted_valid, Sorted_new, sort_par_term at 1 2. by rewrite sort_par_idemp. Qed.

(** C7: a canonicalized term satisfies the invariant of its type, [self.0 ==
    sort_par_term(&self.0)], also when it comes from a decoder; and it is
    closed, and well scoped in a context, exactly when the term it was made
    from is. *)
Theorem sorted_is_well_typed {E} (decode : list byte → Result Par E) par bytes ctx :
  Sorted_valid (Sorted_new par) ∧
  match Sorted_decode decode bytes with Ok p => Sorted_valid p | Err _ => True end ∧
  is_closed (Sorted_new par) = is_closed par ∧
  well_scoped ctx (Sorted_new par) = well_scoped ctx par.
Proof.
  split_and!; [apply Sorted_new_valid| |apply closed_sort|apply scoped_sort].
  unfold Sorted_decode. destruct (decode bytes); [apply Sorted_new_valid|done].
Qed.
