(* ===== verification/Congruence.v ===== *)
(** * Structural congruence

    The equivalence that the canonical order is meant to decide (Law 1): two
    terms are congruent when, at every level, the fields of one are those of
    the other in another order.  [N] relates the free counts of the binds. *)

From S2P Require Import Prelude BTree Bytes Trace Ast ParOps Types Sorter SorterSpec.

Fixpoint all2 {A B} (R : A → B → Prop) (l : list A) (k : list B) : Prop :=
  match l, k with
  | [], [] => True
  | a :: l', b :: k' => R a b ∧ all2 R l' k'
  | _, _ => False
  end.
Definition perm_rel {A} (R : A → A → Prop) (l k : list A) : Prop := ∃ k', all2 R l k' ∧ k' ≡ₚ k.

Section Rel.
Context (N : Z → Z → Prop) {P : Type} (R : P → P → Prop).

Definition send_rel (s t : SendF P) : Prop :=
  s_persistent s = s_persistent t ∧ R (s_chan s) (s_chan t) ∧ all2 R (s_data s) (s_data t) ∧
  s_connective_used s = s_connective_used t.
Definition bind_rel (b c : ReceiveBindF P) : Prop :=
  R (rb_source b) (rb_source c) ∧ all2 R (rb_patterns b) (rb_patterns c) ∧
  rb_remainder b = rb_remainder c ∧ N (rb_free_count b) (rb_free_count c).
Definition receive_rel (r t : ReceiveF P) : Prop :=
  r_persistent r = r_persistent t ∧ r_peek r = r_peek t ∧ all2 bind_rel (r_binds r) (r_binds t) ∧
  R (r_body r) (r_body t) ∧ r_bind_count r = r_bind_count t ∧ r_connective_used r = r_connective_used t.
Definition new_rel (n m : NewF P) : Prop :=
  n_bind_count n = n_bind_count m ∧ n_uri n ≡ₚ n_uri m ∧
  all2 (λ a b, a.1 = b.1 ∧ R a.2 b.2) (n_injections n) (n_injections m) ∧ R (n_p n) (n_p m).
Definition case_rel (c d : MatchCaseF P) : Prop :=
  R (mc_pattern c) (mc_pattern d) ∧ R (mc_source c) (mc_source d) ∧ mc_free_count c = mc_free_count d.
Definition match_rel (m n : MatchF P) : Prop :=
  R (m_target m) (m_target n) ∧ all2 case_rel (m_cases m) (m_cases n) ∧ m_connective_used m = m_connective_used n.
Definition bundle_rel (b c : BundleF P) : Prop :=
  b_write_flag b = b_write_flag c ∧ b_read_flag b = b_read_flag c ∧ R (b_body b) (b_body c).
Definition expr_rel (e d : ExprF P) : Prop :=
  match e, d with
  | GBool b, GBool c => b = c
  | GInt i, GInt j | GBigInt i, GBigInt j => i = j
  | GString s, GString t | GUri s, GUri t => s = t
  | GByteArray s, GByteArray t => s = t
  | ENot p, ENot q | ENeg p, ENeg q => R p q
  | EVar v, EVar w => v = w
  | EBin o p1 p2, EBin o' q1 q2 => o = o' ∧ R p1 q1 ∧ R p2 q2
  | EList l, EList k =>
      el_remainder l = el_remainder k ∧ all2 R (el_ps l) (el_ps k) ∧ el_connective_used l = el_connective_used k
  | ETuple l, ETuple k => all2 R (et_ps l) (et_ps k) ∧ et_connective_used l = et_connective_used k
  | ESet l, ESet k =>
      ps_remainder l = ps_remainder k ∧ all2 R (ps_ps l) (ps_ps k) ∧ ps_connective_used l = ps_connective_used k
  | EMap l, EMap k =>
      pm_remainder l = pm_remainder k ∧ all2 (λ a b, R a.1 b.1 ∧ R a.2 b.2) (pm_kvs l) (pm_kvs k) ∧
      pm_connective_used l = pm_connective_used k
  | EMethod l, EMethod k =>
      em_method_name l = em_method_name k ∧ R (em_target l) (em_target k) ∧
      all2 R (em_arguments l) (em_arguments k) ∧ em_connective_used l = em_connective_used k
  | _, _ => False
  end.
Definition connective_rel (c d : ConnectiveF P) : Prop :=
  match c, d with
  | ConnAnd ps, ConnAnd qs | ConnOr ps, ConnOr qs => all2 R ps qs
  | ConnNot p, ConnNot q => R p q
  | VarRef i j, VarRef i' j' => i = i' ∧ j = j'
  | ConnBool b, ConnBool c | ConnInt b, ConnInt c | ConnBigInt b, ConnBigInt c
  | ConnString b, ConnString c | ConnUri b, ConnUri c | ConnByteArray b, ConnByteArray c => b = c
  | ConnEmpty, ConnEmpty => True
  | _, _ => False
  end.
End Rel.

Fixpoint congruent (p q : Par) : Prop :=
  perm_rel (send_rel congruent) (sends p) (sends q) ∧
  perm_rel (receive_rel eq congruent) (receives p) (receives q) ∧
  perm_rel (new_rel congruent) (news p) (news q) ∧
  perm_rel (expr_rel congruent) (exprs p) (exprs q) ∧
  perm_rel (match_rel congruent) (matches p) (matches q) ∧
  unforgeables p ≡ₚ unforgeables q ∧
  perm_rel (bundle_rel congruent) (bundles p) (bundles q) ∧
  perm_rel (connective_rel congruent) (connectives p) (connectives q) ∧
  connective_used p = connective_used q.

(** ** The terms the scores tell apart

    A map is scored by its keys only, a bind without its free count, and an
    empty remainder like an absent one.  [fc] gives the free count of a bind
    from its sorted patterns and its remainder. *)
Section Scored.
Context (fc : list Par → option Var → Z).

Definition scored_bind (scored : Par → bool) (b : ReceiveBind) : bool :=
  forallb scored (rb_patterns b) && scored (rb_source b) &&
  bool_decide (rb_remainder b ≠ Some VarEmpty) &&
  bool_decide (rb_free_count b = fc ((λ p, erase (sort_par_term p)) <$> rb_patterns b) (rb_remainder b)).
Definition scored_expr (scored : Par → bool) (e : Expr) : bool :=
  match e with
  | GBool _ | GInt _ | GBigInt _ | GString _ | GUri _ | GByteArray _ | EVar _ => true
  | ENot p | ENeg p => scored p
  | EBin _ p q => scored p && scored q
  | EList l => forallb scored (el_ps l)
  | ETuple t => forallb scored (et_ps t)
  | ESet s => forallb scored (ps_ps s)
  | EMap _ => false
  | EMethod m => scored (em_target m) && forallb scored (em_arguments m)
  end.
Definition scored_connective (scored : Par → bool) (c : Connective) : bool :=
  match c with
  | ConnAnd ps | ConnOr ps => forallb scored ps
  | ConnNot p => scored p
  | _ => true
  end.

(** The keys of the injections ascend, as those of a [BTreeMap] do. *)
Fixpoint fully_scored (p : Par) : bool :=
  forallb (λ s, fully_scored (s_chan s) && forallb fully_scored (s_data s)) (sends p) &&
  forallb (λ r, forallb (scored_bind fully_scored) (r_binds r) && fully_scored (r_body r)) (receives p) &&
  forallb (λ n, fully_scored (n_p n) && forallb (λ kv, fully_scored kv.2) (n_injections n) &&
                bool_decide (sort_by cmp (n_injections n).*1 = (n_injections n).*1)) (news p) &&
  forallb (scored_expr fully_scored) (exprs p) &&
  forallb (λ m, fully_scored (m_target m) &&
                forallb (λ c, fully_scored (mc_pattern c) && fully_scored (mc_source c)) (m_cases m)) (matches p) &&
  forallb (λ b, fully_scored (b_body b)) (bundles p) &&
  forallb (scored_connective fully_scored) (connectives p).
End Scored.

(** ** Lists and scores *)
Lemma all2_impl {A B} (R R' : A → B → Prop) l k :
  (∀ a b, a ∈ l → b ∈ k → R a b → R' a b) → all2 R l k → all2 R' l k.
Proof.
  revert k. induction l as [|a l IH]; intros [|b k] H; simpl; [done..|]. intros [Ha Hl].
  split; [apply H; [by left|by left|done]|]. apply IH; [|done]. intros ?? ??. apply H; by right.
Qed.
Lemma all2_fmap {A B C} (f : A → C) (h : B → C) l k : f <$> l = h <$> k ↔ all2 (λ a b, f a = h b) l k.
Proof.
  revert k. induction l as [|a l IH]; intros [|b k]; [done..|]. rewrite !fmap_cons. cbn [all2]. rewrite <- IH. split.
  - by intros [= -> ->].
  - by intros [-> ->].
Qed.
Lemma all2_length {A B} (R : A → B → Prop) l k : all2 R l k → length l = length k.
Proof. revert k. induction l as [|a l IH]; intros [|b k]; simpl; [done..|]. intros [_ H]. by rewrite (IH k). Qed.

Lemma fmap_perm_inv {A B} (f : A → B) l k : f <$> l ≡ₚ f <$> k → ∃ k', f <$> l = f <$> k' ∧ k' ≡ₚ k.
Proof.
  revert k. induction l as [|a l IH]; intros k Hp.
  { apply Permutation_nil_l in Hp. destruct k; [|done]. by exists []. }
  assert (f a ∈ f <$> k) as (b & Hb & Hk)%list_elem_of_fmap by (rewrite <- Hp; by left).
  apply list_elem_of_split in Hk as (k1 & k2 & ->).
  destruct (IH (k1 ++ k2)) as (k' & Hk' & Hp').
  { rewrite fmap_cons, fmap_app, fmap_cons, <- Permutation_middle, <- Hb in Hp.
    apply Permutation_cons_inv in Hp. by rewrite fmap_app. }
  exists (b :: k'). rewrite !fmap_cons, Hb, Hk'. split; [done|]. by rewrite Hp', Permutation_middle.
Qed.

Lemma sort_by_fmap {A B} (c : B → B → comparison) (f : A → B) l :
  f <$> sort_by (λ a b, c (f a) (f b)) l = sort_by c (f <$> l).
Proof.
  assert (∀ a l, f <$> insert_by (λ a b, c (f a) (f b)) a l = insert_by c (f a) (f <$> l)) as Hi.
  { clear l. intros a l. induction l as [|b l IH]; [done|]. rewrite fmap_cons. cbn [insert_by].
    destruct (c (f a) (f b)); rewrite ?fmap_cons; [done..|]. by rewrite IH. }
  induction l as [|a l IH]; [done|]. rewrite fmap_cons. simpl. by rewrite Hi, IH.
Qed.

(** ** Agreement

    Equal scores mean related terms, and then equal images under [u]. *)
Definition agree {A B T} (sc : A → T) (R : A → A → Prop) (u : A → B) (x y : A) : Prop :=
  (sc x = sc y ↔ R x y) ∧ (sc x = sc y → u x = u y).
Definition agree_at {A B T} (sc : A → T) (R : A → A → Prop) (u : A → B) (l k : list A) : Prop :=
  ∀ x y, x ∈ l → y ∈ k → agree sc R u x y.

Lemma agree_at_incl {A B T} (sc : A → T) R (u : A → B) l k l' k' :
  l' ⊆ l → k' ⊆ k → agree_at sc R u l k → agree_at sc R u l' k'.
Proof. intros Hl Hk H x y Hx Hy. apply H; [by apply Hl|by apply Hk]. Qed.

Lemma agree_list {A B T} (sc : A → T) R (u : A → B) l k :
  agree_at sc R u l k → agree (fmap sc : list A → list T) (all2 R) (fmap u) l k.
Proof.
  intros H. unfold agree. rewrite !all2_fmap. split; [split|]; apply all2_impl; intros a b Ha Hb; by apply H.
Qed.

(** A field of a process: equal score lists after sorting. *)
Section Field.
Context {T B : Type} (f : T → ScoredTerm T) (R : T → T → Prop) (u : T → B).
Notation scores l := (st_score <$> sort_scores (f <$> l)).
Notation terms l := (st_term <$> sort_scores (f <$> l)).

Lemma scores_sort_by (l : list T) : scores l = sort_by cmp ((λ x, st_score (f x)) <$> l).
Proof. unfold sort_scores. by rewrite (sort_by_fmap cmp st_score), <- list_fmap_compose. Qed.

Lemma field_agree l k :
  agree_at (λ x, st_score (f x)) R (λ x, u (st_term (f x))) l k →
  agree (λ l, scores l) (perm_rel R) (λ l, u <$> terms l) l k.
Proof.
  intros H. split; [split|].
  - rewrite !scores_sort_by. intros E.
    destruct (fmap_perm_inv (λ x, st_score (f x)) l k) as (k' & Hk' & Hp).
    { by rewrite <- (sort_by_perm cmp (_ <$> l)), E, sort_by_perm. }
    exists k'. split; [|done]. apply all2_fmap in Hk'. revert Hk'. apply all2_impl. intros x y Hx Hy.
    apply H; [done|]. by rewrite <- Hp.
  - intros (k' & Hl & Hp). rewrite !scores_sort_by. apply (sort_by_key_eq id); [|done].
    rewrite <- Hp. apply (reflexive_eq (R := Permutation)), all2_fmap. revert Hl. apply all2_impl. intros x y Hx Hy.
    apply H; [done|]. by rewrite <- Hp.
  - rewrite <- !(list_fmap_compose st_term u), !all2_fmap. apply all2_impl.
    intros a b (x & -> & Hx)%elem_of_sort_scores%list_elem_of_fmap (y & -> & Hy)%elem_of_sort_scores%list_elem_of_fmap.
    by apply H.
Qed.
End Field.

(** Two parts told apart by a test of their elements. *)
Lemma app_split {A} (T : A → bool) l1 l2 k1 k2 :
  (∀ x, x ∈ l1 → T x = true) → (∀ x, x ∈ k1 → T x = true) →
  (∀ x, x ∈ l2 → T x = false) → (∀ x, x ∈ k2 → T x = false) →
  l1 ++ l2 = k1 ++ k2 ↔ l1 = k1 ∧ l2 = k2.
Proof.
  intros Hl1 Hk1 Hl2 Hk2. split; [|by intros [-> ->]]. revert k1 Hl1 Hk1.
  induction l1 as [|x l1 IH]; intros [|y k1] Hl1 Hk1; simpl; intros E.
  - done.
  - subst l2. specialize (Hk1 y ltac:(by left)). specialize (Hl2 y ltac:(by left)). congruence.
  - subst k2. specialize (Hl1 x ltac:(by left)). specialize (Hk2 x ltac:(by left)). congruence.
  - injection E as -> E. destruct (IH k1) as [-> ->]; [..|done|done].
    + intros z Hz. apply Hl1. by right.
    + intros z Hz. apply Hk1. by right.
Qed.

Lemma sort_by_fst {A B} `{!Ord A, !OrdSpec A} (l : list (A * B)) :
  sort_by cmp l.*1 = l.*1 → sort_by (λ a b, cmp a.1 b.1) l = l.
Proof.
  intros E. apply sort_by_id. assert (StronglySorted (cmp_le cmp) l.*1) as Hs.
  { rewrite <- E. apply (sort_by_sorted id). }
  clear E.
  induction l as [|[a b] l IH]; [constructor|]. rewrite fmap_cons in Hs. apply StronglySorted_inv in Hs as [Hs Ha].
  constructor; [by apply IH|]. exact (proj1 (Forall_fmap fst _ l) Ha).
Qed.

(** ** The matchers *)
Lemma node_eq l k : Node l = Node k ↔ l = k.
Proof. naive_solver. Qed.
Lemma node_score_eq s l t k : node_score s l = node_score t k ↔ s = t ∧ l = k.
Proof. unfold node_score, leaf_i64. naive_solver. Qed.
Lemma cons_eq {A} (x y : A) l k : x :: l = y :: k ↔ x = y ∧ l = k.
Proof. naive_solver. Qed.
Lemma snoc_eq {A} (x y : A) l k : l ++ [x] = k ++ [y] ↔ l = k ∧ x = y.
Proof. split; [apply app_inj_tail|by intros [-> ->]]. Qed.
Lemma snoc3_eq {A} (a b c x y z : A) l k :
  l ++ [a; b; c] = k ++ [x; y; z] ↔ l = k ∧ a = x ∧ b = y ∧ c = z.
Proof.
  assert (∀ (l : list A) a b c, l ++ [a; b; c] = ((l ++ [a]) ++ [b]) ++ [c]) as E by (intros; by rewrite <- !app_assoc).
  rewrite !E, !snoc_eq. tauto.
Qed.
Lemma leaf_eq i j : leaf_i64 i = leaf_i64 j ↔ i = j.
Proof. unfold leaf_i64. naive_solver. Qed.
Lemma str_leaf_eq s t : Leaf (AStr s) = Leaf (AStr t) ↔ s = t.
Proof. naive_solver. Qed.
Lemma flag_eq b c : flag b = flag c ↔ b = c.
Proof. unfold flag. rewrite leaf_eq. destruct b, c; naive_solver. Qed.
Lemma var_score_eq v w : var_score v = var_score w ↔ v = w.
Proof.
  split; [|by intros ->].
  destruct v, w; simpl; unfold leaves, BOUND_VAR, FREE_VAR, WILDCARD; simpl; unfold leaf_i64; congruence.
Qed.
Lemma remainder_score_eq r s : remainder_score r = remainder_score s ↔ r = s.
Proof.
  destruct r as [v|], s as [w|]; simpl; rewrite ?var_score_eq; [naive_solver|..|done];
    (split; [|done]); [destruct v|destruct w]; done.
Qed.
Lemma bin_op_score_eq o o' : bin_op_score o = bin_op_score o' ↔ o = o'.
Proof. split; [|by intros ->]. destruct o, o'; simpl; congruence. Qed.

(** Score equations as equations of their parts. *)
Ltac score_eqs :=
  rewrite ?node_eq, ?node_score_eq, ?cons_eq, ?snoc_eq, ?leaf_eq, ?flag_eq, ?remainder_score_eq, ?var_score_eq.
Ltac use_agree H :=
  let H1 := fresh "HR" in let H2 := fresh "HE" in destruct H as [H1 H2].

Section Matchers.
Context {P Q : Type} (srt : P → ScoredTerm P) (C : P → P → Prop) (er : P → Q).
Notation sc := (λ q, st_score (srt q)).
Notation e := (λ q, er (st_term (srt q))).
Notation agrees := (agree_at sc C e).
Notation agree1 := (agree sc C e).

Lemma agree_fmap l k : agrees l k →
  (sc <$> l = sc <$> k ↔ all2 C l k) ∧
  (sc <$> l = sc <$> k → er <$> ((λ q, st_term (srt q)) <$> l) = er <$> ((λ q, st_term (srt q)) <$> k)).
Proof. intros H%agree_list. rewrite <- !list_fmap_compose. exact H. Qed.

Lemma send_agree s t : agrees (send_children s) (send_children t) →
  agree (λ s, st_score (sort_send srt s)) (send_rel C) (λ s, send_map no_free er (st_term (sort_send srt s))) s t.
Proof.
  intros H. assert (agree1 (s_chan s) (s_chan t)) as [HR HE] by (apply H; by left).
  destruct (agree_fmap (s_data s) (s_data t)) as [HRs HEs].
  { eapply agree_at_incl; [..|exact H]; by intros ??; right. }
  unfold agree, send_rel, sort_send, send_map, no_free. simpl. score_eqs. split; [tauto|].
  intros (_ & Hp & Hc & Hd & Hu). by rewrite (HE Hc), (HEs Hd), Hp, Hu.
Qed.

Lemma case_agree s t : agrees (case_children s) (case_children t) →
  agree (λ s, st_score (sort_match_case srt s)) (case_rel C) (λ s, case_map er (st_term (sort_match_case srt s))) s t.
Proof.
  intros H. assert (agree1 (mc_pattern s) (mc_pattern t)) as [HR HE] by (apply H; by left).
  assert (agree1 (mc_source s) (mc_source t)) as [HR' HE'] by (apply H; right; by left).
  unfold agree, case_rel, sort_match_case, case_map. simpl. score_eqs. split; [tauto|].
  intros (Hp & Hs & Hn & _). by rewrite (HE Hp), (HE' Hs), Hn.
Qed.

Lemma bundle_agree s t : agrees (bundle_children s) (bundle_children t) →
  agree (λ s, st_score (sort_bundle srt s)) (bundle_rel C) (λ s, bundle_map er (st_term (sort_bundle srt s))) s t.
Proof.
  intros H. assert (agree1 (b_body s) (b_body t)) as [HR HE] by (apply H; by left).
  assert (bundle_score s = bundle_score t ↔ b_write_flag s = b_write_flag t ∧ b_read_flag s = b_read_flag t) as Hf.
  { destruct s as [? [] []], t as [? [] []]; unfold bundle_score; simpl; naive_solver. }
  unfold agree, bundle_rel, sort_bundle, bundle_map. simpl. score_eqs. rewrite Hf. split; [tauto|].
  intros ([Hw Hr] & Hb & _). by rewrite (HE Hb), Hw, Hr.
Qed.

Definition bind_remainder_score (r : option Var) : Tree :=
  match r with Some v => var_score v | None => leaf_i64 ABSENT end.
Lemma bind_remainder_eq r s : r ≠ Some VarEmpty → s ≠ Some VarEmpty →
  bind_remainder_score r = bind_remainder_score s ↔ r = s.
Proof.
  intros Hr Hs. destruct r as [v|], s as [w|]; simpl; rewrite ?var_score_eq; [naive_solver|..|done];
    (split; [|done]); [destruct v|destruct w]; done.
Qed.

(** The conditions on two binds: see [scored_bind]. *)
Definition binds_ok (s t : ReceiveBindF P) : Prop :=
  rb_remainder s ≠ Some VarEmpty ∧ rb_remainder t ≠ Some VarEmpty ∧
  (e <$> rb_patterns s = e <$> rb_patterns t → rb_remainder s = rb_remainder t → rb_free_count s = rb_free_count t).

Lemma bind_agree s t : agrees (bind_children s) (bind_children t) → binds_ok s t →
  agree (λ s, st_score (sort_receive_bind srt s)) (bind_rel eq C) (λ s, bind_map er (st_term (sort_receive_bind srt s))) s t.
Proof.
  intros H (Hs & Ht & Hn). assert (agree1 (rb_source s) (rb_source t)) as [HR HE] by (apply H; by left).
  destruct (agree_fmap (rb_patterns s) (rb_patterns t)) as [HRs HEs].
  { eapply agree_at_incl; [..|exact H]; by intros ??; right. }
  rewrite <- !list_fmap_compose in HEs.
  unfold agree, bind_rel, sort_receive_bind, bind_map. simpl. fold (bind_remainder_score (rb_remainder s)).
  fold (bind_remainder_score (rb_remainder t)). score_eqs. rewrite bind_remainder_eq by done. split; [tauto|].
  intros (Hc & Hd & Hr). by rewrite (HE Hc), <- !list_fmap_compose, (HEs Hd), Hr, (Hn (HEs Hd) Hr).
Qed.

Lemma receive_agree s t : agrees (receive_children s) (receive_children t) →
  (∀ b c, b ∈ r_binds s → c ∈ r_binds t → binds_ok b c) →
  agree (λ s, st_score (sort_receive srt s)) (receive_rel eq C) (λ s, receive_map no_free er (st_term (sort_receive srt s))) s t.
Proof.
  intros H Hok. assert (agree1 (r_body s) (r_body t)) as [HR HE] by (apply H; by left).
  destruct (agree_list (λ b, st_score (sort_receive_bind srt b)) (bind_rel eq C)
    (λ b, bind_map er (st_term (sort_receive_bind srt b))) (r_binds s) (r_binds t)) as [HRs HEs].
  { intros b c Hb Hc. apply bind_agree; [|by apply Hok].
    eapply agree_at_incl; [..|exact H]; intros q Hq; right; by eapply elem_of_bind_in. }
  unfold agree, receive_rel, sort_receive, receive_map, no_free.
  cbn [st_score st_term app r_binds r_body r_persistent r_peek r_bind_count r_connective_used].
  score_eqs. rewrite snoc3_eq. score_eqs. split; [tauto|].
  intros (_ & Hp & Hk & Hb & Hd & Hn & Hu). rewrite (HE Hd), Hp, Hk, Hn, Hu, <- !list_fmap_compose. f_equal. exact (HEs Hb).
Qed.

Lemma match_agree s t : agrees (match_children s) (match_children t) →
  agree (λ s, st_score (sort_match srt s)) (match_rel C) (λ s, match_map no_free er (st_term (sort_match srt s))) s t.
Proof.
  intros H. assert (agree1 (m_target s) (m_target t)) as [HR HE] by (apply H; by left).
  destruct (agree_list (λ b, st_score (sort_match_case srt b)) (case_rel C)
    (λ b, case_map er (st_term (sort_match_case srt b))) (m_cases s) (m_cases t)) as [HRs HEs].
  { intros b c Hb Hc. apply case_agree.
    eapply agree_at_incl; [..|exact H]; intros q Hq; right; by eapply elem_of_bind_in. }
  unfold agree, match_rel, sort_match, match_map, no_free.
  cbn [st_score st_term app m_target m_cases m_connective_used]. score_eqs. split; [tauto|].
  intros (_ & Ht & Hb & Hu). rewrite (HE Ht), Hu, <- !list_fmap_compose. f_equal. exact (HEs Hb).
Qed.

(** The first leaf of a score. *)
Definition tag (t : Tree) : option Z := match t with Node (Leaf (AInt z) :: _) => Some z | _ => None end.

Lemma connective_agree s t : agrees (connective_children s) (connective_children t) →
  agree (λ s, st_score (sort_connective srt s)) (connective_rel C)
    (λ s, connective_map er (st_term (sort_connective srt s))) s t.
Proof.
  intros H. unfold agree, sort_connective. cbn [st_score st_term].
  destruct (decide (tag (st_score (sort_connective srt s)) = tag (st_score (sort_connective srt t)))) as [Ht|Ht].
  2: { assert (¬ st_score (sort_connective srt s) = st_score (sort_connective srt t)) as Hn by congruence.
       unfold sort_connective in Hn, Ht. split; [|tauto]. split; [tauto|]. intros HR. exfalso. apply Ht. by destruct s, t. }
  destruct s as [ps|ps|p| | | | | | | |], t as [qs|qs|q| | | | | | | |]; try done; simpl in *; unfold leaves; simpl; score_eqs.
  - destruct (agree_fmap ps qs H) as [HR HE]. split; [tauto|]. intros [_ Hq]. by rewrite (HE Hq).
  - destruct (agree_fmap ps qs H) as [HR HE]. split; [tauto|]. intros [_ Hq]. by rewrite (HE Hq).
  - assert (agree1 p q) as [HR HE] by (apply H; by left). split; [tauto|]. intros (_ & Hq & _). by rewrite (HE Hq).
  - split; [tauto|]. by intros (_ & -> & -> & _).
  - unfold conn_flag. destruct b, b0; naive_solver.
  - unfold conn_flag. destruct b, b0; naive_solver.
  - unfold conn_flag. destruct b, b0; naive_solver.
  - unfold conn_flag. destruct b, b0; naive_solver.
  - unfold conn_flag. destruct b, b0; naive_solver.
  - unfold conn_flag. destruct b, b0; naive_solver.
Qed.

Definition not_map (d : ExprF P) : Prop := match d with EMap _ => False | _ => True end.

Lemma expr_tag_diff s t : tag (st_score (sort_expr srt s)) ≠ tag (st_score (sort_expr srt t)) → ¬ expr_rel C s t.
Proof. intros Ht HR. apply Ht. destruct s, t; try done. simpl in HR. by destruct HR as [-> _]. Qed.

Lemma expr_agree s t : agrees (expr_children s) (expr_children t) → not_map s → not_map t →
  agree (λ s, st_score (sort_expr srt s)) (expr_rel C) (λ s, expr_map no_free er (st_term (sort_expr srt s))) s t.
Proof.
  intros H Hs Ht0. unfold agree.
  destruct (decide (tag (st_score (sort_expr srt s)) = tag (st_score (sort_expr srt t)))) as [Ht|Ht].
  2: { assert (¬ st_score (sort_expr srt s) = st_score (sort_expr srt t)) as Hn by congruence.
       pose proof (expr_tag_diff _ _ Ht). tauto. }
  destruct s as [| | | | | |p|p| |o p p'|l|l|l|l|l], t as [| | | | | |q|q| |o' q q'|k|k|k|k|k]; try done;
    try (exfalso; clear -Ht; first [destruct o; discriminate|destruct o'; discriminate]);
    clear Ht; unfold sort_expr; simpl in *; unfold leaves, no_free; simpl; score_eqs.
  - destruct b, b0; naive_solver.
  - naive_solver.
  - naive_solver.
  - naive_solver.
  - naive_solver.
  - naive_solver.
  - assert (agree1 p q) as [HR HE] by (apply H; by left). split; [tauto|]. intros (_ & Hq & _). by rewrite (HE Hq).
  - assert (agree1 p q) as [HR HE] by (apply H; by left). split; [tauto|]. intros (_ & Hq & _). by rewrite (HE Hq).
  - naive_solver.
  - assert (agree1 p q) as [HR HE] by (apply H; by left).
    assert (agree1 p' q') as [HR' HE'] by (apply H; right; by left). rewrite bin_op_score_eq. split; [tauto|].
    intros (-> & Hq & Hq' & _). by rewrite (HE Hq), (HE' Hq').
  - destruct (agree_fmap (el_ps l) (el_ps k) H) as [HR HE]. split; [tauto|]. intros (_ & Hr & Hq & Hu).
    by rewrite (HE Hq), Hr, Hu.
  - destruct (agree_fmap (et_ps l) (et_ps k) H) as [HR HE]. split; [tauto|]. intros (_ & Hq & Hu).
    by rewrite (HE Hq), Hu.
  - destruct (agree_fmap (ps_ps l) (ps_ps k) H) as [HR HE]. split; [tauto|]. intros (_ & Hr & Hq & Hu).
    by rewrite (HE Hq), Hr, Hu.
  - assert (agree1 (em_target l) (em_target k)) as [HR HE] by (apply H; by left).
    destruct (agree_fmap (em_arguments l) (em_arguments k)) as [HRs HEs].
    { eapply agree_at_incl; [..|exact H]; by intros ??; right. }
    rewrite str_leaf_eq. split; [tauto|]. intros (_ & Hn & Hq & Ha & Hu). by rewrite (HE Hq), (HEs Ha), Hn, Hu.
Qed.

Definition uri_score (uri : list Str) : list Tree :=
  match uri with [] => [leaf_i64 ABSENT] | _ => (λ u, Leaf (AStr u)) <$> uri end.
Definition injections_score (inj : list (Str * ScoredTerm P)) : list Tree :=
  match inj with
  | [] => [leaf_i64 ABSENT]
  | _ => (λ kst, Node [Leaf (AStr kst.1); st_score kst.2]) <$> inj
  end.
Definition is_str (t : Tree) : bool := match t with Leaf (AStr _) => true | _ => false end.

Lemma injections_not_str inj x : x ∈ injections_score inj → is_str x = false.
Proof.
  destruct inj as [|y inj]; unfold injections_score; [by intros ->%list_elem_of_singleton|].
  by intros (z & -> & _)%list_elem_of_fmap.
Qed.
Lemma injections_score_eq i j : injections_score i = injections_score j ↔
  (λ kst, Node [Leaf (AStr kst.1); st_score kst.2]) <$> i = (λ kst, Node [Leaf (AStr kst.1); st_score kst.2]) <$> j.
Proof. destruct i, j; done. Qed.

Lemma new_score_parts u u' i j : uri_score u ++ injections_score i = uri_score u' ++ injections_score j ↔
  u = u' ∧ injections_score i = injections_score j.
Proof.
  assert (∀ u x, x ∈ (λ u, Leaf (AStr u)) <$> u → is_str x = true) as Hs by by intros ?? (z & -> & _)%list_elem_of_fmap.
  destruct u as [|a u], u' as [|a' u']; unfold uri_score.
  - simpl. score_eqs. tauto.
  - split; [done|by intros [? _]].
  - split; [done|by intros [? _]].
  - rewrite (app_split is_str) by first [apply Hs|apply injections_not_str]. split; [|by intros [[= -> ->] ->]].
    intros [E ->]. split; [|done]. apply (list_fmap_eq_inj (λ u, Leaf (AStr u))) in E; [done|]. by intros ?? [= ->].
Qed.

Lemma injections_agree i j : agrees i.*2 j.*2 →
  let pairs (l : list (Str * P)) := (λ kv, (kv.1, srt kv.2)) <$> l in
  (injections_score (pairs i) = injections_score (pairs j) ↔ all2 (λ a b, a.1 = b.1 ∧ C a.2 b.2) i j) ∧
  (injections_score (pairs i) = injections_score (pairs j) → 
   (λ kv, (kv.1, e kv.2)) <$> i = (λ kv, (kv.1, e kv.2)) <$> j).
Proof.
  intros H pairs. unfold pairs. rewrite injections_score_eq, <- !list_fmap_compose, !all2_fmap.
  assert (∀ a b, a ∈ i → b ∈ j → agree1 a.2 b.2) as Ha.
  { intros [? a] [? b] ??. apply H; apply list_elem_of_fmap; eexists; by split. }
  split; [split|]; apply all2_impl; intros a b Hi Hj; destruct (Ha a b Hi Hj) as [HR HE]; simpl.
  - rewrite node_eq. intros [= -> E]. split; [done|]. by apply HR.
  - intros [-> E]. by rewrite (proj2 HR E).
  - intros [= -> E]. by rewrite (HE E).
Qed.

Lemma new_agree s t : agrees (new_children s) (new_children t) →
  sort_by cmp (n_injections s).*1 = (n_injections s).*1 → sort_by cmp (n_injections t).*1 = (n_injections t).*1 →
  agree (λ s, st_score (sort_new srt s)) (new_rel C) (λ s, new_map no_free er (st_term (sort_new srt s))) s t.
Proof.
  intros H Hs Ht. assert (agree1 (n_p s) (n_p t)) as [HR HE] by (apply H; by left).
  destruct (injections_agree (n_injections s) (n_injections t)) as [HRs HEs].
  { eapply agree_at_incl; [..|exact H]; by intros ??; right. }
  assert (∀ n : NewF P, sort_by cmp (n_injections n).*1 = (n_injections n).*1 →
    sort_by (λ a b, cmp a.1 b.1) ((λ kv, (kv.1, srt kv.2)) <$> n_injections n) =
    (λ kv, (kv.1, srt kv.2)) <$> n_injections n) as Hsort.
  { intros n Hn. apply sort_by_fst. by rewrite <- list_fmap_compose. }
  assert (sort_by cmp (n_uri s) = sort_by cmp (n_uri t) ↔ n_uri s ≡ₚ n_uri t) as Hu.
  { split; [|by intros; apply (sort_by_key_eq id)]. intros E.
    by rewrite <- (sort_by_perm cmp (n_uri s)), E, sort_by_perm. }
  unfold agree, new_rel, sort_new, new_map, no_free. cbn zeta. rewrite !Hsort by done.
  cbn [st_score st_term n_bind_count n_p n_uri n_injections app].
  repeat match goal with |- context [match sort_by cmp ?u with [] => _ | _ => _ end] =>
    fold (uri_score (sort_by cmp u)) end.
  repeat match goal with |- context [match (?f <$> ?u) with [] => [leaf_i64 ABSENT] | _ => _ end] =>
    fold (injections_score (f <$> u)) end.
  rewrite !app_assoc. score_eqs. rewrite new_score_parts, Hu. split; [tauto|].
  intros (_ & Hb & [Hq Hi] & Hp). rewrite (HE Hp), Hb, (proj2 Hu Hq), <- !list_fmap_compose. f_equal. exact (HEs Hi).
Qed.
End Matchers.

(** ** Processes *)

(** The field a score belongs to. *)
Definition field_class (t : Tree) : Z :=
  match tag t with
  | None => 6
  | Some z =>
      if z =? SEND then 0 else if z =? RECEIVE then 1 else if z =? NEW then 3 else if z =? MATCH then 4
      else if (BUNDLE_EQUIV <=? z) && (z <=? BUNDLE_READ_WRITE) then 5
      else if (CONNECTIVE_NOT <=? z) && (z <=? CONNECTIVE_BIG_INT) then 6
      else if existsb (Z.eqb z) [ABSENT; PRIVATE; DEPLOYER_AUTH; DEPLOY_ID; SYS_AUTH_TOKEN] then 7
      else 2
  end.

Notation scores f l := (st_score <$> sort_scores (f <$> l)).
Definition in_class {T} (i : Z) (f : T → ScoredTerm T) : Prop := ∀ x, field_class (st_score (f x)) = i.

Lemma send_class : in_class 0 (sort_send sort_par).
Proof. done. Qed.
Lemma receive_class : in_class 1 (sort_receive sort_par).
Proof. done. Qed.
Lemma expr_class : in_class 2 (sort_expr sort_par).
Proof. by intros [| | | | | | | | |[]| | | | |]. Qed.
Lemma new_class : in_class 3 (sort_new sort_par).
Proof. done. Qed.
Lemma match_class : in_class 4 (sort_match sort_par).
Proof. done. Qed.
Lemma bundle_class : in_class 5 (sort_bundle sort_par).
Proof. by intros [? [] []]. Qed.
Lemma connective_class : in_class 6 (sort_connective sort_par).
Proof. by intros []. Qed.
Lemma unforgeable_class : in_class 7 sort_unforgeable.
Proof. by intros []. Qed.

Lemma elem_of_scores {T} i (f : T → ScoredTerm T) l x : in_class i f → x ∈ scores f l → field_class x = i.
Proof.
  intros Hf (y & -> & (z & -> & _)%elem_of_sort_scores%list_elem_of_fmap)%list_elem_of_fmap. apply Hf.
Qed.

(** Peel the first field off two score lists. *)
Definition above (i : Z) (l : list Tree) : Prop := ∀ x, x ∈ l → i < field_class x.

Lemma scores_split {T} i (f : T → ScoredTerm T) l k l2 k2 :
  in_class i f → above i l2 → above i k2 →
  scores f l ++ l2 = scores f k ++ k2 ↔ scores f l = scores f k ∧ l2 = k2.
Proof.
  intros Hf Hl Hk. apply (app_split (λ x, field_class x =? i)).
  1,2: intros x Hx; apply Z.eqb_eq; by eapply elem_of_scores.
  1,2: intros x Hx; apply Z.eqb_neq; first [apply Hl in Hx|apply Hk in Hx]; lia.
Qed.

Lemma above_app i l k : above i l → above i k → above i (l ++ k).
Proof. intros Hl Hk x [Hx|Hx]%elem_of_app; auto. Qed.
Lemma above_scores {T} i j (f : T → ScoredTerm T) l : in_class j f → i < j → above i (scores f l).
Proof. intros Hf Hij x Hx. by rewrite (elem_of_scores j f l x). Qed.
Create HintDb classes.
#[export] Hint Resolve send_class receive_class expr_class new_class match_class bundle_class
  connective_class unforgeable_class above_app above_scores : classes.
#[export] Hint Extern 1 (_ < _) => lia : classes.

(** Equal scores of processes are equal scores of their fields. *)
Lemma par_score_eq p q : st_score (sort_par p) = st_score (sort_par q) ↔
  scores (sort_send sort_par) (sends p) = scores (sort_send sort_par) (sends q) ∧
  scores (sort_receive sort_par) (receives p) = scores (sort_receive sort_par) (receives q) ∧
  scores (sort_expr sort_par) (exprs p) = scores (sort_expr sort_par) (exprs q) ∧
  scores (sort_new sort_par) (news p) = scores (sort_new sort_par) (news q) ∧
  scores (sort_match sort_par) (matches p) = scores (sort_match sort_par) (matches q) ∧
  scores (sort_bundle sort_par) (bundles p) = scores (sort_bundle sort_par) (bundles q) ∧
  scores (sort_connective sort_par) (connectives p) = scores (sort_connective sort_par) (connectives q) ∧
  scores sort_unforgeable (unforgeables p) = scores sort_unforgeable (unforgeables q) ∧
  connective_used p = connective_used q.
Proof.
  destruct p as [ss rs ns es ms us bs cs lf cu], q as [ss' rs' ns' es' ms' us' bs' cs' lf' cu'].
  cbn [sort_par st_score sends receives news exprs matches unforgeables bundles connectives connective_used].
  rewrite node_score_eq, !app_assoc, snoc_eq, flag_eq, <- !app_assoc.
  rewrite (scores_split _ _ _ _ _ _ send_class) by eauto 30 with classes.
  rewrite (scores_split _ _ _ _ _ _ receive_class) by eauto 30 with classes.
  rewrite (scores_split _ _ _ _ _ _ expr_class) by eauto 30 with classes.
  rewrite (scores_split _ _ _ _ _ _ new_class) by eauto 30 with classes.
  rewrite (scores_split _ _ _ _ _ _ match_class) by eauto 30 with classes.
  rewrite (scores_split _ _ _ _ _ _ bundle_class) by eauto 30 with classes.
  rewrite (scores_split _ _ _ _ _ _ connective_class) by eauto 30 with classes.
  tauto.
Qed.

(** ** Well scored terms are told apart *)
Section Main.
Context (fc : list Par → option Var → Z).
Notation scored := (fully_scored fc).

Lemma scored_child p q : scored p = true → q ∈ par_children p → scored q = true.
Proof.
  destruct p as [ss rs ns es ms us bs cs lf cu].
  cbn [fully_scored sends receives news exprs matches bundles connectives].
  rewrite !andb_true_iff, !forallb_elem. intros ((((((Hs & Hr) & Hn) & He) & Hm) & Hb) & Hc).
  rewrite elem_of_par_children. cbn [sends receives news exprs matches bundles connectives].
  intros [(x & Hx & Hq)|[(x & Hx & Hq)|[(x & Hx & Hq)|[(x & Hx & Hq)|[(x & Hx & Hq)|[(x & Hx & Hq)|(x & Hx & Hq)]]]]]].
  - specialize (Hs x Hx). apply andb_true_iff in Hs as [H1 H2]. rewrite forallb_elem in H2.
    apply elem_of_cons in Hq as [->|Hq]; auto.
  - specialize (Hr x Hx). apply andb_true_iff in Hr as [H1 H2]. rewrite forallb_elem in H1.
    apply elem_of_cons in Hq as [->|(b & Hq & Hb')%list_elem_of_bind]; [done|].
    specialize (H1 b Hb'). unfold scored_bind in H1. rewrite !andb_true_iff, forallb_elem in H1.
    apply elem_of_cons in Hq as [->|Hq]; [tauto|]. by apply H1.
  - specialize (Hn x Hx). rewrite !andb_true_iff, forallb_elem in Hn.
    apply elem_of_cons in Hq as [->|(kv & -> & Hq)%list_elem_of_fmap]; [tauto|]. by apply Hn.
  - specialize (He x Hx). destruct x as [| | | | | |p|p| |op p1 p2|l|l|l|l|l]; simpl in He, Hq;
      rewrite ?andb_true_iff, ?forallb_elem in He; try (by apply elem_of_nil in Hq); auto.
    + by apply list_elem_of_singleton in Hq as ->.
    + by apply list_elem_of_singleton in Hq as ->.
    + apply elem_of_cons in Hq as [->|Hq%list_elem_of_singleton]; [|subst]; tauto.
    + done.
    + apply elem_of_cons in Hq as [->|Hq]; [tauto|]. by apply He.
  - specialize (Hm x Hx). rewrite andb_true_iff, forallb_elem in Hm. destruct Hm as [H1 H2].
    apply elem_of_cons in Hq as [->|(b & Hq & Hb')%list_elem_of_bind]; [done|].
    specialize (H2 b Hb'). rewrite andb_true_iff in H2.
    apply elem_of_cons in Hq as [->|Hq%list_elem_of_singleton]; [|subst]; tauto.
  - specialize (Hb x Hx). by apply list_elem_of_singleton in Hq as ->.
  - specialize (Hc x Hx). destruct x; simpl in Hc, Hq; rewrite ?forallb_elem in Hc;
      try (by apply elem_of_nil in Hq); auto. by apply list_elem_of_singleton in Hq as ->.
Qed.

Lemma scored_fields p : scored p = true →
  (∀ r, r ∈ receives p → ∀ b, b ∈ r_binds r → rb_remainder b ≠ Some VarEmpty ∧
     rb_free_count b = fc ((λ p, erase (sort_par_term p)) <$> rb_patterns b) (rb_remainder b)) ∧
  (∀ n, n ∈ news p → sort_by cmp (n_injections n).*1 = (n_injections n).*1) ∧
  (∀ e, e ∈ exprs p → not_map e).
Proof.
  destruct p as [ss rs ns es ms us bs cs lf cu].
  cbn [fully_scored sends receives news exprs matches bundles connectives].
  rewrite !andb_true_iff, !forallb_elem. intros ((((((Hs & Hr) & Hn) & He) & Hm) & Hb) & Hc). split_and!.
  - intros r Hr' b Hb'. specialize (Hr r Hr'). rewrite andb_true_iff, forallb_elem in Hr. destruct Hr as [Hr _].
    specialize (Hr b Hb'). unfold scored_bind in Hr. rewrite !andb_true_iff, !bool_decide_eq_true in Hr. tauto.
  - intros n Hn'. specialize (Hn n Hn'). rewrite !andb_true_iff, bool_decide_eq_true in Hn. tauto.
  - intros e He'. specialize (He e He'). by destruct e.
Qed.

Lemma unforgeable_scores us us' : scores sort_unforgeable us = scores sort_unforgeable us' ↔ us ≡ₚ us'.
Proof.
  assert (∀ u v, st_score (sort_unforgeable u) = st_score (sort_unforgeable v) ↔ u = v) as Hi.
  { intros u v. split; [|by intros ->]. destruct u, v; simpl; rewrite node_score_eq; intros [? E]; simplify_eq; done. }
  destruct (field_agree sort_unforgeable eq id us us') as [-> _].
  { intros u v _ _. split; [apply Hi|]. intros ->%Hi. done. }
  unfold perm_rel. split.
  - intros (k & Hk & Hp). assert (us = k) as ->; [|done].
    rewrite <- (list_fmap_id us), <- (list_fmap_id k). by apply all2_fmap.
  - intros Hp. exists us. split; [|done]. by apply (all2_fmap id id).
Qed.
Lemma unforgeable_terms us us' : scores sort_unforgeable us = scores sort_unforgeable us' →
  st_term <$> sort_scores (sort_unforgeable <$> us) = st_term <$> sort_scores (sort_unforgeable <$> us').
Proof.
  intros E. assert (sort_scores (sort_unforgeable <$> us) = sort_scores (sort_unforgeable <$> us')) as ->; [|done].
  apply unforgeable_scores in E. unfold sort_scores. apply sort_by_key_eq; [by rewrite E|].
  intros a b (u & -> & _)%list_elem_of_fmap (v & -> & _)%list_elem_of_fmap.
  destruct u, v; simpl; rewrite node_score_eq; intros [? E']; simplify_eq; done.
Qed.

Lemma scored_agree p q : scored p = true → scored q = true →
  agree (λ p, st_score (sort_par p)) congruent (λ p, erase (st_term (sort_par p))) p q.
Proof.
  revert q. induction p as [p IH] using par_children_ind. intros q Hp Hq.
  assert (agree_at (λ p, st_score (sort_par p)) congruent (λ p, erase (st_term (sort_par p)))
    (par_children p) (par_children q)) as Hc.
  { intros x y Hx Hy. apply IH; [done|by apply (scored_child p)|by apply (scored_child q)]. }
  destruct (scored_fields p Hp) as (Hpr & Hpn & Hpe). destruct (scored_fields q Hq) as (Hqr & Hqn & Hqe).
  clear IH Hp Hq.
  assert (∀ l k, l ⊆ par_children p → k ⊆ par_children q → agree_at (λ p, st_score (sort_par p)) congruent
    (λ p, erase (st_term (sort_par p))) l k) as Hsub by (intros l k ??; by eapply agree_at_incl).
  destruct (field_agree (sort_send sort_par) (send_rel congruent) (send_map no_free erase) (sends p) (sends q)) as [Rs Es].
  { intros x y Hx Hy. apply send_agree, Hsub; intros ??; eauto with ast. }
  destruct (field_agree (sort_receive sort_par) (receive_rel eq congruent) (receive_map no_free erase) (receives p) (receives q)) as [Rr Er].
  { intros x y Hx Hy. apply receive_agree; [apply Hsub; intros ??; eauto with ast|].
    intros b c Hb Hcx. destruct (Hpr x Hx b Hb) as [? E1], (Hqr y Hy c Hcx) as [? E2].
    split_and!; [done..|]. intros E E'. rewrite E1, E2, E'. f_equal. exact E. }
  destruct (field_agree (sort_new sort_par) (new_rel congruent) (new_map no_free erase) (news p) (news q)) as [Rn En].
  { intros x y Hx Hy. apply new_agree; [apply Hsub; intros ??; eauto with ast|auto..]. }
  destruct (field_agree (sort_expr sort_par) (expr_rel congruent) (expr_map no_free erase) (exprs p) (exprs q)) as [Re Ee].
  { intros x y Hx Hy. apply expr_agree; [apply Hsub; intros ??; eauto with ast|auto..]. }
  destruct (field_agree (sort_match sort_par) (match_rel congruent) (match_map no_free erase) (matches p) (matches q)) as [Rm Em].
  { intros x y Hx Hy. apply match_agree, Hsub; intros ??; eauto with ast. }
  destruct (field_agree (sort_bundle sort_par) (bundle_rel congruent) (bundle_map erase) (bundles p) (bundles q)) as [Rb Eb].
  { intros x y Hx Hy. apply bundle_agree, Hsub; intros ??; eauto with ast. }
  destruct (field_agree (sort_connective sort_par) (connective_rel congruent) (connective_map erase) (connectives p) (connectives q)) as [Rc Ec].
  { intros x y Hx Hy. apply connective_agree, Hsub; intros ??; eauto with ast. }
  clear Hc Hsub Hpr Hpn Hpe Hqr Hqn Hqe. unfold agree. rewrite par_score_eq.
  destruct p as [ss rs ns es ms us bs cs lf cu], q as [ss' rs' ns' es' ms' us' bs' cs' lf' cu'].
  cbn [sends receives news exprs matches unforgeables bundles connectives connective_used] in *. split.
  - cbn [congruent sends receives news exprs matches unforgeables bundles connectives connective_used].
    rewrite unforgeable_scores. tauto.
  - intros (Hs & Hr & He & Hn & Hm & Hb & Hcn & Hu & ->).
    cbn [sort_par st_term erase sends receives news exprs matches unforgeables bundles connectives connective_used].
    by rewrite (Es Hs), (Er Hr), (En Hn), (Ee He), (Em Hm), (unforgeable_terms _ _ Hu), (Eb Hb), (Ec Hcn).
Qed.
End Main.

(** ** Scores do not read the sets of free variables *)
Section SameAt.
Context {P Q : Type} (f : P → Q) (srt : P → ScoredTerm P) (srt' : Q → ScoredTerm Q).
Definition same_at (l : list P) : Prop := ∀ q, q ∈ l → st_score (srt' (f q)) = st_score (srt q).

Lemma same_fmap l : same_at l → (λ q, st_score (srt' q)) <$> (f <$> l) = (λ q, st_score (srt q)) <$> l.
Proof. intros E. rewrite <- list_fmap_compose. apply fmap_ext_in. intros q Hq. by apply E. Qed.
End SameAt.

Section MapScore.
Context {P Q : Type} (g : BitSet → BitSet) (f : P → Q) (srt : P → ScoredTerm P) (srt' : Q → ScoredTerm Q).
Notation same := (same_at f srt srt').

Lemma send_map_score s : same (send_children s) → st_score (sort_send srt' (send_map g f s)) = st_score (sort_send srt s).
Proof.
  intros E. unfold sort_send. simpl. rewrite (E (s_chan s)) by by left.
  rewrite (same_fmap f srt); [done|]. intros q ?. apply E. by right.
Qed.
Lemma bind_map_score b : same (bind_children b) →
  st_score (sort_receive_bind srt' (bind_map f b)) = st_score (sort_receive_bind srt b).
Proof.
  intros E. unfold sort_receive_bind. simpl. rewrite (E (rb_source b)) by by left.
  rewrite (same_fmap f srt); [done|]. intros q ?. apply E. by right.
Qed.
Lemma receive_map_score r : same (receive_children r) →
  st_score (sort_receive srt' (receive_map g f r)) = st_score (sort_receive srt r).
Proof.
  intros E. unfold sort_receive, receive_map. cbn [st_score r_binds r_body r_persistent r_peek r_bind_count r_connective_used].
  rewrite (E (r_body r)) by by left. rewrite (same_fmap (bind_map f) (sort_receive_bind srt)); [done|].
  intros b Hb. apply bind_map_score. intros q Hq. apply E. right. by eapply elem_of_bind_in.
Qed.
Lemma case_map_score c : same (case_children c) →
  st_score (sort_match_case srt' (case_map f c)) = st_score (sort_match_case srt c).
Proof.
  intros E. unfold sort_match_case. simpl. rewrite (E (mc_pattern c)) by by left.
  rewrite (E (mc_source c)); [done|]. right. by left.
Qed.
Lemma match_map_score m : same (match_children m) → st_score (sort_match srt' (match_map g f m)) = st_score (sort_match srt m).
Proof.
  intros E. unfold sort_match, match_map. cbn [st_score m_target m_cases m_connective_used].
  rewrite (E (m_target m)) by by left. rewrite (same_fmap (case_map f) (sort_match_case srt)); [done|].
  intros b Hb. apply case_map_score. intros q Hq. apply E. right. by eapply elem_of_bind_in.
Qed.
Lemma bundle_map_score b : same (bundle_children b) → st_score (sort_bundle srt' (bundle_map f b)) = st_score (sort_bundle srt b).
Proof. intros E. unfold sort_bundle. simpl. by rewrite (E (b_body b)) by by left. Qed.
Lemma connective_map_score c : same (connective_children c) →
  st_score (sort_connective srt' (connective_map f c)) = st_score (sort_connective srt c).
Proof.
  intros E. destruct c as [ps|ps|p| | | | | | | |]; simpl in *; try done; [by rewrite (same_fmap f srt)..|].
  by rewrite (E p) by by left.
Qed.
Lemma expr_map_score e : same (expr_children e) → st_score (sort_expr srt' (expr_map g f e)) = st_score (sort_expr srt e).
Proof.
  intros E. destruct e as [| | | | | |p|p| |o p q|l|l|l|l|l]; simpl in *; try done.
  - by rewrite (E p) by by left.
  - by rewrite (E p) by by left.
  - rewrite (E p) by by left. rewrite (E q); [done|]. right. by left.
  - by rewrite (same_fmap f srt).
  - by rewrite (same_fmap f srt).
  - by rewrite (same_fmap f srt).
  - assert ((λ kv, st_score (srt' kv.1)) <$> (prod_map f f <$> pm_kvs l) = (λ kv, st_score (srt kv.1)) <$> pm_kvs l) as ->;
      [|done].
    rewrite <- list_fmap_compose. apply fmap_ext_in. intros kv Hkv. apply E.
    eapply elem_of_bind_in; [exact Hkv|by left].
  - rewrite (E (em_target l)) by by left. rewrite (same_fmap f srt); [done|]. intros q ?. apply E. by right.
Qed.
Lemma new_map_score n : same (new_children n) → st_score (sort_new srt' (new_map g f n)) = st_score (sort_new srt n).
Proof.
  intros E. unfold sort_new, new_map. cbn [st_score n_bind_count n_p n_uri n_injections].
  rewrite (E (n_p n)) by by left.
  set (view := λ T (kst : Str * ScoredTerm T), (kst.1, st_score kst.2)).
  assert (∀ T (i : list (Str * ScoredTerm T)), injections_score i =
    match view T <$> i with [] => [leaf_i64 ABSENT] | k => (λ x, Node [Leaf (AStr x.1); x.2]) <$> k end) as Hv.
  { intros T [|x i]; [done|]. unfold injections_score. rewrite !fmap_cons, <- list_fmap_compose. done. }
  fold (injections_score (sort_by (λ a b, cmp a.1 b.1) ((λ kv, (kv.1, srt kv.2)) <$> n_injections n))).
  fold (injections_score (sort_by (λ a b, cmp a.1 b.1) ((λ kv, (kv.1, srt' kv.2)) <$> (prod_map id f <$> n_injections n)))).
  assert (∀ T l, view T <$> sort_by (λ a b, cmp a.1 b.1) l = sort_by (λ a b, cmp a.1 b.1) (view T <$> l)) as Hs.
  { intros T l. apply (sort_by_fmap (λ a b, cmp a.1 b.1) (view T)). }
  rewrite !Hv, !Hs, <- !list_fmap_compose.
  assert ((view Q ∘ (λ kv, (kv.1, srt' kv.2)) ∘ prod_map id f) <$> n_injections n =
    (view P ∘ (λ kv, (kv.1, srt kv.2))) <$> n_injections n) as ->; [|done].
  apply fmap_ext_in. intros kv Hkv. unfold view. simpl. f_equal. apply E. right. apply list_elem_of_fmap. by exists kv.
Qed.
End MapScore.

Lemma scores_map {T} (f : T → ScoredTerm T) (h : T → T) l :
  (∀ x, x ∈ l → st_score (f (h x)) = st_score (f x)) → scores f (h <$> l) = scores f l.
Proof. intros E. rewrite !scores_sort_by, <- list_fmap_compose. f_equal. by apply fmap_ext_in. Qed.

Lemma erase_score p : st_score (sort_par (erase p)) = st_score (sort_par p).
Proof.
  induction p as [p IH] using par_children_ind. apply par_score_eq. rewrite erase_children.
  cbn [par_map_children sends receives news exprs matches unforgeables bundles connectives connective_used].
  split_and!; try done; apply scores_map; intros x Hx.
  - apply send_map_score. intros q Hq. apply IH. eauto with ast.
  - apply receive_map_score. intros q Hq. apply IH. eauto with ast.
  - apply expr_map_score. intros q Hq. apply IH. eauto with ast.
  - apply new_map_score. intros q Hq. apply IH. eauto with ast.
  - apply match_map_score. intros q Hq. apply IH. eauto with ast.
  - apply bundle_map_score. intros q Hq. apply IH. eauto with ast.
  - apply connective_map_score. intros q Hq. apply IH. eauto with ast.
Qed.

(** ** Reordering *)
Lemma all2_refl {A} (R : A → A → Prop) l : (∀ a, a ∈ l → R a a) → all2 R l l.
Proof. intros H. induction l as [|a l IH]; simpl; [done|]. split; [apply H; by left|]. apply IH. intros; apply H; by right. Qed.

Section Refl.
Context (N : Z → Z → Prop) `{!Reflexive N} {P : Type} (R : P → P → Prop).
Definition refl_at (l : list P) : Prop := ∀ q, q ∈ l → R q q.

Lemma send_refl s : refl_at (send_children s) → send_rel R s s.
Proof. intros H. split_and!; [done|apply H; by left| |done]. apply all2_refl. intros; apply H; by right. Qed.
Lemma receive_refl r : refl_at (receive_children r) → receive_rel N R r r.
Proof.
  intros H. split_and!; [done|done| |apply H; by left|done|done]. apply all2_refl. intros b Hb.
  assert (refl_at (bind_children b)) as Hb' by (intros q Hq; apply H; right; by eapply elem_of_bind_in).
  split_and!; [apply Hb'; by left| |done|done]. apply all2_refl. intros; apply Hb'; by right.
Qed.
Lemma new_refl n : refl_at (new_children n) → new_rel R n n.
Proof.
  intros H. split_and!; [done|done| |apply H; by left]. apply all2_refl. intros kv Hkv. split; [done|].
  apply H. right. apply list_elem_of_fmap. by exists kv.
Qed.
Lemma match_refl m : refl_at (match_children m) → match_rel R m m.
Proof.
  intros H. split_and!; [apply H; by left| |done]. apply all2_refl. intros c Hc.
  assert (refl_at (case_children c)) as Hc' by (intros q Hq; apply H; right; by eapply elem_of_bind_in).
  split_and!; [apply Hc'; by left|apply Hc'; right; by left|done].
Qed.
Lemma bundle_refl b : refl_at (bundle_children b) → bundle_rel R b b.
Proof. intros H. split_and!; [done|done|apply H; by left]. Qed.
Lemma expr_refl e : refl_at (expr_children e) → expr_rel R e e.
Proof.
  intros H. destruct e as [| | | | | |p|p| |o p q|l|l|l|l|l]; simpl in *; try done; split_and?;
    try done; try (by apply all2_refl); try (apply H; by left).
  - apply H. right. by left.
  - apply all2_refl. intros kv Hkv. split; apply H; eapply elem_of_bind_in; [exact Hkv|by left|exact Hkv|right; by left].
  - apply all2_refl. intros; apply H; by right.
Qed.
Lemma connective_refl c : refl_at (connective_children c) → connective_rel R c c.
Proof. intros H. destruct c; simpl in *; try done; [by apply all2_refl..|]. apply H. by left. Qed.
End Refl.

Lemma congruent_refl_perm p q :
  (∀ c, c ∈ par_children p → congruent c c) →
  sends p ≡ₚ sends q → receives p ≡ₚ receives q → news p ≡ₚ news q → exprs p ≡ₚ exprs q →
  matches p ≡ₚ matches q → unforgeables p ≡ₚ unforgeables q → bundles p ≡ₚ bundles q →
  connectives p ≡ₚ connectives q → connective_used p = connective_used q → congruent p q.
Proof.
  intros IH. destruct p as [ss rs ns es ms us bs cs lf cu]. 
  cbn [congruent sends receives news exprs matches unforgeables bundles connectives connective_used]. intros.
  split_and!; try done; (eexists; split; [apply all2_refl|done]); intros x Hx.
  - apply send_refl. intros c Hc. apply IH. eauto with ast.
  - apply receive_refl; [done|]. intros c Hc. apply IH. eauto with ast.
  - apply new_refl. intros c Hc. apply IH. eauto with ast.
  - apply expr_refl. intros c Hc. apply IH. eauto with ast.
  - apply match_refl. intros c Hc. apply IH. eauto with ast.
  - apply bundle_refl. intros c Hc. apply IH. eauto with ast.
  - apply connective_refl. intros c Hc. apply IH. eauto with ast.
Qed.
Lemma congruent_refl p : congruent p p.
Proof. induction p as [p IH] using par_children_ind. by apply congruent_refl_perm. Qed.

(** Parallel composition is commutative. *)
Lemma par_concat_comm p q : congruent (par_concat p q) (par_concat q p).
Proof.
  apply congruent_refl_perm; try apply Permutation_app_comm; [|apply orb_comm]. intros; apply congruent_refl.
Qed.

(** C1: Law 1.  For terms that the scores describe in full, the canonical forms
    are equal exactly when the terms are congruent: the order of the
    components of a parallel composition, at any depth, is what sorting
    removes, and it removes nothing else.  The free count of a bind is to be
    a function of its patterns and its remainder. *)
Theorem sort_decides_congruence fc p q :
  fully_scored fc p = true → fully_scored fc q = true →
  par_eqb (sort_par_term p) (sort_par_term q) = true ↔ congruent p q.
Proof.
  intros Hp Hq. rewrite par_eqb_erase. destruct (scored_agree fc p q Hp Hq) as [HR HE]. rewrite <- HR.
  split; [|exact HE]. intros E. rewrite <- (sort_par_idemp p), <- (sort_par_idemp q).
  unfold sort_par_term in *. rewrite <- (erase_score (st_term (sort_par p))), E. apply erase_score.
Qed.

Section Examples.
Definition num (i : Z) : Par := from_expr (GInt i).
Definition msg (c d : Z) : Send := mkSend (num c) [num d] false [] false.
Definition recv (c : Z) (body : Par) : Receive :=
  mkReceive [mkBind [from_expr (EVar (FreeVar 0))] (num c) None 1] body false false 1 [] false.
Definition ex_left : Par :=
  mkPar [msg 1 2; msg 1 3] [recv 1 (par_concat (num 4) (num 5))] [] [GInt 8; GInt 7] [] [] [] [] [] false.
Definition ex_right : Par :=
  mkPar [msg 1 3; msg 1 2] [recv 1 (par_concat (num 5) (num 4))] [] [GInt 7; GInt 8] [] [] [] [] [] false.

Lemma sort_decides_congruence_witness :
  (par_eqb (sort_par_term ex_left) (sort_par_term ex_right) = true ↔ congruent ex_left ex_right) ∧
  par_eqb (sort_par_term ex_left) (sort_par_term ex_right) = true.
Proof.
  split; [|vm_compute; reflexivity].
  apply (sort_decides_congruence (λ ps _, Z.of_nat (length ps)) ex_left ex_right); vm_compute; reflexivity.
Defined.

Definition dict (k v : Z) : Expr := EMap (mkParMap [(num k, num v)] false [] None).
Definition maps_12_13 : Par := mkPar [] [] [] [dict 1 2; dict 1 3] [] [] [] [] [] false.
Definition maps_13_12 : Par := mkPar [] [] [] [dict 1 3; dict 1 2] [] [] [] [] [] false.
End Examples.

(** Where the canonical order fails.  A map is scored by its keys alone, so
    [{1: 2} | {1: 3}] and [{1: 3} | {1: 2}], which are congruent, keep the order
    they were written in; and [par_set] removes duplicates before it sorts the
    elements, so the set of [4 | 5] and [5 | 4] holds one term twice. *)
Theorem canonical_order_gaps :
  congruent maps_12_13 maps_13_12 ∧
  par_eqb (sort_par_term maps_12_13) (sort_par_term maps_13_12) = false ∧
  ps_ps (par_set [par_concat (num 4) (num 5); par_concat (num 5) (num 4)]) =
    [par_concat (num 5) (num 4); par_concat (num 5) (num 4)].
Proof.
  split; [|by vm_compute].
  apply congruent_refl_perm; try done; [intros; apply congruent_refl|]. apply Permutation_swap.
Qed.
