(* ===== verification/Accounting.v ===== *)
(** * Errors and phlogiston accounting

    [rholang/src/errors.rs] and [rholang/src/accounting.rs]: the errors of the
    interpreter, the table of costs, and the balance that every step of the
    interpreter is charged against. *)

From S2P Require Import Prelude BTree Bytes Trace Ast ParOps.

(** ** Errors *)

(** [typ]: the name of the type of an expression. *)
Inductive Typ := TBool | TInt | TBigInt | TString | TUri | TByteArray | TList | TTuple | TSet | TMap | TUnit.
#[export] Instance Typ_eq_dec : EqDecision Typ.
Proof. solve_decision. Defined.
Definition typ (expr : Expr) : Typ :=
  match expr with
  | GBool _ => TBool
  | GInt _ => TInt
  | GBigInt _ => TBigInt
  | GString _ => TString
  | GUri _ => TUri
  | GByteArray _ => TByteArray
  | EList _ => TList
  | ETuple _ => TTuple
  | ESet _ => TSet
  | EMap _ => TMap
  | _ => TUnit
  end.

(** The texts of [ReduceError], with what is formatted into them. *)
Inductive ReduceMsg :=
| UnboundVariable (level : Z)
| EvaluatingPattern
| ImpossibleVar
| Expected (what got : Typ)
| OutOfRange (n : Z)
| ExpectedSingle
| UnexpectedCompare
| DivByZero
| DivisionOverflow
| ModuloOverflow
| InterpolationValue (t : Typ)
| InterpolationKey
| IndexOutOfBound (nth : Z)
| NthOnOther (t : Typ)
| ToIntRange
| ToIntParse
| ToBigIntParse
| HexDecoding
| UnimplementedMethod
| NonWriteable
| NonReadable
| TooManyTerms
| Cancelled
| StepBudget
| RandomSplit
| SubsetTooLarge (items : nat)
| SplitTooLarge (total : Z)
| SpaceFailed
| NoFunction (r : Z)
| TaskPanicked.

Inductive RholangError :=
| BugFoundError
| OutOfPhlogistonsError
| SubstituteError (term : Var)
| ReduceError (m : ReduceMsg)
| MethodNotDefined (method : Str) (other_type : Typ)
| MethodArgumentNumberMismatch (method : Str) (expected actual : nat)
| OperatorNotDefined (op : BinOp) (other_type : Typ)
| NegationNotDefined (other_type : Typ)
| OperatorExpectedError (op : BinOp) (expected other_type : Typ)
| MatchError.

(** ** Costs *)
Definition mul_cost (value base : Z) : Z := i64_wrap (value * base).
Definition add_costs (value other : Z) : Z := i64_wrap (value + other).

(** The constants of [Costs]. *)
Definition sum_cost : Z := 3.
Definition subtraction_cost : Z := 3.
Definition boolean_and_cost : Z := 2.
Definition boolean_or_cost : Z := 2.
Definition comparison_cost : Z := 3.
Definition multiplication_cost : Z := 9.
Definition division_cost : Z := 9.
Definition modulo_cost : Z := 9.
Definition lookup_cost : Z := 3.
Definition remove_cost : Z := 3.
Definition add_cost : Z := 3.
Definition int_to_bigint_cost : Z := 8.
Definition nth_method_call_cost : Z := 10.
Definition keys_method_cost : Z := 10.
Definition length_method_cost : Z := 10.
Definition method_call_cost : Z := 10.
Definition op_call_cost : Z := 10.
Definition var_eval_cost : Z := 10.
Definition send_eval_cost : Z := 11.
Definition receive_eval_cost : Z := 11.
Definition new_binding_cost : Z := 2.
Definition new_eval_cost : Z := 10.
Definition match_eval_cost : Z := 12.
Definition HASH_LEN : Z := 32.

(** [magnitude().bits() / 8 + 1]. *)
Definition big_int_size (bi : Z) : Z := (if bi =? 0 then 0 else Z.log2 (Z.abs bi) + 1) / 8 + 1.
Definition diff_cost (num_elements : Z) : Z := mul_cost remove_cost num_elements.
Definition union_cost (num_elements : Z) : Z := mul_cost add_cost num_elements.
Definition interpolate_cost (str_length map_size : Z) : Z := i64_wrap (str_length * map_size).
Definition big_int_comparison (left right : Z) : Z := Z.min (big_int_size left) (big_int_size right).
Definition big_int_sum (left right : Z) : Z := Z.max (big_int_size left) (big_int_size right) + 1.
Definition big_int_multiplication (left right : Z) : Z := i64_wrap (big_int_size left * big_int_size right).
Definition new_bindings_cost (n : Z) : Z := add_costs (mul_cost new_binding_cost n) new_eval_cost.
Definition event_storage_cost (channels_involved : Z) : Z := i64_wrap (HASH_LEN + channels_involved * HASH_LEN).
Definition comm_event_storage_cost (channels_involved : Z) : Z :=
  add_costs (event_storage_cost channels_involved) (mul_cost (event_storage_cost 1) channels_involved).

(** ** The balance *)
Record CostAccounting := mkCost {
  cost_value : Z;
  cost_total : Z;
}.
#[export] Instance CostAccounting_eq_dec : EqDecision CostAccounting.
Proof. solve_decision. Defined.

Definition cost_from_initial (init : Z) : CostAccounting := mkCost init 0.
Definition cost_set (value : Z) (c : CostAccounting) : CostAccounting := mkCost value (cost_total c).

(** A computation that charges the balance; the charges made before an error
    are kept. *)
Notation Charged A := (StateResult CostAccounting A RholangError).

(** The decrement is one atomic update of the balance; the subtraction of
    [i64]s wraps, as the addition to the total does. *)
Definition charge (amount : Z) : Charged unit := λ c,
  if cost_value c <? 0 then (c, Err OutOfPhlogistonsError)
  else
    let c' := mkCost (Z.max (i64_wrap (cost_value c - amount)) 0) (i64_wrap (cost_total c + amount)) in
    (c', if i64_wrap (cost_value c - amount) <? 0 then Err OutOfPhlogistonsError else Ok ()).

(** ** Lemmas *)

(** A charge with amounts that fit never makes the balance negative, and takes
    the amount when it succeeds. *)
Lemma charge_spec amount c :
  0 ≤ cost_value c ≤ i64_max → 0 ≤ amount ≤ i64_max →
  charge amount c =
    if amount <=? cost_value c
    then (mkCost (cost_value c - amount) (i64_wrap (cost_total c + amount)), Ok ())
    else (mkCost 0 (i64_wrap (cost_total c + amount)), Err OutOfPhlogistonsError).
Proof.
  intros Hv Ha. unfold charge. destruct (Z.ltb_spec (cost_value c) 0); [lia|].
  rewrite i64_wrap_id by (unfold i64_range in *; unfold_ints; lia).
  destruct (Z.leb_spec amount (cost_value c)), (Z.ltb_spec (cost_value c - amount) 0); try lia.
  - by rewrite Z.max_l by lia.
  - by rewrite Z.max_r by lia.
Qed.

(** ** Concurrent charges

    A computation that only charges and fails or returns is a task: the charges
    it makes, and what it ends with if none of them is refused.  Tasks that run
    concurrently share one balance; a schedule says which one moves next, and a
    move is one atomic charge.  A task that is refused a charge ends with the
    error. *)
Inductive Task (A E : Type) :=
| Running (charges : list Z) (result : Result A E)
| Finished (result : Result A E).
#[global] Arguments Running {A E}.
#[global] Arguments Finished {A E}.

Section Tasks.
Context {A E : Type} (refused : RholangError → E).
Notation Tasks := (list (Task A E)).

Definition task_move (t : Task A E) (c : CostAccounting) : Task A E * CostAccounting :=
  match t with
  | Running (amount :: charges) r =>
      match charge amount c with
      | (c', Ok _) => (Running charges r, c')
      | (c', Err e) => (Finished (Err (refused e)), c')
      end
  | Running [] r => (Finished r, c)
  | Finished r => (t, c)
  end.
Definition tasks_move (st : Tasks * CostAccounting) (i : nat) : Tasks * CostAccounting :=
  match st.1 !! i with
  | Some t => let (t', c') := task_move t st.2 in (<[i := t']> st.1, c')
  | None => st
  end.
Definition run_tasks (schedule : list nat) (tasks : Tasks) (c : CostAccounting) : Tasks * CostAccounting :=
  foldl tasks_move (tasks, c) schedule.
Definition finished (t : Task A E) : bool := match t with Finished _ => true | Running _ _ => false end.

(** The same computation run alone. *)
Fixpoint run_alone (charges : list Z) (r : Result A E) (c : CostAccounting) : CostAccounting * Result A E :=
  match charges with
  | [] => (c, r)
  | amount :: charges =>
      match charge amount c with
      | (c', Ok _) => run_alone charges r c'
      | (c', Err e) => (c', Err (refused e))
      end
  end.

(** What is still to be charged. *)
Definition pending (t : Task A E) : Z := match t with Running charges _ => sum_Z id charges | Finished _ => 0 end.
Definition nonneg_charges (t : Task A E) : Prop :=
  match t with Running charges _ => ∀ a, a ∈ charges → 0 ≤ a | Finished _ => True end.
(** A task on its way to the result [r]. *)
Definition on_way (r : Result A E) (t : Task A E) : Prop :=
  match t with Running _ r' => r' = r | Finished r' => r' = r end.
Definition out_of_phlo (t : Task A E) : Prop := t = Finished (Err (refused OutOfPhlogistonsError)).

Definition in_bounds (c : CostAccounting) (charges : Z) : Prop :=
  0 ≤ cost_value c ≤ i64_max ∧ 0 ≤ cost_total c ∧ cost_total c + charges ≤ i64_max.
(** The balance after some charges were accepted. *)
Definition cost_after (c : CostAccounting) (charges : Z) : CostAccounting :=
  mkCost (cost_value c - charges) (cost_total c + charges).

Lemma charge_enough amount c : 0 ≤ amount ≤ cost_value c → in_bounds c amount → charge amount c = (cost_after c amount, Ok ()).
Proof.
  intros Ha (Hv & Ht & Hs). rewrite charge_spec by lia. destruct (Z.leb_spec amount (cost_value c)); [|lia].
  rewrite i64_wrap_id; [done|]. unfold i64_range. unfold_ints. lia.
Qed.
Lemma pending_nonneg t : nonneg_charges t → 0 ≤ pending t.
Proof. destruct t; [apply sum_Z_nonneg|done]. Qed.
Lemma pending_total_nonneg ts : Forall nonneg_charges ts → 0 ≤ sum_Z pending ts.
Proof. intros H. apply sum_Z_nonneg. intros t Ht. rewrite Forall_forall in H. by apply pending_nonneg, H. Qed.
Lemma sum_Z_insert ts i t t' : ts !! i = Some t →
  sum_Z pending (<[i := t']> ts) = sum_Z pending ts - pending t + pending t'.
Proof.
  revert i. induction ts as [|x ts IH]; intros [|i] Hi; simplify_eq/=; rewrite !sum_Z_cons; [lia|]. rewrite (IH i) by done. lia.
Qed.
Lemma pending_le ts i t : Forall nonneg_charges ts → ts !! i = Some t → pending t ≤ sum_Z pending ts.
Proof.
  intros Hn Hi. pose proof (sum_Z_insert ts i t (Finished (Err (refused OutOfPhlogistonsError))) Hi) as H.
  assert (0 ≤ sum_Z pending (<[i := Finished (Err (refused OutOfPhlogistonsError))]> ts))
    by (apply pending_total_nonneg, Forall_insert; done). simpl in H. lia.
Qed.

(** A move of one task, when all charges of all tasks can be paid. *)
Lemma move_enough rs ts c i : Forall2 on_way rs ts → Forall nonneg_charges ts →
  sum_Z pending ts ≤ cost_value c → in_bounds c (sum_Z pending ts) →
  let (ts', c') := tasks_move (ts, c) i in
  Forall2 on_way rs ts' ∧ Forall nonneg_charges ts' ∧
  c' = cost_after c (sum_Z pending ts - sum_Z pending ts') ∧ sum_Z pending ts' ≤ sum_Z pending ts.
Proof.
  intros Hw Hn Hle Hb. unfold tasks_move. cbn [fst snd].
  assert (c = cost_after c (sum_Z pending ts - sum_Z pending ts)) as Hc0
    by (destruct c; unfold cost_after; f_equal; simpl; lia).
  destruct (ts !! i) as [t|] eqn:Hi; [|split_and!; [done..|lia]].
  pose proof (pending_le ts i t Hn Hi) as Hp. destruct (Forall2_lookup_r _ _ _ _ _ Hw Hi) as (r & Hr & Hrt).
  assert (nonneg_charges t) as Hnt by (rewrite Forall_forall in Hn; eapply Hn, list_elem_of_lookup_2, Hi).
  assert (∀ t', on_way r t' → nonneg_charges t' →
    Forall2 on_way rs (<[i := t']> ts) ∧ Forall nonneg_charges (<[i := t']> ts)) as Hset.
  { intros t' H1 H2. split; [|by apply Forall_insert]. rewrite <- (list_insert_id rs i r Hr). by apply Forall2_insert. }
  destruct t as [[|a charges] r'|r']; cbn [task_move].
  - destruct (Hset (Finished r')) as [H1 H2]; [done..|]. pose proof (sum_Z_insert ts i _ (Finished r') Hi) as Es.
    cbn [pending] in Es. change (sum_Z id []) with 0 in Es. split_and!; [done..| |lia]. rewrite Es.
    destruct c; unfold cost_after; f_equal; simpl; lia.
  - cbn [pending] in Hp. rewrite sum_Z_cons in Hp. change (id a) with a in Hp. cbn [nonneg_charges] in Hnt.
    assert (0 ≤ a) by (apply Hnt; by left).
    assert (0 ≤ sum_Z id charges) by (apply sum_Z_nonneg; intros x Hx; apply Hnt; by right).
    destruct Hb as (Hb1 & Hb2 & Hb3). rewrite charge_enough by (unfold in_bounds; lia).
    destruct (Hset (Running charges r')) as [H1 H2]; [done|intros x Hx; apply Hnt; by right|].
    pose proof (sum_Z_insert ts i _ (Running charges r') Hi) as Es. cbn [pending] in Es. rewrite sum_Z_cons in Es.
    change (id a) with a in Es. split_and!; [done..| |lia]. rewrite Es. unfold cost_after. f_equal; lia.
  - rewrite list_insert_id by done. split_and!; [done..|lia].
Qed.
Lemma run_enough schedule rs ts c : Forall2 on_way rs ts → Forall nonneg_charges ts →
  sum_Z pending ts ≤ cost_value c → in_bounds c (sum_Z pending ts) →
  let (ts', c') := run_tasks schedule ts c in
  Forall2 on_way rs ts' ∧ c' = cost_after c (sum_Z pending ts - sum_Z pending ts').
Proof.
  unfold run_tasks. revert ts c. induction schedule as [|i schedule IH]; intros ts c Hw Hn Hle Hb; cbn [foldl].
  { split; [done|]. destruct c; unfold cost_after; f_equal; simpl; lia. }
  pose proof (move_enough rs ts c i Hw Hn Hle Hb) as Hm. destruct (tasks_move (ts, c) i) as [ts1 c1].
  destruct Hm as (Hw1 & Hn1 & -> & Hle1). pose proof (pending_total_nonneg ts1 Hn1). destruct Hb as (Hb1 & Hb2 & Hb3).
  specialize (IH ts1 (cost_after c (sum_Z pending ts - sum_Z pending ts1)) Hw1 Hn1).
  cbn [cost_after cost_value] in IH. unfold in_bounds in IH. cbn [cost_after cost_value cost_total] in IH.
  specialize (IH ltac:(lia) ltac:(lia)). destruct (foldl tasks_move _ schedule) as [ts2 c2].
  destruct IH as [Hw2 ->]. split; [done|]. unfold cost_after. cbn [cost_value cost_total]. f_equal; lia.
Qed.

(** When the charges cannot all be paid, some task is refused. *)
Definition short (ts : Tasks) (c : CostAccounting) : Prop := 0 ≤ cost_value c ≤ i64_max ∧ cost_value c < sum_Z pending ts.
Lemma move_short ts c i : Forall nonneg_charges ts → (∃ t, t ∈ ts ∧ out_of_phlo t) ∨ short ts c → sum_Z pending ts ≤ i64_max →
  let (ts', c') := tasks_move (ts, c) i in
  Forall nonneg_charges ts' ∧ ((∃ t, t ∈ ts' ∧ out_of_phlo t) ∨ short ts' c') ∧ sum_Z pending ts' ≤ i64_max.
Proof.
  intros Hn Hs Hmax. unfold tasks_move. cbn [fst snd]. destruct (ts !! i) as [t|] eqn:Hi; [|done].
  assert (nonneg_charges t) as Hnt by (rewrite Forall_forall in Hn; eapply Hn, list_elem_of_lookup_2, Hi).
  assert (∀ t', nonneg_charges t' → Forall nonneg_charges (<[i := t']> ts)) as Hset by (intros; by apply Forall_insert).
  assert (∀ t', (∃ u, u ∈ ts ∧ out_of_phlo u) → finished t = false → ∃ u, u ∈ <[i := t']> ts ∧ out_of_phlo u) as Hkeep.
  { intros t' (u & Hu & Ho) Hf. exists u. split; [|done]. apply list_elem_of_lookup_1 in Hu as (j & Hj).
    apply list_elem_of_lookup. exists j. rewrite list_lookup_insert_ne; [done|]. intros ->. simplify_eq. by rewrite Ho in Hf. }
  pose proof (lookup_lt_Some _ _ _ Hi) as Hlt. pose proof (pending_le ts i t Hn Hi) as Hp.
  destruct t as [[|a charges] r'|r']; cbn [task_move].
  - pose proof (sum_Z_insert ts i _ (Finished r') Hi) as Es. cbn [pending] in Es. change (sum_Z id []) with 0 in Es.
    split_and!; [by apply Hset| |lia]. destruct Hs as [Hs|Hs]; [left; by apply Hkeep|right]. unfold short in *. lia.
  - cbn [nonneg_charges pending] in *. rewrite sum_Z_cons in Hp. change (id a) with a in Hp.
    assert (0 ≤ a) by (apply Hnt; by left).
    assert (0 ≤ sum_Z id charges) by (apply sum_Z_nonneg; intros x Hx; apply Hnt; by right).
    pose proof (sum_Z_insert ts i _ (Running charges r') Hi) as Es. cbn [pending] in Es. rewrite sum_Z_cons in Es.
    change (id a) with a in Es. destruct (charge a c) as [c' [|e]] eqn:Ec.
    + split_and!; [apply Hset; intros x Hx; apply Hnt; by right| |lia].
      destruct Hs as [Hs|[Hv Hs]]; [left; by apply Hkeep|right]. rewrite charge_spec in Ec by lia.
      destruct (Z.leb_spec a (cost_value c)); simplify_eq. unfold short. cbn [cost_value]. lia.
    + assert (e = OutOfPhlogistonsError) as -> by (unfold charge in Ec; repeat case_match; simplify_eq; done).
      pose proof (sum_Z_insert ts i _ (Finished (Err (refused OutOfPhlogistonsError))) Hi) as Es'.
      cbn [pending] in Es'. rewrite sum_Z_cons in Es'. change (id a) with a in Es'.
      split_and!; [by apply Hset| |lia]. left. eexists. split; [|reflexivity].
      apply list_elem_of_lookup. exists i. by apply list_lookup_insert_eq.
  - rewrite list_insert_id by done. done.
Qed.
Lemma run_short schedule ts c : Forall nonneg_charges ts → short ts c → sum_Z pending ts ≤ i64_max →
  let (ts', c') := run_tasks schedule ts c in
  Forall finished ts' → ∃ t, t ∈ ts' ∧ out_of_phlo t.
Proof.
  intros Hn Hs Hmax. assert (let (ts', c') := run_tasks schedule ts c in
    (∃ t, t ∈ ts' ∧ out_of_phlo t) ∨ short ts' c') as H.
  { assert ((∃ t, t ∈ ts ∧ out_of_phlo t) ∨ short ts c) as Hs' by by right. clear Hs.
    unfold run_tasks. revert ts c Hn Hs' Hmax. induction schedule as [|i schedule IH]; intros ts c Hn Hs Hmax; cbn [foldl]; [done|].
    pose proof (move_short ts c i Hn Hs Hmax) as Hm. destruct (tasks_move (ts, c) i) as [ts1 c1].
    destruct Hm as (Hn1 & Hs1 & Hm1). by apply IH. }
  destruct (run_tasks schedule ts c) as [ts' c']. intros Hf. destruct H as [H|[Hv H]]; [done|exfalso].
  assert (sum_Z pending ts' = 0) as E0; [|lia].
  clear H. induction ts' as [|t ts' IH]; [done|]. apply Forall_cons in Hf as [Ht Hf]. rewrite sum_Z_cons, IH by done.
  by destruct t.
Qed.

(** Run alone, one after the other. *)
Fixpoint run_sequence (tasks : list (list Z * Result A E)) (c : CostAccounting) : CostAccounting * Result (list A) E :=
  match tasks with
  | [] => (c, Ok [])
  | t :: tasks =>
      match run_alone t.1 t.2 c with
      | (c, Ok a) => match run_sequence tasks c with (c, Ok l) => (c, Ok (a :: l)) | (c, Err e) => (c, Err e) end
      | (c, Err e) => (c, Err e)
      end
  end.
Definition charges_of (tasks : list (list Z * Result A E)) : Z := sum_Z (λ t, sum_Z id t.1) tasks.
Definition nonneg_tasks (tasks : list (list Z * Result A E)) : Prop := ∀ t a, t ∈ tasks → a ∈ t.1 → 0 ≤ a.

Lemma run_alone_spec charges r c : (∀ a, a ∈ charges → 0 ≤ a) → in_bounds c (sum_Z id charges) →
  if sum_Z id charges <=? cost_value c then run_alone charges r c = (cost_after c (sum_Z id charges), r)
  else (run_alone charges r c).2 = Err (refused OutOfPhlogistonsError).
Proof.
  revert c. induction charges as [|a charges IH]; intros c Ha Hb; cbn [run_alone].
  { change (sum_Z id []) with 0. destruct Hb as (Hb & _). destruct (Z.leb_spec 0 (cost_value c)); [|lia].
    destruct c; unfold cost_after; do 2 f_equal; simpl; lia. }
  assert (0 ≤ a) by (apply Ha; by left).
  assert (0 ≤ sum_Z id charges) by (apply sum_Z_nonneg; intros x Hx; apply Ha; by right).
  rewrite sum_Z_cons in *. change (id a) with a in *. destruct Hb as (Hb1 & Hb2 & Hb3).
  destruct (Z.leb_spec a (cost_value c)).
  - rewrite charge_enough by (unfold in_bounds; lia). specialize (IH (cost_after c a)).
    unfold in_bounds in IH. cbn [cost_after cost_value cost_total] in IH.
    specialize (IH ltac:(intros; apply Ha; by right) ltac:(lia)).
    destruct (Z.leb_spec (sum_Z id charges) (cost_value c - a)), (Z.leb_spec (a + sum_Z id charges) (cost_value c)); try lia; [|done].
    rewrite IH. unfold cost_after. cbn [cost_value cost_total]. do 2 f_equal; lia.
  - rewrite charge_spec by lia. destruct (Z.leb_spec a (cost_value c)); [lia|].
    destruct (Z.leb_spec (a + sum_Z id charges) (cost_value c)); [lia|done].
Qed.
Lemma run_sequence_spec tasks c c' out : nonneg_tasks tasks → in_bounds c (charges_of tasks) →
  run_sequence tasks c = (c', Ok out) ↔
  charges_of tasks ≤ cost_value c ∧ snd <$> tasks = Ok <$> out ∧ c' = cost_after c (charges_of tasks).
Proof.
  revert c out. induction tasks as [|[charges r] tasks IH]; intros c out Hn Hb; cbn [run_sequence fst snd].
  { unfold charges_of. change (sum_Z _ []) with 0.
    assert (cost_after c 0 = c) as -> by (destruct c; unfold cost_after; f_equal; simpl; lia).
    split; [intros [= <- <-]; split_and!; [apply Hb|done..]|]. intros (_ & Ee & ->). by destruct out. }
  unfold charges_of in *. rewrite sum_Z_cons in *. cbn [fst] in *.
  assert (∀ a, a ∈ charges → 0 ≤ a) as Hc by (intros a Ha; eapply (Hn (charges, r)); [by left|done]).
  assert (nonneg_tasks tasks) as Hn' by (intros t a Ht; apply Hn; by right).
  assert (0 ≤ sum_Z (λ t : list Z * Result A E, sum_Z id t.1) tasks) as H0
    by (apply sum_Z_nonneg; intros t Ht; apply sum_Z_nonneg; intros a Ha; by eapply Hn').
  assert (0 ≤ sum_Z id charges) as H1 by by apply sum_Z_nonneg.
  destruct Hb as (Hb1 & Hb2 & Hb3). pose proof (run_alone_spec charges r c Hc) as Hr. unfold in_bounds in Hr.
  specialize (Hr ltac:(lia)). destruct (Z.leb_spec (sum_Z id charges) (cost_value c)) as [Hle|Hle].
  - rewrite Hr. destruct r as [a|e]; cbn [snd]; cycle 1.
    { split; [done|]. intros (_ & Ee & _). rewrite fmap_cons in Ee. by destruct out. }
    specialize (λ out, IH (cost_after c (sum_Z id charges)) out Hn'). unfold in_bounds in IH.
    cbn [cost_value cost_total] in IH. specialize (λ out, IH out ltac:(cbn [cost_after cost_value cost_total]; lia)).
    assert (∀ z, cost_after (cost_after c (sum_Z id charges)) z = cost_after c (sum_Z id charges + z)) as Ea
      by (intros z; unfold cost_after; simpl; f_equal; lia).
    rewrite fmap_cons. cbn [snd]. split.
    + intros Ee. destruct (run_sequence tasks _) as [c2 [l|]] eqn:Es; simplify_eq.
      destruct (proj1 (IH l) eq_refl) as (Hle' & El & ->). cbn [cost_after cost_value] in Hle'.
      split_and!; [lia|by rewrite fmap_cons, El|apply Ea].
    + intros (Hle' & Ee & ->). destruct out as [|b out]; [done|]. rewrite fmap_cons in Ee. injection Ee as <- Ee.
      rewrite (proj2 (IH out)); [done|]. split_and!; [cbn [cost_after cost_value]; lia|done|by rewrite Ea].
  - split; [|lia]. intros Ee. destruct (run_alone charges r c) as [c1 r1]. cbn [snd] in Hr. by subst.
Qed.

(** Tasks that were all paid end with their results. *)
Definition start (task : list Z * Result A E) : Task A E := Running task.1 task.2.
Lemma pending_start tasks : sum_Z pending (start <$> tasks) = charges_of tasks.
Proof. induction tasks as [|t tasks IH]; [done|]. rewrite fmap_cons. unfold charges_of in *. by rewrite !sum_Z_cons, IH. Qed.
Lemma pending_finished ts : Forall finished ts → sum_Z pending ts = 0.
Proof. induction 1 as [|t ts Ht _ IH]; [done|]. rewrite sum_Z_cons, IH. by destruct t. Qed.

(** Every schedule succeeds exactly when running the tasks one after the other
    does, with the same results and the same balance. *)
Lemma schedule_independent tasks c schedule out : nonneg_tasks tasks → in_bounds c (charges_of tasks) →
  let (ts, c') := run_tasks schedule (start <$> tasks) c in
  Forall finished ts → ts = (λ a, Finished (Ok a)) <$> out ↔ run_sequence tasks c = (c', Ok out).
Proof.
  intros Hn Hb. assert (Forall nonneg_charges (start <$> tasks)) as Hn'.
  { apply Forall_fmap, Forall_forall. intros t Ht a Ha. by eapply Hn. }
  pose proof (run_enough schedule (snd <$> tasks) (start <$> tasks) c) as Henough.
  pose proof (run_short schedule (start <$> tasks) c Hn') as Hshort. rewrite pending_start in *.
  destruct (run_tasks schedule (start <$> tasks) c) as [ts c'].
  intros Hf. rewrite run_sequence_spec by done. pose proof (pending_finished ts Hf) as H0. rewrite H0 in Henough.
  destruct (Z.le_gt_cases (charges_of tasks) (cost_value c)) as [Hle|Hgt].
  - destruct Henough as [Hw ->]; [|done..|rewrite Z.sub_0_r; split].
    { clear. induction tasks; [constructor|]. by constructor. }
    + intros ->. split_and!; [done| |done]. clear -Hw. revert out Hw. induction tasks as [|t tasks IH]; intros out Hw.
      * by destruct out; inversion Hw.
      * destruct out as [|a out]; [by inversion Hw|]. rewrite !fmap_cons in *. apply Forall2_cons in Hw as [Ht Hw].
        f_equal; [by symmetry|by apply IH].
    + intros (_ & Eo & _). rewrite Eo in Hw. clear -Hw Hf. revert out Hw. induction Hf as [|t ts Ht _ IH]; intros out Hw.
      * by destruct out; inversion Hw.
      * destruct out as [|a out]; [by inversion Hw|]. rewrite !fmap_cons in *. apply Forall2_cons in Hw as [Hr Hw].
        f_equal; [destruct t; by simpl in *; subst|by apply IH].
  - split; [|lia]. intros ->. destruct Hb as (Hb1 & Hb2 & Hb3).
    destruct Hshort as (t & Ht & Ho); [unfold short; rewrite pending_start; lia|lia|done|].
    apply list_elem_of_fmap in Ht as (a & -> & _). discriminate Ho.
Qed.
End Tasks.
