(* ===== verification/Substitute.v ===== *)
(** * Substitution

    [rholang/src/env.rs] and [rholang/src/substitute.rs]: the environment of de
    Bruijn indices, and the substitution of its values in a term.  The
    functions on the parts of a term take the substitution of the processes
    below them, [sub]. *)

From S2P Require Import Prelude BTree Bytes Trace Ast ParOps Types Sorter SorterSpec Accounting.

(** ** Environments

    Levels and shifts are [i32] in the source and unbounded here: they count
    the binders around a term. *)
Record Env (A : Type) := mkEnv {
  env_map : gmap Z A;
  env_level : Z;
  env_shift : Z;
}.
#[global] Arguments mkEnv {A}.
#[global] Arguments env_map {A}.
#[global] Arguments env_level {A}.
#[global] Arguments env_shift {A}.

Section Env.
Context {A : Type}.
Definition env_new : Env A := mkEnv ∅ 0 0.
Definition env_put (env : Env A) (a : A) : Env A :=
  mkEnv (<[env_level env := a]> (env_map env)) (env_level env + 1) (env_shift env).
Definition env_get (env : Env A) (k : Z) : option A := env_map env !! ((env_level env + env_shift env) - k - 1).
Definition shift (env : Env A) (j : Z) : Env A := mkEnv (env_map env) (env_level env) (env_shift env + j).
Definition make_env (values : list A) : Env A := foldl env_put env_new values.
End Env.

Notation Subst A := (Result A RholangError).

(** ** Variables *)
Definition maybe_substitute_var (var : Var) (depth : Z) (env : Env Par) : Subst (Par + Var) :=
  if negb (depth =? 0) then Ok (inr var)
  else
    match var with
    | BoundVar index =>
        match env_get env index with Some par => Ok (inl par) | None => Ok (inr var) end
    | _ => Err (SubstituteError var)
    end.

Definition maybe_substitute_varref (index var_depth depth : Z) (env : Env Par) : option Par :=
  if negb (var_depth =? depth) then None else env_get env index.

(** [Bundle::merge]. *)
Definition bundle_merge (b other : Bundle) : Bundle :=
  mkBundle (b_body other) (b_write_flag b && b_write_flag other) (b_read_flag b && b_read_flag other).

(** ** Terms *)
Section Sub.
Context (sub : Par → Z → Env Par → Subst Par).

Definition substitute_expr_no_sort (expr : Expr) (depth : Z) (env : Env Par) : Subst Expr :=
  let one p := sub p depth env in
  let free lf := until_free lf (env_shift env) in
  match expr with
  | GBool _ | GInt _ | GBigInt _ | GString _ | GUri _ | GByteArray _ => Ok expr
  | ENot p => a ←? one p; Ok (ENot a)
  | ENeg p => a ←? one p; Ok (ENeg a)
  | EBin op p1 p2 => a ←? one p1; b ←? one p2; Ok (EBin op a b)
  | EList l =>
      ps ←? try_map one (el_ps l);
      Ok (EList (mkEList ps (free (el_locally_free l)) (el_connective_used l) (el_remainder l)))
  | ETuple t =>
      ps ←? try_map one (et_ps t);
      Ok (ETuple (mkETuple ps (free (et_locally_free t)) (et_connective_used t)))
  | ESet s =>
      ps ←? try_map one (ps_ps s);
      Ok (ESet (mkParSet (sort_pars ps) (ps_connective_used s) (free (ps_locally_free s)) (ps_remainder s)))
  | EMap m =>
      kvs ←? try_map (λ kv, k ←? one kv.1; v ←? one kv.2; Ok (k, v)) (pm_kvs m);
      Ok (EMap (mkParMap (sort_pairs kvs) (pm_connective_used m) (free (pm_locally_free m)) (pm_remainder m)))
  | EMethod m =>
      target ←? one (em_target m);
      arguments ←? try_map one (em_arguments m);
      Ok (EMethod (mkEMethod (em_method_name m) target arguments (free (em_locally_free m)) (em_connective_used m)))
  | EVar _ => Ok expr
  end.

(** The expressions are visited from the last to the first. *)
Fixpoint sub_exprs (exprs : list Expr) (depth : Z) (env : Env Par) : Subst Par :=
  match exprs with
  | [] => Ok par_nil
  | expr :: rest =>
      par ←? sub_exprs rest depth env;
      match expr with
      | EVar v =>
          s ←? maybe_substitute_var v depth env;
          Ok match s with
             | inl sub_par => par_concat sub_par par
             | inr evar => prepend_expr par (EVar evar) depth
             end
      | _ => sub_expr ←? substitute_expr_no_sort expr depth env; Ok (prepend_expr par sub_expr depth)
      end
  end.

Fixpoint sub_conns (conns : list Connective) (depth : Z) (env : Env Par) : Subst Par :=
  match conns with
  | [] => Ok par_nil
  | conn :: rest =>
      par ←? sub_conns rest depth env;
      match conn with
      | VarRef index var_depth =>
          Ok match maybe_substitute_varref index var_depth depth env with
             | Some sub_par => par_concat sub_par par
             | None => prepend_connective par (VarRef index var_depth) depth
             end
      | ConnEmpty => Ok par
      | ConnAnd ps =>
          sub_ps ←? try_map (λ p, sub p depth env) ps; Ok (prepend_connective par (ConnAnd sub_ps) depth)
      | ConnOr ps =>
          sub_ps ←? try_map (λ p, sub p depth env) ps; Ok (prepend_connective par (ConnOr sub_ps) depth)
      | ConnNot p => sub_p ←? sub p depth env; Ok (prepend_connective par (ConnNot sub_p) depth)
      | ConnBool _ | ConnInt _ | ConnBigInt _ | ConnString _ | ConnUri _ | ConnByteArray _ =>
          Ok (prepend_connective par conn depth)
      end
  end.

Definition substitute_send_no_sort (send : Send) (depth : Z) (env : Env Par) : Subst Send :=
  channels_sub ←? sub (s_chan send) depth env;
  pars_sub ←? try_map (λ p, sub p depth env) (s_data send);
  Ok (mkSend channels_sub pars_sub (s_persistent send)
        (until_free (s_locally_free send) (env_shift env)) (s_connective_used send)).

Definition substitute_bind_no_sort (bind : ReceiveBind) (depth : Z) (env : Env Par) : Subst ReceiveBind :=
  sub_channel ←? sub (rb_source bind) depth env;
  sub_patterns ←? try_map (λ p, sub p (depth + 1) env) (rb_patterns bind);
  Ok (mkBind sub_patterns sub_channel (rb_remainder bind) (rb_free_count bind)).

Definition substitute_receive_no_sort (receive : Receive) (depth : Z) (env : Env Par) : Subst Receive :=
  binds_sub ←? try_map (λ b, substitute_bind_no_sort b depth env) (r_binds receive);
  body_sub ←? sub (r_body receive) depth (shift env (r_bind_count receive));
  Ok (mkReceive binds_sub body_sub (r_persistent receive) (r_peek receive) (r_bind_count receive)
        (until_free (r_locally_free receive) (env_shift env)) (r_connective_used receive)).

Definition substitute_new_no_sort (new : New) (depth : Z) (env : Env Par) : Subst New :=
  p_sub ←? sub (n_p new) depth (shift env (n_bind_count new));
  Ok (mkNew (n_bind_count new) p_sub (n_uri new) (n_injections new)
        (until_free (n_locally_free new) (env_shift env))).

Definition substitute_case_no_sort (case : MatchCase) (depth : Z) (env : Env Par) : Subst MatchCase :=
  par ←? sub (mc_source case) depth (shift env (mc_free_count case));
  sub_case ←? sub (mc_pattern case) (depth + 1) env;
  Ok (mkCase sub_case par (mc_free_count case)).

Definition substitute_match_no_sort (m : Match) (depth : Z) (env : Env Par) : Subst Match :=
  target_sub ←? sub (m_target m) depth env;
  cases_sub ←? try_map (λ c, substitute_case_no_sort c depth env) (m_cases m);
  Ok (mkMatch target_sub cases_sub (until_free (m_locally_free m) (env_shift env)) (m_connective_used m)).

Definition substitute_bundle_no_sort (bundle : Bundle) (depth : Z) (env : Env Par) : Subst Bundle :=
  s ←? sub (b_body bundle) depth env;
  Ok match single_bundle s with
     | Some single => bundle_merge bundle single
     | None => mkBundle s (b_write_flag bundle) (b_read_flag bundle)
     end.
End Sub.

Fixpoint substitute_par_no_sort (par : Par) (depth : Z) (env : Env Par) : Subst Par :=
  exprs_par ←? sub_exprs substitute_par_no_sort (exprs par) depth env;
  connectives_par ←? sub_conns substitute_par_no_sort (connectives par) depth env;
  sends ←? try_map (λ s, substitute_send_no_sort substitute_par_no_sort s depth env) (sends par);
  bundles ←? try_map (λ b, substitute_bundle_no_sort substitute_par_no_sort b depth env) (bundles par);
  receives ←? try_map (λ r, substitute_receive_no_sort substitute_par_no_sort r depth env) (receives par);
  news ←? try_map (λ n, substitute_new_no_sort substitute_par_no_sort n depth env) (news par);
  matches ←? try_map (λ m, substitute_match_no_sort substitute_par_no_sort m depth env) (matches par);
  let rest := mkPar sends receives news [] matches (unforgeables par) bundles []
                (until_free (locally_free par) (env_shift env)) (connective_used par) in
  let t1 := par_concat exprs_par connectives_par in
  Ok (par_concat t1 rest).

Definition substitute_par (par : Par) (depth : Z) (env : Env Par) : Subst Par :=
  s ←? substitute_par_no_sort par depth env; Ok (sort_par_term s).

(** The charge is the wire size of the substituted term, or, on failure, of the
    term. *)
Definition substitute_par_and_charge (wire_size : Par → Z) (par : Par) (depth : Z) (env : Env Par) : Charged Par :=
  match substitute_par par depth env with
  | Ok subst => _ ←$ charge (wire_size subst); sr_ret subst
  | Err e => _ ←$ charge (wire_size par); sr_err e
  end.

(** ** The environment: indices count from the innermost binder *)
Section EnvSpec.
Context {A : Type}.

Lemma make_env_snoc (values : list A) a : make_env (values ++ [a]) = env_put (make_env values) a.
Proof. unfold make_env. by rewrite foldl_app. Qed.
Lemma make_env_shape (values : list A) :
  env_level (make_env values) = Z.of_nat (length values) ∧ env_shift (make_env values) = 0 ∧
  ∀ i, env_map (make_env values) !! i = if 0 <=? i then values !! Z.to_nat i else None.
Proof.
  induction values as [|a values IH] using rev_ind.
  { split_and!; [done|done|]. intros i. by destruct (0 <=? i). }
  destruct IH as (Hl & Hs & Hm). rewrite make_env_snoc. cbn [env_put env_level env_shift env_map].
  rewrite Hl. split_and!; [rewrite length_app; simpl; lia|done|]. intros i.
  destruct (decide (i = Z.of_nat (length values))) as [->|Hi].
  - rewrite lookup_insert_eq. destruct (Z.leb_spec 0 (Z.of_nat (length values))); [|lia].
    rewrite Nat2Z.id, list_lookup_middle; done.
  - rewrite lookup_insert_ne by done. rewrite Hm. destruct (Z.leb_spec 0 i); [|done].
    destruct (decide (i < Z.of_nat (length values))).
    + by rewrite lookup_app_l by lia.
    + rewrite !lookup_ge_None_2; [done|rewrite length_app; simpl; lia|lia].
Qed.

Lemma env_get_make_env (values : list A) (j k : Z) :
  env_get (shift (make_env values) j) k =
    if (j <=? k) && (k <? Z.of_nat (length values) + j)
    then values !! Z.to_nat (Z.of_nat (length values) - 1 - (k - j)) else None.
Proof.
  destruct (make_env_shape values) as (Hl & Hs & Hm).
  unfold env_get, shift. cbn [env_map env_level env_shift]. rewrite Hl, Hs, Hm.
  destruct (Z.leb_spec j k), (Z.ltb_spec k (Z.of_nat (length values) + j)), 
    (Z.leb_spec 0 (Z.of_nat (length values) + (0 + j) - k - 1)); simpl; try lia; try done.
  - f_equal. lia.
  - apply lookup_ge_None_2. lia.
Qed.
End EnvSpec.
