(* ===== verification/SubstituteSpec.v ===== *)
(** * Substitution keeps terms well formed

    A term is well formed at depth [d] when its bound variables are below [d],
    no pattern variable is in evaluation position, and the bound variables of a
    pattern are bound in the pattern.  [k] counts the patterns around. *)

From S2P Require Import Prelude BTree Bytes Trace Ast ParOps Types Sorter SorterSpec Accounting Substitute.

(** ** Well formed terms *)

(** How a process is below another one: in the same scope, as a pattern, or
    under [n] binders. *)
Inductive Kid := KHere | KPattern | KBind (n : Z).

Section Kids.
Context {P : Type}.
Notation here := (pair KHere).
Notation patt := (pair KPattern).
Definition send_kids (s : SendF P) : list (Kid * P) := (KHere, s_chan s) :: (here <$> s_data s).
Definition bind_kids (b : ReceiveBindF P) : list (Kid * P) := (KHere, rb_source b) :: (patt <$> rb_patterns b).
Definition receive_kids (r : ReceiveF P) : list (Kid * P) :=
  (KBind (r_bind_count r), r_body r) :: (r_binds r ≫= bind_kids).
Definition new_kids (n : NewF P) : list (Kid * P) := [(KBind (n_bind_count n), n_p n)].
Definition case_kids (c : MatchCaseF P) : list (Kid * P) :=
  [(KPattern, mc_pattern c); (KBind (mc_free_count c), mc_source c)].
Definition match_kids (m : MatchF P) : list (Kid * P) := (KHere, m_target m) :: (m_cases m ≫= case_kids).
Definition bundle_kids (b : BundleF P) : list (Kid * P) := [(KHere, b_body b)].
Definition expr_kids (e : ExprF P) : list (Kid * P) := here <$> expr_children e.
Definition connective_kids (c : ConnectiveF P) : list (Kid * P) := here <$> connective_children c.
End Kids.

Definition par_kids (p : Par) : list (Kid * Par) :=
  (sends p ≫= send_kids) ++ (receives p ≫= receive_kids) ++ (news p ≫= new_kids) ++
  (exprs p ≫= expr_kids) ++ (matches p ≫= match_kids) ++ (bundles p ≫= bundle_kids) ++
  (connectives p ≫= connective_kids).

Definition kid_depth (c : Kid) (d : Z) : Z := match c with KHere => d | KPattern => 0 | KBind n => d + n end.
Definition kid_patterns (c : Kid) (k : Z) : Z := match c with KPattern => k + 1 | _ => k end.
Definition kid_ok (c : Kid) : Prop := match c with KBind n => 0 ≤ n | _ => True end.

Definition var_ok (d k : Z) (v : Var) : Prop :=
  match v with BoundVar l => 0 ≤ l < d | FreeVar _ | Wildcard | VarEmpty => 0 < k end.

(** The remainder of a bind is a pattern variable. *)
Definition remainder_ok (r : Receive) : Prop :=
  ∀ b, b ∈ r_binds r → match rb_remainder b with Some (BoundVar _) => False | _ => True end.

#[warnings="-register-all"] Inductive wf (d k : Z) (p : Par) : Prop :=
| wf_intro :
    (∀ v, EVar v ∈ exprs p → var_ok d k v) →
    (∀ r, r ∈ receives p → remainder_ok r) →
    (∀ c q, (c, q) ∈ par_kids p → kid_ok c ∧ wf (kid_depth c d) (kid_patterns c k) q) →
    wf d k p.

Definition kids_wf (d k : Z) (l : list (Kid * Par)) : Prop :=
  ∀ c q, (c, q) ∈ l → kid_ok c ∧ wf (kid_depth c d) (kid_patterns c k) q.

(** ** Lists of kids *)
Lemma kids_wf_app d k l l' : kids_wf d k (l ++ l') ↔ kids_wf d k l ∧ kids_wf d k l'.
Proof. unfold kids_wf. setoid_rewrite elem_of_app. naive_solver. Qed.
Lemma kids_wf_cons d k c q l : kids_wf d k ((c, q) :: l) ↔
  (kid_ok c ∧ wf (kid_depth c d) (kid_patterns c k) q) ∧ kids_wf d k l.
Proof. unfold kids_wf. setoid_rewrite elem_of_cons. naive_solver. Qed.
Lemma kids_wf_nil d k : kids_wf d k [].
Proof. intros c q Hq. by apply elem_of_nil in Hq. Qed.
Lemma kids_wf_bind {A} d k (h : A → list (Kid * Par)) l : kids_wf d k (l ≫= h) ↔ ∀ x, x ∈ l → kids_wf d k (h x).
Proof. unfold kids_wf. setoid_rewrite list_elem_of_bind. naive_solver. Qed.
Lemma kids_wf_here d k l : kids_wf d k (pair KHere <$> l) ↔ ∀ q, q ∈ l → wf d k q.
Proof.
  unfold kids_wf. setoid_rewrite list_elem_of_fmap. split.
  - intros H q Hq. destruct (H KHere q) as [_ ?]; [eauto|done].
  - intros H c q (q' & [= -> ->] & Hq). split; [done|]. by apply H.
Qed.
Lemma kids_wf_pattern d k l : kids_wf d k (pair KPattern <$> l) ↔ ∀ q, q ∈ l → wf 0 (k + 1) q.
Proof.
  unfold kids_wf. setoid_rewrite list_elem_of_fmap. split.
  - intros H q Hq. destruct (H KPattern q) as [_ ?]; [eauto|done].
  - intros H c q (q' & [= -> ->] & Hq). split; [done|]. by apply H.
Qed.

(** Well-formedness by fields. *)
Definition send_wf d k (s : Send) : Prop := kids_wf d k (send_kids s).
Definition receive_wf d k (r : Receive) : Prop := remainder_ok r ∧ kids_wf d k (receive_kids r).
Definition new_wf d k (n : New) : Prop := kids_wf d k (new_kids n).
Definition expr_wf d k (e : Expr) : Prop :=
  match e with EVar v => var_ok d k v | _ => True end ∧ kids_wf d k (expr_kids e).
Definition match_wf d k (m : Match) : Prop := kids_wf d k (match_kids m).
Definition bundle_wf d k (b : Bundle) : Prop := kids_wf d k (bundle_kids b).
Definition connective_wf d k (c : Connective) : Prop := kids_wf d k (connective_kids c).

Lemma wf_fields d k p : wf d k p ↔
  (∀ x, x ∈ sends p → send_wf d k x) ∧ (∀ x, x ∈ receives p → receive_wf d k x) ∧
  (∀ x, x ∈ news p → new_wf d k x) ∧ (∀ x, x ∈ exprs p → expr_wf d k x) ∧
  (∀ x, x ∈ matches p → match_wf d k x) ∧ (∀ x, x ∈ bundles p → bundle_wf d k x) ∧
  (∀ x, x ∈ connectives p → connective_wf d k x).
Proof.
  split.
  - intros [Hv Hr Hk]. fold (kids_wf d k (par_kids p)) in Hk. unfold par_kids in Hk.
    rewrite !kids_wf_app, !kids_wf_bind in Hk. destruct Hk as (H1 & H2 & H3 & H4 & H5 & H6 & H7).
    refine (conj H1 (conj _ (conj H3 (conj _ (conj H5 (conj H6 H7)))))).
    + intros x Hx. split; [by apply Hr|by apply H2].
    + intros x Hx. split; [|by apply H4]. destruct x; try exact I. by apply Hv.
  - intros (H1 & H2 & H3 & H4 & H5 & H6 & H7). constructor.
    + intros v Hv. by apply (H4 (EVar v)).
    + intros r Hr. by apply H2.
    + fold (kids_wf d k (par_kids p)). unfold par_kids. rewrite !kids_wf_app, !kids_wf_bind.
      refine (conj H1 (conj _ (conj H3 (conj _ (conj H5 (conj H6 H7)))))); intros x Hx; [by apply H2|by apply H4].
Qed.

(** Parallel composition. *)
Lemma all_app {A} (R : A → Prop) l k : (∀ x, x ∈ l ++ k → R x) ↔ (∀ x, x ∈ l → R x) ∧ (∀ x, x ∈ k → R x).
Proof. setoid_rewrite elem_of_app. naive_solver. Qed.
Lemma all_cons {A} (R : A → Prop) a l : (∀ x, x ∈ a :: l → R x) ↔ R a ∧ (∀ x, x ∈ l → R x).
Proof. setoid_rewrite elem_of_cons. naive_solver. Qed.
Lemma wf_concat d k p q : wf d k (par_concat p q) ↔ wf d k q ∧ wf d k p.
Proof.
  rewrite !wf_fields. unfold par_concat.
  cbn [sends receives news exprs matches bundles connectives]. rewrite !all_app. tauto.
Qed.
Lemma wf_nil d k : wf d k par_nil.
Proof. rewrite wf_fields. split_and!; intros x Hx; by apply elem_of_nil in Hx. Qed.
Lemma wf_prepend_expr d k p e n : wf d k (prepend_expr p e n) ↔ expr_wf d k e ∧ wf d k p.
Proof.
  rewrite !wf_fields. unfold prepend_expr, with_exprs.
  cbn [sends receives news exprs matches bundles connectives]. rewrite all_cons. tauto.
Qed.
Lemma wf_prepend_connective d k p c n : wf d k (prepend_connective p c n) ↔ connective_wf d k c ∧ wf d k p.
Proof.
  rewrite !wf_fields. unfold prepend_connective, with_connectives.
  cbn [sends receives news exprs matches bundles connectives]. rewrite all_cons. tauto.
Qed.

(** ** Kids of mapped terms *)
Section KidsMap.
Context {P Q : Type} (g : BitSet → BitSet) (f : P → Q).
Notation on_kids := (prod_map (A := Kid) id f).

Lemma bind_fmap_kids {A B} (h : A → list (Kid * P)) (h' : B → list (Kid * Q)) (u : A → B) l :
  (∀ a, h' (u a) = on_kids <$> h a) → (u <$> l) ≫= h' = on_kids <$> (l ≫= h).
Proof. intros E. induction l as [|a l IH]; [done|]. rewrite fmap_cons, !bind_cons, fmap_app, E. by rewrite IH. Qed.
Lemma fmap_kids (c : Kid) (l : list P) : pair c <$> (f <$> l) = on_kids <$> (pair c <$> l).
Proof. by rewrite <- !list_fmap_compose. Qed.

Lemma send_kids_map s : send_kids (send_map g f s) = on_kids <$> send_kids s.
Proof. unfold send_kids. simpl. by rewrite <- fmap_kids. Qed.
Lemma bind_kids_map b : bind_kids (bind_map f b) = on_kids <$> bind_kids b.
Proof. unfold bind_kids. simpl. by rewrite <- fmap_kids. Qed.
Lemma receive_kids_map r : receive_kids (receive_map g f r) = on_kids <$> receive_kids r.
Proof.
  unfold receive_kids. rewrite fmap_cons. cbn [receive_map r_body r_binds r_bind_count]. f_equal.
  apply bind_fmap_kids, bind_kids_map.
Qed.
Lemma match_kids_map m : match_kids (match_map g f m) = on_kids <$> match_kids m.
Proof.
  unfold match_kids. rewrite fmap_cons. cbn [match_map m_target m_cases]. f_equal. by apply bind_fmap_kids.
Qed.
Lemma expr_kids_map e : expr_kids (expr_map g f e) = on_kids <$> expr_kids e.
Proof. unfold expr_kids. by rewrite expr_map_children, fmap_kids. Qed.
Lemma connective_kids_map c : connective_kids (connective_map f c) = on_kids <$> connective_kids c.
Proof. unfold connective_kids. by rewrite connective_map_children, fmap_kids. Qed.
End KidsMap.

(** The kids are among the children. *)
Lemma pair_children_in {A B} (h : A → list (Kid * B)) (h' : A → list B) l c q :
  (∀ a c q, (c, q) ∈ h a → q ∈ h' a) → (c, q) ∈ l ≫= h → q ∈ l ≫= h'.
Proof. intros H (a & Hq & Ha)%list_elem_of_bind. eapply elem_of_bind_in; eauto. Qed.
Lemma pair_fmap_in {B} (c c' : Kid) (q : B) (l : list B) : (c, q) ∈ pair c' <$> l → q ∈ l.
Proof. by intros (x & [= -> ->] & Hx)%list_elem_of_fmap. Qed.
Section KidChild.
Context (c : Kid) (q : Par).
Lemma send_kid s : (c, q) ∈ send_kids s → q ∈ send_children s.
Proof. intros [[= -> ->]|H'%pair_fmap_in]%elem_of_cons; [by left|by right]. Qed.
Lemma receive_kid r : (c, q) ∈ receive_kids r → q ∈ receive_children r.
Proof.
  intros [[= -> ->]|H]%elem_of_cons; [by left|right]. eapply pair_children_in; [|exact H].
  intros b c' q' [[= -> ->]|H'%pair_fmap_in]%elem_of_cons; [by left|by right].
Qed.
Lemma new_kid n : (c, q) ∈ new_kids n → q ∈ new_children n.
Proof. intros [= -> ->]%list_elem_of_singleton. by left. Qed.
Lemma match_kid m : (c, q) ∈ match_kids m → q ∈ match_children m.
Proof.
  intros [[= -> ->]|H]%elem_of_cons; [by left|right]. eapply pair_children_in; [|exact H].
  intros b c' q' [[= -> ->]|[= -> ->]%list_elem_of_singleton]%elem_of_cons; [by left|right; by left].
Qed.
Lemma bundle_kid b : (c, q) ∈ bundle_kids b → q ∈ bundle_children b.
Proof. intros [= -> ->]%list_elem_of_singleton. by left. Qed.
Lemma expr_kid e : (c, q) ∈ expr_kids e → q ∈ expr_children e.
Proof. apply pair_fmap_in. Qed.
Lemma connective_kid x : (c, q) ∈ connective_kids x → q ∈ connective_children x.
Proof. apply pair_fmap_in. Qed.
End KidChild.
#[export] Hint Resolve send_kid receive_kid new_kid match_kid bundle_kid expr_kid connective_kid : ast.

Lemma kids_children p c q : (c, q) ∈ par_kids p → q ∈ par_children p.
Proof.
  unfold par_kids. rewrite !elem_of_app, !list_elem_of_bind.
  intros [(x & H & Hx)|[(x & H & Hx)|[(x & H & Hx)|[(x & H & Hx)|[(x & H & Hx)|[(x & H & Hx)|(x & H & Hx)]]]]]];
    eauto with ast.
Qed.

(** ** Deeper scopes *)
Lemma wf_mono d k d' k' p : d ≤ d' → k ≤ k' → wf d k p → wf d' k' p.
Proof.
  revert d k d' k'. induction p as [p IH] using par_children_ind. intros d k d' k' Hd Hk [Hv Hr Hq].
  constructor; [|done|].
  - intros v Hx. specialize (Hv v Hx). destruct v; simpl in *; lia.
  - intros c q Hc. destruct (Hq c q Hc) as [Hok Hw]. split; [done|].
    eapply (IH q (kids_children p c q Hc)); [..|exact Hw]; destruct c; simpl; lia.
Qed.

(** ** Sorting *)
Lemma remainder_ok_map g f r : remainder_ok (receive_map g f r) ↔ remainder_ok r.
Proof.
  unfold remainder_ok. cbn [receive_map r_binds]. split; intros H b Hb.
  - apply (H (bind_map f b)). apply list_elem_of_fmap. eauto.
  - apply list_elem_of_fmap in Hb as (b' & -> & Hb'). apply (H b' Hb').
Qed.

Definition same_wf (f : Par → Par) (q : Par) : Prop := ∀ d k, wf d k (f q) ↔ wf d k q.
Lemma kids_wf_map f d k l : (∀ c q, (c, q) ∈ l → same_wf f q) → kids_wf d k (prod_map id f <$> l) ↔ kids_wf d k l.
Proof.
  intros H. unfold kids_wf. setoid_rewrite list_elem_of_fmap. split.
  - intros Hk c q Hq. destruct (Hk c (f q)) as [? Hw]; [by exists (c, q)|]. split; [done|]. by apply (H c q Hq).
  - intros Hk c q' ([c' q] & [= -> ->] & Hq). destruct (Hk c' q Hq) as [? Hw]. split; [done|]. by apply (H c' q Hq).
Qed.

Lemma all_sort_field {T} (R R' : T → Prop) (f : T → ScoredTerm T) l :
  (∀ x, x ∈ l → R (st_term (f x)) ↔ R' x) →
  (∀ x, x ∈ st_term <$> sort_scores (f <$> l) → R x) ↔ (∀ x, x ∈ l → R' x).
Proof.
  intros H. split.
  - intros Hx x Hl. apply H; [done|]. apply Hx. apply list_elem_of_fmap. exists (f x). split; [done|].
    apply elem_of_sort_scores, list_elem_of_fmap. eauto.
  - intros Hx x (y & -> & (z & -> & Hz)%elem_of_sort_scores%list_elem_of_fmap)%list_elem_of_fmap. apply H; auto.
Qed.

Lemma wf_sort d k p : wf d k (sort_par_term p) ↔ wf d k p.
Proof.
  unfold sort_par_term. revert d k. induction p as [p IH] using par_children_ind. intros d k.
  assert (∀ q, q ∈ par_children p → same_wf (λ q, st_term (sort_par q)) q) as Hs by (intros q Hq d' k'; by apply IH).
  clear IH. rewrite !wf_fields. destruct p as [ss rs ns es ms us bs cs lf cu].
  cbn [sort_par st_term sends receives news exprs matches bundles connectives] in *.
  rewrite (all_sort_field (send_wf d k) (send_wf d k)), (all_sort_field (receive_wf d k) (receive_wf d k)),
    (all_sort_field (new_wf d k) (new_wf d k)), (all_sort_field (expr_wf d k) (expr_wf d k)),
    (all_sort_field (match_wf d k) (match_wf d k)), (all_sort_field (bundle_wf d k) (bundle_wf d k)),
    (all_sort_field (connective_wf d k) (connective_wf d k)); [done|..]; intros x Hx.
  - unfold connective_wf. cbn [st_term sort_connective]. rewrite connective_kids_map. apply kids_wf_map. eauto with ast.
  - apply (kids_wf_map (λ q, st_term (sort_par q)) d k (bundle_kids x)). eauto with ast.
  - unfold match_wf. cbn [st_term sort_match]. rewrite match_kids_map. apply kids_wf_map. eauto with ast.
  - unfold expr_wf. cbn [st_term sort_expr]. rewrite expr_kids_map, kids_wf_map by eauto with ast. by destruct x.
  - apply (kids_wf_map (λ q, st_term (sort_par q)) d k (new_kids x)). eauto with ast.
  - unfold receive_wf. cbn [st_term sort_receive]. rewrite receive_kids_map, kids_wf_map by eauto with ast.
    by rewrite remainder_ok_map.
  - unfold send_wf. cbn [st_term sort_send]. rewrite send_kids_map. apply kids_wf_map. eauto with ast.
Qed.

(** ** Substitution *)
Definition env_ok (env : Env Par) : Prop :=
  (∀ i v, env_map env !! i = Some v → wf 0 0 v) ∧
  (∀ i, is_Some (env_map env !! i) ↔ 0 ≤ i < env_level env).

(** The depths of a term before and after substitution: outside of patterns the
    variables of the environment go away. *)
Definition scopes (env : Env Par) (k din dout : Z) : Prop :=
  0 ≤ dout ∧ 0 ≤ k ∧ (k = 0 → din = env_level env + env_shift env ∧ dout = env_shift env) ∧ (k ≠ 0 → din = dout).

Lemma env_ok_shift env n : env_ok env → env_ok (shift env n).
Proof. done. Qed.
Lemma scopes_pattern env k din dout : scopes env k din dout → scopes env (k + 1) 0 0.
Proof. intros (? & ? & _). split_and!; lia. Qed.
Lemma scopes_shift env k din dout n : 0 ≤ n → scopes env k din dout → scopes (shift env n) k (din + n) (dout + n).
Proof. intros Hn (? & ? & H1 & H2). unfold shift. split_and!; cbn [env_level env_shift]; lia. Qed.

Lemma env_get_wf env index v : env_ok env → env_get env index = Some v → wf 0 0 v.
Proof. intros [H _] E. by eapply H. Qed.

Lemma try_map_ok {A B E} (f : A → Result B E) (R : B → Prop) l :
  (∀ a, a ∈ l → ∃ b, f a = Ok b ∧ R b) → ∃ bs, try_map f l = Ok bs ∧ ∀ b, b ∈ bs → R b.
Proof.
  induction l as [|a l IH]; intros H; simpl.
  { exists []. split; [done|]. intros b Hb. by apply elem_of_nil in Hb. }
  destruct (H a) as (b & -> & Hb); [by left|]. destruct IH as (bs & -> & Hbs); [intros; apply H; by right|].
  exists (b :: bs). split; [done|]. intros b' [->|?]%elem_of_cons; auto.
Qed.

Lemma elem_of_sort_scored {A B} (f : A → ScoredTerm B) (q : B) l :
  q ∈ sort_scored (f <$> l) ↔ ∃ p, q = st_term (f p) ∧ p ∈ l.
Proof.
  unfold sort_scored. rewrite list_elem_of_fmap. split.
  - intros (y & -> & (x & -> & Hx)%elem_of_sort_scores%list_elem_of_fmap). eauto.
  - intros (p & -> & Hp). exists (f p). split; [done|]. apply elem_of_sort_scores, list_elem_of_fmap. eauto.
Qed.
Lemma elem_of_sort_pars q ps : q ∈ sort_pars ps ↔ ∃ p, q = sort_par_term p ∧ p ∈ ps.
Proof. apply elem_of_sort_scored. Qed.
Lemma elem_of_sort_pairs kv kvs : kv ∈ sort_pairs kvs ↔
  ∃ x, kv = (sort_par_term x.1, sort_par_term x.2) ∧ x ∈ kvs.
Proof. apply elem_of_sort_scored. Qed.

Section Sub.
Context (sub : Par → Z → Env Par → Subst Par) (env : Env Par) (k din dout : Z).
Context (Henv : env_ok env) (Hsc : scopes env k din dout).
Definition sub_ok (q : Par) : Prop :=
  ∀ env k din dout, env_ok env → scopes env k din dout → wf din k q → ∃ r, sub q k env = Ok r ∧ wf dout k r.

Lemma sub_here q : sub_ok q → wf din k q → ∃ r, sub q k env = Ok r ∧ wf dout k r.
Proof. intros H. by apply H. Qed.
Lemma sub_pattern q : sub_ok q → wf 0 (k + 1) q → ∃ r, sub q (k + 1) env = Ok r ∧ wf 0 (k + 1) r.
Proof. intros H. apply H; [done|]. by eapply scopes_pattern. Qed.
Lemma sub_under q n : sub_ok q → 0 ≤ n → wf (din + n) k q → ∃ r, sub q k (shift env n) = Ok r ∧ wf (dout + n) k r.
Proof. intros H Hn. apply H; [done|]. by apply scopes_shift. Qed.
Lemma sub_list l : (∀ q, q ∈ l → sub_ok q) → (∀ q, q ∈ l → wf din k q) →
  ∃ rs, try_map (λ p, sub p k env) l = Ok rs ∧ ∀ r, r ∈ rs → wf dout k r.
Proof. intros Hs Hw. apply try_map_ok. intros q Hq. apply sub_here; auto. Qed.

Lemma subst_send s : (∀ q, q ∈ send_children s → sub_ok q) → send_wf din k s →
  ∃ s', substitute_send_no_sort sub s k env = Ok s' ∧ send_wf dout k s'.
Proof.
  unfold send_wf, send_kids, substitute_send_no_sort. intros Hs. rewrite kids_wf_cons, kids_wf_here. intros [[_ Hc] Hd].
  destruct (sub_here (s_chan s)) as (c' & -> & Hc'); [apply Hs; by left|done|].
  destruct (sub_list (s_data s)) as (d' & -> & Hd'); [intros; apply Hs; by right|done|].
  eexists. split; [done|]. simpl. by rewrite kids_wf_cons, kids_wf_here.
Qed.

Lemma subst_receive r : (∀ q, q ∈ receive_children r → sub_ok q) → receive_wf din k r →
  ∃ r', substitute_receive_no_sort sub r k env = Ok r' ∧ receive_wf dout k r'.
Proof.
  unfold receive_wf, receive_kids, substitute_receive_no_sort. intros Hs. rewrite kids_wf_cons, kids_wf_bind.
  intros (Hr & [Hn Hb] & Hbs).
  destruct (try_map_ok (λ b, substitute_bind_no_sort sub b k env)
    (λ b, kids_wf dout k (bind_kids b) ∧ match rb_remainder b with Some (BoundVar _) => False | _ => True end)
    (r_binds r)) as (bs & -> & Hbs').
  { intros b Hbr. specialize (Hbs b Hbr). unfold bind_kids in Hbs. rewrite kids_wf_cons, kids_wf_pattern in Hbs.
    destruct Hbs as [[_ Hsrc] Hps]. unfold substitute_bind_no_sort.
    assert (∀ q, q ∈ bind_children b → sub_ok q) as Hsb by (intros q Hq; apply Hs; right; by eapply elem_of_bind_in).
    destruct (sub_here (rb_source b)) as (c' & -> & Hc'); [apply Hsb; by left|done|].
    destruct (try_map_ok (λ p, sub p (k + 1) env) (wf 0 (k + 1)) (rb_patterns b)) as (ps & -> & Hps').
    { intros q Hq. apply sub_pattern; [apply Hsb; by right|by apply Hps]. }
    eexists. split; [done|]. simpl. unfold bind_kids. simpl. rewrite kids_wf_cons, kids_wf_pattern.
    split; [done|]. by apply Hr. }
  destruct (sub_under (r_body r) (r_bind_count r)) as (bd & -> & Hbd); [apply Hs; by left|done|done|].
  eexists. split; [done|]. cbn [r_binds r_body r_bind_count]. rewrite kids_wf_cons, kids_wf_bind. split_and!; [|done|done|].
  - intros b Hb'. by apply Hbs'.
  - intros b Hb'. by apply Hbs'.
Qed.

Lemma subst_new n : (∀ q, q ∈ new_children n → sub_ok q) → new_wf din k n →
  ∃ n', substitute_new_no_sort sub n k env = Ok n' ∧ new_wf dout k n'.
Proof.
  unfold new_wf, new_kids, substitute_new_no_sort. intros Hs. rewrite kids_wf_cons. intros [[Hn Hp] _].
  destruct (sub_under (n_p n) (n_bind_count n)) as (p' & -> & Hp'); [apply Hs; by left|done|done|].
  eexists. split; [done|]. cbn [n_bind_count n_p]. rewrite kids_wf_cons. split; [done|]. apply kids_wf_nil.
Qed.

Lemma subst_match m : (∀ q, q ∈ match_children m → sub_ok q) → match_wf din k m →
  ∃ m', substitute_match_no_sort sub m k env = Ok m' ∧ match_wf dout k m'.
Proof.
  unfold match_wf, match_kids, substitute_match_no_sort. intros Hs. rewrite kids_wf_cons, kids_wf_bind. intros [[_ Ht] Hcs].
  destruct (sub_here (m_target m)) as (t & -> & Ht'); [apply Hs; by left|done|].
  destruct (try_map_ok (λ c, substitute_case_no_sort sub c k env) (λ c, kids_wf dout k (case_kids c)) (m_cases m)) as (cs & -> & Hcs').
  { intros c Hc. specialize (Hcs c Hc). unfold case_kids in Hcs. rewrite !kids_wf_cons in Hcs.
    destruct Hcs as ((_ & Hpat) & (Hn & Hsrc) & _). unfold substitute_case_no_sort.
    assert (∀ q, q ∈ case_children c → sub_ok q) as Hsb by (intros q Hq; apply Hs; right; by eapply elem_of_bind_in).
    destruct (sub_under (mc_source c) (mc_free_count c)) as (s' & -> & Hs'); [apply Hsb; right; by left|done|done|].
    destruct (sub_pattern (mc_pattern c)) as (p' & -> & Hp'); [apply Hsb; by left|done|].
    eexists. split; [done|]. unfold case_kids. simpl. rewrite !kids_wf_cons.
    exact (conj (conj I Hp') (conj (conj Hn Hs') (kids_wf_nil _ _))). }
  eexists. split; [done|]. cbn [m_target m_cases]. by rewrite kids_wf_cons, kids_wf_bind.
Qed.

Lemma subst_bundle b : (∀ q, q ∈ bundle_children b → sub_ok q) → bundle_wf din k b →
  ∃ b', substitute_bundle_no_sort sub b k env = Ok b' ∧ bundle_wf dout k b'.
Proof.
  unfold bundle_wf, bundle_kids, substitute_bundle_no_sort. intros Hs. rewrite kids_wf_cons. intros [[_ Hp] _].
  destruct (sub_here (b_body b)) as (p' & -> & Hp'); [apply Hs; by left|done|].
  eexists. split; [done|]. destruct (single_bundle p') as [x|] eqn:Ex; [|simpl; rewrite kids_wf_cons; split; [done|apply kids_wf_nil]].
  assert (x ∈ bundles p') as Hx.
  { unfold single_bundle in Ex. destruct (_ && _); [|done]. destruct (bundles p'); [done|]. injection Ex as ->. by left. }
  rewrite wf_fields in Hp'. destruct Hp' as (_ & _ & _ & _ & _ & Hb & _). specialize (Hb x Hx).
  exact Hb.
Qed.

Lemma subst_expr e : (∀ q, q ∈ expr_children e → sub_ok q) → match e with EVar _ => False | _ => True end → expr_wf din k e →
  ∃ e', substitute_expr_no_sort sub e k env = Ok e' ∧ expr_wf dout k e'.
Proof.
  unfold expr_wf, expr_kids. rewrite kids_wf_here. intros Hs He [_ Hw].
  assert (∀ e', match e' with EVar _ => False | _ => True end → (∀ q, q ∈ expr_children e' → wf dout k q) →
    match e' with EVar v => var_ok dout k v | _ => True end ∧ kids_wf dout k (pair KHere <$> expr_children e')) as Hres.
  { intros e' ? H. rewrite kids_wf_here. by destruct e'. }
  destruct e as [| | | | | |p|p| |o p q|l|l|l|l|l]; simpl in *; try done.
  1-6: eexists; (split; [done|]); apply Hres; [done|]; simpl; intros q Hq; by apply elem_of_nil in Hq.
  - destruct (sub_here p) as (a & -> & Ha); [apply Hs; by left|apply Hw; by left|]. eexists. split; [done|].
    apply Hres; [done|]. by intros q ->%list_elem_of_singleton.
  - destruct (sub_here p) as (a & -> & Ha); [apply Hs; by left|apply Hw; by left|]. eexists. split; [done|].
    apply Hres; [done|]. by intros q ->%list_elem_of_singleton.
  - destruct (sub_here p) as (a & -> & Ha); [apply Hs; by left|apply Hw; by left|].
    destruct (sub_here q) as (b & -> & Hb); [apply Hs; right; by left|apply Hw; right; by left|].
    eexists. split; [done|]. apply Hres; [done|]. intros r [->|Hr%list_elem_of_singleton]%elem_of_cons; [done|by subst r].
  - destruct (sub_list (el_ps l)) as (ps & -> & Hps); [done|done|]. eexists. split; [done|]. by apply Hres.
  - destruct (sub_list (et_ps l)) as (ps & -> & Hps); [done|done|]. eexists. split; [done|]. by apply Hres.
  - destruct (sub_list (ps_ps l)) as (ps & -> & Hps); [done|done|]. eexists. split; [done|]. apply Hres; [done|].
    simpl. intros r (p & -> & Hp)%elem_of_sort_pars. apply wf_sort. by apply Hps.
  - destruct (try_map_ok (λ kv, a ←? sub kv.1 k env; b ←? sub kv.2 k env; Ok (a, b))
      (λ kv, wf dout k kv.1 ∧ wf dout k kv.2) (pm_kvs l)) as (kvs & -> & Hkvs).
    { intros kv Hkv. assert (∀ q, q ∈ pair_children kv → q ∈ pm_kvs l ≫= pair_children) as Hin
        by (intros q Hq; by eapply elem_of_bind_in).
      destruct (sub_here kv.1) as (a & -> & Ha); [apply Hs, Hin; by left|apply Hw, Hin; by left|].
      destruct (sub_here kv.2) as (b & -> & Hb); [apply Hs, Hin; right; by left|apply Hw, Hin; right; by left|].
      eexists. by split. }
    eexists. split; [done|]. apply Hres; [done|]. simpl.
    intros r (kv & Hr & (x & -> & Hx)%elem_of_sort_pairs)%list_elem_of_bind. destruct (Hkvs x Hx).
    apply elem_of_cons in Hr as [->|Hr%list_elem_of_singleton]; [|subst r]; by apply wf_sort.
  - destruct (sub_here (em_target l)) as (t & -> & Ht); [apply Hs; by left|apply Hw; by left|].
    destruct (sub_list (em_arguments l)) as (ps & -> & Hps); [intros; apply Hs; by right|intros; apply Hw; by right|].
    eexists. split; [done|]. apply Hres; [done|]. intros r [->|Hr]%elem_of_cons; [done|by apply Hps].
Qed.

Lemma subst_exprs es : (∀ e, e ∈ es → ∀ q, q ∈ expr_children e → sub_ok q) → (∀ e, e ∈ es → expr_wf din k e) →
  ∃ p, sub_exprs sub es k env = Ok p ∧ wf dout k p.
Proof.
  induction es as [|e es IH]; intros Hs Hw; simpl; [eexists; split; [done|apply wf_nil]|].
  destruct IH as (p & -> & Hp); [intros e' He'; apply Hs; by right|intros; apply Hw; by right|].
  specialize (Hs e ltac:(by left)). specialize (Hw e ltac:(by left)).
  assert (match e with EVar _ => False | _ => True end →
    ∃ p0, (s ←? substitute_expr_no_sort sub e k env; Ok (prepend_expr p s k)) = Ok p0 ∧ wf dout k p0) as Hother.
  { intros He. destruct (subst_expr e Hs He Hw) as (e' & -> & He'). eexists. split; [done|]. by apply wf_prepend_expr. }
  destruct e as [| | | | | | | |v| | | | | |]; try (by apply Hother). clear Hother Hs.
  destruct Hw as [Hv _]. unfold maybe_substitute_var. destruct Hsc as (Hd & Hk & Hk0 & Hk1).
  destruct (Z.eqb_spec k 0) as [->|Hkn]; simpl.
  - destruct v as [l| | |]; simpl in Hv; [|lia..]. destruct (env_get env l) as [x|] eqn:Ex.
    + eexists. split; [done|]. apply wf_concat. split; [done|]. eapply (wf_mono 0 0); [lia|lia|].
      by eapply env_get_wf.
    + eexists. split; [done|]. apply wf_prepend_expr. split; [|done]. split; [|apply kids_wf_nil].
      simpl. destruct Hk0 as [-> ->]; [done|]. split; [lia|].
      destruct (decide (l < env_shift env)); [done|exfalso].
      destruct (proj2 (proj2 Henv (env_level env + env_shift env - l - 1))) as [x Hx]; [lia|].
      unfold env_get in Ex. congruence.
  - eexists. split; [done|]. apply wf_prepend_expr. split; [|done]. split; [|apply kids_wf_nil].
    by rewrite <- (Hk1 Hkn).
Qed.

Lemma subst_conns cs : (∀ c, c ∈ cs → ∀ q, q ∈ connective_children c → sub_ok q) → (∀ c, c ∈ cs → connective_wf din k c) →
  ∃ p, sub_conns sub cs k env = Ok p ∧ wf dout k p.
Proof.
  induction cs as [|c cs IH]; intros Hs Hw; simpl; [eexists; split; [done|apply wf_nil]|].
  destruct IH as (p & -> & Hp); [intros e' He'; apply Hs; by right|intros; apply Hw; by right|].
  specialize (Hs c ltac:(by left)). specialize (Hw c ltac:(by left)).
  assert (∀ c' : Connective, (∀ q, q ∈ connective_children c' → wf dout k q) → wf dout k (prepend_connective p c' k)) as Hpre.
  { intros c' H. apply wf_prepend_connective. split; [|done]. unfold connective_wf, connective_kids. by rewrite kids_wf_here. }
  unfold connective_wf, connective_kids in Hw. rewrite kids_wf_here in Hw.
  destruct c as [ps|ps|q|i j| | | | | | |]; simpl in Hs, Hw.
  5-10: eexists; (split; [done|]); apply Hpre; simpl; intros r Hr; by apply elem_of_nil in Hr.
  - destruct (sub_list ps) as (rs & -> & Hrs); [done|done|]. eexists. split; [done|]. by apply Hpre.
  - destruct (sub_list ps) as (rs & -> & Hrs); [done|done|]. eexists. split; [done|]. by apply Hpre.
  - destruct (sub_here q) as (r & -> & Hr); [apply Hs; by left|apply Hw; by left|]. eexists. split; [done|].
    apply Hpre. by intros x ->%list_elem_of_singleton.
  - unfold maybe_substitute_varref. eexists. split; [done|]. destruct (_ =? _); simpl.
    + destruct (env_get env i) as [x|] eqn:Ex.
      * apply wf_concat. split; [done|]. destruct Hsc as (? & ? & _). eapply (wf_mono 0 0); [lia|lia|]. by eapply env_get_wf.
      * apply Hpre. simpl. intros r Hr. by apply elem_of_nil in Hr.
    + apply Hpre. simpl. intros r Hr. by apply elem_of_nil in Hr.
  - eexists. by split.
Qed.
End Sub.

Lemma subst_par q : sub_ok substitute_par_no_sort q.
Proof.
  induction q as [p IH] using par_children_ind. intros env k din dout Henv Hsc Hw. rewrite wf_fields in Hw.
  destruct p as [ss rs ns es ms us bs cs lf cu]. cbn [sends receives news exprs matches bundles connectives] in Hw.
  destruct Hw as (H1 & H2 & H3 & H4 & H5 & H6 & H7).
  cbn [substitute_par_no_sort sends receives news exprs matches unforgeables bundles connectives locally_free connective_used].
  destruct (subst_exprs substitute_par_no_sort env k din dout Henv Hsc es) as (pe & -> & Hpe); [|done|].
  { intros e He q Hq. apply IH. eauto with ast. }
  destruct (subst_conns substitute_par_no_sort env k din dout Henv Hsc cs) as (pc & -> & Hpc); [|done|].
  { intros e He q Hq. apply IH. eauto with ast. }
  destruct (try_map_ok (λ s, substitute_send_no_sort substitute_par_no_sort s k env) (send_wf dout k) ss) as (ss' & -> & Hss).
  { intros x Hx. eapply subst_send; [done|done| |auto]. intros q Hq. apply IH. eauto with ast. }
  destruct (try_map_ok (λ s, substitute_bundle_no_sort substitute_par_no_sort s k env) (bundle_wf dout k) bs) as (bs' & -> & Hbs).
  { intros x Hx. eapply subst_bundle; [done|done| |auto]. intros q Hq. apply IH. eauto with ast. }
  destruct (try_map_ok (λ s, substitute_receive_no_sort substitute_par_no_sort s k env) (receive_wf dout k) rs) as (rs' & -> & Hrs).
  { intros x Hx. eapply subst_receive; [done|done| |auto]. intros q Hq. apply IH. eauto with ast. }
  destruct (try_map_ok (λ s, substitute_new_no_sort substitute_par_no_sort s k env) (new_wf dout k) ns) as (ns' & -> & Hns).
  { intros x Hx. eapply subst_new; [done|done| |auto]. intros q Hq. apply IH. eauto with ast. }
  destruct (try_map_ok (λ s, substitute_match_no_sort substitute_par_no_sort s k env) (match_wf dout k) ms) as (ms' & -> & Hms).
  { intros x Hx. eapply subst_match; [done|done| |auto]. intros q Hq. apply IH. eauto with ast. }
  eexists. split; [done|]. rewrite !wf_concat. split; [|done]. apply wf_fields.
  cbn [sends receives news exprs matches bundles connectives]. split_and!; try assumption; intros x Hx; by apply elem_of_nil in Hx.
Qed.

(** ** Well formed terms pass the checks of [models/src/types.rs] *)

(** The checks as conditions on the kids. *)
Definition all_kids {P} (R : Kid → P → Prop) (l : list (Kid * P)) : Prop := ∀ c q, (c, q) ∈ l → R c q.
Section AllKids.
Context {P : Type} (R : Kid → P → Prop).
Lemma all_kids_app l l' : all_kids R (l ++ l') ↔ all_kids R l ∧ all_kids R l'.
Proof. unfold all_kids. setoid_rewrite elem_of_app. naive_solver. Qed.
Lemma all_kids_cons c q l : all_kids R ((c, q) :: l) ↔ R c q ∧ all_kids R l.
Proof. unfold all_kids. setoid_rewrite elem_of_cons. naive_solver. Qed.
Lemma all_kids_nil : all_kids R [] ↔ True.
Proof. split; [done|]. intros _ c q Hq. by apply elem_of_nil in Hq. Qed.
Lemma all_kids_bind {A} (h : A → list (Kid * P)) l : all_kids R (l ≫= h) ↔ ∀ x, x ∈ l → all_kids R (h x).
Proof. unfold all_kids. setoid_rewrite list_elem_of_bind. naive_solver. Qed.
Lemma all_kids_fmap c l : all_kids R (pair c <$> l) ↔ ∀ q, q ∈ l → R c q.
Proof.
  unfold all_kids. setoid_rewrite list_elem_of_fmap. split.
  - intros H q Hq. apply H. eauto.
  - intros H c' q (q' & [= -> ->] & Hq). by apply H.
Qed.
End AllKids.

Lemma all_iff {A} (R R' : A → Prop) (l : list A) : (∀ x, x ∈ l → R x ↔ R' x) → (∀ x, x ∈ l → R x) ↔ (∀ x, x ∈ l → R' x).
Proof. intros H. split; intros Hx x Hl; apply (H x Hl), (Hx x Hl). Qed.

Section ClosedKids.
Context {P : Type} (cl : P → bool → bool) (b : bool).
Notation closed_kids := (all_kids (λ c q, cl q (match c with KPattern => true | _ => b end) = true)).

Lemma closed_send_kids s : closed_send cl s b = true ↔ closed_kids (send_kids s).
Proof. unfold closed_send, send_kids. by rewrite andb_true_iff, forallb_elem, all_kids_cons, all_kids_fmap. Qed.
Lemma closed_receive_kids r : closed_receive cl r b = true ↔ closed_kids (receive_kids r).
Proof.
  unfold closed_receive, receive_kids. rewrite andb_true_iff, forallb_elem, all_kids_cons, all_kids_bind.
  rewrite (all_iff _ (λ x, closed_kids (bind_kids x))); [tauto|]. intros x _. unfold closed_receive_bind, bind_kids.
  rewrite andb_true_iff, forallb_elem, all_kids_cons, all_kids_fmap. tauto.
Qed.
Lemma closed_new_kids n : closed_new cl n b = true ↔ closed_kids (new_kids n).
Proof. unfold new_kids. rewrite all_kids_cons, all_kids_nil. unfold closed_new. tauto. Qed.
Lemma closed_match_kids m : closed_match cl m b = true ↔ closed_kids (match_kids m).
Proof.
  unfold closed_match, match_kids. rewrite andb_true_iff, forallb_elem, all_kids_cons, all_kids_bind.
  rewrite (all_iff _ (λ x, closed_kids (case_kids x))); [tauto|]. intros x _. unfold closed_match_case, case_kids.
  rewrite andb_true_iff, !all_kids_cons, all_kids_nil. tauto.
Qed.
Lemma closed_bundle_kids x : closed_bundle cl x b = true ↔ closed_kids (bundle_kids x).
Proof. unfold bundle_kids. rewrite all_kids_cons, all_kids_nil. unfold closed_bundle. tauto. Qed.
Lemma closed_connective_kids c : closed_connective cl c b = true ↔ closed_kids (connective_kids c).
Proof.
  unfold connective_kids. rewrite all_kids_fmap. destruct c; simpl; rewrite ?forallb_elem; try done.
  1: by setoid_rewrite list_elem_of_singleton; naive_solver.
  all: split; [|done]; intros _ q Hq; by apply elem_of_nil in Hq.
Qed.
Lemma closed_expr_kids e : closed_expr cl e b = true ↔
  match e with EVar v => closed_var v b = true | _ => True end ∧ closed_kids (expr_kids e).
Proof.
  unfold expr_kids. rewrite all_kids_fmap.
  destruct e as [| | | | | |p|p| |o p q|l|l|l|l|l]; simpl; rewrite ?andb_true_iff, ?forallb_elem; try tauto.
  1-6: split; [|done]; intros _; split; [done|]; intros q Hq; by apply elem_of_nil in Hq.
  - setoid_rewrite list_elem_of_singleton. naive_solver.
  - setoid_rewrite list_elem_of_singleton. naive_solver.
  - split; [|tauto]. intros H. split; [done|]. intros q Hq; by apply elem_of_nil in Hq.
  - setoid_rewrite elem_of_cons. setoid_rewrite list_elem_of_singleton. naive_solver.
  - split.
    + intros H. split; [done|]. intros q (kv & Hq & Hkv)%list_elem_of_bind. specialize (H kv Hkv).
      apply andb_true_iff in H as [H1 H2]. apply elem_of_cons in Hq as [->|Hq%list_elem_of_singleton]; [done|by subst q].
    + intros [_ H] kv Hkv. apply andb_true_iff. split; apply H; eapply elem_of_bind_in; [exact Hkv|by left|exact Hkv|right; by left].
  - setoid_rewrite elem_of_cons. naive_solver.
Qed.
End ClosedKids.

Lemma closed_fields p b : closed_par p b = true ↔
  (∀ v, EVar v ∈ exprs p → closed_var v b = true) ∧
  all_kids (λ c q, closed_par q (match c with KPattern => true | _ => b end) = true) (par_kids p).
Proof.
  destruct p as [ss rs ns es ms us bs cs lf cu]. unfold par_kids.
  cbn [closed_par sends receives news exprs matches bundles connectives].
  rewrite !andb_true_iff, !forallb_elem, !all_kids_app, !all_kids_bind.
  rewrite (all_iff _ _ ss (λ x _, closed_send_kids closed_par b x)),
    (all_iff _ _ rs (λ x _, closed_receive_kids closed_par b x)),
    (all_iff _ _ ns (λ x _, closed_new_kids closed_par b x)),
    (all_iff _ _ es (λ x _, closed_expr_kids closed_par b x)),
    (all_iff _ _ ms (λ x _, closed_match_kids closed_par b x)),
    (all_iff _ _ bs (λ x _, closed_bundle_kids closed_par b x)),
    (all_iff _ _ cs (λ x _, closed_connective_kids closed_par b x)).
  assert ((∀ x, x ∈ es → match x with EVar v => closed_var v b = true | _ => True end ∧
      all_kids (λ c q, closed_par q (match c with KPattern => true | _ => b end) = true) (expr_kids x)) ↔
    (∀ v, EVar v ∈ es → closed_var v b = true) ∧
    (∀ x, x ∈ es → all_kids (λ c q, closed_par q (match c with KPattern => true | _ => b end) = true) (expr_kids x))) as ->.
  { split; [|intros [H1 H2] x Hx; split; [destruct x; auto|auto]]. intros H. split; [|intros x Hx; by apply H].
    intros v Hv. by apply (H (EVar v)). }
  tauto.
Qed.

Lemma wf_closed d k p : 0 ≤ k → wf d k p → closed_par p (0 <? k) = true.
Proof.
  revert d k. induction p as [p IH] using par_children_ind. intros d k Hk [Hv _ Hw].
  apply closed_fields. split.
  - intros v Hx. specialize (Hv v Hx). destruct v; simpl in *; lia.
  - intros c q Hq. destruct (Hw c q Hq) as [_ Hwq]. apply IH in Hwq; [|by eapply kids_children|destruct c; simpl; lia].
    destruct c; simpl in Hwq; [done| |done]. by replace (0 <? k + 1) with true in Hwq by lia.
Qed.

Section ScopedKids.
Context {P : Type} (ws : Z → P → bool) (d : Z).
Notation scoped_kids := (all_kids (λ c q, ws (match c with KBind n => d + Z.max n 0 | _ => d end) q = true)).

Lemma scoped_send_kids s : well_scoped_send ws d s = true ↔ scoped_kids (send_kids s).
Proof. unfold well_scoped_send, send_kids. by rewrite andb_true_iff, forallb_elem, all_kids_cons, all_kids_fmap. Qed.
Definition remainder_scoped (b : ReceiveBindF P) : Prop :=
  match rb_remainder b with Some v => well_scoped_var d v = true | None => True end.
Lemma scoped_receive_kids r : well_scoped_receive ws d r = true ↔
  (∀ b, b ∈ r_binds r → remainder_scoped b) ∧ scoped_kids (receive_kids r).
Proof.
  unfold well_scoped_receive, receive_kids. rewrite andb_true_iff, forallb_elem, all_kids_cons, all_kids_bind.
  rewrite (all_iff _ (λ x, remainder_scoped x ∧ scoped_kids (bind_kids x))).
  - split; [intros [H1 H2]; split_and!; try done; intros x Hx; by apply H1|].
    intros (H1 & H2 & H3). split; [|done]. intros x Hx. split; auto.
  - intros x _. unfold well_scoped_receive_bind, bind_kids, remainder_scoped.
    rewrite !andb_true_iff, forallb_elem, all_kids_cons, all_kids_fmap. destruct (rb_remainder x); tauto.
Qed.
Lemma scoped_new_kids n : well_scoped_new ws d n = true ↔ scoped_kids (new_kids n).
Proof. unfold new_kids. rewrite all_kids_cons, all_kids_nil. unfold well_scoped_new. tauto. Qed.
Lemma scoped_match_kids m : well_scoped_match ws d m = true ↔ scoped_kids (match_kids m).
Proof.
  unfold well_scoped_match, match_kids. rewrite andb_true_iff, forallb_elem, all_kids_cons, all_kids_bind.
  rewrite (all_iff _ (λ x, scoped_kids (case_kids x))); [tauto|]. intros x _. unfold well_scoped_match_case, case_kids.
  rewrite andb_true_iff, !all_kids_cons, all_kids_nil. tauto.
Qed.
Lemma scoped_bundle_kids x : well_scoped_bundle ws d x = true ↔ scoped_kids (bundle_kids x).
Proof. unfold bundle_kids. rewrite all_kids_cons, all_kids_nil. unfold well_scoped_bundle. tauto. Qed.
Lemma scoped_connective_kids c : well_scoped_connective ws d c = true ↔ scoped_kids (connective_kids c).
Proof.
  unfold connective_kids. rewrite all_kids_fmap. destruct c; simpl; rewrite ?forallb_elem; try done.
  1: by setoid_rewrite list_elem_of_singleton; naive_solver.
  all: split; [|done]; intros _ q Hq; by apply elem_of_nil in Hq.
Qed.
Lemma scoped_expr_kids e : well_scoped_expr ws d e = true ↔
  match e with EVar v => well_scoped_var d v = true | _ => True end ∧ scoped_kids (expr_kids e).
Proof.
  unfold expr_kids. rewrite all_kids_fmap.
  destruct e as [| | | | | |p|p| |o p q|l|l|l|l|l]; simpl; rewrite ?andb_true_iff, ?forallb_elem; try tauto.
  1-6: split; [|done]; intros _; split; [done|]; intros q Hq; by apply elem_of_nil in Hq.
  - setoid_rewrite list_elem_of_singleton. naive_solver.
  - setoid_rewrite list_elem_of_singleton. naive_solver.
  - split; [|tauto]. intros H. split; [done|]. intros q Hq; by apply elem_of_nil in Hq.
  - setoid_rewrite elem_of_cons. setoid_rewrite list_elem_of_singleton. naive_solver.
  - split.
    + intros H. split; [done|]. intros q (kv & Hq & Hkv)%list_elem_of_bind. specialize (H kv Hkv).
      apply andb_true_iff in H as [H1 H2]. apply elem_of_cons in Hq as [->|Hq%list_elem_of_singleton]; [done|by subst q].
    + intros [_ H] kv Hkv. apply andb_true_iff. split; apply H; eapply elem_of_bind_in; [exact Hkv|by left|exact Hkv|right; by left].
  - setoid_rewrite elem_of_cons. naive_solver.
Qed.
End ScopedKids.

Lemma scoped_fields p d :
  (∀ v, EVar v ∈ exprs p → well_scoped_var d v = true) →
  (∀ r, r ∈ receives p → ∀ b, b ∈ r_binds r → remainder_scoped d b) →
  all_kids (λ c q, well_scoped_par (match c with KBind n => d + Z.max n 0 | _ => d end) q = true) (par_kids p) →
  well_scoped_par d p = true.
Proof.
  destruct p as [ss rs ns es ms us bs cs lf cu]. unfold par_kids.
  cbn [well_scoped_par sends receives news exprs matches bundles connectives].
  rewrite !andb_true_iff, !forallb_elem, !all_kids_app, !all_kids_bind.
  intros Hv Hr (H1 & H2 & H3 & H4 & H5 & H6 & H7). split_and!; intros x Hx.
  - by apply scoped_send_kids, H1.
  - apply scoped_receive_kids. split; [by apply Hr|by apply H2].
  - by apply scoped_new_kids, H3.
  - apply scoped_expr_kids. split; [destruct x; auto|by apply H4].
  - by apply scoped_match_kids, H5.
  - by apply scoped_bundle_kids, H6.
  - by apply scoped_connective_kids, H7.
Qed.

Lemma wf_scoped d d' k p : 0 ≤ d ≤ d' → wf d k p → well_scoped_par d' p = true.
Proof.
  revert d d' k. induction p as [p IH] using par_children_ind. intros d d' k Hd [Hv Hr Hw]. apply scoped_fields.
  - intros v Hx. specialize (Hv v Hx). destruct v; simpl in *; lia.
  - intros r Hx b Hb. specialize (Hr r Hx b Hb). unfold remainder_scoped.
    destruct (rb_remainder b) as [[]|]; simpl in *; done.
  - intros c q Hq. destruct (Hw c q Hq) as [Hok Hwq]. eapply (IH q (kids_children p c q Hq)); [|exact Hwq].
    destruct c; simpl in *; lia.
Qed.

(** C2: substitution is total on well formed terms, and keeps them well formed
    (Law 3).  A term well formed under the binders of an environment and [j]
    more, with well formed closed values, is substituted without an error;
    what comes out is closed, well scoped under the [j] remaining binders, and
    in canonical order. *)
Theorem substitution_well_typed p values j :
  0 ≤ j → (∀ v, v ∈ values → wf 0 0 v) → wf (Z.of_nat (length values) + j) 0 p →
  ∃ r, substitute_par p 0 (shift (make_env values) j) = Ok r ∧ wf j 0 r ∧
    is_closed r = true ∧ well_scoped_par j r = true ∧ Sorted_valid r.
Proof.
  intros Hj Hv Hp. destruct (make_env_shape values) as (Hl & Hs & Hm).
  destruct (subst_par p (shift (make_env values) j) 0 (Z.of_nat (length values) + j) j) as (r & Hr & Hw); [..|done|].
  - split; unfold shift; cbn [env_map env_level].
    + intros i v. rewrite Hm. destruct (0 <=? i); [|done]. intros E%list_elem_of_lookup_2. by apply Hv.
    + intros i. rewrite Hm, Hl. destruct (Z.leb_spec 0 i).
      * rewrite lookup_lt_is_Some. lia.
      * split; [by intros [??]|lia].
  - unfold shift. split_and!; cbn [env_level env_shift]; lia.
  - unfold substitute_par. rewrite Hr. exists (sort_par_term r). apply wf_sort in Hw.
    split_and!; [done|done|by apply (wf_closed j 0)|by apply (wf_scoped j j 0)|apply Sorted_new_valid].
Qed.

(** A check with fuel. *)
Fixpoint wf_check (n : nat) (d k : Z) (p : Par) : bool :=
  match n with
  | O => false
  | S n =>
      forallb (λ e, match e with
                    | EVar (BoundVar l) => (0 <=? l) && (l <? d)
                    | EVar _ => 0 <? k
                    | _ => true
                    end) (exprs p) &&
      forallb (λ r, forallb (λ b, match rb_remainder b with Some (BoundVar _) => false | _ => true end) (r_binds r)) (receives p) &&
      forallb (λ cq, match cq.1 with KBind n => 0 <=? n | _ => true end &&
                     wf_check n (kid_depth cq.1 d) (kid_patterns cq.1 k) cq.2) (par_kids p)
  end.
Lemma wf_check_sound n d k p : wf_check n d k p = true → wf d k p.
Proof.
  revert d k p. induction n as [|n IH]; intros d k p; simpl; [done|].
  rewrite !andb_true_iff, !forallb_elem. intros [[Hv Hr] Hk]. constructor.
  - intros v Hx. specialize (Hv _ Hx). destruct v; simpl in *; lia.
  - intros r Hx b Hb. specialize (Hr _ Hx). rewrite forallb_elem in Hr. specialize (Hr _ Hb).
    by destruct (rb_remainder b) as [[]|].
  - intros c q Hq. specialize (Hk _ Hq). simpl in Hk. apply andb_true_iff in Hk as [Hc Hw].
    split; [|by apply IH]. destruct c; simpl in *; lia.
Qed.

Section Examples.
Definition evar (v : Var) : Par := from_expr (EVar v).
Definition gint (i : Z) : Par := from_expr (GInt i).

(** [y!(x) | for (@z <- x) { y!(z) }] under [x], [y]. *)
Definition ex_body : Par :=
  mkPar [mkSend (evar (BoundVar 0)) [evar (BoundVar 1)] false [] false]
    [mkReceive [mkBind [evar (FreeVar 0)] (evar (BoundVar 1)) None 1]
       (mkPar [mkSend (evar (BoundVar 1)) [evar (BoundVar 0)] false [] false] [] [] [] [] [] [] [] [] false)
       false false 1 [] false]
    [] [] [] [] [] [] [] false.

Lemma substitution_well_typed_witness :
  ∃ r, substitute_par ex_body 0 (shift (make_env [gint 5; gint 6]) 0) = Ok r ∧ wf 0 0 r ∧
    is_closed r = true ∧ well_scoped_par 0 r = true ∧ Sorted_valid r.
Proof.
  apply (substitution_well_typed ex_body [gint 5; gint 6] 0).
  - discriminate.
  - intros v Hv. apply (wf_check_sound 5).
    apply elem_of_cons in Hv as [->|Hv%list_elem_of_singleton]; [|subst v]; vm_compute; reflexivity.
  - apply (wf_check_sound 5). vm_compute. reflexivity.
Defined.

(** [1 matches p]. *)
Definition matches_with (p : Par) : Par := from_expr (EBin EMatches (gint 1) p).
Definition case_with (p : Par) : Par :=
  mkPar [] [] [] [] [mkMatch (gint 1) [mkCase p par_nil 0] [] false] [] [] [] [] false.
(** [=x], in a pattern, for the variable with index 1. *)
Definition ref_to_x : Par := mkPar [] [] [] [] [] [] [] [VarRef 1 1] [] false.
End Examples.

(** The pattern of [matches] is treated as a term.  A [match] may have a
    free variable, a wildcard or a reference to an outer variable in the
    pattern of a case.  The same pattern in [1 matches p] makes the term not
    closed if it has a free variable; makes the substitution fail if it has a
    wildcard, although the term is closed; and keeps an outer variable, here
    the only one in the environment below one binder, unsubstituted, which
    leaves the reference dangling when the binder is gone. *)
Theorem matches_pattern_is_no_pattern :
  (is_closed (case_with (evar (FreeVar 0))) = true ∧ is_closed (matches_with (evar (FreeVar 0))) = false) ∧
  (∃ r, substitute_par (case_with (evar Wildcard)) 0 env_new = Ok r) ∧
  is_closed (matches_with (evar Wildcard)) = true ∧
  substitute_par (matches_with (evar Wildcard)) 0 env_new = Err (SubstituteError Wildcard) ∧
  substitute_par (case_with ref_to_x) 0 (shift (make_env [gint 7]) 1) = Ok (case_with (gint 7)) ∧
  substitute_par (matches_with ref_to_x) 0 (shift (make_env [gint 7]) 1) = Ok (matches_with ref_to_x).
Proof. split_and!; try (by vm_compute). eexists. by vm_compute. Qed.
