(* ===== verification/Blake2b.v ===== *)
(** * The splittable random generator

    [crypto/src/hash/blake2b512_block.rs] and [blake2b512_random.rs]: the
    compression function of Blake2b on 64 bit words, and the generator of
    unforgeable names built on it.  Arrays are lists, and words are [Z] modulo
    [2 ^ 64]. *)

From S2P Require Import Prelude BTree Bytes.

(** ** Words *)
Definition u64_mod : Z := 2 ^ 64.
Definition wrapping_add (a b : Z) : Z := (a + b) mod u64_mod.
Definition rotate_right (x n : Z) : Z := Z.lor (Z.shiftr x n) (Z.shiftl x (64 - n) mod u64_mod).

Definition Z_u8 (z : Z) : byte := as_u8 (Z.to_nat (z mod 256)).
Definition u8_Z (b : byte) : Z := Z.of_nat (u8_val b).
(** [to_le_bytes] and [from_le_bytes], for [n] bytes. *)
Fixpoint le_bytes (n : nat) (z : Z) : list byte :=
  match n with O => [] | S n => Z_u8 z :: le_bytes n (z / 256) end.
Fixpoint le_val (l : list byte) : Z :=
  match l with [] => 0 | b :: l => u8_Z b + 256 * le_val l end.

Definition u64_from_le_at (bytes : list byte) (start : nat) : Z := le_val (take 8 (drop start bytes)).

(** ** The block hasher *)
Definition PARAM_VALUE_0 : Z := 0xFF000040.
Definition PARAM_VALUE_2 : Z := 0x2000.
Definition IV : list Z :=
  [0x6A09E667F3BCC908; 0xBB67AE8584CAA73B; 0x3C6EF372FE94F82B; 0xA54FF53A5F1D36F1;
   0x510E527FADE682D1; 0x9B05688C2B3E6C1F; 0x1F83D9ABFB41BD6B; 0x5BE0CD19137E2179].
Definition SIGMA : list (list nat) :=
  [[0; 1; 2; 3; 4; 5; 6; 7; 8; 9; 10; 11; 12; 13; 14; 15];
   [14; 10; 4; 8; 9; 15; 13; 6; 1; 12; 0; 2; 11; 7; 5; 3];
   [11; 8; 12; 0; 5; 2; 15; 13; 10; 14; 3; 6; 7; 1; 9; 4];
   [7; 9; 3; 1; 13; 12; 11; 14; 2; 6; 5; 10; 4; 0; 15; 8];
   [9; 0; 5; 7; 2; 4; 10; 15; 14; 1; 11; 12; 6; 8; 3; 13];
   [2; 12; 6; 10; 0; 11; 8; 3; 4; 13; 7; 5; 15; 14; 1; 9];
   [12; 5; 1; 15; 14; 13; 4; 10; 0; 7; 6; 3; 9; 2; 8; 11];
   [13; 11; 7; 14; 12; 1; 3; 9; 5; 0; 15; 4; 8; 6; 2; 10];
   [6; 15; 14; 9; 11; 3; 0; 8; 12; 2; 13; 7; 1; 4; 10; 5];
   [10; 2; 8; 4; 7; 6; 1; 5; 15; 11; 9; 14; 3; 12; 13; 0];
   [0; 1; 2; 3; 4; 5; 6; 7; 8; 9; 10; 11; 12; 13; 14; 15];
   [14; 10; 4; 8; 9; 15; 13; 6; 1; 12; 0; 2; 11; 7; 5; 3]]%nat.

Record Blake2b512Block := mkBlock {
  chain_value : list Z;
  t0 : Z;
  t1 : Z;
}.

Definition block_new (fanout : Z) : Blake2b512Block :=
  let param0_with_fanout := Z.lor PARAM_VALUE_0 (Z.shiftl (Z.land fanout 0xff) 16) in
  mkBlock (<[2%nat := Z.lxor (nth 2 IV 0) PARAM_VALUE_2]>
             (<[0%nat := Z.lxor (nth 0 IV 0) param0_with_fanout]> IV)) 0 0.

Definition new_t0_t1 (b : Blake2b512Block) : Z * Z :=
  let new_t0 := wrapping_add (t0 b) 128 in
  (new_t0, if new_t0 =? 0 then wrapping_add (t1 b) 1 else t1 b).

(** The mixing function [g]. *)
Definition mix (s : list Z) (m1 m2 : Z) (a b c d : nat) : list Z :=
  let va := wrapping_add (wrapping_add (nth a s 0) (nth b s 0)) m1 in
  let vd := rotate_right (Z.lxor (nth d s 0) va) 32 in
  let vc := wrapping_add (nth c s 0) vd in
  let vb := rotate_right (Z.lxor (nth b s 0) vc) 24 in
  let va := wrapping_add (wrapping_add va vb) m2 in
  let vd := rotate_right (Z.lxor vd va) 16 in
  let vc := wrapping_add vc vd in
  let vb := rotate_right (Z.lxor vb vc) 63 in
  <[b := vb]> (<[c := vc]> (<[d := vd]> (<[a := va]> s))).

Definition round (m : list Z) (state : list Z) (s : list nat) : list Z :=
  let w i := nth (nth i s 0%nat) m 0 in
  let state := mix state (w 0%nat) (w 1%nat) 0 4 8 12 in
  let state := mix state (w 2%nat) (w 3%nat) 1 5 9 13 in
  let state := mix state (w 4%nat) (w 5%nat) 2 6 10 14 in
  let state := mix state (w 6%nat) (w 7%nat) 3 7 11 15 in
  let state := mix state (w 8%nat) (w 9%nat) 0 5 10 15 in
  let state := mix state (w 10%nat) (w 11%nat) 1 6 11 12 in
  let state := mix state (w 12%nat) (w 13%nat) 2 7 8 13 in
  mix state (w 14%nat) (w 15%nat) 3 4 9 14.

Definition compress_into (b : Blake2b512Block) (msg : list byte) (finalize root_finalize : bool) : list Z :=
  let (new_t0, new_t1) := new_t0_t1 b in
  let f0 := if finalize then u64_mod - 1 else 0 in
  let f1 := if root_finalize then u64_mod - 1 else 0 in
  let internal_state :=
    chain_value b ++ take 4 IV ++
    [Z.lxor new_t0 (nth 4 IV 0); Z.lxor new_t1 (nth 5 IV 0); Z.lxor f0 (nth 6 IV 0); Z.lxor f1 (nth 7 IV 0)] in
  let m := (λ i, u64_from_le_at msg (i * 8)%nat) <$> seq 0 16 in
  let final := foldl (round m) internal_state SIGMA in
  (λ i, Z.lxor (Z.lxor (nth i (chain_value b) 0) (nth i final 0)) (nth (i + 8)%nat final 0)) <$> seq 0 8.

Definition block_update (b : Blake2b512Block) (block : list byte) : Blake2b512Block :=
  let (new_t0, new_t1) := new_t0_t1 b in
  mkBlock (compress_into b block false false) new_t0 new_t1.

Definition write_le_long (values : list Z) : list byte := values ≫= le_bytes 8.
Definition peek_final_root (b : Blake2b512Block) (block : list byte) : list byte :=
  write_le_long (compress_into b block true true).
Definition finalize_internal (b : Blake2b512Block) (block : list byte) : list byte :=
  write_le_long (take 4 (compress_into b block true false)).

Definition block_to_bytes (b : Blake2b512Block) : list byte :=
  (chain_value b ≫= le_bytes 8) ++ le_bytes 8 (t0 b) ++ le_bytes 8 (t1 b).
Inductive CryptoError := InvalidLength (expected actual : nat).
Definition block_from_bytes (bytes : list byte) : Result Blake2b512Block CryptoError :=
  if (length bytes <? 80)%nat then Err (InvalidLength 80 (length bytes))
  else Ok (mkBlock ((λ i, u64_from_le_at bytes (i * 8)%nat) <$> seq 0 8)
             (u64_from_le_at bytes 64) (u64_from_le_at bytes 72)).

(** ** The generator *)
Definition PATH_CAPACITY : nat := 112.
Definition zeros (n : nat) : list byte := repeat Byte.x00 n.

Record Blake2b512Random := mkRandom {
  digest : Blake2b512Block;
  last_block : list byte;
  path_position : nat;
  hash_array : list byte;
  position : nat;
}.

Definition new_with_fanout (fanout : Z) : Blake2b512Random :=
  mkRandom (block_new fanout) (zeros 128) 0 (zeros 64) 0.
Definition with_digest (r : Blake2b512Random) (d : Blake2b512Block) : Blake2b512Random :=
  mkRandom d (last_block r) (path_position r) (hash_array r) (position r).

(** Overwrite [length v] elements from index [i]. *)
Definition splice {A} (l : list A) (i : nat) (v : list A) : list A :=
  take i l ++ v ++ drop (i + length v) l.

(** Full blocks, then a padded one. *)
Fixpoint from_bytes_loop (fuel : nat) (d : Blake2b512Block) (rest : list byte) : Blake2b512Block :=
  match fuel with
  | O => d
  | S fuel =>
      if (128 <=? length rest)%nat then from_bytes_loop fuel (block_update d (take 128 rest)) (drop 128 rest)
      else if (length rest =? 0)%nat then d
      else block_update d (splice (zeros 128) 0 rest)
  end.
Definition from_init (init : list byte) : Blake2b512Random :=
  let result := new_with_fanout 0 in
  with_digest result (from_bytes_loop (S (length init)) (digest result) init).

Definition random_copy (r : Blake2b512Random) : Blake2b512Random :=
  mkRandom (digest r) (last_block r) (path_position r) (zeros 64) 0.

Definition add_byte (index : byte) (r : Blake2b512Random) : Blake2b512Random :=
  let r := if (path_position r =? PATH_CAPACITY)%nat
           then mkRandom (block_update (digest r) (last_block r)) (zeros 128) 0 (hash_array r) (position r)
           else r in
  mkRandom (digest r) (<[path_position r := index]> (last_block r)) (path_position r + 1)
    (hash_array r) (position r).

(** The hash, and the next counter value. *)
Definition random_hash (r : Blake2b512Random) : Blake2b512Random :=
  let hash_array := peek_final_root (digest r) (last_block r) in
  let low := u64_from_le_at (last_block r) 112 in
  let last_block :=
    if low =? u64_mod - 1 then
      let high := u64_from_le_at (last_block r) 120 in
      splice (splice (last_block r) 112 (le_bytes 8 0)) 120 (le_bytes 8 (wrapping_add high 1))
    else splice (last_block r) 112 (le_bytes 8 (wrapping_add low 1)) in
  mkRandom (digest r) last_block (path_position r) hash_array (position r).

Definition with_position (r : Blake2b512Random) (p : nat) : Blake2b512Random :=
  mkRandom (digest r) (last_block r) (path_position r) (hash_array r) p.
Definition next (r : Blake2b512Random) : list byte * Blake2b512Random :=
  if (position r =? 0)%nat then
    let r := random_hash r in (take 32 (hash_array r), with_position r 32)
  else (take 32 (drop 32 (hash_array r)), with_position r 0).

Definition split_byte (r : Blake2b512Random) (index : Z) : Blake2b512Random :=
  add_byte (Z_u8 index) (random_copy r).
Definition split_short (r : Blake2b512Random) (index : Z) : Blake2b512Random :=
  add_byte (Z_u8 (index / 256)) (add_byte (Z_u8 index) (random_copy r)).

(** [chunks]. *)
Fixpoint chunks {A} (fuel n : nat) (l : list A) : list (list A) :=
  match fuel, l with
  | S fuel, _ :: _ => take n l :: chunks fuel n (drop n l)
  | _, _ => []
  end.
Definition chain_block (quad : list Blake2b512Random) : list byte :=
  let hashes := quad ≫= λ child, finalize_internal (digest child) (last_block child) in
  hashes ++ zeros (128 - length hashes).
Definition squash (slice : list Blake2b512Random) : Blake2b512Random :=
  let result := new_with_fanout (Z.of_nat (length slice)) in
  with_digest result
    (foldl (λ d quad, block_update d (chain_block quad)) (digest result) (chunks (length slice) 4 slice)).
Fixpoint internal_merge (fuel : nat) (children : list Blake2b512Random) : option Blake2b512Random :=
  match fuel with
  | O => None
  | S fuel =>
      match squash <$> chunks (length children) 255 children with
      | [r] => Some r
      | squashed => internal_merge fuel squashed
      end
  end.
(** [None] is the failed assertion: fewer than two children. *)
Definition merge (children : list Blake2b512Random) : option Blake2b512Random :=
  if (length children <? 2)%nat then None else internal_merge (length children) children.

(** ** Serialization *)
Definition to_bytes (r : Blake2b512Random) : list byte :=
  take 8 (drop 112 (last_block r)) ++ take 8 (drop 120 (last_block r)) ++
  block_to_bytes (digest r) ++ [as_u8 (path_position r)] ++ [as_u8 (position r)] ++
  take (path_position r) (last_block r) ++
  (if (position r =? 0)%nat then [] else drop (position r) (hash_array r)).

(** [SerializedRandom::try_from]. *)
Definition serialized_random (bytes : list byte) : Result (list byte) CryptoError :=
  let len := length bytes in
  if (len =? 0)%nat then Ok bytes
  else if (len <? 98)%nat then Err (InvalidLength 98 len)
  else
    let path_position := u8_val (nth 96 bytes Byte.x00) in
    let remainder_position := u8_val (nth 97 bytes Byte.x00) in
    if (PATH_CAPACITY <? path_position)%nat then Err (InvalidLength PATH_CAPACITY path_position)
    else if (64 <? remainder_position)%nat then Err (InvalidLength 64 remainder_position)
    else
      let path_end := (98 + path_position)%nat in
      if (len <? path_end)%nat then Err (InvalidLength path_end len)
      else if negb (remainder_position =? 0)%nat && (len <? path_end + (64 - remainder_position))%nat
      then Err (InvalidLength (path_end + (64 - remainder_position)) len)
      else Ok bytes.

Definition random_from_bytes (bytes : list byte) : Result Blake2b512Random CryptoError :=
  if (length bytes =? 0)%nat then Ok (from_init [])
  else
    let path_position := u8_val (nth 96 bytes Byte.x00) in
    let remainder_position := u8_val (nth 97 bytes Byte.x00) in
    let path_end := (98 + path_position)%nat in
    d ←? block_from_bytes (take 80 (drop 16 bytes));
    let last_block := splice (zeros 128) 112 (take 8 bytes) in
    let last_block := splice last_block 120 (take 8 (drop 8 bytes)) in
    let last_block := splice last_block 0 (take path_position (drop 98 bytes)) in
    let hash_array :=
      if (remainder_position =? 0)%nat then zeros 64
      else splice (zeros 64) remainder_position (take (64 - remainder_position) (drop path_end bytes)) in
    Ok (mkRandom d last_block path_position hash_array remainder_position).

(** [PartialEq]: the part of the hash that was given out is left out. *)
Definition random_eq (a b : Blake2b512Random) : Prop :=
  digest a = digest b ∧ path_position a = path_position b ∧ position a = position b ∧
  last_block a = last_block b ∧
  (position a = 0%nat ∨ drop (position a) (hash_array a) = drop (position a) (hash_array b)).
