(* ===== verification/Blake2bSpec.v ===== *)
(** * The generator of names: invariant and serialization

    The states that a generator reaches keep a layout, in which the serialized
    form determines the names to come.  The vectors of the tests of the source
    hold of the model. *)

From S2P Require Import Prelude BTree Bytes Blake2b.

(** ** Words *)
Definition in_u64 (z : Z) : Prop := 0 ≤ z < u64_mod.

Lemma in_u64_bits z : in_u64 z ↔ 0 ≤ z ∧ ∀ i, 64 ≤ i → Z.testbit z i = false.
Proof.
  unfold in_u64, u64_mod. split.
  - intros [H0 H]. split; [done|]. intros i Hi. destruct (decide (z = 0)) as [->|]; [apply Z.testbit_0_l|].
    apply Z.bits_above_log2; [done|]. apply Z.lt_le_trans with 64; [|done]. apply Z.log2_lt_pow2; lia.
  - intros [H0 H]. split; [done|]. destruct (decide (z < 2 ^ 64)); [done|exfalso].
    assert (64 ≤ Z.log2 z) by (apply Z.log2_le_pow2; lia).
    specialize (H (Z.log2 z) ltac:(done)). rewrite Z.bit_log2 in H by lia. done.
Qed.
Lemma in_u64_mod z : in_u64 (z mod u64_mod).
Proof. apply Z.mod_pos_bound. unfold u64_mod. lia. Qed.
Lemma in_u64_lxor a b : in_u64 a → in_u64 b → in_u64 (Z.lxor a b).
Proof.
  rewrite !in_u64_bits. intros [Ha Ha'] [Hb Hb']. split; [by apply Z.lxor_nonneg|].
  intros i Hi. by rewrite Z.lxor_spec, Ha', Hb'.
Qed.
Lemma in_u64_lor a b : in_u64 a → in_u64 b → in_u64 (Z.lor a b).
Proof.
  rewrite !in_u64_bits. intros [Ha Ha'] [Hb Hb']. split; [by apply Z.lor_nonneg|].
  intros i Hi. by rewrite Z.lor_spec, Ha', Hb'.
Qed.
Lemma in_u64_rotate x n : 0 ≤ n → in_u64 x → in_u64 (rotate_right x n).
Proof.
  intros Hn Hx. apply in_u64_lor; [|apply in_u64_mod]. rewrite in_u64_bits in *. destruct Hx as [Hx Hb].
  split; [by apply Z.shiftr_nonneg|]. intros i Hi. rewrite Z.shiftr_spec by lia. apply Hb. lia.
Qed.

Lemma u8_Z_bound b : 0 ≤ u8_Z b < 256.
Proof. unfold u8_Z. pose proof (u8_val_bound b). lia. Qed.
Lemma u8_Z_u8 z : u8_Z (Z_u8 z) = z mod 256.
Proof.
  unfold u8_Z, Z_u8. pose proof (Z.mod_pos_bound z 256). rewrite u8_val_as by lia. lia.
Qed.
Lemma Z_u8_Z b z : Z_u8 (u8_Z b + 256 * z) = b.
Proof.
  apply (inj u8_val). apply Nat2Z.inj. change (u8_Z (Z_u8 (u8_Z b + 256 * z)) = u8_Z b).
  rewrite u8_Z_u8, (Z.mul_comm 256), Z.mod_add by lia. apply Z.mod_small, u8_Z_bound.
Qed.
Lemma length_le_bytes n z : length (le_bytes n z) = n.
Proof. revert z. induction n as [|n IH]; intros z; simpl; [done|]. by rewrite IH. Qed.
Lemma le_val_bytes n z : le_val (le_bytes n z) = z mod 256 ^ Z.of_nat n.
Proof.
  revert z. induction n as [|n IH]; intros z; simpl le_bytes; simpl le_val.
  { by rewrite Z.mod_1_r. }
  rewrite IH, u8_Z_u8. replace (256 ^ Z.of_nat (S n)) with (256 * 256 ^ Z.of_nat n)
    by (rewrite Nat2Z.inj_succ, Z.pow_succ_r by lia; lia).
  rewrite Z.rem_mul_r by lia. lia.
Qed.
Lemma le_bytes_val l : le_bytes (length l) (le_val l) = l.
Proof.
  induction l as [|b l IH]; simpl; [done|]. rewrite Z_u8_Z. f_equal.
  rewrite (Z.mul_comm 256), Z.div_add by lia. by rewrite (Z.div_small (u8_Z b)) by apply u8_Z_bound.
Qed.
Lemma le_val_bound l : 0 ≤ le_val l < 256 ^ Z.of_nat (length l).
Proof.
  induction l as [|b l IH]; simpl length; simpl le_val; [simpl; lia|].
  rewrite Nat2Z.inj_succ, Z.pow_succ_r by lia. pose proof (u8_Z_bound b). lia.
Qed.
Lemma le_val_u64 l : (length l ≤ 8)%nat → in_u64 (le_val l).
Proof.
  intros Hl. pose proof (le_val_bound l). unfold in_u64, u64_mod.
  assert (256 ^ Z.of_nat (length l) ≤ 256 ^ 8) by (apply Z.pow_le_mono_r; lia). change (256 ^ 8) with (2 ^ 64) in *. lia.
Qed.
Lemma le_val_bytes_u64 z : in_u64 z → le_val (le_bytes 8 z) = z.
Proof. intros Hz. rewrite le_val_bytes. by apply Z.mod_small. Qed.

(** ** The block hasher keeps its words in range *)
Definition block_inv (b : Blake2b512Block) : Prop :=
  length (chain_value b) = 8%nat ∧ Forall in_u64 (chain_value b) ∧ in_u64 (t0 b) ∧ in_u64 (t1 b).

Lemma in_u64_0 : in_u64 0.
Proof. unfold in_u64, u64_mod. lia. Qed.
Lemma nth_u64 l i : Forall in_u64 l → in_u64 (nth i l 0).
Proof.
  intros H. destruct (nth_in_or_default i l 0) as [Hi| ->]; [|apply in_u64_0].
  rewrite Forall_forall in H. apply H. by apply list_elem_of_In.
Qed.
Lemma IV_u64 : Forall in_u64 IV.
Proof. unfold IV, in_u64, u64_mod. repeat (constructor; [lia|]). constructor. Qed.

Lemma mix_u64 s m1 m2 a b c d : Forall in_u64 s → Forall in_u64 (mix s m1 m2 a b c d).
Proof.
  intros H. unfold mix. pose proof (λ i, nth_u64 s i H) as Hn.
  assert (∀ x y, in_u64 (wrapping_add x y)) as Ha by (intros; apply in_u64_mod).
  cbv zeta. do 4 (apply Forall_insert; [|by repeat first [apply Ha|apply Hn|apply in_u64_rotate; [lia|]|apply in_u64_lxor]]).
  done.
Qed.
Lemma round_u64 m s sg : Forall in_u64 s → Forall in_u64 (round m s sg).
Proof. intros H. unfold round. by repeat apply mix_u64. Qed.

Lemma rounds_u64 m sg s : Forall in_u64 s → Forall in_u64 (foldl (round m) s sg).
Proof. revert s. induction sg as [|x sg IH]; intros s Hs; simpl; [done|]. by apply IH, round_u64. Qed.

Lemma new_t_inv b : block_inv b → in_u64 (new_t0_t1 b).1 ∧ in_u64 (new_t0_t1 b).2.
Proof.
  intros (_ & _ & H0 & H1). unfold new_t0_t1. simpl. split; [apply in_u64_mod|].
  destruct (_ =? 0); [apply in_u64_mod|done].
Qed.
Lemma compress_inv b msg f r : block_inv b →
  length (compress_into b msg f r) = 8%nat ∧ Forall in_u64 (compress_into b msg f r).
Proof.
  intros Hb. pose proof (new_t_inv b Hb) as [Ht0 Ht1]. destruct Hb as (Hl & Hc & _).
  unfold compress_into. destruct (new_t0_t1 b) as [nt0 nt1]. simpl in Ht0, Ht1.
  set (init := chain_value b ++ _). assert (Forall in_u64 init) as Hi.
  { unfold init. rewrite !Forall_app. pose proof IV_u64 as HIV. split_and!; [done|by apply Forall_take|].
    assert (∀ i, in_u64 (nth i IV 0)) as Hn by (intros; by apply nth_u64).
    assert (∀ b : bool, in_u64 (if b then u64_mod - 1 else 0)) as Hf
      by (intros []; unfold in_u64, u64_mod; lia).
    repeat (constructor; [by apply in_u64_lxor|]). constructor. }
  set (m := _ <$> seq 0 16). assert (Forall in_u64 (foldl (round m) init SIGMA)) as Hf by by apply rounds_u64.
  split; [by rewrite length_fmap, length_seq|]. apply Forall_fmap, Forall_forall. intros i _. unfold compose.
  apply in_u64_lxor; [apply in_u64_lxor|]; by apply nth_u64.
Qed.
Lemma block_update_inv b msg : block_inv b → block_inv (block_update b msg).
Proof.
  intros Hb. destruct (compress_inv b msg false false Hb) as [Hl Hc]. destruct (new_t_inv b Hb) as [H0 H1].
  unfold block_update. destruct (new_t0_t1 b). by split_and!.
Qed.
Lemma block_new_inv fanout : 0 ≤ fanout → block_inv (block_new fanout).
Proof.
  intros Hf. unfold block_new. split_and!; cbn [chain_value t0 t1]; [done| |apply in_u64_0..].
  assert (in_u64 PARAM_VALUE_0 ∧ in_u64 PARAM_VALUE_2) as [H0 H2] by (unfold in_u64, u64_mod, PARAM_VALUE_0, PARAM_VALUE_2; lia).
  pose proof IV_u64 as HIV. assert (∀ i, in_u64 (nth i IV 0)) as Hn by (intros; by apply nth_u64).
  apply Forall_insert; [apply Forall_insert; [done|]|]; (apply in_u64_lxor; [done|]); [|done].
  apply in_u64_lor; [done|]. apply in_u64_bits. split.
  - apply Z.shiftl_nonneg, Z.land_nonneg. by left.
  - intros i Hi. rewrite Z.shiftl_spec by lia. rewrite Z.land_spec. change 0xff with (Z.ones 8).
    rewrite (Z.ones_spec_high 8) by lia. apply andb_false_r.
Qed.

(** ** The invariant of the generator

    The path is followed by zeros up to the counter. *)
Definition random_inv (r : Blake2b512Random) : Prop :=
  block_inv (digest r) ∧ length (last_block r) = 128%nat ∧ (path_position r ≤ PATH_CAPACITY)%nat ∧
  (∃ path counter, last_block r = path ++ zeros (PATH_CAPACITY - path_position r) ++ counter ∧
     length path = path_position r ∧ length counter = 16%nat) ∧
  length (hash_array r) = 64%nat ∧ (position r = 0%nat ∨ position r = 32%nat).

Lemma length_zeros n : length (zeros n) = n.
Proof. apply repeat_length. Qed.
Lemma zeros_add n m : zeros (n + m) = zeros n ++ zeros m.
Proof. apply repeat_app. Qed.
Lemma length_splice {A} (l : list A) i v : (i + length v ≤ length l)%nat → length (splice l i v) = length l.
Proof. intros H. unfold splice. rewrite !length_app, length_take, length_drop. lia. Qed.

Lemma splice_app {A} (a b c v : list A) : length v = length b → splice (a ++ b ++ c) (length a) v = a ++ v ++ c.
Proof.
  intros Hv. unfold splice. rewrite take_app_length, Hv. do 2 f_equal.
  by rewrite app_assoc, drop_app_length' by by rewrite length_app.
Qed.

Lemma new_with_fanout_inv f : 0 ≤ f → random_inv (new_with_fanout f).
Proof.
  intros Hf. split_and!; cbn [new_with_fanout digest last_block path_position hash_array position].
  - by apply block_new_inv.
  - done.
  - unfold PATH_CAPACITY. lia.
  - exists [], (zeros 16). done.
  - done.
  - by left.
Qed.
Lemma with_digest_inv r d : block_inv d → random_inv r → random_inv (with_digest r d).
Proof. intros Hd (_ & H). by split. Qed.
Lemma from_bytes_loop_inv fuel d l : block_inv d → block_inv (from_bytes_loop fuel d l).
Proof.
  revert d l. induction fuel as [|fuel IH]; intros d l Hd; cbn [from_bytes_loop]; [done|].
  destruct (_ <=? _)%nat; [by apply IH, block_update_inv|].
  destruct (_ =? _)%nat; [done|by apply block_update_inv].
Qed.
Lemma from_init_inv init : random_inv (from_init init).
Proof.
  unfold from_init. assert (random_inv (new_with_fanout 0)) as H by by apply new_with_fanout_inv.
  apply with_digest_inv; [|done]. apply from_bytes_loop_inv. apply H.
Qed.
Lemma copy_inv r : random_inv r → random_inv (random_copy r).
Proof. intros (H1 & H2 & H3 & H4 & _). split_and!; try done. by left. Qed.
Lemma add_byte_inv b r : random_inv r → random_inv (add_byte b r).
Proof.
  intros Hr. unfold add_byte.
  set (r' := if (path_position r =? PATH_CAPACITY)%nat then _ else r).
  assert (random_inv r' ∧ (path_position r' < PATH_CAPACITY)%nat) as [Hr' Hlt].
  { unfold r'. destruct (Nat.eqb_spec (path_position r) PATH_CAPACITY) as [E|E].
    - destruct Hr as (Hd & _ & _ & _ & Hh & Hp). unfold PATH_CAPACITY. split; [|simpl; lia].
      split_and!; cbn [digest last_block path_position hash_array position]; try done; [by apply block_update_inv|lia|].
      by exists [], (zeros 16).
    - split; [done|]. destruct Hr as (_ & _ & Hle & _). lia. }
  destruct Hr' as (Hd & Hl & Hle & (path & counter & Elb & Hpath & Hcnt) & Hh & Hp).
  split_and!; cbn [digest last_block path_position hash_array position]; try done.
  - by rewrite length_insert.
  - lia.
  - exists (path ++ [b]), counter. rewrite Elb. split; [|rewrite length_app; simpl; lia].
    replace (PATH_CAPACITY - path_position r')%nat with (1 + (PATH_CAPACITY - (path_position r' + 1)))%nat by lia.
    rewrite zeros_add, <- Hpath. rewrite <- !app_assoc, insert_app_r_alt by lia. by rewrite Nat.sub_diag.
Qed.

Lemma random_hash_inv r : random_inv r → random_inv (random_hash r).
Proof.
  intros (Hd & Hl & Hle & (path & counter & Elb & Hpath & Hcnt) & Hh & Hp). unfold random_hash.
  set (P := path ++ zeros (PATH_CAPACITY - path_position r)) in *. rewrite app_assoc in Elb. fold P in Elb.
  assert (length P = 112%nat) as HP by (unfold P; rewrite length_app, length_zeros; unfold PATH_CAPACITY in *; lia).
  assert (∀ v, length v = 8%nat → splice (last_block r) 112 v = P ++ v ++ drop 8 counter) as Es1.
  { intros v Hv. assert (last_block r = P ++ take 8 counter ++ drop 8 counter) as -> by by rewrite take_drop.
    rewrite <- HP at 1. apply splice_app. rewrite length_take. lia. }
  assert (∀ v w, length v = 8%nat → length w = 8%nat → splice (splice (last_block r) 112 v) 120 w = P ++ v ++ w) as Es2.
  { intros v w Hv Hw. rewrite Es1 by done. pose proof (splice_app (P ++ v) (drop 8 counter) [] w) as E.
    rewrite !app_nil_r, length_app, HP, Hv, length_drop, Hcnt, <- !app_assoc in E. by apply E. }
  set (lb := if _ =? _ then _ else _).
  assert (∃ counter', lb = P ++ counter' ∧ length counter' = 16%nat) as (c' & El & Hc').
  { unfold lb. destruct (_ =? _).
    - exists (le_bytes 8 0 ++ le_bytes 8 (wrapping_add (u64_from_le_at (last_block r) 120) 1)).
      split; [|done]. by apply Es2.
    - eexists. split; [by apply Es1|]. rewrite length_app, length_le_bytes, length_drop. lia. }
  clearbody lb. split_and!; cbn [digest last_block path_position hash_array position]; try done.
  - rewrite El, length_app. lia.
  - exists path, c'. rewrite El. unfold P. by rewrite <- app_assoc.
Qed.
Lemma next_inv r : random_inv r → random_inv (next r).2.
Proof.
  intros Hr. unfold next. destruct (_ =? _)%nat; simpl.
  - destruct (random_hash_inv r Hr) as (H1 & H2 & H3 & H4 & H5 & _). split_and!; try done. by right.
  - destruct Hr as (H1 & H2 & H3 & H4 & H5 & _). split_and!; try done. by left.
Qed.
Lemma split_byte_inv r i : random_inv r → random_inv (split_byte r i).
Proof. intros. by apply add_byte_inv, copy_inv. Qed.
Lemma split_short_inv r i : random_inv r → random_inv (split_short r i).
Proof. intros. by apply add_byte_inv, add_byte_inv, copy_inv. Qed.

(** ** Merging terminates *)
Lemma chunks_count {A} fuel n (l : list A) : (length l ≤ fuel)%nat → l ≠ [] → (0 < n)%nat →
  (n * (length (chunks fuel n l) - 1) < length l)%nat ∧ chunks fuel n l ≠ [].
Proof.
  intros Hf Hl Hn. revert l Hf Hl. induction fuel as [|fuel IH]; intros l Hf Hl; [destruct l; simpl in *; [done|lia]|].
  destruct l as [|x l]; [done|]. cbn [chunks length] in *. split; [|done]. rewrite Nat.sub_succ, Nat.sub_0_r.
  destruct (drop n (x :: l)) as [|y k] eqn:E.
  - destruct fuel; cbn [chunks length]; lia.
  - pose proof (f_equal length E) as El. rewrite length_drop in El. cbn [length] in El.
    destruct (IH (y :: k)) as [H Hne]; [cbn [length]; lia|done|]. cbn [length] in H.
    destruct (chunks fuel n (y :: k)) as [|c cs]; [done|]. cbn [length] in *. lia.
Qed.
Lemma chunks_fewer {A} (l : list A) : (2 ≤ length l)%nat →
  (0 < length (chunks (length l) 255 l) < length l)%nat.
Proof.
  intros Hl. destruct (chunks_count (length l) 255 l) as [H Hne]; [lia|destruct l; [simpl in Hl; lia|done]|lia|].
  destruct (chunks (length l) 255 l) as [|c cs]; [done|]. cbn [length] in *. lia.
Qed.

Lemma internal_merge_total fuel cs : (0 < length cs ≤ fuel)%nat → ∃ r, internal_merge fuel cs = Some r ∧ random_inv r.
Proof.
  assert (∀ slice, random_inv (squash slice)) as Hsq.
  { intros slice. unfold squash. assert (random_inv (new_with_fanout (Z.of_nat (length slice)))) as H
      by (apply new_with_fanout_inv; lia).
    apply with_digest_inv; [|done]. apply foldl_inv; [apply H|]. intros d quad Hd. by apply block_update_inv. }
  revert cs. induction fuel as [|fuel IH]; intros cs Hc; [lia|]. cbn [internal_merge].
  destruct (decide (2 ≤ length cs)%nat) as [H2|H2].
  - pose proof (chunks_fewer cs H2) as Hlt.
    destruct (squash <$> chunks (length cs) 255 cs) as [|r [|r' rs]] eqn:E.
    + apply (f_equal length) in E. rewrite length_fmap in E. simpl in E. lia.
    + exists r. split; [done|]. assert (r ∈ squash <$> chunks (length cs) 255 cs) as (s & -> & _)%list_elem_of_fmap
        by (rewrite E; by left). apply Hsq.
    + apply IH. rewrite <- E, length_fmap. lia.
  - destruct cs as [|c [|? ?]]; [simpl in Hc; lia| |simpl in H2; lia]. cbn. eexists. split; [done|]. apply (Hsq [c]).
Qed.
Lemma merge_total cs : (2 ≤ length cs)%nat → ∃ r, merge cs = Some r ∧ random_inv r.
Proof.
  intros H. unfold merge. destruct (Nat.ltb_spec (length cs) 2); [lia|]. apply internal_merge_total. lia.
Qed.

(** The states that the operations reach. *)
Inductive reachable : Blake2b512Random → Prop :=
| reach_init bytes : reachable (from_init bytes)
| reach_split_byte r i : reachable r → reachable (split_byte r i)
| reach_split_short r i : reachable r → reachable (split_short r i)
| reach_next r : reachable r → reachable (next r).2
| reach_merge cs r : (∀ c, c ∈ cs → reachable c) → merge cs = Some r → reachable r.

Lemma reachable_inv r : reachable r → random_inv r.
Proof.
  induction 1 as [bytes|r i _ IH|r i _ IH|r _ IH|cs r _ _ Hm].
  - apply from_init_inv.
  - by apply split_byte_inv.
  - by apply split_short_inv.
  - by apply next_inv.
  - unfold merge in Hm. destruct (Nat.ltb_spec (length cs) 2); [done|].
    destruct (internal_merge_total (length cs) cs) as (r' & E & Hr); [lia|]. congruence.
Qed.

(** ** Serialization *)
Lemma block_roundtrip b : block_inv b → length (block_to_bytes b) = 80%nat ∧ block_from_bytes (block_to_bytes b) = Ok b.
Proof.
  destruct b as [cv a0 a1]. intros (Hl & Hc & H0 & H1). cbn [chain_value t0 t1] in *.
  do 8 (destruct cv as [|? cv]; [done|]). destruct cv; [|done].
  assert (∀ x, in_u64 x → le_val (le_bytes 8 x) = x) as Hle by apply le_val_bytes_u64.
  split; [done|]. unfold block_from_bytes. change (length _ <? 80)%nat with false. cbv iota.
  unfold block_to_bytes. cbn [chain_value t0 t1].
  do 8 (apply Forall_cons in Hc as [? Hc]).
  do 2 f_equal; [|by apply Hle|by apply Hle].
  change (seq 0 8) with [0; 1; 2; 3; 4; 5; 6; 7]%nat. rewrite !fmap_cons.
  do 8 (apply (f_equal2 cons); [by apply Hle|]). done.
Qed.

(** The fields of a serialized state. *)
Lemma to_bytes_layout r : random_inv r → ∃ path counter rem,
  last_block r = path ++ zeros (PATH_CAPACITY - path_position r) ++ take 8 counter ++ drop 8 counter ∧
  to_bytes r = (take 8 counter ++ drop 8 counter ++ block_to_bytes (digest r)) ++
    as_u8 (path_position r) :: as_u8 (position r) :: path ++ rem ∧
  length path = path_position r ∧ length counter = 16%nat ∧
  rem = (if (position r =? 0)%nat then [] else drop (position r) (hash_array r)).
Proof.
  intros (_ & _ & Hle & (path & counter & Elb & Hpath & Hcnt) & _).
  eexists path, counter, _. split_and!; [by rewrite take_drop| |done..].
  assert (length (path ++ zeros (PATH_CAPACITY - path_position r)) = 112%nat) as HP
    by (rewrite length_app, length_zeros; unfold PATH_CAPACITY in *; lia).
  assert (drop 112 (last_block r) = counter) as E1 by (rewrite Elb, app_assoc; by apply drop_app_length').
  assert (drop 120 (last_block r) = drop 8 counter) as E2 by by rewrite <- E1, drop_drop.
  unfold to_bytes. rewrite E1, E2, (take_ge (drop 8 counter)) by (rewrite length_drop; lia).
  rewrite Elb, take_app_length' by done. by rewrite <- !app_assoc.
Qed.

Lemma last_block_rebuilt (path c1 c2 : list byte) pp :
  length path = pp → (pp ≤ PATH_CAPACITY)%nat → length c1 = 8%nat → length c2 = 8%nat →
  splice (splice (splice (zeros 128) 112 c1) 120 c2) 0 path = path ++ zeros (PATH_CAPACITY - pp) ++ c1 ++ c2.
Proof.
  intros Hp Hle H1 H2. unfold PATH_CAPACITY in *.
  change (zeros 128) with (zeros 112 ++ zeros 8 ++ zeros 8).
  pose proof (splice_app (zeros 112) (zeros 8) (zeros 8) c1) as E1. rewrite !length_zeros in E1. rewrite E1 by done.
  pose proof (splice_app (zeros 112 ++ c1) (zeros 8) [] c2) as E2.
  rewrite !app_nil_r, length_app, !length_zeros, H1, <- !app_assoc in E2. change (112 + 8)%nat with 120%nat in E2. rewrite E2 by done.
  replace 112%nat with (pp + (112 - pp))%nat at 1 by lia. rewrite zeros_add, <- app_assoc.
  apply (splice_app [] (zeros pp)). by rewrite length_zeros.
Qed.

Lemma hash_rebuilt pos (rem : list byte) : (pos ≤ 64)%nat → length rem = (64 - pos)%nat →
  drop pos (splice (zeros 64) pos rem) = rem.
Proof.
  intros Hp Hr. replace 64%nat with (pos + (64 - pos))%nat at 1 by lia. rewrite zeros_add.
  pose proof (splice_app (zeros pos) (zeros (64 - pos)) [] rem) as E. rewrite !length_zeros, !app_nil_r in E.
  rewrite E by done. apply drop_app_length'. by rewrite length_zeros.
Qed.

Lemma random_roundtrip r : random_inv r →
  serialized_random (to_bytes r) = Ok (to_bytes r) ∧ ∃ r', random_from_bytes (to_bytes r) = Ok r' ∧ random_eq r' r.
Proof.
  intros Hr. destruct (to_bytes_layout r Hr) as (path & counter & rem & Elb & -> & Hpath & Hcnt & Hrem).
  destruct Hr as (Hd & _ & Hle & _ & Hh & Hp). destruct (block_roundtrip _ Hd) as [Hdl Hdr].
  set (c1 := take 8 counter) in *. set (c2 := drop 8 counter) in *.
  assert (length c1 = 8%nat ∧ length c2 = 8%nat) as [H1 H2] by (unfold c1, c2; rewrite length_take, length_drop; lia).
  set (Hd' := c1 ++ c2 ++ block_to_bytes (digest r)). assert (length Hd' = 96%nat) as HH by (unfold Hd'; rewrite !length_app; lia).
  set (pp := path_position r) in *. set (pos := position r) in *.
  assert (u8_val (as_u8 pp) = pp ∧ u8_val (as_u8 pos) = pos) as [Epp Epos]
    by (split; apply u8_val_as; unfold PATH_CAPACITY in *; lia).
  set (bytes := Hd' ++ as_u8 pp :: as_u8 pos :: path ++ rem).
  assert (length bytes = 98 + pp + length rem)%nat as Hlen
    by (unfold bytes; rewrite length_app; cbn [length]; rewrite length_app; lia).
  assert (nth 96 bytes Byte.x00 = as_u8 pp ∧ nth 97 bytes Byte.x00 = as_u8 pos) as [E96 E97]
    by (unfold bytes; split; rewrite app_nth2 by lia; rewrite HH; done).
  assert (drop 98 bytes = path ++ rem) as E98
    by (unfold bytes; rewrite drop_app_ge by lia; rewrite HH; done).
  assert (length rem = if (pos =? 0)%nat then 0 else 64 - pos)%nat as Hrl
    by (rewrite Hrem; destruct (pos =? 0)%nat; [done|]; rewrite length_drop; lia).
  unfold serialized_random, random_from_bytes. rewrite !E96, !E97, Epp, Epos.
  split.
  - destruct (Nat.eqb_spec (length bytes) 0); [done|]. rewrite (proj2 (Nat.ltb_ge _ _)) by lia.
    rewrite (proj2 (Nat.ltb_ge PATH_CAPACITY pp)) by lia. rewrite (proj2 (Nat.ltb_ge 64 pos)) by lia.
    rewrite (proj2 (Nat.ltb_ge (length bytes) (98 + pp))) by lia.
    destruct (pos =? 0)%nat; [done|]. cbn [negb andb]. by rewrite (proj2 (Nat.ltb_ge _ _)) by lia.
  - destruct (Nat.eqb_spec (length bytes) 0); [lia|].
    assert (take 80 (drop 16 bytes) = block_to_bytes (digest r)) as ->.
    { unfold bytes, Hd'. rewrite <- !app_assoc, app_assoc, drop_app_length' by (rewrite length_app; lia).
      by apply take_app_length'. }
    rewrite Hdr. cbv beta iota zeta. eexists. split; [done|].
    assert (take 8 bytes = c1) as -> by (unfold bytes, Hd'; rewrite <- app_assoc; by apply take_app_length').
    assert (take 8 (drop 8 bytes) = c2) as ->.
    { unfold bytes, Hd'. rewrite <- !app_assoc, drop_app_length' by done. by apply take_app_length'. }
    rewrite E98, take_app_length' by done. rewrite (last_block_rebuilt _ _ _ pp) by done.
    split_and!; cbn [digest last_block path_position hash_array position]; [done..|].
    destruct (Nat.eqb_spec pos 0) as [|Hne]; [by left|right].
    rewrite <- drop_drop, E98, drop_app_length', take_ge by (done || lia). rewrite <- Hrem. apply hash_rebuilt; lia.
Qed.

(** Equal generators go on equally. *)
Fixpoint stream (n : nat) (r : Blake2b512Random) : list (list byte) :=
  match n with O => [] | S n => let '(name, r) := next r in name :: stream n r end.

Lemma random_eq_next a b : (position b = 0%nat ∨ position b = 32%nat) → random_eq a b →
  (next a).1 = (next b).1 ∧ random_eq (next a).2 (next b).2.
Proof.
  destruct a as [d l pp h p], b as [d' l' pp' h' p'].
  intros Hp (E1 & E2 & E3 & E4 & E5). cbn [digest last_block path_position hash_array position] in *. subst.
  unfold next. cbn [position]. destruct (Nat.eqb_spec p' 0) as [->|Hne]; [split; [done|]; split_and!; [done..|by right]|].
  destruct Hp as [Hp|Hp]; [done|]; subst p'. destruct E5 as [?|E5]; [done|]. cbn [hash_array].
  split; [cbn [fst]; by rewrite E5|]. split_and!; [done..|by left].
Qed.
Lemma random_eq_stream n a b : random_inv b → random_eq a b → stream n a = stream n b.
Proof.
  revert a b. induction n as [|n IH]; intros a b Hb E; cbn [stream]; [done|].
  destruct (random_eq_next a b) as [E1 E2]; [apply Hb|done|]. pose proof (next_inv b Hb) as Hn.
  destruct (next a) as [x a'], (next b) as [y b']. cbn [fst snd] in *. subst. f_equal. by apply IH.
Qed.

(** C26: Every generator state that seeding, splitting, drawing names and merging can reach
    serializes to bytes that the layout validation accepts. Deserializing them succeeds with an
    equal state, and the restored generator yields the same names as the original, for any
    number of draws. *)
Theorem generator_survives_serialization r : reachable r →
  serialized_random (to_bytes r) = Ok (to_bytes r) ∧
  ∃ r', random_from_bytes (to_bytes r) = Ok r' ∧ random_eq r' r ∧ ∀ n, stream n r' = stream n r.
Proof.
  intros Hr%reachable_inv. destruct (random_roundtrip r Hr) as (Hv & r' & E & Heq).
  split; [done|]. exists r'. split_and!; [done..|]. intros n. by apply random_eq_stream.
Qed.
Lemma generator_survives_serialization_witness :
  let r := (next (split_short (from_init []) 0x6487)).2 in
  serialized_random (to_bytes r) = Ok (to_bytes r) ∧
  ∃ r', random_from_bytes (to_bytes r) = Ok r' ∧ random_eq r' r ∧ ∀ n, stream n r' = stream n r.
Proof.
  apply (generator_survives_serialization (next (split_short (from_init []) 0x6487)).2).
  exact (reach_next _ (reach_split_short _ _ (reach_init []))).
Defined.

(** ** Known answers

    The vectors of the tests of [blake2b512_random.rs]; the bytes are read as
    one big-endian number. *)
Definition two_draws (r : Blake2b512Random) : Z * Z :=
  let (a, r) := next r in let (b, _) := next r in (le_val (rev a), le_val (rev b)).

Example empty_gives_a_predictable_result : two_draws (from_init []) =
  (0x52884e9cfaf738709d271e9c0268f05964395678d9ccd61b187d67224a464230,
   0xcfa2ebb91185e9764a5aef6c7f5a6756cfe0f48a33c5bfabffdacac55d32f24a).
Proof. vm_compute. reflexivity. Qed.
Example handles_split_short : two_draws (split_short (from_init []) 0x6487) =
  (0x745ce0f59aa7ebadc31c097126ac85870c3364b561d1d81935eb01ef5968d4b3,
   0x2d7bd219e4ce1e18e38c06eecdf17098ed49d66890086d19543a84fe88d80d67).
Proof. vm_compute. reflexivity. Qed.
Example rolls_over_after_enough_byte_splits :
  two_draws (foldl (λ r n, split_byte r (Z.of_nat n)) (from_init []) (seq 0 113)) =
  (0x0f6ccee70daf946d23361a92e672515898a287456c38517bd92bb0925ee18103,
   0x7d9a1831ce7f42b818c61223f709d55dd9cf310b01e19e2526d2d13e1b9ed61c).
Proof. vm_compute. reflexivity. Qed.
Example merge_with_two_children :
  two_draws <$> merge [split_byte (from_init []) 0; split_byte (from_init []) 1] = Some
  (0xce190f4283d4b11653cb78ee8fbc68a5b8cb62511a1f2ed3e836400e62144fa9,
   0x460e913fb6f2250fb1ae2cd6ceeb5501b0d83b29abd538d3508ec6845904342d).
Proof. vm_compute. reflexivity. Qed.
