(* ===== verification/BipartiteMatch.v ===== *)
(** * Maximum bipartite matching

    [rholang/src/matcher/maximum_bipartite_match.rs]: the assignment of a
    target to every pattern, by augmenting paths.  The closure that compares a
    pattern with a target can record something as it runs (the spatial matcher
    records errors), so it threads a state of its own, of type [C].

    Every recursive call either marks one more target as seen or drops a
    candidate, which bounds the depth of the recursion by [search_fuel]. *)

From S2P Require Import Prelude.

Section Search.
Context {P T R C : Type}.

(** A pattern with the targets still to be tried, by index. *)
Notation Pattern := (P * list nat)%type.

Record MState := mkMState {
  ms_matches : gmap nat (Pattern * R);
  ms_seen : gset nat;
}.

Context (targets : list T) (match_fn : P → T → C → option R * C).

(** [find_match] with [try_claim_match] inlined at its only call.  The index of
    a candidate is that of a target: [targets[candidate]] does not panic. *)
Fixpoint find_match (fuel : nat) (pattern : Pattern) (st : MState) (c : C) : bool * MState * C :=
  match fuel with
  | O => (false, st, c)
  | S fuel =>
      match pattern.2 with
      | [] => (false, st, c)
      | candidate :: rest =>
          if decide (candidate ∈ ms_seen st) then find_match fuel (pattern.1, rest) st c
          else
            match targets !! candidate with
            | None => (false, st, c)
            | Some t =>
                match match_fn pattern.1 t c with
                | (Some result, c) =>
                    let st := mkMState (ms_matches st) ({[candidate]} ∪ ms_seen st) in
                    let claim st := mkMState (<[candidate := (pattern, result)]> (ms_matches st)) (ms_seen st) in
                    match ms_matches st !! candidate with
                    | None => (true, claim st, c)
                    | Some (previous_pattern, _) =>
                        match find_match fuel previous_pattern st c with
                        | (true, st, c) => (true, claim st, c)
                        | (false, st, c) => find_match fuel (pattern.1, rest) st c
                        end
                    end
                | (None, c) => find_match fuel (pattern.1, rest) st c
                end
            end
      end
  end.

Definition search_fuel : nat := S (S (length targets) * S (length targets)).

Fixpoint match_patterns (patterns : list P) (st : MState) (c : C) : bool * MState * C :=
  match patterns with
  | [] => (true, st, c)
  | p :: patterns =>
      match find_match search_fuel (p, seq 0 (length targets)) (mkMState (ms_matches st) ∅) c with
      | (true, st, c) => match_patterns patterns st c
      | (false, st, c) => (false, st, c)
      end
  end.

(** The matches in the order of their targets. *)
Definition collect_matches (m : gmap nat (Pattern * R)) : list (T * P * R) :=
  omap (λ i, t ← targets !! i; pr ← m !! i; Some (t, pr.1.1, pr.2)) (seq 0 (length targets)).

Definition find_matches (patterns : list P) (c : C) : option (list (T * P * R)) * C :=
  match match_patterns patterns (mkMState ∅ ∅) c with
  | (true, st, c) => (Some (collect_matches (ms_matches st)), c)
  | (false, _, c) => (None, c)
  end.
End Search.
#[global] Arguments MState : clear implicits.

(** ** Correctness of the search *)
Section Spec.
Context {P T R C : Type} (targets : list T) (match_fn : P → T → C → option R * C).
Notation State := (MState P R).
Notation L := (length targets).
Notation search := (find_match targets match_fn).

(** The assigned patterns. *)
Definition assigned (m : gmap nat (P * list nat * R)) : list P := (λ ix, ix.2.1.1) <$> map_to_list m.
(** A target matched by the pattern it is assigned to. *)
Definition accepted (t : T) (p : P) (r : R) : Prop := ∃ c, (match_fn p t c).1 = Some r.
Definition matches_ok (m : gmap nat (P * list nat * R)) : Prop :=
  map_Forall (λ i pr, (length pr.1.2 ≤ L)%nat ∧ ∃ t, targets !! i = Some t ∧ accepted t pr.1.1 pr.2) m.

Definition unseen (seen : gset nat) : nat := size (set_seq 0 L ∖ seen : gset nat).
Definition measure (pattern : P * list nat) (st : State) : nat :=
  (unseen (ms_seen st) * S L + length pattern.2)%nat.

Lemma unseen_le seen : (unseen seen ≤ L)%nat.
Proof.
  unfold unseen. rewrite <- (length_seq L 0) at 2. rewrite <- (size_list_to_set (C := gset nat) (seq 0 L)) by apply NoDup_seq.
  apply subseteq_size. intros i. rewrite elem_of_difference, elem_of_set_seq, elem_of_list_to_set, elem_of_seq. lia.
Qed.
Lemma unseen_mark i seen : (i < L)%nat → i ∉ seen → (unseen ({[i]} ∪ seen) < unseen seen)%nat.
Proof.
  intros Hi Hs. unfold unseen. apply subset_size. split; [intros j; rewrite !elem_of_difference; set_solver|]. intros H.
  assert (i ∈ (set_seq 0 L ∖ seen : gset nat)) as Hin by (rewrite elem_of_difference, elem_of_set_seq; split; [lia|done]).
  apply H in Hin. set_solver.
Qed.
Lemma unseen_mono s s' : s ⊆ s' → (unseen s' ≤ unseen s)%nat.
Proof. intros H. unfold unseen. apply subseteq_size. intros j. rewrite !elem_of_difference. set_solver. Qed.

Lemma assigned_insert_new i x m : m !! i = None → assigned (<[i := x]> m) ≡ₚ x.1.1 :: assigned m.
Proof. intros H. unfold assigned. by rewrite map_to_list_insert. Qed.
Lemma assigned_insert_over i x y m : m !! i = Some y → y.1.1 :: assigned (<[i := x]> m) ≡ₚ x.1.1 :: assigned m.
Proof.
  intros H. rewrite <- (insert_delete_id m i y H) at 2. rewrite <- insert_delete_eq.
  rewrite !assigned_insert_new by apply lookup_delete_eq. constructor.
Qed.

(** What a call does to the matches: nothing at the seen targets; nothing at
    all when it fails; one more pattern is assigned when it succeeds. *)
Lemma find_match_effect fuel pattern st c ok st' c' : search fuel pattern st c = (ok, st', c') →
  ms_seen st ⊆ ms_seen st' ∧
  (∀ i, i ∈ ms_seen st → ms_matches st' !! i = ms_matches st !! i) ∧
  if ok then assigned (ms_matches st') ≡ₚ pattern.1 :: assigned (ms_matches st)
  else ms_matches st' = ms_matches st.
Proof.
  revert pattern st c ok st' c'. induction fuel as [|fuel IH]; intros [p cands] st c ok st' c'; cbn [find_match fst snd].
  { by intros [= <- <- _]. }
  destruct cands as [|i rest]; [by intros [= <- <- _]|].
  destruct (decide (i ∈ ms_seen st)) as [Hi|Hi]; [apply IH|].
  destruct (targets !! i) as [t|] eqn:Ht; [|by intros [= <- <- _]].
  destruct (match_fn p t c) as [[r|] c1] eqn:Em; [|apply IH]. cbn [ms_matches].
  destruct (ms_matches st !! i) as [[prev r0]|] eqn:Ep; cycle 1.
  { intros [= <- <- _]. cbn [ms_matches ms_seen]. split_and!; [set_solver| |by apply assigned_insert_new].
    intros j Hj. apply lookup_insert_ne. congruence. }
  destruct (find_match _ _ fuel prev _ c1) as [[[] st1] c2] eqn:E; apply IH in E as (Hs & Hm & Ha);
    cbn [ms_matches ms_seen] in *.
  - intros [= <- <- _]. cbn [ms_matches ms_seen]. assert (ms_matches st1 !! i = Some (prev, r0)) as E1 by (rewrite Hm; set_solver).
    split_and!; [set_solver| |].
    + intros j Hj. rewrite lookup_insert_ne by congruence. apply Hm. set_solver.
    + apply (Permutation_cons_inv (a := prev.1)).
      rewrite (assigned_insert_over i _ (prev, r0)) by done. cbn [fst]. rewrite Ha. constructor.
  - intros E. apply IH in E as (Hs' & Hm' & Ha'). rewrite Ha in Hm', Ha'. split_and!; [set_solver| |done].
    intros j Hj. apply Hm'. set_solver.
Qed.

Lemma find_match_ok fuel pattern st c : matches_ok (ms_matches st) → (length pattern.2 ≤ L)%nat →
  matches_ok (ms_matches (search fuel pattern st c).1.2).
Proof.
  revert pattern st c. induction fuel as [|fuel IH]; intros [p cands] st c Hok Hl; cbn [find_match fst snd]; [done|].
  destruct cands as [|i rest]; [done|]. cbn [length snd] in Hl.
  destruct (decide (i ∈ ms_seen st)); [apply IH; simpl; [done|lia]|].
  destruct (targets !! i) as [t|] eqn:Ht; [|done].
  destruct (match_fn p t c) as [[r|] c1] eqn:Em; [|apply IH; simpl; [done|lia]]. cbn [ms_matches].
  assert (∀ m, matches_ok m → matches_ok (<[i := (p, i :: rest, r)]> m)) as Hins.
  { intros m Hm. apply map_Forall_insert_2; [|done]. split; [done|]. exists t. split; [done|]. exists c. cbn [fst snd]. by rewrite Em. }
  destruct (ms_matches st !! i) as [[prev r0]|] eqn:Ep; [|by apply Hins].
  pose proof (IH prev (mkMState (ms_matches st) ({[i]} ∪ ms_seen st)) c1 Hok) as Hprev.
  destruct (find_match _ _ fuel prev _ c1) as [[[] st1] c2]; cbn [fst snd] in *.
  - apply Hins, Hprev, (Hok i _ Ep).
  - apply IH; [apply Hprev, (Hok i _ Ep)|simpl; lia].
Qed.

(** More fuel than the measure changes nothing. *)
Lemma find_match_fuel fuel fuel' pattern st c : matches_ok (ms_matches st) → (length pattern.2 ≤ L)%nat →
  (measure pattern st < fuel)%nat → (measure pattern st < fuel')%nat →
  search fuel pattern st c = search fuel' pattern st c.
Proof.
  revert fuel' pattern st c. induction fuel as [|fuel IH]; intros [|fuel'] [p cands] st c Hok Hl Hf Hf'; [lia..|].
  cbn [find_match fst snd length] in *. destruct cands as [|i rest]; [done|]. unfold measure in *. cbn [snd length] in *.
  assert (search fuel (p, rest) st c = search fuel' (p, rest) st c) as Enext
    by (apply IH; cbn [snd]; [done|lia..]).
  destruct (decide (i ∈ ms_seen st)) as [|Hi]; [done|].
  destruct (targets !! i) as [t|] eqn:Ht; [|done]. pose proof (lookup_lt_Some _ _ _ Ht) as Hlt.
  destruct (match_fn p t c) as [[r|] c1] eqn:Em; [|apply IH; cbn [snd]; [done|lia..]]. cbn [ms_matches].
  destruct (ms_matches st !! i) as [[prev r0]|] eqn:Ep; [|done].
  pose proof (unseen_mark i (ms_seen st) Hlt Hi) as Hu. destruct (Hok i _ Ep) as [Hpl _]. cbn [fst snd] in Hpl.
  assert (unseen ({[i]} ∪ ms_seen st) * S L + S L ≤ unseen (ms_seen st) * S L)%nat as Hdec by nia.
  rewrite (IH fuel' prev) by (cbn [ms_matches ms_seen]; done || lia).
  destruct (find_match _ _ fuel' prev _ c1) as [[[] st1] c2] eqn:E; [done|].
  apply find_match_effect in E as (Hs & _ & Em1). cbn [ms_matches ms_seen] in *.
  pose proof (unseen_mono _ _ Hs) as Hu1.
  assert (unseen (ms_seen st1) * S L ≤ unseen ({[i]} ∪ ms_seen st) * S L)%nat by nia.
  apply IH; cbn [snd]; [by rewrite Em1|lia..].
Qed.
Lemma find_match_terminates p st c fuel : matches_ok (ms_matches st) → (search_fuel targets ≤ fuel)%nat →
  search fuel (p, seq 0 L) st c = search (search_fuel targets) (p, seq 0 L) st c.
Proof.
  intros Hok Hf. unfold search_fuel in *. pose proof (unseen_le (ms_seen st)) as Hu.
  assert (measure (p, seq 0 L) st < S (S L * S L))%nat by (unfold measure; cbn [snd]; rewrite length_seq; nia).
  apply find_match_fuel; [done|cbn [snd]; by rewrite length_seq|lia|lia].
Qed.

Lemma match_patterns_ok patterns st c : matches_ok (ms_matches st) →
  let '(ok, st', _) := match_patterns targets match_fn patterns st c in
  matches_ok (ms_matches st') ∧ (ok = true → assigned (ms_matches st') ≡ₚ patterns ++ assigned (ms_matches st)).
Proof.
  revert st c. induction patterns as [|p patterns IH]; intros st c Hok; cbn [match_patterns]; [done|].
  pose proof (find_match_ok (search_fuel targets) (p, seq 0 L) (mkMState (ms_matches st) ∅) c Hok) as Hok1.
  destruct (find_match _ _ _ _ _ c) as [[[] st1] c1] eqn:E; cbn [fst snd ms_matches] in Hok1;
    rewrite length_seq in Hok1; specialize (Hok1 ltac:(done)); [|done].
  apply find_match_effect in E as (_ & _ & Ha). cbn [fst ms_matches] in Ha.
  specialize (IH st1 c1 Hok1). destruct (match_patterns _ _ _ st1 c1) as [[ok st2] c2].
  destruct IH as [Hok2 IH]. split; [done|]. intros Ht. rewrite (IH Ht), Ha. by rewrite <- Permutation_middle.
Qed.

(** A property of the state of the closure is kept when the closure keeps it on
    the patterns and the targets. *)
Lemma find_match_state (D : P → Prop) (I : C → Prop) fuel pattern st c :
  (∀ p t c, D p → t ∈ targets → I c → I (match_fn p t c).2) →
  D pattern.1 → map_Forall (λ _ pr, D pr.1.1) (ms_matches st) → I c →
  map_Forall (λ _ pr, D pr.1.1) (ms_matches (search fuel pattern st c).1.2) ∧ I (search fuel pattern st c).2.
Proof.
  intros Hm. revert pattern st c.
  induction fuel as [|fuel IH]; intros [p cands] st c HD Hst Hc; cbn [find_match fst snd] in *; [done|].
  destruct cands as [|i rest]; [done|]. destruct (decide (i ∈ ms_seen st)); [by apply IH|].
  destruct (targets !! i) as [t|] eqn:Ht; [|done].
  pose proof (Hm p t c HD (list_elem_of_lookup_2 _ _ _ Ht) Hc) as Hc1.
  destruct (match_fn p t c) as [[r|] c1]; cbn [snd ms_matches] in *; [|by apply IH].
  destruct (ms_matches st !! i) as [[prev r0]|] eqn:Ep; [|by split; [apply map_Forall_insert_2|]].
  destruct (IH prev (mkMState (ms_matches st) ({[i]} ∪ ms_seen st)) c1) as [H1 H2]; [apply (Hst i _ Ep)|done..|].
  destruct (find_match _ _ fuel prev _ c1) as [[[] st1] c2]; cbn [fst snd ms_matches] in *; [|by apply IH].
  split; [by apply map_Forall_insert_2|done].
Qed.
Lemma find_matches_state (I : C → Prop) patterns c :
  (∀ p t c, p ∈ patterns → t ∈ targets → I c → I (match_fn p t c).2) → I c →
  I (find_matches targets match_fn patterns c).2.
Proof.
  intros Hm Hc. unfold find_matches. set (D := λ p, p ∈ patterns).
  assert (∀ ps st c, (∀ p, p ∈ ps → D p) → map_Forall (λ _ pr, D pr.1.1) (ms_matches st) → I c →
    I (match_patterns targets match_fn ps st c).2) as H.
  { clear c Hc. induction ps as [|p ps IH]; intros st c Hps Hst Hc; cbn [match_patterns]; [done|].
    destruct (find_match_state D I (search_fuel targets) (p, seq 0 L) (mkMState (ms_matches st) ∅) c) as [H1 H2];
      [done|apply Hps; by left|done..|].
    destruct (find_match _ _ _ _ _ c) as [[[] st1] c1]; [|done]. apply IH; [|done..]. intros q Hq. apply Hps. by right. }
  specialize (H patterns (mkMState ∅ ∅) c (λ p Hp, Hp) (map_Forall_empty _) Hc).
  by destruct (match_patterns _ _ _ _ c) as [[[] st] c1].
Qed.

Lemma collect_assigned m : matches_ok m → (λ x, x.1.2) <$> collect_matches targets m ≡ₚ assigned m.
Proof.
  intros Hok. assert (map_to_list m ≡ₚ omap (λ i, pr ← m !! i; Some (i, pr)) (seq 0 L)) as HP.
  { apply NoDup_Permutation; [apply NoDup_map_to_list| |].
    - apply (NoDup_fmap_1 fst). assert (∀ l, fst <$> omap (λ i, pr ← m !! i; Some (i, pr)) l `sublist_of` l) as Hsub.
      { induction l as [|i l IH]; csimpl; [done|]. destruct (m !! i); csimpl; [by apply sublist_skip|by apply sublist_cons]. }
      eapply sublist_NoDup; [apply (NoDup_seq 0 L)|apply Hsub].
    - intros [i pr]. rewrite elem_of_map_to_list, list_elem_of_omap. split.
      + intros Hi. exists i. rewrite Hi. split; [|done]. destruct (Hok i pr Hi) as (_ & t & Ht & _).
        apply lookup_lt_Some in Ht. apply elem_of_seq. lia.
      + intros (j & _ & E). destruct (m !! j) eqn:Ej; simplify_eq/=. done. }
  unfold assigned. rewrite HP. unfold collect_matches. clear HP.
  induction (seq 0 L) as [|i l IH]; csimpl; [done|].
  destruct (m !! i) as [pr|] eqn:Ei; csimpl; [|by destruct (targets !! i)].
  destruct (Hok i pr Ei) as (_ & t & -> & _). csimpl. by rewrite IH.
Qed.
Lemma collect_accepted m : matches_ok m → Forall (λ x, accepted x.1.1 x.1.2 x.2) (collect_matches targets m).
Proof.
  intros Hok. apply Forall_forall. intros x. unfold collect_matches. rewrite list_elem_of_omap. intros (i & _ & E).
  destruct (targets !! i) as [t|] eqn:Et; simplify_eq/=. destruct (m !! i) as [pr|] eqn:Ei; simplify_eq/=.
  destruct (Hok i pr Ei) as (_ & t' & Et' & Ha). by simplify_eq.
Qed.
Lemma collect_sublist (m : gmap nat (P * list nat * R)) : (λ x, x.1.1) <$> collect_matches targets m `sublist_of` targets.
Proof.
  assert (omap (λ i, targets !! i) (seq 0 L) = targets) as E.
  { assert (∀ (f : nat → option T) (l : list nat), omap f (S <$> l) = omap (λ i, f (S i)) l) as Hf
      by (intros f l; induction l as [|i l IH]; csimpl; [done|]; by rewrite IH).
    clear m. induction targets as [|t l IH]; csimpl; [done|]. f_equal. rewrite <- fmap_S_seq, Hf. apply IH. }
  rewrite <- E at 2. clear E. unfold collect_matches. induction (seq 0 L) as [|i l IH]; csimpl; [done|].
  destruct (targets !! i) as [t|]; csimpl; [|exact IH]. destruct (m !! i); csimpl; [by apply sublist_skip|by apply sublist_cons].
Qed.

Lemma find_matches_sound patterns c out c' : find_matches targets match_fn patterns c = (Some out, c') →
  (λ x, x.1.2) <$> out ≡ₚ patterns ∧ ((λ x, x.1.1) <$> out) `sublist_of` targets ∧
  Forall (λ x, accepted x.1.1 x.1.2 x.2) out.
Proof.
  unfold find_matches. pose proof (match_patterns_ok patterns (mkMState ∅ ∅) c) as H.
  destruct (match_patterns _ _ _ _ c) as [[[] st] c1]; [|done]. intros [= <- _].
  destruct H as [Hok Ha]; [by apply map_Forall_empty|]. specialize (Ha eq_refl). split_and!.
  - rewrite collect_assigned by done. by rewrite Ha, app_nil_r.
  - apply collect_sublist.
  - by apply collect_accepted.
Qed.
End Spec.

(** A result of [find_matches] is a matching of all the patterns. Every pattern occurs exactly
    once in it, the targets in it are distinct elements of the targets and in their order, and the
    comparison has accepted every pair with the result that is reported for it. *)
Theorem find_matches_is_matching {P T R C} (targets : list T) (match_fn : P → T → C → option R * C) patterns c out c' :
  find_matches targets match_fn patterns c = (Some out, c') →
  (λ x, x.1.2) <$> out ≡ₚ patterns ∧ ((λ x, x.1.1) <$> out) `sublist_of` targets ∧
  Forall (λ x, accepted match_fn x.1.1 x.1.2 x.2) out.
Proof. apply find_matches_sound. Qed.
(** Three patterns, as the targets they accept. *)
Definition accepts (p : list nat) (t : nat) (c : unit) : option nat * unit := (if decide (t ∈ p) then Some t else None, c).
Lemma find_matches_is_matching_witness :
  let out := [(1%nat, [1; 3]%nat, 1%nat); (2%nat, [1; 2]%nat, 2%nat)] in
  (λ x, x.1.2) <$> out ≡ₚ [[1; 2]%nat; [1; 3]%nat] ∧ ((λ x, x.1.1) <$> out) `sublist_of` [1; 2; 3]%nat ∧
  Forall (λ x, accepted accepts x.1.1 x.1.2 x.2) out.
Proof.
  apply (find_matches_is_matching [1; 2; 3]%nat accepts [[1; 2]%nat; [1; 3]%nat] () _ ()). vm_compute. reflexivity.
Defined.

(** The search is not maximum, although it is documented to find a maximum matching. With
    targets 1, 2 and 3 and patterns that accept {1, 2}, {1, 3} and {2} it reports that there is no
    matching of all the patterns, but the assignment 1, 3, 2 is one. A pattern that was moved to
    its second candidate keeps only the later candidates and cannot move back to the first. *)
Theorem matching_not_maximum :
  find_matches [1; 2; 3]%nat accepts [[1; 2]%nat; [1; 3]%nat; [2]%nat] () = (None, ()) ∧
  Forall2 (λ p t, (accepts p t ()).1 = Some t) [[1; 2]%nat; [1; 3]%nat; [2]%nat] [1; 3; 2]%nat.
Proof. split; [vm_compute; reflexivity|]. repeat constructor. Qed.
