(* ===== verification/ParCount.v ===== *)
(** * Sub-processes

    [rholang/src/matcher/par_count.rs] and
    [rholang/src/matcher/par_spatial_matcher_utils.rs]: the numbers of terms
    that a pattern can match, and the ways to split a process in two. *)

From S2P Require Import Prelude BTree Bytes Trace Ast ParOps Accounting.

(** ** Counts *)
Record ParCount := mkCount {
  c_sends : Z;
  c_receives : Z;
  c_news : Z;
  c_exprs : Z;
  c_matches : Z;
  c_unforgeables : Z;
  c_bundles : Z;
}.
#[export] Instance ParCount_eq_dec : EqDecision ParCount.
Proof. solve_decision. Defined.

Definition i32_max : Z := 2 ^ 31 - 1.
Definition i32_wrap (z : Z) : Z := (z + 2 ^ 31) mod 2 ^ 32 - 2 ^ 31.

Definition saturating_add (l r : Z) : Z :=
  let res := i32_wrap (l + r) in
  let mask := if res <? l then -1 else 0 in
  Z.land (Z.lor res mask) i32_max.

Definition bin_op (op : Z → Z → Z) (a b : ParCount) : ParCount :=
  mkCount (op (c_sends a) (c_sends b)) (op (c_receives a) (c_receives b)) (op (c_news a) (c_news b))
    (op (c_exprs a) (c_exprs b)) (op (c_matches a) (c_matches b)) (op (c_unforgeables a) (c_unforgeables b))
    (op (c_bundles a) (c_bundles b)).
Definition count_min : ParCount → ParCount → ParCount := bin_op Z.min.
Definition count_max : ParCount → ParCount → ParCount := bin_op Z.max.
Definition count_add : ParCount → ParCount → ParCount := bin_op saturating_add.
Definition count_zero : ParCount := mkCount 0 0 0 0 0 0 0.

(** [len() as i32]. *)
Definition len_i32 {A} (l : list A) : Z := i32_wrap (Z.of_nat (length l)).
Definition from_par (par : Par) : ParCount :=
  mkCount (len_i32 (sends par)) (len_i32 (receives par)) (len_i32 (news par)) (len_i32 (exprs par))
    (len_i32 (matches par)) (len_i32 (unforgeables par)) (len_i32 (bundles par)).
Definition max_count : ParCount := mkCount i32_max i32_max i32_max i32_max i32_max i32_max i32_max.

Definition is_free_var (expr : Expr) : bool :=
  match expr with EVar (FreeVar _) | EVar Wildcard => true | _ => false end.
Definition no_frees_exprs (exprs : list Expr) : list Expr := filter (λ e, is_free_var e = false) exprs.
Definition no_frees (par : Par) : Par :=
  mkPar (sends par) (receives par) (news par) (no_frees_exprs (exprs par)) (matches par) (unforgeables par)
    (bundles par) (connectives par) (locally_free par) (connective_used par).

(** [min_max_connective], over [min_max] of the processes of the connective. *)
Definition min_max_connective_with (mm : Par → ParCount * ParCount) (con : Connective) : ParCount * ParCount :=
  match con with
  | ConnAnd ps =>
      let p_min_max := (λ p, mm p) <$> ps in
      (foldl (λ acc m, count_max acc m.1) count_zero p_min_max, foldl (λ acc m, count_min acc m.2) max_count p_min_max)
  | ConnOr ps =>
      let p_min_max := (λ p, mm p) <$> ps in
      (foldl (λ acc m, count_min acc m.1) max_count p_min_max, foldl (λ acc m, count_max acc m.2) count_zero p_min_max)
  | ConnNot _ => (count_zero, max_count)
  | ConnEmpty | VarRef _ _ => (count_zero, count_zero)
  | _ => let one := mkCount 0 0 0 1 0 0 0 in (one, one)
  end.
Fixpoint min_max (par : Par) : ParCount * ParCount :=
  let pc := from_par (no_frees par) in
  let wildcard := existsb is_free_var (exprs par) in
  let max_init := if wildcard then max_count else pc in
  foldl (λ acc con, let c := min_max_connective_with min_max con in (count_add acc.1 c.1, count_add acc.2 c.2))
    (pc, max_init) (connectives par).
Definition min_max_connective : Connective → ParCount * ParCount := min_max_connective_with min_max.

(** ** Splits *)
Definition MAX_SUBSET_ITEMS : nat := 20.
Definition MAX_SPLIT_COMBINATIONS : Z := 1000000.

Section Subsets.
Context {A : Type}.
Notation Split := (list A * list A * Z)%type.

Fixpoint counted_max_subsets (items : list A) (max_size : Z) : list Split :=
  match items with
  | [] => [([], [], 0)]
  | head :: rem =>
      ([], items, 0) ::
      (counted_max_subsets rem max_size ≫= λ '(tail, complement, count),
         if count =? max_size then [(tail, head :: complement, count)]
         else if is_empty tail then [(head :: tail, complement, 1)]
         else [(tail, head :: complement, count); (head :: tail, complement, count + 1)])
  end.

Fixpoint worker (items : list A) (min_size max_size : Z) : list Split :=
  if (max_size <? 0) || (max_size <? min_size) then []
  else if min_size <=? 0 then
    if max_size =? 0 then [([], items, 0)] else counted_max_subsets items max_size
  else
    match items with
    | [] => []
    | head :: rem =>
        let decr := min_size - 1 in
        worker rem decr max_size ≫= λ '(tail, complement, count),
          if count =? max_size then [(tail, head :: complement, count)]
          else if count =? decr then [(head :: tail, complement, min_size)]
          else [(tail, head :: complement, count); (head :: tail, complement, count + 1)]
    end.

Definition min_max_subsets (items : list A) (min_size max_size : Z) : Result (list (list A * list A)) RholangError :=
  if (MAX_SUBSET_ITEMS <? length items)%nat then Err (ReduceError (SubsetTooLarge (length items)))
  else Ok (fst <$> worker items min_size max_size).
End Subsets.

(** [u64::saturating_mul]. *)
Definition u64_saturating_mul (a b : Z) : Z := Z.min (a * b) (2 ^ 64 - 1).

Definition sub_pars (par : Par) (min max min_prune max_prune : ParCount) : Result (list (Par * Par)) RholangError :=
  let hi {A} (count : ParCount → Z) (l : list A) := Z.min (count max) (len_i32 l - count min_prune) in
  let lo {A} (count : ParCount → Z) (l : list A) := Z.max (count min) (len_i32 l - count max_prune) in
  sub_sends ←? min_max_subsets (sends par) (lo c_sends (sends par)) (hi c_sends (sends par));
  sub_receives ←? min_max_subsets (receives par) (lo c_receives (receives par)) (hi c_receives (receives par));
  sub_news ←? min_max_subsets (news par) (lo c_news (news par)) (hi c_news (news par));
  sub_exprs ←? min_max_subsets (exprs par) (lo c_exprs (exprs par)) (hi c_exprs (exprs par));
  sub_matches ←? min_max_subsets (matches par) (lo c_matches (matches par)) (hi c_matches (matches par));
  sub_unfs ←? min_max_subsets (unforgeables par) (lo c_unforgeables (unforgeables par))
                (hi c_unforgeables (unforgeables par));
  sub_bundles ←? min_max_subsets (bundles par) (lo c_bundles (bundles par)) (hi c_bundles (bundles par));
  let len {A} (l : list A) := Z.of_nat (length l) in
  let total := foldl u64_saturating_mul (len sub_sends)
                 [len sub_receives; len sub_news; len sub_exprs; len sub_matches; len sub_unfs; len sub_bundles] in
  if MAX_SPLIT_COMBINATIONS <? total then Err (ReduceError (SplitTooLarge total))
  else Ok (ss ← sub_sends; sr ← sub_receives; sn ← sub_news; se ← sub_exprs; sm ← sub_matches; su ← sub_unfs;
           sb ← sub_bundles;
           [(mkPar ss.1 sr.1 sn.1 se.1 sm.1 su.1 sb.1 [] [] false, mkPar ss.2 sr.2 sn.2 se.2 sm.2 su.2 sb.2 [] [] false)]).
