(* ===== verification/Matcher.v ===== *)
(** * The spatial matcher

    [rholang/src/matcher/spatial_matcher.rs].  A matcher gives every map from
    the free variables of the pattern to what they capture, in order.  The
    functions on the parts of a term take the matcher of the processes below
    them, [sm], and [spatial_match], a recursion on the pattern, closes them. *)

From S2P Require Import Prelude BTree Bytes Trace Ast ParOps Sorter Accounting BipartiteMatch ParCount.

Notation FreeMap := (gmap Z Par).
Notation MResult := (Result (list FreeMap) RholangError).

(** [for a in l { out.extend(f(a)?) }]. *)
Definition for_each {A B E} (l : Result (list A) E) (f : A → Result (list B) E) : Result (list B) E :=
  as_ ←? l; bs ←? try_map f as_; Ok (concat bs).

(** [MatchableTerm]. *)
Class MatchableTerm (T : Type) := {
  mt_eqb : T → T → bool;
  mt_connective_used : T → bool;
  mt_locally_free_empty : T → bool;
}.
#[export] Instance mt_par : MatchableTerm Par :=
  {| mt_eqb := par_eqb; mt_connective_used := connective_used; mt_locally_free_empty p := is_empty (locally_free p) |}.
#[export] Instance mt_send : MatchableTerm Send :=
  {| mt_eqb := send_eqb par_eqb; mt_connective_used := s_connective_used;
     mt_locally_free_empty s := is_empty (s_locally_free s) |}.
#[export] Instance mt_receive : MatchableTerm Receive :=
  {| mt_eqb := receive_eqb par_eqb; mt_connective_used := r_connective_used;
     mt_locally_free_empty r := is_empty (r_locally_free r) |}.
#[export] Instance mt_match : MatchableTerm Match :=
  {| mt_eqb := match_eqb par_eqb; mt_connective_used := m_connective_used;
     mt_locally_free_empty m := is_empty (m_locally_free m) |}.
#[export] Instance mt_new : MatchableTerm New :=
  {| mt_eqb := new_eqb par_eqb; mt_connective_used n := connective_used (n_p n);
     mt_locally_free_empty n := is_empty (n_locally_free n) |}.
#[export] Instance mt_expr : MatchableTerm Expr :=
  {| mt_eqb := expr_eqb par_eqb; mt_connective_used := connective_used_of_expr;
     mt_locally_free_empty e := is_empty (locally_free_of_expr e 0) |}.
#[export] Instance mt_bundle : MatchableTerm Bundle :=
  {| mt_eqb := bundle_eqb par_eqb; mt_connective_used _ := false;
     mt_locally_free_empty b := is_empty (locally_free (b_body b)) |}.
#[export] Instance mt_unforgeable : MatchableTerm GUnforgeable :=
  {| mt_eqb a b := bool_decide (a = b); mt_connective_used _ := false; mt_locally_free_empty _ := true |}.
#[export] Instance mt_pair : MatchableTerm (Par * Par) :=
  {| mt_eqb := pair_eqb par_eqb; mt_connective_used kv := connective_used kv.1 || connective_used kv.2;
     mt_locally_free_empty kv := is_empty (locally_free kv.1) && is_empty (locally_free kv.2) |}.
#[export] Instance mt_bind : MatchableTerm ReceiveBind :=
  {| mt_eqb := bind_eqb par_eqb; mt_connective_used b := connective_used (rb_source b); mt_locally_free_empty _ := false |}.
#[export] Instance mt_case : MatchableTerm MatchCase :=
  {| mt_eqb := case_eqb par_eqb; mt_connective_used c := connective_used (mc_source c); mt_locally_free_empty _ := false |}.

Definition match_guard (fm : FreeMap) (cond : bool) : MResult := Ok (if cond then [fm] else []).
Definition free_var_level (expr : Expr) : option Z := match expr with EVar (FreeVar level) => Some level | _ => None end.
Definition is_wildcard_expr (expr : Expr) : bool := match expr with EVar Wildcard => true | _ => false end.

(** ** Lists in order *)
Definition remainder_level (r : option Var) : option Z := match r with Some (FreeVar level) => Some level | _ => None end.
Definition remainder_wildcard (r : option Var) : bool := match r with Some Wildcard => true | _ => false end.

Section FoldMatch.
Context {T : Type} `{MatchableTerm T} (fn : T → T → FreeMap → MResult) (remainder : option Var).
Fixpoint fold_match (tlist plist : list T) (fm : FreeMap) {struct plist} : Result (list (list T * FreeMap)) RholangError :=
  match tlist, plist with
  | [], [] => Ok [([], fm)]
  | [], _ :: _ => Ok []
  | _ :: _, [] =>
      match remainder with
      | Some (FreeVar _) => if forallb mt_locally_free_empty tlist then Ok [(tlist, fm)] else Ok []
      | Some Wildcard => Ok [([], fm)]
      | _ => Ok []
      end
  | t :: tlist, p :: plist => for_each (fn t p fm) (λ fm1, fold_match tlist plist fm1)
  end.
End FoldMatch.

(** ** Lists in any order *)
Definition handle_remainder {T} (fm : FreeMap) (targets : list T) (level : Z) (merger : Par → list T → Par) : FreeMap :=
  <[level := merger (default par_nil (fm !! level)) targets]> fm.

Definition aggregate_updates (fm : FreeMap) (free_maps : list FreeMap) : Result FreeMap RholangError :=
  let added_vars := free_maps ≫= λ f, filter (λ k, fm !! k = None) (map_to_list f).*1 in
  if bool_decide (NoDup added_vars) then Ok (foldl (λ out f, f ∪ out) fm free_maps) else Err BugFoundError.

(** A pattern of a list, with the function that matches it from the empty map,
    which is the only one [list_match] starts from. *)
Record Pat (T : Type) := mkPat {
  pat_term : T;
  pat_match : T → MResult;
}.
#[global] Arguments mkPat {T}.
#[global] Arguments pat_term {T}.
#[global] Arguments pat_match {T}.
Definition pats {T} (fn : T → T → FreeMap → MResult) (l : list T) : list (Pat T) :=
  (λ p, mkPat p (λ t, fn t p ∅)) <$> l.

Section ListMatch.
Context {T : Type} `{MatchableTerm T}.

(** [MbmPattern]: [None] is [Remainder]. *)
Notation MbmPattern := (option (Pat T)).

(** The closure that [find_matches] calls; it records the last error. *)
Definition mbm_match (pattern : MbmPattern) (t : T) (match_error : option RholangError) :
    option FreeMap * option RholangError :=
  match pattern with
  | Some p =>
      if negb (mt_connective_used (pat_term p)) then
        (if mt_eqb t (pat_term p) then Some ∅ else None, match_error)
      else match pat_match p t with
           | Ok results => (head results, match_error)
           | Err e => (None, Some e)
           end
  | None => (if mt_locally_free_empty t then Some ∅ else None, match_error)
  end.

Definition list_match (targets : list T) (patterns : list (Pat T)) (merger : Par → list T → Par)
    (remainder : option Z) (wildcard : bool) (fm : FreeMap) : MResult :=
  let all_patterns :=
    (if remainder then replicate (length targets - length patterns) None else []) ++ (Some <$> patterns) in
  match find_matches targets mbm_match all_patterns None with
  | (None, Some e) => Err e
  | (None, None) => Ok []
  | (Some matches, _) =>
      updated_fm ←? aggregate_updates fm (snd <$> matches);
      let remainder_targets := (λ m, m.1.1) <$> filter (λ m, m.1.2 = None) matches in
      let remainder_targets_sorted := filter (λ t, existsb (λ x, mt_eqb x t) remainder_targets = true) targets in
      match remainder with
      | None => if wildcard || is_empty remainder_targets_sorted then Ok [updated_fm] else Ok []
      | Some level => Ok [handle_remainder updated_fm remainder_targets_sorted level merger]
      end
  end.

Definition list_match_single (targets : list T) (patterns : list (Pat T)) (merger : Par → list T → Par)
    (remainder : option Z) (wildcard : bool) (fm : FreeMap) : MResult :=
  let exact_match := negb wildcard && bool_decide (remainder = None) in
  let plen := length patterns in
  let tlen := length targets in
  if exact_match && negb (plen =? tlen)%nat then Ok []
  else if (tlen <? plen)%nat then Ok []
  else if (plen =? 0)%nat && (tlen =? 0)%nat && bool_decide (remainder = None) then Ok [fm]
  else if (plen =? 0)%nat then
    match remainder with
    | Some level =>
        if forallb mt_locally_free_empty targets then Ok [handle_remainder fm targets level merger] else Ok []
    | None => list_match targets patterns merger remainder wildcard fm
    end
  else list_match targets patterns merger remainder wildcard fm.
End ListMatch.

(** ** Terms *)
Section Terms.
Context (sm : Par → Par → FreeMap → MResult).

Definition match_two (t1 t2 p1 p2 : Par) (fm : FreeMap) : MResult := for_each (sm t1 p1 fm) (λ fm1, sm t2 p2 fm1).

Definition spatial_match_send (target pattern : Send) (fm : FreeMap) : MResult :=
  if negb (Bool.eqb (s_persistent target) (s_persistent pattern)) then Ok []
  else for_each (sm (s_chan target) (s_chan pattern) fm) (λ fm1,
         for_each (fold_match (λ t p, sm t p) None (s_data target) (s_data pattern) fm1) (λ rf, Ok [rf.2])).

Definition spatial_match_receive_bind (target pattern : ReceiveBind) (fm : FreeMap) : MResult :=
  if negb (list_eqb par_eqb (rb_patterns target) (rb_patterns pattern)) then Ok []
  else sm (rb_source target) (rb_source pattern) fm.

Definition spatial_match_receive (target pattern : Receive) (fm : FreeMap) : MResult :=
  if negb (Bool.eqb (r_persistent target) (r_persistent pattern)) then Ok []
  else for_each (list_match_single (r_binds target) (pats spatial_match_receive_bind (r_binds pattern)) (λ p _, p)
                   None false fm) (λ fm1, sm (r_body target) (r_body pattern) fm1).

Definition spatial_match_new (target pattern : New) (fm : FreeMap) : MResult :=
  if negb (n_bind_count target =? n_bind_count pattern) then Ok [] else sm (n_p target) (n_p pattern) fm.

Definition spatial_match_match_case (target pattern : MatchCase) (fm : FreeMap) : MResult :=
  if negb (par_eqb (mc_pattern target) (mc_pattern pattern)) then Ok []
  else sm (mc_source target) (mc_source pattern) fm.

Definition spatial_match_match (target pattern : Match) (fm : FreeMap) : MResult :=
  for_each (sm (m_target target) (m_target pattern) fm) (λ fm1,
    for_each (fold_match spatial_match_match_case None (m_cases target) (m_cases pattern) fm1) (λ rf, Ok [rf.2])).

Definition spatial_match_bundle (target pattern : Bundle) (fm : FreeMap) : MResult :=
  match_guard fm (bundle_eqb par_eqb pattern target).
Definition spatial_match_unforgeable (target pattern : GUnforgeable) (fm : FreeMap) : MResult :=
  match_guard fm (bool_decide (target = pattern)).
Definition spatial_match_pair (pair1 pair2 : Par * Par) (fm : FreeMap) : MResult :=
  match pair1, pair2 with (t1, t2), (p1, p2) => match_two t1 t2 p1 p2 fm end.

(** The fields of [Par] that are replaced, and the caches kept. *)
Definition put_sends (p : Par) (x : list Send) : Par := with_sends p x (locally_free p) (connective_used p).
Definition put_receives (p : Par) (x : list Receive) : Par := with_receives p x (locally_free p) (connective_used p).
Definition put_news (p : Par) (x : list New) : Par := with_news p x (locally_free p) (connective_used p).
Definition put_exprs (p : Par) (x : list Expr) : Par := with_exprs p x (locally_free p) (connective_used p).
Definition put_matches (p : Par) (x : list Match) : Par := with_matches p x (locally_free p) (connective_used p).
Definition put_bundles (p : Par) (x : list Bundle) : Par := with_bundles p x (locally_free p) (connective_used p).
Definition put_unforgeables (p : Par) (x : list GUnforgeable) : Par :=
  mkPar (sends p) (receives p) (news p) (exprs p) (matches p) x (bundles p) (connectives p) (locally_free p) (connective_used p).

(** The operators whose operands are matched. *)
Definition matched_op (op : BinOp) : bool :=
  match op with EMult | EDiv | EMod | EPercentPercent | EPlus | EPlusPlus | EMinusMinus => true | _ => false end.

Definition spatial_match_expr (target pattern : Expr) (fm : FreeMap) : MResult :=
  match pattern, target with
  | EList p, EList t =>
      for_each (fold_match (λ t p, sm t p) (el_remainder p) (el_ps t) (el_ps p) fm) (λ rf,
        match el_remainder p with
        | Some (FreeVar level) =>
            Ok [<[level := mkPar [] [] [] [EList (mkEList rf.1 [] false None)] [] [] [] [] [] false]> rf.2]
        | _ => Ok [rf.2]
        end)
  | ETuple p, ETuple t => for_each (fold_match (λ t p, sm t p) None (et_ps t) (et_ps p) fm) (λ rf, Ok [rf.2])
  | ESet p, ESet t =>
      list_match_single (ps_ps t) (pats (λ t p, sm t p) (ps_ps p)) (λ p r, put_exprs p [ESet (par_set r)])
        (remainder_level (ps_remainder t)) (remainder_wildcard (ps_remainder t)) fm
  | EMap p, EMap t =>
      list_match_single (pm_kvs t) (pats spatial_match_pair (pm_kvs p)) (λ p r, put_exprs p [EMap (par_map r)])
        (remainder_level (pm_remainder t)) (remainder_wildcard (pm_remainder t)) fm
  | EVar vp, EVar vt => match_guard fm (bool_decide (vp = vt))
  | ENot p, ENot t => sm t p fm
  | ENeg p, ENeg t => sm t p fm
  | EBin op p1 p2, EBin op' t1 t2 =>
      if bool_decide (op = op') && matched_op op then match_two t1 t2 p1 p2 fm else Ok []
  | _, _ => Ok []
  end.

(** The type of the single expression of a process is the one of a connective. *)
Definition ground_connective (con : Connective) (e : Expr) : bool :=
  match con, e with
  | ConnBool _, GBool _ | ConnInt _, GInt _ | ConnBigInt _, GBigInt _ | ConnString _, GString _
  | ConnUri _, GUri _ | ConnByteArray _, GByteArray _ => true
  | _, _ => false
  end.

Definition spatial_match_connective (target : Par) (con : Connective) (fm : FreeMap) : MResult :=
  match con with
  | ConnAnd ps => foldl (λ states p, for_each states (λ fm_state, sm target p fm_state)) (Ok [fm]) ps
  | ConnOr ps => all ←? for_each (Ok ps) (λ p, sm target p fm); Ok (take 1 all)
  | ConnNot p => matches ←? sm target p fm; match_guard fm (is_empty matches)
  | ConnEmpty | VarRef _ _ => Ok []
  | _ => match_guard fm match single_expr target with Some e => ground_connective con e | None => false end
  end.

(** Every connective matches a part of the remainder.  The bounds are the own
    ones of each connective and those of what comes after it. *)
Fixpoint match_connectives (conns : list Connective) (bounds prunes : list (ParCount * ParCount))
    (states : list (Par * FreeMap)) : Result (list (Par * FreeMap)) RholangError :=
  match conns, bounds, prunes with
  | con :: conns, (min_b, max_b) :: bounds, (min_prune, max_prune) :: prunes =>
      next ←? for_each (Ok states) (λ '(rem, fm_state),
        for_each (sub_pars rem min_b max_b min_prune max_prune) (λ '(sub, comp),
          for_each (spatial_match_connective sub con fm_state) (λ fm_match, Ok [(comp, fm_match)])));
      match_connectives conns bounds prunes next
  | _, _, _ => Ok states
  end.

(** The terms of every field, in any order; [var_level] and [wildcard] take the
    terms that no pattern matches. *)
Definition match_fields (rem pattern : Par) (var_level : option Z) (wildcard : bool) (fm : FreeMap) : MResult :=
  for_each (list_match_single (sends rem) (pats spatial_match_send (sends pattern)) put_sends var_level wildcard fm) (λ fm1,
  for_each (list_match_single (receives rem) (pats spatial_match_receive (receives pattern)) put_receives
              var_level wildcard fm1) (λ fm2,
  for_each (list_match_single (news rem) (pats spatial_match_new (news pattern)) put_news var_level wildcard fm2) (λ fm3,
  for_each (list_match_single (exprs rem)
              (filter (λ p, is_free_var (pat_term p) = false) (pats spatial_match_expr (exprs pattern)))
              put_exprs var_level wildcard fm3) (λ fm4,
  for_each (list_match_single (matches rem) (pats spatial_match_match (matches pattern)) put_matches
              var_level wildcard fm4) (λ fm5,
  for_each (list_match_single (bundles rem) (pats spatial_match_bundle (bundles pattern)) put_bundles
              var_level wildcard fm5) (λ fm6,
  list_match_single (unforgeables rem) (pats spatial_match_unforgeable (unforgeables pattern)) put_unforgeables
    var_level wildcard fm6)))))).
End Terms.

(** [scanRight(...).tail]: the sums of the bounds after each position. *)
Fixpoint bounds_after (bounds : list (ParCount * ParCount)) (last : ParCount * ParCount) : list (ParCount * ParCount) :=
  match bounds with
  | [] => []
  | _ :: bounds => foldr (λ b acc, (count_add b.1 acc.1, count_add b.2 acc.2)) last bounds :: bounds_after bounds last
  end.

Fixpoint spatial_match (target pattern : Par) (fm : FreeMap) {struct pattern} : MResult :=
  if negb (connective_used pattern) then match_guard fm (par_eqb pattern target)
  else
    let var_level := head (omap free_var_level (exprs pattern)) in
    let wildcard := existsb is_wildcard_expr (exprs pattern) in
    let pc := from_par (no_frees pattern) in
    let max_rem := if wildcard || bool_decide (is_Some var_level) then max_count else pc in
    let individual_bounds := min_max_connective <$> connectives pattern in
    let remainder_bounds := bounds_after individual_bounds (pc, max_rem) in
    states ←? match_connectives spatial_match (connectives pattern) individual_bounds remainder_bounds [(target, fm)];
    for_each (Ok states) (λ '(rem, fm_state), match_fields spatial_match rem pattern var_level wildcard fm_state).

Definition spatial_match_result (target pattern : Par) : Result (option FreeMap) RholangError :=
  results ←? spatial_match target pattern ∅; Ok (head results).
