(* ===== verification/MatcherSpec.v ===== *)
(** * The spatial matcher: splits and bindings

    The enumeration of the splits of a process is exact, a match binds only
    variables of its pattern and no variable twice, and a variable captures the
    whole process.  Two behaviours of the matcher are at odds with this: the
    remainder of a set or map pattern is not seen, and a remainder captures
    terms that another part of the pattern has matched. *)

From S2P Require Import Prelude BTree Bytes Trace Ast ParOps Sorter Accounting BipartiteMatch ParCount Matcher.

(** ** Splits *)
Inductive split_of {A} : list A → list A → list A → Prop :=
| split_nil : split_of [] [] []
| split_in x l s c : split_of l s c → split_of (x :: l) (x :: s) c
| split_out x l s c : split_of l s c → split_of (x :: l) s (x :: c).

Lemma split_none {A} (l c : list A) : split_of l [] c ↔ c = l.
Proof.
  revert c. induction l as [|x l IH]; intros c.
  - split; [by inversion 1|]. intros ->. constructor.
  - split; [|intros ->; constructor; by apply IH].
    inversion 1 as [| |? ? ? ? H']; subst. by apply IH in H' as ->.
Qed.
Lemma split_cons {A} x (l s c : list A) : split_of (x :: l) s c ↔
  (∃ s', s = x :: s' ∧ split_of l s' c) ∨ (∃ c', c = x :: c' ∧ split_of l s c').
Proof.
  split; [inversion 1; subst; eauto|]. intros [(s' & -> & H)|(c' & -> & H)]; by constructor.
Qed.
Lemma split_perm {A} (l s c : list A) : split_of l s c → s ++ c ≡ₚ l.
Proof.
  induction 1 as [|x l s c _ IH|x l s c _ IH]; [done|simpl; by rewrite IH|].
  rewrite <- Permutation_middle. by rewrite IH.
Qed.

Lemma counted_spec {A} (items : list A) max_size s c n : 0 < max_size →
  (s, c, n) ∈ counted_max_subsets items max_size ↔ split_of items s c ∧ n = Z.of_nat (length s) ∧ n ≤ max_size.
Proof.
  intros Hm. revert s c n. induction items as [|x l IH]; intros s c n; cbn [counted_max_subsets].
  { rewrite list_elem_of_singleton. split; [intros [= -> -> ->]; split_and!; [constructor|done|lia]|].
    intros (H & -> & _). by inversion H. }
  rewrite elem_of_cons, list_elem_of_bind. split.
  - intros [[= -> -> ->]|([[t k] m] & Hin & (Ht & -> & Hle)%IH)]; [split_and!; [by apply split_none|done|lia]|].
    destruct (Z.eqb_spec (Z.of_nat (length t)) max_size) as [E|E].
    { apply list_elem_of_singleton in Hin as [= -> -> ->]. split_and!; [by constructor|done..]. }
    destruct t as [|y t]; cbn [is_empty] in Hin.
    { apply list_elem_of_singleton in Hin as [= -> -> ->]. split_and!; [by constructor|done|lia]. }
    apply elem_of_cons in Hin as [[= -> -> ->]|[= -> -> ->]%list_elem_of_singleton];
      (split_and!; [by constructor|cbn [length]; lia|cbn [length] in *; lia]).
  - intros (H & -> & Hle). apply split_cons in H as [(t & -> & Ht)|(k & -> & Hk)].
    + right. cbn [length] in *. exists (t, c, Z.of_nat (length t)). rewrite IH. split; [|split_and!; [done..|lia]].
      destruct (Z.eqb_spec (Z.of_nat (length t)) max_size); [lia|].
      destruct t as [|y t]; cbn [is_empty]; [by left|]. rewrite Nat2Z.inj_succ. right. by left.
    + destruct s as [|y s]; [left; apply split_none in Hk as ->; done|right].
      exists (y :: s, k, Z.of_nat (length (y :: s))). rewrite IH. split; [|done].
      destruct (Z.eqb_spec (Z.of_nat (length (y :: s))) max_size); by left.
Qed.

Lemma worker_spec {A} (items : list A) min_size max_size s c n :
  (s, c, n) ∈ worker items min_size max_size ↔
  split_of items s c ∧ n = Z.of_nat (length s) ∧ min_size ≤ n ≤ max_size.
Proof.
  revert min_size s c n. induction items as [|x l IH]; intros min_size s c n; cbn [worker].
  all: destruct (Z.ltb_spec max_size 0), (Z.ltb_spec max_size min_size); cbn [orb];
    [split; [by intros ?%elem_of_nil|lia]..|].
  all: destruct (Z.leb_spec min_size 0).
  1, 3: destruct (Z.eqb_spec max_size 0) as [->|];
    [rewrite list_elem_of_singleton|rewrite counted_spec by lia; split; intros (? & ? & ?); split_and!; done || lia].
  1, 2: split; [intros [= -> -> ->]; split_and!; [by apply split_none|done|lia|done]|].
  1, 2: intros (Hs & -> & Hn); destruct s; [|cbn [length] in Hn; lia]; by apply split_none in Hs as ->.
  - split; [by intros ?%elem_of_nil|]. intros (Hs & -> & Hn). inversion Hs; subst. cbn [length] in *. lia.
  - rewrite list_elem_of_bind. split.
    + intros ([[t k] m] & Hin & (Ht & -> & Hlo & Hhi)%IH).
      destruct (Z.eqb_spec (Z.of_nat (length t)) max_size) as [E|E].
      { apply list_elem_of_singleton in Hin as [= -> -> ->]. split_and!; [by constructor|done|lia..]. }
      destruct (Z.eqb_spec (Z.of_nat (length t)) (min_size - 1)) as [E'|E'].
      { apply list_elem_of_singleton in Hin as [= -> -> ->]. split_and!; [by constructor|cbn [length]; lia|lia..]. }
      apply elem_of_cons in Hin as [[= -> -> ->]|[= -> -> ->]%list_elem_of_singleton];
        (split_and!; [by constructor|cbn [length]; lia|lia..]).
    + intros (Hs & -> & Hlo & Hhi). apply split_cons in Hs as [(t & -> & Ht)|(k & -> & Hk)].
      * cbn [length] in *. exists (t, c, Z.of_nat (length t)). rewrite IH. split; [|split_and!; [done..|lia|lia]].
        destruct (Z.eqb_spec (Z.of_nat (length t)) max_size); [lia|].
        destruct (Z.eqb_spec (Z.of_nat (length t)) (min_size - 1)).
        -- replace (Z.of_nat (S (length t))) with min_size by lia. by left.
        -- rewrite Nat2Z.inj_succ. right. by left.
      * exists (s, k, Z.of_nat (length s)). rewrite IH. split; [|split_and!; [done..|lia|lia]].
        destruct (Z.eqb_spec (Z.of_nat (length s)) max_size); [by left|].
        destruct (Z.eqb_spec (Z.of_nat (length s)) (min_size - 1)); [lia|by left].
Qed.

Lemma len_i32_small {A} (l : list A) : (length l ≤ 20)%nat → len_i32 l = Z.of_nat (length l).
Proof. intros H. unfold len_i32, i32_wrap. rewrite Z.mod_small; lia. Qed.

(** One field: the bounds on the complement are those on the size that is left. *)
Lemma min_max_subsets_spec {A} (items : list A) mn mx mnp mxp l :
  min_max_subsets items (Z.max mn (len_i32 items - mxp)) (Z.min mx (len_i32 items - mnp)) = Ok l →
  ∀ s c, (s, c) ∈ l ↔ split_of items s c ∧ mn ≤ len_i32 s ≤ mx ∧ mnp ≤ len_i32 c ≤ mxp.
Proof.
  unfold min_max_subsets, MAX_SUBSET_ITEMS. destruct (Nat.ltb_spec 20 (length items)) as [|Hl]; [done|].
  intros [= <-] s c. rewrite list_elem_of_fmap. split.
  - intros ([[s' c'] n] & [= -> ->] & (Hs & -> & Hn)%worker_spec). split; [done|].
    pose proof (Permutation_length (split_perm _ _ _ Hs)) as Hlen. rewrite length_app in Hlen.
    rewrite !len_i32_small in * by lia. lia.
  - intros (Hs & Hn & Hc). exists (s, c, Z.of_nat (length s)). split; [done|]. apply worker_spec. split_and!; [done..| |].
    all: pose proof (Permutation_length (split_perm _ _ _ Hs)) as Hlen; rewrite length_app in Hlen.
    all: rewrite !len_i32_small in * by lia; lia.
Qed.

(** The two parts of a process. *)
Definition splits_par (par sub comp : Par) : Prop :=
  split_of (sends par) (sends sub) (sends comp) ∧ split_of (receives par) (receives sub) (receives comp) ∧
  split_of (news par) (news sub) (news comp) ∧ split_of (exprs par) (exprs sub) (exprs comp) ∧
  split_of (matches par) (matches sub) (matches comp) ∧
  split_of (unforgeables par) (unforgeables sub) (unforgeables comp) ∧
  split_of (bundles par) (bundles sub) (bundles comp) ∧
  (connectives sub, locally_free sub, connective_used sub) = ([], [], false) ∧
  (connectives comp, locally_free comp, connective_used comp) = ([], [], false).
(** The counts of a process are between two bounds. *)
Definition count_between (lo c hi : ParCount) : Prop :=
  c_sends lo ≤ c_sends c ≤ c_sends hi ∧ c_receives lo ≤ c_receives c ≤ c_receives hi ∧
  c_news lo ≤ c_news c ≤ c_news hi ∧ c_exprs lo ≤ c_exprs c ≤ c_exprs hi ∧
  c_matches lo ≤ c_matches c ≤ c_matches hi ∧ c_unforgeables lo ≤ c_unforgeables c ≤ c_unforgeables hi ∧
  c_bundles lo ≤ c_bundles c ≤ c_bundles hi.

Lemma sub_pars_spec par mn mx mnp mxp out : sub_pars par mn mx mnp mxp = Ok out →
  ∀ sub comp, (sub, comp) ∈ out ↔
    splits_par par sub comp ∧ count_between mn (from_par sub) mx ∧ count_between mnp (from_par comp) mxp.
Proof.
  unfold sub_pars. cbv zeta.
  destruct (min_max_subsets (sends par) _ _) as [l1|] eqn:E1; [|done].
  destruct (min_max_subsets (receives par) _ _) as [l2|] eqn:E2; [|done].
  destruct (min_max_subsets (news par) _ _) as [l3|] eqn:E3; [|done].
  destruct (min_max_subsets (exprs par) _ _) as [l4|] eqn:E4; [|done].
  destruct (min_max_subsets (matches par) _ _) as [l5|] eqn:E5; [|done].
  destruct (min_max_subsets (unforgeables par) _ _) as [l6|] eqn:E6; [|done].
  destruct (min_max_subsets (bundles par) _ _) as [l7|] eqn:E7; [|done].
  destruct (_ <? _); [done|]. intros [= <-].
  pose proof (min_max_subsets_spec _ _ _ _ _ _ E1) as H1. pose proof (min_max_subsets_spec _ _ _ _ _ _ E2) as H2.
  pose proof (min_max_subsets_spec _ _ _ _ _ _ E3) as H3. pose proof (min_max_subsets_spec _ _ _ _ _ _ E4) as H4.
  pose proof (min_max_subsets_spec _ _ _ _ _ _ E5) as H5. pose proof (min_max_subsets_spec _ _ _ _ _ _ E6) as H6.
  pose proof (min_max_subsets_spec _ _ _ _ _ _ E7) as H7.
  intros sub comp. unfold splits_par, count_between, from_par.
  cbn [c_sends c_receives c_news c_exprs c_matches c_unforgeables c_bundles]. split.
  - rewrite !list_elem_of_bind. intros ([a1 b1] & Hin & I1). repeat setoid_rewrite list_elem_of_bind in Hin.
    destruct Hin as ([a2 b2] & ([a3 b3] & ([a4 b4] & ([a5 b5] & ([a6 b6] & ([a7 b7] & Hin & I7) & I6) & I5) & I4) & I3) & I2).
    apply list_elem_of_singleton in Hin as [= -> ->].
    cbn [fst snd sends receives news exprs matches unforgeables bundles connectives locally_free connective_used].
    apply H1 in I1; apply H2 in I2; apply H3 in I3; apply H4 in I4; apply H5 in I5; apply H6 in I6; apply H7 in I7.
    tauto.
  - destruct sub as [s1 s2 s3 s4 s5 s6 s7 s8 s9 s10], comp as [k1 k2 k3 k4 k5 k6 k7 k8 k9 k10].
    cbn [fst snd sends receives news exprs matches unforgeables bundles connectives locally_free connective_used].
    intros ((I1 & I2 & I3 & I4 & I5 & I6 & I7 & [= -> -> ->] & [= -> -> ->]) & Hs & Hc).
    rewrite list_elem_of_bind. exists (s1, k1). split; [|by apply H1; tauto].
    rewrite list_elem_of_bind. exists (s2, k2). split; [|by apply H2; tauto].
    rewrite list_elem_of_bind. exists (s3, k3). split; [|by apply H3; tauto].
    rewrite list_elem_of_bind. exists (s4, k4). split; [|by apply H4; tauto].
    rewrite list_elem_of_bind. exists (s5, k5). split; [|by apply H5; tauto].
    rewrite list_elem_of_bind. exists (s6, k6). split; [|by apply H6; tauto].
    rewrite list_elem_of_bind. exists (s7, k7). split; [by left|by apply H7; tauto].
Qed.

(** ** Bindings

    The variables that a pattern can bind: its free variables outside of the
    patterns of receives and of match cases, which are compared, not matched. *)
Section Binders.
Context {P : Type} (b : P → list Z).
Definition send_binders (s : SendF P) : list Z := b (s_chan s) ++ (s_data s ≫= λ p, b p).
Definition bind_binders (x : ReceiveBindF P) : list Z := b (rb_source x).
Definition receive_binders (r : ReceiveF P) : list Z := (r_binds r ≫= bind_binders) ++ b (r_body r).
Definition new_binders (n : NewF P) : list Z := b (n_p n).
Definition case_binders (c : MatchCaseF P) : list Z := b (mc_source c).
Definition match_binders (m : MatchF P) : list Z := b (m_target m) ++ (m_cases m ≫= case_binders).
Definition pair_binders (kv : P * P) : list Z := b kv.1 ++ b kv.2.
Definition expr_binders (e : ExprF P) : list Z :=
  match e with
  | EVar (FreeVar level) => [level]
  | ENot p | ENeg p => b p
  | EBin _ p q => b p ++ b q
  | EList l => (el_ps l ≫= λ p, b p) ++ option_list (remainder_level (el_remainder l))
  | ETuple t => et_ps t ≫= λ p, b p
  | ESet s => ps_ps s ≫= λ p, b p
  | EMap m => pm_kvs m ≫= λ kv, b kv.1 ++ b kv.2
  | _ => []
  end.
Definition connective_binders (c : ConnectiveF P) : list Z :=
  match c with ConnAnd ps | ConnOr ps => ps ≫= λ p, b p | ConnNot p => b p | _ => [] end.
End Binders.
Fixpoint binders (p : Par) : list Z :=
  (connectives p ≫= connective_binders binders) ++ (sends p ≫= send_binders binders) ++
  (receives p ≫= receive_binders binders) ++ (news p ≫= new_binders binders) ++
  (exprs p ≫= expr_binders binders) ++ (matches p ≫= match_binders binders).

(** Processes whose sets and maps have no remainder variable, as values have. *)
Definition expr_plain (e : Expr) : Prop :=
  match e with
  | ESet s => remainder_level (ps_remainder s) = None
  | EMap m => remainder_level (pm_remainder m) = None
  | _ => True
  end.
Inductive plain : Par → Prop :=
| Plain p : (∀ e, e ∈ exprs p → expr_plain e) → (∀ q, q ∈ par_children p → plain q) → plain p.

(** A map changed only at some variables. *)
Definition extends (vars : list Z) (fm fm' : FreeMap) : Prop := ∀ k, k ∉ vars → fm' !! k = fm !! k.
(** All results have a property, and an error is not a conflict of bindings. *)
Definition res_ok {A} (Q : A → Prop) (r : Result (list A) RholangError) : Prop :=
  match r with Ok l => Forall Q l | Err e => e ≠ BugFoundError end.

Lemma extends_refl vars fm : extends vars fm fm.
Proof. done. Qed.
Lemma extends_trans vars fm fm1 fm2 : extends vars fm fm1 → extends vars fm1 fm2 → extends vars fm fm2.
Proof. intros H1 H2 k Hk. by rewrite H2, H1. Qed.
Lemma extends_mono vars vars' fm fm' : vars ⊆ vars' → extends vars fm fm' → extends vars' fm fm'.
Proof. intros Hs H k Hk. apply H. set_solver. Qed.

Lemma res_ok_mono {A} (Q R : A → Prop) r : (∀ a, Q a → R a) → res_ok Q r → res_ok R r.
Proof. intros H. destruct r; [|done]. intros HF. by eapply Forall_impl. Qed.
Lemma res_ok_singleton {A} (Q : A → Prop) a : Q a → res_ok Q (Ok [a]).
Proof. intros H. by constructor. Qed.
Lemma res_ok_nil {A} (Q : A → Prop) : res_ok Q (Ok []).
Proof. constructor. Qed.
Lemma match_guard_ok vars fm b : res_ok (extends vars fm) (match_guard fm b).
Proof. unfold match_guard. destruct b; [by apply res_ok_singleton|apply res_ok_nil]. Qed.

Lemma for_each_ok {A B} (Q : A → Prop) (R : B → Prop) l (f : A → Result (list B) RholangError) :
  res_ok Q l → (∀ a, Q a → res_ok R (f a)) → res_ok R (for_each l f).
Proof.
  unfold for_each. destruct l as [l|e]; [|done]. intros HQ Hf. cbn [res_ok] in HQ.
  assert (match try_map f l with Ok bs => Forall (Forall R) bs | Err e => e ≠ BugFoundError end) as H.
  { induction HQ as [|a l Ha _ IH]; cbn [try_map]; [constructor|]. specialize (Hf a Ha).
    destruct (f a) as [bs|]; [|done]. destruct (try_map f l); [|done]. by constructor. }
  destruct (try_map f l) as [bs|]; [|done]. cbn [res_ok]. by apply Forall_concat.
Qed.
(** The next step of a match. *)
Lemma for_each_step vars fm (l : MResult) f : res_ok (extends vars fm) l →
  (∀ fm1, extends vars fm fm1 → res_ok (extends vars fm1) (f fm1)) → res_ok (extends vars fm) (for_each l f).
Proof.
  intros Hl Hf. eapply for_each_ok; [exact Hl|]. intros fm1 H1. eapply res_ok_mono; [|by apply Hf].
  intros fm2. by apply extends_trans.
Qed.

Lemma elem_of_bind_sub {A B} (f : A → list B) l x : x ∈ l → f x ⊆ l ≫= f.
Proof. intros Hx y Hy. apply list_elem_of_bind. eauto. Qed.
Lemma NoDup_bind_elem {A B} (f : A → list B) l x : NoDup (l ≫= f) → x ∈ l → NoDup (f x).
Proof.
  intros Hl Hx. apply list_elem_of_split in Hx as (l1 & l2 & ->). rewrite bind_app, bind_cons in Hl.
  apply NoDup_app in Hl as (_ & _ & Hl). by apply NoDup_app in Hl as (? & _ & _).
Qed.
Lemma NoDup_bind_sub {A B} (f g : A → list B) l : NoDup (l ≫= f) → (∀ x, x ∈ l → NoDup (g x) ∧ g x ⊆ f x) →
  NoDup (l ≫= g).
Proof.
  induction l as [|x l IH]; intros Hf Hg; [constructor|]. rewrite bind_cons in *.
  apply NoDup_app in Hf as (Hfx & Hd & Hf). destruct (Hg x ltac:(by left)) as [Hgx Hs]. apply NoDup_app. split_and!; [done| |].
  - intros y Hy (z & Hz & Hzl)%list_elem_of_bind. apply (Hd y); [by apply Hs|].
    apply list_elem_of_bind. exists z. split; [|done]. by apply (Hg z); [right|].
  - apply IH; [done|]. intros z Hz. apply Hg. by right.
Qed.
Lemma bind_fmap_list {A B C} (f : A → B) (g : B → list C) (l : list A) : (f <$> l) ≫= g = l ≫= λ x, g (f x).
Proof. induction l as [|x l IH]; [done|]. rewrite fmap_cons, !bind_cons. by rewrite IH. Qed.
Lemma NoDup_app_l {A} (l k : list A) : NoDup (l ++ k) → NoDup l.
Proof. by intros (? & _ & _)%NoDup_app. Qed.
Lemma NoDup_app_r {A} (l k : list A) : NoDup (l ++ k) → NoDup k.
Proof. by intros (_ & _ & ?)%NoDup_app. Qed.

Section Lists.
Context {T : Type} `{MatchableTerm T} (b : T → list Z).

Lemma fold_match_ok (fn : T → T → FreeMap → MResult) r tl pl fm :
  (∀ t p fm, t ∈ tl → p ∈ pl → res_ok (extends (b p) fm) (fn t p fm)) →
  res_ok (λ rf, extends (pl ≫= b) fm rf.2) (fold_match fn r tl pl fm).
Proof.
  revert tl fm. induction pl as [|p pl IH]; intros tl fm Hfn; destruct tl as [|t tl]; cbn [fold_match].
  - by apply res_ok_singleton.
  - destruct r as [[| | |]|]; try apply res_ok_nil; [|by apply res_ok_singleton].
    destruct (forallb _ _); [by apply res_ok_singleton|apply res_ok_nil].
  - apply res_ok_nil.
  - rewrite bind_cons. eapply for_each_ok; [apply Hfn; by left|]. intros fm1 H1.
    eapply res_ok_mono; [|apply IH; intros; apply Hfn; by right]. intros rf Hrf. cbn beta in *.
    apply extends_trans with fm1; (eapply extends_mono; [|eassumption]); set_solver.
Qed.

Lemma foldl_union_lookup (maps : list FreeMap) fm k :
  (∀ f, f ∈ maps → f !! k = None) → foldl (λ out f, f ∪ out) fm maps !! k = fm !! k.
Proof.
  revert fm. induction maps as [|f maps IH]; intros fm Hk; simpl; [done|].
  rewrite IH by (intros; apply Hk; by right). apply lookup_union_r, Hk. by left.
Qed.

Lemma aggregate_ok {A} (l : list A) (vars : A → list Z) (f : A → FreeMap) fm :
  NoDup (l ≫= vars) → (∀ x, x ∈ l → extends (vars x) ∅ (f x)) →
  ∃ fm', aggregate_updates fm (f <$> l) = Ok fm' ∧ extends (l ≫= vars) fm fm'.
Proof.
  intros Hnd Hf. unfold aggregate_updates. rewrite bool_decide_true.
  - eexists. split; [done|]. intros k Hk. apply foldl_union_lookup. intros m (x & -> & Hx)%list_elem_of_fmap.
    rewrite (Hf x Hx); [apply lookup_empty|]. intros Hin. apply Hk. by eapply elem_of_bind_sub.
  - rewrite bind_fmap_list. apply (NoDup_bind_sub vars); [done|]. intros x Hx. split.
    + apply NoDup_filter. apply NoDup_fst_map_to_list.
    + intros k (_ & (y & -> & Hk)%list_elem_of_fmap)%list_elem_of_filter. destruct y as [k v].
      apply elem_of_map_to_list in Hk. cbn [fst]. destruct (decide (k ∈ vars x)); [done|].
      rewrite (Hf x Hx) in Hk by done. by rewrite lookup_empty in Hk.
Qed.

(** The result of the comparison of a pattern, and the error it records. *)
Lemma mbm_match_ok (patterns : list (Pat T)) (targets : list T) pattern t c :
  (∀ p t, p ∈ patterns → t ∈ targets → res_ok (extends (b (pat_term p)) ∅) (pat_match p t)) →
  (∀ p, pattern = Some p → p ∈ patterns) → t ∈ targets →
  let vars := match pattern with Some p => b (pat_term p) | None => [] end in
  (∀ r, (mbm_match pattern t c).1 = Some r → extends vars ∅ r) ∧
  (c ≠ Some BugFoundError → (mbm_match pattern t c).2 ≠ Some BugFoundError).
Proof.
  intros Hp Hin Ht. unfold mbm_match. destruct pattern as [p|]; [|split; [|done]; intros r; cbn [fst]; by case_match; intros [= <-]].
  destruct (negb _); [split; [|done]; intros r; cbn [fst]; by case_match; intros [= <-]|].
  specialize (Hp p t (Hin p eq_refl) Ht). destruct (pat_match p t) as [rs|e]; cbn [fst snd res_ok] in *.
  - split; [|done]. destruct rs; [done|]. intros r [= <-]. by apply Forall_cons in Hp as [? _].
  - split; [done|]. congruence.
Qed.

Lemma list_match_ok targets (patterns : list (Pat T)) merger remainder wildcard fm :
  (∀ p t, p ∈ patterns → t ∈ targets → res_ok (extends (b (pat_term p)) ∅) (pat_match p t)) →
  NoDup (patterns ≫= λ p, b (pat_term p)) →
  res_ok (extends ((patterns ≫= λ p, b (pat_term p)) ++ option_list remainder) fm)
    (list_match targets patterns merger remainder wildcard fm).
Proof.
  intros Hp Hnd. unfold list_match. set (all := _ ++ (Some <$> patterns)).
  set (vars := λ pattern : option (Pat T), match pattern with Some p => b (pat_term p) | None => [] end).
  assert (∀ pattern p, pattern ∈ all → pattern = Some p → p ∈ patterns) as Hall.
  { unfold all. intros pattern p [Hr|(q & -> & Hq)%list_elem_of_fmap]%elem_of_app; [|by intros [= <-]].
    destruct remainder; [|by apply elem_of_nil in Hr]. apply elem_of_replicate in Hr as [-> _]. done. }
  assert (all ≫= vars = patterns ≫= λ p, b (pat_term p)) as Evars.
  { unfold all. rewrite bind_app, bind_fmap_list. cbn [vars].
    assert (∀ n, replicate n None ≫= vars = []) as E by (induction n; [done|]; simpl; done).
    destruct remainder; [by rewrite E|done]. }
  pose proof (find_matches_state targets mbm_match (λ c, c ≠ Some BugFoundError) all None) as Hst.
  destruct (find_matches targets mbm_match all None) as [[out|] c] eqn:E; cycle 1.
  { cbn [snd] in Hst. assert (c ≠ Some BugFoundError) as Hc.
    { apply Hst; [|done]. intros pattern t c' Hpat Ht. apply (mbm_match_ok patterns targets); [done| |done]. intros p. by apply Hall. }
    destruct c; [|apply res_ok_nil]. cbn. congruence. }
  apply find_matches_sound in E as (HP & Hsub & Hacc).
  destruct (aggregate_ok out (λ x, vars x.1.2) snd fm) as (fm' & -> & Hext).
  - rewrite <- (bind_fmap_list (λ x, x.1.2) vars), HP, Evars. done.
  - intros x Hx. rewrite Forall_forall in Hacc. destruct (Hacc x Hx) as [c' Hc'].
    eapply mbm_match_ok; [exact Hp| | |exact Hc'].
    + intros p Ep. eapply Hall; [|exact Ep]. rewrite <- HP. by apply (list_elem_of_fmap_2 (λ x, x.1.2)).
    + eapply elem_of_sublist; [|exact Hsub]. by apply (list_elem_of_fmap_2 (λ x, x.1.1)).
  - rewrite <- (bind_fmap_list (λ x, x.1.2) vars) in Hext.
    assert (extends ((patterns ≫= λ p, b (pat_term p)) ++ option_list remainder) fm fm') as Hext'.
    { intros k Hk. apply Hext. rewrite HP, Evars. set_solver. }
    destruct remainder as [level|].
    + apply res_ok_singleton. eapply extends_trans; [exact Hext'|]. intros k Hk. unfold handle_remainder.
      rewrite lookup_insert_ne; [done|]. set_solver.
    + destruct (wildcard || _); [by apply res_ok_singleton|apply res_ok_nil].
Qed.

Lemma list_match_single_ok targets (patterns : list (Pat T)) merger remainder wildcard fm :
  (∀ p t, p ∈ patterns → t ∈ targets → res_ok (extends (b (pat_term p)) ∅) (pat_match p t)) →
  NoDup (patterns ≫= λ p, b (pat_term p)) →
  res_ok (extends ((patterns ≫= λ p, b (pat_term p)) ++ option_list remainder) fm)
    (list_match_single targets patterns merger remainder wildcard fm).
Proof.
  intros Hp Hnd. pose proof (list_match_ok targets patterns merger remainder wildcard fm Hp Hnd) as Hlm.
  unfold list_match_single. destruct (_ && negb _); [apply res_ok_nil|]. destruct (_ <? _)%nat; [apply res_ok_nil|].
  destruct (_ && _ && _); [by apply res_ok_singleton|]. destruct (_ =? _)%nat; [|done].
  destruct remainder as [level|]; [|done]. destruct (forallb _ _); [|apply res_ok_nil]. apply res_ok_singleton.
  intros k Hk. unfold handle_remainder. rewrite lookup_insert_ne; [done|]. set_solver.
Qed.

Lemma sublist_bind {A} (f : A → list Z) (k l : list A) : k `sublist_of` l → (k ≫= f) `sublist_of` (l ≫= f).
Proof.
  induction 1; [done|rewrite !bind_cons; by apply sublist_app|rewrite bind_cons; by apply sublist_inserts_l].
Qed.
Lemma list_pats_ok (fn : T → T → FreeMap → MResult) l k targets merger remainder wildcard fm vars :
  k `sublist_of` pats fn l →
  (∀ t x fm, t ∈ targets → x ∈ l → res_ok (extends (b x) fm) (fn t x fm)) →
  NoDup (l ≫= b) → l ≫= b ⊆ vars → option_list remainder ⊆ vars →
  res_ok (extends vars fm) (list_match_single targets k merger remainder wildcard fm).
Proof.
  intros Hk Hfn Hnd Hl Hr.
  assert (pats fn l ≫= (λ p, b (pat_term p)) = l ≫= b) as E by (unfold pats; by rewrite bind_fmap_list).
  pose proof (sublist_bind (λ p, b (pat_term p)) _ _ Hk) as Hs. rewrite E in Hs.
  eapply res_ok_mono; [|apply list_match_single_ok].
  - intros fm'. apply extends_mono. intros y [Hy|Hy]%elem_of_app; [|by apply Hr]. apply Hl. by eapply elem_of_sublist.
  - intros p t Hp Ht. eapply elem_of_sublist in Hp; [|exact Hk].
    apply list_elem_of_fmap in Hp as (x & -> & Hx). by apply Hfn.
  - eapply sublist_NoDup; done.
Qed.
End Lists.

(** ** Terms *)
Definition good_at (sm : Par → Par → FreeMap → MResult) (p : Par) : Prop :=
  NoDup (binders p) → ∀ t fm, plain t → res_ok (extends (binders p) fm) (sm t p fm).

Section Terms.
Context (sm : Par → Par → FreeMap → MResult).
Notation all_good l := (∀ q, q ∈ l → good_at sm q).
Notation all_plain l := (∀ q, q ∈ l → plain q).

(** One step on a process below. *)
Lemma sm_step vars t p fm : good_at sm p → NoDup (binders p) → plain t → binders p ⊆ vars →
  res_ok (extends vars fm) (sm t p fm).
Proof. intros Hg Hnd Ht Hv. eapply res_ok_mono; [|by apply Hg]. intros fm'. by apply extends_mono. Qed.

Lemma fold_step {T} `{MatchableTerm T} (b : T → list Z) fn r (tl pl : list T) fm vars (k : list T * FreeMap → MResult) :
  (∀ t p fm, t ∈ tl → p ∈ pl → res_ok (extends (b p) fm) (fn t p fm)) → pl ≫= b ⊆ vars →
  (∀ rf, res_ok (extends vars rf.2) (k rf)) → res_ok (extends vars fm) (for_each (fold_match fn r tl pl fm) k).
Proof.
  intros Hfn Hv Hk. eapply for_each_ok; [by apply fold_match_ok|]. intros rf Hrf. cbn beta in Hrf.
  eapply res_ok_mono; [|apply Hk]. intros fm'. apply extends_trans. by eapply extends_mono.
Qed.
Lemma pars_good (tl pl : list Par) : all_good pl → all_plain tl → NoDup (pl ≫= binders) →
  ∀ t p fm, t ∈ tl → p ∈ pl → res_ok (extends (binders p) fm) (sm t p fm).
Proof. intros Hg Ht Hnd t p fm Hti Hpi. apply Hg; [done|by eapply NoDup_bind_elem|by apply Ht]. Qed.

Lemma send_ok t p fm : all_good (send_children p) → NoDup (send_binders binders p) → all_plain (send_children t) →
  res_ok (extends (send_binders binders p) fm) (spatial_match_send sm t p fm).
Proof.
  intros Hg Hnd Ht. unfold spatial_match_send. destruct (negb _); [apply res_ok_nil|]. unfold send_binders in *.
  apply for_each_step.
  - apply sm_step; [apply Hg; by left|by eapply NoDup_app_l|apply Ht; by left|set_solver].
  - intros fm1 _. apply (fold_step binders); [|set_solver|intros; by apply res_ok_singleton].
    apply pars_good; [intros; apply Hg; by right|intros; apply Ht; by right|by eapply NoDup_app_r].
Qed.
Lemma bind_ok t p fm : all_good (bind_children p) → NoDup (bind_binders binders p) → all_plain (bind_children t) →
  res_ok (extends (bind_binders binders p) fm) (spatial_match_receive_bind sm t p fm).
Proof.
  intros Hg Hnd Ht. unfold spatial_match_receive_bind. destruct (negb _); [apply res_ok_nil|].
  apply Hg; [by left|done|apply Ht; by left].
Qed.
Lemma receive_ok t p fm : all_good (receive_children p) → NoDup (receive_binders binders p) → all_plain (receive_children t) →
  res_ok (extends (receive_binders binders p) fm) (spatial_match_receive sm t p fm).
Proof.
  intros Hg Hnd Ht. unfold spatial_match_receive. destruct (negb _); [apply res_ok_nil|]. unfold receive_binders in *.
  apply for_each_step.
  - eapply (list_pats_ok (bind_binders binders)); [reflexivity| |by eapply NoDup_app_l|set_solver|set_solver].
    intros x y fm' Hx Hy. apply bind_ok.
    + intros q Hq. apply Hg. right. by eapply elem_of_bind_in.
    + eapply NoDup_bind_elem; [by eapply NoDup_app_l|done].
    + intros q Hq. apply Ht. right. by eapply elem_of_bind_in.
  - intros fm1 _. apply sm_step; [apply Hg; by left|by eapply NoDup_app_r|apply Ht; by left|set_solver].
Qed.
Lemma new_ok t p fm : all_good (new_children p) → NoDup (new_binders binders p) → all_plain (new_children t) →
  res_ok (extends (new_binders binders p) fm) (spatial_match_new sm t p fm).
Proof.
  intros Hg Hnd Ht. unfold spatial_match_new. destruct (negb _); [apply res_ok_nil|].
  apply Hg; [by left|done|apply Ht; by left].
Qed.
Lemma case_ok t p fm : all_good (case_children p) → NoDup (case_binders binders p) → all_plain (case_children t) →
  res_ok (extends (case_binders binders p) fm) (spatial_match_match_case sm t p fm).
Proof.
  intros Hg Hnd Ht. unfold spatial_match_match_case. destruct (negb _); [apply res_ok_nil|].
  apply Hg; [right; by left|done|apply Ht; right; by left].
Qed.
Lemma match_ok t p fm : all_good (match_children p) → NoDup (match_binders binders p) → all_plain (match_children t) →
  res_ok (extends (match_binders binders p) fm) (spatial_match_match sm t p fm).
Proof.
  intros Hg Hnd Ht. unfold spatial_match_match, match_binders in *. apply for_each_step.
  - apply sm_step; [apply Hg; by left|by eapply NoDup_app_l|apply Ht; by left|set_solver].
  - intros fm1 _. apply (fold_step (case_binders binders)); [|set_solver|intros; by apply res_ok_singleton].
    intros x y fm' Hx Hy. apply case_ok.
    + intros q Hq. apply Hg. right. by eapply elem_of_bind_in.
    + eapply NoDup_bind_elem; [by eapply NoDup_app_r|done].
    + intros q Hq. apply Ht. right. by eapply elem_of_bind_in.
Qed.
Lemma two_ok t1 t2 p1 p2 fm : good_at sm p1 → good_at sm p2 → plain t1 → plain t2 → NoDup (binders p1 ++ binders p2) →
  res_ok (extends (binders p1 ++ binders p2) fm) (match_two sm t1 t2 p1 p2 fm).
Proof.
  intros Hg1 Hg2 Ht1 Ht2 Hnd. apply for_each_step; [|intros fm1 _]; apply sm_step; try done; try set_solver;
    first [by eapply NoDup_app_l|by eapply NoDup_app_r].
Qed.

Lemma expr_ok t p fm : all_good (expr_children p) → NoDup (expr_binders binders p) →
  all_plain (expr_children t) → expr_plain t →
  res_ok (extends (expr_binders binders p) fm) (spatial_match_expr sm t p fm).
Proof.
  intros Hg Hnd Ht He.
  destruct p as [| | | | | |p|p|v|op p1 p2|l|l|l|l|m], t as [| | | | | |t|t|w|op' t1 t2|k|k|k|k|m'];
    try apply res_ok_nil; cbn [spatial_match_expr expr_binders expr_children expr_plain] in *.
  - apply Hg; [by left|done|apply Ht; by left].
  - apply Hg; [by left|done|apply Ht; by left].
  - apply match_guard_ok.
  - destruct (_ && _); [|apply res_ok_nil]. apply two_ok; [apply Hg; by left|apply Hg; right; by left|apply Ht; by left|apply Ht; right; by left|exact Hnd].
  - apply (fold_step binders); [|set_solver|].
    + apply pars_good; [done..|by eapply NoDup_app_l].
    + intros rf. destruct (el_remainder l) as [[|level| |]|]; try by apply res_ok_singleton.
      apply res_ok_singleton. intros i Hi. apply lookup_insert_ne. set_solver.
  - apply (fold_step binders); [by apply pars_good|done|]. intros rf. by apply res_ok_singleton.
  - rewrite He. eapply (list_pats_ok binders); [reflexivity|by apply pars_good|done|done|set_solver].
  - rewrite He. eapply (list_pats_ok (pair_binders binders)); [reflexivity| |done|done|set_solver].
    intros [t1 t2] [p1 p2] fm' Hx Hy. cbn [spatial_match_pair pair_binders fst snd]. apply two_ok.
    + apply Hg. eapply elem_of_bind_in; [exact Hy|by left].
    + apply Hg. eapply elem_of_bind_in; [exact Hy|right; by left].
    + apply Ht. eapply elem_of_bind_in; [exact Hx|by left].
    + apply Ht. eapply elem_of_bind_in; [exact Hx|right; by left].
    + by apply (NoDup_bind_elem _ _ (p1, p2) Hnd).
Qed.

Lemma connective_ok t p fm : all_good (connective_children p) → NoDup (connective_binders binders p) → plain t →
  res_ok (extends (connective_binders binders p) fm) (spatial_match_connective sm t p fm).
Proof.
  intros Hg Hnd Ht. destruct p as [ps|ps|p| | | | | | | |]; cbn [spatial_match_connective connective_binders connective_children] in *;
    try apply match_guard_ok; try apply res_ok_nil.
  - assert (∀ states, res_ok (extends (ps ≫= binders) fm) states → res_ok (extends (ps ≫= binders) fm)
      (foldl (λ states p, for_each states (λ fm_state, sm t p fm_state)) states ps)) as H; [|by apply H, res_ok_singleton].
    assert (∀ p, p ∈ ps → NoDup (binders p) ∧ binders p ⊆ ps ≫= binders) as Hb
      by (intros p Hp; split; [by eapply NoDup_bind_elem|by apply elem_of_bind_sub]).
    clear Hnd. revert Hb. generalize (ps ≫= binders) as vars. intros vars Hb.
    induction ps as [|p ps IH]; intros states Hs; simpl; [done|]. apply IH.
    + intros q Hq. apply Hg. by right.
    + intros q Hq. apply Hb. by right.
    + apply for_each_step; [done|]. intros fm1 _. apply sm_step; [apply Hg|apply Hb|done|apply Hb]; by left.
  - assert (res_ok (extends (ps ≫= binders) fm) (for_each (Ok ps) (λ p, sm t p fm))) as H.
    { apply (for_each_ok (λ p, p ∈ ps)); [by apply Forall_forall|]. intros p Hp.
      apply sm_step; [by apply Hg|by eapply NoDup_bind_elem|done|by apply elem_of_bind_sub]. }
    destruct (for_each (Ok ps) _) as [all|e]; [|done]. cbn [res_ok] in *. by apply Forall_take.
  - assert (res_ok (extends (binders p) fm) (sm t p fm)) as H by (apply Hg; [by left|done..]).
    destruct (sm t p fm); [apply match_guard_ok|done].
Qed.
End Terms.

(** *** Parts of a plain process *)
Lemma split_elem {A} (l s c : list A) x : split_of l s c → x ∈ s ∨ x ∈ c → x ∈ l.
Proof. intros HP%split_perm. rewrite <- HP. by rewrite elem_of_app. Qed.
Lemma plain_part par p : plain par →
  sends p ⊆ sends par → receives p ⊆ receives par → news p ⊆ news par → exprs p ⊆ exprs par →
  matches p ⊆ matches par → bundles p ⊆ bundles par → connectives p ⊆ connectives par → plain p.
Proof.
  intros Hp Hs Hr Hn He Hm Hb Hc. inversion Hp as [? Hpe Hpc]; subst. constructor; [intros; by apply Hpe, He|].
  intros q Hq. apply Hpc. rewrite elem_of_par_children in *. naive_solver.
Qed.
Lemma min_max_subsets_err {A} (items : list A) a b e : min_max_subsets items a b = Err e → e ≠ BugFoundError.
Proof. unfold min_max_subsets. case_match; congruence. Qed.
Lemma sub_pars_plain par mn mx mnp mxp : plain par →
  res_ok (λ sc, plain sc.1 ∧ plain sc.2) (sub_pars par mn mx mnp mxp).
Proof.
  intros Hp. destruct (sub_pars par mn mx mnp mxp) as [out|e] eqn:E; cbn [res_ok].
  - apply Forall_forall. intros [sub comp] ((H1 & H2 & H3 & H4 & H5 & _ & H7 & Hs & Hc) & _)%(sub_pars_spec _ _ _ _ _ _ E).
    apply (f_equal (λ x, x.1.1)) in Hs. apply (f_equal (λ x, x.1.1)) in Hc. cbn [fst snd] in *. split; (apply (plain_part par); [done|..]);
      try (intros x Hx; eapply split_elem; [eassumption|tauto]).
    + rewrite Hs. apply list_subseteq_nil.
    + rewrite Hc. apply list_subseteq_nil.
  - unfold sub_pars in E.
    destruct (min_max_subsets (sends par) _ _) as [l1|] eqn:E1; [|simplify_eq; by eapply min_max_subsets_err].
    destruct (min_max_subsets (receives par) _ _) as [l2|] eqn:E2; [|simplify_eq; by eapply min_max_subsets_err].
    destruct (min_max_subsets (news par) _ _) as [l3|] eqn:E3; [|simplify_eq; by eapply min_max_subsets_err].
    destruct (min_max_subsets (exprs par) _ _) as [l4|] eqn:E4; [|simplify_eq; by eapply min_max_subsets_err].
    destruct (min_max_subsets (matches par) _ _) as [l5|] eqn:E5; [|simplify_eq; by eapply min_max_subsets_err].
    destruct (min_max_subsets (unforgeables par) _ _) as [l6|] eqn:E6; [|simplify_eq; by eapply min_max_subsets_err].
    destruct (min_max_subsets (bundles par) _ _) as [l7|] eqn:E7; [|simplify_eq; by eapply min_max_subsets_err].
    destruct (_ <? _) in E; congruence.
Qed.

Lemma match_connectives_ok sm vars fm conns bounds prunes states :
  (∀ c, c ∈ conns → (∀ q, q ∈ connective_children c → good_at sm q) ∧ NoDup (connective_binders binders c) ∧
                    connective_binders binders c ⊆ vars) →
  Forall (λ rf, plain rf.1 ∧ extends vars fm rf.2) states →
  res_ok (λ rf, plain rf.1 ∧ extends vars fm rf.2) (match_connectives sm conns bounds prunes states).
Proof.
  revert bounds prunes states. induction conns as [|con conns IH]; intros bounds prunes states Hc Hs; [done|].
  destruct bounds as [|[min_b max_b] bounds], prunes as [|[min_p max_p] prunes]; [done..|]. cbn [match_connectives].
  assert (res_ok (λ rf, plain rf.1 ∧ extends vars fm rf.2) (for_each (Ok states) (λ '(rem, fm_state),
    for_each (sub_pars rem min_b max_b min_p max_p) (λ '(sub, comp),
      for_each (spatial_match_connective sm sub con fm_state) (λ fm_match, Ok [(comp, fm_match)]))))) as H.
  { apply (for_each_ok (λ rf, plain rf.1 ∧ extends vars fm rf.2)); [done|]. intros [rem fm1] [Hrem Hfm1].
    eapply for_each_ok; [by apply sub_pars_plain|]. intros [sub comp] [Hsub Hcomp]. cbn [fst snd] in *.
    destruct (Hc con ltac:(by left)) as (Hg & Hnd & Hv).
    eapply for_each_ok; [by apply connective_ok|]. intros fm2 Hfm2. apply res_ok_singleton. split; [exact Hcomp|].
    apply extends_trans with fm1; [done|]. by eapply extends_mono. }
  destruct (for_each _ _) as [next|e]; [|exact H]. apply IH; [|exact H]. intros c Hin. apply Hc. by right.
Qed.

Lemma head_omap_elem {A B} (f : A → option B) l y : head (omap f l) = Some y → ∃ x, x ∈ l ∧ f x = Some y.
Proof.
  intros H. assert (y ∈ omap f l) as Hin by (destruct (omap f l); simplify_eq/=; by left).
  apply list_elem_of_omap in Hin as (x & ? & ?). eauto.
Qed.

(** The variables of a field of a pattern are distinct, and variables of it. *)
Lemma binders_fields p : NoDup (binders p) →
  NoDup (connectives p ≫= connective_binders binders) ∧ NoDup (sends p ≫= send_binders binders) ∧
  NoDup (receives p ≫= receive_binders binders) ∧ NoDup (news p ≫= new_binders binders) ∧
  NoDup (exprs p ≫= expr_binders binders) ∧ NoDup (matches p ≫= match_binders binders).
Proof. destruct p. cbn [binders]. rewrite !NoDup_app. tauto. Qed.
Lemma binders_sub p :
  connectives p ≫= connective_binders binders ⊆ binders p ∧ sends p ≫= send_binders binders ⊆ binders p ∧
  receives p ≫= receive_binders binders ⊆ binders p ∧ news p ≫= new_binders binders ⊆ binders p ∧
  exprs p ≫= expr_binders binders ⊆ binders p ∧ matches p ≫= match_binders binders ⊆ binders p.
Proof. destruct p. cbn [binders]. split_and!; intros k Hk; rewrite !elem_of_app; tauto. Qed.

Lemma match_fields_ok sm rem p level wildcard fm :
  (∀ q, q ∈ par_children p → good_at sm q) → NoDup (binders p) → plain rem → option_list level ⊆ binders p →
  res_ok (extends (binders p) fm) (match_fields sm rem p level wildcard fm).
Proof.
  intros IH Hnd Hrem Hlevel. inversion Hrem as [? Hre Hrc]; subst.
  apply binders_fields in Hnd as (Nc & Ns & Nr & Nn & Ne & Nm). destruct (binders_sub p) as (Vc & Vs & Vr & Vn & Ve & Vm).
  unfold match_fields. revert Ns Nr Nn Ne Nm Vs Vr Vn Ve Vm Hlevel. generalize (binders p). intros vars Ns Nr Nn Ne Nm Vs Vr Vn Ve Vm Hlevel.
  apply for_each_step; [|intros fm1 _; apply for_each_step; [|intros fm2 _; apply for_each_step; [|intros fm3 _;
    apply for_each_step; [|intros fm4 _; apply for_each_step; [|intros fm5 _; apply for_each_step; [|intros fm6 _]]]]]].
  - eapply (list_pats_ok (send_binders binders)); [reflexivity| |exact Ns|exact Vs|exact Hlevel].
    intros x y fm' Hx Hy. apply send_ok; [|by eapply NoDup_bind_elem|].
    + intros q Hq. apply IH. by apply (send_child p q y).
    + intros q Hq. apply Hrc. by apply (send_child rem q x).
  - eapply (list_pats_ok (receive_binders binders)); [reflexivity| |exact Nr|exact Vr|exact Hlevel].
    intros x y fm' Hx Hy. apply receive_ok; [|by eapply NoDup_bind_elem|].
    + intros q Hq. apply IH. by apply (receive_child p q y).
    + intros q Hq. apply Hrc. by apply (receive_child rem q x).
  - eapply (list_pats_ok (new_binders binders)); [reflexivity| |exact Nn|exact Vn|exact Hlevel].
    intros x y fm' Hx Hy. apply new_ok; [|by eapply NoDup_bind_elem|].
    + intros q Hq. apply IH. by apply (new_child p q y).
    + intros q Hq. apply Hrc. by apply (new_child rem q x).
  - eapply (list_pats_ok (expr_binders binders)); [apply sublist_filter| |exact Ne|exact Ve|exact Hlevel].
    intros x y fm' Hx Hy. apply expr_ok; [|by eapply NoDup_bind_elem| |by apply Hre].
    + intros q Hq. apply IH. by apply (expr_child p q y).
    + intros q Hq. apply Hrc. by apply (expr_child rem q x).
  - eapply (list_pats_ok (match_binders binders)); [reflexivity| |exact Nm|exact Vm|exact Hlevel].
    intros x y fm' Hx Hy. apply match_ok; [|by eapply NoDup_bind_elem|].
    + intros q Hq. apply IH. by apply (match_child p q y).
    + intros q Hq. apply Hrc. by apply (match_child rem q x).
  - eapply (list_pats_ok (λ _, [])); [reflexivity|intros; apply match_guard_ok| | |exact Hlevel].
    all: clear; induction (bundles p); [constructor || apply list_subseteq_nil|done].
  - eapply (list_pats_ok (λ _, [])); [reflexivity|intros; apply match_guard_ok| | |exact Hlevel].
    all: clear; induction (unforgeables p); [constructor || apply list_subseteq_nil|done].
Qed.

Lemma spatial_match_unfold target pattern fm : spatial_match target pattern fm =
  if negb (connective_used pattern) then match_guard fm (par_eqb pattern target)
  else
    let var_level := head (omap free_var_level (exprs pattern)) in
    let wildcard := existsb is_wildcard_expr (exprs pattern) in
    let pc := from_par (no_frees pattern) in
    let max_rem := if wildcard || bool_decide (is_Some var_level) then max_count else pc in
    let bounds := min_max_connective <$> connectives pattern in
    states ←? match_connectives spatial_match (connectives pattern) bounds (bounds_after bounds (pc, max_rem)) [(target, fm)];
    for_each (Ok states) (λ '(rem, fm_state), match_fields spatial_match rem pattern var_level wildcard fm_state).
Proof. by destruct pattern. Qed.

Lemma spatial_match_good p : good_at spatial_match p.
Proof.
  induction p as [p IH] using par_children_ind. intros Hnd t fm Ht. rewrite spatial_match_unfold.
  destruct (negb _); [apply match_guard_ok|]. set (var_level := head _). cbv zeta.
  destruct (binders_fields p Hnd) as (Nc & _). destruct (binders_sub p) as (Vc & _ & _ & _ & Ve & _).
  assert (option_list var_level ⊆ binders p) as Hlevel.
  { destruct var_level as [level|] eqn:El; [|apply list_subseteq_nil]. intros k ->%list_elem_of_singleton. apply Ve.
    apply head_omap_elem in El as (e & He & El). apply list_elem_of_bind. exists e. split; [|done].
    destruct e as [| | | | | | | |[]| | | | | |]; simplify_eq/=. by left. }
  set (bounds := min_max_connective <$> _). set (prunes := bounds_after _ _).
  assert (res_ok (λ rf, plain rf.1 ∧ extends (binders p) fm rf.2)
    (match_connectives spatial_match (connectives p) bounds prunes [(t, fm)])) as Hst.
  { apply match_connectives_ok; [|apply Forall_cons_2; [split; [exact Ht|done]|apply Forall_nil_2]].
    intros c Hc. split_and!.
    - intros q Hq. apply IH. by apply (connective_child p q c).
    - by eapply NoDup_bind_elem.
    - etrans; [by apply (elem_of_bind_sub (connective_binders binders))|done]. }
  destruct (match_connectives _ _ _ _ _) as [states|e]; [|exact Hst]. cbn [res_ok] in Hst.
  eapply for_each_ok; [exact Hst|]. intros [rem fm0] [Hrem Hfm0]. cbn [fst snd] in *.
  eapply res_ok_mono; [intros fm'; by apply extends_trans|]. by apply match_fields_ok.
Qed.

(** The enumeration of the ways to split a process in two is exact. When it does not exceed its
    limits, it lists precisely the pairs whose fields are split between the part and its
    complement, such that the numbers of terms of the part are between [min] and [max] and those of
    the complement between [min_prune] and [max_prune]. *)
Theorem sub_pars_exact par mn mx mnp mxp out sub comp : sub_pars par mn mx mnp mxp = Ok out →
  (sub, comp) ∈ out ↔
    splits_par par sub comp ∧ count_between mn (from_par sub) mx ∧ count_between mnp (from_par comp) mxp.
Proof. intros E. by apply sub_pars_spec. Qed.
Lemma sub_pars_exact_witness :
  let par := mkPar [] [] [] [GInt 1; GInt 2] [] [] [] [] [] false in
  let part e := mkPar [] [] [] [GInt e] [] [] [] [] [] false in
  (part 1, part 2) ∈ [(part 1, part 2); (part 2, part 1)] ↔
    splits_par par (part 1) (part 2) ∧
    count_between (mkCount 0 0 0 1 0 0 0) (from_par (part 1)) (mkCount 0 0 0 1 0 0 0) ∧
    count_between count_zero (from_par (part 2)) max_count.
Proof.
  apply (sub_pars_exact _ (mkCount 0 0 0 1 0 0 0) (mkCount 0 0 0 1 0 0 0) count_zero max_count). vm_compute. reflexivity.
Defined.

(** C4: Matching keeps the bindings linear. For a pattern whose variables are distinct, matched
    against a process whose sets and maps have no remainder variable, every result changes the
    given bindings only at variables of the pattern, and the matcher never stops with the internal
    error for two conflicting bindings of one variable. *)
Theorem match_is_linear pattern target fm : NoDup (binders pattern) → plain target →
  match spatial_match target pattern fm with
  | Ok results => Forall (λ fm', ∀ k, k ∉ binders pattern → fm' !! k = fm !! k) results
  | Err e => e ≠ BugFoundError
  end.
Proof. intros Hnd Ht. exact (spatial_match_good pattern Hnd target fm Ht). Qed.

(** Terms for examples: numbers, messages on channel 0, a choice of two numbers. *)
Definition num (n : Z) : Par := from_expr (GInt n).
Definition msg (d : Par) : Send := mkSend (num 0) [d] false [] (connective_used d).
Definition either (a b : Z) : Par := mkPar [] [] [] [] [] [] [] [ConnOr [num a; num b]] [] true.
Definition msgs (l : list Send) (es : list Expr) (cu : bool) : Par := mkPar l [] [] es [] [] [] [] [] cu.

Lemma match_is_linear_witness :
  let pattern := msgs [msg (from_expr (EVar (FreeVar 0)))] [EVar (FreeVar 1)] true in
  match spatial_match (msgs [msg (num 1); msg (num 2)] [] false) pattern ∅ with
  | Ok results => Forall (λ fm', ∀ k, k ∉ binders pattern → fm' !! k = (∅ : FreeMap) !! k) results
  | Err e => e ≠ BugFoundError
  end.
Proof.
  apply (match_is_linear (msgs [msg (from_expr (EVar (FreeVar 0)))] [EVar (FreeVar 1)] true)).
  - vm_decide.
  - assert (∀ n, plain (num n)) as Hn.
    { intros n. constructor; [by intros e ->%list_elem_of_singleton|]. by intros q ?%elem_of_nil. }
    constructor; [by intros e ?%elem_of_nil|]. intros q Hq.
    assert (q ∈ [num 0; num 1; num 0; num 2]) as Hq' by exact Hq. clear Hq.
    repeat (apply elem_of_cons in Hq' as [->|Hq']; [apply Hn|]). by apply elem_of_nil in Hq'.
Defined.

(** The process that a variable captures: all of it but the caches and the connectives. *)
Definition captured (p : Par) : Par :=
  mkPar (sends p) (receives p) (news p) (exprs p) (matches p) (unforgeables p) (bundles p) [] [] false.
Definition terms_closed (p : Par) : bool :=
  forallb mt_locally_free_empty (sends p) && forallb mt_locally_free_empty (receives p) &&
  forallb mt_locally_free_empty (news p) && forallb mt_locally_free_empty (exprs p) &&
  forallb mt_locally_free_empty (matches p) && forallb mt_locally_free_empty (bundles p).

Lemma for_each_single {A B E} (a : A) (f : A → Result (list B) E) : for_each (Ok [a]) f = f a.
Proof. unfold for_each. cbn [try_map]. destruct (f a); [|done]. cbn [concat]. by rewrite app_nil_r. Qed.
Lemma list_match_remainder {T} `{MatchableTerm T} (targets : list T) merger level fm :
  list_match_single targets [] merger (Some level) false fm =
  if forallb mt_locally_free_empty targets then Ok [handle_remainder fm targets level merger] else Ok [].
Proof. unfold list_match_single. simpl. by rewrite andb_false_r. Qed.

(** A variable as a pattern captures a whole process. It matches exactly when no term of the
    process has locally free variables; the variable is then bound to all of the terms, and nothing
    else is bound. *)
Theorem variable_captures_process level target :
  spatial_match_result target (from_expr (EVar (FreeVar level))) =
  Ok (if terms_closed target then Some {[level := captured target]} else None).
Proof.
  unfold spatial_match_result. rewrite spatial_match_unfold. cbn -[for_each list_match_single]. rewrite for_each_single.
  unfold match_fields. cbn -[for_each list_match_single]. unfold terms_closed.
  rewrite (list_match_remainder (sends target)). destruct (forallb _ (sends target)); [|done]. rewrite for_each_single.
  rewrite (list_match_remainder (receives target)). destruct (forallb _ (receives target)); [|done]. rewrite for_each_single.
  rewrite (list_match_remainder (news target)). destruct (forallb _ (news target)); [|done]. rewrite for_each_single.
  rewrite (list_match_remainder (exprs target)). destruct (forallb _ (exprs target)); [|done]. rewrite for_each_single.
  rewrite (list_match_remainder (matches target)). destruct (forallb _ (matches target)); [|done]. rewrite for_each_single.
  rewrite (list_match_remainder (bundles target)). destruct (forallb _ (bundles target)); [|done]. rewrite for_each_single.
  rewrite (list_match_remainder (unforgeables target)).
  replace (forallb _ (unforgeables target)) with true by (symmetry; by apply forallb_forall). cbn [head andb]. do 2 f_equal.
  unfold handle_remainder. rewrite lookup_empty, !lookup_insert_eq, !insert_insert_eq. done.
Qed.

(** Three ways in which matching is not what the patterns say. A set pattern with a remainder
    does not match a larger set, because the remainder is looked up in the target instead of the
    pattern. A remainder captures, besides what is left over, a second copy of a message that the
    rest of the pattern has already matched. A pattern in canonical order fails to match although
    the same patterns in another order do, because the search for a matching is not maximum. *)
Theorem matcher_gaps :
  spatial_match_result (from_expr (ESet (par_set [num 1; num 2])))
    (from_expr (ESet (mkParSet [num 1] true [] (Some (FreeVar 0))))) = Ok None ∧
  spatial_match_result (msgs [msg (num 1); msg (num 1)] [] false) (msgs [msg (num 1)] [EVar (FreeVar 0)] true) =
    Ok (Some {[0 := msgs [msg (num 1); msg (num 1)] [] false]}) ∧
  (let target := msgs [msg (num 1); msg (num 2); msg (num 3)] [] false in
   let p := msgs [msg (either 1 2); msg (either 1 3); msg (either 2 9)] [] true in
   let q := msgs [msg (either 2 9); msg (either 1 2); msg (either 1 3)] [] true in
   par_eqb (sort_par_term p) p = true ∧ par_eqb (sort_par_term q) p = true ∧
   spatial_match_result target p = Ok None ∧ spatial_match_result target q = Ok (Some ∅)).
Proof. cbv zeta. split_and!; vm_compute; reflexivity. Qed.
