(* ===== verification/Text.v ===== *)
(** * Text

    The functions on strings that the interpreter takes from the standard
    library of the language: characters of a UTF-8 string, decimal and
    hexadecimal numbers. *)

From Stdlib Require Import Strings.String.
From S2P Require Import Prelude BTree Bytes Ast.

(** The bytes of a literal. *)
Definition text (s : string) : Str := String.list_byte_of_string s.

(** ** Characters

    A byte of the form 10xxxxxx continues a character. *)
Definition continuation (b : byte) : bool := (128 <=? u8_val b)%nat && (u8_val b <? 192)%nat.

(** The bytes up to the next character, and the rest. *)
Fixpoint span_continuation (s : Str) : Str * Str :=
  match s with
  | [] => ([], [])
  | b :: s' => if continuation b then let (c, rest) := span_continuation s' in (b :: c, rest) else ([], s)
  end.
Definition next_char (s : Str) : option (Str * Str) :=
  match s with [] => None | b :: s' => let (c, rest) := span_continuation s' in Some (b :: c, rest) end.

(** [str::chars], every character by its bytes. *)
Fixpoint chars_at (fuel : nat) (s : Str) : list Str :=
  match fuel with
  | O => []
  | S fuel => match next_char s with None => [] | Some (c, rest) => c :: chars_at fuel rest end
  end.
Definition chars (s : Str) : list Str := chars_at (length s) s.

(** ** Numbers *)
Definition digit_val (b : byte) : option Z :=
  let n := Z.of_nat (u8_val b) in if (48 <=? n) && (n <=? 57) then Some (n - 48) else None.
Definition hex_val (b : byte) : option Z :=
  let n := Z.of_nat (u8_val b) in
  if (48 <=? n) && (n <=? 57) then Some (n - 48)
  else if (97 <=? n) && (n <=? 102) then Some (n - 87)
  else if (65 <=? n) && (n <=? 70) then Some (n - 55) else None.

Fixpoint digits_val (acc : Z) (s : Str) : option Z :=
  match s with [] => Some acc | b :: s => d ← digit_val b; digits_val (10 * acc + d) s end.
Definition minus_sign : byte := Byte.x2d.
Definition plus_sign : byte := Byte.x2b.

(** [str::parse::<i64>]: a sign, then digits, one at least, within the range. *)
Definition parse_i64 (s : Str) : option Z :=
  let digits (s : Str) := match s with [] => None | _ => digits_val 0 s end in
  v ← match s with
      | [] => None
      | b :: s' =>
          if decide (b = minus_sign) then v ← digits s'; Some (- v)
          else if decide (b = plus_sign) then digits s'
          else digits s
      end;
  if (i64_min <=? v) && (v <=? i64_max) then Some v else None.

(** [i64::to_string]. *)
Definition digit_char (d : Z) : byte := as_u8 (Z.to_nat (48 + d)).
Fixpoint decimal (fuel : nat) (n : Z) (acc : Str) : Str :=
  match fuel with
  | O => acc
  | S fuel => let acc := digit_char (n mod 10) :: acc in if n / 10 =? 0 then acc else decimal fuel (n / 10) acc
  end.
(** An [i64] has at most 19 digits. *)
Definition i64_to_string (i : Z) : Str := if i <? 0 then minus_sign :: decimal 20 (- i) [] else decimal 20 i [].

(** [format!("{b:02x}")] of every byte. *)
Definition hex_char (d : Z) : byte := as_u8 (Z.to_nat (if d <? 10 then 48 + d else 87 + d)).
Definition hex_encode (bytes : list byte) : Str :=
  bytes ≫= λ b, let n := Z.of_nat (u8_val b) in [hex_char (n / 16); hex_char (n mod 16)].

(** [u8::from_str_radix(_, 16)] of two bytes: a sign is accepted in front. *)
Definition u8_from_hex (a b : byte) : option byte :=
  hi ← (if decide (a = plus_sign) then Some 0 else hex_val a); lo ← hex_val b; Some (as_u8 (Z.to_nat (16 * hi + lo))).

(** The decoding by slices of two bytes; a slice that ends inside of a
    character panics, [None]. *)
Fixpoint hex_decode_pairs (s : Str) : option (option (list byte)) :=
  match s with
  | a :: b :: rest =>
      if match rest with c :: _ => continuation c | [] => false end then None
      else match u8_from_hex a b with
           | None => Some None
           | Some v => r ← hex_decode_pairs rest; Some (vs ← r; Some (v :: vs))
           end
  | _ => Some (Some [])
  end.
Definition hex_decode (s : Str) : option (option (list byte)) :=
  if (length s mod 2 =? 0)%nat then hex_decode_pairs s else Some None.

(** ** Lemmas *)
Lemma hex_roundtrip bytes : hex_decode (hex_encode bytes) = Some (Some bytes).
Proof.
  unfold hex_decode. assert (length (hex_encode bytes) = (length bytes * 2)%nat) as El.
  { induction bytes as [|b bytes IH]; [done|]. unfold hex_encode in *. rewrite bind_cons, length_app, IH. simpl. lia. }
  rewrite El, Nat.Div0.mod_mul. cbn [Nat.eqb].
  assert (∀ b, match hex_encode [b] with
    | [x; y] => continuation x = false ∧ u8_from_hex x y = Some b | _ => False end) as H.
  { assert (forallb (λ n, match Byte.of_nat n with Some b => match hex_encode [b] with
      | [x; y] => negb (continuation x) && bool_decide (u8_from_hex x y = Some b) | _ => false end | None => false end)
      (seq 0 256) = true) as Hall by (vm_compute; reflexivity).
    intros b. rewrite forallb_forall in Hall. specialize (Hall (u8_val b)).
    rewrite in_seq in Hall. unfold u8_val in Hall. rewrite Byte.of_to_nat in Hall.
    specialize (Hall ltac:(pose proof (Byte.to_nat_bounded b); lia)).
    cbn [hex_encode mbind list_bind app] in *. apply andb_true_iff in Hall as [H1 H2].
    apply bool_decide_eq_true in H2. by rewrite negb_true_iff in H1. }
  clear El. induction bytes as [|b bytes IH]; [done|].
  change (hex_encode (b :: bytes)) with (hex_encode [b] ++ hex_encode bytes).
  pose proof (H b) as Hb. destruct (hex_encode [b]) as [|x [|y [|? ?]]]; [done..| |done]. destruct Hb as [Hx Hv].
  cbn [app hex_decode_pairs]. rewrite Hv.
  assert (match hex_encode bytes with c :: _ => continuation c | [] => false end = false) as ->.
  { destruct bytes as [|b' bytes]; [done|]. change (hex_encode (b' :: bytes)) with (hex_encode [b'] ++ hex_encode bytes).
    pose proof (H b') as Hb'. destruct (hex_encode [b']) as [|x' [|y' [|? ?]]]; [done..| |done]. apply Hb'. }
  cbn [hex_decode_pairs] in IH. rewrite IH. done.
Qed.
