(* ===== verification/Eval.v ===== *)
(** * Evaluation of expressions

    The first half of [rholang/src/reduce.rs]: [eval_expr] and the functions
    below it, with the methods of values.  Evaluation calls itself on the
    processes below a term and also on values looked up in the environment, so
    its depth is not bounded by the term: it takes the depth of the stack it may
    use, and [StackOverflow] is the exhaustion of it.

    The serialization of a process and the text form of big integers are
    functions of other packages and parameters here. *)

From Stdlib Require Import Strings.String.
From S2P Require Import Prelude BTree Bytes Trace Ast ParOps Types Sorter SorterSpec Accounting Substitute BipartiteMatch ParCount Matcher Text.
Local Open Scope list_scope.

(** How an evaluation stops: an error of the interpreter, a panic (which the
    task that runs it turns into an error), or a stack overflow. *)
Inductive Stop :=
| Failed (e : RholangError)
| Panicked
| StackOverflow.
Notation Eval A := (StateResult CostAccounting A Stop).

Definition lift {A} (m : Charged A) : Eval A := λ c,
  match m c with (c', Ok a) => (c', Ok a) | (c', Err e) => (c', Err (Failed e)) end.
Definition fail {A} (e : RholangError) : Eval A := sr_err (Failed e).
Definition pay (amount : Z) : Eval unit := lift (charge amount).
Definition from_result {A} (r : Result A RholangError) : Eval A :=
  match r with Ok a => sr_ret a | Err e => fail e end.

(** [len() as i64]. *)
Definition len {A} (l : list A) : Z := i64_wrap (Z.of_nat (length l)).

(** [get], [skip] and [take] by an index that can be larger than the list. *)
Definition vec_get {A} (l : list A) (i : Z) : option A := if i <? Z.of_nat (length l) then l !! Z.to_nat i else None.
Definition vec_skip {A} (l : list A) (n : Z) : list A := drop (Z.to_nat (Z.min n (Z.of_nat (length l)))) l.
Definition vec_take {A} (l : list A) (n : Z) : list A := take (Z.to_nat (Z.min n (Z.of_nat (length l)))) l.

(** ** Helpers *)
Definition update_locally_free (par : Par) : Par :=
  let free := foldl union_free []
    ((s_locally_free <$> sends par) ++ (r_locally_free <$> receives par) ++ (n_locally_free <$> news par) ++
     ((λ e, locally_free_of_expr e 0) <$> exprs par) ++ (m_locally_free <$> matches par) ++
     ((λ b, locally_free (b_body b)) <$> bundles par)) in
  mkPar (sends par) (receives par) (news par) (exprs par) (matches par) (unforgeables par) (bundles par)
    (connectives par) free (connective_used par).

Definition eval_var (v : Var) (env : Env Par) : Eval Par :=
  _ ←$ pay var_eval_cost;
  match v with
  | BoundVar level => match env_get env level with Some p => sr_ret p | None => fail (ReduceError (UnboundVariable level)) end
  | Wildcard | FreeVar _ => fail (ReduceError EvaluatingPattern)
  | VarEmpty => fail (ReduceError ImpossibleVar)
  end.

(** [Ok(n as usize)]: a negative number becomes a large index. *)
Definition restrict_to_int (n : Z) : Result Z RholangError :=
  if (2 ^ 31 - 1 <? n) || (n <? - 2 ^ 31) then Err (ReduceError (OutOfRange n)) else Ok (n mod 2 ^ 64).

Definition check_arity (method : Str) (expected actual : nat) : Eval unit :=
  if (actual =? expected)%nat then sr_ret () else fail (MethodArgumentNumberMismatch method expected actual).

(** ** Operators *)
Definition compare_values (op : BinOp) (c : comparison) : bool :=
  match op, c with
  | ELt, Lt | EGt, Gt => true
  | ELte, (Lt | Eq) | EGte, (Gt | Eq) => true
  | _, _ => false
  end.

(** [Int] operators; the charge comes after the checks. *)
Definition int_op (op : BinOp) (l r : Z) : Eval Expr :=
  match op with
  | EMult => _ ←$ pay multiplication_cost; sr_ret (GInt (i64_wrap (l * r)))
  | EDiv =>
      if r =? 0 then fail (ReduceError DivByZero)
      else if (l =? i64_min) && (r =? -1) then fail (ReduceError DivisionOverflow)
      else _ ←$ pay division_cost; sr_ret (GInt (Z.quot l r))
  | EMod =>
      if r =? 0 then fail (ReduceError DivByZero)
      else if (l =? i64_min) && (r =? -1) then fail (ReduceError ModuloOverflow)
      else _ ←$ pay modulo_cost; sr_ret (GInt (Z.rem l r))
  | EPlus => _ ←$ pay sum_cost; sr_ret (GInt (i64_wrap (l + r)))
  | _ => _ ←$ pay subtraction_cost; sr_ret (GInt (i64_wrap (l - r)))
  end.
(** [BigInt] operators. *)
Definition big_int_op (op : BinOp) (l r : Z) : Eval Expr :=
  match op with
  | EMult => _ ←$ pay (big_int_multiplication l r); sr_ret (GBigInt (l * r))
  | EDiv =>
      if r =? 0 then fail (ReduceError DivByZero)
      else _ ←$ pay (big_int_multiplication l r); sr_ret (GBigInt (Z.quot l r))
  | EMod =>
      if r =? 0 then fail (ReduceError DivByZero)
      else _ ←$ pay (big_int_multiplication l r); sr_ret (GBigInt (Z.rem l r))
  | EPlus => _ ←$ pay (big_int_sum l r); sr_ret (GBigInt (l + r))
  | _ => _ ←$ pay (big_int_sum l r); sr_ret (GBigInt (l - r))
  end.
Definition arith_values (op : BinOp) (v1 v2 : Expr) : Eval Expr :=
  match v1, v2 with
  | GInt l, GInt r => int_op op l r
  | GBigInt l, GBigInt r => big_int_op op l r
  | GInt _, o => fail (OperatorExpectedError op TInt (typ o))
  | GBigInt _, o => fail (OperatorExpectedError op TBigInt (typ o))
  | o, _ => fail (OperatorNotDefined op (typ o))
  end.
Definition relop_values (op : BinOp) (v1 v2 : Expr) : Eval Expr :=
  match v1, v2 with
  | GBool a, GBool b => _ ←$ pay comparison_cost; sr_ret (GBool (compare_values op (cmp a b)))
  | GInt a, GInt b => _ ←$ pay comparison_cost; sr_ret (GBool (compare_values op (cmp a b)))
  | GBigInt a, GBigInt b => _ ←$ pay (big_int_comparison a b); sr_ret (GBool (compare_values op (cmp a b)))
  | GString a, GString b => _ ←$ pay comparison_cost; sr_ret (GBool (compare_values op (cmp a b)))
  | _, _ => fail (ReduceError UnexpectedCompare)
  end.
(** [++]. *)
Definition append_values (v1 v2 : Expr) : Eval Expr :=
  match v1, v2 with
  | GString l, GString r => _ ←$ pay (i64_wrap (len l + len r)); sr_ret (GString (l ++ r))
  | GByteArray l, GByteArray r => _ ←$ pay (i64_wrap (len l + len r)); sr_ret (GByteArray (l ++ r))
  | EList l, EList r =>
      _ ←$ pay (len (el_ps l ++ el_ps r));
      sr_ret (EList (mkEList (el_ps l ++ el_ps r) (union_free (el_locally_free l) (el_locally_free r))
                       (el_connective_used l || el_connective_used r) None))
  | GString _, o => fail (OperatorExpectedError EPlusPlus TString (typ o))
  | EList _, o => fail (OperatorExpectedError EPlusPlus TList (typ o))
  | o, _ => fail (OperatorNotDefined EPlusPlus (typ o))
  end.
(** [--], and the elements of a set that are not in another one. *)
Definition set_diff (b o : ParSet) : ParSet := par_set (filter (λ p, par_contains (ps_ps o) p = false) (ps_ps b)).
Definition diff_values (v1 v2 : Expr) : Eval Expr :=
  match v1, v2 with
  | ESet b, ESet o => _ ←$ pay (diff_cost (len (ps_ps o))); sr_ret (ESet (set_diff b o))
  | ESet _, o => fail (OperatorExpectedError EMinusMinus TSet (typ o))
  | o, _ => fail (OperatorNotDefined EMinusMinus (typ o))
  end.

(** ** Interpolation *)
Definition bool_text (b : bool) : Str := if b then text "true" else text "false".
Definition eval_to_string_pair (bigint_to_string : Z → Str) (key value : Expr) : Result (Str * Str) RholangError :=
  match key, value with
  | GString k, GString v => Ok (k, v)
  | GString k, GInt v => Ok (k, i64_to_string v)
  | GString k, GBigInt v => Ok (k, bigint_to_string v)
  | GString k, GBool v => Ok (k, bool_text v)
  | GString k, GUri v => Ok (k, v)
  | GString _, value => Err (ReduceError (InterpolationValue (typ value)))
  | _, _ => Err (ReduceError InterpolationKey)
  end.

(** [${key}]. *)
Definition placeholder (k : Str) : Str := text "${" ++ k ++ text "}".
Fixpoint is_prefix (p s : Str) : bool :=
  match p, s with
  | [], _ => true
  | a :: p, b :: s => bool_decide (a = b) && is_prefix p s
  | _, [] => false
  end.
Fixpoint interpolate_at (fuel : nat) (current : Str) (pairs : list (Str * Str)) : Str :=
  match fuel with
  | O => []
  | S fuel =>
      match List.find (λ kv, is_prefix (placeholder kv.1) current) pairs with
      | Some (k, v) => v ++ interpolate_at fuel (drop (length k + 3) current) pairs
      | None => match next_char current with
                | Some (c, rest) => c ++ interpolate_at fuel rest pairs
                | None => []
                end
      end
  end.
(** Every step drops a byte at least. *)
Definition interpolate (string : Str) (pairs : list (Str * Str)) : Str := interpolate_at (length string) string pairs.

(** ** Methods *)
Inductive Method :=
| MNth | MToInt | MToBigInt | MHexToBytes | MBytesToHex | MToUtf8Bytes | MToByteArray | MUnion | MDiff | MAdd
| MDelete | MContains | MGet | MGetOrElse | MSet | MKeys | MSize | MLength | MSlice | MTake | MToList | MToSet | MToMap.
#[export] Instance Method_eq_dec : EqDecision Method.
Proof. solve_decision. Defined.
(** The names and the numbers of arguments. *)
Definition methods : list (Str * Method * nat) :=
  [(text "nth", MNth, 1%nat); (text "toInt", MToInt, 0%nat); (text "toBigInt", MToBigInt, 0%nat);
   (text "hexToBytes", MHexToBytes, 0%nat); (text "bytesToHex", MBytesToHex, 0%nat);
   (text "toUtf8Bytes", MToUtf8Bytes, 0%nat); (text "toByteArray", MToByteArray, 0%nat);
   (text "union", MUnion, 1%nat); (text "diff", MDiff, 1%nat); (text "add", MAdd, 1%nat);
   (text "delete", MDelete, 1%nat); (text "contains", MContains, 1%nat); (text "get", MGet, 1%nat);
   (text "getOrElse", MGetOrElse, 2%nat); (text "set", MSet, 2%nat); (text "keys", MKeys, 0%nat);
   (text "size", MSize, 0%nat); (text "length", MLength, 0%nat); (text "slice", MSlice, 2%nat);
   (text "take", MTake, 1%nat); (text "toList", MToList, 0%nat); (text "toSet", MToSet, 0%nat);
   (text "toMap", MToMap, 0%nat)].
Definition method_of (name : Str) : option (Method * nat) :=
  x ← List.find (λ x, bool_decide (x.1.1 = name)) methods; Some (x.1.2, x.2).

Definition make_tuple (k v : Par) : Par := from_expr (ETuple (mkETuple [k; v] [] false)).
Definition unapply_tuple2 (p : Par) : option (Par * Par) :=
  match single_expr p with
  | Some (ETuple t) => match et_ps t with [a; b] => Some (a, b) | _ => None end
  | _ => None
  end.
Definition map_get (kvs : list (Par * Par)) (key : Par) : option Par :=
  kv ← List.find (λ kv, par_eqb kv.1 key) kvs; Some kv.2.
Definition list_value (ps : list Par) : Par := from_expr (EList (mkEList ps [] false None)).
Definition int_value (n : Z) : Eval Par := sr_ret (from_expr (GInt n)).
Definition expr_value (e : Expr) : Eval Par := sr_ret (from_expr e).
(** [par_set] and [par_map] with their caches set. *)
Definition cached_set (ps : list Par) (cu : bool) (lf : BitSet) (r : option Var) : Expr :=
  ESet (mkParSet (ps_ps (par_set ps)) cu lf r).
Definition cached_map (kvs : list (Par * Par)) (cu : bool) (lf : BitSet) (r : option Var) : Expr :=
  EMap (mkParMap (pm_kvs (par_map kvs)) cu lf r).

(** What a method does with its evaluated target and arguments, where no
    further evaluation is needed. *)
Definition nth_value (v : Expr) (nth : Z) : Eval Par :=
  let out_of_bound := fail (ReduceError (IndexOutOfBound nth)) in
  match v with
  | EList (mkEList ps _ _ _) | ETuple (mkETuple ps _ _) =>
      match vec_get ps nth with Some p => sr_ret p | None => out_of_bound end
  | GByteArray bs => match vec_get bs nth with Some b => int_value (Z.of_nat (u8_val b)) | None => out_of_bound end
  | other => fail (ReduceError (NthOnOther (typ other)))
  end.
Definition union_value (name : Str) (base other : Expr) : Eval Par :=
  match base, other with
  | ESet b, ESet o =>
      _ ←$ pay (union_cost (len (ps_ps o)));
      expr_value (cached_set (ps_ps b ++ ps_ps o) (ps_connective_used b || ps_connective_used o)
                    (union_free (ps_locally_free b) (ps_locally_free o)) None)
  | EMap b, EMap o =>
      _ ←$ pay (union_cost (len (pm_kvs o)));
      expr_value (cached_map (pm_kvs b ++ pm_kvs o) (pm_connective_used b || pm_connective_used o)
                    (union_free (pm_locally_free b) (pm_locally_free o)) None)
  | o, _ => fail (MethodNotDefined name (typ o))
  end.
Definition diff_value (name : Str) (base other : Expr) : Eval Par :=
  match base, other with
  | ESet b, ESet o => _ ←$ pay (diff_cost (len (ps_ps o))); expr_value (ESet (set_diff b o))
  | EMap b, EMap o =>
      _ ←$ pay (diff_cost (len (pm_kvs o)));
      expr_value (EMap (par_map (filter (λ kv, existsb (λ okv, par_eqb okv.1 kv.1) (pm_kvs o) = false) (pm_kvs b))))
  | o, _ => fail (MethodNotDefined name (typ o))
  end.
Definition add_value (name : Str) (base : Expr) (element : Par) : Eval Par :=
  _ ←$ pay add_cost;
  match base with
  | ESet b => expr_value (cached_set (ps_ps b ++ [element]) (ps_connective_used b || connective_used element)
                            (union_free (ps_locally_free b) (locally_free element)) None)
  | other => fail (MethodNotDefined name (typ other))
  end.
Definition delete_value (name : Str) (base : Expr) (element : Par) : Eval Par :=
  match base with
  | ESet b =>
      _ ←$ pay (mul_cost remove_cost (len (ps_ps b)));
      expr_value (ESet (par_set (filter (λ p, par_eqb p element = false) (ps_ps b))))
  | EMap b =>
      _ ←$ pay (mul_cost remove_cost (len (pm_kvs b)));
      expr_value (EMap (par_map (filter (λ kv, par_eqb kv.1 element = false) (pm_kvs b))))
  | other => fail (MethodNotDefined name (typ other))
  end.
Definition contains_value (name : Str) (base : Expr) (element : Par) : Eval Par :=
  match base with
  | ESet b => _ ←$ pay (mul_cost lookup_cost (len (ps_ps b))); expr_value (GBool (par_contains (ps_ps b) element))
  | EMap b =>
      _ ←$ pay (mul_cost lookup_cost (len (pm_kvs b)));
      expr_value (GBool (existsb (λ kv, par_eqb kv.1 element) (pm_kvs b)))
  | other => fail (MethodNotDefined name (typ other))
  end.
Definition get_value (name : Str) (base : Expr) (key dflt : Par) : Eval Par :=
  match base with
  | EMap b => _ ←$ pay (mul_cost lookup_cost (len (pm_kvs b))); sr_ret (default dflt (map_get (pm_kvs b) key))
  | other => fail (MethodNotDefined name (typ other))
  end.
Definition set_value (name : Str) (base : Expr) (key value : Par) : Eval Par :=
  _ ←$ pay add_cost;
  match base with
  | EMap b => expr_value (EMap (par_map (set_slot (pm_kvs b) key value)))
  | other => fail (MethodNotDefined name (typ other))
  end.
Definition keys_value (name : Str) (base : Expr) : Eval Par :=
  _ ←$ pay keys_method_cost;
  match base with
  | EMap b => expr_value (ESet (par_set (pm_kvs b).*1))
  | other => fail (MethodNotDefined name (typ other))
  end.
Definition size_value (name : Str) (base : Expr) : Eval Par :=
  let sized n := _ ←$ pay n; int_value n in
  match base with
  | EMap b => sized (len (pm_kvs b))
  | ESet b => sized (len (ps_ps b))
  | other => fail (MethodNotDefined name (typ other))
  end.
Definition length_value (name : Str) (base : Expr) : Eval Par :=
  _ ←$ pay length_method_cost;
  match base with
  | GString s => int_value (len s)
  | GByteArray b => int_value (len b)
  | EList l => int_value (len (el_ps l))
  | other => fail (MethodNotDefined name (typ other))
  end.
Definition slice_value (name : Str) (base : Expr) (from_i until_i : Z) : Eval Par :=
  let from := Z.max from_i 0 in
  let until := Z.max until_i 0 in
  let n := if from <? until then until - from else 0 in
  let cut {A} (l : list A) := vec_take (vec_skip l from) n in
  _ ←$ pay (Z.max from until);
  match base with
  | GString s => expr_value (GString (concat (cut (chars s))))
  | GByteArray b => expr_value (GByteArray (cut b))
  | EList l => expr_value (EList (mkEList (cut (el_ps l)) (el_locally_free l) (el_connective_used l) (el_remainder l)))
  | other => fail (MethodNotDefined name (typ other))
  end.
Definition take_value (name : Str) (base : Expr) (n_i : Z) : Eval Par :=
  let n := if n_i <=? 0 then 0 else n_i in
  _ ←$ pay n;
  match base with
  | EList l => expr_value (EList (mkEList (vec_take (el_ps l) n) (el_locally_free l) (el_connective_used l) (el_remainder l)))
  | other => fail (MethodNotDefined name (typ other))
  end.
Definition to_list_value (name : Str) (target : Par) (base : Expr) : Eval Par :=
  match base with
  | EList _ | ETuple _ => sr_ret target
  | ESet b => _ ←$ pay (len (ps_ps b)); sr_ret (list_value (ps_ps b))
  | EMap b => _ ←$ pay (len (pm_kvs b)); sr_ret (list_value ((λ kv, make_tuple kv.1 kv.2) <$> pm_kvs b))
  | other => fail (MethodNotDefined name (typ other))
  end.
Definition to_set_value (name : Str) (target : Par) (base : Expr) : Eval Par :=
  match base with
  | ESet _ => sr_ret target
  | EMap b => expr_value (ESet (par_set ((λ kv, make_tuple kv.1 kv.2) <$> pm_kvs b)))
  | EList l => expr_value (cached_set (el_ps l) (el_connective_used l) [] (el_remainder l))
  | other => fail (MethodNotDefined name (typ other))
  end.
Definition to_map_value (name : Str) (target : Par) (base : Expr) : Eval Par :=
  let from_pairs ps t := match mapM unapply_tuple2 ps with
                         | Some kvs => expr_value (EMap (par_map kvs))
                         | None => fail (MethodNotDefined name t)
                         end in
  match base with
  | EMap _ => sr_ret target
  | ESet b => from_pairs (ps_ps b) TSet
  | EList l => from_pairs (el_ps l) TList
  | other => fail (MethodNotDefined name (typ other))
  end.

(** ** The evaluator *)
Section Evaluator.
Context (wire : Par → list byte) (bigint_from_str : Str → option Z) (bigint_to_string : Z → Str).

Definition substitute_and_charge (p : Par) (depth : Z) (env : Env Par) : Eval Par :=
  lift (substitute_par_and_charge (λ q, len (wire q)) p depth env).

Definition to_int_value (name : Str) (base : Expr) : Eval Par :=
  match base with
  | GInt v => int_value v
  | GBigInt bi =>
      _ ←$ pay (big_int_size bi);
      match parse_i64 (bigint_to_string bi) with Some v => int_value v | None => fail (ReduceError ToIntRange) end
  | GString s =>
      _ ←$ pay (len s);
      match parse_i64 s with Some v => int_value v | None => fail (ReduceError ToIntParse) end
  | other => fail (MethodNotDefined name (typ other))
  end.
Definition to_big_int_value (name : Str) (base : Expr) : Eval Par :=
  match base with
  | GBigInt v => expr_value (GBigInt v)
  | GInt num => _ ←$ pay int_to_bigint_cost; expr_value (GBigInt num)
  | GString s =>
      _ ←$ pay (len s);
      match bigint_from_str s with Some v => expr_value (GBigInt v) | None => fail (ReduceError ToBigIntParse) end
  | other => fail (MethodNotDefined name (typ other))
  end.
Definition bytes_value (name : Str) (m : Method) (base : Expr) : Eval Par :=
  match m, base with
  | MHexToBytes, GString s =>
      _ ←$ pay (len s);
      match hex_decode s with
      | Some (Some bytes) => expr_value (GByteArray bytes)
      | Some None => fail (ReduceError HexDecoding)
      | None => sr_err Panicked
      end
  | MBytesToHex, GByteArray bytes => _ ←$ pay (len bytes); expr_value (GString (hex_encode bytes))
  | MToUtf8Bytes, GString s => _ ←$ pay (len s); expr_value (GByteArray s)
  | _, other => fail (MethodNotDefined name (typ other))
  end.

(** The evaluation of the processes below, with one frame less. *)
Section Open.
Context (eval_expr : Par → Env Par → Eval Par) (eval_single_expr : Par → Env Par → Eval Expr).

Definition eval_to_bool (par : Par) (env : Env Par) : Eval bool :=
  v ←$ eval_single_expr par env;
  match v with GBool b => sr_ret b | other => fail (ReduceError (Expected TBool (typ other))) end.
Definition eval_to_long (par : Par) (env : Env Par) : Eval Z :=
  v ←$ eval_single_expr par env;
  match v with GInt i => sr_ret i | other => fail (ReduceError (Expected TInt (typ other))) end.

(** A method on the evaluated target and arguments. *)
Definition eval_method (name : Str) (target : Par) (args : list Par) (env : Env Par) : Eval Par :=
  match method_of name with
  | None => fail (ReduceError UnimplementedMethod)
  | Some (m, arity) =>
      _ ←$ check_arity name arity (length args);
      let arg i := nth i args par_nil in
      match m with
      | MNth =>
          _ ←$ pay nth_method_call_cost;
          i ←$ eval_to_long (arg 0%nat) env;
          nth ←$ from_result (restrict_to_int i);
          v ←$ eval_single_expr target env;
          nth_value v nth
      | MToByteArray =>
          substituted ←$ substitute_and_charge target 0 env;
          _ ←$ pay (len (wire substituted));
          expr_value (GByteArray (wire substituted))
      | _ =>
          base ←$ eval_single_expr target env;
          match m with
          | MToInt => to_int_value name base
          | MToBigInt => to_big_int_value name base
          | MHexToBytes | MBytesToHex | MToUtf8Bytes => bytes_value name m base
          | MUnion => other ←$ eval_single_expr (arg 0%nat) env; union_value name base other
          | MDiff => other ←$ eval_single_expr (arg 0%nat) env; diff_value name base other
          | MAdd => element ←$ eval_expr (arg 0%nat) env; add_value name base element
          | MDelete => element ←$ eval_expr (arg 0%nat) env; delete_value name base element
          | MContains => element ←$ eval_expr (arg 0%nat) env; contains_value name base element
          | MGet => key ←$ eval_expr (arg 0%nat) env; get_value name base key par_nil
          | MGetOrElse =>
              key ←$ eval_expr (arg 0%nat) env; dflt ←$ eval_expr (arg 1%nat) env; get_value name base key dflt
          | MSet => key ←$ eval_expr (arg 0%nat) env; value ←$ eval_expr (arg 1%nat) env; set_value name base key value
          | MKeys => keys_value name base
          | MSize => size_value name base
          | MLength => length_value name base
          | MSlice =>
              from_i ←$ eval_to_long (arg 0%nat) env; until_i ←$ eval_to_long (arg 1%nat) env;
              slice_value name base from_i until_i
          | MTake => n_i ←$ eval_to_long (arg 0%nat) env; take_value name base n_i
          | MToList => to_list_value name target base
          | MToSet => to_set_value name target base
          | MToMap => to_map_value name target base
          | MNth | MToByteArray => sr_err Panicked
          end
      end
  end.

Definition eval_method_call (em : EMethodF Par) (env : Env Par) : Eval Par :=
  _ ←$ pay method_call_cost;
  evaled_target ←$ eval_expr (em_target em) env;
  evaled_args ←$ sr_map (λ a, eval_expr a env) (em_arguments em);
  eval_method (em_method_name em) evaled_target evaled_args env.

Definition eval_element (p : Par) (env : Env Par) : Eval Par :=
  v ←$ eval_expr p env; sr_ret (update_locally_free v).

(** [==] and [!=]. *)
Definition eval_equal (p1 p2 : Par) (env : Env Par) : Eval bool :=
  v1 ←$ eval_expr p1 env;
  v2 ←$ eval_expr p2 env;
  sv1 ←$ substitute_and_charge v1 0 env;
  sv2 ←$ substitute_and_charge v2 0 env;
  _ ←$ pay (Z.min (len (wire sv1)) (len (wire sv2)));
  sr_ret (par_eqb sv1 sv2).

Definition eval_interpolation (v1 v2 : Expr) (env : Env Par) : Eval Expr :=
  match v1, v2 with
  | GString lhs, EMap m =>
      if is_empty lhs && is_empty (pm_kvs m) then sr_ret (GString lhs)
      else
        pairs ←$ sr_map (λ kv, key_expr ←$ eval_single_expr kv.1 env; value_expr ←$ eval_single_expr kv.2 env;
                                from_result (eval_to_string_pair bigint_to_string key_expr value_expr)) (pm_kvs m);
        _ ←$ pay (interpolate_cost (len lhs) (len (pm_kvs m)));
        sr_ret (GString (interpolate lhs pairs))
  | GString _, o => fail (OperatorExpectedError EPercentPercent TMap (typ o))
  | o, _ => fail (OperatorNotDefined EPercentPercent (typ o))
  end.

Definition eval_bin_op (op : BinOp) (p1 p2 : Par) (env : Env Par) : Eval Expr :=
  match op with
  | EMult | EDiv | EMod | EPlus | EMinus =>
      v1 ←$ eval_single_expr p1 env; v2 ←$ eval_single_expr p2 env; arith_values op v1 v2
  | ELt | ELte | EGt | EGte =>
      v1 ←$ eval_single_expr p1 env; v2 ←$ eval_single_expr p2 env; relop_values op v1 v2
  | EEq => b ←$ eval_equal p1 p2 env; sr_ret (GBool b)
  | ENeq => b ←$ eval_equal p1 p2 env; sr_ret (GBool (negb b))
  | EAnd =>
      b1 ←$ eval_to_bool p1 env; b2 ←$ eval_to_bool p2 env; _ ←$ pay boolean_and_cost; sr_ret (GBool (b1 && b2))
  | EOr =>
      b1 ←$ eval_to_bool p1 env; b2 ←$ eval_to_bool p2 env; _ ←$ pay boolean_or_cost; sr_ret (GBool (b1 || b2))
  | EShortAnd =>
      b1 ←$ eval_to_bool p1 env;
      b2 ←$ (if b1 then eval_to_bool p2 env else sr_ret false);
      _ ←$ pay boolean_and_cost; sr_ret (GBool (b1 && b2))
  | EShortOr =>
      b1 ←$ eval_to_bool p1 env;
      b2 ←$ (if b1 then sr_ret true else eval_to_bool p2 env);
      _ ←$ pay boolean_or_cost; sr_ret (GBool (b1 || b2))
  | EMatches =>
      evaled_target ←$ eval_expr p1 env;
      subst_target ←$ substitute_and_charge evaled_target 0 env;
      subst_pattern ←$ substitute_and_charge p2 1 env;
      m ←$ from_result (spatial_match_result subst_target subst_pattern);
      sr_ret (GBool (bool_decide (is_Some m)))
  | EPercentPercent =>
      _ ←$ pay op_call_cost;
      v1 ←$ eval_single_expr p1 env; v2 ←$ eval_single_expr p2 env; eval_interpolation v1 v2 env
  | EPlusPlus =>
      _ ←$ pay op_call_cost;
      v1 ←$ eval_single_expr p1 env; v2 ←$ eval_single_expr p2 env; append_values v1 v2
  | EMinusMinus =>
      _ ←$ pay op_call_cost;
      v1 ←$ eval_single_expr p1 env; v2 ←$ eval_single_expr p2 env; diff_values v1 v2
  end.

Definition eval_expr_to_expr (expr : Expr) (env : Env Par) : Eval Expr :=
  match expr with
  | GBool _ | GInt _ | GBigInt _ | GString _ | GUri _ | GByteArray _ => sr_ret expr
  | ENot p => b ←$ eval_to_bool p env; sr_ret (GBool (negb b))
  | ENeg p =>
      v ←$ eval_single_expr p env;
      match v with
      | GInt hs => sr_ret (GInt (i64_wrap (- hs)))
      | GBigInt hs => _ ←$ pay (big_int_size (- hs)); sr_ret (GBigInt (- hs))
      | other => fail (NegationNotDefined (typ other))
      end
  | EBin op p1 p2 => eval_bin_op op p1 p2 env
  | EVar v => p ←$ eval_var v env; eval_single_expr p env
  | EList l =>
      evaled ←$ sr_map (λ p, eval_element p env) (el_ps l);
      sr_ret (EList (mkEList evaled (el_locally_free l) (el_connective_used l) None))
  | ETuple t =>
      evaled ←$ sr_map (λ p, eval_element p env) (et_ps t);
      sr_ret (ETuple (mkETuple evaled (et_locally_free t) (et_connective_used t)))
  | ESet s =>
      evaled ←$ sr_map (λ p, eval_element p env) (ps_ps s);
      sr_ret (cached_set evaled (ps_connective_used s) (ps_locally_free s) (ps_remainder s))
  | EMap m =>
      evaled ←$ sr_map (λ kv, k ←$ eval_element kv.1 env; v ←$ eval_element kv.2 env; sr_ret (k, v)) (pm_kvs m);
      sr_ret (cached_map evaled (pm_connective_used m) (pm_locally_free m) (pm_remainder m))
  | EMethod em => result_par ←$ eval_method_call em env; eval_single_expr result_par env
  end.

Definition eval_expr_to_par (expr : Expr) (env : Env Par) : Eval Par :=
  match expr with
  | EVar v => p ←$ eval_var v env; eval_expr p env
  | EMethod em => eval_method_call em env
  | _ => e ←$ eval_expr_to_expr expr env; sr_ret (from_expr e)
  end.

(** The loop of [eval_expr] over the expressions of a process. *)
Fixpoint eval_exprs (es : list Expr) (env : Env Par) (result : Par) : Eval Par :=
  match es with
  | [] => sr_ret result
  | e :: es => evaled ←$ eval_expr_to_par e env; eval_exprs es env (par_concat result evaled)
  end.
End Open.

Fixpoint eval_expr (depth : nat) (par : Par) (env : Env Par) : Eval Par :=
  match depth with
  | O => sr_err StackOverflow
  | S depth => eval_exprs (eval_expr depth) (eval_single_expr depth) (exprs par) env (put_exprs par [])
  end
with eval_single_expr (depth : nat) (par : Par) (env : Env Par) : Eval Expr :=
  match depth with
  | O => sr_err StackOverflow
  | S depth =>
      match single_expr par with
      | Some expr => eval_expr_to_expr (eval_expr depth) (eval_single_expr depth) expr env
      | None => fail (ReduceError ExpectedSingle)
      end
  end.
End Evaluator.
