(* ===== verification/EvalSpec.v ===== *)
(** * Evaluation terminates with values

    The outcome of [eval_expr] as the limit over the depth of recursion. *)

From S2P Require Import Prelude BTree Bytes Trace Ast ParOps Types Sorter SorterSpec Accounting Substitute BipartiteMatch ParCount Matcher Text Eval.

(** ** Limits

    A computation that is cut at a depth converges when it gives the same result
    at all larger depths and that is not the exhaustion of the depth. *)
Section Converge.
Context {S : Type}.
Notation Comp A := (nat → StateResult S A Stop).

Definition converges {A} (m : Comp A) (Q : A → Prop) (c : S) : Prop :=
  ∃ depth r, (∀ n, (depth ≤ n)%nat → m n c = r) ∧ r.2 ≠ Err StackOverflow ∧ ∀ a, r.2 = Ok a → Q a.

Lemma conv_ret {A} (a : A) Q c : Q a → converges (λ _, sr_ret a) Q c.
Proof. intros HQ. exists 0%nat, (c, Ok a). split_and!; [done..|]. by intros b [= <-]. Qed.
Lemma conv_err {A} (e : Stop) (Q : A → Prop) c : e ≠ StackOverflow → converges (λ _, sr_err e) Q c.
Proof. intros He. exists 0%nat, (c, Err e). split_and!; [done|simpl; congruence|done]. Qed.
Lemma conv_bind {A B} (m : Comp A) (k : nat → A → StateResult S B Stop) Q R c :
  converges m Q c → (∀ a c', Q a → converges (λ n, k n a) R c') → converges (λ n, sr_bind (m n) (k n)) R c.
Proof.
  intros (d & [c1 [a|e]] & Hm & Hne & HQ) Hk.
  - destruct (Hk a c1 (HQ a eq_refl)) as (d' & r & Hr & Hne' & HR). exists (d + d')%nat, r. split; [|done].
    intros n Hn. unfold sr_bind. rewrite Hm by lia. apply Hr. lia.
  - exists d, (c1, Err e). split_and!; [|cbn [snd] in *; congruence|done]. intros n Hn. unfold sr_bind. by rewrite Hm.
Qed.
Lemma conv_mono {A} (m : Comp A) (Q R : A → Prop) c : (∀ a, Q a → R a) → converges m Q c → converges m R c.
Proof. intros H (d & r & ? & ? & HQ). exists d, r. split_and!; [done..|]. intros a Ha. by apply H, HQ. Qed.
(** One step down. *)
Lemma conv_S {A} (m : Comp A) Q c : converges (λ n, m (Datatypes.S n)) Q c → converges m Q c.
Proof.
  intros (d & r & Hr & H). exists (Datatypes.S d), r. split; [|done]. intros [|n] Hn; [lia|]. apply Hr. lia.
Qed.
Lemma conv_map {A B} (f : nat → A → StateResult S B Stop) (l : list A) Q c :
  (∀ a c', a ∈ l → converges (λ n, f n a) Q c') → converges (λ n, sr_map (f n) l) (Forall Q) c.
Proof.
  revert c. induction l as [|a l IH]; intros c Hf; cbn [sr_map]; [by apply conv_ret|].
  apply (conv_bind _ _ Q); [apply Hf; by left|]. intros b c1 Hb.
  apply (conv_bind _ _ (Forall Q)); [apply IH; intros; apply Hf; by right|]. intros bs c2 Hbs.
  apply conv_ret. by constructor.
Qed.
End Converge.

Notation tt_ok := (λ _, True).
Lemma conv_pay amount c : converges (λ _, pay amount) tt_ok c.
Proof.
  exists 0%nat, (pay amount c). split_and!; [done| |done]. unfold pay, lift. destruct (charge amount c) as [c' []]; done.
Qed.
Lemma conv_lift {A} (m : Charged A) c : converges (λ _, lift m) tt_ok c.
Proof.
  exists 0%nat, (lift m c). split_and!; [done| |done]. unfold lift. destruct (m c) as [c' []]; done.
Qed.
Lemma conv_fail {A} e (Q : A → Prop) c : converges (λ _, fail e) Q c.
Proof. by apply conv_err. Qed.
Lemma conv_from_result {A} (r : Result A RholangError) Q c : (∀ a, r = Ok a → Q a) → converges (λ _, from_result r) Q c.
Proof. intros H. destruct r as [a|e]; [by apply conv_ret, H|apply conv_fail]. Qed.

(** ** Values

    The expressions of a value are ground values and collections of values; its
    integers are 64 bit integers. *)
Definition value_head (e : Expr) : Prop :=
  match e with
  | GInt i => i64_range i
  | GBool _ | GBigInt _ | GString _ | GUri _ | GByteArray _ | EList _ | ETuple _ | ESet _ | EMap _ => True
  | _ => False
  end.
Inductive is_value : Par → Prop :=
| IsValue p : (∀ e, e ∈ exprs p → value_head e) → (∀ e q, e ∈ exprs p → q ∈ expr_children e → is_value q) → is_value p.
Definition value_expr (e : Expr) : Prop := value_head e ∧ ∀ q, q ∈ expr_children e → is_value q.

Lemma is_value_exprs p : is_value p ↔ ∀ e, e ∈ exprs p → value_expr e.
Proof.
  split.
  - inversion 1 as [? H1 H2]; subst. intros e He. split; [by apply H1|]. intros q Hq. by eapply H2.
  - intros H. constructor; intros e; [intros; by apply H|]. intros q He Hq. by apply (H e).
Qed.
Lemma is_value_expr e : value_expr e → is_value (from_expr e).
Proof. intros H. apply is_value_exprs. by intros e' ->%list_elem_of_singleton. Qed.
Lemma is_value_single p e : is_value p → single_expr p = Some e → value_expr e.
Proof.
  intros Hp H. apply single_expr_Some in H. rewrite is_value_exprs in Hp. apply Hp. rewrite H. by left.
Qed.
Lemma is_value_nil : is_value par_nil.
Proof. apply is_value_exprs. by intros e ?%elem_of_nil. Qed.
Lemma is_value_same_exprs p q : exprs p = exprs q → is_value p → is_value q.
Proof. rewrite !is_value_exprs. by intros <-. Qed.
Lemma is_value_concat p q : is_value p → is_value q → is_value (par_concat p q).
Proof. rewrite !is_value_exprs. intros Hp Hq e [He|He]%elem_of_app; auto. Qed.

Lemma is_value_sort p : is_value p → is_value (sort_par_term p).
Proof.
  induction 1 as [p Hh _ IH]. apply is_value_exprs. intros e He. destruct p as [ss rs ns es ms us bs cs lf cu].
  cbn [sort_par_term sort_par st_term exprs] in *. apply list_elem_of_fmap in He as (x & -> & Hx).
  apply elem_of_sort_scores, list_elem_of_fmap in Hx as (e & -> & He).
  cbn [sort_expr st_term]. specialize (Hh e He). specialize (λ q, IH e q He). split.
  - destruct e; done.
  - intros q Hq. rewrite expr_map_children in Hq. apply list_elem_of_fmap in Hq as (q0 & -> & Hq0). by apply IH.
Qed.

Lemma elem_of_par_set q ps : q ∈ ps_ps (par_set ps) → ∃ p, p ∈ ps ∧ q = sort_par_term p.
Proof.
  unfold par_set, sort_pars, sort_scored. cbn [ps_ps]. set (d := foldl _ [] ps).
  intros (x & -> & Hx)%list_elem_of_fmap. apply elem_of_sort_scores, list_elem_of_fmap in Hx as (p & -> & Hp).
  exists p. split; [|done]. assert (∀ acc, p ∈ foldl (λ deduped p, if par_contains deduped p then deduped else deduped ++ [p]) acc ps →
    p ∈ acc ∨ p ∈ ps) as H.
  { clear. induction ps as [|y ps IH]; intros acc; simpl; [tauto|]. intros [Hin|Hin]%IH; [|right; by right].
    destruct (par_contains acc y); [by left|]. apply elem_of_app in Hin as [ | ->%list_elem_of_singleton]; [by left|right; by left]. }
  destruct (H [] Hp) as [?%elem_of_nil|]; done.
Qed.
Lemma elem_of_set_slot k v m x : x ∈ set_slot m k v → x.1 ∈ k :: m.*1 ∧ x.2 ∈ v :: m.*2.
Proof.
  induction m as [|[ek ev] m IH]; cbn [set_slot]; [intros ->%list_elem_of_singleton; split; by left|].
  rewrite !fmap_cons. cbn [fst snd]. destruct (par_eqb ek k).
  - intros [->|Hx]%elem_of_cons; [split; [right; by left|by left]|].
    split; do 2 right; by apply list_elem_of_fmap_2.
  - intros [->|[H1 H2]%IH]%elem_of_cons; [split; right; by left|]. set_solver.
Qed.
Lemma elem_of_par_map q kvs : q ∈ pm_kvs (par_map kvs) →
  ∃ k v, k ∈ kvs.*1 ∧ v ∈ kvs.*2 ∧ q = (sort_par_term k, sort_par_term v).
Proof.
  unfold par_map, sort_pairs, sort_scored. cbn [pm_kvs]. set (d := foldl _ [] kvs).
  intros (x & -> & Hx)%list_elem_of_fmap. apply elem_of_sort_scores, list_elem_of_fmap in Hx as (kv & -> & Hkv).
  exists kv.1, kv.2. assert (∀ acc, kv ∈ foldl (λ map kv, set_slot map kv.1 kv.2) acc kvs →
    kv.1 ∈ acc.*1 ++ kvs.*1 ∧ kv.2 ∈ acc.*2 ++ kvs.*2) as H.
  { clear. induction kvs as [|y kvs IH]; intros acc; cbn [foldl].
    - intros H. rewrite !app_nil_r. split; by apply list_elem_of_fmap_2.
    - intros [H1 H2]%IH. rewrite !fmap_cons.
      assert (∀ z, z ∈ (set_slot acc y.1 y.2).*1 → z ∈ y.1 :: acc.*1) as S1
        by (intros z (x & -> & Hx)%list_elem_of_fmap; by apply elem_of_set_slot in Hx as [? _]).
      assert (∀ z, z ∈ (set_slot acc y.1 y.2).*2 → z ∈ y.2 :: acc.*2) as S2
        by (intros z (x & -> & Hx)%list_elem_of_fmap; by apply elem_of_set_slot in Hx as [_ ?]).
      apply elem_of_app in H1 as [H1%S1|H1], H2 as [H2%S2|H2]; set_solver. }
  destruct (H [] Hkv). split_and!; done.
Qed.

(** The values of a collection. *)
Lemma value_set ps cu lf r : Forall is_value ps → value_expr (ESet (mkParSet ps cu lf r)).
Proof. intros H. split; [done|]. by apply Forall_forall. Qed.
Lemma value_list ps lf cu r : Forall is_value ps → value_expr (EList (mkEList ps lf cu r)).
Proof. intros H. split; [done|]. by apply Forall_forall. Qed.
Lemma value_tuple ps lf cu : Forall is_value ps → value_expr (ETuple (mkETuple ps lf cu)).
Proof. intros H. split; [done|]. by apply Forall_forall. Qed.
Lemma value_map kvs cu lf r : Forall (λ kv, is_value kv.1 ∧ is_value kv.2) kvs → value_expr (EMap (mkParMap kvs cu lf r)).
Proof.
  intros H. split; [done|]. intros q (kv & Hq & Hkv)%list_elem_of_bind. rewrite Forall_forall in H.
  destruct (H kv Hkv). apply elem_of_cons in Hq as [-> | ->%list_elem_of_singleton]; done.
Qed.

(** ** Operations on values *)
Definition safe {A} (m : Eval A) (Q : A → Prop) : Prop := ∀ c, converges (λ _, m) Q c.
Lemma eval_safe_ret {A} (a : A) (Q : A → Prop) : Q a → safe (sr_ret a) Q.
Proof. intros H c. by apply conv_ret. Qed.
Lemma safe_fail {A} e (Q : A → Prop) : safe (fail e) Q.
Proof. intros c. apply conv_fail. Qed.
Lemma safe_pay {A} amount (k : unit → Eval A) Q : (∀ u, safe (k u) Q) → safe (sr_bind (pay amount) k) Q.
Proof. intros H c. apply (conv_bind (λ _, pay amount) (λ _, k) tt_ok); [apply conv_pay|]. intros u c' _. apply H. Qed.
Lemma safe_expr e : value_expr e → safe (expr_value e) is_value.
Proof. intros H. by apply eval_safe_ret, is_value_expr. Qed.
Lemma safe_int i : i64_range i → safe (int_value i) is_value.
Proof. intros H. apply safe_expr. split; [done|]. by intros q ?%elem_of_nil. Qed.

Create HintDb values.
#[export] Hint Resolve eval_safe_ret safe_fail safe_pay safe_expr safe_int is_value_expr is_value_nil i64_wrap_range : values.
Ltac ground_value := split; [done|by intros ? ?%elem_of_nil].
Lemma value_bool b : value_expr (GBool b).
Proof. ground_value. Qed.
Lemma value_big i : value_expr (GBigInt i).
Proof. ground_value. Qed.
Lemma value_string s : value_expr (GString s).
Proof. ground_value. Qed.
Lemma value_bytes s : value_expr (GByteArray s).
Proof. ground_value. Qed.
Lemma value_int i : i64_range i → value_expr (GInt i).
Proof. intros H. ground_value. Qed.
#[export] Hint Resolve value_bool value_big value_string value_bytes value_int : values.
Lemma len_range {A} (l : list A) : i64_range (len l).
Proof. apply i64_wrap_range. Qed.
#[export] Hint Resolve len_range : values.

(** The branches of a method or an operator. *)
Ltac value_cases := repeat case_match; simplify_eq/=; eauto 10 with values.

(** The elements of values are values. *)
Lemma value_list_inv l : value_expr (EList l) → Forall is_value (el_ps l).
Proof. intros [_ H]. by apply Forall_forall. Qed.
Lemma value_tuple_inv l : value_expr (ETuple l) → Forall is_value (et_ps l).
Proof. intros [_ H]. by apply Forall_forall. Qed.
Lemma value_set_inv l : value_expr (ESet l) → Forall is_value (ps_ps l).
Proof. intros [_ H]. by apply Forall_forall. Qed.
Lemma value_map_inv m : value_expr (EMap m) → Forall (λ kv, is_value kv.1 ∧ is_value kv.2) (pm_kvs m).
Proof.
  intros [_ H]. apply Forall_forall. intros kv Hkv. split; apply H; eapply elem_of_bind_in; try done; [by left|right; by left].
Qed.
Lemma par_set_value ps : Forall is_value ps → Forall is_value (ps_ps (par_set ps)).
Proof.
  rewrite !Forall_forall. intros H q (p & Hp & ->)%elem_of_par_set. by apply is_value_sort, H.
Qed.
Lemma par_map_value kvs : Forall (λ kv, is_value kv.1 ∧ is_value kv.2) kvs →
  Forall (λ kv, is_value kv.1 ∧ is_value kv.2) (pm_kvs (par_map kvs)).
Proof.
  rewrite !Forall_forall. intros H q (k & v & (x & -> & Hx)%list_elem_of_fmap & (y & -> & Hy)%list_elem_of_fmap & ->)%elem_of_par_map.
  split; apply is_value_sort; [by apply (H x)|by apply (H y)].
Qed.
Lemma value_par_set ps : Forall is_value ps → value_expr (ESet (par_set ps)).
Proof. intros H. apply value_set. by apply par_set_value. Qed.
Lemma value_par_map kvs : Forall (λ kv, is_value kv.1 ∧ is_value kv.2) kvs → value_expr (EMap (par_map kvs)).
Proof. intros H. apply value_map. by apply par_map_value. Qed.
Lemma value_cached_set ps cu lf r : Forall is_value ps → value_expr (cached_set ps cu lf r).
Proof. intros H. apply value_set. by apply par_set_value. Qed.
Lemma value_cached_map kvs cu lf r : Forall (λ kv, is_value kv.1 ∧ is_value kv.2) kvs → value_expr (cached_map kvs cu lf r).
Proof. intros H. apply value_map. by apply par_map_value. Qed.
Lemma value_make_tuple k v : is_value k → is_value v → is_value (make_tuple k v).
Proof. intros Hk Hv. apply is_value_expr, value_tuple. exact (Forall_cons_2 _ _ _ Hk (Forall_cons_2 _ _ _ Hv (Forall_nil_2 _))). Qed.
Lemma Forall_filter {A} (Q : A → Prop) (R : A → Prop) `{∀ x, Decision (R x)} l : Forall Q l → Forall Q (filter R l).
Proof. rewrite !Forall_forall. intros Hl x [_ Hx]%list_elem_of_filter. by apply Hl. Qed.
#[export] Hint Resolve value_list_inv value_tuple_inv value_set_inv value_map_inv value_par_set value_par_map
  value_cached_set value_cached_map value_make_tuple value_list value_set value_map Forall_filter Forall_app_2 Forall_take Forall_drop : values.

Lemma quot_range l r : i64_range l → i64_range r → r ≠ 0 → ¬ (l = i64_min ∧ r = -1) → i64_range (Z.quot l r).
Proof.
  unfold i64_range. unfold_ints. intros Hl Hr H0 Hm.
  destruct (decide (r = -1)) as [->|Hr1].
  - replace (Z.quot l (-1)) with (- l) by (rewrite <- (Z.quot_opp_opp l (-1)) by lia; simpl; by rewrite Z.quot_1_r). lia.
  - destruct (decide (r = 1)) as [->|]; [rewrite Z.quot_1_r; lia|].
    assert (Z.abs (Z.quot l r) < 2 ^ 63) as H; [|lia].
    rewrite <- Z.quot_abs by done. apply Z.quot_lt_upper_bound; lia.
Qed.
Lemma rem_range l r : i64_range l → i64_range r → r ≠ 0 → i64_range (Z.rem l r).
Proof.
  unfold i64_range. unfold_ints. intros Hl Hr H0. pose proof (Z.rem_bound_abs l r H0). lia.
Qed.

Lemma arith_safe op v1 v2 : value_expr v1 → value_expr v2 → safe (arith_values op v1 v2) value_expr.
Proof.
  intros [H1 _] [H2 _]. unfold arith_values. destruct v1, v2; try apply safe_fail; cbn [value_head] in *.
  - unfold int_op. destruct op; try (apply safe_pay; intros _; apply eval_safe_ret, value_int, i64_wrap_range).
    + destruct (Z.eqb_spec i0 0); [apply safe_fail|]. destruct (Z.eqb_spec i i64_min), (Z.eqb_spec i0 (-1)); cbn [andb];
        try apply safe_fail; apply safe_pay; intros _; apply eval_safe_ret, value_int, quot_range; tauto.
    + destruct (Z.eqb_spec i0 0); [apply safe_fail|]. destruct (Z.eqb_spec i i64_min), (Z.eqb_spec i0 (-1)); cbn [andb];
        try apply safe_fail; apply safe_pay; intros _; apply eval_safe_ret, value_int, rem_range; tauto.
  - unfold big_int_op. destruct op; try (apply safe_pay; intros _; apply eval_safe_ret, value_big);
      destruct (Z.eqb_spec i0 0); try apply safe_fail; apply safe_pay; intros _; apply eval_safe_ret, value_big.
Qed.
Lemma relop_safe op v1 v2 : safe (relop_values op v1 v2) value_expr.
Proof. unfold relop_values. destruct v1, v2; try apply safe_fail; apply safe_pay; intros _; apply eval_safe_ret, value_bool. Qed.
Lemma append_safe v1 v2 : value_expr v1 → value_expr v2 → safe (append_values v1 v2) value_expr.
Proof.
  intros H1 H2. unfold append_values. destruct v1, v2; try apply safe_fail; apply safe_pay; intros _; apply eval_safe_ret;
    eauto with values.
Qed.
Lemma set_diff_value b o : Forall is_value (ps_ps b) → value_expr (ESet (set_diff b o)).
Proof. intros H. unfold set_diff. eauto with values. Qed.
Lemma diff_safe v1 v2 : value_expr v1 → safe (diff_values v1 v2) value_expr.
Proof.
  intros H1. unfold diff_values. destruct v1, v2; try apply safe_fail. apply safe_pay. intros _.
  apply eval_safe_ret, set_diff_value. by apply value_set_inv.
Qed.

Section Methods.
Context (name : Str).
Lemma vec_get_value ps i p : Forall is_value ps → vec_get ps i = Some p → is_value p.
Proof.
  intros H. unfold vec_get. destruct (_ <? _); [|done]. intros Hp. rewrite Forall_forall in H. apply H.
  by eapply list_elem_of_lookup_2.
Qed.
Lemma nth_safe v i : value_expr v → safe (nth_value v i) is_value.
Proof.
  intros Hv. unfold nth_value. destruct v; try apply safe_fail.
  - destruct (vec_get bs i) as [b|]; [|apply safe_fail]. apply safe_int.
    pose proof (u8_val_bound b). unfold i64_range. unfold_ints. lia.
  - destruct l as [ps lf cu r]. destruct (vec_get ps i) eqn:E; [|apply safe_fail]. apply eval_safe_ret.
    eapply vec_get_value; [|exact E]. exact (value_list_inv _ Hv).
  - destruct t as [ps lf cu]. destruct (vec_get ps i) eqn:E; [|apply safe_fail]. apply eval_safe_ret.
    eapply vec_get_value; [|exact E]. exact (value_tuple_inv _ Hv).
Qed.
Lemma union_safe v w : value_expr v → value_expr w → safe (union_value name v w) is_value.
Proof.
  intros Hv Hw. unfold union_value. destruct v, w; try apply safe_fail; apply safe_pay; intros _; apply safe_expr; eauto with values.
Qed.
Lemma diff_method_safe v w : value_expr v → safe (diff_value name v w) is_value.
Proof.
  intros Hv. unfold diff_value. destruct v, w; try apply safe_fail; apply safe_pay; intros _; apply safe_expr;
    [apply set_diff_value|]; eauto with values.
Qed.
Lemma add_safe v p : value_expr v → is_value p → safe (add_value name v p) is_value.
Proof.
  intros Hv Hp. unfold add_value. apply safe_pay. intros _. destruct v; try apply safe_fail. apply safe_expr, value_cached_set.
  apply Forall_app_2; [by apply value_set_inv|]. exact (Forall_cons_2 _ _ _ Hp (Forall_nil_2 _)).
Qed.
Lemma delete_safe v p : value_expr v → safe (delete_value name v p) is_value.
Proof.
  intros Hv. unfold delete_value. destruct v; try apply safe_fail; apply safe_pay; intros _; apply safe_expr; eauto with values.
Qed.
Lemma contains_safe v p : safe (contains_value name v p) is_value.
Proof.
  unfold contains_value. destruct v; try apply safe_fail; apply safe_pay; intros _; apply safe_expr; eauto with values.
Qed.
Lemma get_safe v key dflt : value_expr v → is_value dflt → safe (get_value name v key dflt) is_value.
Proof.
  intros Hv Hd. unfold get_value. destruct v; try apply safe_fail. apply safe_pay. intros _. apply eval_safe_ret.
  unfold map_get. destruct (List.find _ _) as [kv|] eqn:E; [|exact Hd]. apply List.find_some in E as [Hin _]. simpl.
  apply value_map_inv in Hv. rewrite Forall_forall in Hv. apply (Hv kv). by apply list_elem_of_In.
Qed.
Lemma set_slot_value kvs k v : Forall (λ kv, is_value kv.1 ∧ is_value kv.2) kvs → is_value k → is_value v →
  Forall (λ kv, is_value kv.1 ∧ is_value kv.2) (set_slot kvs k v).
Proof.
  intros H Hk Hv. induction H as [|[ek ev] kvs [H1 H2] Hk' IH]; cbn [set_slot].
  - apply Forall_cons_2; [exact (conj Hk Hv)|apply Forall_nil_2].
  - destruct (par_eqb ek k) eqn:E; (apply Forall_cons_2; [|assumption]); split; assumption.
Qed.
Lemma set_safe b k v : value_expr b → is_value k → is_value v → safe (set_value name b k v) is_value.
Proof.
  intros Hb Hk Hv. unfold set_value. apply safe_pay. intros _. destruct b; try apply safe_fail.
  apply safe_expr, value_par_map, set_slot_value; [by apply value_map_inv|exact Hk|exact Hv].
Qed.
Lemma keys_safe b : value_expr b → safe (keys_value name b) is_value.
Proof.
  intros Hb. unfold keys_value. apply safe_pay. intros _. destruct b; try apply safe_fail. apply safe_expr, value_par_set.
  apply Forall_fmap. eapply Forall_impl; [by apply value_map_inv|]. intros kv [H _]. exact H.
Qed.
Lemma size_safe b : safe (size_value name b) is_value.
Proof. unfold size_value. destruct b; try apply safe_fail; apply safe_pay; intros _; apply safe_int, len_range. Qed.
Lemma length_safe b : safe (length_value name b) is_value.
Proof. unfold length_value. apply safe_pay. intros _. destruct b; try apply safe_fail; apply safe_int, len_range. Qed.
Lemma slice_safe b i j : value_expr b → safe (slice_value name b i j) is_value.
Proof.
  intros Hb. unfold slice_value. apply safe_pay. intros _. unfold vec_take, vec_skip.
  destruct b; try apply safe_fail; apply safe_expr; eauto with values.
Qed.
Lemma take_safe b i : value_expr b → safe (take_value name b i) is_value.
Proof.
  intros Hb. unfold take_value. apply safe_pay. intros _. unfold vec_take.
  destruct b; try apply safe_fail; apply safe_expr; eauto with values.
Qed.
Lemma tuples_value kvs : Forall (λ kv, is_value kv.1 ∧ is_value kv.2) kvs →
  Forall is_value ((λ kv, make_tuple kv.1 kv.2) <$> kvs).
Proof. intros H. apply Forall_fmap. eapply Forall_impl; [exact H|]. intros kv [H1 H2]. by apply value_make_tuple. Qed.
Lemma to_list_safe t b : is_value t → value_expr b → safe (to_list_value name t b) is_value.
Proof.
  intros Ht Hb. unfold to_list_value.
  destruct b; try apply safe_fail; try (apply safe_pay; intros _); apply eval_safe_ret; try exact Ht; apply is_value_expr, value_list;
    [by apply value_set_inv|]. by apply tuples_value, value_map_inv.
Qed.
Lemma to_set_safe t b : is_value t → value_expr b → safe (to_set_value name t b) is_value.
Proof.
  intros Ht Hb. unfold to_set_value. destruct b; try apply safe_fail; [|by apply eval_safe_ret|].
  - apply safe_expr, value_cached_set. by apply value_list_inv.
  - apply safe_expr, value_par_set. by apply tuples_value, value_map_inv.
Qed.
Lemma unapply_value p kv : is_value p → unapply_tuple2 p = Some kv → is_value kv.1 ∧ is_value kv.2.
Proof.
  intros Hp. unfold unapply_tuple2. destruct (single_expr p) as [e|] eqn:E; [|done].
  pose proof (is_value_single p e Hp E) as He. intros H.
  destruct e as [| | | | | | | | | | |t| | |]; try discriminate H.
  destruct t as [[|a [|b [|? ?]]] lf cu]; try discriminate H. injection H as <-. destruct He as [_ He].
  split; apply He; [by left|right; by left].
Qed.
Lemma from_pairs_value ps kvs : Forall is_value ps → mapM unapply_tuple2 ps = Some kvs →
  Forall (λ kv, is_value kv.1 ∧ is_value kv.2) kvs.
Proof.
  intros H E. apply mapM_Some in E. induction E as [|p kv ps kvs Hp _ IH]; [constructor|].
  apply Forall_cons in H as [Hv H]. apply Forall_cons_2; [|by apply IH]. by eapply unapply_value.
Qed.
Lemma to_map_safe t b : is_value t → value_expr b → safe (to_map_value name t b) is_value.
Proof.
  intros Ht Hb. unfold to_map_value. destruct b; try apply safe_fail; [| |by apply eval_safe_ret].
  - destruct (mapM _ _) eqn:E; [|apply safe_fail]. apply safe_expr, value_par_map. eapply from_pairs_value; [|exact E].
    by apply value_list_inv.
  - destruct (mapM _ _) eqn:E; [|apply safe_fail]. apply safe_expr, value_par_map. eapply from_pairs_value; [|exact E].
    by apply value_set_inv.
Qed.
Lemma parse_range s v : parse_i64 s = Some v → i64_range v.
Proof.
  unfold parse_i64. destruct (match s with [] => _ | _ => _ end) as [w|]; [|done]. simpl.
  destruct (Z.leb_spec i64_min w), (Z.leb_spec w i64_max); simpl; try done. intros [= <-]. done.
Qed.
Lemma to_int_safe print b : value_expr b → safe (to_int_value print name b) is_value.
Proof.
  intros [Hb _]. unfold to_int_value. destruct b; try apply safe_fail; [by apply safe_int|..].
  all: apply safe_pay; intros _; destruct (parse_i64 _) eqn:E; [|apply safe_fail]; by eapply safe_int, parse_range.
Qed.
Lemma to_big_int_safe parse b : safe (to_big_int_value parse name b) is_value.
Proof.
  unfold to_big_int_value. destruct b; try apply safe_fail; [apply safe_pay; intros _|..]; try (apply safe_expr, value_big).
  apply safe_pay. intros _. destruct (parse s); [apply safe_expr, value_big|apply safe_fail].
Qed.
Lemma bytes_safe m b : safe (bytes_value name m b) is_value.
Proof.
  unfold bytes_value. destruct m, b; try apply safe_fail; apply safe_pay; intros _; try (apply safe_expr; eauto with values).
  destruct (hex_decode s) as [[bs|]|]; [apply safe_expr, value_bytes|apply safe_fail|]. intros c. by apply conv_err.
Qed.
End Methods.

(** ** The evaluator *)
Section Evaluator.
Context (wire : Par → list byte) (bigint_from_str : Str → option Z) (bigint_to_string : Z → Str) (env : Env Par).
Notation ev n := (eval_expr wire bigint_from_str bigint_to_string n).
Notation es n := (eval_single_expr wire bigint_from_str bigint_to_string n).
Notation to_expr n := (eval_expr_to_expr wire bigint_from_str bigint_to_string (ev n) (es n)).
Notation to_par n := (eval_expr_to_par wire bigint_from_str bigint_to_string (ev n) (es n)).

Definition good (p : Par) : Prop := ∀ c,
  converges (λ n, ev n p env) is_value c ∧ converges (λ n, es n p env) value_expr c.

Lemma exprs_conv l result c : (∀ e c, e ∈ l → converges (λ n, to_par n e env) is_value c) → is_value result →
  converges (λ n, eval_exprs wire bigint_from_str bigint_to_string (ev n) (es n) l env result) is_value c.
Proof.
  revert result c. induction l as [|e l IH]; intros result c Hl Hr; cbn [eval_exprs]; [by apply conv_ret|].
  apply (conv_bind _ _ is_value); [apply Hl; by left|]. intros v c1 Hv. apply IH; [intros; apply Hl; by right|].
  by apply is_value_concat.
Qed.
Lemma good_intro p :
  (∀ e c, e ∈ exprs p → converges (λ n, to_par n e env) is_value c) →
  (∀ e c, e ∈ exprs p → converges (λ n, to_expr n e env) value_expr c) → good p.
Proof.
  intros Hp He c. split; apply conv_S; cbn [eval_expr eval_single_expr].
  - apply exprs_conv; [done|]. apply is_value_exprs. by intros e ?%elem_of_nil.
  - destruct (single_expr p) as [e|] eqn:E; [|apply conv_fail]. apply He. apply single_expr_Some in E. rewrite E. by left.
Qed.

Lemma element_conv p c : good p → converges (λ n, eval_element (ev n) p env) is_value c.
Proof.
  intros Hp. apply (conv_bind _ _ is_value); [apply Hp|]. intros v c1 Hv. apply conv_ret.
  by eapply is_value_same_exprs; [|exact Hv].
Qed.
Lemma elements_conv ps c : (∀ q, q ∈ ps → good q) →
  converges (λ n, sr_map (λ p, eval_element (ev n) p env) ps) (Forall is_value) c.
Proof. intros H. apply (conv_map (λ n p, eval_element (ev n) p env)). intros p c' Hp. apply element_conv. by apply H. Qed.
Lemma pairs_conv kvs c : (∀ kv, kv ∈ kvs → good kv.1 ∧ good kv.2) →
  converges (λ n, sr_map (λ kv, k ←$ eval_element (ev n) kv.1 env; v ←$ eval_element (ev n) kv.2 env; sr_ret (k, v)) kvs)
    (Forall (λ kv, is_value kv.1 ∧ is_value kv.2)) c.
Proof.
  intros H. apply (conv_map (λ n kv, k ←$ eval_element (ev n) kv.1 env; v ←$ eval_element (ev n) kv.2 env; sr_ret (k, v))).
  intros kv c' Hkv. destruct (H kv Hkv) as [H1 H2].
  apply (conv_bind _ _ is_value); [by apply element_conv|]. intros k c1 Hk.
  apply (conv_bind _ _ is_value); [by apply element_conv|]. intros v c2 Hv. apply conv_ret. exact (conj Hk Hv).
Qed.
(** Ground values and collections. *)
Lemma collection_conv e c : value_head e → (∀ q, q ∈ expr_children e → good q) →
  converges (λ n, to_expr n e env) value_expr c.
Proof.
  intros Hh Hq. destruct e as [| | | | | | | | | |l|l|l|m|]; try contradiction Hh; cbn [eval_expr_to_expr expr_children] in *;
    try (apply conv_ret; eauto with values; ground_value).
  - apply (conv_bind _ _ (Forall is_value)); [by apply elements_conv|]. intros ps c1 Hps. by apply conv_ret, value_list.
  - apply (conv_bind _ _ (Forall is_value)); [by apply elements_conv|]. intros ps c1 Hps. by apply conv_ret, value_tuple.
  - apply (conv_bind _ _ (Forall is_value)); [by apply elements_conv|]. intros ps c1 Hps. by apply conv_ret, value_cached_set.
  - apply (conv_bind _ _ (Forall (λ kv, is_value kv.1 ∧ is_value kv.2))); [apply pairs_conv|].
    + intros kv Hkv. split; apply Hq; (eapply elem_of_bind_in; [exact Hkv|]); [by left|right; by left].
    + intros kvs c1 Hkvs. by apply conv_ret, value_cached_map.
Qed.
Lemma value_good p : is_value p → good p.
Proof.
  induction 1 as [p Hh _ IH]. assert (∀ e c, e ∈ exprs p → converges (λ n, to_expr n e env) value_expr c) as H.
  { intros e c He. apply collection_conv; [by apply Hh|]. intros q Hq. by apply (IH e). }
  apply good_intro; [|exact H]. intros e c He. specialize (Hh e He).
  assert (converges (λ n, x ←$ to_expr n e env; sr_ret (from_expr x)) is_value c) as Hc.
  { apply (conv_bind _ _ value_expr); [by apply H|]. intros x c1 Hx. apply conv_ret. by apply is_value_expr. }
  destruct e; try contradiction Hh; exact Hc.
Qed.

Lemma to_bool_conv p c : good p → converges (λ n, eval_to_bool (es n) p env) tt_ok c.
Proof.
  intros Hp. apply (conv_bind _ _ value_expr); [apply Hp|]. intros v c1 _.
  destruct v; try apply conv_fail. by apply conv_ret.
Qed.
Lemma to_long_conv p c : good p → converges (λ n, eval_to_long (es n) p env) i64_range c.
Proof.
  intros Hp. apply (conv_bind _ _ value_expr); [apply Hp|]. intros v c1 [Hv _].
  destruct v; try apply conv_fail. by apply conv_ret.
Qed.
Lemma substitute_conv p d c : converges (λ _, substitute_and_charge wire p d env) tt_ok c.
Proof. apply conv_lift. Qed.

Lemma nth_value_arg i args : Forall is_value args → is_value (nth i args par_nil).
Proof.
  intros H. destruct (nth_in_or_default i args par_nil) as [Hi| ->]; [|apply is_value_nil].
  rewrite Forall_forall in H. by apply H, list_elem_of_In.
Qed.
Lemma method_conv name target args c : is_value target → Forall is_value args →
  converges (λ n, eval_method wire bigint_from_str bigint_to_string (ev n) (es n) name target args env) is_value c.
Proof.
  intros Ht Ha. unfold eval_method. destruct (method_of name) as [[m arity]|]; [|apply conv_fail].
  apply (conv_bind _ _ tt_ok); [unfold check_arity; destruct (_ =? _)%nat; [by apply conv_ret|apply conv_fail]|]. intros _ c0 _.
  assert (∀ i, good (nth i args par_nil)) as Harg by (intros i; by apply value_good, nth_value_arg).
  pose proof (value_good _ Ht) as Hgt.
  assert (∀ (k : nat → Expr → Eval Par) c, (∀ base c, value_expr base → converges (λ n, k n base) is_value c) →
    converges (λ n, base ←$ es n target env; k n base) is_value c) as Hbase
    by (intros k c1 Hk; apply (conv_bind _ _ value_expr); [apply Hgt|intros b c2 Hb; by apply Hk]).
  assert (∀ i (k : nat → Par → Eval Par) c, (∀ v c, is_value v → converges (λ n, k n v) is_value c) →
    converges (λ n, v ←$ ev n (nth i args par_nil) env; k n v) is_value c) as Hev
    by (intros i k c1 Hk; apply (conv_bind _ _ is_value); [apply Harg|intros b c2 Hb; by apply Hk]).
  assert (∀ i (k : nat → Z → Eval Par) c, (∀ v c, i64_range v → converges (λ n, k n v) is_value c) →
    converges (λ n, v ←$ eval_to_long (es n) (nth i args par_nil) env; k n v) is_value c) as Hlong
    by (intros i k c1 Hk; apply (conv_bind _ _ i64_range); [by apply to_long_conv|intros b c2 Hb; by apply Hk]).
  destruct m; try (apply Hbase; intros base c1 Hb); try (apply Hev; intros a1 c2 Ha1); try (apply Hev; intros a2 c3 Ha2);
    try (apply Hlong; intros i1 c2 Hi1); try (apply Hlong; intros i2 c3 Hi2).
  - apply (conv_bind _ _ tt_ok); [apply conv_pay|]. intros _ c1 _. apply Hlong. intros i c2 Hi.
    apply (conv_bind _ _ tt_ok); [by apply conv_from_result|]. intros k c3 _. apply Hbase. intros v c4 Hv. by apply nth_safe.
  - by apply to_int_safe.
  - by apply to_big_int_safe.
  - apply bytes_safe.
  - apply bytes_safe.
  - apply bytes_safe.
  - apply (conv_bind _ _ tt_ok); [apply substitute_conv|]. intros s c1 _.
    apply (conv_bind _ _ tt_ok); [apply conv_pay|]. intros _ c2 _. apply conv_ret, is_value_expr, value_bytes.
  - apply (conv_bind _ _ value_expr); [apply Harg|]. intros o c2 Ho. by apply union_safe.
  - apply (conv_bind _ _ value_expr); [apply Harg|]. intros o c2 Ho. by apply diff_method_safe.
  - by apply add_safe.
  - by apply delete_safe.
  - apply contains_safe.
  - apply get_safe; [exact Hb|apply is_value_nil].
  - apply get_safe; [exact Hb|exact Ha2].
  - apply set_safe; [exact Hb|exact Ha1|exact Ha2].
  - by apply keys_safe.
  - apply size_safe.
  - apply length_safe.
  - by apply slice_safe.
  - by apply take_safe.
  - by apply to_list_safe.
  - by apply to_set_safe.
  - by apply to_map_safe.
Qed.

Lemma equal_conv p1 p2 c : good p1 → good p2 → converges (λ n, eval_equal wire (ev n) p1 p2 env) tt_ok c.
Proof.
  intros H1 H2. unfold eval_equal. apply (conv_bind _ _ is_value); [apply H1|]. intros v1 c1 _.
  apply (conv_bind _ _ is_value); [apply H2|]. intros v2 c2 _.
  apply (conv_bind _ _ tt_ok); [apply substitute_conv|]. intros s1 c3 _.
  apply (conv_bind _ _ tt_ok); [apply substitute_conv|]. intros s2 c4 _.
  apply (conv_bind _ _ tt_ok); [apply conv_pay|]. intros _ c5 _. by apply conv_ret.
Qed.
Lemma interpolation_conv v1 v2 c : value_expr v2 →
  converges (λ n, eval_interpolation bigint_to_string (es n) v1 v2 env) value_expr c.
Proof.
  intros H2. unfold eval_interpolation. destruct v1, v2; try apply conv_fail. destruct (_ && _); [apply conv_ret, value_string|].
  apply (conv_bind _ _ (Forall tt_ok)); [|intros ps c1 _; apply (conv_bind _ _ tt_ok); [apply conv_pay|intros _ c2 _; apply conv_ret, value_string]].
  apply (conv_map (λ n kv, key_expr ←$ es n kv.1 env; value_expr ←$ es n kv.2 env;
    from_result (eval_to_string_pair bigint_to_string key_expr value_expr))).
  intros kv c1 Hkv. apply value_map_inv in H2. rewrite Forall_forall in H2. destruct (H2 kv Hkv) as [Hk Hv].
  apply (conv_bind _ _ value_expr); [by apply value_good|]. intros k c2 _.
  apply (conv_bind _ _ value_expr); [by apply value_good|]. intros v c3 _. by apply conv_from_result.
Qed.

(** Both operands, then an operation on their values. *)
Lemma operands_conv p1 p2 (k : nat → Expr → Expr → Eval Expr) c : good p1 → good p2 →
  (∀ v1 v2 c, value_expr v1 → value_expr v2 → converges (λ n, k n v1 v2) value_expr c) →
  converges (λ n, v1 ←$ es n p1 env; v2 ←$ es n p2 env; k n v1 v2) value_expr c.
Proof.
  intros H1 H2 Hk. apply (conv_bind _ _ value_expr); [apply H1|]. intros v1 c1 Hv1.
  apply (conv_bind _ _ value_expr); [apply H2|]. intros v2 c2 Hv2. by apply Hk.
Qed.
Lemma bools_conv p1 (m : nat → bool → Eval bool) cost (f : bool → bool → bool) c : good p1 →
  (∀ b c, converges (λ n, m n b) tt_ok c) →
  converges (λ n, b1 ←$ eval_to_bool (es n) p1 env; b2 ←$ m n b1; _ ←$ pay cost; sr_ret (GBool (f b1 b2))) value_expr c.
Proof.
  intros H1 Hm. apply (conv_bind _ _ tt_ok); [by apply to_bool_conv|]. intros b1 c1 _.
  apply (conv_bind _ _ tt_ok); [apply Hm|]. intros b2 c2 _.
  apply (conv_bind _ _ tt_ok); [apply conv_pay|]. intros _ c3 _. apply conv_ret, value_bool.
Qed.
Lemma bin_op_conv op p1 p2 c : good p1 → good p2 →
  converges (λ n, eval_bin_op wire bigint_to_string (ev n) (es n) op p1 p2 env) value_expr c.
Proof.
  intros H1 H2. destruct op; cbn [eval_bin_op].
  1-5: apply operands_conv; [done..|]; intros; by apply arith_safe.
  1-4: apply operands_conv; [done..|]; intros; apply relop_safe.
  1, 2: apply (conv_bind _ _ tt_ok); [by apply equal_conv|]; intros b c1 _; apply conv_ret, value_bool.
  1, 2: apply (bools_conv _ (λ n _, eval_to_bool (es n) p2 env)); [done|]; intros; by apply to_bool_conv.
  - apply (bools_conv _ (λ n b1, if b1 : bool then eval_to_bool (es n) p2 env else sr_ret false)); [done|].
    intros [] c1; [by apply to_bool_conv|by apply conv_ret].
  - apply (bools_conv _ (λ n b1, if b1 : bool then sr_ret true else eval_to_bool (es n) p2 env)); [done|].
    intros [] c1; [by apply conv_ret|by apply to_bool_conv].
  - apply (conv_bind _ _ is_value); [apply H1|]. intros v c1 _.
    apply (conv_bind _ _ tt_ok); [apply substitute_conv|]. intros s1 c2 _.
    apply (conv_bind _ _ tt_ok); [apply substitute_conv|]. intros s2 c3 _.
    apply (conv_bind _ _ tt_ok); [by apply conv_from_result|]. intros m c4 _. apply conv_ret, value_bool.
  - apply (conv_bind _ _ tt_ok); [apply conv_pay|]. intros _ c1 _. apply operands_conv; [done..|]. intros.
    by apply interpolation_conv.
  - apply (conv_bind _ _ tt_ok); [apply conv_pay|]. intros _ c1 _. apply operands_conv; [done..|]. intros. by apply append_safe.
  - apply (conv_bind _ _ tt_ok); [apply conv_pay|]. intros _ c1 _. apply operands_conv; [done..|]. intros. by apply diff_safe.
Qed.

Context (Henv : ∀ k v, env_get env k = Some v → is_value v).
Lemma var_conv v c : converges (λ _, eval_var v env) is_value c.
Proof.
  apply (conv_bind _ _ tt_ok); [apply conv_pay|]. intros _ c1 _. destruct v as [level| | |]; try apply conv_fail.
  destruct (env_get env level) eqn:E; [|apply conv_fail]. apply conv_ret. by eapply Henv.
Qed.
Lemma method_call_conv em c : good (em_target em) → (∀ a, a ∈ em_arguments em → good a) →
  converges (λ n, eval_method_call wire bigint_from_str bigint_to_string (ev n) (es n) em env) is_value c.
Proof.
  intros Ht Ha. apply (conv_bind _ _ tt_ok); [apply conv_pay|]. intros _ c1 _.
  apply (conv_bind _ _ is_value); [apply Ht|]. intros t c2 Hv.
  apply (conv_bind _ _ (Forall is_value)).
  - apply (conv_map (λ n a, ev n a env)). intros a c3 Hin. by apply Ha.
  - intros args c3 Hargs. by apply method_conv.
Qed.
End Evaluator.

(** The integer literals of the expressions are 64 bit integers. *)
Inductive literals_ok : Par → Prop :=
| LiteralsOk p : (∀ i, GInt i ∈ exprs p → i64_range i) →
    (∀ e q, e ∈ exprs p → q ∈ expr_children e → literals_ok q) → literals_ok p.

Lemma eval_good wire bf bt env par : (∀ k v, env_get env k = Some v → is_value v) → literals_ok par → good wire bf bt env par.
Proof.
  intros Henv. induction 1 as [p Hl _ IH].
  assert (∀ e c, e ∈ exprs p → converges (λ n, eval_expr_to_expr wire bf bt (eval_expr wire bf bt n)
    (eval_single_expr wire bf bt n) e env) value_expr c) as H.
  { intros e c He. specialize (λ q, IH e q He).
    destruct e as [| | | | | |q|q|v|op q1 q2|l|l|l|m|em]; try (apply collection_conv; [by try apply Hl|by apply IH]);
      cbn [eval_expr_to_expr expr_children] in *.
    - apply (conv_bind _ _ tt_ok); [apply to_bool_conv, IH; by left|]. intros b c1 _. apply conv_ret, value_bool.
    - apply (conv_bind _ _ value_expr); [apply IH; by left|]. intros w c1 [Hw _]. destruct w; try apply conv_fail.
      + apply conv_ret, value_int, i64_wrap_range.
      + apply (conv_bind _ _ tt_ok); [apply conv_pay|]. intros _ c2 _. apply conv_ret, value_big.
    - apply (conv_bind _ _ is_value); [by apply var_conv|]. intros w c1 Hw. by apply value_good.
    - apply bin_op_conv; apply IH; [by left|right; by left].
    - apply (conv_bind _ _ is_value); [apply method_call_conv; [apply IH; by left|intros a Ha; apply IH; by right]|].
      intros w c1 Hw. by apply value_good. }
  apply good_intro; [|exact H]. intros e c He.
  assert (converges (λ n, x ←$ eval_expr_to_expr wire bf bt (eval_expr wire bf bt n) (eval_single_expr wire bf bt n) e env;
    sr_ret (from_expr x)) is_value c) as Hc.
  { apply (conv_bind _ _ value_expr); [by apply H|]. intros x c1 Hx. apply conv_ret. by apply is_value_expr. }
  specialize (λ q, IH e q He). destruct e as [| | | | | | | |v| | | | | |em]; try exact Hc; cbn [eval_expr_to_par expr_children] in *.
  - apply (conv_bind _ _ is_value); [by apply var_conv|]. intros w c1 Hw. by apply value_good.
  - apply method_call_conv; [apply IH; by left|]. intros a Ha. apply IH. by right.
Qed.

(** C3: Evaluation terminates with a value. For a process whose integer literals fit in 64 bits,
    in an environment of values, there is a depth of recursion beyond which [eval_expr] always has
    the same outcome; it is not a stack overflow, and when it is a success, all expressions of
    the result are ground values and collections of values, with integers that fit in 64 bits. *)
Theorem evaluation_terminates wire bigint_from_str bigint_to_string par env c :
  literals_ok par → (∀ k v, env_get env k = Some v → is_value v) →
  ∃ depth r, (∀ n, (depth ≤ n)%nat → eval_expr wire bigint_from_str bigint_to_string n par env c = r) ∧
    r.2 ≠ Err StackOverflow ∧ ∀ v, r.2 = Ok v → is_value v.
Proof. intros Hl Henv. by apply eval_good. Qed.

(** [x + 2], where [x] is 40. *)
Definition example_sum : Par := from_expr (EBin EPlus (from_expr (EVar (BoundVar 0))) (from_expr (GInt 2))).
Lemma evaluation_terminates_witness :
  ∃ depth r, (∀ n, (depth ≤ n)%nat →
      eval_expr (λ _, []) (λ _, None) (λ _, []) n example_sum (make_env [from_expr (GInt 40)]) (mkCost 100 0) = r) ∧
    r.2 ≠ Err StackOverflow ∧ ∀ v, r.2 = Ok v → is_value v.
Proof.
  apply (evaluation_terminates (λ _, []) (λ _, None) (λ _, []) example_sum (make_env [from_expr (GInt 40)])).
  - constructor; [by intros i ?%list_elem_of_singleton|]. intros e q ->%list_elem_of_singleton Hq.
    apply elem_of_cons in Hq as [-> | ->%list_elem_of_singleton].
    + constructor; [by intros i ?%list_elem_of_singleton|]. by intros e q ->%list_elem_of_singleton ?%elem_of_nil.
    + constructor; [intros i [= ->]%list_elem_of_singleton; split; vm_compute; discriminate|].
      by intros e q ->%list_elem_of_singleton ?%elem_of_nil.
  - intros k v Hv. unfold env_get in Hv. cbn in Hv. apply lookup_insert_Some in Hv as [[_ <-]|[_ Hv]];
      [|by rewrite lookup_empty in Hv]. apply is_value_expr, value_int. split; vm_compute; discriminate.
Defined.
