(* ===== verification/Reduce.v ===== *)
(** * Reduction

    The second half of [rholang/src/reduce.rs], with [rholang/src/dispatch.rs]
    and [rholang/src/storage.rs]: the terms of a process are resolved to
    effects, which are applied in order; a match in the tuple space dispatches a
    continuation, which is reduced in turn.  Resolving is pure but for the
    charges, and its concurrent form is a set of tasks ([Accounting]); a step
    budget bounds the dispatches of one evaluation.

    The tuple space is used through the class [SpaceOps]; the built-in
    processes are a parameter. *)

From Stdlib Require Import Strings.String.
From S2P Require Import Prelude BTree Bytes Trace HotStore SpaceMatcher NativeStore RSpace Ast ParOps Types Sorter SorterSpec Accounting Substitute Blake2b BipartiteMatch ParCount Matcher Text Eval.
Local Open Scope list_scope.

(** ** Wrappers: [models/src/runtime.rs] *)
Notation Random := Blake2b512Random.
Record ListParWithRandom := mkLPR {
  lpr_pars : list Par;
  lpr_random : Random;
}.
Record ParWithRandom := mkPWR {
  pwr_body : Par;
  pwr_random : Random;
}.
Inductive TaggedContinuation :=
| ParBody (pwr : ParWithRandom)
| ScalaBodyRef (r : Z)
| EmptyContinuation.
Record BindPattern := mkBindPattern {
  bp_patterns : list Par;
  bp_remainder : option Var;
  bp_free_count : Z;
}.

(** ** Matching of data *)
(** [RhoMatch::get]; an error of the matcher is no match. *)
Definition rho_match_get (pattern : BindPattern) (data : ListParWithRandom) : option ListParWithRandom :=
  match fold_match spatial_match (bp_remainder pattern) (lpr_pars data) (bp_patterns pattern) ∅ with
  | Ok ((caught_rem, free_map) :: _) =>
      let remainder_map := match bp_remainder pattern with
        | Some (FreeVar level) => <[level := from_expr (EList (mkEList caught_rem [] false None))]> free_map
        | _ => free_map
        end in
      Some (mkLPR ((λ i, Sorted_new (default par_nil (remainder_map !! Z.of_nat i))) <$> seq 0 (Z.to_nat (bp_free_count pattern)))
              (lpr_random data))
  | _ => None
  end.

(** ** Effects *)
Inductive OwnedTerm :=
| TSend (s : Send)
| TReceive (r : Receive)
| TNew (n : New)
| TMatch (m : Match)
| TBundle (b : Bundle)
| TExprVar (v : Var)
| TExprMethod (e : Expr).

Notation DataItem := (Par * ListParWithRandom * ListParWithRandom * bool)%type.
Inductive Effect :=
| EfPar (par : Par) (env : Env Par) (rand : Random)
| EfProduce (chan : Par) (data : ListParWithRandom) (persistent : bool)
| EfConsume (binds : list (BindPattern * Par)) (body : ParWithRandom) (persistent peek : bool)
| EfProducePeeks (data_list : list DataItem).

(** The generator of the [i]-th of [n] sibling terms; the conversions of the
    index to the width of the split can fail. *)
Definition split_rand (rand : Random) (i n : nat) : Result Random RholangError :=
  if (n =? 1)%nat then Ok rand
  else if (256 <? n)%nat then
    if Z.of_nat i <? 2 ^ 16 then Ok (split_short rand (Z.of_nat i)) else Err (ReduceError RandomSplit)
  else if Z.of_nat i <? 2 ^ 8 then Ok (split_byte rand (Z.of_nat i)) else Err (ReduceError RandomSplit).

Definition add_urn (env : Env Par) (urn : Str) (injections : list (Str * Par)) (urn_map : gmap Str Par) :
    Result (Env Par) RholangError :=
  match urn_map !! urn with
  | Some p => Ok (env_put env p)
  | None => match (list_to_map injections : gmap Str Par) !! urn with
            | Some p => Ok (env_put env p)
            | None => Err BugFoundError
            end
  end.
(** Fresh names for the variables that are not URIs. *)
Fixpoint alloc_names (count : nat) (env : Env Par) (rand : Random) : Env Par * Random :=
  match count with
  | O => (env, rand)
  | S count =>
      let (bytes, rand) := next rand in
      alloc_names count (env_put env (mkPar [] [] [] [] [] [GPrivate bytes] [] [] [] false)) rand
  end.
Definition alloc (count : Z) (urns : list Str) (injections : list (Str * Par)) (env : Env Par) (urn_map : gmap Str Par)
    (rand : Random) : Result (Env Par) RholangError * Random :=
  let (new_env, rand) := alloc_names (Z.to_nat (count - Z.of_nat (length urns))) env rand in
  (foldl (λ env urn, e ←? env; add_urn e urn injections urn_map) (Ok new_env) urns, rand).

(** The terms of a process, in the order in which they are reduced. *)
Definition flatten (par : Par) : list OwnedTerm :=
  (TSend <$> sends par) ++ (TReceive <$> receives par) ++ (TNew <$> news par) ++ (TMatch <$> matches par) ++
  (TBundle <$> bundles par) ++
  omap (λ e, match e with EVar v => Some (TExprVar v) | EMethod _ => Some (TExprMethod e) | _ => None end) (exprs par).

(** ** Resolution *)
Section Resolve.
Context (wire : Par → list byte) (bigint_from_str : Str → option Z) (bigint_to_string : Z → Str).
Context (urn_map : gmap Str Par) (depth : nat).
Notation eval_expr := (eval_expr wire bigint_from_str bigint_to_string depth).
Notation eval_single_expr := (eval_single_expr wire bigint_from_str bigint_to_string depth).
Notation substitute_and_charge := (substitute_and_charge wire).

Definition resolve_send (send : Send) (env : Env Par) (rand : Random) : Eval Effect :=
  _ ←$ pay send_eval_cost;
  eval_chan ←$ eval_expr (s_chan send) env;
  sub_chan ←$ substitute_and_charge eval_chan 0 env;
  unbundled ←$ match single_bundle sub_chan with
               | Some value => if negb (b_write_flag value) then fail (ReduceError NonWriteable) else sr_ret (b_body value)
               | None => sr_ret sub_chan
               end;
  data ←$ sr_map (λ d, eval_expr d env) (s_data send);
  subst_data ←$ sr_map (λ d, substitute_and_charge d 0 env) data;
  sr_ret (EfProduce (Sorted_new unbundled) (mkLPR (Sorted_new <$> subst_data) rand) (s_persistent send)).

Definition unbundle_receive (rb : ReceiveBind) (env : Env Par) : Eval Par :=
  eval_src ←$ eval_expr (rb_source rb) env;
  subst ←$ substitute_and_charge eval_src 0 env;
  match single_bundle subst with
  | Some value => if negb (b_read_flag value) then fail (ReduceError NonReadable) else sr_ret (b_body value)
  | None => sr_ret subst
  end.

Definition resolve_receive (receive : Receive) (env : Env Par) (rand : Random) : Eval Effect :=
  _ ←$ pay receive_eval_cost;
  binds ←$ sr_map (λ rb,
    q ←$ unbundle_receive rb env;
    subst_patterns ←$ sr_map (λ p, substitute_and_charge p 1 env) (rb_patterns rb);
    sr_ret (mkBindPattern (Sorted_new <$> subst_patterns) (rb_remainder rb) (rb_free_count rb), Sorted_new q))
    (r_binds receive);
  subst_body ←$ substitute_and_charge (r_body receive) 0 (shift env (r_bind_count receive));
  sr_ret (EfConsume binds (mkPWR (Sorted_new subst_body) rand) (r_persistent receive) (r_peek receive)).

Definition resolve_new (new : New) (env : Env Par) (rand : Random) : Eval Effect :=
  _ ←$ pay (new_bindings_cost (n_bind_count new));
  new_env ←$ from_result (alloc (n_bind_count new) (n_uri new) (n_injections new) env urn_map rand).1;
  sr_ret (EfPar (n_p new) new_env rand).

(** The first case that matches. *)
Fixpoint resolve_cases (target : Par) (cases : list MatchCase) (env : Env Par) (rand : Random) : Eval (option Effect) :=
  match cases with
  | [] => sr_ret None
  | case :: cases =>
      pattern ←$ substitute_and_charge (mc_pattern case) 1 env;
      m ←$ from_result (spatial_match_result target pattern);
      match m with
      | Some free_map =>
          let new_env := foldl (λ env e, env_put env (default par_nil (free_map !! Z.of_nat e))) env
                           (seq 0 (Z.to_nat (mc_free_count case))) in
          sr_ret (Some (EfPar (mc_source case) new_env rand))
      | None => resolve_cases target cases env rand
      end
  end.
Definition resolve_match (m : Match) (env : Env Par) (rand : Random) : Eval (option Effect) :=
  _ ←$ pay match_eval_cost;
  evaled_target ←$ eval_expr (m_target m) env;
  target ←$ substitute_and_charge evaled_target 0 env;
  resolve_cases target (m_cases m) env rand.

Definition resolve_term (term : OwnedTerm) (env : Env Par) (rand : Random) : Eval (option Effect) :=
  match term with
  | TSend s => e ←$ resolve_send s env rand; sr_ret (Some e)
  | TReceive r => e ←$ resolve_receive r env rand; sr_ret (Some e)
  | TNew n => e ←$ resolve_new n env rand; sr_ret (Some e)
  | TMatch m => resolve_match m env rand
  | TBundle b => sr_ret (Some (EfPar (b_body b) env rand))
  | TExprVar v => p ←$ eval_var v env; sr_ret (Some (EfPar p env rand))
  | TExprMethod e =>
      p ←$ eval_expr_to_par wire bigint_from_str bigint_to_string eval_expr eval_single_expr e env;
      sr_ret (Some (EfPar p env rand))
  end.

(** The sequential form of [resolve_children]. *)
Definition resolve_terms (terms : list OwnedTerm) (env : Env Par) (rand : Random) : Eval (list (option Effect)) :=
  sr_map (λ it, r ←$ from_result (split_rand rand it.1 (length terms)); resolve_term it.2 env r) (imap pair terms).
Definition resolve_children (par : Par) (env : Env Par) (rand : Random) : Eval (list Effect) :=
  let terms := flatten par in
  if 2 ^ 15 - 1 <? Z.of_nat (length terms) then fail (ReduceError TooManyTerms)
  else resolved ←$ resolve_terms terms env rand; sr_ret (omap id resolved).
End Resolve.

(** ** The tuple space *)
Notation RhoCont := (ContResult Par BindPattern TaggedContinuation).
Notation RhoData := (SpaceResult Par ListParWithRandom).
(** What the reducer asks of a tuple space. *)
Class SpaceOps (Sp : Type) := {
  so_produce : Par → ListParWithRandom → bool → StateResult Sp (option (RhoCont * list RhoData)) RholangError;
  so_consume : list Par → list BindPattern → TaggedContinuation → bool → gset nat →
    StateResult Sp (option (RhoCont * list RhoData)) RholangError;
}.
Notation Application := (option (TaggedContinuation * list DataItem * bool)).

Definition to_application (r : option (RhoCont * list RhoData)) : Application :=
  match r with
  | Some (cont, data) =>
      Some (cr_continuation cont,
            (λ d, (sp_channel d, matched_datum d, sp_removed_datum d, sp_persistent d)) <$> data, cr_peek cont)
  | None => None
  end.

(** [build_env]. *)
Definition build_env (data_list : list ListParWithRandom) : Env Par := make_env (data_list ≫= lpr_pars).

Section Reducer.
Context {Sp : Type} `{!SpaceOps Sp}.
Context (wire : Par → list byte) (bigint_from_str : Str → option Z) (bigint_to_string : Z → Str).
Context (urn_map : gmap Str Par) (mergeable_tag_name : Par) (depth : nat).

(** The interior state of the interpreter and of the space it runs on. *)
Record RState := mkRState {
  r_space : Sp;
  r_cost : CostAccounting;
  r_steps : Z;
  r_max_steps : Z;
  r_cancelled : bool;
  r_merge_chs : list Par;
}.
Notation Red A := (StateResult RState A Stop).

(** The handler of a built-in process, by its reference. *)
Context (system : Z → option (list ListParWithRandom → Red unit)).

Definition set_space (sp : Sp) (s : RState) : RState :=
  mkRState sp (r_cost s) (r_steps s) (r_max_steps s) (r_cancelled s) (r_merge_chs s).
Definition set_cost (c : CostAccounting) (s : RState) : RState :=
  mkRState (r_space s) c (r_steps s) (r_max_steps s) (r_cancelled s) (r_merge_chs s).
Definition set_steps (steps : Z) (s : RState) : RState :=
  mkRState (r_space s) (r_cost s) steps (r_max_steps s) (r_cancelled s) (r_merge_chs s).
Definition set_merge_chs (chs : list Par) (s : RState) : RState :=
  mkRState (r_space s) (r_cost s) (r_steps s) (r_max_steps s) (r_cancelled s) chs.

Definition on_cost {A} (m : Eval A) : Red A := sr_zoom r_cost set_cost m.
Definition on_space {A} (m : StateResult Sp A RholangError) : Red A :=
  sr_zoom r_space set_space (λ sp, match m sp with (sp', Ok a) => (sp', Ok a) | (sp', Err e) => (sp', Err (Failed e)) end).
Definition red_pay (amount : Z) : Red unit := on_cost (pay amount).

(** *** [ChargingRSpace] *)
Definition storage_cost_produce (channel : Par) (data : ListParWithRandom) : Z :=
  i64_wrap (len (wire channel) + sum_Z (λ p, len (wire p)) (lpr_pars data)).
Definition storage_cost_consume (wire_pattern : BindPattern → list byte) (channels : list Par) (patterns : list BindPattern)
    (continuation : TaggedContinuation) : Z :=
  i64_wrap (sum_Z (λ c, len (wire c)) channels + sum_Z (λ p, len (wire_pattern p)) patterns +
            match continuation with ParBody pwr => len (wire (pwr_body pwr)) | _ => 0 end).

(** The charges for the events of an operation on [n] channels. *)
Definition charge_events (n : Z) (persist : bool) (result : option (RhoCont * list RhoData)) : Red unit :=
  match result with
  | None => red_pay (event_storage_cost n)
  | Some (cont, _) =>
      _ ←$ (if persist then sr_ret () else red_pay (event_storage_cost n));
      red_pay (comm_event_storage_cost (len (cr_channels cont)))
  end.
Definition charging_produce (channel : Par) (data : ListParWithRandom) (persist : bool) : Red Application :=
  _ ←$ red_pay (storage_cost_produce channel data);
  result ←$ on_space (so_produce channel data persist);
  _ ←$ charge_events 1 persist result;
  sr_ret (to_application result).
Definition charging_consume (wire_pattern : BindPattern → list byte) (channels : list Par) (patterns : list BindPattern)
    (continuation : TaggedContinuation) (persist : bool) (peeks : gset nat) : Red Application :=
  _ ←$ red_pay (storage_cost_consume wire_pattern channels patterns continuation);
  result ←$ on_space (so_consume channels patterns continuation persist peeks);
  _ ←$ charge_events (len channels) persist result;
  sr_ret (to_application result).

(** *** Steps and mergeable channels *)
(** The guard of [dispatch_owned] and of [apply_effect_spawned]. *)
Definition take_step : Red unit := λ s,
  if r_cancelled s then (s, Err (Failed (ReduceError Cancelled)))
  else
    let step := i64_saturating_add (r_steps s) 1 in
    let s' := set_steps (i64_wrap (r_steps s + 1)) s in
    if r_max_steps s <? step then (s', Err (Failed (ReduceError StepBudget))) else (s', Ok ()).

Definition is_mergeable_channel (chan : Par) : bool :=
  match head (omap (λ e, match e with ETuple t => head (et_ps t) | _ => None end) (exprs chan)) with
  | Some h => par_eqb h mergeable_tag_name
  | None => false
  end.
Definition update_mergeable_channels (chan : Par) : Red unit :=
  sr_modify (λ s, if is_mergeable_channel chan && negb (par_contains (r_merge_chs s) chan)
                  then set_merge_chs (r_merge_chs s ++ [chan]) s else s).

(** A task of its own, whose panic is an error of the reduction. *)
Definition join_spawned (m : Red unit) : Red unit := λ s,
  match m s with
  | (s', Err Panicked) => (s', Err (Failed (ReduceError TaskPanicked)))
  | result => result
  end.

(** [RholangAndScalaDispatcher::dispatch]; [eval] is the reduction of a process. *)
Definition dispatch (eval : Par → Env Par → Random → Red unit) (continuation : TaggedContinuation)
    (data_list : list ListParWithRandom) : Red unit :=
  match continuation with
  | ParBody pwr =>
      match merge (pwr_random pwr :: (lpr_random <$> data_list)) with
      | Some merged => eval (pwr_body pwr) (build_env data_list) merged
      | None => sr_err Panicked
      end
  | ScalaBodyRef r => match system r with Some f => f data_list | None => sr_err (Failed (ReduceError (NoFunction r))) end
  | EmptyContinuation => sr_ret ()
  end.

Context (wire_pattern : BindPattern → list byte).

(** [apply_effect]; [reduce_par] is its first case. *)
Fixpoint apply_effect (fuel : nat) (effect : Effect) : Red unit :=
  match fuel with
  | O => sr_err StackOverflow
  | S fuel =>
      (* The continuation of a match, and what follows it. *)
      let after_match (application : Application) (persistent : bool) (again : Effect) : Red unit :=
        match application with
        | None => sr_ret ()
        | Some (continuation, data_list, peek) =>
            _ ←$ take_step;
            _ ←$ join_spawned
                   (dispatch (λ p env r, apply_effect fuel (EfPar p env r)) continuation ((λ d, d.1.1.2) <$> data_list));
            if persistent then _ ←$ take_step; join_spawned (apply_effect fuel again)
            else if peek then _ ←$ take_step; join_spawned (apply_effect fuel (EfProducePeeks data_list))
            else sr_ret ()
        end in
      match effect with
      | EfPar par env rand =>
          effects ←$ on_cost (resolve_children wire bigint_from_str bigint_to_string urn_map depth par env rand);
          sr_iter (apply_effect fuel) effects
      | EfProduce chan data persistent =>
          _ ←$ update_mergeable_channels chan;
          result ←$ charging_produce chan data persistent;
          after_match result persistent (EfProduce chan data true)
      | EfConsume binds body persistent peek =>
          let sources := binds.*2 in
          _ ←$ sr_iter update_mergeable_channels sources;
          let peeks := if peek then list_to_set (seq 0 (length sources)) else ∅ in
          result ←$ charging_consume wire_pattern sources binds.*1 (ParBody body) persistent peeks;
          after_match result persistent (EfConsume binds body true peek)
      | EfProducePeeks data_list =>
          sr_iter (λ d : DataItem, if d.2 then sr_ret () else apply_effect fuel (EfProduce d.1.1.1 d.1.2 false)) data_list
      end
  end.

(** [eval]: a fresh step counter. *)
Definition interpreter_eval (fuel : nat) (par : Par) (env : Env Par) (rand : Random) : Red unit :=
  _ ←$ sr_modify (λ s, mkRState (r_space s) (r_cost s) 0 (r_max_steps s) false (r_merge_chs s));
  apply_effect fuel (EfPar par env rand).
End Reducer.
#[global] Arguments RState : clear implicits.
