(* ===== verification/ReduceSpec.v ===== *)
(** * Reduction: concurrency, metering and fresh names

    Every computation of [Eval] and of the resolution in [Reduce] is a sequence
    of charges with a result; so the concurrent resolution of the terms of a
    process is a set of tasks ([Accounting]).  A relation kept by the steps of
    the reducer is kept by every reduction.  Two behaviours depart from this:
    the total of a failed reduction, and the names of nested [new]s. *)

From S2P Require Import Prelude BTree Bytes Trace HotStore SpaceMatcher NativeStore RSpace Ast ParOps Types Sorter SorterSpec Accounting Substitute Blake2b BipartiteMatch ParCount Matcher Text Eval Reduce.

(** ** Metered computations

    Resolving a term only charges and returns or fails: it is a task. *)
Definition metered {A} (m : Eval A) : Prop := ∃ charges r, ∀ c, m c = run_alone Failed charges r c.

Lemma metered_ret {A} (a : A) : metered (sr_ret a).
Proof. by exists [], (Ok a). Qed.
Lemma metered_err {A} e : metered (A := A) (sr_err e).
Proof. by exists [], (Err e). Qed.
Lemma metered_pay amount : metered (pay amount).
Proof.
  exists [amount], (Ok ()). intros c. unfold pay, lift. cbn [run_alone]. by destruct (charge amount c) as [c' [[]|e]].
Qed.
Lemma run_alone_app {A} l k (r : Result A Stop) c :
  run_alone Failed (l ++ k) r c =
  match run_alone Failed l (Ok ()) c with (c', Ok _) => run_alone Failed k r c' | (c', Err e) => (c', Err e) end.
Proof.
  revert c. induction l as [|a l IH]; intros c; cbn [app run_alone]; [done|]. by destruct (charge a c) as [c' [[]|e]].
Qed.
Lemma run_alone_result {A} l (r : Result A Stop) c :
  run_alone Failed l r c = match run_alone Failed l (Ok ()) c with (c', Ok _) => (c', r) | (c', Err e) => (c', Err e) end.
Proof. rewrite <- (app_nil_r l) at 1. by rewrite run_alone_app. Qed.
Lemma metered_bind {A B} (m : Eval A) (k : A → Eval B) : metered m → (∀ a, metered (k a)) → metered (sr_bind m k).
Proof.
  intros (l & r & Hm) Hk. destruct r as [a|e].
  - destruct (Hk a) as (l' & r' & Hk'). exists (l ++ l'), r'. intros c. unfold sr_bind.
    rewrite Hm, run_alone_result, run_alone_app. destruct (run_alone Failed l (Ok ()) c) as [c' [[]|e]]; [apply Hk'|done].
  - exists l, (Err e). intros c. unfold sr_bind. rewrite Hm, !(run_alone_result l (Err e)).
    by destruct (run_alone Failed l (Ok ()) c) as [c' [[]|e']].
Qed.
Lemma metered_map {A B} (f : A → Eval B) l : (∀ a, metered (f a)) → metered (sr_map f l).
Proof.
  intros Hf. induction l as [|a l IH]; cbn [sr_map]; [apply metered_ret|].
  apply metered_bind; [done|]. intros b. apply metered_bind; [done|]. intros bs. apply metered_ret.
Qed.
Lemma metered_from_result {A} (r : Result A RholangError) : metered (from_result r).
Proof. destruct r; [apply metered_ret|apply metered_err]. Qed.
Lemma metered_fail {A} e : metered (A := A) (fail e).
Proof. apply metered_err. Qed.
Lemma metered_substitute wire p d env : metered (substitute_and_charge wire p d env).
Proof.
  unfold substitute_and_charge, substitute_par_and_charge, lift, sr_bind. destruct (substitute_par p d env) as [q|e].
  - exists [len (wire q)], (Ok q). intros c. cbn [run_alone]. by destruct (charge _ c) as [c' [[]|e]].
  - exists [len (wire p)], (Err (Failed e)). intros c. cbn [run_alone]. by destruct (charge _ c) as [c' [[]|e']].
Qed.

Create HintDb metered.
#[export] Hint Resolve metered_ret metered_err metered_fail metered_pay metered_from_result metered_substitute : metered.
(** Follow the structure of a computation. *)
Ltac meter :=
  repeat first
    [ progress intros
    | apply metered_bind
    | apply metered_map
    | solve [eauto 1 with metered]
    | match goal with
      | |- metered (match ?x with _ => _ end) => destruct x
      | |- metered (if ?x then _ else _) => destruct x
      | |- metered (let '_ := ?x in _) => destruct x
      end ].

Section Values.
Context (name : Str).
Lemma metered_nth v i : metered (nth_value v i).
Proof. unfold nth_value, int_value, expr_value. meter. Qed.
Lemma metered_union v w : metered (union_value name v w).
Proof. unfold union_value, expr_value. meter. Qed.
Lemma metered_diff v w : metered (diff_value name v w).
Proof. unfold diff_value, expr_value. meter. Qed.
Lemma metered_add v w : metered (add_value name v w).
Proof. unfold add_value, expr_value. meter. Qed.
Lemma metered_delete v w : metered (delete_value name v w).
Proof. unfold delete_value, expr_value. meter. Qed.
Lemma metered_contains v w : metered (contains_value name v w).
Proof. unfold contains_value, expr_value. meter. Qed.
Lemma metered_get v k d : metered (get_value name v k d).
Proof. unfold get_value. meter. Qed.
Lemma metered_set v k d : metered (set_value name v k d).
Proof. unfold set_value, expr_value. meter. Qed.
Lemma metered_keys v : metered (keys_value name v).
Proof. unfold keys_value, expr_value. meter. Qed.
Lemma metered_size v : metered (size_value name v).
Proof. unfold size_value, int_value, expr_value. meter. Qed.
Lemma metered_length v : metered (length_value name v).
Proof. unfold length_value, int_value, expr_value. meter. Qed.
Lemma metered_slice v i j : metered (slice_value name v i j).
Proof. unfold slice_value, expr_value. meter. Qed.
Lemma metered_take v i : metered (take_value name v i).
Proof. unfold take_value, expr_value. meter. Qed.
Lemma metered_to_list t v : metered (to_list_value name t v).
Proof. unfold to_list_value. meter. Qed.
Lemma metered_to_set t v : metered (to_set_value name t v).
Proof. unfold to_set_value, expr_value. meter. Qed.
Lemma metered_to_map t v : metered (to_map_value name t v).
Proof. unfold to_map_value, expr_value. meter. Qed.
Lemma metered_to_int f v : metered (to_int_value f name v).
Proof. unfold to_int_value, int_value, expr_value. meter. Qed.
Lemma metered_to_big_int f v : metered (to_big_int_value f name v).
Proof. unfold to_big_int_value, expr_value. meter. Qed.
Lemma metered_bytes m v : metered (bytes_value name m v).
Proof. unfold bytes_value, expr_value. meter. Qed.
End Values.
#[export] Hint Resolve metered_nth metered_union metered_diff metered_add metered_delete metered_contains metered_get
  metered_set metered_keys metered_size metered_length metered_slice metered_take metered_to_list metered_to_set
  metered_to_map metered_to_int metered_to_big_int metered_bytes : metered.

Section Evaluator.
Context (wire : Par → list byte) (bigint_from_str : Str → option Z) (bigint_to_string : Z → Str).

Lemma metered_var v env : metered (eval_var v env).
Proof. unfold eval_var. meter. Qed.
Lemma metered_int_op op a b : metered (int_op op a b).
Proof. unfold int_op. meter. Qed.
Lemma metered_big_int_op op a b : metered (big_int_op op a b).
Proof. unfold big_int_op. meter. Qed.
Hint Resolve metered_var metered_int_op metered_big_int_op : metered.
Lemma metered_arith op v w : metered (arith_values op v w).
Proof. unfold arith_values. meter. Qed.
Lemma metered_relop op v w : metered (relop_values op v w).
Proof. unfold relop_values. meter. Qed.
Lemma metered_append v w : metered (append_values v w).
Proof. unfold append_values. meter. Qed.
Lemma metered_diff_values v w : metered (diff_values v w).
Proof. unfold diff_values. meter. Qed.
Hint Resolve metered_arith metered_relop metered_append metered_diff_values : metered.

Section Open.
Context (ev : Par → Env Par → Eval Par) (ev1 : Par → Env Par → Eval Expr).
Context (Hev : ∀ p env, metered (ev p env)) (Hev1 : ∀ p env, metered (ev1 p env)).
Lemma metered_bool p env : metered (eval_to_bool ev1 p env).
Proof. unfold eval_to_bool. meter. Qed.
Lemma metered_long p env : metered (eval_to_long ev1 p env).
Proof. unfold eval_to_long. meter. Qed.
Lemma metered_element p env : metered (eval_element ev p env).
Proof. unfold eval_element. meter. Qed.
Lemma metered_equal p q env : metered (eval_equal wire ev p q env).
Proof. unfold eval_equal. meter. Qed.
Hint Resolve metered_bool metered_long metered_element metered_equal : metered.
Lemma metered_method name p args env :
  metered (eval_method wire bigint_from_str bigint_to_string ev ev1 name p args env).
Proof. unfold eval_method, check_arity, expr_value. meter. Qed.
Hint Resolve metered_method : metered.
Lemma metered_call em env : metered (eval_method_call wire bigint_from_str bigint_to_string ev ev1 em env).
Proof. unfold eval_method_call. meter. Qed.
Lemma metered_interpolation v w env : metered (eval_interpolation bigint_to_string ev1 v w env).
Proof. unfold eval_interpolation. meter. Qed.
Hint Resolve metered_call metered_interpolation : metered.
Lemma metered_bin op p q env : metered (eval_bin_op wire bigint_to_string ev ev1 op p q env).
Proof. unfold eval_bin_op. meter. Qed.
Hint Resolve metered_bin : metered.
Lemma metered_expr e env : metered (eval_expr_to_expr wire bigint_from_str bigint_to_string ev ev1 e env).
Proof. unfold eval_expr_to_expr. meter. Qed.
Hint Resolve metered_expr : metered.
Lemma metered_par e env : metered (eval_expr_to_par wire bigint_from_str bigint_to_string ev ev1 e env).
Proof. unfold eval_expr_to_par. meter. Qed.
Lemma metered_exprs es env r : metered (eval_exprs wire bigint_from_str bigint_to_string ev ev1 es env r).
Proof. revert r. induction es as [|e es IH]; cbn [eval_exprs]; meter. apply metered_par. Qed.
End Open.

(** Evaluation is metered at every depth. *)
Lemma eval_metered depth :
  (∀ p env, metered (eval_expr wire bigint_from_str bigint_to_string depth p env)) ∧
  (∀ p env, metered (eval_single_expr wire bigint_from_str bigint_to_string depth p env)).
Proof.
  induction depth as [|depth [IH IH1]]; [by split; intros; apply metered_err|].
  split; intros p env; cbn [eval_expr eval_single_expr].
  - by apply metered_exprs.
  - destruct (single_expr p); [by apply metered_expr|apply metered_fail].
Qed.
End Evaluator.

(** ** Concurrent resolution *)
(** A task has the behaviour of a computation. *)
Definition behaves {A} (m : Eval A) (task : list Z * Result A Stop) : Prop :=
  ∀ c, m c = run_alone Failed task.1 task.2 c.

Lemma run_sequence_map {A B} (f : A → Eval B) l tasks :
  Forall2 behaves (f <$> l) tasks → ∀ c, sr_map f l c = run_sequence Failed tasks c.
Proof.
  revert tasks. induction l as [|a l IH]; intros tasks Ht c; inversion Ht as [|? t ? ts Hb Hts]; subst; [done|].
  cbn [sr_map run_sequence]. unfold sr_bind. rewrite Hb. destruct (run_alone _ _ _ c) as [c' [b|e]]; [|done].
  rewrite (IH ts) by done. by destruct (run_sequence _ _ c') as [c'' [bs|e]].
Qed.
Lemma metered_tasks {A B} (f : A → Eval B) l : (∀ a, metered (f a)) → ∃ tasks, Forall2 behaves (f <$> l) tasks.
Proof.
  intros Hf. induction l as [|a l [tasks IH]]; [by exists []|]. destruct (Hf a) as (charges & r & Ha).
  exists ((charges, r) :: tasks). by constructor.
Qed.

Section Resolve.
Context (wire : Par → list byte) (bigint_from_str : Str → option Z) (bigint_to_string : Z → Str).
Context (urn_map : gmap Str Par) (depth : nat).

Lemma metered_eval p env : metered (eval_expr wire bigint_from_str bigint_to_string depth p env).
Proof. apply eval_metered. Qed.
Hint Resolve metered_eval : metered.
Lemma metered_cases target cases env rand : metered (resolve_cases wire target cases env rand).
Proof. induction cases as [|case cases IH]; cbn [resolve_cases]; meter. Qed.
Hint Resolve metered_cases : metered.
Lemma metered_term term env rand :
  metered (resolve_term wire bigint_from_str bigint_to_string urn_map depth term env rand).
Proof.
  destruct term; cbn [resolve_term]; unfold resolve_send, resolve_receive, unbundle_receive, resolve_new, resolve_match; meter.
  apply metered_par; apply eval_metered.
Qed.

(** What the [i]-th task of [resolve_children] runs. *)
Definition term_task (terms : list OwnedTerm) (env : Env Par) (rand : Random) (it : nat * OwnedTerm) : Eval (option Effect) :=
  r ←$ from_result (split_rand rand it.1 (length terms));
  resolve_term wire bigint_from_str bigint_to_string urn_map depth it.2 env r.
End Resolve.

(** C5: The terms of a process can be resolved concurrently.  Each term is a
    sequence of charges with a result; however the charges of the tasks
    interleave on the shared balance, all tasks succeed, with the results
    [out], exactly when resolving the terms one after the other does, and the
    balance is then the same. *)
Theorem concurrent_resolution wire bigint_from_str bigint_to_string urn_map depth terms env rand :
  let computations := term_task wire bigint_from_str bigint_to_string urn_map depth terms env rand <$> imap pair terms in
  (∃ tasks, Forall2 behaves computations tasks) ∧
  ∀ tasks c schedule out,
    Forall2 behaves computations tasks → nonneg_tasks tasks → in_bounds c (charges_of tasks) →
    let (ts, c') := run_tasks Failed schedule (start <$> tasks) c in
    Forall finished ts →
    ts = (λ a, Finished (Ok a)) <$> out ↔
    resolve_terms wire bigint_from_str bigint_to_string urn_map depth terms env rand c = (c', Ok out).
Proof.
  intros computations. split.
  - apply metered_tasks. intros it. unfold term_task. apply metered_bind; [apply metered_from_result|]. intros r. apply metered_term.
  - intros tasks c schedule out Hb Hn Hc. pose proof (schedule_independent Failed tasks c schedule out Hn Hc) as H.
    unfold resolve_terms. rewrite (run_sequence_map _ _ tasks Hb). exact H.
Qed.

(** *** An example: two sends *)
Definition one_byte (p : Par) : list byte := [Byte.x00].
Definition nil_send : Send := mkSend par_nil [par_nil] false [] false.
Definition two_sends : list OwnedTerm := [TSend nil_send; TSend nil_send].
Definition no_bigint (s : Str) : option Z := None.
Definition no_text (z : Z) : Str := [].
Definition seed : Random := from_init [].
Definition sent (i : Z) : option Effect := Some (EfProduce (Sorted_new par_nil) (mkLPR [Sorted_new par_nil] (split_byte seed i)) false).
Definition send_tasks : list (list Z * Result (option Effect) Stop) := [([11; 1; 1], Ok (sent 0)); ([11; 1; 1], Ok (sent 1))].

Notation send_task := (term_task one_byte no_bigint no_text ∅ 2 two_sends env_new seed) (only parsing).
Lemma send_term_spec r c :
  resolve_term one_byte no_bigint no_text ∅ 2 (TSend nil_send) env_new r c =
  run_alone Failed [11; 1; 1] (Ok (Some (EfProduce (Sorted_new par_nil) (mkLPR [Sorted_new par_nil] r) false))) c.
Proof.
  assert (∀ c, substitute_and_charge one_byte par_nil 0 env_new c = run_alone Failed [1] (Ok par_nil) c) as Hsub.
  { intros c'. unfold substitute_and_charge, substitute_par_and_charge, lift, sr_bind.
    replace (substitute_par par_nil 0 env_new) with (Ok par_nil : Subst Par) by (vm_compute; reflexivity).
    cbn [run_alone]. change (len (one_byte par_nil)) with 1. by destruct (charge 1 c') as [? [[]|]]. }
  cbn [resolve_term]. unfold resolve_send, sr_bind, pay, lift. cbn [run_alone]. change send_eval_cost with 11.
  destruct (charge 11 c) as [c1 [[]|e]]; [|done].
  change (eval_expr one_byte no_bigint no_text 2 (s_chan nil_send) env_new c1) with (c1, Ok par_nil : Result Par Stop).
  cbv beta iota. rewrite Hsub. cbn [run_alone]. destruct (charge 1 c1) as [c2 [[]|e]]; [|done].
  change (single_bundle par_nil) with (None : option Bundle). cbv beta iota.
  change (s_data nil_send) with [par_nil]. cbn [sr_map]. unfold sr_bind, sr_ret.
  change (eval_expr one_byte no_bigint no_text 2 par_nil env_new c2) with (c2, Ok par_nil : Result Par Stop).
  cbv beta iota. cbn [sr_map]. unfold sr_bind, sr_ret. rewrite Hsub. cbn [run_alone].
  by destruct (charge 1 c2) as [c3 [[]|e]].
Qed.
Lemma sends_behave : Forall2 behaves (send_task <$> imap pair two_sends) send_tasks.
Proof. repeat constructor; intros c; unfold term_task; apply send_term_spec. Qed.

Lemma concurrent_resolution_witness :
  resolve_terms one_byte no_bigint no_text ∅ 2 two_sends env_new seed (mkCost 100 0) = (mkCost 74 26, Ok [sent 0; sent 1]).
Proof.
  destruct (concurrent_resolution one_byte no_bigint no_text ∅ 2 two_sends env_new seed) as [_ H].
  specialize (H send_tasks (mkCost 100 0) [0; 1; 0; 1; 0; 1; 0; 1]%nat [sent 0; sent 1] sends_behave).
  replace (run_tasks _ _ _ _) with ([Finished (Ok (sent 0)); Finished (Ok (sent 1))] : list (Task (option Effect) Stop), mkCost 74 26)
    in H by (cbv -[sent]; reflexivity).
  apply H.
  - intros t a Ht Ha. unfold send_tasks in Ht. set_unfold. destruct Ht as [-> | [-> | []]]; cbn [fst] in Ha; set_unfold; lia.
  - split; [|split]; vm_compute; try split; discriminate.
  - repeat constructor.
  - reflexivity.
Defined.

(** The charge of a failed process depends on the schedule.  Resolving two
    sends with a balance that does not suffice charges 24 or 25 in total,
    depending on how the two tasks interleave; the replay of a deploy compares
    this total with the recorded one. *)
Theorem failed_cost_depends_on_schedule :
  let computations := send_task <$> imap pair two_sends in
  ∃ tasks c schedule schedule',
    Forall2 behaves computations tasks ∧
    let (ts, c1) := run_tasks Failed schedule (start <$> tasks) c in
    let (ts', c2) := run_tasks Failed schedule' (start <$> tasks) c in
    Forall finished ts ∧ Forall finished ts' ∧ cost_total c1 = 24 ∧ cost_total c2 = 25 ∧
    (resolve_terms one_byte no_bigint no_text ∅ 2 two_sends env_new seed c).2 = Err (Failed OutOfPhlogistonsError).
Proof.
  exists send_tasks, (mkCost 23 0), [0; 0; 0; 0; 1; 1]%nat, [0; 1; 0; 0; 1; 1]%nat.
  split; [exact sends_behave|].
  cut (resolve_terms one_byte no_bigint no_text ∅ 2 two_sends env_new seed (mkCost 23 0) =
       run_sequence Failed send_tasks (mkCost 23 0)).
  { intros ->. cbv -[sent]. repeat split; repeat constructor. }
  unfold resolve_terms. apply run_sequence_map, sends_behave.
Qed.

(** ** Fresh names *)
Definition new_one (p : Par) : Par := mkPar [] [] [mkNew 1 p [] [] []] [] [] [] [] [] [] false.
Definition private (id : list byte) : Par := mkPar [] [] [] [] [] [GPrivate id] [] [] [] false.

(** C36: Nested [new]s bind the same name.  In [new x in { new y in P }] the
    generator is not advanced past the name of [x] before the body is reduced,
    so [P] runs with [x] and [y] bound to one unforgeable name. *)
Theorem nested_new_shares_name wire bigint_from_str bigint_to_string urn_map depth env rand p :
  let resolve := resolve_children wire bigint_from_str bigint_to_string urn_map depth in
  let name := private (next rand).1 in
  resolve (new_one (new_one p)) env rand (mkCost 100 0) =
    (mkCost 88 12, Ok [EfPar (new_one p) (env_put env name) rand]) ∧
  resolve (new_one p) (env_put env name) rand (mkCost 88 12) =
    (mkCost 76 24, Ok [EfPar p (env_put (env_put env name) name) rand]).
Proof.
  intros resolve name. unfold name. destruct (next rand) as [bytes rand'] eqn:Hn.
  assert (∀ q env c, resolve (new_one q) env rand c =
    match pay 12 c with
    | (c', Ok _) => (c', Ok [EfPar q (env_put env (private bytes)) rand])
    | (c', Err e) => (c', Err e)
    end) as H.
  { intros q env' c. cbv -[pay next env_put]. destruct (pay 12 c) as [c' [[]|e]]; [|done]. by rewrite Hn. }
  rewrite !H. split; reflexivity.
Qed.

(** ** Relations kept by a reduction *)
Section Keeps.
Context {Sp : Type} `{!SpaceOps Sp}.
Context (wire : Par → list byte) (bigint_from_str : Str → option Z) (bigint_to_string : Z → Str).
Context (urn_map : gmap Str Par) (mergeable_tag_name : Par) (depth : nat).
Context (system : Z → option (list ListParWithRandom → StateResult (RState Sp) unit Stop)) (wire_pattern : BindPattern → list byte).
Context (R : RState Sp → RState Sp → Prop) `{!PreOrder R}.

Definition keeps {A} (m : StateResult (RState Sp) A Stop) : Prop := ∀ s s' a, m s = (s', Ok a) → R s s'.

Lemma red_keeps_ret {A} (a : A) : keeps (sr_ret a).
Proof. intros s s' b [= -> _]. reflexivity. Qed.
Lemma red_keeps_err {A} e : keeps (A := A) (sr_err e).
Proof. intros s s' b [=]. Qed.
Lemma red_keeps_bind {A B} (m : StateResult (RState Sp) A Stop) (k : A → StateResult (RState Sp) B Stop) :
  keeps m → (∀ a, keeps (k a)) → keeps (sr_bind m k).
Proof.
  intros Hm Hk s s' b. unfold sr_bind. destruct (m s) as [s1 [a|e]] eqn:E1; [|done]. intros E2.
  transitivity s1; [by eapply Hm|by eapply Hk].
Qed.
Lemma red_keeps_iter {A} (f : A → StateResult (RState Sp) unit Stop) l : (∀ a, keeps (f a)) → keeps (sr_iter f l).
Proof. intros Hf. induction l as [|a l IH]; cbn [sr_iter]; [apply red_keeps_ret|by apply red_keeps_bind]. Qed.
Lemma red_keeps_join m : keeps m → keeps (join_spawned m).
Proof. intros Hm s s' a. unfold join_spawned. destruct (m s) as [s1 [b|[]]] eqn:E1; intros [= -> <-]. by eapply Hm. Qed.

Context (Hpay : ∀ amount, keeps (red_pay amount)) (Hspace : ∀ sp s, R s (set_space sp s)).
Context (Hstep : keeps take_step) (Hmerge : ∀ chs s, R s (set_merge_chs chs s)).
Context (Hsystem : ∀ r f data, system r = Some f → keeps (f data)).

Lemma red_keeps_metered {A} (m : Eval A) : metered m → keeps (on_cost m).
Proof.
  intros (l & r & Hm). cut (keeps (on_cost (run_alone Failed l r))).
  { intros H s s' a. unfold on_cost, sr_zoom. rewrite Hm. apply H. }
  clear Hm. induction l as [|x l IH]; intros s s' a.
  - unfold on_cost, sr_zoom. cbn. intros [= <- ->]. destruct s. apply reflexivity.
  - unfold on_cost, sr_zoom. cbn [run_alone]. destruct (charge x (r_cost s)) as [c [[]|e]] eqn:Ec; [|done]. intros E2.
    assert (R s (set_cost c s)) as H1. { apply (Hpay x s _ ()). unfold red_pay, on_cost, sr_zoom, pay, lift. by rewrite Ec. }
    transitivity (set_cost c s); [done|]. apply (IH _ _ a). unfold on_cost, sr_zoom. exact E2.
Qed.
Lemma red_keeps_on_space {A} (m : StateResult Sp A RholangError) : keeps (on_space m).
Proof. intros s s' a. unfold on_space, sr_zoom. destruct (m (r_space s)) as [sp [b|e]]; intros [= <- _]. apply Hspace. Qed.
Lemma red_keeps_events n persist result : keeps (charge_events n persist result).
Proof.
  unfold charge_events. destruct result as [[cont data]|]; [|done].
  apply red_keeps_bind; [destruct persist; [apply red_keeps_ret|done]|done].
Qed.
Lemma red_keeps_mergeable chan : keeps (update_mergeable_channels mergeable_tag_name chan).
Proof. intros s s' a. unfold update_mergeable_channels, sr_modify. intros [= <- _]. destruct (_ && _); [apply Hmerge|reflexivity]. Qed.
Lemma red_keeps_produce chan data persist : keeps (charging_produce wire chan data persist).
Proof.
  unfold charging_produce. apply red_keeps_bind; [done|]. intros _. apply red_keeps_bind; [apply red_keeps_on_space|]. intros result.
  apply red_keeps_bind; [apply red_keeps_events|]. intros _. apply red_keeps_ret.
Qed.
Lemma red_keeps_consume channels patterns k persist peeks :
  keeps (charging_consume wire wire_pattern channels patterns k persist peeks).
Proof.
  unfold charging_consume. apply red_keeps_bind; [done|]. intros _. apply red_keeps_bind; [apply red_keeps_on_space|]. intros result.
  apply red_keeps_bind; [apply red_keeps_events|]. intros _. apply red_keeps_ret.
Qed.
Lemma red_keeps_dispatch eval k data : (∀ p env r, keeps (eval p env r)) → keeps (dispatch system eval k data).
Proof.
  intros He. unfold dispatch. destruct k as [pwr|r|]; [| |apply red_keeps_ret].
  - destruct (merge _); [done|apply red_keeps_err].
  - destruct (system r) eqn:Hr; [by eapply Hsystem|apply red_keeps_err].
Qed.
Lemma metered_children par env rand :
  metered (resolve_children wire bigint_from_str bigint_to_string urn_map depth par env rand).
Proof.
  unfold resolve_children, resolve_terms. destruct (_ <? _); [apply metered_fail|]. apply metered_bind; [|intros; apply metered_ret].
  apply metered_map. intros it. apply metered_bind; [apply metered_from_result|]. intros r. apply metered_term.
Qed.

(** A relation kept by the charges, the space, the steps and the built-in
    processes is kept by every reduction. *)
Lemma apply_effect_keeps fuel effect :
  keeps (apply_effect wire bigint_from_str bigint_to_string urn_map mergeable_tag_name depth system wire_pattern fuel effect).
Proof.
  revert effect. induction fuel as [|fuel IH]; intros effect; cbn [apply_effect]; [apply red_keeps_err|].
  destruct effect as [par env rand|chan data persistent|binds body persistent peek|data_list].
  - apply red_keeps_bind; [apply red_keeps_metered, metered_children|]. intros effects. by apply red_keeps_iter.
  - apply red_keeps_bind; [apply red_keeps_mergeable|]. intros _. apply red_keeps_bind; [apply red_keeps_produce|].
    intros [[[k l] p]|]; [|apply red_keeps_ret]. repeat (apply red_keeps_bind; [|intros _]); [done|by apply red_keeps_join, red_keeps_dispatch|].
    destruct persistent, p; try apply red_keeps_ret; (apply red_keeps_bind; [done|intros _; by apply red_keeps_join]).
  - apply red_keeps_bind; [apply red_keeps_iter, red_keeps_mergeable|]. intros _. apply red_keeps_bind; [apply red_keeps_consume|].
    intros [[[k l] p]|]; [|apply red_keeps_ret]. repeat (apply red_keeps_bind; [|intros _]); [done|by apply red_keeps_join, red_keeps_dispatch|].
    destruct persistent, p; try apply red_keeps_ret; (apply red_keeps_bind; [done|intros _; by apply red_keeps_join]).
  - apply red_keeps_iter. intros d. destruct (d.2); [apply red_keeps_ret|apply IH].
Qed.
End Keeps.

(** ** Accounting and the step budget *)
(** What a successful reduction may have done to the balance and the counter. *)
Definition accounts {Sp} (s s' : RState Sp) : Prop :=
  r_max_steps s' = r_max_steps s ∧
  r_steps s ≤ r_steps s' ≤ Z.max (r_steps s) (r_max_steps s) ∧
  i64_wrap (cost_total (r_cost s') - cost_total (r_cost s)) = i64_wrap (cost_value (r_cost s) - cost_value (r_cost s')).
(** The budget is not the largest number. *)
Definition budgeted {Sp} (s s' : RState Sp) : Prop := i64_min ≤ r_steps s → r_max_steps s < i64_max → accounts s s'.

Lemma wrap_eq a b : i64_wrap a = i64_wrap b ↔ ∃ k, a = b + k * 2 ^ 64.
Proof.
  unfold i64_wrap. split.
  - intros H. exists ((a + 2 ^ 63) / 2 ^ 64 - (b + 2 ^ 63) / 2 ^ 64).
    pose proof (Z.div_mod (a + 2 ^ 63) (2 ^ 64)). pose proof (Z.div_mod (b + 2 ^ 63) (2 ^ 64)). lia.
  - intros [k ->]. replace (b + k * 2 ^ 64 + 2 ^ 63) with (b + 2 ^ 63 + k * 2 ^ 64) by lia. by rewrite Z_mod_plus_full.
Qed.
Lemma wrap_shift a : ∃ k, i64_wrap a = a + k * 2 ^ 64.
Proof. apply wrap_eq, i64_wrap_id, i64_wrap_range. Qed.

#[export] Instance budgeted_preorder {Sp} : PreOrder (budgeted (Sp := Sp)).
Proof.
  split.
  - intros s _ _. split_and!; try lia. by rewrite !Z.sub_diag.
  - intros s t u H1 H2 Hm Hb. destruct (H1 Hm Hb) as (Hx & Hs & Hc). destruct H2 as (Hx' & Hs' & Hc'); [lia..|].
    split_and!; [congruence|lia..|]. apply wrap_eq in Hc as [k Hc], Hc' as [k' Hc']. apply wrap_eq. exists (k + k'). lia.
Qed.
Lemma pay_budgeted {Sp} amount : keeps (budgeted (Sp := Sp)) (red_pay amount).
Proof.
  intros s s' [] H _ _. unfold red_pay, on_cost, sr_zoom, pay, lift, charge in H.
  destruct (_ <? 0); [discriminate|]. destruct (Z.ltb_spec (i64_wrap (cost_value (r_cost s) - amount)) 0) as [|Hge]; [discriminate|].
  injection H as <-. unfold accounts. cbn [r_max_steps r_steps r_cost set_cost cost_total cost_value].
  split_and!; [done|lia..|]. rewrite Z.max_l by done.
  destruct (wrap_shift (cost_total (r_cost s) + amount)) as [k ->], (wrap_shift (cost_value (r_cost s) - amount)) as [k' ->].
  apply wrap_eq. exists (k + k'). lia.
Qed.
Lemma step_budgeted {Sp} : keeps (budgeted (Sp := Sp)) take_step.
Proof.
  intros s s' [] H Hm Hb. unfold take_step in H. destruct (r_cancelled s); [discriminate|].
  destruct (Z.ltb_spec (r_max_steps s) (i64_saturating_add (r_steps s) 1)) as [|Hle]; [discriminate|]. injection H as <-.
  unfold i64_saturating_add in Hle. unfold accounts. cbn [r_max_steps r_steps r_cost set_steps]. rewrite i64_wrap_id by (unfold i64_range; revert Hle Hm Hb; unfold_ints; lia).
  split_and!; [done|lia| |by rewrite !Z.sub_diag]. revert Hle Hm Hb. unfold_ints. lia.
Qed.


(** A space with one waiting continuation, which every message answers. *)
#[local] Instance echo_space : SpaceOps unit := {
  so_produce channel data persist := sr_ret
    (Some (mkContResult EmptyContinuation false [channel] [] false, [mkSpaceResult channel data data persist]));
  so_consume _ _ _ _ _ := sr_ret None;
}.
