(* ===== verification/NumberChannels.v ===== *)
(** * Number channels

    [rholang/src/merging.rs] and the mergeable store of
    [casper/src/runtime_manager.rs]: the differences of number channels made by
    the deploys of a block, and the store that keeps them for the merge. *)

From S2P Require Import Prelude BTree Bytes Trace HotStore Scodec SpaceMatcher NativeStore RSpace HistoryRepository Merger Ast ParOps Types Sorter SorterSpec Accounting Substitute Blake2b BipartiteMatch ParCount Matcher Text Eval Reduce.
Local Open Scope list_scope.

(** ** Bytes *)
Definition byte_of (z : Z) : byte := as_u8 (Z.to_nat (z mod 256)).
Definition byte_val (b : byte) : Z := Z.of_nat (u8_val b).

(** [to_be_bytes] of an integer of [w] bytes. *)
Fixpoint to_be_bytes (w : nat) (z : Z) : list byte :=
  match w with
  | O => []
  | S w => to_be_bytes w (z / 256) ++ [byte_of z]
  end.
Definition from_be_bytes (bytes : list byte) : Z := foldl (λ acc b, acc * 256 + byte_val b) 0 bytes.

Record NumberChannel := mkNumberChannel {
  nc_hash : hash;
  nc_diff : Z;
}.
Definition DeployMergeableData : Type := list NumberChannel.

Definition zigzag_encode (n : Z) : Z := Z.lxor (i64_wrap (Z.shiftl n 1)) (Z.shiftr n 63) mod 2 ^ 64.

(** [while n >= 0x80]: ten rounds are enough for 64 bits. *)
Fixpoint varint_loop (fuel : nat) (n : Z) : list byte :=
  match fuel with
  | O => [byte_of n]
  | S fuel =>
      if bool_decide (128 ≤ n) then byte_of (Z.lor (Z.land n 127) 128) :: varint_loop fuel (Z.shiftr n 7)
      else [byte_of n]
  end.
Definition varint_encode (n : Z) : list byte := varint_loop 10 n.
Definition vlong_encode (n : Z) : list byte := varint_encode (zigzag_encode n).

Definition uint16_be (n : Z) : list byte := to_be_bytes 2 n.
Definition int64_be (n : Z) : list byte := to_be_bytes 8 n.

(** [len() as u16] keeps the low two bytes of the length. *)
Definition var_size_u16 (bytes : list byte) : list byte := uint16_be (Z.of_nat (length bytes)) ++ bytes.

Definition encode_mergeable_key (state_hash : hash) (creator : list byte) (seq_num : Z) : list byte :=
  var_size_u16 state_hash ++ var_size_u16 creator ++ vlong_encode seq_num.

Definition encode_deploy_mergeable_data (data : DeployMergeableData) : list byte :=
  uint16_be (Z.of_nat (length data)) ++ (data ≫= λ ch, nc_hash ch ++ int64_be (nc_diff ch)).
Definition encode_deploy_mergeable_data_seq (seq : list DeployMergeableData) : list byte :=
  uint16_be (Z.of_nat (length seq)) ++ (seq ≫= encode_deploy_mergeable_data).

(** ** Decoding: the state is the input from the index on *)
Inductive MergeableError := UnexpectedEnd | InvalidStateHash.
Notation RB A := (StateResult (list byte) A MergeableError).

Definition read_bytes (n : nat) : RB (list byte) := λ bytes,
  if decide (length bytes < n)%nat then (bytes, Err UnexpectedEnd) else (drop n bytes, Ok (take n bytes)).
Definition read_u16 : RB nat := bs ←$ read_bytes 2; sr_ret (Z.to_nat (from_be_bytes bs)).
Definition read_i64 : RB Z := bs ←$ read_bytes 8; sr_ret (i64_wrap (from_be_bytes bs)).

Fixpoint read_entries {A} (n : nat) (m : RB A) : RB (list A) :=
  match n with
  | O => sr_ret []
  | S n => x ←$ m; l ←$ read_entries n m; sr_ret (x :: l)
  end.
Definition read_channel : RB NumberChannel :=
  h ←$ read_bytes 32; diff ←$ read_i64; sr_ret (mkNumberChannel h diff).
Definition read_deploy : RB DeployMergeableData := n ←$ read_u16; read_entries n read_channel.
Definition decode_deploy_mergeable_data_seq (bytes : list byte) : Result (list DeployMergeableData) MergeableError :=
  ((n ←$ read_u16; read_entries n read_deploy) bytes).2.

(** ** Differences *)
Notation Values := (gmap hash Z).

Definition diff_of (prev_vals end_vals : Values) : Values :=
  foldl (λ diff_map kv, match prev_vals !! kv.1 with
                        | Some prev => <[kv.1 := i64_wrap (kv.2 - prev)]> diff_map
                        | None => diff_map
                        end) ∅ (map_iter end_vals).
Definition set_vals (prev_vals end_vals : Values) : Values :=
  foldl (λ m kv, <[kv.1 := kv.2]> m) prev_vals (map_iter end_vals).
Fixpoint calculate_num_channel_diff (channel_values : list Values) (prev_vals : Values) : list Values :=
  match channel_values with
  | [] => []
  | end_vals :: rest => diff_of prev_vals end_vals :: calculate_num_channel_diff rest (set_vals prev_vals end_vals)
  end.

(** ** The mergeable store *)
Notation MergeableStore := (gmap (list byte) (list byte)).

(** The source takes a state hash of 32 bytes and panics on another length;
    here the length is free. *)
Definition load_mergeable_channels (state_hash creator : list byte) (seq_num : Z) (store : MergeableStore) :
    Result (list Values) MergeableError :=
  bytes ←? ok_or (store !! encode_mergeable_key state_hash creator seq_num) InvalidStateHash;
  seq ←? decode_deploy_mergeable_data_seq bytes;
  Ok ((λ d, foldl (λ m c, <[nc_hash c := nc_diff c]> m) ∅ d) <$> seq).

(** ** Numbers in the tuple space *)
Inductive NumberError :=
| NotSingleInt
| NotSingleValue
| MergeOverflow
| NoAddedChanges
| NumberReaderFailed (e : RSpaceError)
| NumberPanicked.

Module RhoNumber.
Definition apply (i : Z) : Par := from_expr (GInt i).
Definition unapply (p : Par) : option Z := match single_expr p with Some (GInt v) => Some v | _ => None end.
End RhoNumber.

Definition get_number_with_rnd (par_with_rnd : ListParWithRandom) : Result (Z * Blake2b512Random) NumberError :=
  match lpr_pars par_with_rnd with
  | [p] => num ←? ok_or (RhoNumber.unapply p) NotSingleInt; Ok (num, lpr_random par_with_rnd)
  | _ => Err NotSingleInt
  end.

Section Numbers.
Context (create : list byte → hash) `{!Serialize ListParWithRandom}.

Definition number_read {X} (r : Result X RSpaceError) : Result X NumberError :=
  match r with Ok x => Ok x | Err e => Err (NumberReaderFailed e) end.

Definition decode_rnd (raw : list byte) : Result Blake2b512Random NumberError :=
  match decode_datum raw with
  | None => Err NumberPanicked
  | Some (Err e) => Err (NumberReaderFailed e)
  | Some (Ok datum) => Ok (lpr_random (d_a datum))
  end.

Definition create_datum_encoded (channel_hash : hash) (num : Z) (rnd : Blake2b512Random) : list byte :=
  let par_with_rnd := mkLPR [st_term (sort_par (RhoNumber.apply num))] rnd in
  let data_hash := hash_produce create channel_hash par_with_rnd false in
  encode_datum_bytes (mkDatum par_with_rnd false (mkProduce channel_hash data_hash false)).

(** [retain] with the set of the bytes that were seen. *)
Fixpoint retain_unseen (seen : gset (list byte)) (l : list Blake2b512Random) : list Blake2b512Random :=
  match l with
  | [] => []
  | r :: l =>
      if decide (to_bytes r ∈ seen) then retain_unseen seen l
      else r :: retain_unseen ({[to_bytes r]} ∪ seen) l
  end.

Definition merge_rnds (added : list (list byte)) : Result Blake2b512Random NumberError :=
  if (size (list_to_set added : gset (list byte)) =? 1)%nat then
    first ←? ok_or (head added) NoAddedChanges; decode_rnd first
  else
    randoms ←? try_map decode_rnd added;
    let randoms := sort_by (λ a b, cmp (to_bytes a) (to_bytes b)) (retain_unseen ∅ randoms) in
    ok_or (merge randoms) NumberPanicked.

Definition calculate_number_channel_merge (get_data : hash → Result (list (Datum ListParWithRandom)) RSpaceError)
    (channel_hash : hash) (diff : Z) (changes : ChannelChange) : Result (hash * list (list byte)) NumberError :=
  data ←? number_read (get_data channel_hash);
  if (1 <? length data)%nat then Err NotSingleValue
  else
    init_num ←? match data with d :: _ => n ←? get_number_with_rnd (d_a d); Ok n.1 | [] => Ok 0 end;
    new_val ←? ok_or (i64_checked_add init_num diff) MergeOverflow;
    new_rnd ←? merge_rnds (added changes);
    Ok (channel_hash, [create_datum_encoded channel_hash new_val new_rnd]).

Definition read_number (get_data : hash → Result (list (Datum ListParWithRandom)) RSpaceError) (k : hash) :
    Result Z NumberError :=
  data ←? number_read (get_data k);
  match data with d :: _ => n ←? get_number_with_rnd (d_a d); Ok n.1 | [] => Ok 0 end.
Definition read_mergeable_values (get_data : hash → Result (list (Datum ListParWithRandom)) RSpaceError)
    (channel_hashes : gset hash) : Result Values NumberError :=
  nums ←? try_map (λ ch,
    data ←? number_read (get_data ch);
    if (1 <? length data)%nat then Err NotSingleValue
    else match data with d :: _ => n ←? get_number_with_rnd (d_a d); Ok (ch, n.1) | [] => Ok (ch, 0) end)
    (set_iter channel_hashes);
  Ok (list_to_map nums).

Definition convert_number_channels_to_diff (get_data : hash → Result (list (Datum ListParWithRandom)) RSpaceError)
    (channels_data : list Values) : Result (list Values) NumberError :=
  let keys := set_iter (foldl (λ s m, s ∪ dom m) (∅ : gset hash) channels_data) in
  nums ←? try_map (λ k, n ←? read_number get_data k; Ok (k, n)) keys;
  Ok (calculate_num_channel_diff channels_data (list_to_map nums)).

Definition save_mergeable_channels (get_data : hash → Result (list (Datum ListParWithRandom)) RSpaceError)
    (post_state_hash creator : list byte) (seq_num : Z) (channels_data : list Values) :
    StateResult MergeableStore unit NumberError := λ store,
  match convert_number_channels_to_diff get_data channels_data with
  | Err e => (store, Err e)
  | Ok diffs =>
      let deploy_channels := (λ d, (λ kv, mkNumberChannel kv.1 kv.2) <$> map_iter d) <$> diffs in
      (<[encode_mergeable_key post_state_hash creator seq_num := encode_deploy_mergeable_data_seq deploy_channels]> store,
       Ok ())
  end.
End Numbers.
