(* ===== verification/NumberChannelsSpec.v ===== *)
(** * Number channels: theorems

    The mergeable store returns the differences that were saved, the
    differences of the deploys of a block add up to the change of the block,
    and the merge of a channel without added data panics. *)

From S2P Require Import Prelude BTree Bytes Trace HotStore Scodec SpaceMatcher NativeStore RSpace HistoryRepository Merger MergerSpec Ast ParOps Types Sorter SorterSpec Accounting Substitute Blake2b BipartiteMatch ParCount Matcher Text Eval Reduce NumberChannels.
Local Open Scope list_scope.

(** ** Bytes of integers *)
Lemma byte_val_of z : byte_val (byte_of z) = z mod 256.
Proof.
  unfold byte_val, byte_of. pose proof (Z.mod_pos_bound z 256).
  rewrite u8_val_as by lia. lia.
Qed.

Lemma length_to_be_bytes w z : length (to_be_bytes w z) = w.
Proof. revert z. induction w as [|w IH]; intros z; [done|]. cbn. rewrite length_app, IH. cbn. lia. Qed.

Lemma from_to_be_bytes w z : from_be_bytes (to_be_bytes w z) = z mod 256 ^ Z.of_nat w.
Proof.
  revert z. induction w as [|w IH]; intros z; [by rewrite Z.mod_1_r|].
  unfold from_be_bytes in *. cbn [to_be_bytes]. rewrite foldl_snoc, IH, byte_val_of.
  rewrite Nat2Z.inj_succ, Z.pow_succ_r by lia. rewrite Z.rem_mul_r by lia. lia.
Qed.

Lemma i64_wrap_mod z : i64_range z → i64_wrap (z mod 256 ^ 8) = z.
Proof.
  intros Hz. unfold i64_wrap. change (256 ^ 8) with (2 ^ 64). rewrite Zplus_mod_idemp_l.
  fold (i64_wrap z). by apply i64_wrap_id.
Qed.

(** ** Reading what was written *)
Lemma read_bytes_app n bs rest : length bs = n → read_bytes n (bs ++ rest) = (rest, Ok bs).
Proof.
  intros <-. unfold read_bytes. rewrite decide_False by (rewrite length_app; lia).
  by rewrite drop_app_length, take_app_length.
Qed.

Lemma read_u16_app (n : nat) rest : Z.of_nat n < 65536 → read_u16 (uint16_be (Z.of_nat n) ++ rest) = (rest, Ok n).
Proof.
  intros Hn. unfold read_u16. rewrite (sr_bind_Ok _ _ _ _ _ (read_bytes_app 2 _ rest (length_to_be_bytes 2 _))).
  rewrite from_to_be_bytes. change (256 ^ Z.of_nat 2) with 65536. unfold sr_ret. rewrite Z.mod_small by lia. by rewrite Nat2Z.id.
Qed.

Lemma read_i64_app z rest : i64_range z → read_i64 (int64_be z ++ rest) = (rest, Ok z).
Proof.
  intros Hz. unfold read_i64. rewrite (sr_bind_Ok _ _ _ _ _ (read_bytes_app 8 _ rest (length_to_be_bytes 8 _))).
  rewrite from_to_be_bytes. change (256 ^ Z.of_nat 8) with (256 ^ 8). unfold sr_ret. by rewrite (i64_wrap_mod z Hz).
Qed.

Definition channel_ok (c : NumberChannel) : Prop := length (nc_hash c) = 32%nat ∧ i64_range (nc_diff c).

Lemma read_channel_app c rest :
  channel_ok c → read_channel ((nc_hash c ++ int64_be (nc_diff c)) ++ rest) = (rest, Ok c).
Proof.
  intros [Hh Hd]. unfold read_channel. rewrite <- app_assoc, (sr_bind_Ok _ _ _ _ _ (read_bytes_app 32 _ _ Hh)).
  rewrite (sr_bind_Ok _ _ _ _ _ (read_i64_app _ rest Hd)). by destruct c.
Qed.

Lemma read_entries_app {A} (enc : A → list byte) (m : RB A) (ok : A → Prop) l rest :
  (∀ a rest, ok a → m (enc a ++ rest) = (rest, Ok a)) → Forall ok l →
  read_entries (length l) m ((l ≫= enc) ++ rest) = (rest, Ok l).
Proof.
  intros Hm Hl. induction Hl as [|a l Ha _ IH]; [done|]. cbn [length read_entries]. cbn [mbind list_bind].
  rewrite <- app_assoc, (sr_bind_Ok _ _ _ _ _ (Hm _ _ Ha)). by rewrite (sr_bind_Ok _ _ _ _ _ IH).
Qed.

Definition deploy_ok (d : DeployMergeableData) : Prop := Forall channel_ok d ∧ Z.of_nat (length d) < 65536.

Lemma read_deploy_app d rest : deploy_ok d → read_deploy (encode_deploy_mergeable_data d ++ rest) = (rest, Ok d).
Proof.
  intros [Hc Hl]. unfold read_deploy, encode_deploy_mergeable_data.
  rewrite <- app_assoc, (sr_bind_Ok _ _ _ _ _ (read_u16_app _ _ Hl)).
  by apply (read_entries_app _ _ channel_ok); [intros; apply read_channel_app|].
Qed.

Lemma decode_encode_deploys seq :
  Forall deploy_ok seq → Z.of_nat (length seq) < 65536 →
  decode_deploy_mergeable_data_seq (encode_deploy_mergeable_data_seq seq) = Ok seq.
Proof.
  intros Hs Hl. unfold decode_deploy_mergeable_data_seq, encode_deploy_mergeable_data_seq.
  rewrite (sr_bind_Ok _ _ _ _ _ (read_u16_app _ _ Hl)), <- (app_nil_r (seq ≫= _)).
  by rewrite (read_entries_app _ _ deploy_ok) by (done || apply read_deploy_app).
Qed.

(** ** Differences *)
Lemma lookup_set_vals prev vals k : set_vals prev vals !! k = (vals ∪ prev) !! k.
Proof. unfold set_vals. rewrite (update_entries (λ _ v, v)), lookup_union. by destruct (vals !! k), (prev !! k). Qed.

Lemma foldl_diff (prev m : Values) (l : list (hash * Z)) (k : hash) :
  NoDup l.*1 →
  foldl (λ diff_map kv, match prev !! kv.1 with
                        | Some p => <[kv.1 := i64_wrap (kv.2 - p)]> diff_map
                        | None => diff_map
                        end) m l !! k =
  match (list_to_map l : Values) !! k, prev !! k with
  | Some v, Some p => Some (i64_wrap (v - p))
  | _, _ => m !! k
  end.
Proof.
  revert m. induction l as [|[k' v] l IH]; intros m Hnd; [by cbn; rewrite lookup_empty|].
  cbn in Hnd. apply NoDup_cons in Hnd as [Hk' Hnd]. cbn [foldl fst snd]. rewrite IH by done. cbn [list_to_map foldr].
  destruct (decide (k' = k)) as [->|Hne].
  - rewrite (not_elem_of_list_to_map_1 l k Hk'). cbn. rewrite lookup_insert_eq.
    destruct (prev !! k); [by rewrite lookup_insert_eq|done].
  - cbn. rewrite lookup_insert_ne by done. destruct (prev !! k'); [by rewrite lookup_insert_ne|done].
Qed.

Lemma lookup_diff_of prev vals k :
  diff_of prev vals !! k =
  match vals !! k, prev !! k with Some v, Some p => Some (i64_wrap (v - p)) | _, _ => None end.
Proof.
  unfold diff_of. rewrite foldl_diff by apply NoDup_map_iter_keys.
  by rewrite list_to_map_iter, lookup_empty.
Qed.

(** The last value of a channel, and the sum of its differences. *)
Definition last_value (init : Z) (values : list Values) (k : hash) : Z :=
  foldl (λ v m, default v (m !! k)) init values.
Definition sum_diffs (diffs : list Values) (k : hash) : Z := foldr (λ m s, default 0 (m !! k) + s) 0 diffs.

Lemma calculate_diff_sum values prev k init :
  prev !! k = Some init →
  i64_wrap (init + sum_diffs (calculate_num_channel_diff values prev) k) = i64_wrap (last_value init values k).
Proof.
  revert prev init. induction values as [|vals values IH]; intros prev init Hk; cbn [calculate_num_channel_diff sum_diffs foldr];
    [by rewrite Z.add_0_r|].
  fold (sum_diffs (calculate_num_channel_diff values (set_vals prev vals)) k).
  rewrite lookup_diff_of, Hk. cbn [last_value foldl]. fold (last_value (default init (vals !! k)) values k).
  rewrite <- (IH (set_vals prev vals)); [|by rewrite lookup_set_vals, lookup_union, Hk; destruct (vals !! k)].
  destruct (vals !! k) as [v|]; cbn [default from_option id]; [|by f_equal; lia].
  rewrite Z.add_assoc, <- (i64_wrap_add_l (init + _)), i64_wrap_add_r, i64_wrap_add_l. f_equal. lia.
Qed.

(** ** Keys of the store *)
Lemma i64_wrap_eqm z : ∃ k, i64_wrap z = z + k * 2 ^ 64.
Proof.
  unfold i64_wrap. exists (- ((z + 2 ^ 63) / 2 ^ 64)). pose proof (Z.div_mod (z + 2 ^ 63) (2 ^ 64)). lia.
Qed.

Lemma zigzag_spec n : i64_range n → zigzag_encode n = if decide (0 ≤ n) then 2 * n else - 2 * n - 1.
Proof.
  unfold_ints. intros Hn. unfold zigzag_encode. rewrite Z.shiftl_mul_pow2, Z.shiftr_div_pow2 by lia.
  destruct (i64_wrap_eqm (n * 2 ^ 1)) as [k Hk]. destruct (decide (0 ≤ n)) as [Hp|Hp].
  - rewrite Z.div_small, Z.lxor_0_r, Hk, Z.mod_add by lia. rewrite Z.mod_small; lia.
  - replace (n / 2 ^ 63) with (-1) by (apply Z.div_unique_pos with (n + 2 ^ 63); lia).
    rewrite Z.lxor_m1_r. unfold Z.lnot. rewrite Hk, <- Z.sub_1_r.
    replace (- (n * 2 ^ 1 + k * 2 ^ 64) - 1) with (- 2 * n - 1 + - k * 2 ^ 64) by lia.
    rewrite Z.mod_add, Z.mod_small; lia.
Qed.

Lemma lor_128 x : 0 ≤ x < 128 → Z.lor x 128 = x + 128.
Proof.
  intros Hx. assert (Z.land x 128 = 0) as Hl.
  { apply Z.bits_inj'. intros i Hi. change 128 with (2 ^ 7). rewrite Z.land_spec, Z.bits_0, Z.pow2_bits_eqb by lia.
    destruct (Z.eqb_spec 7 i) as [<-|]; [|apply andb_false_r].
    destruct (decide (x = 0)) as [->|]; [by rewrite Z.bits_0|].
    rewrite Z.bits_above_log2; [done|lia|]. apply Z.log2_lt_pow2; lia. }
  by rewrite Z.add_nocarry_lxor, Z.lxor_lor.
Qed.

(** The value of a variable-length integer. *)
Definition varint_val (l : list byte) : Z := foldr (λ b acc, byte_val b mod 128 + 128 * acc) 0 l.

Lemma varint_val_loop fuel n : 0 ≤ n < 128 ^ Z.of_nat (S fuel) → varint_val (varint_loop fuel n) = n.
Proof.
  revert n. induction fuel as [|fuel IH]; intros n Hn; cbn [varint_loop].
  - cbn [varint_val foldr]. rewrite byte_val_of. change (128 ^ Z.of_nat 1) with 128 in Hn.
    rewrite !Z.mod_small; lia || (rewrite ?Z.mod_small; lia).
  - rewrite Nat2Z.inj_succ, Z.pow_succ_r in Hn by lia. case_bool_decide as Hb; cbn [varint_val foldr].
    + fold (varint_val (varint_loop fuel (Z.shiftr n 7))). rewrite Z.shiftr_div_pow2 by lia. change (2 ^ 7) with 128.
      rewrite IH by (split; [apply Z.div_pos; lia|apply Z.div_lt_upper_bound; lia]).
      rewrite byte_val_of. change 127 with (Z.ones 7). rewrite Z.land_ones by lia. change (2 ^ 7) with 128.
      pose proof (Z.mod_pos_bound n 128).
      rewrite lor_128, (Z.mod_small (n mod 128 + 128) 256) by lia.
      replace (n mod 128 + 128) with (n mod 128 + 1 * 128) by lia.
      rewrite Z.mod_add, Z.mod_mod by lia. pose proof (Z.div_mod n 128). lia.
    + rewrite byte_val_of, !Z.mod_small; lia || (rewrite ?Z.mod_small; lia).
Qed.

Lemma vlong_inj n n' : i64_range n → i64_range n' → vlong_encode n = vlong_encode n' → n = n'.
Proof.
  intros Hn Hn' H. apply (f_equal varint_val) in H. unfold vlong_encode, varint_encode in H.
  pose proof (zigzag_spec n Hn) as Hz. pose proof (zigzag_spec n' Hn') as Hz'. unfold_ints.
  rewrite !varint_val_loop in H by (rewrite ?Hz, ?Hz'; change (128 ^ Z.of_nat 11) with (2 ^ 77); repeat case_decide; lia).
  rewrite Hz, Hz' in H. repeat case_decide; lia.
Qed.

Lemma var_size_inj a b x y :
  Z.of_nat (length a) < 65536 → Z.of_nat (length b) < 65536 →
  var_size_u16 a ++ x = var_size_u16 b ++ y → a = b ∧ x = y.
Proof.
  intros Ha Hb H. unfold var_size_u16 in H. rewrite <- !app_assoc in H.
  pose proof (read_u16_app _ (a ++ x) Ha) as Hra. rewrite H, (read_u16_app _ (b ++ y) Hb) in Hra.
  injection Hra as Hr Hl. apply app_inj_1; [lia|done].
Qed.

Definition key_ok (state_hash creator : list byte) (seq_num : Z) : Prop :=
  Z.of_nat (length state_hash) < 65536 ∧ Z.of_nat (length creator) < 65536 ∧ i64_range seq_num.

Lemma mergeable_key_inj s c n s' c' n' :
  key_ok s c n → key_ok s' c' n' → encode_mergeable_key s c n = encode_mergeable_key s' c' n' →
  (s, c, n) = (s', c', n').
Proof.
  intros (Hs & Hc & Hn) (Hs' & Hc' & Hn') H. unfold encode_mergeable_key in H.
  apply var_size_inj in H as [-> H]; [|done..]. apply var_size_inj in H as [-> H]; [|done..].
  by apply vlong_inj in H as ->.
Qed.

(** ** Saving and loading *)
Lemma try_map_keyed {E} (f : hash → Result Z E) (keys : list hash) nums (k : hash) :
  try_map (λ k, n ←? f k; Ok (k, n)) keys = Ok nums → k ∈ keys →
  ∃ n, f k = Ok n ∧ (list_to_map nums : Values) !! k = Some n.
Proof.
  revert nums. induction keys as [|g keys IH]; intros nums H Hk; [by inversion Hk|].
  cbn [try_map] in H. destruct (f g) as [n|] eqn:Hg; [|done].
  destruct (try_map _ keys) as [rest|] eqn:Hr; [|done]. injection H as <-.
  cbn [list_to_map foldr fst snd]. destruct (decide (g = k)) as [->|Hne].
  - exists n. cbn. by rewrite lookup_insert_eq.
  - apply elem_of_cons in Hk as [?|Hk]; [congruence|]. cbn. rewrite lookup_insert_ne by done. by apply IH.
Qed.

Lemma foldl_dom_mono (values : list Values) (k : hash) (s : gset hash) :
  k ∈ s → k ∈ foldl (λ (s : gset hash) (m : Values), s ∪ dom m) s values.
Proof.
  revert s. induction values as [|m values IH]; intros s Hk; [done|]. apply IH. by apply elem_of_union_l.
Qed.
Lemma keys_of_values (values : list Values) (m : Values) (k : hash) (s : gset hash) :
  m ∈ values → is_Some (m !! k) → k ∈ foldl (λ (s : gset hash) (m : Values), s ∪ dom m) s values.
Proof.
  intros Hm Hk. revert s. induction Hm as [m values|m m' values _ IH]; intros s; cbn [foldl]; [|by apply IH].
  apply foldl_dom_mono, elem_of_union_r. by apply elem_of_dom.
Qed.

Lemma calculate_diff_ok values prev :
  Forall (λ m : Values, map_Forall (λ h _, length h = 32%nat) m ∧ Z.of_nat (size m) < 65536) values →
  Forall (λ d : Values, deploy_ok ((λ kv, mkNumberChannel kv.1 kv.2) <$> map_iter d)) (calculate_num_channel_diff values prev).
Proof.
  intros Hv. revert prev. induction Hv as [|m values [Hm Hl] _ IH]; intros prev; constructor; [|apply IH].
  assert (dom (diff_of prev m) ⊆ dom m) as Hsub.
  { intros k [v Hk]%elem_of_dom. rewrite lookup_diff_of in Hk. apply elem_of_dom. by destruct (m !! k). }
  split.
  - apply Forall_fmap, Forall_forall. intros [k v] Hk%elem_of_map_iter. split; cbn.
    + assert (k ∈ dom m) as [w Hw]%elem_of_dom by (apply Hsub; by apply elem_of_dom). apply (Hm _ _ Hw).
    + rewrite lookup_diff_of in Hk. destruct (m !! k), (prev !! k); try done. injection Hk as <-. apply i64_wrap_range.
  - rewrite length_fmap, length_map_iter. apply subseteq_size in Hsub. rewrite !size_dom in Hsub. lia.
Qed.

Lemma length_calculate_diff values prev : length (calculate_num_channel_diff values prev) = length values.
Proof. revert prev. induction values as [|m values IH]; intros prev; [done|]. cbn. by rewrite IH. Qed.

Lemma rebuild_map (d : Values) :
  foldl (λ m c, <[nc_hash c := nc_diff c]> m) (∅ : Values) ((λ kv, mkNumberChannel kv.1 kv.2) <$> map_iter d) = d.
Proof.
  rewrite foldl_fmap. cbn. apply map_eq. intros k. change (set_vals ∅ d !! k = d !! k).
  by rewrite lookup_set_vals, map_union_empty.
Qed.

Section Store.
Context `{!Serialize ListParWithRandom}.
Context (get_data : hash → Result (list (Datum ListParWithRandom)) RSpaceError).

(** C31: The mergeable store gives back what was saved.  When the numbers of
    a block are saved, loading them returns one map per deploy such that the
    number of a channel before the block plus its differences is, at 64 bits,
    its number after the last deploy that touched it; and the entries of other
    blocks are not touched. *)
Theorem saved_differences_load s c n values store store'
    (Hkey : key_ok s c n) (Hlen : Z.of_nat (length values) < 65536)
    (Hvalues : Forall (λ m : Values, map_Forall (λ h _, length h = 32%nat) m ∧ Z.of_nat (size m) < 65536) values)
    (Hsave : save_mergeable_channels get_data s c n values store = (store', Ok ())) :
  (∃ diffs, load_mergeable_channels s c n store' = Ok diffs ∧ length diffs = length values ∧
   ∀ m k, m ∈ values → is_Some (m !! k) → ∃ init, read_number get_data k = Ok init ∧
     i64_wrap (init + sum_diffs diffs k) = i64_wrap (last_value init values k)) ∧
  (∀ s' c' n', key_ok s' c' n' → (s', c', n') ≠ (s, c, n) →
   load_mergeable_channels s' c' n' store' = load_mergeable_channels s' c' n' store).
Proof.
  unfold save_mergeable_channels, convert_number_channels_to_diff in Hsave.
  destruct (try_map _ _) as [nums|] eqn:Hnums; [|done]. injection Hsave as <-. split.
  - eexists. split_and!; [|apply length_calculate_diff|].
    + unfold load_mergeable_channels. rewrite lookup_insert_eq. cbn [ok_or]. rewrite decode_encode_deploys.
      * f_equal. rewrite <- list_fmap_compose. rewrite <- (list_fmap_id (calculate_num_channel_diff _ _)) at 2.
        apply list_fmap_ext. intros _ d _. apply rebuild_map.
      * apply Forall_fmap. by apply calculate_diff_ok.
      * by rewrite length_fmap, length_calculate_diff.
    + intros m k Hm Hk. destruct (try_map_keyed _ _ _ k Hnums) as (init & Hi & Hl).
      { apply elem_of_set_iter. by eapply keys_of_values. }
      exists init. split; [done|]. by apply calculate_diff_sum.
  - intros s' c' n' Hk' Hne. unfold load_mergeable_channels. rewrite lookup_insert_ne; [done|].
    intros He. apply Hne. symmetry. by apply mergeable_key_inj.
Qed.
End Store.

(** ** Merging a channel *)
(** Merging a number channel to whose data nothing was added panics: the
    generators to merge are none, and [Blake2b512Random::merge] asserts that
    there are two; the error message for this case is not reached. *)
Theorem no_added_data_panics create `{!Serialize ListParWithRandom}
    (get_data : hash → Result (list (Datum ListParWithRandom)) RSpaceError) h diff changes init new_val
    (Hnone : added changes = []) (Hsingle : ∃ data, get_data h = Ok data ∧ (length data ≤ 1)%nat)
    (Hread : read_number get_data h = Ok init) (Hadd : i64_checked_add init diff = Some new_val) :
  calculate_number_channel_merge create get_data h diff changes = Err NumberPanicked.
Proof.
  destruct Hsingle as (data & Hd & Hl). unfold calculate_number_channel_merge. unfold read_number in Hread.
  rewrite Hd in *. cbn [number_read] in *. destruct (Nat.ltb_spec 1 (length data)) as [|_]; [lia|].
  by rewrite Hread, Hadd, Hnone.
Qed.

Module NumberExample.

#[local] Instance lpr_serialize : Serialize ListParWithRandom := { ser_encode := λ _, []; ser_decode := λ _, None }.
Definition get_data (h : hash) : Result (list (Datum ListParWithRandom)) RSpaceError := Ok [].
Definition h : hash := repeat x01 32.
Definition values : list Values := [{[h := 5]}; {[h := 3]}].

Lemma saved_differences_load_witness :
  ∃ diffs, load_mergeable_channels h [x02] 7 (save_mergeable_channels get_data h [x02] 7 values ∅).1 = Ok diffs ∧
  length diffs = 2%nat.
Proof.
  destruct (saved_differences_load get_data h [x02] 7 values ∅ (save_mergeable_channels get_data h [x02] 7 values ∅).1)
    as [(diffs & Hload & Hlen & _) _].
  - split_and!; unfold_ints; cbn; lia.
  - cbn. lia.
  - repeat constructor; try (apply map_Forall_singleton; reflexivity); rewrite map_size_singleton; lia.
  - reflexivity.
  - exists diffs. split; [exact Hload|exact Hlen].
Defined.

Lemma no_added_data_panics_witness :
  calculate_number_channel_merge id get_data h 4 (mkChange [] [[x05]]) = Err NumberPanicked.
Proof. apply (no_added_data_panics id get_data h 4 (mkChange [] [[x05]]) 0 4); [reflexivity|exists []; split; [reflexivity|cbn; lia]|reflexivity..]. Defined.
End NumberExample.
