(* ===== verification/MergeIndex.v ===== *)
(** * The index of a block for merging

    [casper/src/merging.rs] and the conversion of events of
    [casper/src/event_converter.rs]: the index of the deploys of a block and
    of the chains of deploys that depend on each other, the relations between
    chains, the decisions of the final blocks and the merged state.  The scope
    of a merge is in [Casper].  The cache of block indices and the regeneration
    of a missing entry of the mergeable store are not modelled. *)

From S2P Require Import Prelude BTree Bytes Refined ConflictResolution RadixCodec RadixTree Block Trace HotStore Scodec SpaceMatcher NativeStore RSpace HistoryRepository Merger Ast ParOps Types Sorter SorterSpec Accounting Substitute Blake2b BipartiteMatch ParCount Matcher Text Eval Reduce NumberChannels.
Local Open Scope list_scope.

(** ** Events of a block *)
Definition to_bytes_u8 (l : list Z) : list byte := byte_of <$> l.

(** [Blake2b256Hash::from_byte_array] asserts the length. *)
Definition bytes_to_hash (l : list Z) : option hash :=
  if (length l =? 32)%nat then Some (to_bytes_u8 l) else None.

Definition to_rspace_produce (pe : Block.ProduceEvent) : option Produce :=
  c ← bytes_to_hash (Block.pe_channels_hash pe);
  h ← bytes_to_hash (Block.pe_hash pe);
  Some (mkProduce c h (Block.pe_persistent pe)).
Definition to_rspace_consume (ce : Block.ConsumeEvent) : option Consume :=
  cs ← mapM bytes_to_hash (Block.ce_channels_hashes ce);
  h ← bytes_to_hash (Block.ce_hash ce);
  Some (mkConsume cs h (Block.ce_persistent ce)).

(** [as usize] of an [i32]. *)
Definition as_usize (z : Z) : nat := Z.to_nat (z mod 2 ^ 64).

(** A map of produces, whose key stays when an equal one is inserted. *)
Definition insert_counter (m : gmap hash (Produce * nat)) (pn : Produce * nat) : gmap hash (Produce * nat) :=
  <[p_hash pn.1 := (match m !! p_hash pn.1 with Some (p, _) => p | None => pn.1 end, pn.2)]> m.

Definition to_rspace_event (event : Block.Event) : option Event :=
  match event with
  | Block.EvProduce pe => EvProduce <$> to_rspace_produce pe
  | Block.EvConsume ce => EvConsume <$> to_rspace_consume ce
  | Block.EvComm comme =>
      c ← to_rspace_consume (Block.consume comme);
      ps ← mapM (λ pe, p ← to_rspace_produce pe; Some (p, as_usize (Block.times_repeated pe))) (Block.produces comme);
      let repeated := foldl insert_counter ∅ ps in
      let produces := sort_by (λ a b, cmp (produce_key a) (produce_key b)) ((λ kv, kv.2.1) <$> map_iter repeated) in
      Some (EvComm (mkComm c produces
        (list_to_set ((λ p, as_usize (Block.channel_index p)) <$> Block.peeks comme)) (snd <$> repeated)))
  end.

(** ** Deploys and chains of deploys *)
Record DeployIndex := mkDeployIndex {
  di_cost : Z;
  di_event_log_index : EventLogIndex;
}.
(** A set of deploy indices is ordered by the id: the map by id. *)
Notation DeployIndices := (gmap (list byte) DeployIndex).

Record DeployChainIndex := mkChain {
  host_block : hash;
  deploys_with_cost : gset (list byte * Z);
  chain_pre_state_hash : hash;
  chain_post_state_hash : hash;
  event_log_index : EventLogIndex;
  state_changes : StateChange;
}.
Definition chain_eqb (a b : DeployChainIndex) : bool := bool_decide (deploys_with_cost a = deploys_with_cost b).
Definition chain_cmp (a b : DeployChainIndex) : comparison :=
  cmp (host_block a, chain_post_state_hash a) (host_block b, chain_post_state_hash b).

Definition deploy_chain_cost (r : DeployChainIndex) : Z :=
  foldl (λ s d, i64_wrap (s + d.2)) 0 (set_iter (deploys_with_cost r)).
Definition chain_depends (a b : DeployChainIndex) : bool := depends (event_log_index a) (event_log_index b).

Definition chain_ids (d : DeployChainIndex) : gset (list byte) := set_map fst (deploys_with_cost d).
Definition branches_are_conflicting (a b : list DeployChainIndex) : bool :=
  let ids l := ⋃ (chain_ids <$> l) in
  let event l := foldl (λ acc d, index_combine acc (event_log_index d)) index_empty l in
  negb (bool_decide (ids a ## ids b)) || are_conflicting (event a) (event b).
Definition deploys_are_conflicting (a b : DeployChainIndex) : bool :=
  negb (bool_decide (chain_ids a ## chain_ids b)) || are_conflicting (event_log_index a) (event_log_index b).

(** [BTreeSet::insert]: the set is ordered by [chain_cmp], and a chain that
    compares equal to one of the set is not inserted. *)
Fixpoint chain_insert (c : DeployChainIndex) (s : list DeployChainIndex) : list DeployChainIndex :=
  match s with
  | [] => [c]
  | d :: s => match chain_cmp c d with
              | Lt => c :: d :: s
              | Eq => d :: s
              | Gt => d :: chain_insert c s
              end
  end.

(** ** Building the index *)
Inductive IndexError :=
| IxReader (e : RSpaceError)
| IxMerge (e : MergeError)
| IxNumber (e : NumberError)
| IxHistory (e : HistoryError)
| IxCostTooLarge
| IxCountMismatch
| IxPanicked.

Definition map_error {X E F} (f : E → F) (r : Result X E) : Result X F :=
  match r with Ok x => Ok x | Err e => Err (f e) end.

Section Index.
Context (create : list byte → hash).
Context {C P A K : Type} `{!Ord C} `{Countable C} `{!Serialize C, !Serialize P, !Serialize A, !Serialize K}.
Context (history_repository : HistoryRepository).

Definition reader_at (state_hash : hash) : Result HistoryReaderImpl IndexError :=
  map_error IxHistory (open_reader history_repository state_hash).

(** The produces of a log, without duplicates and in order. *)
Definition produces_of_log (events : Log) : PSet :=
  foldl (λ s e, match e with
                | EvProduce p => add_produce p s
                | EvComm c => foldl (λ s p, add_produce p s) s (comm_produces c)
                | EvConsume _ => s
                end) ∅ events.

(** A produce that is in the state before, and one on a channel with a join. *)
Definition pre_state_facts (r : HistoryReaderImpl) (s : PSet * PSet) (hp : hash * Produce) : Result (PSet * PSet) IndexError :=
  let '(exists_in_pre_state, touches) := s in
  let p := hp.2 in
  data ←? map_error IxReader (reader_get_data (A := A) r (p_channels_hash p));
  let exists_in_pre_state :=
    if existsb (λ d, bool_decide (p_hash (d_source d) = p_hash p)) data then add_produce p exists_in_pre_state
    else exists_in_pre_state in
  joins ←? map_error IxReader (reader_get_joins (C := C) r (p_channels_hash p));
  Ok (exists_in_pre_state, if existsb (λ j, (1 <? length j)%nat) joins then add_produce p touches else touches).

Definition create_event_log_index (events : list Block.Event) (pre_state_hash : hash) (mergeable_chs : NumberChannelsDiff) :
    Result EventLogIndex IndexError :=
  pre_reader ←? reader_at pre_state_hash;
  rspace_events ←? ok_or (mapM to_rspace_event events) IxPanicked;
  facts ←? try_fold (pre_state_facts pre_reader) (map_iter (produces_of_log rspace_events)) (∅, ∅);
  let contains (s : PSet) (p : Produce) := bool_decide (is_Some (s !! p_hash p)) in
  Ok (index_apply (contains facts.1) (contains facts.2) rspace_events mergeable_chs).

Definition chain_apply (host : hash) (deploys : DeployIndices) (pre_state_hash post_state_hash : hash) :
    Result DeployChainIndex IndexError :=
  let with_cost := list_to_set ((λ kv, (kv.1, di_cost kv.2)) <$> map_iter deploys) in
  let index := foldl (λ acc kv, index_combine acc (di_event_log_index kv.2)) index_empty (map_iter deploys) in
  pre ←? reader_at pre_state_hash;
  post ←? reader_at post_state_hash;
  changes ←? map_error IxMerge
    (state_change_apply create (reader_binary (C:=C) (P:=P) (A:=A) (K:=K) pre) (reader_binary post) index);
  Ok (mkChain host with_cost pre_state_hash post_state_hash index changes).

Definition sys_deploy_id (block_hash : list byte) (prefix : byte) : list byte := block_hash ++ [prefix].

(** [BTreeSet::insert] of a deploy index. *)
Definition insert_index (id : list byte) (d : DeployIndex) (m : DeployIndices) : DeployIndices :=
  match m !! id with Some _ => m | None => <[id := d]> m end.

Definition index_user_deploy (pre_state_hash : hash) (m : DeployIndices) (dm : Block.ProcessedDeploy * NumberChannelsDiff) :
    Result DeployIndices IndexError :=
  let '(d, merge_chs) := dm in
  if Block.is_failed d then Ok m
  else
    index ←? create_event_log_index (Block.deploy_log d) pre_state_hash merge_chs;
    let c := Block.cost (Block.pd_cost d) in
    if bool_decide (c ≤ i64_max) then Ok (insert_index (to_bytes_u8 (Block.sd_sig (Block.deploy d))) (mkDeployIndex c index) m)
    else Err IxCostTooLarge.

Definition index_system_deploy (block_hash : list byte) (pre_state_hash : hash) (m : DeployIndices)
    (dm : Block.ProcessedSystemDeploy * NumberChannelsDiff) : Result DeployIndices IndexError :=
  let '(sd, merge_chs) := dm in
  match sd with
  | Block.Failed _ _ => Ok m
  | Block.Succeeded log system_deploy =>
      let id := sys_deploy_id block_hash
        match system_deploy with Block.Slash _ => x01 | Block.CloseBlock => x02 | Block.EmptySystemDeploy => x03 end in
      index ←? create_event_log_index log pre_state_hash merge_chs;
      Ok (insert_index id (mkDeployIndex 0 index) m)
  end.

Definition deploy_depends (m : DeployIndices) (l r : list byte) : bool :=
  match m !! l, m !! r with
  | Some l, Some r => depends (di_event_log_index l) (di_event_log_index r)
  | _, _ => false
  end.

Definition chain_of (m : DeployIndices) (ids : gset (list byte)) : DeployIndices :=
  filter (λ kv, kv.1 ∈ ids) m.

(** The chains of a block. *)
Definition block_index_apply (block_hash : list byte) (usr : list Block.ProcessedDeploy)
    (sys : list Block.ProcessedSystemDeploy) (pre_state_hash post_state_hash : hash)
    (mergeable_chan_data : list NumberChannelsDiff) : Result (list DeployChainIndex) IndexError :=
  if negb (length usr + length sys =? length mergeable_chan_data)%nat then Err IxCountMismatch
  else
    let usr_mergeable := take (length usr) mergeable_chan_data in
    let sys_mergeable := drop (length usr) mergeable_chan_data in
    m ←? try_fold (index_user_deploy pre_state_hash) (zip usr usr_mergeable) ∅;
    m ←? try_fold (index_system_deploy block_hash pre_state_hash) (zip sys sys_mergeable) m;
    let dependency_map := ConflictResolution.compute_dependency_map (dom m) (dom m) (deploy_depends m) in
    let chains := ConflictResolution.compute_greedy_non_intersecting_branches (dom m) dependency_map in
    try_map (λ ids, chain_apply block_hash (chain_of m ids) pre_state_hash post_state_hash) chains.
End Index.

(** ** The decisions of the final blocks *)
Record BlockIndex := mkBlockIndex {
  bi_block_hash : list byte;
  deploy_chains : list DeployChainIndex;
}.

(** A chain is rejected when the rejections of its block hold its first deploy. *)
Definition is_rejected (rejections_map : gmap (list byte) (gset (list byte))) (b : BlockIndex) (chain : DeployChainIndex) : bool :=
  match rejections_map !! bi_block_hash b, head (set_iter (deploys_with_cost chain)) with
  | Some rej, Some d => bool_decide (d.1 ∈ rej)
  | _, _ => false
  end.

Definition decide_chain rejections_map (b : BlockIndex) (s : list DeployChainIndex * list DeployChainIndex)
    (chain : DeployChainIndex) : list DeployChainIndex * list DeployChainIndex :=
  if is_rejected rejections_map b chain then (chain_insert chain s.1, s.2) else (s.1, chain_insert chain s.2).
(** The rejected and the accepted chains of the final blocks. *)
Definition final_decisions rejections_map (final_indices : list BlockIndex) : list DeployChainIndex * list DeployChainIndex :=
  foldl (λ s b, foldl (decide_chain rejections_map b) s (deploy_chains b)) ([], []) final_indices.

(** ** The merged state *)
Section Merged.
Context (create : list byte → hash).
Context {C P K : Type} `{!Ord C} `{Countable C}.
Context `{!Serialize C, !Serialize P, !Serialize ListParWithRandom, !Serialize K}.
Notation Action := (@HotStoreTrieAction C P ListParWithRandom K).

Definition override_action (get_data : hash → Result (list (Datum ListParWithRandom)) RSpaceError) (all_changes : StateChange)
    (overrides : gmap hash Action) (hd : hash * Z) : Result (gmap hash Action) NumberError :=
  let changes := default change_empty (datums_changes all_changes !! hd.1) in
  act ←? calculate_number_channel_merge create get_data hd.1 hd.2 changes;
  Ok (<[hd.1 := TrieInsertBinaryProduce act.1 act.2]> overrides).

(** The root of the merged state.  The stores are shared; the repository itself
    stays at its own history. *)
Definition compute_merged_state (to_merge : list DeployChainIndex) (base_state : hash) :
    StateResult HistoryRepository hash IndexError := λ repo,
  let prepared :=
    reader ←? map_error IxHistory (open_reader repo base_state);
    let all_changes := foldl (λ acc b, state_change_combine acc (state_changes b)) state_change_empty to_merge in
    let mergeable_diffs := foldl (λ m b, add_diffs m (number_channels_data (event_log_index b))) ∅ to_merge in
    overrides ←? map_error IxNumber
      (try_fold (override_action (reader_get_data reader) all_changes) (map_iter mergeable_diffs) ∅);
    map_error IxMerge (compute_trie_actions create all_changes (reader_binary (K := K) reader) mergeable_diffs
      (λ h _ _, overrides !! h)) in
  match prepared with
  | Err e => (repo, Err e)
  | Ok trie_actions =>
      let '(new_repo, r) := (_ ←$ repo_reset base_state; do_checkpoint_with_native create trie_actions []) repo in
      (mkRepo (current_history repo) (radix new_repo) (roots new_repo) (leaf_store new_repo),
       match r with
       | Err e => Err (IxHistory e)
       | Ok _ => Ok (RadixTree.root_hash (current_history new_repo))
       end)
  end.
End Merged.
