(* ===== verification/MergeIndexSpec.v ===== *)
(** * The index of a block for merging: theorems

    The chains of one block collapse to one in the set of final decisions, and
    the conflict of chains is symmetric. *)

From S2P Require Import Prelude BTree Bytes Refined ConflictResolution RadixCodec RadixTree RadixTreeSpec RadixHistory Block Trace HotStore Scodec SpaceMatcher NativeStore RSpace HistoryRepository HistorySpec HistoryExample Merger MergerSpec Ast ParOps Types Sorter SorterSpec Accounting Substitute Blake2b BipartiteMatch ParCount Matcher Text Eval Reduce NumberChannels MergeIndex.
Local Open Scope list_scope.

(** ** Chains of one block *)
Lemma cmp_refl_chain (c d : DeployChainIndex) :
  host_block c = host_block d → chain_post_state_hash c = chain_post_state_hash d → chain_cmp c d = Eq.
Proof. intros Hh Hp. unfold chain_cmp. rewrite Hh, Hp. apply cmp_refl. Qed.

Section Chains.
Context (create : list byte → hash).
Context {C P A K : Type} `{!Ord C} `{Countable C} `{!Serialize C, !Serialize P, !Serialize A, !Serialize K}.
Context (repo : HistoryRepository).
Notation apply := (chain_apply create (C:=C) (P:=P) (A:=A) (K:=K) repo).
Notation index := (block_index_apply create (C:=C) (P:=P) (A:=A) (K:=K) repo).

Lemma chain_apply_ids host m pre post c :
  apply host m pre post = Ok c → host_block c = host ∧ chain_post_state_hash c = post.
Proof.
  unfold chain_apply. destruct (reader_at _ pre); [|done]. destruct (reader_at _ post); [|done].
  destruct (map_error _ _); [|done]. by intros [= <-].
Qed.

Lemma block_index_ids host usr sys pre post chs chains :
  index host usr sys pre post chs = Ok chains →
  Forall (λ c, host_block c = host ∧ chain_post_state_hash c = post) chains.
Proof.
  unfold block_index_apply. destruct (negb _); [done|]. destruct (try_fold _ _ _); [|done].
  destruct (try_fold _ _ _); [|done]. cbn zeta. intros Hl%try_map_Ok.
  induction Hl as [|ids c ? ? Hc _ IH]; constructor; [by apply chain_apply_ids in Hc|exact IH].
Qed.
End Chains.

Lemma collapse_rest host post (cs : list DeployChainIndex) c :
  Forall (λ c, host_block c = host ∧ chain_post_state_hash c = post) (c :: cs) →
  foldl (λ s c, chain_insert c s) [c] cs = [c].
Proof.
  intros [[Hh Hp] Hcs]%Forall_cons. induction Hcs as [|d cs [Hh' Hp'] _ IH]; [done|].
  cbn [foldl chain_insert]. by rewrite cmp_refl_chain by congruence.
Qed.

(** The accepted chains of a block without rejections. *)
Lemma decisions_of_block b cs s :
  foldl (decide_chain ∅ b) ([], s) cs = ([], foldl (λ s c, chain_insert c s) s cs).
Proof.
  revert s. induction cs as [|c cs IH]; intros s; [done|]. cbn [foldl]. unfold decide_chain at 2, is_rejected.
  rewrite lookup_empty. cbn. apply IH.
Qed.

(** C39: The chains of a block are the deploys that do not depend on each
    other, but the order of [DeployChainIndex] compares only the block and the
    state after it: of the chains of a final block that has no rejections, the
    set of the accepted chains holds the first alone. *)
Theorem chains_of_a_block_collapse create {C P A K} `{!Ord C} `{Countable C}
    `{!Serialize C, !Serialize P, !Serialize A, !Serialize K} repo host usr sys pre post chs chains
    (Hindex : block_index_apply create (C:=C) (P:=P) (A:=A) (K:=K) repo host usr sys pre post chs = Ok chains) :
  final_decisions ∅ [mkBlockIndex host chains] = ([], take 1 chains).
Proof.
  apply block_index_ids in Hindex. unfold final_decisions. cbn [foldl deploy_chains]. rewrite decisions_of_block.
  destruct chains as [|c cs]; [done|]. cbn [foldl chain_insert take]. f_equal. by eapply collapse_rest.
Qed.

(** ** Conflicts of chains *)
Lemma deploys_conflict_sym a b :
  same_events (event_log_index a) (event_log_index b) → deploys_are_conflicting a b = deploys_are_conflicting b a.
Proof.
  intros Hs. unfold deploys_are_conflicting. f_equal.
  - f_equal. by apply bool_decide_ext; split; apply disjoint_sym.
  - apply eq_true_iff_eq. rewrite !are_conflicting_spec. pose proof (same_events_sym _ _ Hs).
    split; intros; destruct_or?; eauto 10 using produce_race_sym, consume_race_sym.
Qed.

(** ** Examples *)
Module MergeExample.

(** Two deploys without events. *)
Definition user_deploy (sig : Z) : Block.ProcessedDeploy :=
  Block.mkProcessed (Block.mkSigned (Block.mkDeployData [] 0 0 0 0 []) [] [sig] []) (Block.mkPCost 1) [] false None.
Definition root0 : hash := RadixTree.empty_root_hash sum_hash.
Definition index0 : Result (list DeployChainIndex) IndexError :=
  block_index_apply sum_hash (C:=byte) (P:=byte) (A:=byte) (K:=byte) repo0 [x01] [user_deploy 1; user_deploy 2] []
    root0 root0 [∅; ∅].

Lemma index0_chains : (match index0 with Ok l => length l | Err _ => 0%nat end) = 2%nat.
Proof. vm_compute. reflexivity. Qed.

Lemma chains_of_a_block_collapse_witness :
  ∃ chains, index0 = Ok chains ∧ length chains = 2%nat ∧
  final_decisions ∅ [mkBlockIndex [x01] chains] = ([], take 1 chains).
Proof.
  pose proof index0_chains as Hl. destruct index0 as [chains|e] eqn:Hi; [|discriminate Hl].
  exists chains. split_and!; [reflexivity|exact Hl|].
  exact (chains_of_a_block_collapse sum_hash (C:=byte) (P:=byte) (A:=byte) (K:=byte) repo0 [x01] [user_deploy 1; user_deploy 2] [] root0 root0 [∅; ∅] chains Hi).
Defined.
End MergeExample.
